(* ===== verification/_CoqProject ===== *)
-Q . S2P
Prelude.v
Endian.v
Checksum.v
Fips180.v
Iac1.v
Format.v
Security.v
Storage.v
Mirror.v
Objects.v
Locator.v
Discovery.v
Kernel.v
KernelMount.v
Checkpoint.v
Crash.v
Heal.v
FormatVolume.v
FormatPlan.v
Formatting.v
FreshVolume.v
Allocator.v
FreeExtents.v
AllocChoice.v
Transactions.v
Rollback.v
TxSteps.v
AllocationMap.v
DirtySet.v
MapTree.v
MapLoad.v
NewVolume.v
Encrypted.v
EncryptedDevice.v
EncryptedDomains.v
EncryptedOpen.v
