(* ===== verification/Prelude.v ===== *)
(** A verification library for InfiltratorFS, a copy-on-write filesystem with a
    portable C core, a Linux driver and tools.

    * The program and its parts

    A volume is a device of 4096-byte blocks.  All access goes through a dispatch
    table of callbacks ([src/src/storage.c]); a backend may be a file, a mirror of
    several backends ([storage_mirror.c]) or an encrypted envelope around another
    one ([storage_encrypted.c]).  Every metadata block checks itself ([fs.c],
    [checksum.c]).  Three copies of the superblock, found through two locator blocks
    ([locator.c]), name the roots of everything else: the tree of pages that holds the
    allocation bitmap ([volume/allocation-map.inc]), and the object index, a radix tree
    from object numbers to blocks ([volume/index-tree.inc]).  A transaction ([volume/core.inc])
    allocates new blocks, defers the freeing of committed ones, and is made durable by
    the publication of a new superblock ([checkpoint_protocol.h]); recovery after a crash
    takes the newest superblock it can find.  Access control is [security.c], the
    compression of data blocks [iac1.h].

    * Files

    - [Prelude]: integers at machine width, bytes and buffers as [list Z], results, tactics
      and the hint database [infs].
    - [Endian], [Format]: byte order as an interface with laws, [include/infilfs/format.h] and
      [status.h], the platform services as an interface.
    - [Checksum]: [checksum.c].  The CRC table against polynomial division, burst detection.
    - [Fips180]: SHA-256 as the standard defines it, on vectors of bits and with constants
      computed from the roots of the primes, and that the scalar code computes it.
    - [Iac1]: [iac1.h].  Round trip, safety of the decoder with every access to its buffers checked,
      the two bounds that do not hold.
    - [Security]: [security.c].  The access check against its specification, inheritance.
    - [Storage], [Mirror]: [storage.c], [storage_mirror.c].  The contract of a backend as
      the class [StorageLaws]; mirrored reads and writes are proved against it.
    - [Encrypted], [EncryptedDevice], [EncryptedDomains], [EncryptedOpen]: [storage_encrypted.c].
      Without policies, encrypted storage implements the storage contract over any dependable
      backend; with policies of any encryption domains, what was written in a domain is read back in
      it, and a device reopened with its passphrase reads as before.
    - [Objects]: the block codecs of [fs.c].  Validators accept exactly the canonical blocks, and
      the superblock codec accepts exactly what its fields allow.
    - [Locator], [Discovery]: [locator.c] and the recovery of [fs.c].  The codec, the
      soundness of recovery, and that it finds the newest reachable superblock.
    - [Kernel], [KernelMount]: parts of [src/kernel].  The driver agrees with the core on
      locators and accepts only superblocks the core accepts.
    - [Checkpoint], [Crash], [Heal]: [checkpoint_protocol.h] and
      [kernel/infiltratorfs_checkpoint_publish.c].  Crash safety of publication and of repair, over
      a block layer with a volatile cache, and the one state where repair is not safe.
    - [FormatVolume], [FormatPlan], [Formatting], [FreshVolume]: [format_volume.c].  Formatting
      succeeds for every supported size and leaves a volume recovery finds.
    - [Allocator], [FreeExtents], [AllocChoice], [Transactions], [Rollback], [TxSteps]:
      [volume/core.inc].  The accounting invariant [volume_ok], the agreement of the extent index with
      the bitmap, what allocating and freeing do to every block, and that both rollbacks restore the
      state they started from, for every sequence of steps.
    - [AllocationMap], [DirtySet], [MapTree], [MapLoad], [NewVolume]: [volume/allocation-map.inc].
      The closure of the dirty pages is the least one; the loader accepts what the formatter
      wrote and reads back exactly the blocks in use, up to the size where the buffer it shares
      between the levels of the tree ([pr_page]) makes it read a pointer out of a leaf; there it
      refuses the volume.

    * Conventions

    A [w]-bit integer is a [Z]; sums and products that may wrap are written with [u8] ... [u64].
    A structure on disk is its bytes: a field is read with [le16_at], [le32_at], [le64_at] and
    written with [splice].  Code that fails returns [result]; code that changes a storage handle or a
    volume and may fail runs in the monads [io] and [act].  Requests for memory are answered by
    an oracle ([reserves], [mallocs], [calloc_ok], [kmalloc]); a theorem that needs memory to be
    granted says so.
    The state of a component is a record that its operations take and return.  Operations
    that a lock serialises are sequential functions.  Null-pointer tests have no counterpart.

    Code outside [src/] is an interface: the byte-order and checked-arithmetic primitives of the
    [infiltratr] library ([Endian], [CheckedArithmetic]), the accelerated digests and UTF-8 check of the
    platform ([Platform]), OpenSSL ([Crypto]), the block layer ([BlockLayer]) and the backends of
    storage ([StorageLaws], [dependable], [tolerant]).  Each has a concrete instance that the witnesses use.

    * Bounds and fuel

    Loops whose recursion is not structural carry fuel, and it never runs out: the scan of a bitmap
    segment and the loop of [free_run] take the number of blocks left; the IAC1 coder takes the length of its
    input; the loops of encrypted storage take the number of bytes left, one byte at least per
    turn; the closure of the dirty set takes one more turn than there are pages, since every
    turn but the last marks one ([close_dirty_set_least] proves that the fuel is enough).

    * Not modelled

    The object index, files, directories, streams, snapshots, scrubbing and resizing
    ([volume/*.inc] other than [core.inc] and [allocation-map.inc]) sit on top of the allocator; they
    are left out for their size, not for a difficulty in principle.  The object and directory caches only speed up lookups
    and are an interface.  The body of the Linux driver, the Windows driver, the platform backends and
    the UEFI reader are glue around operating-system calls; [src/uefi/filesystems/lz4] is vendored.
    The tools and tests use the library and are not part of it.  The stubs compiled without OpenSSL return
    [NOT_SUPPORTED] and have no counterpart.  Overwriting of secrets has no counterpart where the
    buffer is not read again. *)

From Stdlib Require Export ZArith Lia Btauto.
From stdpp Require Import prelude.

Declare Scope infs_scope.
Delimit Scope infs_scope with infs.
#[global] Open Scope infs_scope.
#[local] Open Scope Z_scope.

(** ** Machine integers *)

Definition wrap (w z : Z) : Z := z mod 2 ^ w.

Abbreviation u8 z := (wrap 8 z).
Abbreviation u16 z := (wrap 16 z).
Abbreviation u32 z := (wrap 32 z).
Abbreviation u64 z := (wrap 64 z).

(** C's bit operators; [≪] and [≫] are stdpp's shifts. *)
Notation "a '.&' b" := (Z.land a b) (at level 52, left associativity) : infs_scope.
Notation "a '.^' b" := (Z.lxor a b) (at level 53, left associativity) : infs_scope.
Notation "a '.|' b" := (Z.lor a b) (at level 54, left associativity) : infs_scope.

(** A value is in range at width [w]. *)
Definition fits (w z : Z) : Prop := 0 <= z < 2 ^ w.

#[global] Instance fits_dec w z : Decision (fits w z).
Proof. unfold fits; apply _. Defined.

#[global] Instance nat_gt_dec (a b : nat) : Decision (a > b)%nat := decide (b < a)%nat.
#[global] Instance nat_ge_dec (a b : nat) : Decision (a >= b)%nat := decide (b <= a)%nat.

(** A byte buffer as the code sees it: one [Z] per [uint8_t]. *)
Definition bytes_ok (l : list Z) : Prop := Forall (fits 8) l.

#[global] Instance bytes_ok_dec l : Decision (bytes_ok l).
Proof. unfold bytes_ok; apply _. Defined.

(** ** Buffers *)

(** [slice off n b]: the [n] bytes at offset [off]. *)
Definition slice (off n : nat) (b : list Z) : list Z := take n (drop off b).

(** [splice off bs b]: [memcpy] of [bs] to offset [off] of [b]. *)
Definition splice (off : nat) (bs b : list Z) : list Z :=
  take off b ++ bs ++ drop (off + length bs) b.

(** [bytes_or]: the accumulator [combined |= p[i]] of the zero tests. *)
Definition bytes_or (l : list Z) : Z := fold_left Z.lor l 0.

(** [memcmp (a, b, n) == 0] on two buffers of the compared length. *)
Definition bytes_eqb (a b : list Z) : bool := bool_decide (a = b).

(** ** Little-endian integers *)

Fixpoint le_store (n : nat) (v : Z) : list Z :=
  match n with
  | O => []
  | S n' => u8 v :: le_store n' (v ≫ 8)
  end.

Fixpoint le_load (l : list Z) : Z :=
  match l with
  | [] => 0
  | b :: t => b .| (le_load t ≪ 8)
  end.

(** * Automation *)

Create HintDb infs.
Create Rewrite HintDb infs_len.

(** Split conjunctions and boolean conjunctions of the hypotheses. *)
Ltac split_ands :=
  repeat match goal with
  | H : _ /\ _ |- _ => destruct H
  | H : (_ && _)%bool = true |- _ => apply andb_true_iff in H
  | H : (_ || _)%bool = false |- _ => apply orb_false_iff in H
  | H : negb _ = true |- _ => apply negb_true_iff in H
  | H : negb _ = false |- _ => apply negb_false_iff in H
  end.

(** Turn the boolean comparisons of the code into arithmetic facts. *)
Ltac to_prop :=
  split_ands;
  repeat match goal with
  | H : (_ =? _) = true |- _ => apply Z.eqb_eq in H
  | H : (_ =? _) = false |- _ => apply Z.eqb_neq in H
  | H : (_ <? _) = true |- _ => apply Z.ltb_lt in H
  | H : (_ <? _) = false |- _ => apply Z.ltb_ge in H
  | H : (_ <=? _) = true |- _ => apply Z.leb_le in H
  | H : (_ <=? _) = false |- _ => apply Z.leb_gt in H
  | H : (_ >? _) = true |- _ => rewrite Z.gtb_ltb in H; apply Z.ltb_lt in H
  | H : (_ >? _) = false |- _ => rewrite Z.gtb_ltb in H; apply Z.ltb_ge in H
  | H : (_ >=? _) = true |- _ => rewrite Z.geb_leb in H; apply Z.leb_le in H
  | H : (_ >=? _) = false |- _ => rewrite Z.geb_leb in H; apply Z.leb_gt in H
  | H : bool_decide _ = true |- _ => apply bool_decide_eq_true in H
  | H : bool_decide _ = false |- _ => apply bool_decide_eq_false in H
  end.

(** Case split on the guard of the first [if] of the goal or of [H]. *)
Ltac case_if E :=
  match goal with |- context [if ?b then _ else _] => destruct b eqn:E end.
Tactic Notation "case_if_in" hyp(H) ident(E) :=
  match type of H with context [if ?b then _ else _] => destruct b eqn:E end.

(** Closed decidable facts, by evaluation. *)
Ltac eval_decide := apply (bool_decide_unpack _); vm_compute; exact I.

(** * Lemmas *)

(** ** Integers *)

Lemma wrap_range w z : 0 <= w -> fits w (wrap w z).
Proof. intros; unfold fits, wrap; apply Z.mod_pos_bound; lia. Qed.

Lemma wrap_small w z : fits w z -> wrap w z = z.
Proof. intros; unfold wrap; apply Z.mod_small; assumption. Qed.

Lemma wrap_wrap w z : 0 <= w -> wrap w (wrap w z) = wrap w z.
Proof. intros; apply wrap_small, wrap_range; assumption. Qed.

Lemma wrap_land w z : 0 <= w -> wrap w z = z .& Z.ones w.
Proof. intros; unfold wrap; rewrite Z.land_ones; trivial. Qed.

Lemma wrap_testbit w z i :
  0 <= w -> Z.testbit (wrap w z) i = (i <? w) && Z.testbit z i.
Proof.
  intros Hw; unfold wrap; destruct (Z.ltb_spec i w).
  - rewrite Z.mod_pow2_bits_low by lia; reflexivity.
  - rewrite Z.mod_pow2_bits_high by lia; reflexivity.
Qed.

Lemma shl_testbit a n i : 0 <= n -> Z.testbit (a ≪ n) i = Z.testbit a (i - n).
Proof.
  intros; destruct (Z.lt_ge_cases i 0).
  - rewrite !Z.testbit_neg_r by lia; reflexivity.
  - apply Z.shiftl_spec; lia.
Qed.

Lemma shr_testbit a n i : 0 <= n -> Z.testbit (a ≫ n) i = (0 <=? i) && Z.testbit a (i + n).
Proof.
  intros; destruct (Z.leb_spec 0 i).
  - apply Z.shiftr_spec; lia.
  - rewrite Z.testbit_neg_r by lia; reflexivity.
Qed.

Lemma fits_testbit w z i : 0 <= w -> fits w z -> w <= i -> Z.testbit z i = false.
Proof.
  intros Hw Hz Hi; rewrite <- (wrap_small w z Hz).
  rewrite wrap_testbit by lia. destruct (Z.ltb_spec i w); [lia | reflexivity].
Qed.

Lemma fits_of_bits w z :
  0 <= w -> 0 <= z -> (forall i, w <= i -> Z.testbit z i = false) -> fits w z.
Proof.
  intros Hw Hz Hb; assert (z = wrap w z) as ->; [| apply wrap_range; lia].
  apply Z.bits_inj'; intros i Hi; rewrite wrap_testbit by lia.
  destruct (Z.ltb_spec i w); [reflexivity | rewrite Hb by lia; reflexivity].
Qed.

Lemma lxor_fits w a b : 0 <= w -> fits w a -> fits w b -> fits w (a .^ b).
Proof.
  intros Hw Ha Hb; apply fits_of_bits; trivial.
  - apply Z.lxor_nonneg; unfold fits in *; lia.
  - intros i Hi; rewrite Z.lxor_spec, !(fits_testbit w) by (trivial; lia); reflexivity.
Qed.

Lemma lor_fits w a b : 0 <= w -> fits w a -> fits w b -> fits w (a .| b).
Proof.
  intros Hw Ha Hb; apply fits_of_bits; trivial.
  - apply Z.lor_nonneg; unfold fits in *; lia.
  - intros i Hi; rewrite Z.lor_spec, !(fits_testbit w) by (trivial; lia); reflexivity.
Qed.

Lemma land_fits_r w a b : 0 <= w -> fits w b -> fits w (a .& b).
Proof.
  intros Hw Hb; apply fits_of_bits; trivial.
  - apply Z.land_nonneg; unfold fits in *; lia.
  - intros i Hi; rewrite Z.land_spec, (fits_testbit w b) by (trivial; lia); apply andb_false_r.
Qed.

Lemma shiftr_fits w k z : 0 <= k <= w -> fits w z -> fits (w - k) (z ≫ k).
Proof.
  intros Hk [Hz1 Hz2]; unfold fits; rewrite Z.shiftr_div_pow2 by lia; split.
  - apply Z.div_pos; lia.
  - apply Z.div_lt_upper_bound; [lia |].
    rewrite <- Z.pow_add_r by lia. replace (k + (w - k)) with w by lia. assumption.
Qed.

#[export] Hint Resolve wrap_range lxor_fits lor_fits land_fits_r : infs.

(** Equality of integers bit by bit. *)
Ltac bitwise i :=
  apply Z.bits_inj'; intros i ?;
  repeat first
    [ rewrite Z.lxor_spec | rewrite Z.lor_spec | rewrite Z.land_spec
    | rewrite shr_testbit by lia | rewrite shl_testbit by lia
    | rewrite wrap_testbit by lia | rewrite Z.bits_0 ].

(** Decide the index comparisons [bitwise] leaves, one by one. *)
Ltac bit_cases :=
  repeat match goal with
  | |- context [?a <? ?b] => destruct (Z.ltb_spec a b); try lia
  | |- context [?a <=? ?b] => destruct (Z.leb_spec a b); try lia
  end; cbn [andb orb xorb negb].

(** ** Folds *)

Section FoldInvariant.
Context {S A : Type} (P : S -> Prop) (Q : A -> Prop) (f g : S -> A -> S).
Hypothesis HP : forall s a, P s -> Q a -> P (g s a).
Hypothesis Hfg : forall s a, P s -> Q a -> f s a = g s a.

(** A state invariant is kept along a fold. *)
Lemma fold_left_inv l s : Forall Q l -> P s -> P (fold_left g l s).
Proof. intros Hl; revert s; induction Hl; intros; simpl; auto. Qed.

(** Steps that agree under the invariant give equal folds. *)
Lemma fold_left_inv_ext l s : Forall Q l -> P s -> fold_left f l s = fold_left g l s.
Proof.
  intros Hl; revert s; induction Hl; intros; simpl; [reflexivity |].
  rewrite Hfg by assumption; auto.
Qed.

(** An injective step gives an injective fold. *)
Lemma fold_left_inv_inj
    (Hinj : forall s t a, P s -> P t -> Q a -> g s a = g t a -> s = t) l s t :
  Forall Q l -> P s -> P t -> fold_left g l s = fold_left g l t -> s = t.
Proof.
  intros Hl; revert s t; induction Hl as [| a l Ha _ IH]; intros s t Hs Ht He; [assumption |].
  apply (Hinj s t a); auto.
Qed.
End FoldInvariant.

(** ** Buffers *)

Lemma length_slice off n b : (off + n <= length b)%nat -> length (slice off n b) = n.
Proof. intros; unfold slice; rewrite length_take, length_drop; lia. Qed.

Lemma length_splice off bs b :
  (off + length bs <= length b)%nat -> length (splice off bs b) = length b.
Proof. intros; unfold splice; rewrite !length_app, length_take, length_drop; lia. Qed.

Lemma slice_splice_eq off bs b :
  (off + length bs <= length b)%nat -> slice off (length bs) (splice off bs b) = bs.
Proof.
  intros; unfold slice, splice.
  rewrite drop_app_ge by (rewrite length_take; lia).
  rewrite length_take, Nat.min_l by lia; rewrite Nat.sub_diag, drop_0.
  apply take_app_length.
Qed.

Lemma splice_app a c b bs :
  length c = length bs -> splice (length a) bs (a ++ c ++ b) = a ++ bs ++ b.
Proof.
  intros Hc; unfold splice; rewrite take_app_length, <- Hc, (app_assoc a c b).
  rewrite <- length_app, drop_app_length; reflexivity.
Qed.

Lemma lookup_splice off bs b i :
  (off + length bs <= length b)%nat ->
  splice off bs b !! i =
  if decide (off <= i < off + length bs)%nat then bs !! (i - off)%nat else b !! i.
Proof.
  intros; unfold splice; destruct (decide _) as [Hi | Hi].
  - rewrite lookup_app_r by (rewrite length_take; lia).
    rewrite length_take, Nat.min_l by lia.
    rewrite lookup_app_l by lia; reflexivity.
  - destruct (decide (i < off)%nat).
    + rewrite lookup_app_l by (rewrite length_take; lia).
      rewrite lookup_take_lt by lia; reflexivity.
    + rewrite lookup_app_r by (rewrite length_take; lia).
      rewrite lookup_app_r by (rewrite length_take; lia).
      rewrite lookup_drop, length_take, Nat.min_l by lia; f_equal; lia.
Qed.

Lemma lookup_slice off n b i :
  slice off n b !! i = if decide (i < n)%nat then b !! (off + i)%nat else None.
Proof.
  unfold slice; case_decide.
  - rewrite lookup_take_lt, lookup_drop by lia; reflexivity.
  - apply lookup_take_ge; lia.
Qed.

Lemma slice_splice_ne off off' n bs b :
  (off + length bs <= length b)%nat ->
  (off' + n <= off \/ off + length bs <= off')%nat ->
  slice off' n (splice off bs b) = slice off' n b.
Proof.
  intros; apply list_eq; intros i; rewrite !lookup_slice.
  case_decide; [| reflexivity].
  rewrite lookup_splice by lia; case_decide; [lia | reflexivity].
Qed.

Lemma splice_splice_eq off bs bs' b :
  length bs = length bs' -> (off + length bs <= length b)%nat ->
  splice off bs (splice off bs' b) = splice off bs b.
Proof.
  intros; apply list_eq; intros i.
  rewrite !lookup_splice by (rewrite ?length_splice; lia).
  repeat case_decide; trivial; lia.
Qed.

(** A write is hidden by a later one that covers it. *)
Lemma splice_cover off bs off' bs' b :
  (off <= off')%nat -> (off' + length bs' <= off + length bs)%nat ->
  (off + length bs <= length b)%nat ->
  splice off bs (splice off' bs' b) = splice off bs b.
Proof.
  intros; apply list_eq; intros i.
  rewrite !lookup_splice by (rewrite ?length_splice; lia).
  repeat case_decide; trivial; lia.
Qed.

Lemma splice_app_left off bs a b :
  (off + length bs <= length a)%nat -> splice off bs (a ++ b) = splice off bs a ++ b.
Proof.
  intros; unfold splice; rewrite take_app_le, drop_app_le by lia.
  rewrite <- !app_assoc; reflexivity.
Qed.

Lemma splice_app_right off bs a b :
  (length a <= off)%nat -> splice off bs (a ++ b) = a ++ splice (off - length a) bs b.
Proof.
  intros; unfold splice; rewrite take_app_ge, drop_app_ge by lia.
  rewrite <- app_assoc; do 3 f_equal; f_equal; lia.
Qed.

Lemma slice_app_left off n a b :
  (off + n <= length a)%nat -> slice off n (a ++ b) = slice off n a.
Proof. intros; unfold slice; rewrite drop_app_le, take_app_le by (rewrite ?length_drop; lia); trivial. Qed.

Lemma slice_app_right off n a b :
  (length a <= off)%nat -> slice off n (a ++ b) = slice (off - length a) n b.
Proof. intros; unfold slice; rewrite drop_app_ge by lia; trivial. Qed.

Lemma slice_drop off n k b : slice off n (drop k b) = slice (k + off) n b.
Proof. unfold slice; rewrite drop_drop; reflexivity. Qed.

Lemma splice_slice off n b :
  (off + n <= length b)%nat -> splice off (slice off n b) b = b.
Proof.
  intros; apply list_eq; intros i; rewrite lookup_splice by (rewrite length_slice; lia).
  rewrite length_slice by lia; case_decide; [| reflexivity].
  rewrite lookup_slice; case_decide; [f_equal; lia | lia].
Qed.

Lemma slice_in_slice o m (b : list Z) off k : (off + k <= m)%nat -> slice off k (slice o m b) = slice (o + off) k b.
Proof. intros H; unfold slice; rewrite skipn_firstn_comm, drop_drop, take_take; f_equal; lia. Qed.

Lemma slice_join o a b (l : list Z) : slice o a l ++ slice (o + a) b l = slice o (a + b) l.
Proof.
  unfold slice; rewrite <- (drop_drop l a o); generalize (drop o l) as m; induction a as [| a IH]; intros [| x m]; cbn; trivial.
  - destruct b; reflexivity.
  - rewrite IH; reflexivity.
Qed.

Lemma splice_nil off (b : list Z) : splice off [] b = b.
Proof. unfold splice; cbn [length app]; rewrite Nat.add_0_r; apply take_drop. Qed.

Lemma splice_whole (bs b : list Z) off : off = 0%nat -> length bs = length b -> splice off bs b = bs.
Proof. intros -> Hl; unfold splice; rewrite take_0, drop_ge by lia; cbn; apply app_nil_r. Qed.

Lemma splice_in_splice o m w (bs b : list Z) :
  (w + length bs <= m)%nat -> (o + m <= length b)%nat -> splice o (splice w bs (slice o m b)) b = splice (o + w) bs b.
Proof.
  intros Hw Ho; pose proof (length_slice o m b Ho) as Hl; apply list_eq; intros i.
  rewrite !lookup_splice by (rewrite ?length_splice, ?Hl; lia); rewrite length_splice, Hl by lia.
  repeat case_decide; try lia; trivial; [f_equal; lia |].
  rewrite lookup_slice, decide_True by lia; f_equal; lia.
Qed.

Lemma splice_join o (a c b : list Z) :
  (o + length a + length c <= length b)%nat -> splice (o + length a) c (splice o a b) = splice o (a ++ c) b.
Proof.
  intros H; apply list_eq; intros i; rewrite !lookup_splice by (rewrite ?length_splice, ?length_app; lia); rewrite length_app.
  repeat case_decide; try lia; trivial; [rewrite lookup_app_r by lia; f_equal; lia | rewrite lookup_app_l by lia; reflexivity].
Qed.

Lemma take_splice k off (bs b : list Z) : (k <= off)%nat -> (off <= length b)%nat -> take k (splice off bs b) = take k b.
Proof.
  intros Hk Hl; unfold splice; rewrite take_app_le by (rewrite length_take; lia); rewrite take_take; f_equal; lia.
Qed.

Lemma drop_splice k off (bs b : list Z) :
  (off + length bs <= k)%nat -> (off + length bs <= length b)%nat -> drop k (splice off bs b) = drop k b.
Proof.
  intros Hk Hl; apply list_eq; intros i; rewrite !lookup_drop, lookup_splice by lia; rewrite decide_False by lia; reflexivity.
Qed.

Lemma bytes_ok_app a b : bytes_ok (a ++ b) <-> bytes_ok a /\ bytes_ok b.
Proof. apply Forall_app. Qed.

Lemma bytes_ok_take n b : bytes_ok b -> bytes_ok (take n b).
Proof. apply Forall_take. Qed.

Lemma bytes_ok_drop n b : bytes_ok b -> bytes_ok (drop n b).
Proof. apply Forall_drop. Qed.

Lemma bytes_ok_slice off n b : bytes_ok b -> bytes_ok (slice off n b).
Proof. intros; unfold slice; auto using bytes_ok_take, bytes_ok_drop. Qed.

Lemma bytes_ok_splice off bs b : bytes_ok bs -> bytes_ok b -> bytes_ok (splice off bs b).
Proof.
  intros; unfold splice; rewrite !bytes_ok_app.
  auto using bytes_ok_take, bytes_ok_drop.
Qed.

Lemma bytes_ok_replicate n v : fits 8 v -> bytes_ok (replicate n v).
Proof. intros; apply Forall_replicate; assumption. Qed.

Lemma bytes_ok_lookup_total b i : bytes_ok b -> fits 8 (b !!! i).
Proof.
  intros Hb; rewrite list_lookup_total_alt; destruct (b !! i) as [v |] eqn:E; simpl.
  - eapply Forall_lookup_1 in E; eassumption.
  - split; reflexivity || (compute; congruence).
Qed.

Lemma bytes_ok_rev l : bytes_ok l -> bytes_ok (rev l).
Proof. apply List.Forall_rev. Qed.

#[export] Hint Resolve bytes_ok_take bytes_ok_rev bytes_ok_drop bytes_ok_slice bytes_ok_splice
  bytes_ok_replicate bytes_ok_lookup_total : infs.

Lemma bytes_eqb_eq a b : bytes_eqb a b = true <-> a = b.
Proof. apply bool_decide_eq_true. Qed.

Lemma bytes_eqb_neq a b : bytes_eqb a b = false <-> a <> b.
Proof. apply bool_decide_eq_false. Qed.

Lemma bytes_eqb_refl a : bytes_eqb a a = true.
Proof. apply bytes_eqb_eq; reflexivity. Qed.

Lemma bytes_or_acc l a : fold_left Z.lor l a = (a .| bytes_or l).
Proof.
  unfold bytes_or; revert a; induction l as [| x l IH]; intros a; simpl.
  - rewrite Z.lor_0_r; reflexivity.
  - rewrite IH, (IH (0 .| x)), Z.lor_assoc, Z.lor_0_l; reflexivity.
Qed.

Lemma bytes_or_cons x l : bytes_or (x :: l) = (x .| bytes_or l).
Proof. unfold bytes_or at 1; cbn [fold_left]; rewrite bytes_or_acc; reflexivity. Qed.

(** The accumulated disjunction is zero exactly when every byte is. *)
Lemma bytes_or_zero l : bytes_or l = 0 <-> Forall (eq 0) l.
Proof.
  induction l as [| x l IH]; [split; [constructor | reflexivity] |].
  rewrite bytes_or_cons, Z.lor_eq_0_iff, IH, Forall_cons; intuition congruence.
Qed.

Lemma bytes_or_replicate n : bytes_or (replicate n 0) = 0.
Proof. apply bytes_or_zero, Forall_replicate; reflexivity. Qed.

Lemma zero_bytes_eq l : Forall (eq 0) l -> l = replicate (length l) 0.
Proof. induction 1 as [| x l <- _ IH]; simpl; congruence. Qed.

(** ** Little-endian integers *)

Lemma length_le_store n v : length (le_store n v) = n.
Proof. revert v; induction n; intros; simpl; auto. Qed.

Lemma le_store_ok n v : bytes_ok (le_store n v).
Proof.
  revert v; induction n as [| n IH]; intros; simpl; constructor.
  - apply wrap_range; lia.
  - apply IH.
Qed.

Lemma le_load_store n v : le_load (le_store n v) = wrap (8 * Z.of_nat n) v.
Proof.
  revert v; induction n as [| n IH]; intros v; cbn [le_store le_load].
  - unfold wrap; rewrite Z.mod_1_r; reflexivity.
  - rewrite IH; bitwise i; replace (i - 8 + 8) with i by lia; bit_cases;
      rewrite ?orb_false_r, ?orb_diag, ?(Z.testbit_neg_r _ (i - 8)) by lia; trivial.
Qed.

Lemma le_load_store_id n v :
  fits (8 * Z.of_nat n) v -> le_load (le_store n v) = v.
Proof. intros; rewrite le_load_store; apply wrap_small; assumption. Qed.

Lemma le_load_fits l : bytes_ok l -> fits (8 * Z.of_nat (length l)) (le_load l).
Proof.
  induction 1 as [| b l Hb _ IH]; cbn [le_load length]; [split; compute; congruence |].
  apply fits_of_bits; [lia | |].
  - apply Z.lor_nonneg; split; [apply Hb |]. apply Z.shiftl_nonneg, IH.
  - intros i Hi; rewrite Z.lor_spec, shl_testbit by lia.
    rewrite (fits_testbit 8 b i) by (trivial; lia).
    apply (fits_testbit (8 * Z.of_nat (length l))); trivial; lia.
Qed.

Lemma le_load_snoc l b : le_load (l ++ [b]) = (le_load l .| (b ≪ (8 * Z.of_nat (length l)))).
Proof.
  induction l as [| c l IH]; cbn [app le_load].
  - simpl; rewrite Z.shiftl_0_r, Z.lor_0_r; reflexivity.
  - rewrite IH; bitwise i; rewrite orb_assoc; f_equal; f_equal; simpl length; lia.
Qed.

Lemma le_store_load l : bytes_ok l -> le_store (length l) (le_load l) = l.
Proof.
  induction 1 as [| b l Hb Hl IH]; cbn [le_load le_store length]; [reflexivity |].
  f_equal.
  - bitwise i; bit_cases.
    + rewrite (Z.testbit_neg_r _ (i - 8)) by lia; apply orb_false_r.
    + symmetry; apply (fits_testbit 8); trivial; lia.
  - etransitivity; [| exact IH]; f_equal; bitwise i.
    replace (i + 8 - 8) with i by lia; bit_cases.
    rewrite (fits_testbit 8 b) by (trivial; lia); reflexivity.
Qed.

Lemma le_load_inj a b :
  bytes_ok a -> bytes_ok b -> length a = length b -> le_load a = le_load b -> a = b.
Proof.
  intros Ha Hb Hl He; rewrite <- (le_store_load a Ha), <- (le_store_load b Hb).
  congruence.
Qed.

#[export] Hint Resolve le_store_ok le_load_fits : infs.
#[export] Hint Rewrite length_le_store @length_replicate @length_app @length_take
  @length_drop : infs_len.
