(* ===== verification/Endian.v ===== *)
(** Byte order.  The load and store primitives behind
    [src/include/infilfs/endian.h] live in a library outside the repository
    (the [infiltratr] submodule), so they are the operations of an interface
    whose laws state the byte order their names document.  Every component that
    reads or writes disk integers is proved against this interface;
    [reference_endian] shows that the laws can hold and gives the witnesses an
    executable instance. *)

From stdpp Require Import prelude.
From S2P Require Import Prelude.
#[local] Open Scope Z_scope.

Class Endian := {
  load_le16 : list Z -> Z;
  load_le32 : list Z -> Z;
  load_le64 : list Z -> Z;
  store_le16 : Z -> list Z;
  store_le32 : Z -> list Z;
  store_le64 : Z -> list Z;
  load_be32 : list Z -> Z;
  store_be32 : Z -> list Z;
  store_be64 : Z -> list Z;
  load_le16_law bs : length bs = 2%nat -> bytes_ok bs -> load_le16 bs = le_load bs;
  load_le32_law bs : length bs = 4%nat -> bytes_ok bs -> load_le32 bs = le_load bs;
  load_le64_law bs : length bs = 8%nat -> bytes_ok bs -> load_le64 bs = le_load bs;
  store_le16_law v : store_le16 v = le_store 2 v;
  store_le32_law v : store_le32 v = le_store 4 v;
  store_le64_law v : store_le64 v = le_store 8 v;
  load_be32_law bs : length bs = 4%nat -> bytes_ok bs -> load_be32 bs = le_load (rev bs);
  store_be32_law v : store_be32 v = rev (le_store 4 v);
  store_be64_law v : store_be64 v = rev (le_store 8 v)
}.

Definition reference_endian : Endian := {|
  load_le16 := le_load;
  load_le32 := le_load;
  load_le64 := le_load;
  store_le16 := le_store 2;
  store_le32 := le_store 4;
  store_le64 := le_store 8;
  load_be32 := fun bs => le_load (rev bs);
  store_be32 := fun v => rev (le_store 4 v);
  store_be64 := fun v => rev (le_store 8 v);
  load_le16_law := fun _ _ _ => eq_refl;
  load_le32_law := fun _ _ _ => eq_refl;
  load_le64_law := fun _ _ _ => eq_refl;
  store_le16_law := fun _ => eq_refl;
  store_le32_law := fun _ => eq_refl;
  store_le64_law := fun _ => eq_refl;
  load_be32_law := fun _ _ _ => eq_refl;
  store_be32_law := fun _ => eq_refl;
  store_be64_law := fun _ => eq_refl
|}.
