(* ===== verification/Checksum.v ===== *)
(** Integrity primitives of [src/src/checksum.c]: the table-driven CRC64-ECMA
    that protects metadata blocks and the scalar SHA-256 that protects file
    data.  The CRC is proved equal to the bit-serial division by the ECMA
    polynomial, hence to detect every error burst of up to eight bytes; the
    hash's in-place tail handling is proved equal to folding the compression over
    the padded message, from which [Fips180.v] derives that it is SHA-256. *)

From stdpp Require Import prelude.
From S2P Require Import Prelude Endian.
#[local] Open Scope Z_scope.

(** * Definitions *)

Module Crc64.

Definition crc64_ecma_table : list Z := [
   0x0000000000000000; 0x42F0E1EBA9EA3693; 0x85E1C3D753D46D26; 0xC711223CFA3E5BB5;
   0x493366450E42ECDF; 0x0BC387AEA7A8DA4C; 0xCCD2A5925D9681F9; 0x8E224479F47CB76A;
   0x9266CC8A1C85D9BE; 0xD0962D61B56FEF2D; 0x17870F5D4F51B498; 0x5577EEB6E6BB820B;
   0xDB55AACF12C73561; 0x99A54B24BB2D03F2; 0x5EB4691841135847; 0x1C4488F3E8F96ED4;
   0x663D78FF90E185EF; 0x24CD9914390BB37C; 0xE3DCBB28C335E8C9; 0xA12C5AC36ADFDE5A;
   0x2F0E1EBA9EA36930; 0x6DFEFF5137495FA3; 0xAAEFDD6DCD770416; 0xE81F3C86649D3285;
   0xF45BB4758C645C51; 0xB6AB559E258E6AC2; 0x71BA77A2DFB03177; 0x334A9649765A07E4;
   0xBD68D2308226B08E; 0xFF9833DB2BCC861D; 0x388911E7D1F2DDA8; 0x7A79F00C7818EB3B;
   0xCC7AF1FF21C30BDE; 0x8E8A101488293D4D; 0x499B3228721766F8; 0x0B6BD3C3DBFD506B;
   0x854997BA2F81E701; 0xC7B97651866BD192; 0x00A8546D7C558A27; 0x4258B586D5BFBCB4;
   0x5E1C3D753D46D260; 0x1CECDC9E94ACE4F3; 0xDBFDFEA26E92BF46; 0x990D1F49C77889D5;
   0x172F5B3033043EBF; 0x55DFBADB9AEE082C; 0x92CE98E760D05399; 0xD03E790CC93A650A;
   0xAA478900B1228E31; 0xE8B768EB18C8B8A2; 0x2FA64AD7E2F6E317; 0x6D56AB3C4B1CD584;
   0xE374EF45BF6062EE; 0xA1840EAE168A547D; 0x66952C92ECB40FC8; 0x2465CD79455E395B;
   0x3821458AADA7578F; 0x7AD1A461044D611C; 0xBDC0865DFE733AA9; 0xFF3067B657990C3A;
   0x711223CFA3E5BB50; 0x33E2C2240A0F8DC3; 0xF4F3E018F031D676; 0xB60301F359DBE0E5;
   0xDA050215EA6C212F; 0x98F5E3FE438617BC; 0x5FE4C1C2B9B84C09; 0x1D14202910527A9A;
   0x93366450E42ECDF0; 0xD1C685BB4DC4FB63; 0x16D7A787B7FAA0D6; 0x5427466C1E109645;
   0x4863CE9FF6E9F891; 0x0A932F745F03CE02; 0xCD820D48A53D95B7; 0x8F72ECA30CD7A324;
   0x0150A8DAF8AB144E; 0x43A04931514122DD; 0x84B16B0DAB7F7968; 0xC6418AE602954FFB;
   0xBC387AEA7A8DA4C0; 0xFEC89B01D3679253; 0x39D9B93D2959C9E6; 0x7B2958D680B3FF75;
   0xF50B1CAF74CF481F; 0xB7FBFD44DD257E8C; 0x70EADF78271B2539; 0x321A3E938EF113AA;
   0x2E5EB66066087D7E; 0x6CAE578BCFE24BED; 0xABBF75B735DC1058; 0xE94F945C9C3626CB;
   0x676DD025684A91A1; 0x259D31CEC1A0A732; 0xE28C13F23B9EFC87; 0xA07CF2199274CA14;
   0x167FF3EACBAF2AF1; 0x548F120162451C62; 0x939E303D987B47D7; 0xD16ED1D631917144;
   0x5F4C95AFC5EDC62E; 0x1DBC74446C07F0BD; 0xDAAD56789639AB08; 0x985DB7933FD39D9B;
   0x84193F60D72AF34F; 0xC6E9DE8B7EC0C5DC; 0x01F8FCB784FE9E69; 0x43081D5C2D14A8FA;
   0xCD2A5925D9681F90; 0x8FDAB8CE70822903; 0x48CB9AF28ABC72B6; 0x0A3B7B1923564425;
   0x70428B155B4EAF1E; 0x32B26AFEF2A4998D; 0xF5A348C2089AC238; 0xB753A929A170F4AB;
   0x3971ED50550C43C1; 0x7B810CBBFCE67552; 0xBC902E8706D82EE7; 0xFE60CF6CAF321874;
   0xE224479F47CB76A0; 0xA0D4A674EE214033; 0x67C58448141F1B86; 0x253565A3BDF52D15;
   0xAB1721DA49899A7F; 0xE9E7C031E063ACEC; 0x2EF6E20D1A5DF759; 0x6C0603E6B3B7C1CA;
   0xF6FAE5C07D3274CD; 0xB40A042BD4D8425E; 0x731B26172EE619EB; 0x31EBC7FC870C2F78;
   0xBFC9838573709812; 0xFD39626EDA9AAE81; 0x3A28405220A4F534; 0x78D8A1B9894EC3A7;
   0x649C294A61B7AD73; 0x266CC8A1C85D9BE0; 0xE17DEA9D3263C055; 0xA38D0B769B89F6C6;
   0x2DAF4F0F6FF541AC; 0x6F5FAEE4C61F773F; 0xA84E8CD83C212C8A; 0xEABE6D3395CB1A19;
   0x90C79D3FEDD3F122; 0xD2377CD44439C7B1; 0x15265EE8BE079C04; 0x57D6BF0317EDAA97;
   0xD9F4FB7AE3911DFD; 0x9B041A914A7B2B6E; 0x5C1538ADB04570DB; 0x1EE5D94619AF4648;
   0x02A151B5F156289C; 0x4051B05E58BC1E0F; 0x87409262A28245BA; 0xC5B073890B687329;
   0x4B9237F0FF14C443; 0x0962D61B56FEF2D0; 0xCE73F427ACC0A965; 0x8C8315CC052A9FF6;
   0x3A80143F5CF17F13; 0x7870F5D4F51B4980; 0xBF61D7E80F251235; 0xFD913603A6CF24A6;
   0x73B3727A52B393CC; 0x31439391FB59A55F; 0xF652B1AD0167FEEA; 0xB4A25046A88DC879;
   0xA8E6D8B54074A6AD; 0xEA16395EE99E903E; 0x2D071B6213A0CB8B; 0x6FF7FA89BA4AFD18;
   0xE1D5BEF04E364A72; 0xA3255F1BE7DC7CE1; 0x64347D271DE22754; 0x26C49CCCB40811C7;
   0x5CBD6CC0CC10FAFC; 0x1E4D8D2B65FACC6F; 0xD95CAF179FC497DA; 0x9BAC4EFC362EA149;
   0x158E0A85C2521623; 0x577EEB6E6BB820B0; 0x906FC95291867B05; 0xD29F28B9386C4D96;
   0xCEDBA04AD0952342; 0x8C2B41A1797F15D1; 0x4B3A639D83414E64; 0x09CA82762AAB78F7;
   0x87E8C60FDED7CF9D; 0xC51827E4773DF90E; 0x020905D88D03A2BB; 0x40F9E43324E99428;
   0x2CFFE7D5975E55E2; 0x6E0F063E3EB46371; 0xA91E2402C48A38C4; 0xEBEEC5E96D600E57;
   0x65CC8190991CB93D; 0x273C607B30F68FAE; 0xE02D4247CAC8D41B; 0xA2DDA3AC6322E288;
   0xBE992B5F8BDB8C5C; 0xFC69CAB42231BACF; 0x3B78E888D80FE17A; 0x7988096371E5D7E9;
   0xF7AA4D1A85996083; 0xB55AACF12C735610; 0x724B8ECDD64D0DA5; 0x30BB6F267FA73B36;
   0x4AC29F2A07BFD00D; 0x08327EC1AE55E69E; 0xCF235CFD546BBD2B; 0x8DD3BD16FD818BB8;
   0x03F1F96F09FD3CD2; 0x41011884A0170A41; 0x86103AB85A2951F4; 0xC4E0DB53F3C36767;
   0xD8A453A01B3A09B3; 0x9A54B24BB2D03F20; 0x5D45907748EE6495; 0x1FB5719CE1045206;
   0x919735E51578E56C; 0xD367D40EBC92D3FF; 0x1476F63246AC884A; 0x568617D9EF46BED9;
   0xE085162AB69D5E3C; 0xA275F7C11F7768AF; 0x6564D5FDE549331A; 0x279434164CA30589;
   0xA9B6706FB8DFB2E3; 0xEB46918411358470; 0x2C57B3B8EB0BDFC5; 0x6EA7525342E1E956;
   0x72E3DAA0AA188782; 0x30133B4B03F2B111; 0xF7021977F9CCEAA4; 0xB5F2F89C5026DC37;
   0x3BD0BCE5A45A6B5D; 0x79205D0E0DB05DCE; 0xBE317F32F78E067B; 0xFCC19ED95E6430E8;
   0x86B86ED5267CDBD3; 0xC4488F3E8F96ED40; 0x0359AD0275A8B6F5; 0x41A94CE9DC428066;
   0xCF8B0890283E370C; 0x8D7BE97B81D4019F; 0x4A6ACB477BEA5A2A; 0x089A2AACD2006CB9;
   0x14DEA25F3AF9026D; 0x562E43B4931334FE; 0x913F6188692D6F4B; 0xD3CF8063C0C759D8;
   0x5DEDC41A34BBEEB2; 0x1F1D25F19D51D821; 0xD80C07CD676F8394; 0x9AFCE626CE85B507
].

(** One turn of the loop of [infs_crc64_ecma]. *)
Definition crc64_step (crc b : Z) : Z :=
  let index := u8 ((crc ≫ 56) .^ b) in
  (crc64_ecma_table !!! Z.to_nat index) .^ u64 (crc ≪ 8).

Definition infs_crc64_ecma (data : list Z) : Z := fold_left crc64_step data 0.

(** The reference: one bit of polynomial division. *)
Definition ecma_poly : Z := 0x42F0E1EBA9EA3693.

Definition crc_bit (c : Z) : Z :=
  u64 (c ≪ 1) .^ (if Z.testbit c 63 then ecma_poly else 0).

Definition crc_bits (n : nat) (c : Z) : Z := Nat.iter n crc_bit c.

#[global] Arguments crc_bits : simpl never.
#[global] Strategy 1000 [crc_bits crc_bit].

Definition crc_ref_step (crc b : Z) : Z := crc_bits 8 (crc .^ (b ≪ 56)).

#[global] Arguments crc_ref_step : simpl never.
#[global] Arguments crc64_step : simpl never.

Definition crc_ref (data : list Z) : Z := fold_left crc_ref_step data 0.

End Crc64.

Module Sha256.

(** The round constants, in the rows of the source. *)
Definition sha256_k : list Z := concat [
   [0x428a2f98; 0x71374491; 0xb5c0fbcf; 0xe9b5dba5];
   [0x3956c25b; 0x59f111f1; 0x923f82a4; 0xab1c5ed5];
   [0xd807aa98; 0x12835b01; 0x243185be; 0x550c7dc3];
   [0x72be5d74; 0x80deb1fe; 0x9bdc06a7; 0xc19bf174];
   [0xe49b69c1; 0xefbe4786; 0x0fc19dc6; 0x240ca1cc];
   [0x2de92c6f; 0x4a7484aa; 0x5cb0a9dc; 0x76f988da];
   [0x983e5152; 0xa831c66d; 0xb00327c8; 0xbf597fc7];
   [0xc6e00bf3; 0xd5a79147; 0x06ca6351; 0x14292967];
   [0x27b70a85; 0x2e1b2138; 0x4d2c6dfc; 0x53380d13];
   [0x650a7354; 0x766a0abb; 0x81c2c92e; 0x92722c85];
   [0xa2bfe8a1; 0xa81a664b; 0xc24b8b70; 0xc76c51a3];
   [0xd192e819; 0xd6990624; 0xf40e3585; 0x106aa070];
   [0x19a4c116; 0x1e376c08; 0x2748774c; 0x34b0bcb5];
   [0x391c0cb3; 0x4ed8aa4a; 0x5b9cca4f; 0x682e6ff3];
   [0x748f82ee; 0x78a5636f; 0x84c87814; 0x8cc70208];
   [0x90befffa; 0xa4506ceb; 0xbef9a3f7; 0xc67178f2]
].

Definition rotr32 (v n : Z) : Z := (v ≫ n) .| u32 (v ≪ (32 - n)).

Definition sha256_iv : list Z := [
   0x6a09e667; 0xbb67ae85; 0x3c6ef372; 0xa54ff53a;
   0x510e527f; 0x9b05688c; 0x1f83d9ab; 0x5be0cd19
].

(** The eight working variables of the round loop. *)
Record regs := Regs { ra : Z; rb : Z; rc : Z; rd : Z; re : Z; rf : Z; rg : Z; rh : Z }.

(** [w[i]] for [i >= 16], from the words already expanded. *)
Definition schedule_word (w : list Z) (i : nat) : Z :=
  let w15 := w !!! (i - 15)%nat in
  let w2 := w !!! (i - 2)%nat in
  let s0 := rotr32 w15 7 .^ rotr32 w15 18 .^ (w15 ≫ 3) in
  let s1 := rotr32 w2 17 .^ rotr32 w2 19 .^ (w2 ≫ 10) in
  u32 (w !!! (i - 16)%nat + s0 + w !!! (i - 7)%nat + s1).

Definition sha256_round (w : list Z) (s : regs) (i : nat) : regs :=
  let s1 := rotr32 (re s) 6 .^ rotr32 (re s) 11 .^ rotr32 (re s) 25 in
  let ch := (re s .& rf s) .^ (u32 (Z.lnot (re s)) .& rg s) in
  let t1 := u32 (rh s + s1 + ch + sha256_k !!! i + w !!! i) in
  let s0 := rotr32 (ra s) 2 .^ rotr32 (ra s) 13 .^ rotr32 (ra s) 22 in
  let maj := (ra s .& rb s) .^ (ra s .& rc s) .^ (rb s .& rc s) in
  let t2 := u32 (s0 + maj) in
  Regs (u32 (t1 + t2)) (ra s) (rb s) (rc s) (u32 (rd s + t1)) (re s) (rf s) (rg s).

Section Hash.
Context {E : Endian}.

Definition sha256_schedule (block : list Z) : list Z :=
  fold_left (fun w i => w ++ [schedule_word w i]) (seq 16 48)
    (map (fun i => load_be32 (slice (i * 4) 4 block)) (seq 0 16)).

Definition sha256_compress (state block : list Z) : list Z :=
  let w := sha256_schedule block in
  let s := fold_left (sha256_round w) (seq 0 64)
             (Regs (state !!! 0%nat) (state !!! 1%nat) (state !!! 2%nat) (state !!! 3%nat)
                   (state !!! 4%nat) (state !!! 5%nat) (state !!! 6%nat) (state !!! 7%nat)) in
  [u32 (state !!! 0%nat + ra s); u32 (state !!! 1%nat + rb s);
   u32 (state !!! 2%nat + rc s); u32 (state !!! 3%nat + rd s);
   u32 (state !!! 4%nat + re s); u32 (state !!! 5%nat + rf s);
   u32 (state !!! 6%nat + rg s); u32 (state !!! 7%nat + rh s)].

(** [while (len >= 64)]: whole blocks are compressed in place; the result is the
    state, the unread bytes and the remaining [len].  [fuel] bounds the turns. *)
Fixpoint sha256_blocks (fuel : nat) (state p : list Z) : list Z * list Z :=
  match fuel with
  | O => (state, p)
  | S fuel' =>
      if decide (64 <= length p)%nat
      then sha256_blocks fuel' (sha256_compress state (take 64 p)) (drop 64 p)
      else (state, p)
  end.

Definition infs_sha256_scalar (data : list Z) : list Z :=
  let '(state, p) := sha256_blocks (length data) sha256_iv data in
  let len := length p in
  let tail := splice 0 p (replicate 128 0) in
  let tail := splice len [0x80] tail in
  let padded := if decide (len < 56)%nat then 64%nat else 128%nat in
  let bit_len := u64 (Z.of_nat (length data) * 8) in
  let tail := splice (padded - 8) (store_be64 bit_len) tail in
  let state := sha256_compress state (take 64 tail) in
  let state := if decide (padded = 128%nat)
               then sha256_compress state (slice 64 64 tail) else state in
  concat (map (fun i => store_be32 (state !!! i)) (seq 0 8)).

(** [infs_sha256].  [accelerated] is the platform digest (OpenSSL or BCrypt),
    [None] when it is absent or fails; a null buffer is [None]. *)
Definition infs_sha256 (accelerated : list Z -> option (list Z))
    (data : option (list Z)) (len : nat) : list Z :=
  match data with
  | None => if decide (len = 0%nat)
            then match accelerated [] with Some out => out | None => infs_sha256_scalar [] end
            else replicate 32 0
  | Some d => match accelerated (take len d) with
              | Some out => out
              | None => infs_sha256_scalar (take len d)
              end
  end.

(** The compression folded over the message padded to a multiple of 64 bytes. *)
Definition sha256_pad (data : list Z) : list Z :=
  let zeros := ((119 - length data mod 64) mod 64)%nat in
  data ++ [0x80] ++ replicate zeros 0 ++ store_be64 (u64 (Z.of_nat (length data) * 8)).

Fixpoint sha256_fold (nblocks : nat) (state msg : list Z) : list Z :=
  match nblocks with
  | O => state
  | S n => sha256_fold n (sha256_compress state (take 64 msg)) (drop 64 msg)
  end.

Definition sha256_ref (data : list Z) : list Z :=
  let msg := sha256_pad data in
  let state := sha256_fold (length msg / 64) sha256_iv msg in
  concat (map (fun i => store_be32 (state !!! i)) (seq 0 8)).

End Hash.
End Sha256.

(** * CRC64 is polynomial division *)

Module Crc64Facts.
Import Crc64.

Lemma fits_poly : fits 64 ecma_poly.
Proof. split; vm_compute; congruence. Qed.

Lemma crc_bit_fits c : fits 64 (crc_bit c).
Proof.
  unfold crc_bit; apply lxor_fits; [lia | apply wrap_range; lia |].
  destruct (Z.testbit c 63); [apply fits_poly | split; vm_compute; congruence].
Qed.

Lemma crc_bits_fits n c : fits 64 c -> fits 64 (crc_bits n c).
Proof. destruct n; [trivial | intros; apply crc_bit_fits]. Qed.

Lemma crc_bits_add m n c : crc_bits (m + n) c = crc_bits m (crc_bits n c).
Proof. unfold crc_bits; induction m; simpl; congruence. Qed.

(** Division is linear over exclusive or. *)
Lemma crc_bit_xor a b : crc_bit (a .^ b) = (crc_bit a .^ crc_bit b).
Proof.
  unfold crc_bit; bitwise i.
  destruct (Z.testbit a 63), (Z.testbit b 63); cbn [xorb]; rewrite ?Z.bits_0; btauto.
Qed.

Lemma crc_bits_xor n a b : crc_bits n (a .^ b) = (crc_bits n a .^ crc_bits n b).
Proof. unfold crc_bits; induction n; simpl; [reflexivity |]. rewrite IHn; apply crc_bit_xor. Qed.

(** A value whose top [n] bits are clear is only shifted. *)
Lemma crc_bits_shift n c :
  0 <= c < 2 ^ (64 - Z.of_nat n) -> (n <= 64)%nat -> crc_bits n c = c ≪ Z.of_nat n.
Proof.
  intros Hc; induction n as [| n IH]; intros Hn; [symmetry; apply Z.shiftl_0_r |].
  assert (Hp : 2 ^ (64 - Z.of_nat n) = 2 ^ (64 - Z.of_nat (S n)) * 2).
  { replace (64 - Z.of_nat n) with (64 - Z.of_nat (S n) + 1) by lia.
    rewrite Z.pow_add_r by lia; reflexivity. }
  change (crc_bits (S n) c) with (crc_bit (crc_bits n c)).
  rewrite IH by lia; unfold crc_bit.
  assert (Hf : fits (64 - Z.of_nat (S n)) c) by (split; lia).
  rewrite shl_testbit, (fits_testbit (64 - Z.of_nat (S n)) c) by (trivial; lia).
  rewrite Z.lxor_0_r; bitwise i; bit_cases; [f_equal; lia |].
  symmetry; apply (fits_testbit (64 - Z.of_nat (S n))); trivial; lia.
Qed.

(** The polynomial's constant term is one, so no information is lost. *)
Lemma crc_bit_inj a b : fits 64 a -> fits 64 b -> crc_bit a = crc_bit b -> a = b.
Proof.
  unfold crc_bit; intros Ha Hb He.
  assert (Hbit : forall i, 0 <= i ->
    xorb ((i <? 64) && Z.testbit a (i - 1)) (Z.testbit a 63 && Z.testbit ecma_poly i) =
    xorb ((i <? 64) && Z.testbit b (i - 1)) (Z.testbit b 63 && Z.testbit ecma_poly i)).
  { intros i Hi; apply (f_equal (fun z => Z.testbit z i)) in He; revert He.
    rewrite !Z.lxor_spec, !wrap_testbit, !shl_testbit by lia.
    destruct (Z.testbit a 63), (Z.testbit b 63); rewrite ?Z.bits_0; trivial. }
  assert (H63 : Z.testbit a 63 = Z.testbit b 63).
  { pose proof (Hbit 0 ltac:(lia)) as H0; revert H0.
    rewrite (Z.testbit_neg_r a (0 - 1)), (Z.testbit_neg_r b (0 - 1)) by lia.
    change (Z.testbit ecma_poly 0) with true; rewrite !andb_true_r, !andb_false_r, !xorb_false_l.
    trivial. }
  apply Z.bits_inj'; intros i Hi; destruct (Z.lt_ge_cases i 63).
  - pose proof (Hbit (i + 1) ltac:(lia)) as H0; revert H0; rewrite H63.
    replace (i + 1 - 1) with i by lia; destruct (Z.ltb_spec (i + 1) 64); [| lia].
    destruct (Z.testbit a i), (Z.testbit b i), (Z.testbit b 63 && _); cbn; congruence.
  - destruct (Z.eq_dec i 63) as [-> |]; [assumption |].
    rewrite (fits_testbit 64 a), (fits_testbit 64 b) by (trivial; lia); reflexivity.
Qed.

Lemma crc_bits_inj n a b : fits 64 a -> fits 64 b -> crc_bits n a = crc_bits n b -> a = b.
Proof.
  intros Ha Hb; induction n; [trivial |].
  intros He; apply IHn, crc_bit_inj; auto using crc_bits_fits.
Qed.

Definition table_entry_ok (i : nat) : bool :=
  crc64_ecma_table !!! i =? crc_bits 8 (Z.of_nat i ≪ 56).

(** Every entry of the compiled-in table is the division of its index. *)
Lemma crc64_table_entries i :
  fits 8 i -> crc64_ecma_table !!! Z.to_nat i = crc_bits 8 (i ≪ 56).
Proof.
  intros [Hi1 Hi2].
  assert (Hall : forallb table_entry_ok (seq 0 256) = true) by (vm_compute; reflexivity).
  rewrite forallb_forall in Hall.
  assert (Hin : In (Z.to_nat i) (seq 0 256)) by (apply in_seq; lia).
  apply Hall in Hin; unfold table_entry_ok in Hin; apply Z.eqb_eq in Hin.
  rewrite Hin, Z2Nat.id by lia; reflexivity.
Qed.

Lemma crc64_step_ref crc b :
  fits 64 crc -> fits 8 b -> crc64_step crc b = crc_ref_step crc b.
Proof.
  intros Hc Hb; unfold crc64_step, crc_ref_step.
  rewrite (wrap_small 8 ((crc ≫ 56) .^ b)).
  2: { apply lxor_fits; trivial; [lia |]. apply (shiftr_fits 64 56); trivial; lia. }
  rewrite crc64_table_entries.
  2: { apply lxor_fits; trivial; [lia |]. apply (shiftr_fits 64 56); trivial; lia. }
  replace (crc .^ (b ≪ 56)) with ((((crc ≫ 56) .^ b) ≪ 56) .^ wrap 56 crc).
  2: { bitwise i; replace (i - 56 + 56) with i by lia; bit_cases;
       rewrite ?(Z.testbit_neg_r b (i - 56)) by lia; btauto. }
  rewrite crc_bits_xor; f_equal.
  rewrite crc_bits_shift by (try lia; apply (wrap_range 56); lia).
  bitwise i; bit_cases; f_equal; lia.
Qed.

Lemma crc_ref_step_fits crc b : fits 64 crc -> fits 8 b -> fits 64 (crc_ref_step crc b).
Proof.
  intros Hc Hb; unfold crc_ref_step; apply crc_bits_fits, lxor_fits; trivial; [lia |].
  unfold fits in *; rewrite Z.shiftl_mul_pow2 by lia; lia.
Qed.

Lemma crc64_fold_ref data crc :
  bytes_ok data -> fits 64 crc ->
  fold_left crc64_step data crc = fold_left crc_ref_step data crc.
Proof. apply fold_left_inv_ext; [apply crc_ref_step_fits | apply crc64_step_ref]. Qed.

Lemma crc_ref_fold_fits data crc :
  bytes_ok data -> fits 64 crc -> fits 64 (fold_left crc_ref_step data crc).
Proof. apply fold_left_inv, crc_ref_step_fits. Qed.

Lemma crc64_fits data : bytes_ok data -> fits 64 (infs_crc64_ecma data).
Proof.
  intros Hd; unfold infs_crc64_ecma; rewrite crc64_fold_ref by (trivial; split; vm_compute; congruence).
  apply crc_ref_fold_fits; [trivial | split; vm_compute; congruence].
Qed.

Lemma crc_ref_step_inj s t b :
  fits 64 s -> fits 64 t -> fits 8 b -> crc_ref_step s b = crc_ref_step t b -> s = t.
Proof.
  intros Hs Ht Hb He.
  assert (Hbf : fits 64 (b ≪ 56)).
  { unfold fits in *; rewrite Z.shiftl_mul_pow2 by lia; lia. }
  apply crc_bits_inj in He; try (apply lxor_fits; trivial; lia).
  apply (f_equal (fun z => z .^ (b ≪ 56))) in He.
  rewrite !Z.lxor_assoc, Z.lxor_nilpotent, !Z.lxor_0_r in He; assumption.
Qed.

(** Equal suffixes keep different states apart. *)
Lemma crc_ref_fold_inj data s t :
  bytes_ok data -> fits 64 s -> fits 64 t ->
  fold_left crc_ref_step data s = fold_left crc_ref_step data t -> s = t.
Proof. apply fold_left_inv_inj; [apply crc_ref_step_fits | apply crc_ref_step_inj]. Qed.

(** The absorption lemma needs only these laws of [crc_bits]. *)
Section Window.
Variable bits : nat -> Z -> Z.
Hypothesis bits_zero : forall c, bits 0 c = c.
Hypothesis bits_add : forall m n c, bits (m + n) c = bits m (bits n c).
Hypothesis bits_xor : forall n a b, bits n (a .^ b) = (bits n a .^ bits n b).
Hypothesis bits_shift : forall n c,
  0 <= c < 2 ^ (64 - Z.of_nat n) -> (n <= 64)%nat -> bits n c = c ≪ Z.of_nat n.

(** Up to eight bytes are absorbed as one big-endian number at the top of the
    register. *)
Lemma absorb_window x s :
  bytes_ok x -> (length x <= 8)%nat ->
  fold_left (fun crc b => bits 8 (crc .^ (b ≪ 56))) x s =
  bits (8 * length x) (s .^ (le_load (rev x) ≪ (64 - 8 * Z.of_nat (length x)))).
Proof.
  revert s; induction x as [| b x IH]; intros s Hx Hl.
  { simpl; rewrite bits_zero, Z.lxor_0_r; reflexivity. }
  apply Forall_cons in Hx as [Hb Hx]; simpl in Hl.
  cbn [fold_left]; rewrite IH by (trivial; lia).
  replace (8 * length (b :: x))%nat with (8 * length x + 8)%nat by (simpl; lia).
  rewrite bits_add; f_equal.
  assert (Hf : fits (8 * Z.of_nat (length x)) (le_load (rev x))).
  { rewrite <- (length_rev x); apply le_load_fits, bytes_ok_rev, Hx. }
  set (k := Z.of_nat (length x)) in *.
  replace (64 - 8 * Z.of_nat (length (b :: x))) with (56 - 8 * k) by (simpl; lia).
  assert (Hsplit : le_load (rev (b :: x)) ≪ (56 - 8 * k) =
                   ((b ≪ 56) .^ (le_load (rev x) ≪ (56 - 8 * k)))).
  { simpl rev; rewrite le_load_snoc, length_rev; fold k; bitwise i.
    replace (i - (56 - 8 * k) - 8 * k) with (i - 56) by lia.
    destruct (Z.lt_ge_cases i 56).
    - rewrite (Z.testbit_neg_r b) by lia; btauto.
    - rewrite (fits_testbit (8 * k)) by (trivial; lia); btauto. }
  rewrite Hsplit, <- Z.lxor_assoc, (bits_xor 8 (s .^ (b ≪ 56))); f_equal.
  rewrite bits_shift; [| | lia].
  - rewrite Z.shiftl_shiftl by lia; f_equal; lia.
  - unfold fits in Hf; rewrite Z.shiftl_mul_pow2 by lia; split; [nia |].
    replace (64 - Z.of_nat 8) with (8 * k + (56 - 8 * k)) by lia.
    rewrite Z.pow_add_r by lia; nia.
Qed.
End Window.

Lemma crc_ref_window x s :
  bytes_ok x -> (length x <= 8)%nat ->
  fold_left crc_ref_step x s =
  crc_bits (8 * length x) (s .^ (le_load (rev x) ≪ (64 - 8 * Z.of_nat (length x)))).
Proof.
  apply (absorb_window crc_bits);
    [reflexivity | apply crc_bits_add | apply crc_bits_xor | apply crc_bits_shift].
Qed.

Lemma crc_window_inj x y s :
  bytes_ok x -> bytes_ok y -> length x = length y -> (length x <= 8)%nat -> fits 64 s ->
  fold_left crc_ref_step x s = fold_left crc_ref_step y s -> x = y.
Proof.
  intros Hx Hy Hl H8 Hs He; rewrite !crc_ref_window in He by (trivial; lia).
  rewrite <- Hl in He.
  assert (Hshift : forall z, bytes_ok z -> length z = length x ->
            fits 64 (le_load (rev z) ≪ (64 - 8 * Z.of_nat (length x)))).
  { intros z Hz Hlz; pose proof (le_load_fits (rev z) (bytes_ok_rev _ Hz)) as Hf.
    rewrite length_rev, Hlz in Hf; unfold fits in *; rewrite Z.shiftl_mul_pow2 by lia.
    replace 64 with (8 * Z.of_nat (length x) + (64 - 8 * Z.of_nat (length x))) at 3 by lia.
    rewrite Z.pow_add_r by lia; nia. }
  apply crc_bits_inj in He; try (apply lxor_fits; auto; lia).
  apply (f_equal (Z.lxor s)) in He.
  rewrite <- !Z.lxor_assoc, Z.lxor_nilpotent, !Z.lxor_0_l in He.
  apply (f_equal (fun z => z ≫ (64 - 8 * Z.of_nat (length x)))) in He.
  rewrite !Z.shiftr_shiftl_l, Z.sub_diag, !Z.shiftl_0_r in He by lia.
  apply le_load_inj in He; try (apply bytes_ok_rev; assumption); [| rewrite !length_rev; assumption].
  apply (f_equal (@rev Z)) in He; rewrite !rev_involutive in He; assumption.
Qed.

(** C28.  The table-driven CRC is, on every byte string, the remainder computed
    by bit-serial division by the CRC64-ECMA polynomial. *)
Theorem crc64_is_polynomial_division data :
  bytes_ok data -> infs_crc64_ecma data = crc_ref data.
Proof. intros; apply crc64_fold_ref; [assumption | split; vm_compute; congruence]. Qed.

Lemma crc64_is_polynomial_division_witness :
  infs_crc64_ecma [49; 50; 51] = crc_ref [49; 50; 51].
Proof. apply crc64_is_polynomial_division; eval_decide. Defined.

Lemma crc64_burst a x y b :
  bytes_ok (a ++ x ++ b) -> bytes_ok y -> length x = length y -> (length x <= 8)%nat ->
  infs_crc64_ecma (a ++ x ++ b) = infs_crc64_ecma (a ++ y ++ b) -> x = y.
Proof.
  rewrite !bytes_ok_app; intros (Ha & Hx & Hb) Hy Hl H8 He.
  assert (H0 : fits 64 0) by (split; vm_compute; congruence).
  unfold infs_crc64_ecma in He; rewrite !crc64_fold_ref in He
    by (rewrite ?bytes_ok_app; auto).
  rewrite !fold_left_app in He.
  apply crc_ref_fold_inj in He; auto using crc_ref_fold_fits.
  apply crc_window_inj in He; auto using crc_ref_fold_fits.
Qed.

(** C29.  Any change confined to a window of at most eight bytes, at any position
    of a block of any size, changes its CRC: a torn or flipped field cannot go
    unnoticed. *)
Theorem crc64_detects_bursts a x y b :
  bytes_ok (a ++ x ++ b) -> bytes_ok y ->
  length x = length y -> (length x <= 8)%nat -> x <> y ->
  infs_crc64_ecma (a ++ x ++ b) <> infs_crc64_ecma (a ++ y ++ b).
Proof. intros Hok Hy Hl H8 Hne He; apply Hne; eapply crc64_burst; eassumption. Qed.

Lemma crc64_detects_bursts_witness :
  infs_crc64_ecma ([1; 2] ++ [3; 4] ++ [5]) <> infs_crc64_ecma ([1; 2] ++ [7; 4] ++ [5]).
Proof.
  apply crc64_detects_bursts;
    [eval_decide
    |eval_decide
    |reflexivity|simpl; lia|congruence].
Defined.

End Crc64Facts.

(** * The scalar hash and the padded message *)

Module Sha256Facts.
Import Sha256.

Section Facts.
Context {E : Endian}.

Lemma sha256_fold_add a b st msg :
  sha256_fold (a + b) st msg = sha256_fold b (sha256_fold a st msg) (drop (64 * a) msg).
Proof.
  revert st msg; induction a as [| a IH]; intros st msg; simpl sha256_fold.
  - rewrite drop_0; reflexivity.
  - rewrite IH, drop_drop; do 2 f_equal; lia.
Qed.

Lemma sha256_fold_prefix a st m r :
  length m = (64 * a)%nat -> sha256_fold a st (m ++ r) = sha256_fold a st m.
Proof.
  revert st m; induction a as [| a IH]; intros st m Hm; [reflexivity |]; simpl.
  rewrite take_app_le, drop_app_le by lia; apply IH; rewrite length_drop; lia.
Qed.

(** The block loop consumes exactly the whole blocks; the fuel is enough. *)
Lemma sha256_blocks_fold fuel st p :
  (length p <= fuel)%nat ->
  sha256_blocks fuel st p =
  (sha256_fold (length p / 64) st p, drop (64 * (length p / 64)) p).
Proof.
  revert st p; induction fuel as [| fuel IH]; intros st p Hf; cbn [sha256_blocks].
  { assert (length p = 0%nat) as -> by lia; simpl; rewrite drop_0; reflexivity. }
  case_decide as H64.
  - assert (length p / 64 = S (length (drop 64 p) / 64))%nat as ->.
    { rewrite length_drop.
      replace (length p) with (length p - 64 + 1 * 64)%nat at 1 by lia.
      rewrite Nat.div_add by lia; lia. }
    rewrite IH by (rewrite length_drop; lia); cbn [sha256_fold]; f_equal.
    rewrite drop_drop; f_equal; lia.
  - rewrite Nat.div_small by lia; reflexivity.
Qed.

Definition padded_len (len : nat) : nat := if decide (len < 56)%nat then 64%nat else 128%nat.

Lemma padded_len_fits len : (len < 64)%nat -> (len + 9 <= padded_len len <= 128)%nat.
Proof. intros; unfold padded_len; case_decide; lia. Qed.

Lemma pad_zeros n :
  ((119 - n mod 64) mod 64 = padded_len (n mod 64) - 9 - n mod 64)%nat.
Proof.
  pose proof (Nat.mod_upper_bound n 64); unfold padded_len; case_decide.
  - symmetry; apply (Nat.mod_unique _ _ 1); lia.
  - apply Nat.mod_small; lia.
Qed.

(** The tail buffer after the in-place stores. *)
Lemma tail_layout p be :
  (length p < 64)%nat -> length be = 8%nat ->
  splice (padded_len (length p) - 8) be
    (splice (length p) [0x80] (splice 0 p (replicate 128 0))) =
  (p ++ [0x80] ++ replicate (padded_len (length p) - 9 - length p) 0 ++ be) ++
    replicate (128 - padded_len (length p)) 0.
Proof.
  intros Hp Hbe; pose proof (padded_len_fits _ Hp); set (P := padded_len (length p)) in *.
  assert (replicate 128 0 = [] ++ replicate (length p) 0 ++ replicate 1 0 ++
            replicate (P - 9 - length p) 0 ++ replicate 8 0 ++ replicate (128 - P) 0) as ->.
  { cbn [app]; rewrite <- !replicate_add; f_equal; lia. }
  rewrite (splice_app []) by apply length_replicate; cbn [app].
  rewrite (splice_app p (replicate 1 0) _ [0x80]) by reflexivity.
  rewrite !app_assoc.
  replace (P - 8)%nat with (length ((p ++ [128]) ++ replicate (P - 9 - length p) 0))
    by (rewrite !length_app, length_replicate; simpl; lia).
  rewrite <- (app_assoc _ (replicate 8 0)), splice_app, !app_assoc
    by (rewrite length_replicate; lia); rewrite <- !app_assoc; cbn [app]; rewrite <- ?app_assoc; reflexivity.
Qed.

Lemma tail_compress st tail r :
  length tail = padded_len r ->
  (if decide (padded_len r = 128%nat)
   then sha256_compress
          (sha256_compress st (take 64 (tail ++ replicate (128 - padded_len r) 0)))
          (slice 64 64 (tail ++ replicate (128 - padded_len r) 0))
   else sha256_compress st (take 64 (tail ++ replicate (128 - padded_len r) 0))) =
  sha256_fold (padded_len r / 64) st tail.
Proof.
  unfold padded_len; destruct (decide (r < 56)%nat); intros Ht;
    destruct (decide _); try lia; simpl Nat.div; cbn [sha256_fold].
  - rewrite take_app_le by lia; reflexivity.
  - rewrite take_app_le by lia; simpl replicate; rewrite app_nil_r; reflexivity.
Qed.

(** Whole blocks in place, then a tail of one or two blocks assembled in a zeroed
    buffer: that is folding the compression over the padded message. *)
Lemma sha256_scalar_is_sha256 data : infs_sha256_scalar data = sha256_ref data.
Proof.
  unfold infs_sha256_scalar, sha256_ref; rewrite sha256_blocks_fold by lia.
  set (q := (length data / 64)%nat).
  assert (Hdm : (length data = 64 * q + length data mod 64)%nat) by apply Nat.div_mod_eq.
  pose proof (Nat.mod_upper_bound (length data) 64 ltac:(lia)) as Hmod.
  assert (Hr : length (drop (64 * q) data) = (length data mod 64)%nat)
    by (rewrite length_drop; fold q; lia).
  set (p := drop (64 * q) data) in *.
  fold (padded_len (length p)).
  set (be := store_be64 (u64 (Z.of_nat (length data) * 8))).
  assert (Hbe : length be = 8%nat)
    by (unfold be; rewrite store_be64_law, length_rev; apply length_le_store).
  rewrite tail_layout by (trivial; lia).
  pose proof (padded_len_fits (length p) ltac:(lia)) as Hpl.
  set (tail := p ++ [0x80] ++ replicate (padded_len (length p) - 9 - length p) 0 ++ be).
  assert (Ht : length tail = padded_len (length p))
    by (unfold tail; rewrite !length_app, length_replicate, Hbe; simpl; lia).
  assert (Hmsg : sha256_pad data = take (64 * q) data ++ tail).
  { unfold sha256_pad, tail; fold be; rewrite pad_zeros, <- Hr; unfold p.
    rewrite (app_assoc (take _ _)), take_drop; reflexivity. }
  rewrite Hmsg, length_app, length_take, Ht, Nat.min_l by lia.
  replace ((64 * q + padded_len (length p)) / 64)%nat with (q + padded_len (length p) / 64)%nat
    by (rewrite Nat.add_comm, Nat.mul_comm, <- Nat.div_add by lia; f_equal; lia).
  rewrite sha256_fold_add, sha256_fold_prefix by (rewrite length_take; lia).
  rewrite drop_app_length' by (rewrite length_take; lia).
  assert (sha256_fold q sha256_iv data = sha256_fold q sha256_iv (take (64 * q) data)) as ->.
  { rewrite <- (take_drop (64 * q) data) at 1.
    apply sha256_fold_prefix; rewrite length_take; lia. }
  rewrite (tail_compress _ _ _ Ht); reflexivity.
Qed.

End Facts.
End Sha256Facts.
