(* ===== verification/Fips180.v ===== *)
(** SHA-256 as the standard (FIPS 180-4) defines it, bit by bit and apart from the
    code, and the proof that the scalar hash of [src/src/checksum.c]
    ([Checksum.v]) computes it: rotations, the choice and majority functions, the
    constants as digits of roots of primes, the message schedule, the rounds, the
    padding and the byte order. *)

From Stdlib Require Import ZifyBool.
From stdpp Require Import prelude.
From S2P Require Import Prelude Endian Checksum.
#[local] Open Scope Z_scope.

(** * The standard *)

Module Fips180.

(** ** Words of 32 bits *)

(** The number with the bits [f 0], ..., [f (n - 1)]. *)
Fixpoint number (n : nat) (f : nat -> bool) : Z :=
  match n with
  | O => 0
  | S n' => 2 * number n' (fun i => f (S i)) + Z.b2z (f 0%nat)
  end.

Definition word (f : nat -> bool) : Z := number 32 f.
Definition bit (x : Z) (i : nat) : bool := Z.testbit x (Z.of_nat i).

Definition ROTR (n : nat) (x : Z) : Z := word (fun i => bit x ((i + n) mod 32)).
Definition SHR (n : nat) (x : Z) : Z := word (fun i => if decide (i + n < 32)%nat then bit x (i + n) else false).
Definition XOR3 (x y z : Z) : Z := word (fun i => xorb (xorb (bit x i) (bit y i)) (bit z i)).
Definition Ch (x y z : Z) : Z := word (fun i => if bit x i then bit y i else bit z i).
Definition Maj (x y z : Z) : Z := word (fun i => (bit x i && bit y i) || (bit x i && bit z i) || (bit y i && bit z i)).
Definition plus (x y : Z) : Z := (x + y) mod 2 ^ 32.

Definition Sigma0 (x : Z) : Z := XOR3 (ROTR 2 x) (ROTR 13 x) (ROTR 22 x).
Definition Sigma1 (x : Z) : Z := XOR3 (ROTR 6 x) (ROTR 11 x) (ROTR 25 x).
Definition sigma0 (x : Z) : Z := XOR3 (ROTR 7 x) (ROTR 18 x) (SHR 3 x).
Definition sigma1 (x : Z) : Z := XOR3 (ROTR 17 x) (ROTR 19 x) (SHR 10 x).

(** ** Constants *)

Definition prime (p : Z) : bool := forallb (fun d => negb (p mod d =? 0)) (seqZ 2 (p - 2)).
Definition first_primes (n : nat) : list Z := take n (List.filter prime (seqZ 2 310)).

(** The largest number of at most [bits] bits whose [e]-th power is at most [n]. *)
Definition root (bits : nat) (e n : Z) : Z :=
  fold_right (fun b x => if (x + 2 ^ Z.of_nat b) ^ e <=? n then x + 2 ^ Z.of_nat b else x) 0 (seq 0 bits).

(** The first 32 bits of the fractional part of the [e]-th root of [p]. *)
Definition root_fraction (e p : Z) : Z := root 40 e (p * 2 ^ (32 * e)) mod 2 ^ 32.

Definition K : list Z := map (root_fraction 3) (first_primes 64).

(** ** The hash *)

(** The eight variables. *)
Definition hash : Type := (Z * Z * Z * Z) * (Z * Z * Z * Z).

Definition H0 : hash :=
  let h := map (root_fraction 2) (first_primes 8) in
  ((h !!! 0%nat, h !!! 1%nat, h !!! 2%nat, h !!! 3%nat), (h !!! 4%nat, h !!! 5%nat, h !!! 6%nat, h !!! 7%nat)).

(** The message schedule of a block of sixteen words. *)
Definition schedule (M : list Z) : list Z :=
  fold_left (fun W t => W ++ [plus (plus (plus (sigma1 (W !!! (t - 2)%nat)) (W !!! (t - 7)%nat))
                                      (sigma0 (W !!! (t - 15)%nat))) (W !!! (t - 16)%nat)]) (seq 16 48) M.

Definition round (Kt Wt : Z) (v : hash) : hash :=
  let '((a, b, c, d), (e, f, g, h)) := v in
  let T1 := plus (plus (plus (plus h (Sigma1 e)) (Ch e f g)) Kt) Wt in
  let T2 := plus (Sigma0 a) (Maj a b c) in
  ((plus T1 T2, a, b, c), (plus d T1, e, f, g)).

Definition add_hash (x y : hash) : hash :=
  let '((a, b, c, d), (e, f, g, h)) := x in
  let '((a', b', c', d'), (e', f', g', h')) := y in
  ((plus a a', plus b b', plus c c', plus d d'), (plus e e', plus f f', plus g g', plus h h')).

Definition step (H : hash) (M : list Z) : hash :=
  let W := schedule M in
  add_hash H (fold_left (fun v t => round (K !!! t) (W !!! t) v) (seq 0 64) H).

(** ** Messages *)

(** Numbers in base 256, the most significant byte first. *)
Definition of_bytes (bs : list Z) : Z := fold_left (fun n b => n * 256 + b) bs 0.
Definition to_bytes (n : nat) (x : Z) : list Z := rev (map (fun i => (x / 256 ^ Z.of_nat i) mod 256) (seq 0 n)).

(** A one, zeros and the length in bits; [zeros] is the least number that makes the
    bits up to the length 448 more than a multiple of 512. *)
Definition padded (data : list Z) : list Z :=
  let bits := 8 * Z.of_nat (length data) in
  let zeros := (448 - (bits + 1)) mod 512 in
  data ++ [0x80] ++ replicate (Z.to_nat ((zeros - 7) / 8)) 0 ++ to_bytes 8 bits.

Definition block_words (block : list Z) : list Z := map (fun i => of_bytes (slice (i * 4) 4 block)) (seq 0 16).

Definition digest (H : hash) : list Z :=
  let '((a, b, c, d), (e, f, g, h)) := H in concat (map (to_bytes 4) [a; b; c; d; e; f; g; h]).

Definition sha256 (data : list Z) : list Z :=
  let msg := padded data in
  digest (fold_left (fun H i => step H (block_words (slice (i * 64) 64 msg))) (seq 0 (length msg / 64)) H0).

End Fips180.

(** * The code computes it *)

Module Fips180Facts.
Import Fips180 Sha256.

(** ** Words *)

Lemma number_testbit n f i : 0 <= i -> Z.testbit (number n f) i = (i <? Z.of_nat n) && f (Z.to_nat i).
Proof.
  revert f i; induction n as [| n IH]; intros f i Hi; cbn [number]; [rewrite Z.bits_0; replace (i <? _) with false by lia; reflexivity |].
  destruct (Z.eq_dec i 0) as [-> |]; [rewrite Z.testbit_0_r; reflexivity |].
  replace i with (Z.succ (i - 1)) at 1 by lia; rewrite Z.testbit_succ_r, IH by lia; f_equal; [lia |]; f_equal; lia.
Qed.

Lemma word_testbit f i : 0 <= i -> Z.testbit (word f) i = (i <? 32) && f (Z.to_nat i).
Proof. apply number_testbit. Qed.

Lemma word_fits f : fits 32 (word f).
Proof.
  assert (H : forall n g, fits (Z.of_nat n) (number n g)).
  { induction n as [| n IH]; intros g; cbn [number]; [split; cbn; lia |].
    destruct (IH (fun i => g (S i))); unfold fits; rewrite Nat2Z.inj_succ, Z.pow_succ_r by lia; destruct (g 0%nat); cbn [Z.b2z]; lia. }
  apply (H 32%nat).
Qed.

Lemma bit_testbit x i : 0 <= i -> bit x (Z.to_nat i) = Z.testbit x i.
Proof. intros; unfold bit; rewrite Z2Nat.id by lia; reflexivity. Qed.

Lemma high_bit x i : fits 32 x -> 32 <= i -> Z.testbit x i = false.
Proof. intros Hx Hi; rewrite (fits_testbit 32 x) by (trivial; lia); replace (i <? 32) with false by lia; reflexivity. Qed.

Lemma rotr_is n x : fits 32 x -> (0 < n < 32)%nat -> rotr32 x (Z.of_nat n) = ROTR n x.
Proof.
  intros Hx Hn; unfold rotr32, ROTR; bitwise i; rewrite word_testbit by lia; unfold bit.
  destruct (Z.ltb_spec i 32); cbn [andb].
  - destruct (Z.lt_ge_cases (i + Z.of_nat n) 32).
    + rewrite Nat.mod_small by lia; replace (Z.of_nat (Z.to_nat i + n)) with (i + Z.of_nat n) by lia.
      rewrite (Z.testbit_neg_r x (i - (32 - Z.of_nat n))) by lia; rewrite ?andb_false_r, ?orb_false_r; bit_cases; trivial.
    + replace ((Z.to_nat i + n) mod 32)%nat with (Z.to_nat i + n - 32)%nat by (apply (Nat.mod_unique _ _ 1); lia).
      rewrite (high_bit x (i + Z.of_nat n)) by (trivial; lia); cbn [orb]; replace (i - (32 - Z.of_nat n)) with (Z.of_nat (Z.to_nat i + n - 32)) by lia.
      bit_cases; trivial.
  - rewrite (high_bit x (i + Z.of_nat n)) by (trivial; lia); bit_cases; reflexivity.
Qed.

Lemma shr_is n x : fits 32 x -> x ≫ Z.of_nat n = SHR n x.
Proof.
  intros Hx; unfold SHR; bitwise i; rewrite word_testbit by lia; unfold bit; destruct (decide _).
  - replace (Z.of_nat (Z.to_nat i + n)) with (i + Z.of_nat n) by lia; bit_cases; reflexivity.
  - rewrite high_bit by (trivial; lia); rewrite !andb_false_r; reflexivity.
Qed.

Lemma xor3_is x y z : fits 32 x -> fits 32 y -> fits 32 z -> x .^ y .^ z = XOR3 x y z.
Proof.
  intros Hx Hy Hz; unfold XOR3; bitwise i; rewrite word_testbit, !bit_testbit by lia.
  destruct (Z.ltb_spec i 32); [reflexivity |]; rewrite !high_bit by trivial; reflexivity.
Qed.

Lemma ch_is x y z : fits 32 x -> fits 32 y -> fits 32 z -> (x .& y) .^ (u32 (Z.lnot x) .& z) = Ch x y z.
Proof.
  intros Hx Hy Hz; unfold Ch; bitwise i; rewrite Z.lnot_spec, word_testbit, !bit_testbit by lia.
  destruct (Z.ltb_spec i 32); [destruct (Z.testbit x i); cbn [negb andb]; [apply xorb_false_r | apply xorb_false_l] |].
  rewrite !high_bit by trivial; reflexivity.
Qed.

Lemma maj_is x y z : fits 32 x -> fits 32 y -> fits 32 z -> (x .& y) .^ (x .& z) .^ (y .& z) = Maj x y z.
Proof.
  intros Hx Hy Hz; unfold Maj; bitwise i; rewrite word_testbit, !bit_testbit by lia.
  destruct (Z.ltb_spec i 32); [destruct (Z.testbit x i), (Z.testbit y i), (Z.testbit z i); reflexivity |].
  rewrite !high_bit by trivial; reflexivity.
Qed.

Lemma plus_fits x y : fits 32 (plus x y).
Proof. apply Z.mod_pos_bound; lia. Qed.

Lemma plus_twice x y z : plus (plus x y) z = plus (x + y) z.
Proof. apply Zplus_mod_idemp_l. Qed.

(** ** Constants *)

Lemma constants : K = sha256_k /\ H0 = ((0x6a09e667, 0xbb67ae85, 0x3c6ef372, 0xa54ff53a), (0x510e527f, 0x9b05688c, 0x1f83d9ab, 0x5be0cd19)).
Proof. vm_compute; auto. Qed.

(** ** One block *)

Definition hash_ok (v : hash) : Prop :=
  let '((a, b, c, d), (e, f, g, h)) := v in Forall (fits 32) [a; b; c; d; e; f; g; h].

Definition regs_of (v : hash) : regs := let '((a, b, c, d), (e, f, g, h)) := v in Regs a b c d e f g h.
Definition listed (v : hash) : list Z := let '((a, b, c, d), (e, f, g, h)) := v in [a; b; c; d; e; f; g; h].

Lemma words_lookup (W : list Z) t : Forall (fits 32) W -> fits 32 (W !!! t).
Proof.
  intros HW; rewrite list_lookup_total_alt; destruct (W !! t) as [x |] eqn:Ex; [exact (Forall_lookup_1 _ _ _ _ HW Ex) | cbn; unfold fits; lia].
Qed.

Lemma schedule_word_is W t : Forall (fits 32) W ->
  schedule_word W t = plus (plus (plus (sigma1 (W !!! (t - 2)%nat)) (W !!! (t - 7)%nat)) (sigma0 (W !!! (t - 15)%nat))) (W !!! (t - 16)%nat).
Proof.
  intros HW; pose proof (fun k => words_lookup W k HW) as Hw; unfold schedule_word, sigma0, sigma1.
  change (rotr32 ?x 7) with (rotr32 x (Z.of_nat 7)); change (rotr32 ?x 18) with (rotr32 x (Z.of_nat 18)).
  change (rotr32 ?x 17) with (rotr32 x (Z.of_nat 17)); change (rotr32 ?x 19) with (rotr32 x (Z.of_nat 19)).
  change (?x ≫ 3) with (x ≫ Z.of_nat 3); change (?x ≫ 10) with (x ≫ Z.of_nat 10).
  rewrite !rotr_is, !shr_is, !xor3_is by first [apply Hw | apply word_fits | lia].
  rewrite (plus_twice _ _ (XOR3 _ _ _)), plus_twice; unfold plus, wrap; f_equal; lia.
Qed.

Lemma schedule_is M : Forall (fits 32) M ->
  fold_left (fun W t => W ++ [schedule_word W t]) (seq 16 48) M = schedule M /\ Forall (fits 32) (schedule M).
Proof.
  intros HM; unfold schedule; generalize (seq 16 48); intros ts; revert M HM; induction ts as [| t ts IH]; intros M HM; cbn [fold_left]; [auto |].
  rewrite (schedule_word_is M t HM); apply IH, Forall_app; split; [exact HM |]; apply Forall_cons; split; [apply plus_fits | apply Forall_nil; exact I].
Qed.

Lemma round_is W t v : Forall (fits 32) W -> hash_ok v ->
  sha256_round W (regs_of v) t = regs_of (round (sha256_k !!! t) (W !!! t) v) /\ hash_ok (round (sha256_k !!! t) (W !!! t) v).
Proof.
  intros HW; destruct v as [[[[a b] c] d] [[[e f] g] h]]; intros Hv; unfold hash_ok in Hv; rewrite !Forall_cons in Hv.
  destruct Hv as (Ha & Hb & Hc & Hd & He & Hf & Hg & Hh & _); split.
  - unfold sha256_round, round, regs_of, Sigma0, Sigma1; cbn [ra rb rc rd re rf rg rh]; generalize (sha256_k !!! t); intros kt.
    change (rotr32 ?x 6) with (rotr32 x (Z.of_nat 6)); change (rotr32 ?x 11) with (rotr32 x (Z.of_nat 11)).
    change (rotr32 ?x 25) with (rotr32 x (Z.of_nat 25)); change (rotr32 ?x 2) with (rotr32 x (Z.of_nat 2)).
    change (rotr32 ?x 13) with (rotr32 x (Z.of_nat 13)); change (rotr32 ?x 22) with (rotr32 x (Z.of_nat 22)).
    rewrite !rotr_is, ch_is, maj_is, !xor3_is by first [assumption | apply word_fits | lia].
    rewrite (plus_twice _ _ (Ch e f g)), (plus_twice _ _ kt), (plus_twice _ _ (W !!! t)); unfold plus, wrap; reflexivity.
  - unfold round, hash_ok; repeat (apply Forall_cons; split; [first [assumption | apply plus_fits] |]); apply Forall_nil; exact I.
Qed.

Lemma rounds_are W ts v : Forall (fits 32) W -> hash_ok v ->
  fold_left (sha256_round W) ts (regs_of v) = regs_of (fold_left (fun v t => round (K !!! t) (W !!! t) v) ts v) /\
  hash_ok (fold_left (fun v t => round (K !!! t) (W !!! t) v) ts v).
Proof.
  rewrite (proj1 constants); intros HW; revert v; induction ts as [| t ts IH]; intros v Hv; cbn [fold_left]; [auto |].
  destruct (round_is W t v HW Hv) as [-> Hv']; apply IH, Hv'.
Qed.

(** ** Bytes *)

Lemma join_byte b x : fits 8 b -> 0 <= x -> b .| (x ≪ 8) = x * 256 + b.
Proof.
  intros Hb Hx; rewrite Z.add_comm, Z.shiftl_mul_pow2 by lia; change (2 ^ 8) with 256; symmetry; rewrite <- Z.lxor_lor; [apply Z.add_nocarry_lxor |];
    (apply Z.bits_inj'; intros i Hi; rewrite Z.land_spec, Z.bits_0; change 256 with (2 ^ 8); rewrite Z.mul_pow2_bits by lia);
    (destruct (Z.lt_ge_cases i 8); [rewrite (Z.testbit_neg_r x) by lia; apply andb_false_r |]);
    rewrite (fits_testbit 8 b) by (trivial; lia); replace (i <? 8) with false by lia; reflexivity.
Qed.

Lemma le_load_number l : bytes_ok l -> le_load l = fold_right (fun b n => n * 256 + b) 0 l /\ 0 <= le_load l.
Proof.
  induction 1 as [| b l Hb Hl [IH1 IH2]]; cbn [le_load fold_right]; [split; [reflexivity | lia] |].
  rewrite join_byte by trivial; rewrite <- IH1; split; [reflexivity | unfold fits in Hb; lia].
Qed.

Lemma le_store_digits n v : le_store n v = map (fun i => (v / 256 ^ Z.of_nat i) mod 256) (seq 0 n).
Proof.
  revert v; induction n as [| n IH]; intros v; cbn [le_store]; [reflexivity |].
  cbn [seq map]; f_equal; [rewrite Z.pow_0_r, Z.div_1_r; reflexivity |]; rewrite IH, <- seq_shift, map_map; apply map_ext; intros i.
  rewrite Z.shiftr_div_pow2 by lia; rewrite Z.div_div by lia; rewrite Nat2Z.inj_succ, Z.pow_succ_r by lia; reflexivity.
Qed.

Section Hash.
Context {E : Endian}.

Lemma load_word bs : length bs = 4%nat -> bytes_ok bs -> load_be32 bs = of_bytes bs /\ fits 32 (of_bytes bs).
Proof.
  intros Hl Hb; pose proof (le_load_fits (rev bs) ltac:(apply Forall_rev, Hb)) as Hf; rewrite length_rev, Hl in Hf.
  assert (He : le_load (rev bs) = of_bytes bs).
  { rewrite (proj1 (le_load_number _ (Forall_rev Hb))); unfold of_bytes; apply (fold_left_rev_right (fun b n => n * 256 + b)). }
  rewrite He in Hf; rewrite load_be32_law, He by trivial; auto.
Qed.

Lemma store_bytes n x : rev (le_store n x) = to_bytes n x.
Proof. unfold to_bytes; rewrite le_store_digits; reflexivity. Qed.

Lemma block_words_ok block : length block = 64%nat -> bytes_ok block ->
  map (fun i => load_be32 (slice (i * 4) 4 block)) (seq 0 16) = block_words block /\ Forall (fits 32) (block_words block).
Proof.
  intros Hl Hb; assert (Hw : forall i, In i (seq 0 16) -> load_be32 (slice (i * 4) 4 block) = of_bytes (slice (i * 4) 4 block) /\
    fits 32 (of_bytes (slice (i * 4) 4 block))).
  { intros i Hi%in_seq; apply load_word; [apply length_slice; lia | auto with infs]. }
  split; [apply map_ext_in; intros i Hi; apply Hw, Hi |]; apply List.Forall_forall; intros x (i & <- & Hi)%in_map_iff; apply Hw, Hi.
Qed.

Lemma compress_is H block : hash_ok H -> length block = 64%nat -> bytes_ok block ->
  sha256_compress (listed H) block = listed (step H (block_words block)) /\ hash_ok (step H (block_words block)).
Proof.
  intros HH Hl Hb; destruct (block_words_ok block Hl Hb) as [Hw Hf]; unfold sha256_compress, sha256_schedule, step.
  rewrite Hw; destruct (schedule_is _ Hf) as [-> Hs]; destruct (rounds_are _ (seq 0 64) H Hs HH) as [Hr Hv].
  set (v := fold_left _ (seq 0 64) H) in *; destruct H as [[[[a b] c] d] [[[e f] g] h]].
  change (Regs (listed _ !!! 0%nat) _ _ _ _ _ _ _) with (regs_of (a, b, c, d, (e, f, g, h))); rewrite Hr.
  destruct v as [[[[a' b'] c'] d'] [[[e' f'] g'] h']]; split; [unfold add_hash, listed, regs_of, plus, wrap; reflexivity |].
  unfold add_hash, hash_ok; repeat (apply Forall_cons; split; [apply plus_fits |]); apply Forall_nil; exact I.
Qed.

(** ** Messages *)

Lemma fold_left_map {X Y S} (f : S -> Y -> S) (g : X -> Y) l s : fold_left f (map g l) s = fold_left (fun s x => f s (g x)) l s.
Proof. revert s; induction l as [| x l IH]; intros s; cbn [map fold_left]; auto. Qed.

Lemma blocks_are n H msg : hash_ok H -> bytes_ok msg -> (64 * n <= length msg)%nat ->
  sha256_fold n (listed H) msg = listed (fold_left (fun H i => step H (block_words (slice (i * 64) 64 msg))) (seq 0 n) H).
Proof.
  revert H msg; induction n as [| n IH]; intros H msg HH Hb Hn; cbn [sha256_fold seq fold_left]; [reflexivity |].
  destruct (compress_is H (take 64 msg) HH) as [-> Hok]; [rewrite length_take; lia | apply Forall_take, Hb |].
  rewrite IH by (try apply Forall_drop; trivial; rewrite ?length_drop; lia); rewrite <- seq_shift, fold_left_map.
  change (slice (0 * 64) 64 msg) with (take 64 (drop 0 msg)); rewrite drop_0; f_equal.
  apply (fold_left_inv_ext (fun _ => True) (fun _ => True)); trivial; [| apply Forall_true; trivial].
  intros H' i _ _; unfold slice; rewrite drop_drop; do 4 f_equal; lia.
Qed.

Lemma padding_is data : Z.of_nat (length data) < 2 ^ 61 -> sha256_pad data = padded data.
Proof.
  intros Hl; unfold sha256_pad, padded; rewrite store_be64_law, store_bytes, wrap_small by (unfold fits; lia).
  rewrite (Z.mul_comm 8); do 3 f_equal; f_equal; apply Nat2Z.inj.
  rewrite Nat2Z.inj_mod, Nat2Z.inj_sub, Nat2Z.inj_mod by (pose proof (Nat.mod_upper_bound (length data) 64); lia).
  set (n := Z.of_nat (length data)); rewrite Z2Nat.id by (apply Z.div_pos; [| lia];
    pose proof (Z.div_mod (448 - (n * 8 + 1)) 512 ltac:(lia)); pose proof (Z.mod_pos_bound (448 - (n * 8 + 1)) 512 ltac:(lia)); lia).
  change (Z.of_nat 64) with 64; change (Z.of_nat 119) with 119.
  pose proof (Z.div_mod n 64 ltac:(lia)); pose proof (Z.mod_pos_bound n 64 ltac:(lia)).
  pose proof (Z.div_mod (119 - n mod 64) 64 ltac:(lia)); pose proof (Z.mod_pos_bound (119 - n mod 64) 64 ltac:(lia)).
  set (r := (119 - n mod 64) mod 64) in *.
  replace ((448 - (n * 8 + 1)) mod 512) with (r * 8 + 7); [replace (r * 8 + 7 - 7) with (r * 8) by lia; rewrite Z.div_mul; lia |].
  apply (Z.mod_unique_pos _ _ (- (n / 64) - 1 + (119 - n mod 64) / 64)); lia.
Qed.

Lemma padded_ok data : bytes_ok data -> bytes_ok (padded data).
Proof.
  intros Hd; unfold padded; rewrite <- store_bytes; apply bytes_ok_app; split; [exact Hd |]; constructor; [split; cbn; lia |].
  apply bytes_ok_app; split; [apply Forall_replicate; split; cbn; lia | apply Forall_rev, le_store_ok].
Qed.

(** C30.  The scalar hash is SHA-256: for every message shorter than 2^61 bytes, whole
    blocks compressed in place and a tail of one or two blocks assembled in a zeroed
    buffer give the hash the standard defines, from its bitwise functions, its
    constants (digits of the roots of primes), schedule, rounds and padding. *)
Theorem sha256_scalar_is_fips180 data : bytes_ok data -> Z.of_nat (length data) < 2 ^ 61 -> infs_sha256_scalar data = sha256 data.
Proof.
  intros Hd Hl; rewrite Sha256Facts.sha256_scalar_is_sha256; unfold sha256_ref, sha256; rewrite (padding_is data Hl).
  set (msg := padded data); change sha256_iv with (listed (0x6a09e667, 0xbb67ae85, 0x3c6ef372, 0xa54ff53a, (0x510e527f, 0x9b05688c, 0x1f83d9ab, 0x5be0cd19))).
  rewrite <- (proj2 constants), blocks_are; [| rewrite (proj2 constants); unfold hash_ok; repeat (apply Forall_cons; split; [unfold fits; lia |]); apply Forall_nil; exact I | apply padded_ok, Hd | apply Nat.Div0.mul_div_le].
  set (H := fold_left _ _ H0); destruct H as [[[[a b] c] d] [[[e f] g] h]].
  unfold digest, listed; cbn [seq map concat]; rewrite !store_be32_law, !store_bytes; reflexivity.
Qed.

End Hash.

Section Sample.
#[local] Existing Instance reference_endian.

(** The hash of abc. *)
Lemma sha256_scalar_is_fips180_witness :
  infs_sha256_scalar [97; 98; 99] = sha256 [97; 98; 99] /\
  of_bytes (infs_sha256_scalar [97; 98; 99]) = 0xba7816bf8f01cfea414140de5dae2223b00361a396177a9cb410ff61f20015ad.
Proof. split; [apply sha256_scalar_is_fips180; [eval_decide | reflexivity] | vm_compute; reflexivity]. Defined.

End Sample.

End Fips180Facts.
