(* ===== verification/Iac1.v ===== *)
(** The IAC1 block codec of [src/include/infilfs/iac1.h], shared by the portable
    core and the kernel module: a byte-predictor transform followed by a token
    stream of fills, window matches and literals.

    A buffer with its size is a list; a routine that returns a length of zero on
    failure returns [None], otherwise the bytes it wrote.  (The null-pointer tests
    have no counterpart: a list is never null, except for the optional candidate
    buffer.)  Positions are [nat]; scratch entries keep their 32-bit encoding.
    The decoder runs in a monad in which a read or a write outside its buffer is
    [Stuck], as is a loop that does not finish, so that safety and termination are
    theorems about it rather than assumptions. *)

From stdpp Require Import prelude.
From S2P Require Import Prelude.
#[local] Open Scope Z_scope.

(** * Definitions *)

Module Iac1.

Definition INFS_IAC1_VERSION : Z := 1.
Definition MODE_IDENTITY : Z := 0.
Definition MODE_DELTA8 : Z := 1.
Definition MODE_XOR4 : Z := 2.
Definition HEADER_SIZE : nat := 4.
Definition HASH_BITS : Z := 14.
Definition HASH_SIZE : nat := Eval vm_compute in Z.to_nat (1 ≪ HASH_BITS).
Definition MATCH_MIN : nat := 4.
Definition MATCH_MAX : nat := 131.
Definition LITERAL_MAX : nat := 127.
Definition FILL_TOKEN : Z := 0x7f.
Definition FILL_MIN : nat := 4.
Definition FILL_MAX : nat := Z.to_nat 65535.
Definition WINDOW_MAX : nat := Z.to_nat 65535.

#[global] Arguments HASH_SIZE : simpl never.
#[global] Arguments FILL_MAX : simpl never.
#[global] Arguments WINDOW_MAX : simpl never.

Record scratch := Scratch { latest : list Z; previous : list Z }.

Definition infs_iac1_bound (input_size : nat) : nat :=
  HEADER_SIZE + input_size + (input_size + LITERAL_MAX - 1) / LITERAL_MAX.

(** ** The predictor transforms *)

Definition delta_byte (src : list Z) (pos : nat) : Z :=
  if decide (pos = 0%nat) then src !!! pos else u8 (src !!! pos - src !!! (pos - 1)%nat).

Definition xor4_byte (src : list Z) (pos : nat) : Z :=
  if decide (4 <= pos)%nat then u8 ((src !!! pos) .^ (src !!! (pos - 4)%nat)) else src !!! pos.

Definition transform_byte (src : list Z) (pos : nat) (mode : Z) : Z :=
  if mode =? MODE_DELTA8 then delta_byte src pos
  else if mode =? MODE_XOR4 then xor4_byte src pos
  else src !!! pos.

(** The three-way branch on the mode in the hot loops of the encoder. *)
Definition mode_byte (src : list Z) (mode : Z) (pos : nat) : Z :=
  if mode =? MODE_IDENTITY then src !!! pos
  else if mode =? MODE_DELTA8 then delta_byte src pos
  else xor4_byte src pos.

(** ** Match finding *)

Definition hash4 (src : list Z) (pos : nat) (mode : Z) : nat :=
  let b0 := mode_byte src mode pos in
  let b1 := mode_byte src mode (pos + 1) in
  let b2 := mode_byte src mode (pos + 2) in
  let b3 := mode_byte src mode (pos + 3) in
  let value := b0 .| u32 (b1 ≪ 8) .| u32 (b2 ≪ 16) .| u32 (b3 ≪ 24) in
  let value := value .^ (value ≫ 15) in
  let value := u32 (value * 0x2c1b3c6d) in
  let value := value .^ (value ≫ 12) in
  Z.to_nat (value ≫ (32 - HASH_BITS)).

Definition clear_scratch : scratch :=
  Scratch (replicate HASH_SIZE 0) (replicate HASH_SIZE 0).

Definition insert_position (src : list Z) (pos : nat) (mode : Z) (s : scratch) : scratch :=
  if decide (pos + MATCH_MIN > length src)%nat then s
  else
    let hash := hash4 src pos mode in
    Scratch (<[hash := u32 (u32 (Z.of_nat pos) + 1)]> (latest s))
            (<[hash := latest s !!! hash]> (previous s)).

(** [while (length < limit && test (length)) ++length], with
    [fuel = limit - length]. *)
Fixpoint count_while (test : nat -> bool) (fuel length : nat) : nat :=
  match fuel with
  | O => length
  | S fuel' => if test length then count_while test fuel' (S length) else length
  end.

Definition candidate_match (src : list Z) (pos candidate : nat) (mode : Z) : nat :=
  if decide (candidate >= pos \/ pos - candidate > WINDOW_MAX)%nat then 0%nat
  else
    let limit := (length src - pos)%nat in
    let limit := if decide (limit > MATCH_MAX)%nat then MATCH_MAX else limit in
    let length := count_while
      (fun length => mode_byte src mode (pos + length) =?
                     mode_byte src mode (candidate + length)) limit 0 in
    if decide (length >= MATCH_MIN)%nat then length else 0%nat.

(** One turn of the candidate loop of [find_match], on [(best, best_candidate)]. *)
Definition consider (src : list Z) (pos : nat) (mode : Z) (best : nat * nat) (encoded : Z)
    : nat * nat :=
  if encoded =? 0 then best
  else
    let candidate := (Z.to_nat encoded - 1)%nat in
    let length := candidate_match src pos candidate mode in
    if decide (length > best.1)%nat then (length, candidate) else best.

(** The match length and the distance written through [distance_out]. *)
Definition find_match (src : list Z) (pos : nat) (mode : Z) (s : scratch) : nat * Z :=
  let best :=
    if decide (pos + MATCH_MIN <= length src)%nat then
      let hash := hash4 src pos mode in
      fold_left (consider src pos mode) [latest s !!! hash; previous s !!! hash] (0%nat, 0%nat)
    else (0%nat, 0%nat) in
  (best.1, if decide (best.1 = 0%nat) then 0 else u16 (Z.of_nat (pos - best.2))).

Definition fill_run (src : list Z) (pos : nat) (mode : Z) : nat :=
  let limit := (length src - pos)%nat in
  let limit := if decide (limit > FILL_MAX)%nat then FILL_MAX else limit in
  let value := mode_byte src mode pos in
  let length := count_while (fun length => mode_byte src mode (pos + length) =? value)
                  (limit - 1) 1 in
  if decide (length >= FILL_MIN)%nat then length else 0%nat.

(** ** The encoder *)

(** [for (k = first; k < last; ++k) insert_position (pos + k)]. *)
Definition insert_range (src : list Z) (pos : nat) (mode : Z) (first last : nat) (s : scratch)
    : scratch :=
  fold_left (fun s k => insert_position src (pos + k) mode s) (seq first (last - first)) s.

(** The literal scan: [pos] and the scratch when it stops.  The fuel is what is
    left of [INFS_IAC1_LITERAL_MAX]. *)
Fixpoint literal_scan (fuel : nat) (src : list Z) (mode : Z) (pos : nat) (s : scratch)
    : nat * scratch :=
  match fuel with
  | O => (pos, s)
  | S fuel' =>
      if decide (pos < length src)%nat then
        let probe_fill := fill_run src pos mode in
        let probe := (find_match src pos mode s).1 in
        if decide (probe_fill <> 0%nat \/ probe <> 0%nat) then (pos, s)
        else literal_scan fuel' src mode (S pos) (insert_position src pos mode s)
      else (pos, s)
  end.

(** The literal copy: [memcpy] in identity mode, byte by byte otherwise. *)
Definition literal_bytes (src : list Z) (mode : Z) (start len : nat) : list Z :=
  if mode =? MODE_IDENTITY then take len (drop start src)
  else if mode =? MODE_DELTA8 then map (delta_byte src) (seq start len)
  else map (xor4_byte src) (seq start len).

(** The token loop [while (pos < input_size)]; [dst] holds the [out] bytes
    written so far. *)
Fixpoint compress_loop (fuel : nat) (src : list Z) (capacity : nat) (mode : Z)
    (pos : nat) (s : scratch) (dst : list Z) : option (list Z) :=
  if decide (pos < length src)%nat then
    match fuel with
    | O => None
    | S fuel' =>
        let fill := fill_run src pos mode in
        if decide (fill <> 0%nat) then
          if decide (length dst + 4 > capacity)%nat then None
          else
            let dst := dst ++ [FILL_TOKEN; transform_byte src pos mode;
                               u8 (Z.of_nat fill .& 0xff); u8 (Z.of_nat fill ≫ 8)] in
            compress_loop fuel' src capacity mode (pos + fill)
              (insert_range src pos mode 0 fill s) dst
        else
          let '(mtch, distance) := find_match src pos mode s in
          let s := insert_position src pos mode s in
          if decide (mtch <> 0%nat) then
            if decide (length dst + 3 > capacity)%nat then None
            else
              let dst := dst ++ [u8 (0x80 .| u8 (Z.of_nat (mtch - 4)));
                                 u8 (distance .& 0xff); u8 (distance ≫ 8)] in
              compress_loop fuel' src capacity mode (pos + mtch)
                (insert_range src pos mode 1 mtch s) dst
          else
            let '(pos', s) := literal_scan (LITERAL_MAX - 1) src mode (S pos) s in
            let literal_length := (pos' - pos)%nat in
            if decide (literal_length = 0 \/ pos > length src \/
                       literal_length > length src - pos)%nat then None
            else if decide (length dst + 1 + literal_length > capacity)%nat then None
            else
              let dst := dst ++ u8 (Z.of_nat (literal_length - 1))
                                :: literal_bytes src mode pos literal_length in
              compress_loop fuel' src capacity mode pos' s dst
    end
  else Some dst.

Definition compress_mode_limit (src : list Z) (capacity : nat) (mode : Z) (output_limit : nat)
    : option (list Z) :=
  let capacity := if decide (output_limit <> 0 /\ output_limit < capacity)%nat
                  then output_limit else capacity in
  if decide (length src = 0%nat) then None
  else if mode >? MODE_XOR4 then None
  else if decide (capacity < HEADER_SIZE)%nat then None
  else compress_loop (length src) src capacity mode 0 clear_scratch [INFS_IAC1_VERSION; mode; 0; 0].

Definition compress_mode (src : list Z) (capacity : nat) (mode : Z) : option (list Z) :=
  compress_mode_limit src capacity mode capacity.

(** ** Heuristics *)

(** The counters of the sampling loop of [should_attempt]. *)
Record sampling := Sampling { seen : list Z; unique : nat; delta_hits : nat; xor_hits : nat }.

Definition attempt_sample (src : list Z) (stride : nat) (c : sampling) (i : nat) : sampling :=
  let pos := (i * stride)%nat in
  let value := src !!! pos in
  let bit := u64 (1 ≪ (value .& 63)) in
  let bucket := Z.to_nat (value ≫ 6) in
  let fresh := ((seen c !!! bucket) .& bit) =? 0 in
  let delta := bool_decide (2 <= pos)%nat &&
    (u8 (src !!! pos - src !!! (pos - 1)%nat) =?
     u8 (src !!! (pos - 1)%nat - src !!! (pos - 2)%nat)) in
  let xor := bool_decide (4 <= pos)%nat && (src !!! pos =? src !!! (pos - 4)%nat) in
  Sampling (if fresh then <[bucket := (seen c !!! bucket) .| bit]> (seen c) else seen c)
           (if fresh then S (unique c) else unique c)
           (if delta then S (delta_hits c) else delta_hits c)
           (if xor then S (xor_hits c) else xor_hits c).

Definition should_attempt (src : list Z) : bool :=
  if decide (length src < 32)%nat then false
  else
    let samples := if decide (length src < 512)%nat then length src else 512%nat in
    let stride := (length src / samples)%nat in
    let stride := if decide (stride = 0%nat) then 1%nat else stride in
    let c := fold_left (attempt_sample src stride) (seq 0 samples)
               (Sampling [0; 0; 0; 0] 0 0 0) in
    bool_decide (unique c <= 200)%nat || bool_decide (delta_hits c > samples / 24)%nat ||
    bool_decide (xor_hits c > samples / 24)%nat.

(** One turn of the loop of [predictor_mode], on [(delta_hits, xor_hits)]. *)
Definition predictor_sample (src : list Z) (stride : nat) (c : nat * nat) (n : nat) : nat * nat :=
  let i := (2 + n * stride)%nat in
  let i := if decide (i >= length src)%nat then (length src - 1)%nat else i in
  let a := u8 (src !!! i - src !!! (i - 1)%nat) in
  let b := u8 (src !!! (i - 1)%nat - src !!! (i - 2)%nat) in
  (if a =? b then S c.1 else c.1,
   if bool_decide (4 <= i)%nat && (src !!! i =? src !!! (i - 4)%nat) then S c.2 else c.2).

(** The decision on the counters. *)
Definition predictor_choice (c : nat * nat) (samples : nat) : Z :=
  if decide (c.2 > c.1 /\ c.2 > samples / 16)%nat then MODE_XOR4
  else if decide (c.1 > samples / 16)%nat then MODE_DELTA8
  else MODE_IDENTITY.

Definition predictor_mode (src : list Z) : Z :=
  if decide (length src < 8)%nat then MODE_IDENTITY
  else
    let available := (length src - 2)%nat in
    let samples := if decide (available < 1024)%nat then available else Z.to_nat 1024 in
    let stride := (available / samples)%nat in
    let stride := if decide (stride = 0%nat) then 1%nat else stride in
    predictor_choice (fold_left (predictor_sample src stride) (seq 0 samples) (0%nat, 0%nat)) samples.

Definition compress_selected (src : list Z) (capacity : nat) (mode : Z) (useful_limit : nat)
    : option (list Z) :=
  match compress_mode_limit src capacity mode useful_limit with
  | Some stored => Some stored
  | None => if negb (mode =? MODE_IDENTITY)
            then compress_mode_limit src capacity MODE_IDENTITY useful_limit else None
  end.

(** [candidate_capacity] is [None] when there is no candidate buffer. *)
Definition compress (src : list Z) (capacity : nat) (candidate_capacity : option nat)
    : option (list Z) :=
  let best := compress_mode src capacity MODE_IDENTITY in
  let mode := predictor_mode src in
  match candidate_capacity with
  | Some cc =>
      if decide (mode <> MODE_IDENTITY /\ cc >= capacity)%nat then
        match compress_mode src cc mode, best with
        | Some alternate, Some b => if decide (length alternate < length b)%nat
                                    then Some alternate else best
        | Some alternate, None => Some alternate
        | None, _ => best
        end
      else best
  | None => best
  end.

(** ** The decoder *)

(** Outcomes of the decoder: a value, the error return [0], or an access
    outside a buffer (or a loop that ran out of turns). *)
Inductive exec (A : Type) :=
| Ret (a : A)
| Reject
| Stuck.
#[global] Arguments Ret {A} _.
#[global] Arguments Reject {A}.
#[global] Arguments Stuck {A}.

#[global] Instance exec_ret : MRet exec := @Ret.
#[global] Instance exec_bind : MBind exec := fun A B f m =>
  match m with Ret a => f a | Reject => Reject | Stuck => Stuck end.

Definition guard_not (b : bool) : exec unit := if b then Reject else Ret tt.

(** [src[i]]. *)
Definition read (src : list Z) (i : nat) : exec Z :=
  match src !! i with Some b => Ret b | None => Stuck end.

(** [buf[i - distance]]; an index below the buffer is outside it. *)
Definition read_back (buf : list Z) (i distance : nat) : exec Z :=
  if decide (distance <= i)%nat then read buf (i - distance) else Stuck.

(** [dst[out++] = b] on a buffer of [size] bytes, of which [dst] are written. *)
Definition emit (size : nat) (dst : list Z) (b : Z) : exec (list Z) :=
  if decide (length dst < size)%nat then Ret (dst ++ [b]) else Stuck.

Fixpoint emit_fill (n size : nat) (value : Z) (dst : list Z) : exec (list Z) :=
  match n with
  | O => Ret dst
  | S n' => dst' ← emit size dst value; emit_fill n' size value dst'
  end.

Fixpoint emit_copy (n size : nat) (src : list Z) (inp : nat) (dst : list Z) : exec (list Z) :=
  match n with
  | O => Ret dst
  | S n' => b ← read src inp; dst' ← emit size dst b; emit_copy n' size src (S inp) dst'
  end.

Fixpoint emit_match (n size distance : nat) (dst : list Z) : exec (list Z) :=
  match n with
  | O => Ret dst
  | S n' => b ← read_back dst (length dst) distance;
            dst' ← emit size dst b; emit_match n' size distance dst'
  end.

Definition read_le16 (src : list Z) (i : nat) : exec nat :=
  lo ← read src i; hi ← read src (i + 1); Ret (Z.to_nat (lo .| (hi ≪ 8))).

(** One token, from the position after its control byte: the new [in] and the
    output. *)
Definition decode_token (src : list Z) (size : nat) (control : Z) (inp : nat) (dst : list Z)
    : exec (nat * list Z) :=
  let room := (size - length dst)%nat in
  if control =? FILL_TOKEN then
    guard_not (bool_decide (length src - inp < 3)%nat) ;;
    value ← read src inp;
    len ← read_le16 src (inp + 1);
    guard_not (bool_decide (len < FILL_MIN)%nat || bool_decide (len > room)%nat) ;;
    dst' ← emit_fill len size value dst;
    Ret ((inp + 3)%nat, dst')
  else if (control .& 0x80) =? 0 then
    let len := (Z.to_nat control + 1)%nat in
    guard_not (bool_decide (len > length src - inp)%nat || bool_decide (len > room)%nat) ;;
    dst' ← emit_copy len size src inp dst;
    Ret ((inp + len)%nat, dst')
  else
    let len := (Z.to_nat (control .& 0x7f) + 4)%nat in
    guard_not (bool_decide (length src - inp < 2)%nat || bool_decide (len > room)%nat) ;;
    distance ← read_le16 src inp;
    guard_not (bool_decide (distance = 0%nat) || bool_decide (distance > length dst)%nat) ;;
    dst' ← emit_match len size distance dst;
    Ret ((inp + 2)%nat, dst').

Fixpoint decode_loop (fuel : nat) (src : list Z) (size inp : nat) (dst : list Z)
    : exec (nat * list Z) :=
  if decide (inp < length src /\ length dst < size)%nat then
    match fuel with
    | O => Stuck
    | S fuel' =>
        control ← read src inp;
        '(inp', dst') ← decode_token src size control (S inp) dst;
        decode_loop fuel' src size inp' dst'
    end
  else Ret (inp, dst).

(** [dst[i] = b] on a buffer that is full. *)
Definition store (dst : list Z) (i : nat) (b : Z) : exec (list Z) :=
  if decide (i < length dst)%nat then Ret (<[i := b]> dst) else Stuck.

(** The in-place inverse predictors: [n] turns of their loop from [i] on. *)
Fixpoint undo_loop (combine : Z -> Z -> Z) (lag n i : nat) (dst : list Z) : exec (list Z) :=
  match n with
  | O => Ret dst
  | S n' => a ← read dst i;
            b ← read_back dst i lag;
            dst' ← store dst i (combine a b);
            undo_loop combine lag n' (S i) dst'
  end.

Definition undo_delta (output_size : nat) (dst : list Z) : exec (list Z) :=
  undo_loop (fun a b => u8 (a + b)) 1 (output_size - 1) 1 dst.

Definition undo_xor4 (output_size : nat) (dst : list Z) : exec (list Z) :=
  undo_loop (fun a b => u8 (a .^ b)) 4 (output_size - 4) 4 dst.

Definition decompress (src : list Z) (output_size : nat) : exec (list Z) :=
  guard_not (bool_decide (length src < HEADER_SIZE)%nat) ;;
  version ← read src 0; r2 ← read src 2; r3 ← read src 3;
  guard_not (negb (version =? INFS_IAC1_VERSION) || negb (r2 =? 0) || negb (r3 =? 0)) ;;
  mode ← read src 1;
  guard_not (mode >? MODE_XOR4) ;;
  '(inp, dst) ← decode_loop (length src) src output_size HEADER_SIZE [];
  guard_not (negb (bool_decide (inp = length src)) || negb (bool_decide (length dst = output_size))) ;;
  if mode =? MODE_DELTA8 then undo_delta output_size dst
  else if mode =? MODE_XOR4 then undo_xor4 output_size dst else Ret dst.

End Iac1.

(** * Facts *)

Module Iac1Facts.
Import Iac1.

(** ** The encoder's searches *)

Lemma count_while_spec test fuel len :
  (len <= count_while test fuel len <= len + fuel)%nat /\
  (forall k, len <= k < count_while test fuel len -> test k = true)%nat.
Proof.
  revert len; induction fuel as [| fuel IH]; intros len; cbn [count_while].
  - split; [lia | intros; lia].
  - destruct (test len) eqn:Et; [| split; [lia | intros; lia]].
    destruct (IH (S len)) as [Hb Ht]; split; [lia |].
    intros k Hk; destruct (decide (k = len)) as [-> |]; [assumption | apply Ht; lia].
Qed.

Definition mode_ok (mode : Z) : Prop := 0 <= mode <= 2.

Lemma mode_byte_transform src mode pos :
  mode_ok mode -> mode_byte src mode pos = transform_byte src pos mode.
Proof.
  intros Hm; unfold mode_byte, transform_byte, MODE_IDENTITY, MODE_DELTA8, MODE_XOR4.
  destruct (Z.eqb_spec mode 0), (Z.eqb_spec mode 1), (Z.eqb_spec mode 2);
    trivial; unfold mode_ok in Hm; lia.
Qed.

(** The byte stream the tokens describe. *)
Definition stream (src : list Z) (mode : Z) : list Z :=
  map (fun i => transform_byte src i mode) (seq 0 (length src)).

Lemma length_stream src mode : length (stream src mode) = length src.
Proof. unfold stream; rewrite length_map, length_seq; reflexivity. Qed.

Lemma lookup_stream src mode i :
  (i < length src)%nat -> stream src mode !! i = Some (transform_byte src i mode).
Proof.
  intros; unfold stream; rewrite list_lookup_fmap, lookup_seq_lt by assumption; reflexivity.
Qed.

Section Encoder.
Context (src : list Z) (mode : Z).
Hypothesis Hmode : mode_ok mode.

Lemma fill_run_spec pos :
  (pos < length src)%nat -> fill_run src pos mode <> 0%nat ->
  (4 <= fill_run src pos mode <= length src - pos /\ fill_run src pos mode <= FILL_MAX)%nat /\
  (forall k, (k < fill_run src pos mode)%nat ->
     transform_byte src (pos + k) mode = transform_byte src pos mode).
Proof.
  intros Hpos; unfold fill_run, FILL_MIN; set (limit := if decide (length src - pos > _)%nat then _ else _).
  assert (Hl : (1 <= limit <= length src - pos /\ limit <= FILL_MAX)%nat).
  { unfold limit, FILL_MAX; case_decide; lia. }
  match goal with |- context [count_while ?t ?f 1] =>
    destruct (count_while_spec t f 1) as [Hb Ht]; set (n := count_while t f 1) in * end.
  case_decide; [intros _ | congruence].
  split; [lia |]; intros k Hk; destruct (decide (k = 0%nat)) as [-> |].
  - rewrite Nat.add_0_r; reflexivity.
  - specialize (Ht k ltac:(lia)); apply Z.eqb_eq in Ht.
    rewrite !mode_byte_transform in Ht by assumption; assumption.
Qed.

(** A candidate that can be emitted as a match of length [m]. *)
Definition valid_match (pos m cand : nat) : Prop :=
  (cand < pos /\ pos - cand <= WINDOW_MAX /\ 4 <= m <= MATCH_MAX /\ pos + m <= length src)%nat /\
  (forall k, (k < m)%nat ->
     transform_byte src (pos + k) mode = transform_byte src (cand + k) mode).

Lemma candidate_match_spec pos cand :
  candidate_match src pos cand mode <> 0%nat ->
  valid_match pos (candidate_match src pos cand mode) cand.
Proof.
  unfold candidate_match, MATCH_MIN; case_decide as Hc; [congruence |].
  set (limit := if decide (length src - pos > _)%nat then _ else _).
  assert (Hl : (limit <= length src - pos /\ limit <= MATCH_MAX)%nat).
  { unfold limit; case_decide; lia. }
  match goal with |- context [count_while ?t ?f 0] =>
    destruct (count_while_spec t f 0) as [Hb Ht]; set (n := count_while t f 0) in * end.
  case_decide; [intros _ | congruence].
  split; [lia |]; intros k Hk; specialize (Ht k ltac:(lia)); apply Z.eqb_eq in Ht.
  rewrite !mode_byte_transform in Ht by assumption; assumption.
Qed.

Definition best_ok (pos : nat) (best : nat * nat) : Prop :=
  best.1 = 0%nat \/ valid_match pos best.1 best.2.

Lemma consider_ok pos best encoded :
  best_ok pos best -> best_ok pos (consider src pos mode best encoded).
Proof.
  intros Hb; unfold consider; destruct (encoded =? 0); [assumption |].
  case_decide; [| assumption]; right; apply candidate_match_spec; simpl; lia.
Qed.

Lemma find_match_spec pos s :
  (find_match src pos mode s).1 <> 0%nat ->
  exists cand, valid_match pos (find_match src pos mode s).1 cand /\
               (find_match src pos mode s).2 = Z.of_nat (pos - cand).
Proof.
  unfold find_match; cbn [fst snd]; set (best := if decide (pos + _ <= _)%nat then _ else _).
  assert (Hb : best_ok pos best).
  { unfold best; case_decide; [| left; reflexivity].
    cbn [fold_left]; do 2 apply consider_ok; left; reflexivity. }
  intros Hne; destruct Hb as [| Hv]; [congruence |]; exists best.2; split; [assumption |].
  case_decide; [congruence |]; apply wrap_small.
  destruct Hv as [(? & ? & _) _]; unfold WINDOW_MAX in *; split; [lia |].
  change (2 ^ 16) with 65536; lia.
Qed.

Lemma literal_scan_spec fuel pos s pos' s' :
  literal_scan fuel src mode pos s = (pos', s') -> (pos <= length src)%nat ->
  (pos <= pos' <= pos + fuel /\ pos' <= length src)%nat /\
  (pos' = pos + fuel \/ pos' = length src \/ fill_run src pos' mode <> 0 \/
   (find_match src pos' mode s').1 <> 0)%nat.
Proof.
  revert pos s; induction fuel as [| fuel IH]; intros pos s; cbn [literal_scan].
  - intros [= <- <-]; split; [lia | left; lia].
  - case_decide; [case_decide as Hp |].
    + intros [= <- <-]; split; [lia | tauto].
    + intros He Hle; apply IH in He as [? ?]; [split; [lia |] | lia].
      intuition lia.
    + intros [= <- <-] ?; split; [lia | right; left; lia].
Qed.

Lemma literal_bytes_spec start len :
  (start + len <= length src)%nat ->
  literal_bytes src mode start len = slice start len (stream src mode).
Proof.
  intros Hl; apply list_eq; intros i; rewrite lookup_slice.
  assert (Hi : forall f, (forall j, f j = transform_byte src j mode) ->
     map f (seq start len) !! i =
     if decide (i < len)%nat then stream src mode !! (start + i)%nat else None).
  { intros f Hf; rewrite list_lookup_fmap; case_decide.
    - rewrite lookup_seq_lt, lookup_stream by lia; simpl; f_equal; apply Hf.
    - rewrite lookup_seq_ge by lia; reflexivity. }
  unfold mode_ok in Hmode; unfold literal_bytes, transform_byte in *.
  assert (mode = 0 \/ mode = 1 \/ mode = 2) as [E | [E | E]] by lia; rewrite E in *;
    cbn in Hi |- *; [| apply Hi; reflexivity ..].
  change (take len (drop start src)) with (slice start len src); rewrite lookup_slice.
  case_decide; [| reflexivity]; rewrite lookup_stream by lia.
  apply list_lookup_lookup_total_lt; lia.
Qed.

Lemma length_literal_bytes start len :
  (start + len <= length src)%nat -> length (literal_bytes src mode start len) = len.
Proof.
  intros; rewrite literal_bytes_spec, length_slice by (rewrite ?length_stream; lia); trivial.
Qed.

End Encoder.

(** ** The decoder on one token *)

Lemma read_app pre x i : read (pre ++ x) (length pre + i) = read x i.
Proof. unfold read; rewrite lookup_app_r, Nat.add_comm, Nat.add_sub by lia; reflexivity. Qed.

Lemma emit_ok size dst b :
  (length dst < size)%nat -> emit size dst b = Ret (dst ++ [b]).
Proof. intros; unfold emit; rewrite decide_True by assumption; reflexivity. Qed.

Lemma emit_fill_ok n size v dst :
  (length dst + n <= size)%nat -> emit_fill n size v dst = Ret (dst ++ replicate n v).
Proof.
  revert dst; induction n as [| n IH]; intros dst Hn; cbn [emit_fill replicate].
  - rewrite app_nil_r; reflexivity.
  - rewrite emit_ok by lia; cbn; rewrite IH by (rewrite length_app; simpl; lia).
    rewrite <- app_assoc; reflexivity.
Qed.

Lemma read_slice src i n :
  (i < length src)%nat -> exists b, read src i = Ret b /\ slice i (S n) src = b :: slice (S i) n src.
Proof.
  intros Hi; destruct (lookup_lt_is_Some_2 src i Hi) as [b Hb]; exists b.
  unfold read, slice; rewrite Hb, (drop_S src b) by assumption; split; reflexivity.
Qed.

Lemma emit_copy_ok n size src inp dst :
  (inp + n <= length src)%nat -> (length dst + n <= size)%nat ->
  emit_copy n size src inp dst = Ret (dst ++ slice inp n src).
Proof.
  revert inp dst; induction n as [| n IH]; intros inp dst Hs Hd; cbn [emit_copy].
  - unfold slice; rewrite take_0, app_nil_r; reflexivity.
  - destruct (read_slice src inp n) as (b & Hr & Hsl); [lia |].
    rewrite Hr, Hsl; cbn; rewrite emit_ok by lia; cbn.
    rewrite IH by (rewrite ?length_app; simpl; lia).
    rewrite <- app_assoc; reflexivity.
Qed.

(** Copying from the window rebuilds [T] even when source and target overlap. *)
Lemma emit_match_ok T n size dist pos :
  (1 <= dist <= pos)%nat -> (pos + n <= length T)%nat -> (length T <= size)%nat ->
  (forall k, k < n -> T !! (pos + k) = T !! (pos - dist + k))%nat ->
  emit_match n size dist (take pos T) = Ret (take (pos + n) T).
Proof.
  revert pos; induction n as [| n IH]; intros pos Hd Hn Hs Heq; cbn [emit_match].
  - rewrite Nat.add_0_r; reflexivity.
  - rewrite length_take, Nat.min_l by lia.
    destruct (lookup_lt_is_Some_2 T pos ltac:(lia)) as [b Hb].
    assert (Hr : read_back (take pos T) pos dist = Ret b).
    { unfold read_back, read; rewrite decide_True, lookup_take_lt by lia.
      specialize (Heq 0%nat ltac:(lia)); rewrite !Nat.add_0_r in Heq; rewrite <- Heq, Hb; reflexivity. }
    rewrite Hr; cbn; rewrite emit_ok by (rewrite length_take; lia); cbn.
    rewrite <- (take_S_r T pos b) by assumption; rewrite IH; try lia.
    + do 2 f_equal; lia.
    + intros k Hk; specialize (Heq (S k) ltac:(lia)).
      replace (S pos + k)%nat with (pos + S k)%nat by lia.
      replace (S pos - dist + k)%nat with (pos - dist + S k)%nat by lia; assumption.
Qed.

Lemma read_head pre b x : read (pre ++ b :: x) (length pre) = Ret b.
Proof. rewrite <- (Nat.add_0_r (length pre)), read_app; reflexivity. Qed.

Lemma read_le16_head pre lo hi x :
  read_le16 (pre ++ lo :: hi :: x) (length pre) = Ret (Z.to_nat (lo .| (hi ≪ 8))).
Proof. unfold read_le16; rewrite read_head, read_app; reflexivity. Qed.

Lemma read_le16_next pre b lo hi x :
  read_le16 (pre ++ b :: lo :: hi :: x) (length pre + 1) = Ret (Z.to_nat (lo .| (hi ≪ 8))).
Proof. unfold read_le16; rewrite <- Nat.add_assoc, !read_app; reflexivity. Qed.

Lemma le16_bytes n : fits 16 n -> (u8 (n .& 0xff) .| (u8 (n ≫ 8) ≪ 8)) = n.
Proof.
  intros Hn; change 0xff with (Z.ones 8); rewrite <- wrap_land by lia.
  bitwise i; replace (i - 8 + 8) with i by lia; bit_cases;
    rewrite ?orb_false_r; trivial.
  symmetry; apply (fits_testbit 16); trivial; lia.
Qed.

(** Control bytes of literals and matches are told apart. *)
Lemma literal_control len :
  (1 <= len <= 127)%nat ->
  let c := u8 (Z.of_nat (len - 1)) in
  (c =? FILL_TOKEN) = false /\ ((c .& 0x80) =? 0) = true /\ (Z.to_nat c + 1)%nat = len.
Proof.
  intros Hl; assert (Hall : forallb (fun len => let c := u8 (Z.of_nat (len - 1)) in
    negb (c =? FILL_TOKEN) && ((c .& 0x80) =? 0) && (Z.to_nat c + 1 =? len)%nat) (seq 1 127) = true)
    by (vm_compute; reflexivity).
  rewrite forallb_forall in Hall; specialize (Hall len ltac:(apply in_seq; lia)).
  cbv zeta in *; split_ands; repeat split; trivial; apply Nat.eqb_eq; assumption.
Qed.

Lemma match_control m :
  (4 <= m <= 131)%nat ->
  let c := u8 (0x80 .| u8 (Z.of_nat (m - 4))) in
  (c =? FILL_TOKEN) = false /\ ((c .& 0x80) =? 0) = false /\ (Z.to_nat (c .& 0x7f) + 4)%nat = m.
Proof.
  intros Hl; assert (Hall : forallb (fun m => let c := u8 (0x80 .| u8 (Z.of_nat (m - 4))) in
    negb (c =? FILL_TOKEN) && negb ((c .& 0x80) =? 0) && (Z.to_nat (c .& 0x7f) + 4 =? m)%nat)
    (seq 4 128) = true) by (vm_compute; reflexivity).
  rewrite forallb_forall in Hall; specialize (Hall m ltac:(apply in_seq; lia)).
  cbv zeta in *; split_ands; repeat split; trivial; apply Nat.eqb_eq; assumption.
Qed.

Section Decoder.
Context (T : list Z).

(** From output position [pos], the tokens [body] rebuild the rest of [T]. *)
Definition decodes (body : list Z) (pos : nat) : Prop :=
  forall pre fuel, (length body <= fuel)%nat ->
  decode_loop fuel (pre ++ body) (length T) (length pre) (take pos T) =
  Ret (length (pre ++ body), T).

Lemma decodes_nil : decodes [] (length T).
Proof.
  intros pre fuel _; rewrite firstn_all, app_nil_r.
  destruct fuel; cbn [decode_loop]; rewrite decide_False by lia; reflexivity.
Qed.

(** One token followed by its continuation. *)
Lemma decodes_token control tok body pos pos' :
  (pos < length T)%nat ->
  (forall pre, decode_token (pre ++ tok ++ body) (length T) control (length pre) (take pos T) =
               Ret ((length pre + length tok)%nat, take pos' T)) ->
  decodes body pos' -> decodes (control :: tok ++ body) pos.
Proof.
  intros Hpos Htok Hbody pre fuel Hf; simpl in Hf; rewrite length_app in Hf.
  destruct fuel as [| fuel]; [lia |]; cbn [decode_loop].
  rewrite decide_True by (rewrite length_take, length_app; simpl; lia).
  rewrite read_head; cbn [mbind exec_bind].
  specialize (Htok (pre ++ [control])); rewrite length_app, <- app_assoc in Htok.
  cbn [app length] in Htok; rewrite Nat.add_1_r in Htok; rewrite Htok; cbn [mbind exec_bind].
  specialize (Hbody (pre ++ control :: tok) fuel ltac:(lia)).
  rewrite length_app in Hbody; cbn [length] in Hbody.
  replace (length pre + S (length tok))%nat with (S (length pre) + length tok)%nat in Hbody by lia.
  rewrite <- app_assoc in Hbody; cbn [app] in Hbody; exact Hbody.
Qed.

Lemma decodes_fill len v body pos :
  (4 <= len <= FILL_MAX)%nat -> (pos + len <= length T)%nat ->
  slice pos len T = replicate len v -> decodes body (pos + len) ->
  decodes ([FILL_TOKEN; v; u8 (Z.of_nat len .& 0xff); u8 (Z.of_nat len ≫ 8)] ++ body) pos.
Proof.
  intros Hlen Hpos Hv; apply (decodes_token FILL_TOKEN [v; _; _]); [lia |].
  intros pre; unfold decode_token; rewrite Z.eqb_refl.
  rewrite bool_decide_eq_false_2 by (rewrite length_app; simpl; lia); cbn [guard_not mbind exec_bind].
  cbn [app]; rewrite read_head, read_le16_next; cbn [mbind exec_bind].
  rewrite le16_bytes by (unfold FILL_MAX in *; split; [lia | change (2 ^ 16) with 65536; lia]).
  rewrite Nat2Z.id, length_take, Nat.min_l by lia; unfold FILL_MIN.
  rewrite !bool_decide_eq_false_2 by lia; cbn [guard_not mbind exec_bind orb].
  rewrite emit_fill_ok by (rewrite length_take; lia); cbn [mbind exec_bind].
  rewrite <- Hv; unfold slice; rewrite take_take_drop; reflexivity.
Qed.

Lemma decodes_literal len body pos :
  (1 <= len <= 127)%nat -> (pos + len <= length T)%nat -> decodes body (pos + len) ->
  decodes (u8 (Z.of_nat (len - 1)) :: slice pos len T ++ body) pos.
Proof.
  intros Hlen Hpos; apply decodes_token; [lia |].
  intros pre; destruct (literal_control len Hlen) as (Hc1 & Hc2 & Hc3).
  unfold decode_token; rewrite Hc1, Hc2, Hc3.
  assert (Hsl : length (slice pos len T) = len) by (apply length_slice; lia).
  rewrite !bool_decide_eq_false_2 by (rewrite ?length_take, ?length_app; lia).
  cbn [guard_not mbind exec_bind orb].
  rewrite emit_copy_ok by (rewrite ?length_take, ?length_app; lia); cbn [mbind exec_bind].
  rewrite Hsl; do 2 f_equal; rewrite <- take_take_drop; f_equal.
  rewrite <- Hsl at 1; unfold slice at 1; rewrite drop_app_length, take_app_length; reflexivity.
Qed.

Lemma decodes_match m cand body pos :
  (4 <= m <= 131)%nat -> (cand < pos)%nat -> (pos - cand <= WINDOW_MAX)%nat ->
  (pos + m <= length T)%nat ->
  (forall k, k < m -> T !! (pos + k) = T !! (cand + k))%nat ->
  decodes body (pos + m) ->
  decodes ([u8 (0x80 .| u8 (Z.of_nat (m - 4))); u8 (Z.of_nat (pos - cand) .& 0xff);
            u8 (Z.of_nat (pos - cand) ≫ 8)] ++ body) pos.
Proof.
  intros Hm Hc Hw Hpos Heq; apply (decodes_token _ [_; _]); [lia |].
  intros pre; destruct (match_control m Hm) as (Hc1 & Hc2 & Hc3).
  unfold decode_token; rewrite Hc1, Hc2, Hc3.
  rewrite !bool_decide_eq_false_2 by (rewrite ?length_take, ?length_app; simpl; lia).
  cbn [guard_not mbind exec_bind orb app].
  rewrite read_le16_head, le16_bytes
    by (unfold WINDOW_MAX in *; split; [lia | change (2 ^ 16) with 65536; lia]).
  cbn [mbind exec_bind]; rewrite Nat2Z.id, length_take, Nat.min_l by lia.
  rewrite !bool_decide_eq_false_2 by lia; cbn [guard_not mbind exec_bind orb].
  rewrite emit_match_ok; try lia; [reflexivity |].
  intros k Hk; replace (pos - (pos - cand) + k)%nat with (cand + k)%nat by lia; auto.
Qed.

End Decoder.

(** ** Encoder and decoder together *)

Section Compress.
Context (src : list Z) (mode : Z).
Hypothesis Hmode : mode_ok mode.
#[local] Abbreviation T := (stream src mode).

Lemma stream_fill pos :
  (pos < length src)%nat -> fill_run src pos mode <> 0%nat ->
  slice pos (fill_run src pos mode) T =
  replicate (fill_run src pos mode) (transform_byte src pos mode).
Proof.
  intros Hpos Hf; destruct (fill_run_spec src mode Hmode pos Hpos Hf) as [Hb Heq].
  apply list_eq; intros i; rewrite lookup_slice; case_decide.
  - rewrite lookup_stream, lookup_replicate_2 by lia; f_equal; auto.
  - symmetry; apply lookup_replicate_None; lia.
Qed.

(** What one turn of the token loop does: the token it appends decodes, and the
    loop goes on from a later position within the capacity. *)
Lemma compress_loop_step fuel capacity pos s dst out :
  (pos < length src)%nat ->
  compress_loop (S fuel) src capacity mode pos s dst = Some out ->
  exists tok pos' s',
    (pos < pos' <= length src)%nat /\ (length (dst ++ tok) <= capacity)%nat /\
    (forall body, decodes T body pos' -> decodes T (tok ++ body) pos) /\
    compress_loop fuel src capacity mode pos' s' (dst ++ tok) = Some out.
Proof.
  intros Hpos; cbn [compress_loop]; rewrite decide_True by assumption.
  case_decide as Hf.
  { destruct (fill_run_spec src mode Hmode pos Hpos Hf) as [Hb _].
    case_decide; [discriminate |]; intros Hrec; eexists _, _, _; split_and!; [..| exact Hrec];
      [lia | lia | rewrite length_app; simpl; lia |].
    intros body; apply decodes_fill; try lia; [rewrite length_stream; lia |].
    apply stream_fill; assumption. }
  destruct (find_match src pos mode s) as [m d] eqn:Em; case_decide as Hm.
  { destruct (find_match_spec src mode Hmode pos s) as (cand & [Hv Heq] & Hd);
      rewrite Em in *; cbn [fst snd] in *; [assumption |]; subst d; unfold MATCH_MAX in Hv.
    case_decide; [discriminate |]; intros Hrec; eexists _, _, _; split_and!; [..| exact Hrec];
      [lia | lia | rewrite length_app; simpl; lia |].
    intros body; apply decodes_match; try lia; [rewrite length_stream; lia |].
    intros k Hk; rewrite !lookup_stream by lia; f_equal; auto. }
  destruct (literal_scan _ _ _ _ _) as [pos' s'] eqn:El.
  apply (literal_scan_spec src mode) in El as [Hl _]; [| lia]; unfold LITERAL_MAX in Hl.
  case_decide; [discriminate |]; case_decide; [discriminate |].
  intros Hrec; eexists _, _, _; split_and!; [..| exact Hrec]; [lia | lia | |].
  - rewrite length_app; cbn [length]; rewrite length_literal_bytes by (trivial; lia); lia.
  - intros body; rewrite literal_bytes_spec by (trivial; lia).
    replace pos' with (pos + (pos' - pos))%nat at 1 by lia.
    apply decodes_literal; [lia | rewrite length_stream; lia].
Qed.

Lemma compress_loop_decodes fuel capacity pos s dst out :
  (pos <= length src)%nat ->
  compress_loop fuel src capacity mode pos s dst = Some out ->
  exists body, out = dst ++ body /\ decodes T body pos /\
    (length dst <= capacity -> length out <= capacity)%nat.
Proof.
  revert pos s dst; induction fuel as [| fuel IH]; intros pos s dst Hpos Hc;
    destruct (decide (pos < length src)%nat) as [Hlt |].
  - cbn [compress_loop] in Hc; rewrite decide_True in Hc by assumption; discriminate.
  - cbn [compress_loop] in Hc; rewrite decide_False in Hc by assumption; injection Hc as <-.
    exists []; rewrite app_nil_r; split_and!; trivial.
    replace pos with (length T) by (rewrite length_stream; lia); apply decodes_nil.
  - apply compress_loop_step in Hc as (tok & pos' & s' & Hp' & Hcap & Htok & Hrec);
      [| assumption].
    apply IH in Hrec as (body & -> & Hbody & Hlen); [| lia].
    exists (tok ++ body); rewrite app_assoc; auto.
  - cbn [compress_loop] in Hc; rewrite decide_False in Hc by assumption; injection Hc as <-.
    exists []; rewrite app_nil_r; split_and!; trivial.
    replace pos with (length T) by (rewrite length_stream; lia); apply decodes_nil.
Qed.

(** Room enough for the rest of the input: a fifth more than its size, with a
    credit of four fifths of a byte where a fill or a match comes next. *)
Definition has_room (capacity pos : nat) (s : scratch) (dst : list Z) : Prop :=
  (5 * length dst + 6 * (length src - pos) <= 5 * capacity)%nat \/
  (fill_run src pos mode <> 0 \/ (find_match src pos mode s).1 <> 0)%nat /\
  (5 * length dst + 6 * (length src - pos) <= 5 * capacity + 4)%nat.

Lemma compress_loop_succeeds fuel capacity pos s dst :
  (pos <= length src)%nat -> (length src - pos <= fuel)%nat -> has_room capacity pos s dst ->
  exists out, compress_loop fuel src capacity mode pos s dst = Some out.
Proof.
  revert pos s dst; induction fuel as [| fuel IH]; intros pos s dst Hle Hf Hroom;
    cbn [compress_loop]; destruct (decide (pos < length src)%nat) as [Hpos |]; eauto; [lia |].
  case_decide as Hfill.
  { apply (fill_run_spec src mode Hmode pos Hpos) in Hfill as [Hb _].
    rewrite decide_False by (destruct Hroom; lia); apply IH; [lia .. |].
    left; rewrite length_app; cbn [length]; destruct Hroom; lia. }
  destruct (find_match src pos mode s) as [m d] eqn:Em; case_decide as Hm.
  { destruct (find_match_spec src mode Hmode pos s) as (cand & [Hv _] & _);
      rewrite Em in *; cbn [fst] in *; [assumption |].
    rewrite decide_False by (destruct Hroom; lia); apply IH; [lia .. |].
    left; rewrite length_app; cbn [length]; destruct Hroom; lia. }
  destruct Hroom as [Hroom | [[? | Hm'] _]]; [| lia | rewrite Em in Hm'; cbn in Hm'; lia].
  destruct (literal_scan _ _ _ _ _) as [pos' s'] eqn:El.
  apply (literal_scan_spec src mode) in El as [Hl Hnext]; [| lia]; unfold LITERAL_MAX in *.
  rewrite decide_False, decide_False by lia; apply IH; [lia .. |].
  unfold has_room; rewrite length_app; cbn [length]; rewrite length_literal_bytes by (trivial; lia).
  destruct Hnext as [? | [? | ?]]; [left; lia | left; lia | right; split; [assumption | lia]].
Qed.

(** The number of turns is bounded by the input: more fuel changes nothing. *)
Lemma compress_loop_fuel f1 f2 capacity pos s dst :
  (length src - pos <= f1)%nat -> (length src - pos <= f2)%nat ->
  compress_loop f1 src capacity mode pos s dst = compress_loop f2 src capacity mode pos s dst.
Proof.
  revert f2 pos s dst; induction f1 as [| f1 IH]; intros f2 pos s dst H1 H2;
    destruct f2 as [| f2]; cbn [compress_loop];
    destruct (decide (pos < length src)%nat) as [Hpos |]; try lia; trivial.
  case_decide as Hf.
  { apply (fill_run_spec src mode Hmode pos Hpos) in Hf as [? _].
    case_decide; [reflexivity | apply IH; lia]. }
  destruct (find_match src pos mode s) as [m d]; case_decide.
  { case_decide; [reflexivity | apply IH; lia]. }
  destruct (literal_scan _ _ _ _ _) as [pos' s'] eqn:El.
  apply (literal_scan_spec src mode) in El as [? _]; [| lia].
  case_decide; [reflexivity |]; case_decide; [reflexivity | apply IH; lia].
Qed.

End Compress.

(** ** The inverse predictors *)

(** A predictor that combines each byte with the one [lag] places before is
    undone in place, left to right. *)
Section Lag.
Context (lag : nat) (f g : Z -> Z -> Z) (src T : list Z).
Hypothesis Hlag : (1 <= lag)%nat.
Hypothesis Hgf : forall a b, fits 8 a -> g (f a b) b = a.
Hypothesis Hsrc : bytes_ok src.
Hypothesis HT : forall i, (i < length src)%nat ->
  T !! i = Some (if decide (lag <= i)%nat then f (src !!! i) (src !!! (i - lag)%nat) else src !!! i).
Hypothesis HTlen : length T = length src.

Definition undo_step (d : list Z) (i : nat) : list Z :=
  <[i := g (d !!! i) (d !!! (i - lag)%nat)]> d.

Lemma undo_step_prefix i :
  (lag <= i < length src)%nat ->
  undo_step (take i src ++ drop i T) i = take (S i) src ++ drop (S i) T.
Proof.
  intros Hi; unfold undo_step.
  pose proof (HT i ltac:(lia)) as Hx; rewrite decide_True in Hx by lia.
  rewrite (drop_S _ _ _ Hx).
  destruct (lookup_lt_is_Some_2 src i ltac:(lia)) as [x Hsx].
  assert (Hlen : length (take i src) = i) by (rewrite length_take; lia).
  rewrite (lookup_total_app_r _ _ i) by lia.
  rewrite (lookup_total_app_l _ _ (i - lag)) by lia.
  rewrite Hlen, Nat.sub_diag, lookup_total_take_lt by lia; cbn [lookup_total list_lookup_total].
  rewrite Hgf by auto with infs.
  replace i with (length (take i src) + 0)%nat at 1 by lia.
  rewrite insert_app_r; cbn [insert list_insert].
  rewrite (take_S_r _ _ _ Hsx), (list_lookup_total_correct _ _ _ Hsx), <- app_assoc; reflexivity.
Qed.

Lemma undo_loop_fold n i d :
  (lag <= i)%nat -> n = 0%nat \/ (i + n <= length d)%nat -> undo_loop g lag n i d = Ret (fold_left undo_step (seq i n) d).
Proof.
  revert i d; induction n as [| n IH]; intros i d Hi Hn; cbn [undo_loop seq fold_left]; [reflexivity |].
  unfold read_back, read, store; rewrite (list_lookup_lookup_total_lt d i), decide_True, (list_lookup_lookup_total_lt d (i - lag)) by lia.
  cbn [mbind exec_bind]; rewrite decide_True by lia; cbn [mbind exec_bind]; apply IH; [lia | right; unfold undo_step; rewrite length_insert; lia].
Qed.

Lemma undo_fold k :
  (lag + k <= length src)%nat ->
  fold_left undo_step (seq lag k) T = take (lag + k) src ++ drop (lag + k) T.
Proof.
  induction k as [| k IH]; intros Hk.
  - rewrite Nat.add_0_r; cbn [seq fold_left]; rewrite <- (take_drop lag T) at 1; f_equal.
    apply list_eq_same_length with lag; rewrite ?length_take; try lia.
    intros i x y Hi; rewrite !lookup_take_lt, HT, decide_False by lia.
    intros [= <-] Hy; rewrite (list_lookup_total_correct _ _ _ Hy); reflexivity.
  - rewrite seq_S, fold_left_app, IH by lia; cbn [fold_left].
    rewrite undo_step_prefix by lia; rewrite Nat.add_succ_r; reflexivity.
Qed.

Lemma undo_all : undo_loop g lag (length T - lag) lag T = Ret src.
Proof.
  rewrite undo_loop_fold by lia; f_equal; destruct (decide (lag <= length src)%nat).
  - rewrite undo_fold by lia; rewrite firstn_all2, drop_ge, app_nil_r by lia; reflexivity.
  - replace (length T - lag)%nat with 0%nat by lia; cbn [seq fold_left].
    apply list_eq_same_length with (length src); [lia .. |].
    intros i x y Hi; rewrite HT, decide_False by lia.
    intros [= <-] Hy; rewrite (list_lookup_total_correct _ _ _ Hy); reflexivity.
Qed.
End Lag.

Lemma undo_delta_stream src : bytes_ok src -> undo_delta (length src) (stream src MODE_DELTA8) = Ret src.
Proof.
  intros Hs; rewrite <- (length_stream src MODE_DELTA8); apply (undo_all 1 (fun a b => u8 (a - b)) (fun a b => u8 (a + b)) src); trivial.
  - intros a b Ha; unfold wrap; rewrite Zplus_mod_idemp_l, Z.sub_add; apply (wrap_small 8), Ha.
  - intros i Hi; rewrite lookup_stream by assumption.
    unfold transform_byte, delta_byte; cbn; repeat case_decide; trivial; lia.
  - apply length_stream.
Qed.

Lemma undo_xor4_stream src : bytes_ok src -> undo_xor4 (length src) (stream src MODE_XOR4) = Ret src.
Proof.
  intros Hs; rewrite <- (length_stream src MODE_XOR4); apply (undo_all 4 (fun a b => u8 (a .^ b)) (fun a b => u8 (a .^ b)) src); trivial; try lia.
  - intros a b Ha; bitwise i; bit_cases; [btauto | symmetry; apply (fits_testbit 8); trivial; lia].
  - intros i Hi; rewrite lookup_stream by assumption.
    unfold transform_byte, xor4_byte; cbn; repeat case_decide; trivial; lia.
  - apply length_stream.
Qed.

Lemma stream_identity src : stream src MODE_IDENTITY = src.
Proof.
  apply list_eq_same_length with (length src); [reflexivity | apply length_stream |].
  intros i x y Hi; rewrite lookup_stream by assumption; unfold transform_byte; cbn.
  intros [= <-] Hy; rewrite (list_lookup_total_correct _ _ _ Hy); reflexivity.
Qed.

Lemma compress_mode_limit_roundtrip src capacity mode limit out :
  bytes_ok src -> 0 <= mode ->
  compress_mode_limit src capacity mode limit = Some out ->
  decompress out (length src) = Ret src /\ (length out <= capacity)%nat.
Proof.
  intros Hs H0; unfold compress_mode_limit; set (cap := if decide (_ /\ _) then _ else _).
  assert (Hcap : (cap <= capacity)%nat) by (unfold cap; case_decide; lia).
  case_decide; [discriminate |].
  destruct (mode >? MODE_XOR4) eqn:Em; [discriminate |].
  case_decide as Hh; [discriminate |]; intros Hc.
  assert (Hmode : mode_ok mode) by (unfold mode_ok, MODE_XOR4 in *; to_prop; lia).
  apply (compress_loop_decodes src mode Hmode) in Hc as (body & -> & Hb & Hlen); [| lia].
  split; [| unfold HEADER_SIZE in *; specialize (Hlen ltac:(simpl; lia)); lia].
  unfold decompress; cbn [app length read lookup list_lookup mbind exec_bind guard_not].
  rewrite bool_decide_eq_false_2 by (unfold HEADER_SIZE; lia).
  cbn [guard_not mbind exec_bind negb orb Z.eqb INFS_IAC1_VERSION Pos.eqb]; rewrite Em.
  cbn [guard_not mbind exec_bind].
  pose proof (Hb [INFS_IAC1_VERSION; mode; 0; 0] (S (S (S (S (length body))))) ltac:(lia)) as Hd.
  rewrite take_0, length_stream in Hd; cbn [app length] in Hd; unfold HEADER_SIZE; rewrite Hd.
  cbn [mbind exec_bind]; rewrite !bool_decide_eq_true_2 by (rewrite ?length_stream; trivial).
  cbn [negb orb guard_not mbind exec_bind].
  unfold mode_ok in Hmode; assert (mode = 0 \/ mode = 1 \/ mode = 2) as [-> | [-> | ->]] by lia; cbn [Z.eqb Pos.eqb MODE_DELTA8 MODE_XOR4].
  - f_equal; apply stream_identity.
  - apply undo_delta_stream; assumption.
  - apply undo_xor4_stream; assumption.
Qed.

Lemma compress_mode_limit_useful src capacity mode limit out :
  0 <= mode -> limit <> 0%nat -> compress_mode_limit src capacity mode limit = Some out ->
  (length out <= limit)%nat.
Proof.
  intros H0 Hl; unfold compress_mode_limit; set (cap := if decide (_ /\ _) then _ else _).
  assert (Hcap : (cap <= limit)%nat) by (unfold cap; case_decide; lia).
  case_decide; [discriminate |].
  destruct (mode >? MODE_XOR4) eqn:Em; [discriminate |].
  case_decide as Hh; [discriminate |]; intros Hc.
  apply compress_loop_decodes in Hc as (body & -> & _ & Hlen);
    [| unfold mode_ok, MODE_XOR4 in *; to_prop; lia | lia].
  unfold HEADER_SIZE in *; specialize (Hlen ltac:(simpl; lia)); lia.
Qed.

(** ** Safety of the decoder on any input *)

(** [m] is not stuck, and a value it returns satisfies [P]. *)
Definition safe {A} (P : A -> Prop) (m : exec A) : Prop :=
  match m with Ret a => P a | Reject => True | Stuck => False end.

Lemma safe_bind {A B} (Q : A -> Prop) (P : B -> Prop) (m : exec A) (k : A -> exec B) :
  safe Q m -> (forall a, Q a -> safe P (k a)) -> safe P (m ≫= k).
Proof. destruct m; cbn; auto. Qed.

Lemma safe_guard b : safe (fun _ => b = false) (guard_not b).
Proof. destruct b; exact I || reflexivity. Qed.

Lemma safe_read src i : (i < length src)%nat -> bytes_ok src -> safe (fits 8) (read src i).
Proof.
  intros Hi Hs; destruct (lookup_lt_is_Some_2 src i Hi) as [b Hb]; unfold read; rewrite Hb.
  exact (Forall_lookup_1 _ _ _ _ Hs Hb).
Qed.

Lemma safe_read_back buf i distance :
  (1 <= distance <= i)%nat -> (i <= length buf)%nat -> bytes_ok buf -> safe (fits 8) (read_back buf i distance).
Proof. intros; unfold read_back; rewrite decide_True by lia; apply safe_read; trivial; lia. Qed.

Lemma safe_read_le16 src i :
  (i + 1 < length src)%nat -> bytes_ok src -> safe (fun _ => True) (read_le16 src i).
Proof.
  intros; unfold read_le16; apply (safe_bind (fits 8)); [apply safe_read; trivial; lia |].
  intros lo _; apply (safe_bind (fits 8)); [apply safe_read; trivial | intros; exact I].
Qed.

(** What every emitter promises: the output grows by [n] bytes. *)
Definition grows (dst : list Z) (n : nat) (dst' : list Z) : Prop :=
  length dst' = (length dst + n)%nat /\ bytes_ok dst'.

Lemma safe_emit size dst b :
  (length dst < size)%nat -> bytes_ok dst -> fits 8 b -> safe (grows dst 1) (emit size dst b).
Proof.
  intros; rewrite emit_ok by assumption; split; [apply length_app |].
  apply bytes_ok_app; split; [| constructor]; trivial; constructor.
Qed.

Lemma grows_S dst n dst1 dst2 : grows dst 1 dst1 -> grows dst1 n dst2 -> grows dst (S n) dst2.
Proof. intros [? ?] [? ?]; split; [lia | assumption]. Qed.

Lemma safe_mono {A} (P Q : A -> Prop) m : (forall a, P a -> Q a) -> safe P m -> safe Q m.
Proof. destruct m; cbn; auto. Qed.

Lemma safe_emit_fill n size v dst :
  (length dst + n <= size)%nat -> bytes_ok dst -> fits 8 v ->
  safe (grows dst n) (emit_fill n size v dst).
Proof.
  intros; rewrite emit_fill_ok by assumption; split; [rewrite length_app, length_replicate; trivial |].
  apply bytes_ok_app; split; auto with infs.
Qed.

Lemma safe_emit_copy n size src inp dst :
  (length dst + n <= size)%nat -> (inp + n <= length src)%nat -> bytes_ok src -> bytes_ok dst ->
  safe (grows dst n) (emit_copy n size src inp dst).
Proof.
  intros; rewrite emit_copy_ok by assumption.
  split; [rewrite length_app, length_slice by lia; trivial |].
  apply bytes_ok_app; split; auto with infs.
Qed.

Lemma safe_emit_match n size dist dst :
  (length dst + n <= size)%nat -> (1 <= dist <= length dst)%nat -> bytes_ok dst ->
  safe (grows dst n) (emit_match n size dist dst).
Proof.
  revert dst; induction n as [| n IH]; intros dst Hn Hd Hb; cbn [emit_match].
  { split; [lia | assumption]. }
  apply (safe_bind (fits 8)); [apply safe_read_back; trivial; lia |]; intros b Hbb.
  apply (safe_bind (grows dst 1)); [apply safe_emit; trivial; lia |]; intros dst' Hg.
  apply (safe_mono (grows dst' n)); [eauto using grows_S |].
  destruct Hg; apply IH; trivial; lia.
Qed.

(** The loop invariant: both cursors stay within their buffers. *)
Definition cursors (src : list Z) (size inp : nat) (r : nat * list Z) : Prop :=
  (inp <= r.1 <= length src /\ length r.2 <= size)%nat /\ bytes_ok r.2.

Lemma safe_decode_token src size control inp dst :
  fits 8 control -> cursors src size inp (inp, dst) -> bytes_ok src ->
  safe (cursors src size inp) (decode_token src size control inp dst).
Proof.
  intros Hc [Hcur Hb] Hs; unfold decode_token; cbn [fst snd] in *.
  destruct (control =? FILL_TOKEN); [| destruct ((control .& 128) =? 0)].
  - eapply safe_bind; [apply safe_guard |]; intros [] Hg; to_prop.
    eapply safe_bind; [apply safe_read; trivial; lia |]; intros v Hv.
    eapply safe_bind; [apply safe_read_le16; trivial; lia |]; intros len _.
    eapply safe_bind; [apply safe_guard |]; intros [] Hg2; to_prop.
    eapply safe_bind; [apply safe_emit_fill; trivial; lia |]; intros dst' [? ?].
    split; cbn [fst snd]; [lia | assumption].
  - eapply safe_bind; [apply safe_guard |]; intros [] Hg; to_prop.
    eapply safe_bind; [apply safe_emit_copy; trivial; lia |]; intros dst' [? ?].
    split; cbn [fst snd]; [lia | assumption].
  - eapply safe_bind; [apply safe_guard |]; intros [] Hg; to_prop.
    eapply safe_bind; [apply safe_read_le16; trivial; lia |]; intros dist _.
    eapply safe_bind; [apply safe_guard |]; intros [] Hg2; to_prop.
    eapply safe_bind; [apply safe_emit_match; trivial; lia |]; intros dst' [? ?].
    split; cbn [fst snd]; [lia | assumption].
Qed.

Lemma safe_decode_loop fuel src size inp dst :
  (length src - inp <= fuel)%nat -> cursors src size inp (inp, dst) -> bytes_ok src ->
  safe (cursors src size inp) (decode_loop fuel src size inp dst).
Proof.
  revert inp dst; induction fuel as [| fuel IH]; intros inp dst Hf Hcur Hs; cbn [decode_loop];
    case_decide as Hd; trivial.
  { lia. }
  eapply safe_bind; [apply safe_read; trivial; lia |]; intros control Hc.
  destruct Hcur as [Hcur Hb]; cbn [fst snd] in *.
  eapply safe_bind; [apply (safe_decode_token src size control (S inp) dst); trivial;
                     split; cbn [fst snd]; [lia | assumption] |].
  intros [inp' dst'] [Hcur' Hb']; cbn [fst snd] in *.
  apply (safe_mono (cursors src size inp')).
  - intros r [? ?]; split; [lia | assumption].
  - apply IH; trivial; [lia | split; cbn [fst snd]; [lia | assumption]].
Qed.

Lemma safe_undo combine lag n i dst :
  (1 <= lag <= i)%nat -> n = 0%nat \/ (i + n <= length dst)%nat -> bytes_ok dst ->
  (forall a b, fits 8 (combine a b)) ->
  safe (fun d => length d = length dst /\ bytes_ok d) (undo_loop combine lag n i dst).
Proof.
  intros Hl Hn Hb Hc; revert i dst Hl Hn Hb; induction n as [| n IH]; intros i dst Hl Hn Hb; cbn [undo_loop]; [split; trivial |].
  eapply safe_bind; [apply safe_read; trivial; lia |]; intros a _.
  eapply (safe_bind (fits 8)); [apply safe_read_back; trivial; lia |]; intros b _.
  apply (safe_bind (fun d => length d = length dst /\ bytes_ok d)).
  { unfold store; rewrite decide_True by lia; split; [apply length_insert | apply Forall_insert; trivial]. }
  intros d [Hd Hdb]; rewrite <- Hd; apply IH; trivial; lia.
Qed.

(** C20.  On any input bytes and any requested size the decoder never reads or
    writes outside its buffers and always finishes; when it succeeds it has
    produced exactly the requested number of bytes. *)
Theorem decompress_safe src output_size :
  bytes_ok src ->
  decompress src output_size <> Stuck /\
  forall d, decompress src output_size = Ret d -> length d = output_size.
Proof.
  intros Hs; enough (H : safe (fun d => length d = output_size) (decompress src output_size)).
  { destruct (decompress src output_size); cbn in H; split; try congruence; intros ? [= <-]; auto. }
  unfold decompress, HEADER_SIZE.
  eapply safe_bind; [apply safe_guard |]; intros [] Hg; to_prop.
  do 3 (eapply safe_bind; [apply safe_read; trivial; lia |]; intros ? ?).
  eapply safe_bind; [apply safe_guard |]; intros [] Hg2.
  eapply safe_bind; [apply safe_read; trivial; lia |]; intros mode Hm.
  eapply safe_bind; [apply safe_guard |]; intros [] Hg3.
  eapply safe_bind; [apply safe_decode_loop; trivial; [lia |] |].
  { split; cbn [fst snd length]; [lia | constructor]. }
  intros [inp dst] [Hcur Hb]; eapply safe_bind; [apply safe_guard |]; intros [] Hg4; to_prop.
  destruct (mode =? MODE_DELTA8); [| destruct (mode =? MODE_XOR4)]; [| | assumption];
    (eapply safe_mono; [| apply safe_undo; trivial; [lia | lia | intros; apply wrap_range; lia]]; intros d [-> _]; assumption).
Qed.

Lemma decompress_safe_witness :
  decompress [1; 0; 0; 0; 0x85; 1; 0] 9 <> Stuck /\
  forall d, decompress [1; 0; 0; 0; 0x85; 1; 0] 9 = Ret d -> length d = 9%nat.
Proof. apply decompress_safe; eval_decide. Defined.

(** C19.  Whatever the file system's encoder entry point stores (the selected
    predictor, or the identity fallback), the decoder turns back into the
    original block, and the stored bytes respect both the buffer and the useful
    limit. *)
Theorem compress_selected_roundtrip src capacity mode useful_limit out :
  bytes_ok src -> fits 8 mode ->
  compress_selected src capacity mode useful_limit = Some out ->
  decompress out (length src) = Ret src /\
  (length out <= capacity)%nat /\ (useful_limit <> 0 -> length out <= useful_limit)%nat.
Proof.
  intros Hs [Hm _] Hc; unfold compress_selected in Hc.
  enough (exists m, 0 <= m /\ compress_mode_limit src capacity m useful_limit = Some out)
    as (m & Hm0 & Hcm).
  { destruct (compress_mode_limit_roundtrip src capacity m useful_limit out) as [? ?]; trivial.
    split_and!; trivial; intros Hu; apply (compress_mode_limit_useful src capacity m); trivial. }
  destruct (compress_mode_limit src capacity mode useful_limit) as [stored |] eqn:E.
  - injection Hc as ->; eauto.
  - destruct (negb (mode =? MODE_IDENTITY)); [| discriminate].
    exists MODE_IDENTITY; split; [unfold MODE_IDENTITY; lia | assumption].
Qed.

Lemma compress_selected_roundtrip_witness :
  decompress [1; 1; 0; 0; 0; 1; 127; 3; 9; 0] 10 = Ret [1; 4; 7; 10; 13; 16; 19; 22; 25; 28] /\
  (10 <= 64)%nat /\ (12 <> 0 -> 10 <= 12)%nat.
Proof.
  apply (compress_selected_roundtrip [1; 4; 7; 10; 13; 16; 19; 22; 25; 28] 64 1 12);
    [eval_decide | eval_decide | vm_compute; reflexivity].
Defined.

Lemma predictor_choice_nonneg c samples : 0 <= predictor_choice c samples.
Proof. unfold predictor_choice; repeat case_decide; vm_compute; congruence. Qed.

Lemma predictor_mode_nonneg src : 0 <= predictor_mode src.
Proof.
  unfold predictor_mode; destruct (decide _); [vm_compute; congruence |].
  apply predictor_choice_nonneg.
Qed.

(** The two-candidate encoder also round-trips, and stays within the
    destination when the candidate buffer has the destination's size. *)
Lemma compress_roundtrip src capacity candidate_capacity out :
  bytes_ok src -> compress src capacity candidate_capacity = Some out ->
  decompress out (length src) = Ret src /\
  ((candidate_capacity = None \/ candidate_capacity = Some capacity) ->
   (length out <= capacity)%nat).
Proof.
  intros Hs Hc.
  enough (exists m cap, 0 <= m /\ compress_mode src cap m = Some out /\
            (cap = capacity \/ candidate_capacity = Some cap)) as (m & cap & Hm & Hcm & Hcap).
  { apply compress_mode_limit_roundtrip in Hcm as [? ?]; trivial.
    split; [assumption |]; destruct Hcap as [-> | Hcap]; [trivial | intros [? | ?]; simplify_eq; trivial]. }
  pose proof (predictor_mode_nonneg src) as Hpm.
  unfold compress in Hc; destruct candidate_capacity as [cc |]; [case_decide |];
    try (exists MODE_IDENTITY, capacity; split_and!; auto; unfold MODE_IDENTITY; lia).
  destruct (compress_mode src cc (predictor_mode src)) as [alt |] eqn:Ea,
           (compress_mode src capacity MODE_IDENTITY) as [b |] eqn:Eb; try case_decide;
    simplify_eq; first [exists (predictor_mode src), cc; split_and!; auto; fail
                       | exists MODE_IDENTITY, capacity; split_and!; auto; unfold MODE_IDENTITY; lia].
Qed.

(** C35.  With a candidate buffer larger than the destination, as the guard
    [candidate_capacity >= capacity] allows, the encoder can copy more bytes than
    the destination holds. *)
Theorem compress_overruns_destination :
  exists src capacity candidate_capacity out,
    (candidate_capacity >= capacity)%nat /\
    compress src capacity (Some candidate_capacity) = Some out /\ (length out > capacity)%nat.
Proof.
  exists [1; 4; 7; 10; 13; 16; 19; 22; 25; 28], 8%nat, 64%nat, [1; 1; 0; 0; 0; 1; 127; 3; 9; 0].
  split_and!; [lia | vm_compute; reflexivity | simpl; lia].
Qed.

(** The encoder never fails for lack of space when the buffer has a fifth
    more than the input and the header: [4 + n + ceil (n / 5)] bytes are enough in
    every mode. *)
Lemma compress_mode_succeeds src capacity mode :
  src <> [] -> 0 <= mode <= MODE_XOR4 ->
  (HEADER_SIZE + length src + (length src + 4) / 5 <= capacity)%nat ->
  exists out, compress_mode src capacity mode = Some out.
Proof.
  intros Hs Hm Hc; unfold compress_mode, compress_mode_limit, HEADER_SIZE, MODE_XOR4 in *.
  rewrite (decide_False (P := (capacity <> 0 /\ capacity < capacity)%nat)) by lia.
  rewrite decide_False by (destruct src; simpl; congruence).
  replace (mode >? 2) with false by lia; rewrite decide_False by lia.
  apply compress_loop_succeeds; [exact Hm | lia | lia |]; left; cbn [length].
  pose proof (Nat.div_mod_eq (length src + 4) 5); pose proof (Nat.mod_upper_bound (length src + 4) 5).
  lia.
Qed.

(** C36.  [infs_iac1_bound] is not such a size: an input whose short literals
    alternate with fills needs more than it promises. *)
Theorem bound_is_not_enough :
  exists src, bytes_ok src /\
    compress_mode src (infs_iac1_bound (length src)) MODE_IDENTITY = None /\
    exists out, compress_mode src (infs_iac1_bound (length src) + 1) MODE_IDENTITY = Some out.
Proof.
  exists [1; 2; 2; 2; 2; 3; 4; 4; 4; 4]; split_and!; [eval_decide | vm_compute; reflexivity |].
  eexists; vm_compute; reflexivity.
Qed.

End Iac1Facts.
