(* ===== verification/Format.v ===== *)
(** Shared vocabulary of the on-disk format: the status values of
    [src/include/infilfs/status.h], the constants and record sizes of
    [src/include/infilfs/format.h], field access in a block, and the platform
    services the portable core calls but does not define.

    A disk structure is the byte range it occupies: [memcpy] of a packed
    structure is a slice, reading a field is a little-endian load at the field's
    offset. *)

From stdpp Require Import prelude strings.
From S2P Require Import Prelude Endian Checksum.
#[local] Open Scope Z_scope.

(** * Status values *)

Inductive infs_status :=
| OK | ERROR | INVALID_ARGUMENT | IO_ERROR | CORRUPT | READ_ONLY | NO_SPACE | NOT_FOUND
| ALREADY_EXISTS | NOT_DIRECTORY | IS_DIRECTORY | NOT_EMPTY | NAME_TOO_LONG | FILE_TOO_LARGE
| OVERFLOW | LOOP_DETECTED | NOT_SUPPORTED | NO_MEMORY | INTERRUPTED | BUSY.

#[global] Instance infs_status_eq_dec : EqDecision infs_status.
Proof. solve_decision. Defined.

Definition infs_status_string (status : infs_status) : string :=
  match status with
  | OK => "success"
  | ERROR => "unspecified filesystem error"
  | INVALID_ARGUMENT => "invalid argument"
  | IO_ERROR => "storage input/output error"
  | CORRUPT => "filesystem corruption detected"
  | READ_ONLY => "filesystem is read-only"
  | NO_SPACE => "no space available"
  | NOT_FOUND => "object not found"
  | ALREADY_EXISTS => "object already exists"
  | NOT_DIRECTORY => "object is not a directory"
  | IS_DIRECTORY => "object is a directory"
  | NOT_EMPTY => "directory is not empty"
  | NAME_TOO_LONG => "name is too long"
  | FILE_TOO_LARGE => "file is too large"
  | OVERFLOW => "numeric overflow"
  | LOOP_DETECTED => "metadata loop detected"
  | NOT_SUPPORTED => "operation or format is not supported"
  | NO_MEMORY => "not enough memory"
  | INTERRUPTED => "operation was interrupted"
  | BUSY => "storage target is busy"
  end%string.

(** A routine that returns a status and, when it is [OK], a value. *)
Inductive result (A : Type) :=
| Good (a : A)
| Bad (status : infs_status).
#[global] Arguments Good {A} _.
#[global] Arguments Bad {A} _.

#[global] Instance result_ret : MRet result := @Good.
#[global] Instance result_bind : MBind result := fun A B f m =>
  match m with Good a => f a | Bad s => Bad s end.

(** * Constants *)

Definition INFS_BLOCK_SIZE : nat := Eval vm_compute in Z.to_nat 4096.
#[global] Arguments INFS_BLOCK_SIZE : simpl never.

Definition INFS_MAGIC : list Z := [73; 78; 70; 83; 50; 48; 50; 54].
Definition INFS_OBJECT_MAGIC : list Z := [73; 78; 70; 79; 66; 74; 48; 49].
Definition INFS_DIRECTORY_PAGE_MAGIC : list Z := [73; 78; 70; 83; 68; 80; 48; 49].
Definition INFS_DIRECTORY_BRANCH_PAGE_MAGIC : list Z := [73; 78; 70; 83; 68; 66; 48; 49].
Definition INFS_INDEX_PAGE_MAGIC : list Z := [73; 78; 70; 83; 73; 80; 48; 49].
Definition INFS_INDEX_BRANCH_PAGE_MAGIC : list Z := [73; 78; 70; 83; 73; 66; 48; 49].
Definition INFS_EXTENT_PAGE_MAGIC : list Z := [73; 78; 70; 83; 69; 80; 48; 49].
Definition INFS_EXTENT_INDEX_PAGE_MAGIC : list Z := [73; 78; 70; 83; 69; 73; 48; 49].
Definition INFS_SNAPSHOT_PAGE_MAGIC : list Z := [73; 78; 70; 83; 83; 80; 48; 49].
Definition INFS_SECURITY_ACE_PAGE_MAGIC : list Z := [73; 78; 70; 83; 65; 67; 48; 49].
Definition INFS_ALLOCATION_BRANCH_PAGE_MAGIC : list Z := [73; 78; 70; 83; 65; 66; 48; 49].
Definition INFS_ALLOCATION_LEAF_PAGE_MAGIC : list Z := [73; 78; 70; 83; 65; 76; 48; 49].

Definition INFS_FORMAT_MAJOR : Z := 0.
Definition INFS_FORMAT_MINOR : Z := 19.
Definition INFS_BLOCK_SHIFT : Z := 12.
Definition INFS_CHECKPOINT_COUNT : nat := 3.
Definition INFS_CHECKSUM_CRC64_ECMA : Z := 1.
Definition INFS_LABEL_MAX : nat := 64.
Definition INFS_NAME_MAX : Z := 1023.

Definition INFS_OBJECT_DIRECTORY : Z := 1.
Definition INFS_OBJECT_FILE : Z := 2.
Definition INFS_OBJECT_INDEX : Z := 3.
Definition INFS_OBJECT_CHECKSUM : Z := 4.
Definition INFS_OBJECT_SYMLINK : Z := 5.
Definition INFS_OBJECT_SNAPSHOT_CATALOG : Z := 6.
Definition INFS_OBJECT_PRINCIPAL : Z := 7.
Definition INFS_OBJECT_SECURITY : Z := 8.
Definition INFS_OBJECT_SECURITY_BINDING : Z := 9.
Definition INFS_OBJECT_EXTENSION : Z := 10.
Definition INFS_OBJECT_METADATA_SET : Z := 11.
Definition INFS_OBJECT_NAMED_STREAM : Z := 12.

Definition INFS_OBJECT_VERSION_CLASSIC : Z := 1.
Definition INFS_OBJECT_VERSION_PAGED : Z := 2.
Definition INFS_OBJECT_VERSION_TREE : Z := 3.

Definition INFS_INCOMPAT_UTF8_NAMES : Z := 0x1.
Definition INFS_INCOMPAT_SPARSE_EXTENTS : Z := 0x2.
Definition INFS_INCOMPAT_INLINE_DATA : Z := 0x4.
Definition INFS_INCOMPAT_SHARED_EXTENTS : Z := 0x8.
Definition INFS_INCOMPAT_PAGED_METADATA : Z := 0x10.
Definition INFS_INCOMPAT_SYMBOLIC_LINKS : Z := 0x20.
Definition INFS_INCOMPAT_HARD_LINKS : Z := 0x40.
Definition INFS_INCOMPAT_SNAPSHOTS : Z := 0x80.
Definition INFS_INCOMPAT_PAGED_EXTENTS : Z := 0x100.
Definition INFS_INCOMPAT_INDEX_TREE : Z := 0x200.
Definition INFS_INCOMPAT_DIRECTORY_TREE : Z := 0x400.
Definition INFS_INCOMPAT_ALLOCATION_TREE : Z := 0x800.
Definition INFS_INCOMPAT_COMPRESSED_EXTENTS : Z := 0x1000.
Definition INFS_INCOMPAT_UNICODE_NORM_V1 : Z := 0x2000.
Definition INFS_INCOMPAT_REMOVABLE_NAMES_V1 : Z := 0x4000.
Definition INFS_INCOMPAT_PORTABLE_SECURITY : Z := 0x8000.
Definition INFS_INCOMPAT_CASEFOLD_V1 : Z := 0x10000.
Definition INFS_INCOMPAT_TYPED_EXTENSIONS : Z := 0x20000.
Definition INFS_INCOMPAT_NAMED_STREAMS_V1 : Z := 0x40000.
Definition INFS_KNOWN_INCOMPAT_FLAGS : Z :=
  INFS_INCOMPAT_UTF8_NAMES .| INFS_INCOMPAT_SPARSE_EXTENTS .| INFS_INCOMPAT_INLINE_DATA .|
  INFS_INCOMPAT_SHARED_EXTENTS .| INFS_INCOMPAT_PAGED_METADATA .| INFS_INCOMPAT_SYMBOLIC_LINKS .|
  INFS_INCOMPAT_HARD_LINKS .| INFS_INCOMPAT_SNAPSHOTS .| INFS_INCOMPAT_PAGED_EXTENTS .|
  INFS_INCOMPAT_INDEX_TREE .| INFS_INCOMPAT_DIRECTORY_TREE .| INFS_INCOMPAT_ALLOCATION_TREE .|
  INFS_INCOMPAT_COMPRESSED_EXTENTS .| INFS_INCOMPAT_UNICODE_NORM_V1 .|
  INFS_INCOMPAT_REMOVABLE_NAMES_V1 .| INFS_INCOMPAT_PORTABLE_SECURITY .|
  INFS_INCOMPAT_CASEFOLD_V1 .| INFS_INCOMPAT_TYPED_EXTENSIONS .| INFS_INCOMPAT_NAMED_STREAMS_V1.

(** * Record layouts *)

(** A packed structure as its field widths in bytes, in order. *)
Definition layout := list nat.
Definition sizeof (l : layout) : nat := sum_list l.
(** [offsetof]: the bytes before field [i]. *)
Definition offsetof (l : layout) (i : nat) : nat := sum_list (take i l).

(** magic, format_major, format_minor, header_size, block_shift, checksum_type,
    generation, total_blocks, free_blocks, allocation_root_block,
    allocation_leaf_count, object_index_block, root_object_block,
    checkpoint_block[3], filesystem_uuid, root_object_id, compat_flags,
    ro_compat_flags, incompat_flags, label, checksum. *)
Definition superblock_layout : layout :=
  [8; 2; 2; 2; 2; 4; 8; 8; 8; 8; 8; 8; 8; 24; 16; 16; 8; 8; 8; 64; 32]%nat.
(** magic, object_type, object_version, header_size, generation, object_id,
    parent_id, payload_size, checksum_type, checksum. *)
Definition object_header_layout : layout := [8; 2; 2; 4; 8; 16; 16; 4; 4; 32]%nat.
(** magic, generation, owner_object_id, entry_count, bytes_used, checksum_type,
    reserved, checksum. *)
Definition metadata_page_layout : layout := [8; 8; 16; 4; 4; 4; 4; 32]%nat.
(** magic, generation, logical_index, level, entry_count, bytes_used,
    checksum_type, checksum. *)
Definition allocation_page_layout : layout := [8; 8; 8; 4; 4; 4; 4; 32]%nat.
(** seconds, nanoseconds, reserved. *)
Definition timestamp_layout : layout := [8; 4; 4]%nat.
(** logical_size, link_count, portable_flags, four timestamps,
    security_object_id, extended_attributes_object_id. *)
Definition attributes_layout : layout := [8; 8; 8; 16; 16; 16; 16; 16; 16]%nat.
Definition posix_compat_layout : layout := [4; 4; 4; 4]%nat.
(** attributes, posix, entry_count, bytes_used. *)
Definition directory_payload_layout : layout := [120; 16; 4; 4]%nat.
(** record_size, name_length, object_type, flags, object_id. *)
Definition dirent_layout : layout := [2; 2; 2; 2; 16]%nat.
(** attributes, posix, extent_count, data_checksum_type, checksum_head_id. *)
Definition file_payload_layout : layout := [120; 16; 4; 4; 16]%nat.
(** attributes, posix, target_length, reserved. *)
Definition symlink_payload_layout : layout := [120; 16; 4; 4]%nat.
Definition extent_head_layout : layout := [4; 4]%nat.
Definition extent_layout : layout := [8; 8; 4; 4]%nat.
Definition checksum_payload_layout : layout := [16; 16; 8; 4; 4]%nat.
Definition data_checksum_layout : layout := [32]%nat.
(** version, kind, binding_count, flags, binding_bytes, reserved. *)
Definition principal_payload_layout : layout := [2; 2; 2; 2; 4; 4]%nat.
(** type, flags, value_size, reserved, value. *)
Definition security_binding_layout : layout := [2; 2; 2; 2; 68]%nat.
(** version, flags, ace_count, page_count, identity_slot, reserved,
    owner_principal_id, primary_group_principal_id, semantic_digest. *)
Definition security_payload_layout : layout := [2; 2; 4; 4; 2; 2; 16; 16; 32]%nat.
(** version, slot, binding_type, binding_size, principal_id, binding_digest,
    value, reserved. *)
Definition security_binding_index_layout : layout := [2; 2; 2; 2; 16; 32; 68; 4]%nat.
(** principal_id, rights, disposition, flags, reserved. *)
Definition security_ace_layout : layout := [16; 8; 2; 2; 4]%nat.
(** version, flags, type_version, data_size, reserved, type_id, data_digest. *)
Definition extension_payload_layout : layout := [2; 2; 4; 4; 4; 16; 32]%nat.
(** version, flags, entry_count, bytes_used, reserved, typed_extension_object_id. *)
Definition metadata_set_payload_layout : layout := [2; 2; 4; 4; 4; 16]%nat.
(** record_size, name_length, flags, stream_object_id. *)
Definition metadata_stream_entry_layout : layout := [2; 2; 4; 16]%nat.
Definition index_payload_layout : layout := [4; 4]%nat.
Definition index_entry_layout : layout := [16; 8; 2; 2; 4]%nat.
Definition snapshot_catalog_payload_layout : layout := [4; 4]%nat.
(** generation, created_time, allocation_root_block, allocation_leaf_count,
    free_blocks, object_index_block, root_object_block, root_object_id,
    name_length, flags, reserved, name. *)
Definition snapshot_record_layout : layout := [8; 16; 8; 8; 8; 8; 8; 16; 2; 2; 4; 64]%nat.

(** * Capacities *)

Definition block_size : Z := 4096.
Definition sz (l : layout) : Z := Z.of_nat (sizeof l).
Definition INFS_SYMLINK_TARGET_MAX : Z :=
  block_size - sz object_header_layout - sz symlink_payload_layout.
Definition INFS_METADATA_SET_DATA_MAX : Z :=
  block_size - sz object_header_layout - sz metadata_set_payload_layout.
Definition INFS_EXTENSION_DATA_MAX : Z :=
  block_size - sz object_header_layout - sz extension_payload_layout.
Definition INFS_CHECKSUMS_PER_OBJECT : Z :=
  (block_size - sz object_header_layout - sz checksum_payload_layout) / sz data_checksum_layout.
Definition INFS_INLINE_DATA_MAX : Z :=
  block_size - sz object_header_layout - sz file_payload_layout - sz data_checksum_layout.
Definition INFS_METADATA_PAGE_DATA_SIZE : Z := block_size - sz metadata_page_layout.
Definition INFS_SNAPSHOT_RECORDS_PER_PAGE : Z :=
  INFS_METADATA_PAGE_DATA_SIZE / sz snapshot_record_layout.
Definition INFS_SNAPSHOT_PAGE_POINTERS : Z :=
  (block_size - sz object_header_layout - sz snapshot_catalog_payload_layout) / 8.
Definition INFS_SNAPSHOTS_PER_CATALOG : Z :=
  INFS_SNAPSHOT_RECORDS_PER_PAGE * INFS_SNAPSHOT_PAGE_POINTERS.
Definition INFS_PRINCIPAL_BINDINGS_PER_OBJECT : Z :=
  (block_size - sz object_header_layout - sz principal_payload_layout) / sz security_binding_layout.
Definition INFS_SECURITY_INLINE_ACES : Z :=
  (block_size - sz object_header_layout - sz security_payload_layout) / sz security_ace_layout.
Definition INFS_SECURITY_ACES_PER_PAGE : Z := INFS_METADATA_PAGE_DATA_SIZE / sz security_ace_layout.
Definition INFS_SECURITY_PAGE_POINTERS : Z :=
  (block_size - sz object_header_layout - sz security_payload_layout) / 8.
Definition INFS_SECURITY_MAX_ACES : Z := INFS_SECURITY_ACES_PER_PAGE * INFS_SECURITY_PAGE_POINTERS.
Definition INFS_ALLOCATION_PAGE_DATA_SIZE : Z := block_size - sz allocation_page_layout.
Definition INFS_ALLOCATION_TREE_FANOUT : Z := INFS_ALLOCATION_PAGE_DATA_SIZE / 8.
Definition INFS_ALLOCATION_TREE_ROOT_LEVEL : Z := 3.
Definition INFS_ALLOCATION_BITS_PER_LEAF : Z := INFS_ALLOCATION_PAGE_DATA_SIZE * 8.
Definition INFS_ALLOCATION_TREE_MAX_LEAVES : Z :=
  INFS_ALLOCATION_TREE_FANOUT * INFS_ALLOCATION_TREE_FANOUT * INFS_ALLOCATION_TREE_FANOUT.
Definition INFS_INDEX_ENTRIES_PER_PAGE : Z := INFS_METADATA_PAGE_DATA_SIZE / sz index_entry_layout.
Definition INFS_EXTENTS_PER_PAGE : Z := INFS_METADATA_PAGE_DATA_SIZE / sz extent_layout.
Definition INFS_EXTENT_INDEX_POINTERS_PER_PAGE : Z := INFS_METADATA_PAGE_DATA_SIZE / 8.
Definition INFS_EXTENT_INDEX_MAX_LEVELS : Z := 3.
Definition INFS_DIRECTORY_PAGE_POINTERS : Z :=
  (block_size - sz object_header_layout - sz directory_payload_layout) / 8.
Definition INFS_INDEX_PAGE_POINTERS : Z :=
  (block_size - sz object_header_layout - sz index_payload_layout) / 8.
Definition INFS_EXTENT_PAGE_POINTERS : Z :=
  (block_size - sz object_header_layout - sz file_payload_layout - sz extent_head_layout) / 8.

(** * Platform services *)

(** Services the core links against: UTF-8 validation (the [infiltratr]
    library) and the accelerated digest (OpenSSL or BCrypt), [None] when it is
    absent or fails. *)
Class Platform := {
  infs_utf8_validate : list Z -> bool;
  accelerated_sha256 : list Z -> option (list Z)
}.

(** An instance for evaluation: ASCII is valid UTF-8, no accelerated digest. *)
Definition reference_platform : Platform := {|
  infs_utf8_validate := forallb (fun b => b <? 128);
  accelerated_sha256 := fun _ => None
|}.

Section Access.
Context {E : Endian} {P : Platform}.

Definition sha256 (data : list Z) : list Z :=
  Sha256.infs_sha256 accelerated_sha256 (Some data) (length data).

Definition le16_at (off : nat) (b : list Z) : Z := load_le16 (slice off 2 b).
Definition le32_at (off : nat) (b : list Z) : Z := load_le32 (slice off 4 b).
Definition le64_at (off : nat) (b : list Z) : Z := load_le64 (slice off 8 b).

End Access.

(** [bytes_are_zero]. *)
Definition bytes_are_zero (l : list Z) : bool := bytes_or l =? 0.
Definition id_is_nonzero (id : list Z) : bool := negb (bytes_are_zero id).

(** The [_Static_assert]s of the header, and how the capacities relate: a page or
    object filled to its capacity never exceeds the block. *)
Definition static_asserts : bool :=
  (sz superblock_layout =? 252) && (sz object_header_layout =? 96) &&
  (sz metadata_page_layout =? 80) && (sz allocation_page_layout =? 72) &&
  (INFS_ALLOCATION_TREE_FANOUT =? 503) && (INFS_ALLOCATION_BITS_PER_LEAF =? 32192) &&
  (sz timestamp_layout =? 16) && (sz attributes_layout =? 120) &&
  (sz posix_compat_layout =? 16) && (sz directory_payload_layout =? 144) &&
  (sz dirent_layout =? 24) && (sz file_payload_layout =? 160) &&
  (sz symlink_payload_layout =? 144) && (sz extent_head_layout =? 8) &&
  (sz extent_layout =? 24) && (sz checksum_payload_layout =? 48) &&
  (sz data_checksum_layout =? 32) && (sz principal_payload_layout =? 16) &&
  (sz security_binding_layout =? 76) && (sz security_payload_layout =? 80) &&
  (sz security_binding_index_layout =? 128) && (sz security_ace_layout =? 32) &&
  (sz metadata_set_payload_layout =? 32) && (sz metadata_stream_entry_layout =? 24) &&
  (52 <=? INFS_PRINCIPAL_BINDINGS_PER_OBJECT) && (120 <=? INFS_SECURITY_INLINE_ACES) &&
  (125 <=? INFS_SECURITY_ACES_PER_PAGE) && (60000 <=? INFS_SECURITY_MAX_ACES) &&
  (sz index_payload_layout =? 8) && (sz index_entry_layout =? 32) &&
  (sz snapshot_catalog_payload_layout =? 8) && (sz snapshot_record_layout =? 152) &&
  (INFS_SNAPSHOT_RECORDS_PER_PAGE =? 26) && (490 <=? INFS_SNAPSHOT_PAGE_POINTERS) &&
  (12000 <=? INFS_SNAPSHOTS_PER_CATALOG) && (120 <=? INFS_CHECKSUMS_PER_OBJECT) &&
  (INFS_INLINE_DATA_MAX =? 3808) && (INFS_SYMLINK_TARGET_MAX =? 3856) &&
  (INFS_INDEX_ENTRIES_PER_PAGE =? 125) && (INFS_EXTENTS_PER_PAGE =? 167) &&
  (INFS_EXTENT_INDEX_POINTERS_PER_PAGE =? 502) && (480 <=? INFS_DIRECTORY_PAGE_POINTERS) &&
  (490 <=? INFS_INDEX_PAGE_POINTERS) && (479 <=? INFS_EXTENT_PAGE_POINTERS).

Lemma Good_inj {A} (a b : A) : Good a = Good b -> a = b.
Proof. congruence. Qed.

Lemma static_asserts_hold : static_asserts = true.
Proof. vm_compute; reflexivity. Qed.

Lemma bytes_are_zero_spec l : bytes_are_zero l = true <-> Forall (eq 0) l.
Proof. unfold bytes_are_zero; rewrite Z.eqb_eq; apply bytes_or_zero. Qed.

Section AccessFacts.
Context {E : Endian}.

Lemma le16_at_splice off v b :
  (off + 2 <= length b)%nat -> fits 16 v -> le16_at off (splice off (store_le16 v) b) = v.
Proof.
  intros Hl Hv; unfold le16_at; rewrite store_le16_law.
  pose proof (slice_splice_eq off (le_store 2 v) b) as Hs; rewrite length_le_store in Hs.
  rewrite Hs, load_le16_law by (auto with infs; apply length_le_store).
  apply (le_load_store_id 2), Hv.
Qed.

Lemma le32_at_splice off v b :
  (off + 4 <= length b)%nat -> fits 32 v -> le32_at off (splice off (store_le32 v) b) = v.
Proof.
  intros Hl Hv; unfold le32_at; rewrite store_le32_law.
  pose proof (slice_splice_eq off (le_store 4 v) b) as Hs; rewrite length_le_store in Hs.
  rewrite Hs, load_le32_law by (auto with infs; apply length_le_store).
  apply (le_load_store_id 4), Hv.
Qed.

Lemma le64_at_splice off v b :
  (off + 8 <= length b)%nat -> fits 64 v -> le64_at off (splice off (store_le64 v) b) = v.
Proof.
  intros Hl Hv; unfold le64_at; rewrite store_le64_law.
  pose proof (slice_splice_eq off (le_store 8 v) b) as Hs; rewrite length_le_store in Hs.
  rewrite Hs, load_le64_law by (auto with infs; apply length_le_store).
  apply (le_load_store_id 8), Hv.
Qed.
End AccessFacts.
