(* ===== verification/Security.v ===== *)
(** Portable security of [src/src/security.c]: principals, identity bindings,
    access-control entries, the access check and descriptor inheritance.

    An identifier is the list of its 16 bytes; a binding's [value] is the whole
    68-byte array with [size] beside it.  The result of a failed [calloc] is the
    argument [alloc_ok] of the inheritance routine.  The access check is proved
    equal to a per-right specification (the first applicable entry that mentions
    the right decides); inheritance is proved to fill exactly the entries it
    counted and to produce a valid descriptor. *)

From stdpp Require Import prelude.
From S2P Require Import Prelude Endian Checksum Format.
#[local] Open Scope Z_scope.

(** * Definitions *)

Module Security.

Definition INFS_RIGHT_ALL : Z :=
  fold_left (fun m i => m .| (1 ≪ Z.of_nat i)) (seq 0 17) 0.

Definition INFS_PRINCIPAL_USER : Z := 1.
Definition INFS_PRINCIPAL_GROUP : Z := 2.
Definition INFS_PRINCIPAL_SERVICE : Z := 3.

Definition INFS_BINDING_POSIX_UID : Z := 1.
Definition INFS_BINDING_POSIX_GID : Z := 2.
Definition INFS_BINDING_WINDOWS_SID : Z := 3.
Definition INFS_BINDING_OPAQUE : Z := 0xffff.

Definition INFS_SECURITY_BINDING_MAX : Z := 68.
Definition INFS_SECURITY_POSIX_BINDING_SIZE : Z := 20.
Definition INFS_SECURITY_WINDOWS_SID_MIN : Z := 8.
Definition INFS_SECURITY_WINDOWS_SID_MAX : Z := 68.
Definition INFS_SECURITY_WINDOWS_SID_REVISION : Z := 1.
Definition INFS_SECURITY_WINDOWS_SID_MAX_SUB_AUTHORITIES : Z := 15.
Definition INFS_PRINCIPAL_RESERVED_MAX_CODE : Z := 31.
Definition INFS_SECURITY_VERSION : Z := 2.
Definition INFS_SECURITY_HASH_SLOTS : Z := 32.

Definition INFS_ACE_ALLOW : Z := 1.
Definition INFS_ACE_DENY : Z := 2.
Definition INFS_ACE_INHERIT_FILE : Z := 0x1.
Definition INFS_ACE_INHERIT_DIRECTORY : Z := 0x2.
Definition INFS_ACE_INHERIT_ONLY : Z := 0x4.
Definition INFS_ACE_NO_PROPAGATE : Z := 0x8.
Definition INFS_ACE_INHERITED : Z := 0x10.
Definition INFS_ACE_KNOWN_FLAGS : Z := 0x1f.

Definition INFS_SECURITY_DACL_PRESENT : Z := 0x1.
Definition INFS_SECURITY_PROTECTED : Z := 0x2.
Definition INFS_SECURITY_AUTO_INHERIT : Z := 0x4.
Definition INFS_SECURITY_KNOWN_FLAGS : Z := 0x7.

Record infs_security_binding := Binding {
  b_type : Z; b_flags : Z; b_size : Z; b_value : list Z
}.

Record infs_security_ace := Ace {
  a_principal_id : list Z; a_rights : Z; a_disposition : Z; a_flags : Z
}.

Record infs_security_descriptor := Descriptor {
  d_owner : list Z; d_group : list Z; d_flags : Z; d_aces : list infs_security_ace
}.

Definition well_known (code : Z) : list Z := replicate 15 0 ++ [code].
Definition infs_principal_owner_id : list Z := well_known 1.
Definition infs_principal_group_id : list Z := well_known 2.
Definition infs_principal_everyone_id : list Z := well_known 3.
Definition infs_principal_creator_owner_id : list Z := well_known 4.
Definition infs_principal_creator_group_id : list Z := well_known 5.

Definition id_nonzero (id : list Z) : bool := negb (bytes_or (take 16 id) =? 0).
Definition id_equal (a b : list Z) : bool := bytes_eqb (take 16 a) (take 16 b).

Definition infs_security_principal_id_is_reserved (id : list Z) : bool :=
  forallb (fun i => id !!! i =? 0) (seq 0 15) &&
  negb (id !!! 15%nat =? 0) && (id !!! 15%nat <=? INFS_PRINCIPAL_RESERVED_MAX_CODE).

Definition infs_security_principal_id_is_well_known (id : list Z) : bool :=
  id_equal id infs_principal_owner_id || id_equal id infs_principal_group_id ||
  id_equal id infs_principal_everyone_id || id_equal id infs_principal_creator_owner_id ||
  id_equal id infs_principal_creator_group_id.

Definition infs_security_principal_id_is_creator (id : list Z) : bool :=
  id_equal id infs_principal_creator_owner_id || id_equal id infs_principal_creator_group_id.

(** ** Bindings *)

Definition infs_security_windows_sid_valid (sid : list Z) (size : Z) : bool :=
  if (size <? INFS_SECURITY_WINDOWS_SID_MIN) || (size >? INFS_SECURITY_WINDOWS_SID_MAX) ||
     negb (sid !!! 0%nat =? INFS_SECURITY_WINDOWS_SID_REVISION) ||
     (sid !!! 1%nat >? INFS_SECURITY_WINDOWS_SID_MAX_SUB_AUTHORITIES)
  then false
  else size =? INFS_SECURITY_WINDOWS_SID_MIN + sid !!! 1%nat * 4.

Definition infs_security_binding_is_valid (b : infs_security_binding) : bool :=
  if negb (b_flags b =? 0) || (b_size b =? 0) || (b_size b >? INFS_SECURITY_BINDING_MAX)
  then false
  else if (b_type b =? INFS_BINDING_POSIX_UID) || (b_type b =? INFS_BINDING_POSIX_GID) then
    if negb (b_size b =? INFS_SECURITY_POSIX_BINDING_SIZE) then false
    else id_nonzero (b_value b)
  else if b_type b =? INFS_BINDING_WINDOWS_SID then
    infs_security_windows_sid_valid (b_value b) (b_size b)
  else if b_type b =? INFS_BINDING_OPAQUE then true
  else false.

Definition zero_value : list Z := replicate (Z.to_nat INFS_SECURITY_BINDING_MAX) 0.

Definition infs_security_binding_init_posix (type : Z) (authority_id : list Z) (numeric_id : Z)
    : result infs_security_binding :=
  if negb (id_nonzero authority_id) ||
     (negb (type =? INFS_BINDING_POSIX_UID) && negb (type =? INFS_BINDING_POSIX_GID))
  then Bad INVALID_ARGUMENT
  else
    let value := splice 0 (take 16 authority_id) zero_value in
    let value := <[16%nat := u8 numeric_id]> value in
    let value := <[17%nat := u8 (numeric_id ≫ 8)]> value in
    let value := <[18%nat := u8 (numeric_id ≫ 16)]> value in
    let value := <[19%nat := u8 (numeric_id ≫ 24)]> value in
    Good (Binding type 0 INFS_SECURITY_POSIX_BINDING_SIZE value).

Definition infs_security_binding_get_posix (b : infs_security_binding) : result (list Z * Z) :=
  if (negb (b_type b =? INFS_BINDING_POSIX_UID) && negb (b_type b =? INFS_BINDING_POSIX_GID)) ||
     negb (infs_security_binding_is_valid b)
  then Bad INVALID_ARGUMENT
  else
    Good (slice 0 16 (b_value b),
          (b_value b !!! 16%nat) .| (b_value b !!! 17%nat ≪ 8) .|
          (b_value b !!! 18%nat ≪ 16) .| (b_value b !!! 19%nat ≪ 24)).

Definition infs_security_binding_init_windows_sid (sid : list Z) (size : Z)
    : result infs_security_binding :=
  if negb (infs_security_windows_sid_valid sid size) then Bad INVALID_ARGUMENT
  else Good (Binding INFS_BINDING_WINDOWS_SID 0 (u16 size)
               (splice 0 (take (Z.to_nat size) sid) zero_value)).

Section Digests.
Context {E : Endian} {P : Platform}.

Definition security_derived_object_id (domain digest : list Z) (slot : Z) : list Z :=
  let material := take 16 domain ++ take 32 digest ++ [u8 slot; u8 (slot ≫ 8)] in
  take 16 (sha256 material).

(** "INFS-BIND-V2". *)
Definition binding_digest_domain : list Z :=
  [73; 78; 70; 83; 45; 66; 73; 78; 68; 45; 86; 50; 0; 0; 0; 0].
(** "INFS-BIND-ID2". *)
Definition binding_index_domain : list Z :=
  [73; 78; 70; 83; 45; 66; 73; 78; 68; 45; 73; 68; 50; 0; 0; 0].
(** "INFS-DESC-ID2". *)
Definition descriptor_domain : list Z :=
  [73; 78; 70; 83; 45; 68; 69; 83; 67; 45; 73; 68; 50; 0; 0; 0].

(** The bytes hashed by [infs_security_binding_digest]. *)
Definition binding_material (b : infs_security_binding) : list Z :=
  binding_digest_domain ++
  [u8 (b_type b); u8 (b_type b ≫ 8); u8 (b_size b); u8 (b_size b ≫ 8)] ++
  take (Z.to_nat (b_size b)) (b_value b).

Definition infs_security_binding_digest (b : infs_security_binding) : result (list Z) :=
  if negb (infs_security_binding_is_valid b) then Bad INVALID_ARGUMENT
  else Good (sha256 (binding_material b)).

Definition infs_security_binding_index_object_id (digest : list Z) (slot : Z) : list Z :=
  security_derived_object_id binding_index_domain digest slot.

Definition infs_security_descriptor_object_id (digest : list Z) (slot : Z) : list Z :=
  security_derived_object_id descriptor_domain digest slot.

End Digests.

(** ** Descriptors *)

Definition has (flags mask : Z) : bool := negb ((flags .& mask) =? 0).

Definition infs_security_ace_is_valid (ace : infs_security_ace) : bool :=
  if negb (id_nonzero (a_principal_id ace)) || (a_rights ace =? 0) ||
     negb (Z.ldiff (a_rights ace) INFS_RIGHT_ALL =? 0) ||
     (negb (a_disposition ace =? INFS_ACE_ALLOW) && negb (a_disposition ace =? INFS_ACE_DENY)) ||
     negb (Z.ldiff (a_flags ace) INFS_ACE_KNOWN_FLAGS =? 0)
  then false
  else if infs_security_principal_id_is_reserved (a_principal_id ace) &&
          negb (infs_security_principal_id_is_well_known (a_principal_id ace))
  then false
  else if infs_security_principal_id_is_creator (a_principal_id ace) then
    let inherit := a_flags ace .& (INFS_ACE_INHERIT_FILE .| INFS_ACE_INHERIT_DIRECTORY) in
    if (inherit =? 0) || ((a_flags ace .& INFS_ACE_INHERIT_ONLY) =? 0) then false else true
  else true.

Definition infs_security_descriptor_is_valid (d : infs_security_descriptor) : bool :=
  if negb (id_nonzero (d_owner d)) || negb (id_nonzero (d_group d)) ||
     infs_security_principal_id_is_reserved (d_owner d) ||
     infs_security_principal_id_is_reserved (d_group d) ||
     negb (Z.ldiff (d_flags d) INFS_SECURITY_KNOWN_FLAGS =? 0) ||
     ((d_flags d .& INFS_SECURITY_DACL_PRESENT) =? 0)
  then false
  else forallb infs_security_ace_is_valid (d_aces d).

(** The subject's identifiers, [principal_ids + i * 16]. *)
Definition subject_has_principal (ids : list (list Z)) (id : list Z) : bool :=
  existsb (fun i => bytes_eqb (take 16 i) (take 16 id)) ids.

Definition ace_applies (d : infs_security_descriptor) (ids : list (list Z)) (id : list Z) : bool :=
  if id_equal id infs_principal_everyone_id then true
  else if id_equal id infs_principal_owner_id then subject_has_principal ids (d_owner d)
  else if id_equal id infs_principal_group_id then subject_has_principal ids (d_group d)
  else if infs_security_principal_id_is_creator id ||
          (infs_security_principal_id_is_reserved id &&
           negb (infs_security_principal_id_is_well_known id))
  then false
  else subject_has_principal ids id.

(** The loop of [infs_security_access_allowed] from [remaining]. *)
Fixpoint access_loop (d : infs_security_descriptor) (ids : list (list Z))
    (aces : list infs_security_ace) (remaining : Z) : bool :=
  match aces with
  | [] => false
  | ace :: rest =>
      if has (a_flags ace) INFS_ACE_INHERIT_ONLY || negb (ace_applies d ids (a_principal_id ace))
      then access_loop d ids rest remaining
      else
        let hit := remaining .& a_rights ace in
        if hit =? 0 then access_loop d ids rest remaining
        else if a_disposition ace =? INFS_ACE_DENY then false
        else
          let remaining := Z.ldiff remaining hit in
          if remaining =? 0 then true else access_loop d ids rest remaining
  end.

Definition infs_security_access_allowed (d : infs_security_descriptor) (ids : list (list Z))
    (requested : Z) : bool :=
  if negb (infs_security_descriptor_is_valid d) ||
     negb (Z.ldiff requested INFS_RIGHT_ALL =? 0) ||
     (Z.of_nat (length ids) >? (2 ^ 64 - 1) / 16)
  then false
  else if requested =? 0 then true
  else access_loop d ids (d_aces d) requested.

(** ** Inheritance *)

(** The condition of the counting loop. *)
Definition counted (child_is_directory : bool) (ace : infs_security_ace) : bool :=
  let flags := a_flags ace in
  if child_is_directory then
    let file_only_no_propagate :=
      has flags INFS_ACE_INHERIT_FILE && negb (has flags INFS_ACE_INHERIT_DIRECTORY) &&
      has flags INFS_ACE_NO_PROPAGATE in
    negb file_only_no_propagate &&
    has flags (INFS_ACE_INHERIT_DIRECTORY .| INFS_ACE_INHERIT_FILE)
  else has flags INFS_ACE_INHERIT_FILE.

(** The condition of the filling loop. *)
Definition inherits (child_is_directory : bool) (ace : infs_security_ace) : bool :=
  let flags := a_flags ace in
  let inherit := if child_is_directory
                 then has flags (INFS_ACE_INHERIT_DIRECTORY .| INFS_ACE_INHERIT_FILE)
                 else has flags INFS_ACE_INHERIT_FILE in
  if child_is_directory && has flags INFS_ACE_INHERIT_FILE &&
     negb (has flags INFS_ACE_INHERIT_DIRECTORY) && has flags INFS_ACE_NO_PROPAGATE
  then false else inherit.

Definition clear (flags mask : Z) : Z := Z.ldiff flags mask.

(** The entry written for an inherited [source]. *)
Definition inherited_ace (child_is_directory : bool) (owner group : list Z)
    (source : infs_security_ace) : infs_security_ace :=
  let flags := a_flags source in
  let tflags := flags .| INFS_ACE_INHERITED in
  let principal :=
    if id_equal (a_principal_id source) infs_principal_creator_owner_id then owner
    else if id_equal (a_principal_id source) infs_principal_creator_group_id then group
    else a_principal_id source in
  let tflags :=
    if negb child_is_directory then
      clear tflags (INFS_ACE_INHERIT_FILE .| INFS_ACE_INHERIT_DIRECTORY .|
                    INFS_ACE_INHERIT_ONLY .| INFS_ACE_NO_PROPAGATE)
    else
      let tflags := if has flags INFS_ACE_INHERIT_DIRECTORY
                    then clear tflags INFS_ACE_INHERIT_ONLY
                    else tflags .| INFS_ACE_INHERIT_ONLY in
      if has flags INFS_ACE_NO_PROPAGATE
      then clear tflags (INFS_ACE_INHERIT_FILE .| INFS_ACE_INHERIT_DIRECTORY .|
                         INFS_ACE_NO_PROPAGATE)
      else tflags in
  Ace principal (a_rights source) (a_disposition source) tflags.

(** The child's descriptor and the number of entries allocated for it. *)
Definition infs_security_inherit_descriptor (alloc_ok : bool)
    (parent : infs_security_descriptor) (child_is_directory : bool) (owner group : list Z)
    : result (infs_security_descriptor * nat) :=
  if negb (infs_security_descriptor_is_valid parent) ||
     negb (id_nonzero owner) || negb (id_nonzero group) ||
     infs_security_principal_id_is_reserved owner || infs_security_principal_id_is_reserved group
  then Bad INVALID_ARGUMENT
  else
    let flags := INFS_SECURITY_DACL_PRESENT .| (d_flags parent .& INFS_SECURITY_AUTO_INHERIT) in
    let count := length (filter (fun a => Is_true (counted child_is_directory a)) (d_aces parent)) in
    if decide (count = 0%nat) then Good (Descriptor owner group flags [], 0%nat)
    else if negb alloc_ok then Bad NO_MEMORY
    else
      Good (Descriptor owner group flags
              (map (inherited_ace child_is_directory owner group)
                 (filter (fun a => Is_true (inherits child_is_directory a)) (d_aces parent))),
            count).

(** ** Specification of the access check *)

(** The disposition of the first entry that applies to the subject and mentions
    right [r]. *)
Fixpoint decided (d : infs_security_descriptor) (ids : list (list Z))
    (aces : list infs_security_ace) (r : Z) : option Z :=
  match aces with
  | [] => None
  | ace :: rest =>
      if negb (has (a_flags ace) INFS_ACE_INHERIT_ONLY) &&
         ace_applies d ids (a_principal_id ace) && Z.testbit (a_rights ace) r
      then Some (a_disposition ace) else decided d ids rest r
  end.

End Security.

(** * Facts *)

Module SecurityFacts.
Import Security.

(** ** The access check *)

Lemma nonzero_bit z : 0 <= z -> z <> 0 -> exists r, Z.testbit z r = true.
Proof. intros; exists (Z.log2 z); apply Z.bit_log2; lia. Qed.

Lemma zero_bits z : (forall r, Z.testbit z r = false) -> z = 0.
Proof. intros Hz; apply Z.bits_inj; intros r; rewrite Z.bits_0; auto. Qed.

Definition disposition_ok (ace : infs_security_ace) : Prop :=
  a_disposition ace = INFS_ACE_ALLOW \/ a_disposition ace = INFS_ACE_DENY.

Lemma access_loop_spec d ids aces remaining :
  Forall disposition_ok aces -> 0 <= remaining -> remaining <> 0 ->
  access_loop d ids aces remaining = true <->
  forall r, Z.testbit remaining r = true -> decided d ids aces r = Some INFS_ACE_ALLOW.
Proof.
  intros Hok; revert remaining; induction Hok as [| ace aces Hace Hok IH]; intros rem Hpos Hne;
    cbn [access_loop decided].
  { destruct (nonzero_bit rem Hpos Hne) as [r Hr].
    split; [discriminate | intros H; discriminate (H r Hr)]. }
  destruct (has _ _) eqn:Eh; [apply IH; assumption |].
  destruct (ace_applies _ _ _) eqn:Ea; [| apply IH; assumption]; cbn [orb negb andb].
  destruct (Z.eqb_spec (rem .& a_rights ace) 0) as [Hhit | Hhit].
  { rewrite IH by assumption; split; intros H r Hr; specialize (H r Hr);
      apply (f_equal (fun z => Z.testbit z r)) in Hhit;
      rewrite Z.land_spec, Hr, Z.bits_0 in Hhit; cbn in Hhit; rewrite Hhit in *; trivial. }
  destruct (Z.eqb_spec (a_disposition ace) INFS_ACE_DENY) as [Hd | Hd].
  { destruct (nonzero_bit (rem .& a_rights ace)) as [r Hr]; trivial.
    { apply Z.land_nonneg; auto. }
    rewrite Z.land_spec in Hr; apply andb_true_iff in Hr as [Hr1 Hr2].
    split; [discriminate |]; intros H; specialize (H r Hr1); rewrite Hr2, Hd in H; discriminate. }
  destruct Hace as [Hallow |]; [| contradiction]; rewrite Hallow.
  assert (Hbit : forall r, Z.testbit (Z.ldiff rem (rem .& a_rights ace)) r =
                           Z.testbit rem r && negb (Z.testbit (a_rights ace) r)).
  { intros r; rewrite Z.ldiff_spec, Z.land_spec; destruct (Z.testbit rem r); reflexivity. }
  destruct (Z.eqb_spec (Z.ldiff rem (rem .& a_rights ace)) 0) as [Hz | Hz].
  { split; [intros _ r Hr | reflexivity].
    specialize (Hbit r); rewrite Hz, Z.bits_0, Hr in Hbit.
    destruct (Z.testbit (a_rights ace) r); [reflexivity | discriminate]. }
  rewrite IH; [| apply Z.ldiff_nonneg; auto | assumption].
  split; intros H r Hr.
  - specialize (H r); rewrite Hbit, Hr in H.
    destruct (Z.testbit (a_rights ace) r); [reflexivity | apply H; reflexivity].
  - rewrite Hbit in Hr; apply andb_true_iff in Hr as [Hr Hn]; specialize (H r Hr).
    apply negb_true_iff in Hn; rewrite Hn in H; assumption.
Qed.

Lemma ace_valid_disposition ace : infs_security_ace_is_valid ace = true -> disposition_ok ace.
Proof.
  unfold infs_security_ace_is_valid; case_if E; [discriminate |]; intros _; split_ands.
  unfold disposition_ok; destruct (Z.eqb_spec (a_disposition ace) INFS_ACE_ALLOW); [auto |].
  destruct (Z.eqb_spec (a_disposition ace) INFS_ACE_DENY); [auto | discriminate].
Qed.

Lemma descriptor_valid_aces d :
  infs_security_descriptor_is_valid d = true ->
  Forall (fun a => infs_security_ace_is_valid a = true) (d_aces d).
Proof.
  unfold infs_security_descriptor_is_valid; case_if E; [discriminate |].
  rewrite forallb_forall, Forall_forall; intros Hv ace Hin; apply Hv, list_elem_of_In, Hin.
Qed.

Lemma descriptor_valid_dispositions d :
  infs_security_descriptor_is_valid d = true -> Forall disposition_ok (d_aces d).
Proof. intros Hv; eapply Forall_impl; [apply descriptor_valid_aces, Hv | apply ace_valid_disposition]. Qed.

(** C26.  The access check grants a request exactly when the descriptor is valid,
    the request names known rights, and for every requested right the first
    effective entry that applies to the subject and mentions it is an allow
    entry. *)
Theorem access_allowed_spec d ids requested :
  fits 64 requested -> Z.of_nat (length ids) <= (2 ^ 64 - 1) / 16 ->
  infs_security_access_allowed d ids requested = true <->
  infs_security_descriptor_is_valid d = true /\
  (forall r, Z.testbit requested r = true -> Z.testbit INFS_RIGHT_ALL r = true) /\
  (forall r, Z.testbit requested r = true -> decided d ids (d_aces d) r = Some INFS_ACE_ALLOW).
Proof.
  intros [Hpos _] Hids; unfold infs_security_access_allowed.
  replace (Z.of_nat (length ids) >? _) with false by (rewrite Z.gtb_ltb; symmetry; apply Z.ltb_ge; lia).
  rewrite orb_false_r; destruct (infs_security_descriptor_is_valid d) eqn:Ev; cbn [negb orb];
    [| split; [discriminate | intros [? _]; discriminate]].
  assert (Hall : Z.ldiff requested INFS_RIGHT_ALL = 0 <->
    forall r, Z.testbit requested r = true -> Z.testbit INFS_RIGHT_ALL r = true).
  { split.
    - intros Hz r Hr; apply (f_equal (fun z => Z.testbit z r)) in Hz.
      rewrite Z.ldiff_spec, Hr, Z.bits_0 in Hz; apply negb_false_iff, Hz.
    - intros H; apply zero_bits; intros r; rewrite Z.ldiff_spec.
      destruct (Z.testbit requested r) eqn:Er; [rewrite H by assumption |]; reflexivity. }
  destruct (Z.eqb_spec (Z.ldiff requested INFS_RIGHT_ALL) 0) as [Hk | Hk]; cbn [negb];
    [| split; [discriminate | intros (_ & H & _); tauto]].
  destruct (Z.eqb_spec requested 0) as [-> | Hne].
  { split; [intros _ | reflexivity]; split_and!; trivial; intros r Hr; rewrite Z.bits_0 in Hr; discriminate. }
  rewrite access_loop_spec by auto using descriptor_valid_dispositions.
  tauto.
Qed.

(** A descriptor with a deny entry before an allow entry, and a subject. *)
Definition sample_id (n : Z) : list Z := replicate 15 7 ++ [n].
Definition sample_descriptor : infs_security_descriptor :=
  Descriptor (sample_id 1) (sample_id 2) INFS_SECURITY_DACL_PRESENT
    [Ace (sample_id 3) 2 INFS_ACE_DENY 0;
     Ace infs_principal_everyone_id 3 INFS_ACE_ALLOW 0;
     Ace infs_principal_creator_owner_id 1 INFS_ACE_ALLOW 7].

Lemma access_allowed_spec_witness :
  infs_security_access_allowed sample_descriptor [sample_id 3] 1 = true <->
  infs_security_descriptor_is_valid sample_descriptor = true /\
  (forall r, Z.testbit 1 r = true -> Z.testbit INFS_RIGHT_ALL r = true) /\
  (forall r, Z.testbit 1 r = true ->
     decided sample_descriptor [sample_id 3] (d_aces sample_descriptor) r = Some INFS_ACE_ALLOW).
Proof. apply access_allowed_spec; [eval_decide | vm_compute; congruence]. Defined.

(** ** Inheritance *)

(** The counting loop and the filling loop select the same entries. *)
Lemma counted_inherits dir ace : counted dir ace = inherits dir ace.
Proof.
  unfold counted, inherits; destruct dir; [| reflexivity]; cbn [andb].
  destruct (has _ INFS_ACE_INHERIT_FILE && _ && _); reflexivity.
Qed.

Lemma ldiff_zero_bits z m :
  Z.ldiff z m = 0 <-> forall r, Z.testbit z r = true -> Z.testbit m r = true.
Proof.
  split.
  - intros Hz r Hr; apply (f_equal (fun z => Z.testbit z r)) in Hz.
    rewrite Z.ldiff_spec, Hr, Z.bits_0 in Hz; apply negb_false_iff, Hz.
  - intros H; apply zero_bits; intros r; rewrite Z.ldiff_spec.
    destruct (Z.testbit z r) eqn:Er; [rewrite H by assumption |]; reflexivity.
Qed.

(** Setting and clearing known flags keeps the flags known. *)
Lemma known_lor a b m : Z.ldiff a m = 0 -> Z.ldiff b m = 0 -> Z.ldiff (a .| b) m = 0.
Proof.
  rewrite !ldiff_zero_bits; intros Ha Hb r; rewrite Z.lor_spec, orb_true_iff; intuition.
Qed.

Lemma known_clear a c m : Z.ldiff a m = 0 -> Z.ldiff (clear a c) m = 0.
Proof.
  unfold clear; rewrite !ldiff_zero_bits; intros Ha r.
  rewrite Z.ldiff_spec, andb_true_iff; intuition.
Qed.

Lemma inherited_flags_known dir owner group source :
  Z.ldiff (a_flags source) INFS_ACE_KNOWN_FLAGS = 0 ->
  Z.ldiff (a_flags (inherited_ace dir owner group source)) INFS_ACE_KNOWN_FLAGS = 0.
Proof.
  intros Hk; unfold inherited_ace; cbn [a_flags].
  destruct dir; cbn [negb]; [destruct (has _ INFS_ACE_INHERIT_DIRECTORY), (has _ INFS_ACE_NO_PROPAGATE) |];
    repeat first [assumption | reflexivity | apply known_clear | apply known_lor].
Qed.

(** A principal that is neither reserved nor zero is fit for any entry. *)
Definition plain_id (id : list Z) : Prop :=
  id_nonzero id = true /\ infs_security_principal_id_is_reserved id = false.

Lemma id_equal_lookup a b i : id_equal a b = true -> (i < 16)%nat -> a !! i = b !! i.
Proof.
  unfold id_equal; rewrite bytes_eqb_eq; intros He Hi.
  rewrite <- (lookup_take_lt a 16 i), <- (lookup_take_lt b 16 i), He by lia; reflexivity.
Qed.

Lemma creator_is_reserved id :
  infs_security_principal_id_is_creator id = true ->
  infs_security_principal_id_is_reserved id = true.
Proof.
  unfold infs_security_principal_id_is_creator; rewrite orb_true_iff.
  intros He; assert (exists w, id_equal id w = true /\
    (w = infs_principal_creator_owner_id \/ w = infs_principal_creator_group_id)) as (w & Hw & Hc)
    by (destruct He; eauto).
  assert (Ht : forall i, (i < 16)%nat -> id !!! i = w !!! i).
  { intros i Hi; rewrite !list_lookup_total_alt, (id_equal_lookup _ _ i Hw Hi); reflexivity. }
  unfold infs_security_principal_id_is_reserved.
  replace (forallb _ _) with (forallb (fun i => w !!! i =? 0) (seq 0 15)).
  - rewrite Ht by lia; destruct Hc as [-> | ->]; vm_compute; reflexivity.
  - cbn [seq forallb]; rewrite !Ht by lia; reflexivity.
Qed.

Lemma inherited_ace_valid dir owner group source :
  infs_security_ace_is_valid source = true -> plain_id owner -> plain_id group ->
  infs_security_ace_is_valid (inherited_ace dir owner group source) = true.
Proof.
  intros Hv Ho Hg; pose proof (inherited_flags_known dir owner group source) as Hk.
  unfold infs_security_ace_is_valid in Hv; case_if_in Hv E1; [discriminate |].
  case_if_in Hv E2; [discriminate |]; split_ands.
  assert (Hp : id_nonzero (a_principal_id (inherited_ace dir owner group source)) = true /\
    infs_security_principal_id_is_creator (a_principal_id (inherited_ace dir owner group source)) = false /\
    (infs_security_principal_id_is_reserved (a_principal_id (inherited_ace dir owner group source)) &&
     negb (infs_security_principal_id_is_well_known
             (a_principal_id (inherited_ace dir owner group source)))) = false).
  { assert (Hplain : forall id, plain_id id -> id_nonzero id = true /\
      infs_security_principal_id_is_creator id = false /\
      (infs_security_principal_id_is_reserved id &&
       negb (infs_security_principal_id_is_well_known id)) = false).
    { intros id [Hn Hr]; rewrite Hr; split_and!; trivial.
      destruct (infs_security_principal_id_is_creator id) eqn:Ec; trivial.
      apply creator_is_reserved in Ec; congruence. }
    unfold inherited_ace; cbn [a_principal_id].
    destruct (id_equal _ infs_principal_creator_owner_id) eqn:Eo; [apply Hplain, Ho |].
    destruct (id_equal _ infs_principal_creator_group_id) eqn:Eg; [apply Hplain, Hg |].
    split_and!; trivial; unfold infs_security_principal_id_is_creator; rewrite Eo, Eg; reflexivity. }
  destruct Hp as (Hp1 & Hp2 & Hp3); unfold infs_security_ace_is_valid.
  rewrite Hp1, Hp2, Hp3; unfold inherited_ace at 1 2 3 4; cbn [a_rights a_disposition negb orb].
  rewrite Hk by (apply Z.eqb_eq; assumption).
  repeat match goal with H : _ = false |- _ => rewrite H | H : _ = true |- _ => rewrite H end; reflexivity.
Qed.

Lemma filter_counted dir (aces : list infs_security_ace) :
  filter (fun a => Is_true (counted dir a)) aces = filter (fun a => Is_true (inherits dir a)) aces.
Proof. apply list_filter_iff; intros a; rewrite counted_inherits; reflexivity. Qed.

Lemma file_flags owner group source :
  a_flags (inherited_ace false owner group source) .&
  (INFS_ACE_INHERIT_FILE .| INFS_ACE_INHERIT_DIRECTORY .| INFS_ACE_INHERIT_ONLY .|
   INFS_ACE_NO_PROPAGATE) = 0.
Proof.
  unfold inherited_ace, clear; cbn [a_flags negb].
  apply zero_bits; intros r; rewrite Z.land_spec, Z.ldiff_spec.
  destruct (Z.testbit (_ .| INFS_ACE_NO_PROPAGATE) r); [rewrite andb_false_r | rewrite andb_false_r];
    reflexivity.
Qed.

(** C27.  Inheritance fills exactly the entries it allocated, gives the child a
    valid descriptor with the given owner and group, and, for a file, entries
    that are effective and propagate no further. *)
Theorem inherit_descriptor_ok parent dir owner group child count :
  infs_security_inherit_descriptor true parent dir owner group = Good (child, count) ->
  length (d_aces child) = count /\
  infs_security_descriptor_is_valid child = true /\
  d_owner child = owner /\ d_group child = group /\
  (dir = false -> Forall (fun a =>
     a_flags a .& (INFS_ACE_INHERIT_FILE .| INFS_ACE_INHERIT_DIRECTORY .|
                   INFS_ACE_INHERIT_ONLY .| INFS_ACE_NO_PROPAGATE) = 0) (d_aces child)).
Proof.
  unfold infs_security_inherit_descriptor; case_if E; [discriminate |].
  apply orb_false_iff in E as [[[[Hv Ho]%orb_false_iff Hg]%orb_false_iff Hro]%orb_false_iff Hrg].
  apply negb_false_iff in Hv; set (flags := INFS_SECURITY_DACL_PRESENT .| _).
  set (aces := filter (fun a => Is_true (inherits dir a)) (d_aces parent)).
  assert (Hchild : forall aces', Forall (fun a => infs_security_ace_is_valid a = true) aces' ->
    infs_security_descriptor_is_valid (Descriptor owner group flags aces') = true).
  { intros aces' Ha; unfold infs_security_descriptor_is_valid; cbn [d_owner d_group d_flags d_aces].
    rewrite Ho, Hg, Hro, Hrg; cbn [orb].
    replace (Z.ldiff flags INFS_SECURITY_KNOWN_FLAGS =? 0) with true
      by (symmetry; apply Z.eqb_eq, known_lor; [reflexivity |]; apply ldiff_zero_bits; intros r;
          rewrite Z.land_spec, andb_true_iff; intros [_ Hr];
          revert r Hr; apply ldiff_zero_bits; reflexivity).
    replace (flags .& INFS_SECURITY_DACL_PRESENT =? 0) with false; [cbn [negb orb] |].
    - apply forallb_forall; intros a Hin; rewrite Forall_forall in Ha; apply Ha, list_elem_of_In, Hin.
    - symmetry; apply Z.eqb_neq; intros Hz; apply (f_equal (fun z => Z.testbit z 0)) in Hz.
      unfold flags in Hz; rewrite Z.land_spec, Z.lor_spec in Hz; discriminate. }
  rewrite filter_counted; fold aces; case_decide as Hc; cbn [negb]; intros [= <- <-];
    cbn [d_aces d_owner d_group].
  { split_and!; intros; try apply Hchild; constructor. }
  split_and!; trivial; [apply length_map | apply Hchild, Forall_fmap |].
  - apply Forall_forall; intros a Ha; apply list_elem_of_filter in Ha as [_ Ha].
    apply inherited_ace_valid; [| split; [apply negb_false_iff |]; assumption ..].
    pose proof (descriptor_valid_aces _ Hv) as Hall; rewrite Forall_forall in Hall; auto.
  - intros ->; apply Forall_fmap, Forall_forall; intros a _; apply file_flags.
Qed.

Lemma inherit_descriptor_ok_witness :
  exists child,
  infs_security_inherit_descriptor true sample_descriptor false (sample_id 8) (sample_id 9)
    = Good (child, 1%nat) /\
  length (d_aces child) = 1%nat /\
  infs_security_descriptor_is_valid child = true /\
  d_owner child = sample_id 8 /\ d_group child = sample_id 9 /\
  (false = false -> Forall (fun a =>
     a_flags a .& (INFS_ACE_INHERIT_FILE .| INFS_ACE_INHERIT_DIRECTORY .|
                   INFS_ACE_INHERIT_ONLY .| INFS_ACE_NO_PROPAGATE) = 0) (d_aces child)).
Proof.
  exists (Descriptor (sample_id 8) (sample_id 9) 1 [Ace (sample_id 8) 1 INFS_ACE_ALLOW 16]).
  split; [vm_compute; reflexivity |].
  apply (inherit_descriptor_ok sample_descriptor false (sample_id 8) (sample_id 9)).
  vm_compute; reflexivity.
Defined.

(** ** Bindings *)

(** The value array of a POSIX binding. *)
Lemma posix_value authority n0 n1 n2 n3 :
  length authority = 16%nat ->
  <[19%nat := n3]> (<[18%nat := n2]> (<[17%nat := n1]> (<[16%nat := n0]>
    (splice 0 (take 16 authority) zero_value)))) = authority ++ [n0; n1; n2; n3] ++ replicate 48 0.
Proof.
  intros Hl; rewrite (take_ge authority) by lia.
  change zero_value with ([] ++ replicate 16 0 ++ replicate 52 0).
  rewrite (splice_app []) by (rewrite length_replicate; lia); cbn [app].
  rewrite (insert_app_r_alt _ _ 16), (insert_app_r_alt _ _ 17), (insert_app_r_alt _ _ 18),
    (insert_app_r_alt _ _ 19) by lia; rewrite Hl; reflexivity.
Qed.

Lemma le32_bytes n :
  fits 32 n -> (u8 n .| (u8 (n ≫ 8) ≪ 8) .| (u8 (n ≫ 16) ≪ 16) .| (u8 (n ≫ 24) ≪ 24)) = n.
Proof.
  intros Hn; bitwise i.
  replace (i - 8 + 8) with i by lia; replace (i - 16 + 16) with i by lia.
  replace (i - 24 + 24) with i by lia; bit_cases; rewrite ?orb_false_r; trivial.
  symmetry; apply (fits_testbit 32); trivial; lia.
Qed.

(** A POSIX identity binding is valid and gives back the authority and the
    32-bit number it was built from. *)
Lemma posix_binding_roundtrip type authority numeric b :
  length authority = 16%nat -> fits 32 numeric ->
  infs_security_binding_init_posix type authority numeric = Good b ->
  infs_security_binding_is_valid b = true /\
  infs_security_binding_get_posix b = Good (authority, numeric).
Proof.
  intros Hl Hn; unfold infs_security_binding_init_posix; case_if E; [discriminate |].
  intros [= <-]; apply orb_false_iff in E as [Ha Ht]; apply negb_false_iff in Ha.
  rewrite posix_value by assumption; set (v := authority ++ _).
  assert (Htake : take 16 v = authority) by (apply take_app_length'; lia).
  assert (Hval : infs_security_binding_is_valid
                   (Binding type 0 INFS_SECURITY_POSIX_BINDING_SIZE v) = true).
  { unfold infs_security_binding_is_valid; cbn [b_flags b_size b_type b_value].
    replace ((type =? INFS_BINDING_POSIX_UID) || (type =? INFS_BINDING_POSIX_GID)) with true
      by (destruct (type =? _), (type =? INFS_BINDING_POSIX_GID); reflexivity || discriminate).
    unfold id_nonzero in *; rewrite Htake; rewrite take_ge in Ha by lia; exact Ha. }
  split; [assumption |]; unfold infs_security_binding_get_posix; rewrite Hval.
  cbn [b_type b_value]; rewrite Ht; cbn [negb orb]; unfold slice; rewrite drop_0, Htake; do 2 f_equal.
  unfold v; rewrite (lookup_total_app_r _ _ 16), (lookup_total_app_r _ _ 17),
    (lookup_total_app_r _ _ 18), (lookup_total_app_r _ _ 19) by lia; rewrite Hl; cbn [Nat.sub].
  apply le32_bytes, Hn.
Qed.

End SecurityFacts.
