(* ===== verification/Storage.v ===== *)
(** The storage contract of [src/src/storage.c] and [src/include/infilfs/storage.h]:
    a dispatch table of optional callbacks over a backend context.  A callback
    takes the context and returns its result with the context it leaves; a
    callback the backend does not provide is [None].  [StorageLaws] is the
    documented contract of a backend, the interface the components above
    storage are proved against. *)

From stdpp Require Import prelude.
From S2P Require Import Prelude Format.
#[local] Open Scope Z_scope.

(** * Definitions *)

Module Storage.

Record infs_timestamp := Timestamp { seconds : Z; nanoseconds : Z }.

Definition infs_timestamp_valid (t : infs_timestamp) : bool := nanoseconds t <? 1000000000.

Record infs_storage_io_policy := Policy {
  object_id : list Z; protection_copies : Z; encryption_domain : Z
}.

Section Dispatch.
Context {C : Type}.

Record infs_storage_ops := Ops {
  read_at : option (C -> Z -> nat -> result (list Z) * C);
  write_at : option (C -> Z -> list Z -> infs_status * C);
  read_at_policy : option (C -> Z -> nat -> option infs_storage_io_policy -> result (list Z) * C);
  write_at_policy : option (C -> Z -> list Z -> option infs_storage_io_policy -> infs_status * C);
  flush : option (C -> infs_status * C);
  get_size : option (C -> result (Z * bool));
  random_bytes : option (C -> nat -> result (list Z) * C);
  current_time : option (C -> result infs_timestamp * C);
  close : option (C -> C)
}.

Record infs_storage := Handle { ops : option infs_storage_ops; context : option C }.

(** The callbacks and the context of a valid handle. *)
Definition infs_storage_valid (s : infs_storage) : bool :=
  match ops s, context s with
  | Some o, Some _ => match read_at o, get_size o with Some _, Some _ => true | _, _ => false end
  | _, _ => false
  end.

Definition with_context (s : infs_storage) (c : C) : infs_storage := Handle (ops s) (Some c).

(** Call [f], found in the table, on the context of a valid handle. *)
Definition dispatch {F A} (s : infs_storage) (bad : A) (find : infs_storage_ops -> option F)
    (call : F -> C -> A * C) : A * infs_storage :=
  match ops s, context s with
  | Some o, Some c =>
      if infs_storage_valid s then
        match find o with
        | Some f => let '(r, c') := call f c in (r, with_context s c')
        | None => (bad, s)
        end
      else (bad, s)
  | _, _ => (bad, s)
  end.

Definition infs_storage_read (s : infs_storage) (offset : Z) (size : nat) :=
  dispatch s (Bad INVALID_ARGUMENT) read_at (fun f c => f c offset size).

Definition infs_storage_write (s : infs_storage) (offset : Z) (buffer : list Z) :=
  dispatch s INVALID_ARGUMENT write_at (fun f c => f c offset buffer).

(** A policy that a backend without policy support cannot honour. *)
Definition demands (policy : option infs_storage_io_policy) : bool :=
  match policy with
  | Some p => negb (protection_copies p =? 0) || negb (encryption_domain p =? 0)
  | None => false
  end.

Definition infs_storage_read_policy (s : infs_storage) (offset : Z) (size : nat)
    (policy : option infs_storage_io_policy) : result (list Z) * infs_storage :=
  if negb (infs_storage_valid s) then (Bad INVALID_ARGUMENT, s)
  else match ops s ≫= read_at_policy with
       | Some _ => dispatch s (Bad INVALID_ARGUMENT) read_at_policy
                     (fun f c => f c offset size policy)
       | None => if demands policy then (Bad NOT_SUPPORTED, s)
                 else infs_storage_read s offset size
       end.

Definition infs_storage_write_policy (s : infs_storage) (offset : Z) (buffer : list Z)
    (policy : option infs_storage_io_policy) : infs_status * infs_storage :=
  if negb (infs_storage_valid s) then (INVALID_ARGUMENT, s)
  else match ops s ≫= write_at with
       | None => (INVALID_ARGUMENT, s)
       | Some _ =>
           match ops s ≫= write_at_policy with
           | Some _ => dispatch s INVALID_ARGUMENT write_at_policy
                         (fun f c => f c offset buffer policy)
           | None => if demands policy then (NOT_SUPPORTED, s)
                     else infs_storage_write s offset buffer
           end
       end.

Definition infs_storage_flush (s : infs_storage) :=
  dispatch s INVALID_ARGUMENT flush (fun f c => f c).

Definition infs_storage_get_size (s : infs_storage) : result (Z * bool) :=
  (dispatch s (Bad INVALID_ARGUMENT) get_size (fun f c => (f c, c))).1.

Definition infs_storage_random (s : infs_storage) (size : nat) :=
  dispatch s (Bad INVALID_ARGUMENT) random_bytes (fun f c => f c size).

Definition infs_storage_current_time (s : infs_storage)
    : result infs_timestamp * infs_storage :=
  let '(r, s') := dispatch s (Bad INVALID_ARGUMENT) current_time (fun f c => f c) in
  match r with
  | Good t => (if infs_timestamp_valid t then Good t else Bad CORRUPT, s')
  | Bad e => (Bad e, s')
  end.

(** The cleared handle, and the context its close callback received. *)
Definition infs_storage_close (s : infs_storage) : infs_storage * option C :=
  (Handle None None,
   match ops s, context s with
   | Some o, Some c => match close o with Some f => Some (f c) | None => None end
   | _, _ => None
   end).

(** ** The contract of a backend *)

(** [image] is what the medium holds.  A read returns the bytes of the requested
    range or fails, and never changes the medium; a successful write stores the
    whole buffer, a failed one touches at most its range; a flush changes no
    byte. *)
Class StorageLaws (o : infs_storage_ops) (image : C -> list Z) := {
  read_law f c off n r c' :
    read_at o = Some f -> f c off n = (r, c') ->
    image c' = image c /\
    (forall bs, r = Good bs -> bs = slice (Z.to_nat off) n (image c) /\ length bs = n);
  read_policy_law f c off n p r c' :
    read_at_policy o = Some f -> f c off n p = (r, c') ->
    image c' = image c /\
    (forall bs, r = Good bs -> bs = slice (Z.to_nat off) n (image c) /\ length bs = n);
  write_law f c off bs e c' :
    write_at o = Some f -> f c off bs = (e, c') ->
    length (image c') = length (image c) /\
    (forall i, (i < Z.to_nat off \/ Z.to_nat off + length bs <= i)%nat ->
       image c' !! i = image c !! i) /\
    (e = OK -> (Z.to_nat off + length bs <= length (image c))%nat /\
               image c' = splice (Z.to_nat off) bs (image c));
  write_policy_law f c off bs p e c' :
    write_at_policy o = Some f -> f c off bs p = (e, c') ->
    length (image c') = length (image c) /\
    (forall i, (i < Z.to_nat off \/ Z.to_nat off + length bs <= i)%nat ->
       image c' !! i = image c !! i) /\
    (e = OK -> (Z.to_nat off + length bs <= length (image c))%nat /\
               image c' = splice (Z.to_nat off) bs (image c));
  flush_law f c e c' : flush o = Some f -> f c = (e, c') -> image c' = image c
}.

End Dispatch.
#[global] Arguments infs_storage_ops : clear implicits.
#[global] Arguments infs_storage : clear implicits.

(** A backend of which the contract holds: a buffer in memory, with a flag that
    makes its device fail. *)
Record ram := Ram { bytes : list Z; broken : bool }.

Definition ram_read (c : ram) (off : Z) (n : nat) : result (list Z) * ram :=
  if broken c || bool_decide (length (bytes c) < Z.to_nat off + n)%nat
  then (Bad IO_ERROR, c) else (Good (slice (Z.to_nat off) n (bytes c)), c).

Definition ram_write (c : ram) (off : Z) (bs : list Z) : infs_status * ram :=
  if broken c || bool_decide (length (bytes c) < Z.to_nat off + length bs)%nat
  then (IO_ERROR, c) else (OK, Ram (splice (Z.to_nat off) bs (bytes c)) false).

Definition ram_ops : infs_storage_ops ram := {|
  read_at := Some ram_read;
  write_at := Some ram_write;
  read_at_policy := Some (fun c off n _ => ram_read c off n);
  write_at_policy := Some (fun c off bs _ => ram_write c off bs);
  flush := Some (fun c => (if broken c then IO_ERROR else OK, c));
  get_size := Some (fun c => Good (Z.of_nat (length (bytes c)), false));
  random_bytes := None; current_time := None; close := None
|}.

Definition ram_storage (bs : list Z) (b : bool) : infs_storage ram :=
  Handle (Some ram_ops) (Some (Ram bs b)).

End Storage.

(** * Facts *)

Module StorageFacts.
Import Storage.

Lemma ram_read_law c off n r c' :
  ram_read c off n = (r, c') ->
  bytes c' = bytes c /\
  (forall bs, r = Good bs -> bs = slice (Z.to_nat off) n (bytes c) /\ length bs = n).
Proof.
  unfold ram_read; case_if E; intros [= <- <-]; split; trivial; [discriminate |].
  apply orb_false_iff in E as [_ E]; to_prop.
  intros bs [= <-]; split; [reflexivity | apply length_slice; lia].
Qed.

Lemma ram_write_law c off bs e c' :
  ram_write c off bs = (e, c') ->
  length (bytes c') = length (bytes c) /\
  (forall i, (i < Z.to_nat off \/ Z.to_nat off + length bs <= i)%nat ->
     bytes c' !! i = bytes c !! i) /\
  (e = OK -> (Z.to_nat off + length bs <= length (bytes c))%nat /\
             bytes c' = splice (Z.to_nat off) bs (bytes c)).
Proof.
  unfold ram_write; case_if E; intros [= <- <-]; cbn [bytes].
  { split_and!; trivial; discriminate. }
  apply orb_false_iff in E as [_ E]; to_prop; split_and!; [apply length_splice; lia | | split; [lia | trivial]].
  intros i Hi; rewrite lookup_splice by lia; case_decide; [lia | reflexivity].
Qed.

#[global] Instance ram_laws : StorageLaws ram_ops bytes.
Proof.
  split; cbn.
  - intros f c off n r c' [= <-]; apply ram_read_law.
  - intros f c off n p r c' [= <-]; apply ram_read_law.
  - intros f c off bs e c' [= <-]; apply ram_write_law.
  - intros f c off bs p e c' [= <-]; apply ram_write_law.
  - intros f c e c' [= <-] [= _ <-]; reflexivity.
Qed.

(** ** A handle under the contract *)

Section Handles.
Context {C : Type} (image : C -> list Z).

(** The medium behind a handle whose backend keeps the contract. *)
Definition holds (s : infs_storage C) (img : list Z) : Prop :=
  exists o c, ops s = Some o /\ context s = Some c /\ StorageLaws o image /\ image c = img.

Lemma dispatch_some {F A} (s : infs_storage C) (bad : A) find (call : F -> C -> A * C) r s' :
  dispatch s bad find call = (r, s') ->
  (r = bad /\ s' = s) \/
  exists o c f c', ops s = Some o /\ context s = Some c /\ find o = Some f /\
    call f c = (r, c') /\ s' = with_context s c'.
Proof.
  unfold dispatch; destruct (ops s) as [o |] eqn:Eo, (context s) as [c |] eqn:Ec;
    try (intros [= <- <-]; left; split; reflexivity).
  destruct (infs_storage_valid s); [| intros [= <- <-]; left; split; reflexivity].
  destruct (find o) as [f |] eqn:Ef; [| intros [= <- <-]; left; split; reflexivity].
  destruct (call f c) as [r0 c'] eqn:Ek; intros [= <- <-]; right; eauto 10.
Qed.

Lemma holds_with_context s img o c c' :
  holds s img -> ops s = Some o -> context s = Some c -> holds (with_context s c') (image c').
Proof.
  intros (o' & c0 & Ho & Hc & Hl & Hi) Eo Ec; exists o', c'; split_and!; trivial.
Qed.

(** What a read does to a medium: nothing, and it returns its bytes. *)
Definition read_ok (s' : infs_storage C) (r : result (list Z)) (off : Z) (n : nat) (img : list Z) : Prop :=
  holds s' img /\
  (forall bs, r = Good bs -> bs = slice (Z.to_nat off) n img /\ length bs = n).

(** What a write does to a medium. *)
Definition write_ok (s' : infs_storage C) (e : infs_status) (off : Z) (bs img : list Z) : Prop :=
  exists img', holds s' img' /\ length img' = length img /\
  (forall i, (i < Z.to_nat off \/ Z.to_nat off + length bs <= i)%nat -> img' !! i = img !! i) /\
  (e = OK -> (Z.to_nat off + length bs <= length img)%nat /\ img' = splice (Z.to_nat off) bs img).

Lemma read_sound s img off n r s' :
  holds s img -> infs_storage_read s off n = (r, s') -> read_ok s' r off n img.
Proof.
  intros Hh Hr; apply dispatch_some in Hr as [[-> ->] | (o & c & f & c' & Ho & Hc & Hf & Hcall & ->)];
    [split; [assumption | discriminate] |].
  destruct Hh as (o' & c0 & Ho' & Hc' & Hl & <-); simplify_eq.
  destruct (read_law _ _ _ _ _ _ Hf Hcall) as [<- Hbs]; split; [| assumption].
  exists o', c'; auto.
Qed.

Lemma read_policy_sound s img off n p r s' :
  holds s img -> infs_storage_read_policy s off n p = (r, s') -> read_ok s' r off n img.
Proof.
  intros Hh; unfold infs_storage_read_policy.
  destruct (negb _); [intros [= <- <-]; split; [assumption | discriminate] |].
  destruct (ops s ≫= read_at_policy); [| destruct (demands p);
    [intros [= <- <-]; split; [assumption | discriminate] | apply read_sound; assumption]].
  intros Hr; apply dispatch_some in Hr as [[-> ->] | (o & c & g & c' & Ho & Hc & Hf & Hcall & ->)];
    [split; [assumption | discriminate] |].
  destruct Hh as (o' & c0 & Ho' & Hc' & Hl & <-); simplify_eq.
  destruct (read_policy_law _ _ _ _ _ _ _ Hf Hcall) as [<- Hbs]; split; [| assumption].
  exists o', c'; auto.
Qed.

Lemma write_refused s img off bs e : holds s img -> e <> OK -> write_ok s e off bs img.
Proof. intros Hh He; exists img; split_and!; trivial; congruence. Qed.

Lemma write_sound s img off bs e s' :
  holds s img -> infs_storage_write s off bs = (e, s') -> write_ok s' e off bs img.
Proof.
  intros Hh Hr; apply dispatch_some in Hr as [[-> ->] | (o & c & f & c' & Ho & Hc & Hf & Hcall & ->)];
    [apply write_refused; [assumption | discriminate] |].
  destruct Hh as (o' & c0 & Ho' & Hc' & Hl & <-); simplify_eq.
  exists (image c'); split; [exists o', c'; auto | exact (write_law _ _ _ _ _ _ Hf Hcall)].
Qed.

Lemma write_policy_sound s img off bs p e s' :
  holds s img -> infs_storage_write_policy s off bs p = (e, s') -> write_ok s' e off bs img.
Proof.
  intros Hh; unfold infs_storage_write_policy.
  destruct (negb _); [intros [= <- <-]; apply write_refused; [assumption | discriminate] |].
  destruct (ops s ≫= write_at); [| intros [= <- <-]; apply write_refused; [assumption | discriminate]].
  destruct (ops s ≫= write_at_policy); [| destruct (demands p);
    [intros [= <- <-]; apply write_refused; [assumption | discriminate] | apply write_sound; assumption]].
  intros Hr; apply dispatch_some in Hr as [[-> ->] | (o & c & g & c' & Ho & Hc & Hf & Hcall & ->)];
    [apply write_refused; [assumption | discriminate] |].
  destruct Hh as (o' & c0 & Ho' & Hc' & Hl & <-); simplify_eq.
  exists (image c'); split; [exists o', c'; auto | exact (write_policy_law _ _ _ _ _ _ _ Hf Hcall)].
Qed.

Lemma flush_sound s img e s' :
  holds s img -> infs_storage_flush s = (e, s') -> holds s' img.
Proof.
  intros Hh Hr; apply dispatch_some in Hr as [[-> ->] | (o & c & f & c' & Ho & Hc & Hf & Hcall & ->)];
    [assumption |].
  destruct Hh as (o' & c0 & Ho' & Hc' & Hl & <-); simplify_eq.
  exists o', c'; split_and!; trivial; apply (flush_law _ _ _ _ Hf Hcall).
Qed.

End Handles.

Lemma ram_holds bs b : holds bytes (ram_storage bs b) bs.
Proof. exists ram_ops, (Ram bs b); split_and!; trivial; apply ram_laws. Qed.

End StorageFacts.
