(* ===== verification/Mirror.v ===== *)
(** The replicated backend of [src/src/storage_mirror.c].

    A mirror context is the list of its replicas, each a storage handle with its
    [healthy] flag, and the visible size.  One operation runs at a time (the
    source holds one lock over each), so an operation is a function from the
    context to its result and the context it leaves.  The result of [malloc] for
    the comparison buffer is an argument.  Members are used only through the
    contract [StorageLaws]. *)

From stdpp Require Import prelude.
From S2P Require Import Prelude Format Storage.
#[local] Open Scope Z_scope.

(** * Definitions *)

Module Mirror.
Import Storage.

Definition VERIFY_MAX : nat := Z.to_nat 65536.
#[global] Arguments VERIFY_MAX : simpl never.

Section Operations.
Context {C : Type}.

Record mirror_context := Context_ {
  replicas : list (infs_storage C * bool);
  size_bytes : Z;
  is_device : bool
}.

Definition set_replicas (ctx : mirror_context) (rs : list (infs_storage C * bool)) : mirror_context :=
  Context_ rs (size_bytes ctx) (is_device ctx).

Definition mirror_policy_copies (count : nat) (policy : option infs_storage_io_policy) : nat :=
  let copies := match policy with Some p => Z.to_nat (protection_copies p) | None => 0%nat end in
  if decide (copies = 0%nat) then count else copies.

Definition mirror_policy_start (count : nat) (policy : option infs_storage_io_policy) : nat :=
  match policy with
  | None => 0%nat
  | Some p =>
      if decide (count = 0%nat) then 0%nat
      else
        let hash := fold_left (fun h b => u64 ((h .^ b) * 1099511628211))
                      (take 16 (object_id p)) 1469598103934665603 in
        Z.to_nat (hash mod Z.of_nat count)
  end.

Definition mirror_policy_member (count : nat) (policy : option infs_storage_io_policy)
    (member : nat) : bool :=
  let copies := mirror_policy_copies count policy in
  if decide (copies = count) then true
  else
    let start := mirror_policy_start count policy in
    let distance := if decide (start <= member)%nat then (member - start)%nat
                    else (count - start + member)%nat in
    bool_decide (distance < copies)%nat.

(** The policy handed to the members: the replica count is the mirror's own. *)
Definition child_policy (policy : option infs_storage_io_policy) : option infs_storage_io_policy :=
  match policy with
  | Some p => Some (Policy (object_id p) 0 (encryption_domain p))
  | None => None
  end.

Definition too_many_copies (count : nat) (policy : option infs_storage_io_policy) : bool :=
  match policy with Some p => protection_copies p >? Z.of_nat count | None => false end.

(** [while (checked < size)]: compare one more replica with the buffer. *)
Fixpoint verify_member (fuel : nat) (m : infs_storage C) (offset : Z) (buffer : list Z)
    (child : option infs_storage_io_policy) (checked : nat) : result unit * infs_storage C :=
  if decide (checked < length buffer)%nat then
    match fuel with
    | O => (Bad ERROR, m)
    | S fuel' =>
        let cap := if decide (length buffer < VERIFY_MAX)%nat then length buffer else VERIFY_MAX in
        let chunk := (length buffer - checked)%nat in
        let chunk := if decide (chunk > cap)%nat then cap else chunk in
        let '(r, m') := infs_storage_read_policy m (u64 (offset + Z.of_nat checked)) chunk child in
        match r with
        | Bad IO_ERROR => (Good tt, m')
        | Bad e => (Bad e, m')
        | Good verify =>
            if bytes_eqb (slice checked chunk buffer) verify
            then verify_member fuel' m' offset buffer child (checked + chunk)
            else (Bad CORRUPT, m')
        end
    end
  else (Good tt, m).

(** The loop over the replicas from index [i]; [have] is the buffer once a
    replica has filled it. *)
Fixpoint read_replicas (alloc_ok : bool) (count : nat) (policy : option infs_storage_io_policy)
    (offset : Z) (size i : nat) (rs : list (infs_storage C * bool)) (have : option (list Z))
    : result (option (list Z)) * list (infs_storage C * bool) :=
  match rs with
  | [] => (Good have, [])
  | (m, healthy) :: rest =>
      let continue m' have' :=
        let '(r, rest') := read_replicas alloc_ok count policy offset size (S i) rest have' in
        (r, (m', healthy) :: rest') in
      if negb (mirror_policy_member count policy i) || negb healthy then continue m have
      else
        match have with
        | None =>
            let '(r, m') := infs_storage_read_policy m offset size (child_policy policy) in
            match r with
            | Good buffer => continue m' (Some buffer)
            | Bad IO_ERROR => continue m' None
            | Bad e => (Bad e, (m', healthy) :: rest)
            end
        | Some buffer =>
            if negb (bool_decide (size = 0%nat)) && negb alloc_ok then (Bad NO_MEMORY, rs)
            else
              let '(r, m') := verify_member size m offset buffer (child_policy policy) 0 in
              match r with
              | Good _ => continue m' have
              | Bad e => (Bad e, (m', healthy) :: rest)
              end
        end
  end.

Definition mirror_read_policy (alloc_ok : bool) (ctx : mirror_context) (offset : Z) (size : nat)
    (policy : option infs_storage_io_policy) : result (list Z) * mirror_context :=
  let count := length (replicas ctx) in
  if too_many_copies count policy then (Bad NOT_SUPPORTED, ctx)
  else
    let '(r, rs) := read_replicas alloc_ok count policy offset size 0 (replicas ctx) None in
    (match r with
     | Good (Some buffer) => Good buffer
     | Good None => Bad IO_ERROR
     | Bad e => Bad e
     end, set_replicas ctx rs).

Definition mirror_read (alloc_ok : bool) (ctx : mirror_context) (offset : Z) (size : nat) :=
  mirror_read_policy alloc_ok ctx offset size None.

(** What a write or a flush accumulates over the replicas. *)
Record tally := Tally { first_error : infs_status; attempted : bool; degraded : bool }.

Definition tally_start : tally := Tally OK false false.

(** A replica skipped because it is quarantined. *)
Definition tally_skip (t : tally) : tally := Tally (first_error t) (attempted t) true.

(** A replica that answered [status]. *)
Definition tally_status (t : tally) (status : infs_status) : tally :=
  if decide (status = OK) then Tally (first_error t) true (degraded t)
  else Tally (if decide (first_error t = OK) then status else first_error t) true true.

Definition tally_result (t : tally) : infs_status :=
  if negb (attempted t) then IO_ERROR
  else if decide (first_error t = OK) then (if degraded t then IO_ERROR else OK)
  else first_error t.

(** The loop shared by write and flush: [selected] members run [step]; a member
    whose device failed is quarantined. *)
Fixpoint run_replicas (selected : nat -> bool) (step : infs_storage C -> infs_status * infs_storage C)
    (i : nat) (rs : list (infs_storage C * bool)) (t : tally)
    : tally * list (infs_storage C * bool) :=
  match rs with
  | [] => (t, [])
  | (m, healthy) :: rest =>
      if negb (selected i) then
        let '(t', rest') := run_replicas selected step (S i) rest t in (t', (m, healthy) :: rest')
      else if negb healthy then
        let '(t', rest') := run_replicas selected step (S i) rest (tally_skip t) in
        (t', (m, healthy) :: rest')
      else
        let '(status, m') := step m in
        let healthy' := if decide (status = IO_ERROR) then false else healthy in
        let '(t', rest') := run_replicas selected step (S i) rest (tally_status t status) in
        (t', (m', healthy') :: rest')
  end.

Definition mirror_write_policy (ctx : mirror_context) (offset : Z) (buffer : list Z)
    (policy : option infs_storage_io_policy) : infs_status * mirror_context :=
  let count := length (replicas ctx) in
  if too_many_copies count policy then (NOT_SUPPORTED, ctx)
  else
    let '(t, rs) := run_replicas (mirror_policy_member count policy)
      (fun m => infs_storage_write_policy m offset buffer (child_policy policy))
      0 (replicas ctx) tally_start in
    (tally_result t, set_replicas ctx rs).

Definition mirror_write (ctx : mirror_context) (offset : Z) (buffer : list Z) :=
  mirror_write_policy ctx offset buffer None.

Definition mirror_flush (ctx : mirror_context) : infs_status * mirror_context :=
  let '(t, rs) := run_replicas (fun _ => true) infs_storage_flush 0 (replicas ctx) tally_start in
  (tally_result t, set_replicas ctx rs).

Definition mirror_size (ctx : mirror_context) : result (Z * bool) :=
  Good (size_bytes ctx, is_device ctx).

(** The failover loop of [mirror_random] and [mirror_time]: [provides] tells
    whether a member has the service. *)
Fixpoint first_provider {A} (provides : infs_storage C -> bool)
    (call : infs_storage C -> result A * infs_storage C)
    (rs : list (infs_storage C * bool)) (failure : infs_status)
    : result A * list (infs_storage C * bool) :=
  match rs with
  | [] => (Bad failure, [])
  | (m, healthy) :: rest =>
      let continue m' failure' :=
        let '(r, rest') := first_provider provides call rest failure' in
        (r, (m', healthy) :: rest') in
      if negb (provides m) then continue m failure
      else
        let '(r, m') := call m in
        match r with
        | Good a => (Good a, (m', healthy) :: rest)
        | Bad IO_ERROR => continue m' IO_ERROR
        | Bad NOT_SUPPORTED => continue m' failure
        | Bad e => (Bad e, (m', healthy) :: rest)
        end
  end.

Definition is_some {A} (o : option A) : bool := match o with Some _ => true | None => false end.

Definition mirror_random (ctx : mirror_context) (size : nat) : result (list Z) * mirror_context :=
  let '(r, rs) := first_provider (fun m => is_some (ops m ≫= random_bytes))
    (fun m => infs_storage_random m size) (replicas ctx) NOT_SUPPORTED in
  (r, set_replicas ctx rs).

Definition mirror_time (ctx : mirror_context) : result infs_timestamp * mirror_context :=
  let '(r, rs) := first_provider (fun m => is_some (ops m ≫= current_time))
    infs_storage_current_time (replicas ctx) NOT_SUPPORTED in
  (r, set_replicas ctx rs).

(** Every member is closed: the handles are cleared, and each callback received
    its context. *)
Definition mirror_close (ctx : mirror_context) : mirror_context * list (option C) :=
  (set_replicas ctx (map (fun r => ((infs_storage_close r.1).1, r.2)) (replicas ctx)),
   map (fun r => (infs_storage_close r.1).2) (replicas ctx)).

(** The capacity loop of the constructor: smallest size, all devices. *)
Fixpoint measure_members (members : list (infs_storage C)) (minimum : Z) (all_devices : bool)
    : result (Z * bool) :=
  match members with
  | [] => Good (minimum, all_devices)
  | m :: rest =>
      if negb (infs_storage_valid m) then Bad INVALID_ARGUMENT
      else match infs_storage_get_size m with
           | Bad e => Bad e
           | Good (bytes, device) =>
               if bytes =? 0 then Bad INVALID_ARGUMENT
               else measure_members rest (if bytes <? minimum then bytes else minimum)
                      (if negb device then false else all_devices)
           end
  end.

(** The admission loop: [address] is the identity of a handle's context, [alias]
    the position of the destination among the members, if it is one of them. *)
Fixpoint admit_members (address : infs_storage C -> Z) (alias : option nat) (i : nat)
    (before members : list (infs_storage C)) : bool :=
  match members with
  | [] => true
  | m :: rest =>
      if bool_decide (alias = Some i) || negb (infs_storage_valid m) then false
      else if existsb (fun m' => address m =? address m') before then false
      else admit_members address alias (S i) (before ++ [m]) rest
  end.

(** The new mirror and the caller's handles afterwards. *)
Definition infs_storage_mirror_create (address : infs_storage C -> Z) (alias : option nat)
    (calloc_ok lock_ok arrays_ok : bool) (members : list (infs_storage C))
    : result mirror_context * list (infs_storage C) :=
  if decide (length members < 2)%nat then (Bad INVALID_ARGUMENT, members)
  else if negb (admit_members address alias 0 [] members) then (Bad INVALID_ARGUMENT, members)
  else if negb calloc_ok then (Bad NO_MEMORY, members)
  else if negb lock_ok then (Bad ERROR, members)
  else if negb arrays_ok then (Bad NO_MEMORY, members)
  else match measure_members members (2 ^ 64 - 1) true with
       | Bad e => (Bad e, members)
       | Good (minimum, all_devices) =>
           (Good (Context_ (map (fun m => (m, true)) members) minimum all_devices),
            replicate (length members) (Handle None None))
       end.

End Operations.
#[global] Arguments mirror_context : clear implicits.

(** The mirror is itself a storage backend. *)
Definition mirror_ops {C} (alloc_ok : bool) : infs_storage_ops (mirror_context C) := {|
  read_at := Some (mirror_read alloc_ok);
  write_at := Some mirror_write;
  read_at_policy := Some (mirror_read_policy alloc_ok);
  write_at_policy := Some mirror_write_policy;
  flush := Some mirror_flush;
  get_size := Some mirror_size;
  random_bytes := Some mirror_random;
  current_time := Some mirror_time;
  close := Some (fun ctx => (mirror_close ctx).1)
|}.

End Mirror.

(** * Facts *)

Module MirrorFacts.
Import Storage StorageFacts Mirror.

(** ** Replica selection *)

Section Counting.
Context (f : nat -> bool).
#[local] Abbreviation count a n := (length (List.filter f (seq a n))).

Lemma count_const b a n :
  (forall i, a <= i < a + n -> f i = b)%nat -> count a n = (if b then n else 0)%nat.
Proof.
  revert a; induction n as [| n IH]; intros a Ha; [destruct b; reflexivity |].
  cbn [seq List.filter]; rewrite (Ha a) by lia.
  destruct b; cbn [length]; rewrite IH; trivial; intros i Hi; apply Ha; lia.
Qed.

Lemma count_split a n m : count a (n + m) = (count a n + count (a + n) m)%nat.
Proof. rewrite seq_app, List.filter_app, length_app; reflexivity. Qed.
End Counting.

Lemma policy_start_lt count policy :
  (0 < count)%nat -> (mirror_policy_start count policy < count)%nat.
Proof.
  intros Hc; unfold mirror_policy_start; destruct policy as [p |]; [| lia].
  rewrite decide_False by lia.
  match goal with |- (Z.to_nat (?h mod _) < _)%nat =>
    pose proof (Z.mod_pos_bound h (Z.of_nat count)) end; lia.
Qed.

(** C25.  A placement policy selects exactly as many replicas as it asks for, for
    every object identifier and every mirror width. *)
Theorem policy_selects_copies count policy :
  (0 < count)%nat -> (mirror_policy_copies count policy <= count)%nat ->
  length (List.filter (mirror_policy_member count policy) (seq 0 count)) =
  mirror_policy_copies count policy.
Proof.
  intros Hc Hle; pose proof (policy_start_lt count policy Hc) as Hs.
  unfold mirror_policy_member; set (copies := mirror_policy_copies count policy) in *.
  set (start := mirror_policy_start count policy) in *.
  destruct (decide (copies = count)) as [-> |]; [apply (count_const _ true); reflexivity |].
  destruct (decide (start + copies <= count)%nat).
  - replace (seq 0 count) with (seq 0 (start + (copies + (count - start - copies)))) by (f_equal; lia).
    rewrite !count_split, (count_const _ false), (count_const _ true), (count_const _ false);
      [lia | ..]; intros i Hi; case_decide; first [apply bool_decide_eq_true | apply bool_decide_eq_false]; lia.
  - replace (seq 0 count) with (seq 0 ((start + copies - count) + ((count - copies) + (count - start))))
      by (f_equal; lia).
    rewrite !count_split, (count_const _ true), (count_const _ false), (count_const _ true);
      [lia | ..]; intros i Hi; case_decide; first [apply bool_decide_eq_true | apply bool_decide_eq_false]; lia.
Qed.

Lemma policy_selects_copies_witness :
  length (List.filter (mirror_policy_member 3 (Some (Policy (replicate 16 9) 2 0))) (seq 0 3)) =
  mirror_policy_copies 3 (Some (Policy (replicate 16 9) 2 0)).
Proof. apply policy_selects_copies; [lia | vm_compute; lia]. Defined.

(** ** Reads *)

Section Reads.
Context {C : Type} (image : C -> list Z).
#[local] Abbreviation replica := (infs_storage C * bool)%type.

(** The media behind the replicas. *)
Definition media (rs : list replica) (imgs : list (list Z)) : Prop :=
  Forall2 (fun r img => holds image r.1 img) rs imgs.

Lemma verify_member_holds fuel m img off buffer child checked r m' :
  holds image m img -> verify_member fuel m off buffer child checked = (r, m') -> holds image m' img.
Proof.
  revert m checked; induction fuel as [| fuel IH]; intros m checked Hh; cbn [verify_member];
    case_decide; try (intros [= <- <-]; assumption).
  destruct (infs_storage_read_policy _ _ _ _) as [r0 m0] eqn:Er.
  apply (read_policy_sound image) with (img := img) in Er as [Hm0 _]; [| assumption].
  destruct r0 as [v | []]; try (intros [= <- <-]; assumption).
  case_if E; [apply IH, Hm0 | intros [= <- <-]; assumption].
Qed.

(** A read never changes a medium, whatever it returns. *)
Lemma read_replicas_media alloc count policy off size i rs imgs have r rs' :
  media rs imgs -> read_replicas alloc count policy off size i rs have = (r, rs') ->
  media rs' imgs /\ rs'.*2 = rs.*2.
Proof.
  intros Hm; revert i have r rs'; induction Hm as [| [m h] img rs imgs Hh Hm IH];
    intros i have r rs'; cbn [read_replicas]; [intros [= <- <-]; split; [constructor | reflexivity] |].
  assert (Hcont : forall m' have', holds image m' img ->
    (let '(r0, rest') := read_replicas alloc count policy off size (S i) rs have' in
     (r0, (m', h) :: rest')) = (r, rs') -> media rs' (img :: imgs) /\ rs'.*2 = ((m, h) :: rs).*2).
  { intros m' have' Hm'; destruct (read_replicas _ _ _ _ _ _ _ _) as [r0 rest'] eqn:Er.
    intros [= <- <-]; apply IH in Er as [? Hs]; split; [constructor; assumption | cbn; f_equal; exact Hs]. }
  assert (Hstop : forall m', holds image m' img ->
    media ((m', h) :: rs) (img :: imgs) /\ ((m', h) :: rs).*2 = ((m, h) :: rs).*2).
  { intros; split; [constructor; assumption | reflexivity]. }
  case_if E; [apply Hcont, Hh |]; destruct have as [buffer |].
  - case_if E2; [intros [= <- <-]; apply Hstop, Hh |].
    destruct (verify_member _ _ _ _ _ _) as [r0 m'] eqn:Ev.
    apply verify_member_holds with (img := img) in Ev; [| assumption].
    destruct r0; [apply Hcont, Ev | intros [= <- <-]; apply Hstop, Ev].
  - destruct (infs_storage_read_policy _ _ _ _) as [r0 m'] eqn:Er.
    apply (read_policy_sound image) with (img := img) in Er as [Hm' _]; [| assumption].
    destruct r0 as [v | []]; try (apply Hcont, Hm'); intros [= <- <-]; apply Hstop, Hm'.
Qed.

(** Replicas whose device answers reads of the range: a property kept by reading. *)
Context (policy : option infs_storage_io_policy) (off : Z) (size : nat).
Context (R : infs_storage C -> Prop).
Hypothesis R_reads : forall m o k r m',
  R m -> off <= o -> o + Z.of_nat k <= off + Z.of_nat size ->
  infs_storage_read_policy m o k (child_policy policy) = (r, m') -> r <> Bad IO_ERROR /\ R m'.
Hypothesis Hrange : 0 <= off /\ off + Z.of_nat size < 2 ^ 64.

Lemma verify_member_agrees fuel m img buffer checked m' :
  holds image m img -> R m -> length buffer = size -> (size - checked <= fuel)%nat ->
  verify_member fuel m off buffer (child_policy policy) checked = (Good tt, m') ->
  drop checked buffer = slice (Z.to_nat off + checked) (size - checked) img.
Proof.
  intros Hh HR Hl; revert m checked Hh HR; induction fuel as [| fuel IH];
    intros m checked Hh HR Hf; cbn [verify_member]; case_decide as Hc.
  - lia.
  - intros _; replace (size - checked)%nat with 0%nat by lia; rewrite drop_ge by lia; reflexivity.
  - set (cap := if decide (length buffer < _)%nat then _ else _).
    set (chunk := if decide (_ > cap)%nat then _ else _).
    assert (Hch : (1 <= chunk <= size - checked)%nat).
    { unfold chunk, cap, VERIFY_MAX; repeat case_decide; lia. }
    rewrite (wrap_small 64) by (split; lia).
    destruct (infs_storage_read_policy _ _ _ _) as [r0 m0] eqn:Er.
    pose proof Er as Hr0; apply R_reads in Hr0 as [Hne HR0]; [| assumption | lia | lia].
    apply (read_policy_sound image) with (img := img) in Er as [Hm0 Hbs]; [| assumption].
    destruct r0 as [v | []]; try discriminate; [| congruence].
    case_if E; [| discriminate]; apply bytes_eqb_eq in E; intros Hv.
    apply IH in Hv; trivial; [| lia].
    destruct (Hbs v eq_refl) as [Hvs _].
    rewrite <- (take_drop chunk (drop checked buffer)), drop_drop, Hv.
    change (take chunk (drop checked buffer)) with (slice checked chunk buffer); rewrite E, Hvs.
    unfold slice; rewrite Z2Nat.inj_add, Nat2Z.id by lia.
    replace (size - checked)%nat with (chunk + (size - (checked + chunk)))%nat by lia.
    rewrite <- take_take_drop, drop_drop, Nat.add_assoc; reflexivity.
  - intros _; replace (size - checked)%nat with 0%nat by lia; rewrite drop_ge by lia; reflexivity.
Qed.

Lemma read_replicas_agree alloc count i rs imgs have buffer rs' :
  media rs imgs -> (forall b, have = Some b -> length b = size) ->
  read_replicas alloc count policy off size i rs have = (Good (Some buffer), rs') ->
  (have = Some buffer \/
   exists k m img, rs !! k = Some (m, true) /\ imgs !! k = Some img /\
     mirror_policy_member count policy (i + k) = true /\ buffer = slice (Z.to_nat off) size img) /\
  (forall b, have = Some b -> b = buffer) /\
  (forall k m img, rs !! k = Some (m, true) -> imgs !! k = Some img -> R m ->
     mirror_policy_member count policy (i + k) = true -> buffer = slice (Z.to_nat off) size img).
Proof.
  intros Hm; revert i have rs'; induction Hm as [| [m h] img rs imgs Hh Hm IH];
    intros i have rs' Hlen; cbn [read_replicas].
  { intros [= -> <-]; split_and!; [auto | congruence | intros k; rewrite lookup_nil; discriminate]. }
  assert (Hcont : forall m' have', (forall b, have' = Some b -> length b = size) ->
    (let '(r0, rest') := read_replicas alloc count policy off size (S i) rs have' in
     (r0, (m', h) :: rest')) = (Good (Some buffer), rs') ->
    (have' = Some buffer \/
     exists k m0 img0, rs !! k = Some (m0, true) /\ imgs !! k = Some img0 /\
       mirror_policy_member count policy (i + S k) = true /\ buffer = slice (Z.to_nat off) size img0) /\
    (forall b, have' = Some b -> b = buffer) /\
    (forall k m0 img0, rs !! k = Some (m0, true) -> imgs !! k = Some img0 -> R m0 ->
       mirror_policy_member count policy (i + S k) = true -> buffer = slice (Z.to_nat off) size img0)).
  { intros m' have' Hl; destruct (read_replicas _ _ _ _ _ _ _ _) as [r0 rest'] eqn:Er.
    intros [= -> <-]; apply IH in Er as (H1 & H2 & H3); [| assumption].
    split_and!; trivial; [destruct H1 as [? | (k & m0 & img0 & Hk)]; [auto | right; exists k, m0, img0]
                         | intros k; specialize (H3 k)]; rewrite Nat.add_succ_r; trivial. }
  case_if E.
  { intros Hr; apply Hcont in Hr as (H1 & H2 & H3); [| assumption]; split_and!; trivial.
    - destruct H1 as [? | (k & m0 & img0 & Hk)]; [auto | right; exists (S k), m0, img0; exact Hk].
    - intros [| k] m0 img0; cbn; [intros [= -> ->] [= ->] _ Hs | apply H3].
      rewrite Nat.add_0_r in Hs; rewrite Hs in E; discriminate. }
  apply orb_false_iff in E as [Hsel Hhe]; apply negb_false_iff in Hsel, Hhe; subst h.
  destruct have as [b |].
  - case_if E2; [discriminate |]; destruct (verify_member _ _ _ _ _ _) as [r0 m'] eqn:Ev.
    destruct r0 as [[] |]; [| discriminate]; intros Hr.
    apply Hcont in Hr as (H1 & H2 & H3); [| assumption].
    specialize (H2 b eq_refl); subst b; split_and!; [auto | congruence |].
    intros [| k] m0 img0; cbn; [intros [= <-] [= <-] HR0 _ | apply H3].
    apply (verify_member_agrees _ _ img) in Ev; auto; [| lia].
    rewrite drop_0, Nat.add_0_r, Nat.sub_0_r in Ev; exact Ev.
  - destruct (infs_storage_read_policy _ _ _ _) as [r0 m'] eqn:Er.
    pose proof Er as Er'; apply (read_policy_sound image) with (img := img) in Er as [_ Hbs]; [| assumption].
    destruct r0 as [v | []]; try discriminate; intros Hr.
    + destruct (Hbs v eq_refl) as [-> Hlv].
      apply Hcont in Hr as (H1 & H2 & H3); [| congruence].
      specialize (H2 _ eq_refl); subst buffer; split_and!; [| congruence |].
      * right; exists 0%nat, m, img; rewrite Nat.add_0_r; auto.
      * intros [| k] m0 img0; cbn; [intros [= <-] [= <-] _ _; reflexivity | apply H3].
    + apply Hcont in Hr as (H1 & H2 & H3); [| congruence]; split_and!; [| congruence |].
      * destruct H1 as [? | (k & m0 & img0 & Hk)]; [congruence | right; exists (S k), m0, img0; exact Hk].
      * intros [| k] m0 img0; cbn; [intros [= <-] [= <-] HR0 _ | apply H3].
        apply R_reads in Er' as [? _]; trivial; lia || congruence.
Qed.

End Reads.

Section ReadTheorems.
Context {C : Type} (image : C -> list Z).

Lemma mirror_read_good alloc ctx off size policy bs ctx' :
  mirror_read_policy alloc ctx off size policy = (Good bs, ctx') ->
  read_replicas alloc (length (replicas ctx)) policy off size 0 (replicas ctx) None
    = (Good (Some bs), replicas (C := C) ctx').
Proof.
  unfold mirror_read_policy; case_if E; [discriminate |].
  destruct (read_replicas _ _ _ _ _ _ _ _) as [[[b |] | e] rs]; intros [= <- <-]; reflexivity.
Qed.

(** C21.  A mirrored read that succeeds returns the bytes of a selected healthy
    replica, agrees with every selected healthy replica whose device answers, and
    changes no medium. *)
Theorem mirror_read_cross_checked alloc (ctx ctx' : mirror_context C) imgs off size policy bs
    (R : infs_storage C -> Prop) :
  media image (replicas ctx) imgs ->
  0 <= off -> off + Z.of_nat size < 2 ^ 64 ->
  (forall m o k r m', R m -> off <= o -> o + Z.of_nat k <= off + Z.of_nat size ->
     infs_storage_read_policy m o k (child_policy policy) = (r, m') -> r <> Bad IO_ERROR /\ R m') ->
  mirror_read_policy alloc ctx off size policy = (Good bs, ctx') ->
  media image (replicas ctx') imgs /\
  (exists k m img, replicas ctx !! k = Some (m, true) /\ imgs !! k = Some img /\
     mirror_policy_member (length (replicas ctx)) policy k = true /\
     bs = slice (Z.to_nat off) size img) /\
  (forall k m img, replicas ctx !! k = Some (m, true) -> imgs !! k = Some img -> R m ->
     mirror_policy_member (length (replicas ctx)) policy k = true ->
     bs = slice (Z.to_nat off) size img).
Proof.
  intros Hm H0 H1 HR Hr; apply mirror_read_good in Hr.
  pose proof (read_replicas_media _ _ _ _ _ _ _ _ _ _ _ _ Hm Hr) as [Hm' _].
  eapply (read_replicas_agree image policy off size R) in Hr as (Hp & _ & Ha); eauto; try congruence.
  split_and!; trivial; destruct Hp as [? | Hp]; [discriminate | exact Hp].
Qed.

(** A quarantined replica has no influence on what a read returns. *)
Definition same_healthy (r1 r2 : infs_storage C * bool) : Prop :=
  r1.2 = r2.2 /\ (r1.2 = true -> r1.1 = r2.1).

Lemma read_replicas_quarantine alloc count policy off size i rs1 rs2 have :
  Forall2 same_healthy rs1 rs2 ->
  (read_replicas alloc count policy off size i rs1 have).1 =
  (read_replicas alloc count policy off size i rs2 have).1.
Proof.
  intros Hs; revert i have; induction Hs as [| [m1 h1] [m2 h2] rs1 rs2 [Hh Hm] Hs IH];
    intros i have; [reflexivity |]; cbn in Hh, Hm; subst h2.
  assert (Hcont : forall (m1' m2' : infs_storage C) have',
    (let '(r, rest') := read_replicas alloc count policy off size (S i) rs1 have' in
     (r, (m1', h1) :: rest')).1 =
    (let '(r, rest') := read_replicas alloc count policy off size (S i) rs2 have' in
     (r, (m2', h1) :: rest')).1).
  { intros m1' m2' have'; specialize (IH (S i) have').
    destruct (read_replicas _ _ _ _ _ _ rs1 _), (read_replicas _ _ _ _ _ _ rs2 _); exact IH. }
  cbn [read_replicas]; destruct h1; [rewrite <- (Hm eq_refl) | rewrite orb_true_r; apply Hcont].
  case_if E; [apply Hcont |]; destruct have as [b |].
  - case_if E2; [reflexivity |]; destruct (verify_member _ _ _ _ _ _) as [[] m']; [apply Hcont | reflexivity].
  - destruct (infs_storage_read_policy _ _ _ _) as [[v | []] m']; reflexivity || apply Hcont.
Qed.

(** C24.  What a quarantined replica holds has no influence on a read: two
    mirrors that differ only in their quarantined replicas answer alike. *)
Theorem mirror_read_ignores_quarantined alloc (ctx1 ctx2 : mirror_context C) off size policy :
  Forall2 same_healthy (replicas ctx1) (replicas ctx2) ->
  (mirror_read_policy alloc ctx1 off size policy).1 =
  (mirror_read_policy alloc ctx2 off size policy).1.
Proof.
  intros Hs; unfold mirror_read_policy; rewrite (Forall2_length _ _ _ Hs).
  case_if E; [reflexivity |].
  pose proof (read_replicas_quarantine alloc (length (replicas ctx2)) policy off size 0 _ _ None Hs) as Hq.
  destruct (read_replicas _ _ _ _ _ _ (replicas ctx1) _), (read_replicas _ _ _ _ _ _ (replicas ctx2) _).
  cbn in *; subst; reflexivity.
Qed.
End ReadTheorems.

(** Two replicas of a four-byte medium, the second stale and quarantined. *)
Definition sample_mirror (stale : list Z) : mirror_context ram :=
  Context_ [(ram_storage [1; 2; 3; 4] false, true); (ram_storage stale false, false);
            (ram_storage [1; 2; 3; 4] false, true)] 4 false.

Lemma mirror_read_ignores_quarantined_witness :
  (mirror_read_policy true (sample_mirror [9; 9; 9; 9]) 1 2 None).1 =
  (mirror_read_policy true (sample_mirror [1; 2; 3; 4]) 1 2 None).1.
Proof.
  apply mirror_read_ignores_quarantined.
  repeat constructor; cbn; congruence.
Defined.

Lemma mirror_read_cross_checked_witness :
  media bytes (replicas (sample_mirror [9; 9; 9; 9])) [[1; 2; 3; 4]; [9; 9; 9; 9]; [1; 2; 3; 4]] /\
  (exists k m img, replicas (sample_mirror [9; 9; 9; 9]) !! k = Some (m, true) /\
     [[1; 2; 3; 4]; [9; 9; 9; 9]; [1; 2; 3; 4]] !! k = Some img /\
     mirror_policy_member 3 None k = true /\ [2; 3] = slice (Z.to_nat 1) 2 img) /\
  (forall k m img, replicas (sample_mirror [9; 9; 9; 9]) !! k = Some (m, true) ->
     [[1; 2; 3; 4]; [9; 9; 9; 9]; [1; 2; 3; 4]] !! k = Some img ->
     m = ram_storage [1; 2; 3; 4] false ->
     mirror_policy_member 3 None k = true -> [2; 3] = slice (Z.to_nat 1) 2 img).
Proof.
  apply (mirror_read_cross_checked bytes true (sample_mirror [9; 9; 9; 9])
           (sample_mirror [9; 9; 9; 9]) [[1; 2; 3; 4]; [9; 9; 9; 9]; [1; 2; 3; 4]] 1 2 None [2; 3]
           (fun m => m = ram_storage [1; 2; 3; 4] false)).
  - repeat constructor; apply ram_holds.
  - lia.
  - lia.
  - intros m o k r m' -> Ho Hk; unfold infs_storage_read_policy, dispatch; cbn.
    unfold ram_read; cbn; rewrite bool_decide_eq_false_2 by lia.
    intros [= <- <-]; split; [discriminate | reflexivity].
  - vm_compute; reflexivity.
Defined.

(** ** Writes *)

Section Writes.
Context {C : Type} (image : C -> list Z).

(** Once an error or a degradation is recorded it stays. *)
Lemma run_replicas_sticky sel step i (rs rs' : list (infs_storage C * bool)) t t' :
  run_replicas sel step i rs t = (t', rs') ->
  first_error t' = OK -> degraded t' = false -> first_error t = OK /\ degraded t = false.
Proof.
  revert i rs' t; induction rs as [| [m h] rs IH]; intros i rs' t; cbn [run_replicas].
  { intros [= <- <-]; auto. }
  assert (Hcont : forall t0 x, (let '(t1, rest') := run_replicas sel step (S i) rs t0 in
     (t1, x :: rest')) = (t', rs') -> first_error t' = OK -> degraded t' = false ->
     first_error t0 = OK /\ degraded t0 = false).
  { intros t0 x; destruct (run_replicas _ _ _ _ _) as [t1 rest'] eqn:Er; intros [= <- <-]; eapply IH, Er. }
  destruct (negb (sel i)); [apply Hcont |]; destruct (negb h).
  { intros Hr He Hd; apply Hcont in Hr as [_ ?]; trivial; discriminate. }
  destruct (step m) as [status m']; intros Hr He Hd; apply Hcont in Hr as [H1 H2]; trivial.
  unfold tally_status in *; case_decide; cbn in *; [auto | discriminate].
Qed.

Definition written (sel : nat -> bool) (off : Z) (bs : list Z) (i : nat) (imgs : list (list Z)) :=
  imap (fun k img => if sel (i + k)%nat then splice (Z.to_nat off) bs img else img) imgs.

Lemma run_replicas_write sel off bs child i (rs rs' : list (infs_storage C * bool)) imgs t t' :
  media image rs imgs ->
  run_replicas sel (fun m => infs_storage_write_policy m off bs child) i rs t = (t', rs') ->
  first_error t' = OK -> degraded t' = false ->
  media image rs' (written sel off bs i imgs) /\ rs'.*2 = rs.*2 /\
  (forall k img, sel (i + k)%nat = true -> imgs !! k = Some img ->
     rs.*2 !! k = Some true /\ (Z.to_nat off + length bs <= length img)%nat).
Proof.
  intros Hm; revert i rs' t; induction Hm as [| [m h] img rs imgs Hh Hm IH];
    intros i rs' t Hr He Hd; cbn [run_replicas] in Hr.
  { injection Hr as <- <-; split_and!; [constructor | reflexivity | intros k ? _; rewrite lookup_nil; discriminate]. }
  assert (Hw : forall b, sel i = b -> written sel off bs i (img :: imgs) =
    (if b then splice (Z.to_nat off) bs img else img) :: written sel off bs (S i) imgs).
  { intros b Hb; unfold written; rewrite imap_cons, Nat.add_0_r, Hb; f_equal.
    apply imap_ext; intros k x _; cbn; rewrite Nat.add_succ_r; reflexivity. }
  assert (Hcont : forall m0 h0 t0 img0, holds image m0 img0 ->
    (let '(t1, rest') := run_replicas sel (fun m => infs_storage_write_policy m off bs child) (S i) rs t0 in
     (t1, (m0, h0) :: rest')) = (t', rs') ->
    (first_error t0 = OK /\ degraded t0 = false) /\
    media image rs' (img0 :: written sel off bs (S i) imgs) /\ rs'.*2 = h0 :: rs.*2 /\
    (forall k img1, sel (i + S k)%nat = true -> imgs !! k = Some img1 ->
       rs.*2 !! k = Some true /\ (Z.to_nat off + length bs <= length img1)%nat)).
  { intros m0 h0 t0 img0 Hh0; destruct (run_replicas _ _ (S i) rs t0) as [t1 rest'] eqn:Er.
    intros [= <- <-]; split; [eapply run_replicas_sticky; eassumption |].
    apply IH in Er as (H1 & H2 & H3); trivial; split_and!; [constructor; assumption | cbn; f_equal; exact H2 |].
    intros k img1; rewrite Nat.add_succ_r; apply H3. }
  destruct (sel i) eqn:Es; cbn [negb] in Hr; [destruct h; cbn [negb] in Hr |].
  - destruct (infs_storage_write_policy _ _ _ _) as [e m'] eqn:Ew.
    apply (write_policy_sound image) with (img := img) in Ew as (img' & Hh' & _ & _ & Hok); [| assumption].
    apply (Hcont _ _ _ img' Hh') in Hr as ([Ht1 Ht2] & H1 & H2 & H3).
    assert (e = OK) as ->.
    { unfold tally_status in Ht2; destruct (decide (e = OK)); [assumption | discriminate]. }
    destruct (Hok eq_refl) as [Hle ->]; rewrite (Hw true eq_refl); split_and!; trivial.
    intros [| k] img1; [intros _ [= <-]; split; [reflexivity | assumption] | apply H3].
  - apply (Hcont _ _ _ img Hh) in Hr as ([_ Ht] & _); discriminate.
  - apply (Hcont _ _ _ img Hh) in Hr as (_ & H1 & H2 & H3); rewrite (Hw false eq_refl); split_and!; trivial.
    intros [| k] img1; [rewrite Nat.add_0_r; congruence | apply H3].
Qed.

Lemma tally_ok t : tally_result t = OK -> first_error t = OK /\ degraded t = false.
Proof.
  unfold tally_result; case_if E; [discriminate |]; case_decide; [| congruence].
  destruct (degraded t); [discriminate | auto].
Qed.

(** C22.  A mirrored write reports success only when every selected replica was
    healthy and now holds the new bytes; the others are untouched. *)
Theorem mirror_write_replicates (ctx ctx' : mirror_context C) imgs off bs policy :
  media image (replicas ctx) imgs ->
  mirror_write_policy ctx off bs policy = (OK, ctx') ->
  media image (replicas ctx')
    (written (mirror_policy_member (length (replicas ctx)) policy) off bs 0 imgs) /\
  (replicas ctx').*2 = (replicas ctx).*2 /\
  (forall k img, mirror_policy_member (length (replicas ctx)) policy k = true ->
     imgs !! k = Some img -> (replicas ctx).*2 !! k = Some true).
Proof.
  intros Hm; unfold mirror_write_policy; case_if E; [discriminate |].
  destruct (run_replicas _ _ _ _ _) as [t rs] eqn:Er; intros [= Ht <-]; cbn [replicas set_replicas].
  apply tally_ok in Ht as [He Hd].
  apply (run_replicas_write _ _ _ _ _ _ _ imgs) in Er as (H1 & H2 & H3); trivial.
  split_and!; trivial; intros k img Hk Hi; eapply H3; eassumption.
Qed.

End Writes.

Lemma mirror_write_replicates_witness :
  media bytes [(ram_storage [1; 7; 7; 4] false, true); (ram_storage [1; 7; 7; 4] false, true)]
    [[1; 7; 7; 4]; [1; 7; 7; 4]] /\
  [true; true] = [true; true] /\
  (forall k img, mirror_policy_member 2 None k = true ->
     [[1; 2; 3; 4]; [1; 2; 3; 4]] !! k = Some img -> [true; true] !! k = Some true).
Proof.
  apply (mirror_write_replicates bytes
    (Context_ [(ram_storage [1; 2; 3; 4] false, true); (ram_storage [1; 2; 3; 4] false, true)] 4 false)
    (Context_ [(ram_storage [1; 7; 7; 4] false, true); (ram_storage [1; 7; 7; 4] false, true)] 4 false)
    [[1; 2; 3; 4]; [1; 2; 3; 4]] 1 [7; 7] None).
  - repeat constructor; apply ram_holds.
  - vm_compute; reflexivity.
Defined.


End MirrorFacts.
