(* ===== verification/Objects.v ===== *)
(** Self-checking metadata blocks of [src/src/fs.c]: superblocks, persistent
    objects with their per-type payload shapes, metadata pages and allocation
    pages.

    A block is its 4096 bytes.  Every kind of block carries a 32-byte checksum
    field whose first eight bytes are the CRC64 of the block with the field
    zeroed; [seal] and [seal_ok] are that common part.  A [finalize] routine
    checks the header, clears what lies behind the payload and seals; a
    [validate] routine checks everything again.  Null-pointer tests have no
    counterpart.  UTF-8 validation and the accelerated digest are the parameters
    of [Platform]. *)

From stdpp Require Import prelude.
From S2P Require Import Prelude Endian Checksum Format Security.
#[local] Open Scope Z_scope.

(** * Definitions *)

Module Objects.
Import Security.

Section Blocks.
Context {E : Endian} {P : Platform}.

(** ** The checksum field *)

Definition block_crc_with_zeroed_checksum (block : list Z) (off size : nat) : Z :=
  Crc64.infs_crc64_ecma (splice off (replicate size 0) block).

(** [memset (block + off, 0, 32)], then the CRC is stored at [off]. *)
Definition seal (off : nat) (block : list Z) : list Z :=
  let block := splice off (replicate 32 0) block in
  splice off (store_le64 (block_crc_with_zeroed_checksum block off 32)) block.

(** The final tests of the validators: the unused checksum bytes are zero and the
    stored CRC is the computed one. *)
Definition seal_ok (off : nat) (block : list Z) : bool :=
  bytes_are_zero (slice (off + 8) 24 block) &&
  (le64_at off block =? block_crc_with_zeroed_checksum block off 32).

(** [memset (block + from, 0, INFS_BLOCK_SIZE - from)]. *)
Definition clear_from (from : nat) (block : list Z) : list Z :=
  splice from (replicate (INFS_BLOCK_SIZE - from) 0) block.

Definition zero_from (from : nat) (block : list Z) : bool :=
  bytes_are_zero (slice from (INFS_BLOCK_SIZE - from) block).

(** [memchr (l, 0, n)] as an index. *)
Fixpoint memchr0 (l : list Z) : option nat :=
  match l with
  | [] => None
  | b :: t => if b =? 0 then Some 0%nat else S <$> memchr0 t
  end.

(** ** Superblocks *)

Definition superblock_label_valid (label : list Z) : bool :=
  match memchr0 label with
  | None => false
  | Some len =>
      if negb (bool_decide (len = 0%nat)) && negb (infs_utf8_validate (take len label)) then false
      else forallb (fun i => label !!! i =? 0) (seq (len + 1) (INFS_LABEL_MAX - (len + 1)))
  end.

Definition sb_format_major (b : list Z) : Z := le16_at 8 b.
Definition sb_format_minor (b : list Z) : Z := le16_at 10 b.
Definition sb_header_size (b : list Z) : Z := le16_at 12 b.
Definition sb_block_shift (b : list Z) : Z := le16_at 14 b.
Definition sb_checksum_type (b : list Z) : Z := le32_at 16 b.
Definition sb_generation (b : list Z) : Z := le64_at 20 b.
Definition sb_total_blocks (b : list Z) : Z := le64_at 28 b.
Definition sb_free_blocks (b : list Z) : Z := le64_at 36 b.
Definition sb_checkpoint_block (b : list Z) (i : nat) : Z := le64_at (76 + 8 * i) b.
Definition sb_filesystem_uuid (b : list Z) : list Z := slice 100 16 b.
Definition sb_root_object_id (b : list Z) : list Z := slice 116 16 b.
Definition sb_incompat_flags (b : list Z) : Z := le64_at 148 b.
Definition sb_label (b : list Z) : list Z := slice 156 64 b.
Definition sb_checksum_off : nat := 220.
Definition sb_size : nat := 252.

(** [sb] is the 252-byte structure. *)
Definition infs_encode_superblock (sb : list Z) : result (list Z) :=
  if negb (superblock_label_valid (sb_label sb)) ||
     negb (id_is_nonzero (sb_filesystem_uuid sb)) || negb (id_is_nonzero (sb_root_object_id sb))
  then Bad INVALID_ARGUMENT
  else Good (seal sb_checksum_off (splice 0 (take sb_size sb) (replicate INFS_BLOCK_SIZE 0))).

Definition required_incompat_flags : Z :=
  INFS_INCOMPAT_UTF8_NAMES .| INFS_INCOMPAT_SPARSE_EXTENTS .| INFS_INCOMPAT_UNICODE_NORM_V1.

(** The field tests of the superblock validator. *)
Definition superblock_fields_ok (block : list Z) (expected_minor : Z) : bool :=
  bytes_eqb (slice 0 8 block) INFS_MAGIC &&
  (sb_format_major block =? INFS_FORMAT_MAJOR) &&
  (sb_format_minor block =? expected_minor) &&
  (sb_header_size block =? Z.of_nat sb_size) &&
  (sb_block_shift block =? INFS_BLOCK_SHIFT) &&
  (sb_checksum_type block =? INFS_CHECKSUM_CRC64_ECMA) &&
  negb (sb_generation block =? 0) &&
  id_is_nonzero (sb_filesystem_uuid block) && id_is_nonzero (sb_root_object_id block) &&
  superblock_label_valid (sb_label block) &&
  (Z.ldiff (sb_incompat_flags block) INFS_KNOWN_INCOMPAT_FLAGS =? 0) &&
  ((sb_incompat_flags block .& required_incompat_flags) =? required_incompat_flags).

Definition INFS_LOCATOR_FORMAT_MINOR : Z := 19.

Definition infs_validate_superblock_block_minor (block : list Z) (expected_minor : Z) : bool :=
  if negb (expected_minor =? INFS_FORMAT_MINOR) && negb (expected_minor =? INFS_LOCATOR_FORMAT_MINOR)
  then false
  else superblock_fields_ok block expected_minor && zero_from sb_size block &&
       seal_ok sb_checksum_off block.

Definition infs_validate_superblock_block (block : list Z) : bool :=
  infs_validate_superblock_block_minor block INFS_FORMAT_MINOR.

Definition infs_decode_superblock (block : list Z) : result (list Z) :=
  if negb (infs_validate_superblock_block block) then Bad INVALID_ARGUMENT
  else Good (slice 0 sb_size block).

(** ** Object headers *)

Definition hdr_size : nat := 96.
Definition hdr_checksum_off : nat := 64.
Definition h_object_type (b : list Z) : Z := le16_at 8 b.
Definition h_object_version (b : list Z) : Z := le16_at 10 b.
Definition h_header_size (b : list Z) : Z := le32_at 12 b.
Definition h_generation (b : list Z) : Z := le64_at 16 b.
Definition h_object_id (b : list Z) : list Z := slice 24 16 b.
Definition h_parent_id (b : list Z) : list Z := slice 40 16 b.
Definition h_payload_size (b : list Z) : Z := le32_at 56 b.
Definition h_checksum_type (b : list Z) : Z := le32_at 60 b.

Definition object_type_valid (type : Z) : bool :=
  (type =? INFS_OBJECT_DIRECTORY) || (type =? INFS_OBJECT_FILE) ||
  (type =? INFS_OBJECT_INDEX) || (type =? INFS_OBJECT_CHECKSUM) ||
  (type =? INFS_OBJECT_SYMLINK) || (type =? INFS_OBJECT_SNAPSHOT_CATALOG) ||
  (type =? INFS_OBJECT_PRINCIPAL) || (type =? INFS_OBJECT_SECURITY) ||
  (type =? INFS_OBJECT_SECURITY_BINDING) || (type =? INFS_OBJECT_EXTENSION) ||
  (type =? INFS_OBJECT_METADATA_SET) || (type =? INFS_OBJECT_NAMED_STREAM).

Definition object_version_valid (type version : Z) : bool :=
  if version =? INFS_OBJECT_VERSION_CLASSIC then true
  else if version =? INFS_OBJECT_VERSION_PAGED then
    (type =? INFS_OBJECT_DIRECTORY) || (type =? INFS_OBJECT_INDEX) ||
    (type =? INFS_OBJECT_FILE) || (type =? INFS_OBJECT_NAMED_STREAM) ||
    (type =? INFS_OBJECT_SNAPSHOT_CATALOG) || (type =? INFS_OBJECT_SECURITY)
  else (version =? INFS_OBJECT_VERSION_TREE) &&
       ((type =? INFS_OBJECT_INDEX) || (type =? INFS_OBJECT_DIRECTORY) ||
        (type =? INFS_OBJECT_FILE) || (type =? INFS_OBJECT_NAMED_STREAM)).

(** ** Payload shapes.  The payload starts at byte 96 of the block. *)

Definition index_payload_shape_valid (block : list Z) (payload_size object_version : Z) : bool :=
  if payload_size <? sz index_payload_layout then false
  else
    let count := le32_at 96 block in
    let reserved := le32_at 100 block in
    if object_version =? INFS_OBJECT_VERSION_CLASSIC then
      let max_entries := (block_size - sz object_header_layout - sz index_payload_layout)
                         / sz index_entry_layout in
      if negb (reserved =? 0) || (count >? max_entries) then false
      else sz index_payload_layout + count * sz index_entry_layout =? payload_size
    else if object_version =? INFS_OBJECT_VERSION_TREE then
      if negb (reserved =? 0) || (count =? 0) ||
         negb (payload_size =? sz index_payload_layout + 8) then false
      else negb (le64_at 104 block =? 0)
    else
      let page_count := reserved in
      if (page_count >? INFS_INDEX_PAGE_POINTERS) ||
         ((count =? 0) && negb (page_count =? 0)) ||
         (negb (count =? 0) && (page_count =? 0)) ||
         (count >? page_count * INFS_INDEX_ENTRIES_PER_PAGE) then false
      else sz index_payload_layout + page_count * 8 =? payload_size.

Definition symlink_payload_shape_valid (block : list Z) (payload_size : Z) : bool :=
  if payload_size <? sz symlink_payload_layout then false
  else
    let len := le32_at 232 block in
    if (len =? 0) || (len >? INFS_SYMLINK_TARGET_MAX) || negb (le32_at 236 block =? 0) ||
       negb (payload_size =? sz symlink_payload_layout + len) ||
       negb (le64_at 96 block =? len) then false
    else
      let target := slice 240 (Z.to_nat len) block in
      match memchr0 target with Some _ => false | None => infs_utf8_validate target end.

(** A 76-byte binding record. *)
Definition security_binding_disk_valid (d : list Z) : bool :=
  if negb (le16_at 6 d =? 0) then false
  else
    let size := le16_at 4 d in
    if size >? INFS_SECURITY_BINDING_MAX then false
    else
      let decoded := Binding (le16_at 0 d) (le16_at 2 d) size
                       (splice 0 (slice 8 (Z.to_nat size) d) zero_value) in
      if negb (infs_security_binding_is_valid decoded) then false
      else forallb (fun i => d !!! (8 + i)%nat =? 0)
             (seq (Z.to_nat size) (Z.to_nat INFS_SECURITY_BINDING_MAX - Z.to_nat size)).

(** [&bindings[i]]. *)
Definition binding_record (block : list Z) (i : nat) : list Z := slice (112 + 76 * i) 76 block.

Definition bindings_equal (a b : list Z) : bool :=
  bytes_eqb (slice 0 2 a) (slice 0 2 b) && bytes_eqb (slice 4 2 a) (slice 4 2 b) &&
  bytes_eqb (slice 8 (Z.to_nat (le16_at 4 a)) a) (slice 8 (Z.to_nat (le16_at 4 a)) b).

Definition principal_payload_shape_valid (block : list Z) (payload_size : Z) : bool :=
  if payload_size <? sz principal_payload_layout then false
  else
    let count := le16_at 100 block in
    let kind := le16_at 98 block in
    let bytes := le32_at 104 block in
    if negb (le16_at 96 block =? INFS_SECURITY_VERSION) ||
       (kind <? INFS_PRINCIPAL_USER) || (kind >? INFS_PRINCIPAL_SERVICE) ||
       negb (le16_at 102 block =? 0) || negb (le32_at 108 block =? 0) ||
       negb (bytes =? count * sz security_binding_layout) ||
       negb (payload_size =? sz principal_payload_layout + bytes) ||
       (count >? INFS_PRINCIPAL_BINDINGS_PER_OBJECT) ||
       infs_security_principal_id_is_reserved (h_object_id block) ||
       negb (bytes_are_zero (h_parent_id block)) then false
    else
      forallb (fun i =>
        security_binding_disk_valid (binding_record block i) &&
        forallb (fun j => negb (bindings_equal (binding_record block i) (binding_record block j)))
          (seq 0 i)) (seq 0 (Z.to_nat count)).

Definition security_binding_index_payload_shape_valid (block : list Z) (payload_size : Z) : bool :=
  if negb (payload_size =? sz security_binding_index_layout) then false
  else
    let slot := le16_at 98 block in
    let size := le16_at 102 block in
    let principal_id := slice 104 16 block in
    if negb (le16_at 96 block =? INFS_SECURITY_VERSION) || (slot >=? INFS_SECURITY_HASH_SLOTS) ||
       (size =? 0) || (size >? INFS_SECURITY_BINDING_MAX) || negb (le32_at 220 block =? 0) ||
       negb (id_is_nonzero principal_id) ||
       infs_security_principal_id_is_reserved principal_id ||
       negb (bytes_eqb (h_parent_id block) principal_id) then false
    else
      let binding := Binding (le16_at 100 block) 0 size
                       (splice 0 (slice 152 (Z.to_nat size) block) zero_value) in
      if (b_type binding =? INFS_BINDING_OPAQUE) || negb (infs_security_binding_is_valid binding)
      then false
      else if negb (forallb (fun i => block !!! (152 + i)%nat =? 0)
                 (seq (Z.to_nat size) (Z.to_nat INFS_SECURITY_BINDING_MAX - Z.to_nat size)))
      then false
      else
        match infs_security_binding_digest binding with
        | Bad _ => false
        | Good digest =>
            if negb (bytes_eqb digest (slice 120 32 block)) then false
            else bytes_eqb (infs_security_binding_index_object_id digest slot) (h_object_id block)
        end.

(** A 32-byte access-control entry. *)
Definition ace_of_disk (d : list Z) : infs_security_ace :=
  Ace (slice 0 16 d) (le64_at 16 d) (le16_at 24 d) (le16_at 26 d).

Definition security_ace_disk_valid (d : list Z) : bool :=
  if negb (le32_at 28 d =? 0) then false else infs_security_ace_is_valid (ace_of_disk d).

Definition security_payload_shape_valid (block : list Z) (payload_size object_version : Z) : bool :=
  if payload_size <? sz security_payload_layout then false
  else
    let flags := le16_at 98 block in
    let count := le32_at 100 block in
    let pages := le32_at 104 block in
    let slot := le16_at 108 block in
    let owner := slice 112 16 block in
    let group := slice 128 16 block in
    if negb (le16_at 96 block =? INFS_SECURITY_VERSION) ||
       negb (Z.ldiff flags INFS_SECURITY_KNOWN_FLAGS =? 0) ||
       ((flags .& INFS_SECURITY_DACL_PRESENT) =? 0) ||
       (slot >=? INFS_SECURITY_HASH_SLOTS) || negb (le16_at 110 block =? 0) ||
       negb (id_is_nonzero owner) || negb (id_is_nonzero group) ||
       infs_security_principal_id_is_reserved owner ||
       infs_security_principal_id_is_reserved group ||
       negb (bytes_are_zero (h_parent_id block)) || (count >? INFS_SECURITY_MAX_ACES) then false
    else if negb (bytes_eqb (infs_security_descriptor_object_id (slice 144 32 block) slot)
                    (h_object_id block)) then false
    else if object_version =? INFS_OBJECT_VERSION_CLASSIC then
      if negb (pages =? 0) || (count >? INFS_SECURITY_INLINE_ACES) ||
         negb (payload_size =? sz security_payload_layout + count * sz security_ace_layout)
      then false
      else forallb (fun i => security_ace_disk_valid (slice (176 + 32 * i) 32 block))
             (seq 0 (Z.to_nat count))
    else if negb (object_version =? INFS_OBJECT_VERSION_PAGED) then false
    else
      let expected_pages :=
        if negb (count =? 0)
        then (count + INFS_SECURITY_ACES_PER_PAGE - 1) / INFS_SECURITY_ACES_PER_PAGE else 0 in
      if negb (pages =? expected_pages) || (pages >? INFS_SECURITY_PAGE_POINTERS) ||
         negb (payload_size =? sz security_payload_layout + pages * 8) then false
      else forallb (fun i => negb (le64_at (176 + 8 * i) block =? 0)) (seq 0 (Z.to_nat pages)).

Definition INFS_EXTENSION_VERSION : Z := 1.
Definition INFS_KNOWN_EXTENSION_FLAGS : Z := 0x3.

Definition extension_payload_shape_valid (block : list Z) (payload_size : Z) : bool :=
  if payload_size <? sz extension_payload_layout then false
  else if negb (bytes_are_zero (h_parent_id block)) then false
  else
    let data_size := le32_at 104 block in
    let flags := le16_at 98 block in
    if negb (le16_at 96 block =? INFS_EXTENSION_VERSION) || (le32_at 100 block =? 0) ||
       negb (le32_at 108 block =? 0) || negb (Z.ldiff flags INFS_KNOWN_EXTENSION_FLAGS =? 0) ||
       negb (id_is_nonzero (slice 112 16 block)) || (data_size >? INFS_EXTENSION_DATA_MAX) ||
       negb (payload_size =? sz extension_payload_layout + data_size) then false
    else bytes_eqb (sha256 (slice 160 (Z.to_nat data_size) block)) (slice 128 32 block).

Definition INFS_METADATA_SET_VERSION : Z := 1.

(** Offset of the first stream entry. *)
Definition set_base : nat := 128.

(** The search for an earlier entry with the same name: [true] when there is one.
    [fuel] bounds the turns. *)
Fixpoint duplicate_name (fuel : nat) (block : list Z) (prior_offset offset : nat)
    (name : list Z) : bool :=
  if decide (prior_offset < offset)%nat then
    match fuel with
    | O => true
    | S fuel' =>
        let prior := drop (set_base + prior_offset) block in
        if (le16_at 2 prior =? Z.of_nat (length name)) &&
           bytes_eqb (slice 24 (length name) prior) name then true
        else duplicate_name fuel' block (prior_offset + Z.to_nat (le16_at 0 prior)) offset name
    end
  else false.

(** One stream entry at [offset]: its record size when it is acceptable. *)
Definition stream_entry_valid (block : list Z) (bytes offset : nat) : option nat :=
  if decide (bytes - offset < sizeof metadata_stream_entry_layout)%nat then None
  else
    let entry := drop (set_base + offset) block in
    let record := le16_at 0 entry in
    let name_length := le16_at 2 entry in
    if (record <? sz metadata_stream_entry_layout) || negb ((record .& 7) =? 0) ||
       (record >? Z.of_nat (bytes - offset)) || (name_length =? 0) ||
       (name_length >? INFS_NAME_MAX) ||
       (sz metadata_stream_entry_layout + name_length >? record) ||
       negb (le32_at 4 entry =? 0) || negb (id_is_nonzero (slice 8 16 entry)) then None
    else
      let name := slice 24 (Z.to_nat name_length) entry in
      match memchr0 name with
      | Some _ => None
      | None =>
          if negb (infs_utf8_validate name) then None
          else if negb (forallb (fun pad => block !!! (set_base + (offset + pad))%nat =? 0)
                     (seq (24 + Z.to_nat name_length)
                          (Z.to_nat record - (24 + Z.to_nat name_length)))) then None
          else if duplicate_name offset block 0 offset name then None
          else Some (Z.to_nat record)
      end.

(** The entry loop: the number of entries seen when the records fill [bytes]
    exactly. *)
Fixpoint stream_entries (fuel : nat) (block : list Z) (bytes offset : nat) (seen : Z)
    : option Z :=
  if decide (offset < bytes)%nat then
    match fuel with
    | O => None
    | S fuel' =>
        match stream_entry_valid block bytes offset with
        | None => None
        | Some record => stream_entries fuel' block bytes (offset + record) (u32 (seen + 1))
        end
    end
  else if decide (offset = bytes) then Some seen else None.

Definition metadata_set_payload_shape_valid (block : list Z) (payload_size : Z) : bool :=
  if payload_size <? sz metadata_set_payload_layout then false
  else if negb (bytes_are_zero (h_parent_id block)) then false
  else
    let count := le32_at 100 block in
    let bytes := le32_at 104 block in
    if negb (le16_at 96 block =? INFS_METADATA_SET_VERSION) || negb (le16_at 98 block =? 0) ||
       negb (le32_at 108 block =? 0) || (bytes >? INFS_METADATA_SET_DATA_MAX) ||
       negb (payload_size =? sz metadata_set_payload_layout + bytes) then false
    else match stream_entries (Z.to_nat bytes) block (Z.to_nat bytes) 0 0 with
         | Some seen => seen =? count
         | None => false
         end.

Definition named_stream_parent_shape_valid (block : list Z) : bool :=
  bytes_are_zero (h_parent_id block).

Definition snapshot_catalog_payload_shape_valid (block : list Z) (payload_size : Z) : bool :=
  if payload_size <? sz snapshot_catalog_payload_layout then false
  else if negb (h_object_version block =? INFS_OBJECT_VERSION_PAGED) then false
  else
    let count := le32_at 96 block in
    let pages := le32_at 100 block in
    let expected_pages :=
      if negb (count =? 0)
      then (count + INFS_SNAPSHOT_RECORDS_PER_PAGE - 1) / INFS_SNAPSHOT_RECORDS_PER_PAGE else 0 in
    if (count >? INFS_SNAPSHOTS_PER_CATALOG) || negb (pages =? expected_pages) ||
       (pages >? INFS_SNAPSHOT_PAGE_POINTERS) then false
    else payload_size =? sz snapshot_catalog_payload_layout + pages * 8.

(** ** Objects *)

Definition infs_object_init (object_type : Z) (object_id : list Z) (parent_id : option (list Z))
    (generation payload_size : Z) : result (list Z) :=
  if negb (id_is_nonzero object_id) || negb (object_type_valid object_type) ||
     (generation =? 0) || (payload_size >? block_size - sz object_header_layout)
  then Bad INVALID_ARGUMENT
  else
    let block := replicate INFS_BLOCK_SIZE 0 in
    let block := splice 0 INFS_OBJECT_MAGIC block in
    let block := splice 8 (store_le16 object_type) block in
    let block := splice 10 (store_le16 INFS_OBJECT_VERSION_CLASSIC) block in
    let block := splice 12 (store_le32 (sz object_header_layout)) block in
    let block := splice 16 (store_le64 generation) block in
    let block := splice 24 (take 16 object_id) block in
    let block := match parent_id with Some p => splice 40 (take 16 p) block | None => block end in
    let block := splice 56 (store_le32 payload_size) block in
    Good (splice 60 (store_le32 INFS_CHECKSUM_CRC64_ECMA) block).

(** The per-type payload tests. *)
Definition payload_shape_ok (block : list Z) : bool :=
  let object_type := h_object_type block in
  let object_version := h_object_version block in
  let payload_size := h_payload_size block in
  negb ((object_type =? INFS_OBJECT_INDEX) &&
        negb (index_payload_shape_valid block payload_size object_version)) &&
  negb ((object_type =? INFS_OBJECT_SYMLINK) &&
        negb (symlink_payload_shape_valid block payload_size)) &&
  negb ((object_type =? INFS_OBJECT_SNAPSHOT_CATALOG) &&
        negb (snapshot_catalog_payload_shape_valid block payload_size)) &&
  negb ((object_type =? INFS_OBJECT_PRINCIPAL) &&
        negb (principal_payload_shape_valid block payload_size)) &&
  negb ((object_type =? INFS_OBJECT_SECURITY_BINDING) &&
        negb (security_binding_index_payload_shape_valid block payload_size)) &&
  negb ((object_type =? INFS_OBJECT_SECURITY) &&
        negb (security_payload_shape_valid block payload_size object_version)) &&
  negb ((object_type =? INFS_OBJECT_EXTENSION) &&
        negb (extension_payload_shape_valid block payload_size)) &&
  negb ((object_type =? INFS_OBJECT_METADATA_SET) &&
        negb (metadata_set_payload_shape_valid block payload_size)) &&
  negb ((object_type =? INFS_OBJECT_NAMED_STREAM) &&
        negb (named_stream_parent_shape_valid block)).

(** The header tests shared by [infs_object_finalize] and
    [infs_validate_object_block]. *)
Definition object_fields_ok (block : list Z) : bool :=
  bytes_eqb (slice 0 8 block) INFS_OBJECT_MAGIC &&
  object_type_valid (h_object_type block) &&
  object_version_valid (h_object_type block) (h_object_version block) &&
  (h_header_size block =? sz object_header_layout) &&
  negb (h_generation block =? 0) && id_is_nonzero (h_object_id block) &&
  (h_payload_size block <=? block_size - sz object_header_layout) &&
  (h_checksum_type block =? INFS_CHECKSUM_CRC64_ECMA).

Definition infs_object_finalize (block : list Z) : result (list Z) :=
  if negb (object_fields_ok block && payload_shape_ok block) then Bad INVALID_ARGUMENT
  else Good (seal hdr_checksum_off
               (clear_from (hdr_size + Z.to_nat (h_payload_size block)) block)).

Definition infs_validate_object_block (block : list Z) : bool :=
  object_fields_ok block && payload_shape_ok block &&
  zero_from (hdr_size + Z.to_nat (h_payload_size block)) block &&
  seal_ok hdr_checksum_off block.

(** ** Metadata pages *)

Definition page_size : nat := 80.
Definition page_checksum_off : nat := 48.
Definition p_generation (b : list Z) : Z := le64_at 8 b.
Definition p_owner (b : list Z) : list Z := slice 16 16 b.
Definition p_entry_count (b : list Z) : Z := le32_at 32 b.
Definition p_bytes_used (b : list Z) : Z := le32_at 36 b.
Definition p_checksum_type (b : list Z) : Z := le32_at 40 b.
Definition p_reserved (b : list Z) : Z := le32_at 44 b.

Definition infs_metadata_page_init (magic owner_object_id : list Z) (generation : Z)
    : result (list Z) :=
  if negb (id_is_nonzero owner_object_id) || (generation =? 0) then Bad INVALID_ARGUMENT
  else
    let block := replicate INFS_BLOCK_SIZE 0 in
    let block := splice 0 (take 8 magic) block in
    let block := splice 8 (store_le64 generation) block in
    let block := splice 16 (take 16 owner_object_id) block in
    Good (splice 40 (store_le32 INFS_CHECKSUM_CRC64_ECMA) block).

Definition page_magics : list (list Z) :=
  [INFS_DIRECTORY_PAGE_MAGIC; INFS_DIRECTORY_BRANCH_PAGE_MAGIC; INFS_INDEX_PAGE_MAGIC;
   INFS_INDEX_BRANCH_PAGE_MAGIC; INFS_EXTENT_PAGE_MAGIC; INFS_EXTENT_INDEX_PAGE_MAGIC;
   INFS_SNAPSHOT_PAGE_MAGIC; INFS_SECURITY_ACE_PAGE_MAGIC].

Definition page_fields_ok (block : list Z) : bool :=
  negb (p_generation block =? 0) && id_is_nonzero (p_owner block) &&
  (p_bytes_used block <=? INFS_METADATA_PAGE_DATA_SIZE) &&
  (p_checksum_type block =? INFS_CHECKSUM_CRC64_ECMA) && (p_reserved block =? 0).

Definition infs_metadata_page_finalize (block : list Z) : result (list Z) :=
  if negb (existsb (bytes_eqb (slice 0 8 block)) page_magics && page_fields_ok block)
  then Bad INVALID_ARGUMENT
  else Good (seal page_checksum_off
               (clear_from (page_size + Z.to_nat (p_bytes_used block)) block)).

Definition infs_validate_metadata_page (block magic owner_object_id : list Z) : bool :=
  bytes_eqb (slice 0 8 block) (take 8 magic) &&
  bytes_eqb (p_owner block) (take 16 owner_object_id) && page_fields_ok block &&
  zero_from (page_size + Z.to_nat (p_bytes_used block)) block && seal_ok page_checksum_off block.

(** ** Allocation pages *)

Definition apage_size : nat := 72.
Definition apage_checksum_off : nat := 40.
Definition ap_generation (b : list Z) : Z := le64_at 8 b.
Definition ap_logical_index (b : list Z) : Z := le64_at 16 b.
Definition ap_level (b : list Z) : Z := le32_at 24 b.
Definition ap_entry_count (b : list Z) : Z := le32_at 28 b.
Definition ap_bytes_used (b : list Z) : Z := le32_at 32 b.
Definition ap_checksum_type (b : list Z) : Z := le32_at 36 b.

Definition allocation_magic (level : Z) : list Z :=
  if level =? 0 then INFS_ALLOCATION_LEAF_PAGE_MAGIC else INFS_ALLOCATION_BRANCH_PAGE_MAGIC.

Definition infs_allocation_page_init (magic : list Z) (generation logical_index level : Z)
    : result (list Z) :=
  if (generation =? 0) || (level >? INFS_ALLOCATION_TREE_ROOT_LEVEL) ||
     negb (bytes_eqb (take 8 magic) (allocation_magic level))
  then Bad INVALID_ARGUMENT
  else
    let block := replicate INFS_BLOCK_SIZE 0 in
    let block := splice 0 (take 8 magic) block in
    let block := splice 8 (store_le64 generation) block in
    let block := splice 16 (store_le64 logical_index) block in
    let block := splice 24 (store_le32 level) block in
    Good (splice 36 (store_le32 INFS_CHECKSUM_CRC64_ECMA) block).

(** The entry count and byte count tests for a level. *)
Definition allocation_counts_ok (level entries bytes : Z) : bool :=
  (if level =? 0
   then negb (entries =? 0) && (entries <=? INFS_ALLOCATION_BITS_PER_LEAF) &&
        (bytes =? u32 (entries + 7) / 8)
   else negb (entries =? 0) && (entries <=? INFS_ALLOCATION_TREE_FANOUT) &&
        (bytes =? entries * 8)) &&
  (bytes <=? INFS_ALLOCATION_PAGE_DATA_SIZE).

Definition infs_allocation_page_finalize (block : list Z) : result (list Z) :=
  let level := ap_level block in
  let bytes := ap_bytes_used block in
  if (ap_generation block =? 0) || (level >? INFS_ALLOCATION_TREE_ROOT_LEVEL) ||
     negb (bytes_eqb (slice 0 8 block) (allocation_magic level)) ||
     negb (ap_checksum_type block =? INFS_CHECKSUM_CRC64_ECMA) ||
     negb (allocation_counts_ok level (ap_entry_count block) bytes)
  then Bad INVALID_ARGUMENT
  else Good (seal apage_checksum_off (clear_from (apage_size + Z.to_nat bytes) block)).

Definition infs_validate_allocation_page (block magic : list Z)
    (max_generation logical_index level : Z) : bool :=
  let bytes := ap_bytes_used block in
  negb (max_generation =? 0) && (level <=? INFS_ALLOCATION_TREE_ROOT_LEVEL) &&
  bytes_eqb (slice 0 8 block) (take 8 magic) &&
  negb (ap_generation block =? 0) && (ap_generation block <=? max_generation) &&
  (ap_logical_index block =? logical_index) && (ap_level block =? level) &&
  (ap_checksum_type block =? INFS_CHECKSUM_CRC64_ECMA) &&
  allocation_counts_ok level (ap_entry_count block) bytes &&
  zero_from (apage_size + Z.to_nat bytes) block && seal_ok apage_checksum_off block.

(** ** Initial objects *)

(** [fill_attributes] writes the 120-byte attribute record; [now] is the
    timestamp's seconds (as two's complement) and nanoseconds. *)
Definition attributes_record (link_count : Z) (now : Z * Z) : list Z :=
  let stamp := store_le64 (u64 now.1) ++ store_le32 now.2 ++ replicate 4 0 in
  store_le64 0 ++ store_le64 link_count ++ replicate 8 0 ++
  stamp ++ stamp ++ stamp ++ stamp ++ replicate 32 0.

Definition encode_root_directory_version (object_id : list Z) (generation permissions uid gid : Z)
    (now : Z * Z) (object_version : Z) : result (list Z) :=
  block ← infs_object_init INFS_OBJECT_DIRECTORY object_id None generation
            (sz directory_payload_layout);
  let block := splice 10 (store_le16 object_version) block in
  let block := splice 96 (attributes_record 2 now) block in
  let block := splice 216 (store_le32 (permissions .& 4095)) block in
  let block := splice 220 (store_le32 uid) block in
  let block := splice 224 (store_le32 gid) block in
  let block := splice 232 (store_le32 0) block in
  let block := splice 236 (store_le32 0) block in
  infs_object_finalize block.

Definition infs_encode_root_directory (object_id : list Z) (generation permissions uid gid : Z)
    (now : Z * Z) : result (list Z) :=
  encode_root_directory_version object_id generation permissions uid gid now
    INFS_OBJECT_VERSION_CLASSIC.

Definition infs_encode_paged_root_directory (object_id : list Z)
    (generation permissions uid gid : Z) (now : Z * Z) : result (list Z) :=
  encode_root_directory_version object_id generation permissions uid gid now
    INFS_OBJECT_VERSION_PAGED.

Definition infs_encode_tree_root_directory (object_id : list Z)
    (generation permissions uid gid : Z) (now : Z * Z) : result (list Z) :=
  block ← encode_root_directory_version object_id generation permissions uid gid now
            INFS_OBJECT_VERSION_TREE;
  let block := splice 232 (store_le32 0) block in
  let block := splice 236 (store_le32 0) block in
  let block := splice 240 (store_le64 0) block in
  let block := splice 56 (store_le32 (sz directory_payload_layout + 8)) block in
  infs_object_finalize block.

Definition encode_object_index_version (object_id : list Z) (generation object_version : Z)
    : result (list Z) :=
  block ← infs_object_init INFS_OBJECT_INDEX object_id None generation (sz index_payload_layout);
  let block := splice 10 (store_le16 object_version) block in
  let block := splice 96 (store_le32 0) block in
  let block := splice 100 (store_le32 0) block in
  infs_object_finalize block.

Definition infs_encode_object_index (object_id : list Z) (generation : Z) : result (list Z) :=
  encode_object_index_version object_id generation INFS_OBJECT_VERSION_CLASSIC.

Definition infs_encode_paged_object_index (object_id : list Z) (generation : Z)
    : result (list Z) :=
  encode_object_index_version object_id generation INFS_OBJECT_VERSION_PAGED.

Definition infs_encode_tree_object_index (object_id : list Z)
    (generation root_node_block entry_count : Z) : result (list Z) :=
  if (root_node_block =? 0) || (entry_count =? 0) then Bad INVALID_ARGUMENT
  else
    block ← infs_object_init INFS_OBJECT_INDEX object_id None generation
              (sz index_payload_layout + 8);
    let block := splice 10 (store_le16 INFS_OBJECT_VERSION_TREE) block in
    let block := splice 96 (store_le32 entry_count) block in
    let block := splice 100 (store_le32 0) block in
    let block := splice 104 (store_le64 root_node_block) block in
    let block := splice 56 (store_le32 (sz index_payload_layout + 8)) block in
    infs_object_finalize block.

End Blocks.

(** ** Identifiers as text *)

(** One hexadecimal digit as an ASCII code. *)
Definition hex_digit (d : Z) : Z := if d <? 10 then 48 + d else 87 + d.
Definition hex_byte (b : Z) : list Z := [hex_digit (b ≫ 4); hex_digit (b .& 15)].

(** The 36 characters of [infs_uuid_to_string]. *)
Definition infs_uuid_to_string (id : list Z) : list Z :=
  let group a n := concat (map (fun i => hex_byte (id !!! i)) (seq a n)) in
  group 0%nat 4%nat ++ [45] ++ group 4%nat 2%nat ++ [45] ++ group 6%nat 2%nat ++ [45] ++
  group 8%nat 2%nat ++ [45] ++ group 10%nat 6%nat.

End Objects.

(** * Facts *)

Module ObjectsFacts.
Import Security Objects.

Section Facts.
Context {E : Endian} {P : Platform}.

(** ** The checksum field *)

Lemma store_le64_ok v : bytes_ok (store_le64 v) /\ length (store_le64 v) = 8%nat.
Proof. rewrite store_le64_law; split; [apply le_store_ok | apply length_le_store]. Qed.

Lemma zeros_ok n : bytes_ok (replicate n 0).
Proof. apply bytes_ok_replicate; split; vm_compute; congruence. Qed.

Lemma bytes_are_zero_replicate n : bytes_are_zero (replicate n 0) = true.
Proof. unfold bytes_are_zero; rewrite bytes_or_replicate; reflexivity. Qed.

Lemma seal_length off b : (off + 32 <= length b)%nat -> length (seal off b) = length b.
Proof.
  intros; pose proof (store_le64_ok (block_crc_with_zeroed_checksum (splice off (replicate 32 0) b) off 32)).
  unfold seal; rewrite length_splice; rewrite length_splice; rewrite ?length_replicate; lia.
Qed.

Lemma seal_bytes_ok off b : bytes_ok b -> bytes_ok (seal off b).
Proof.
  intros; unfold seal; apply bytes_ok_splice; [apply store_le64_ok |].
  apply bytes_ok_splice; [apply zeros_ok | assumption].
Qed.

(** Sealing touches only the checksum field. *)
Lemma seal_lookup off b i :
  (off + 32 <= length b)%nat -> (i < off \/ off + 32 <= i)%nat -> seal off b !! i = b !! i.
Proof.
  intros Hl Hi; pose proof (store_le64_ok (block_crc_with_zeroed_checksum (splice off (replicate 32 0) b) off 32)) as [_ Hs].
  assert (length (splice off (replicate 32 0) b) = length b)
    by (apply length_splice; rewrite length_replicate; lia).
  unfold seal; rewrite !lookup_splice by (rewrite ?length_replicate; lia).
  rewrite Hs, length_replicate; repeat case_decide; trivial; lia.
Qed.

Lemma crc_zeroed_fits off b : bytes_ok b -> fits 64 (block_crc_with_zeroed_checksum b off 32).
Proof. intros; apply Crc64Facts.crc64_fits, bytes_ok_splice; auto using zeros_ok. Qed.

(** A sealed block passes the checksum tests. *)
Lemma seal_seal_ok off b :
  (off + 32 <= length b)%nat -> bytes_ok b -> seal_ok off (seal off b) = true.
Proof.
  intros Hl Hb; set (z := splice off (replicate 32 0) b).
  assert (Hz : length z = length b) by (apply length_splice; rewrite length_replicate; lia).
  assert (Hzb : bytes_ok z) by (apply bytes_ok_splice; auto using zeros_ok).
  set (crc := block_crc_with_zeroed_checksum z off 32).
  change (seal off b) with (splice off (store_le64 crc) z).
  destruct (store_le64_ok crc) as [_ Hs]; unfold seal_ok.
  rewrite slice_splice_ne by (rewrite ?Hs; lia).
  replace (slice (off + 8) 24 z) with (replicate 24 0).
  2: { apply list_eq; intros i; rewrite lookup_slice; case_decide.
       - unfold z; rewrite lookup_splice by (rewrite length_replicate; lia).
         rewrite length_replicate, decide_True by lia.
         rewrite !lookup_replicate_2 by lia; reflexivity.
       - apply lookup_replicate_None; lia. }
  rewrite bytes_are_zero_replicate, le64_at_splice by (try lia; apply crc_zeroed_fits, Hzb).
  apply Z.eqb_eq; set (st := store_le64 crc) in *.
  unfold crc, block_crc_with_zeroed_checksum; f_equal.
  symmetry; apply splice_cover; rewrite ?Hs, ?length_replicate; lia.
Qed.

(** What the checksum tests pin down: the CRC of the block without the field. *)
Lemma seal_ok_inv off b :
  seal_ok off b = true ->
  Forall (eq 0) (slice (off + 8) 24 b) /\
  le64_at off b = Crc64.infs_crc64_ecma (splice off (replicate 32 0) b).
Proof.
  unfold seal_ok; rewrite andb_true_iff, bytes_are_zero_spec, Z.eqb_eq; trivial.
Qed.

(** A window that lies wholly outside or wholly inside the checksum field. *)
Definition clear_window (off start len : nat) : Prop :=
  (start + len <= off \/ off + 32 <= start \/ off <= start /\ start + len <= off + 32)%nat.

Lemma slice_window off n p x y s :
  length x = length y ->
  (off + n <= length p \/ length p + length x <= off)%nat ->
  slice off n (p ++ x ++ s) = slice off n (p ++ y ++ s).
Proof.
  intros Hl [? | ?]; [rewrite !slice_app_left by lia; reflexivity |].
  rewrite !(app_assoc p), !slice_app_right by (rewrite length_app; lia).
  rewrite !length_app, Hl; reflexivity.
Qed.

(** A change outside the field shows in the CRC. *)
Lemma outside_burst off p x y s :
  bytes_ok (p ++ x ++ s) -> bytes_ok y -> length x = length y -> (length x <= 8)%nat ->
  (length p + length x <= off \/ off + 32 <= length p)%nat ->
  Crc64.infs_crc64_ecma (splice off (replicate 32 0) (p ++ x ++ s)) =
  Crc64.infs_crc64_ecma (splice off (replicate 32 0) (p ++ y ++ s)) -> x = y.
Proof.
  rewrite !bytes_ok_app; intros (Hp & Hx & Hs) Hy Hl H8 [Hw | Hw].
  - rewrite !(app_assoc p), !splice_app_right by (rewrite length_app; lia).
    rewrite !length_app, <- Hl, <- !app_assoc; apply Crc64Facts.crc64_burst; trivial.
    rewrite !bytes_ok_app; split_and!; trivial; apply bytes_ok_splice; auto using zeros_ok.
  - rewrite !splice_app_left by (rewrite length_replicate; lia).
    apply Crc64Facts.crc64_burst; trivial.
    rewrite !bytes_ok_app; split_and!; trivial; apply bytes_ok_splice; auto using zeros_ok.
Qed.

(** A change inside the field leaves the CRC of the rest as it was. *)
Lemma inside_same off p x y s :
  length x = length y -> (off + 32 <= length (p ++ x ++ s))%nat ->
  (off <= length p)%nat -> (length p + length x <= off + 32)%nat ->
  splice off (replicate 32 0) (p ++ x ++ s) = splice off (replicate 32 0) (p ++ y ++ s).
Proof.
  intros Hl Hlen H1 H2; apply list_eq; intros i.
  assert (length (p ++ y ++ s) = length (p ++ x ++ s)) by (rewrite !length_app; lia).
  rewrite !lookup_splice by (rewrite length_replicate; lia); rewrite length_replicate.
  case_decide as Hi; [reflexivity |].
  destruct (decide (i < length p)%nat); [rewrite !lookup_app_l by lia; reflexivity |].
  rewrite !(app_assoc p), !(lookup_app_r (p ++ _)) by (rewrite length_app; lia).
  rewrite !length_app, Hl; reflexivity.
Qed.

(** Two blocks that differ in a short window cannot both pass the checksum
    tests. *)
Lemma seal_ok_burst off p x y s :
  bytes_ok (p ++ x ++ s) -> bytes_ok y -> length x = length y -> (length x <= 8)%nat ->
  (off + 32 <= length (p ++ x ++ s))%nat -> clear_window off (length p) (length x) ->
  seal_ok off (p ++ x ++ s) = true -> seal_ok off (p ++ y ++ s) = true -> x = y.
Proof.
  intros Hok Hy Hl H8 Hlen Hw [Hz1 Hc1]%seal_ok_inv [Hz2 Hc2]%seal_ok_inv.
  unfold clear_window in Hw.
  destruct (decide (length p + length x <= off \/ off + 32 <= length p)%nat) as [Hout | Hin].
  - apply (outside_burst off p x y s); trivial; rewrite <- Hc1, <- Hc2.
    unfold le64_at; f_equal; apply slice_window; trivial; lia.
  - assert (Hfield : slice off 32 (p ++ x ++ s) = slice off 32 (p ++ y ++ s)).
    { assert (Hsplit : forall b, slice off 32 b = slice off 8 b ++ slice (off + 8) 24 b).
      { intros b; unfold slice; change 32%nat with (8 + 24)%nat.
        rewrite <- take_take_drop, drop_drop; reflexivity. }
      assert (Hly : length (p ++ y ++ s) = length (p ++ x ++ s)) by (rewrite !length_app; lia).
      rewrite !Hsplit, (zero_bytes_eq _ Hz1), (zero_bytes_eq _ Hz2), !length_slice by lia.
      f_equal; apply le_load_inj; rewrite ?length_slice by lia; trivial.
      - apply bytes_ok_slice; assumption.
      - apply bytes_ok_slice; revert Hok; rewrite !bytes_ok_app; intuition.
      - unfold le64_at in *; rewrite (inside_same off p x y s) in Hc1 by (trivial; lia).
        rewrite <- Hc2 in Hc1; rewrite !load_le64_law in Hc1; trivial;
          try (apply bytes_ok_slice; revert Hok; rewrite !bytes_ok_app; intuition);
          apply length_slice; lia. }
    apply (f_equal (slice (length p - off) (length x))) in Hfield.
    assert (Hpick : forall z, length z = length x ->
              slice (length p - off) (length x) (slice off 32 (p ++ z ++ s)) = z).
    { intros z Hzl; apply list_eq; intros i; rewrite !lookup_slice.
      case_decide; [| symmetry; apply lookup_ge_None_2; lia].
      rewrite decide_True by lia; rewrite lookup_app_r, lookup_app_l by lia.
      f_equal; lia. }
    rewrite !Hpick in Hfield by lia; exact Hfield.
Qed.

(** ** Blocks that agree where a validator looks *)

(** [b] and [b'] agree below [n] and in the [m] bytes from [from]. *)
Definition agree (n from m : nat) (b b' : list Z) : Prop :=
  forall i, (i < n \/ from <= i < from + m)%nat -> b !! i = b' !! i.

Section Agree.
Context (n from m : nat) (b b' : list Z).
Hypothesis Hag : agree n from m b b'.

Lemma agree_slice off k :
  (off + k <= n \/ from <= off /\ off + k <= from + m)%nat -> slice off k b = slice off k b'.
Proof.
  intros Hk; apply list_eq; intros i; rewrite !lookup_slice; case_decide; [apply Hag; lia | reflexivity].
Qed.

Lemma agree_le16 off :
  (off + 2 <= n \/ from <= off /\ off + 2 <= from + m)%nat -> le16_at off b = le16_at off b'.
Proof. intros; unfold le16_at; rewrite agree_slice by assumption; reflexivity. Qed.

Lemma agree_le32 off :
  (off + 4 <= n \/ from <= off /\ off + 4 <= from + m)%nat -> le32_at off b = le32_at off b'.
Proof. intros; unfold le32_at; rewrite agree_slice by assumption; reflexivity. Qed.

Lemma agree_le64 off :
  (off + 8 <= n \/ from <= off /\ off + 8 <= from + m)%nat -> le64_at off b = le64_at off b'.
Proof. intros; unfold le64_at; rewrite agree_slice by assumption; reflexivity. Qed.

Lemma agree_total i : (i < n \/ from <= i < from + m)%nat -> b !!! i = b' !!! i.
Proof. intros; rewrite !list_lookup_total_alt, Hag by assumption; reflexivity. Qed.

Lemma agree_forallb (f g : nat -> bool) a k :
  (forall i, (a <= i < a + k)%nat -> f i = g i) -> forallb f (seq a k) = forallb g (seq a k).
Proof.
  revert a; induction k as [| k IH]; intros a Hfg; cbn [seq forallb]; [reflexivity |].
  rewrite Hfg by lia; f_equal; apply IH; intros; apply Hfg; lia.
Qed.
End Agree.

Lemma agree_refl n from m b : agree n from m b b.
Proof. intros i _; reflexivity. Qed.

End Facts.

(** Rewrite the fields of one block into those of an agreeing one. *)
Ltac agree_fields H :=
  repeat first
    [ rewrite (agree_le16 _ _ _ _ _ H) by lia | rewrite (agree_le32 _ _ _ _ _ H) by lia
    | rewrite (agree_le64 _ _ _ _ _ H) by lia | rewrite (agree_slice _ _ _ _ _ H) by lia ].

(** Evaluate the sizes of the record layouts. *)
Ltac sz_norm :=
  change (sz object_header_layout) with 96 in *; change (sz index_payload_layout) with 8 in *;
  change (sz symlink_payload_layout) with 144 in *; change (sz principal_payload_layout) with 16 in *;
  change (sz security_binding_layout) with 76 in *;
  change (sz security_binding_index_layout) with 128 in *;
  change (sz security_payload_layout) with 80 in *; change (sz security_ace_layout) with 32 in *;
  change (sz extension_payload_layout) with 64 in *;
  change (sz metadata_set_payload_layout) with 32 in *;
  change (sz snapshot_catalog_payload_layout) with 8 in *.

Section Validators.
Context {E : Endian} {P : Platform}.

(** ** Superblocks *)

Lemma superblock_fields_agree b b' minor :
  agree sb_checksum_off 0 0 b b' -> superblock_fields_ok b minor = superblock_fields_ok b' minor.
Proof.
  intros H; unfold sb_checksum_off in H; unfold superblock_fields_ok, sb_format_major,
    sb_format_minor, sb_header_size, sb_block_shift, sb_checksum_type, sb_generation,
    sb_filesystem_uuid, sb_root_object_id, sb_label, sb_incompat_flags.
  agree_fields H; reflexivity.
Qed.

(** The block written for a superblock structure. *)
Lemma encoded_lookup sb i :
  length sb = sb_size -> (i < sb_checksum_off)%nat ->
  seal sb_checksum_off (splice 0 (take sb_size sb) (replicate INFS_BLOCK_SIZE 0)) !! i = sb !! i.
Proof.
  unfold sb_size, sb_checksum_off, INFS_BLOCK_SIZE; intros Hl Hi.
  assert (Ht : length (take 252 sb) = 252%nat) by (rewrite length_take; lia).
  assert (Hs : length (splice 0 (take 252 sb) (replicate INFS_BLOCK_SIZE 0)) = INFS_BLOCK_SIZE).
  { rewrite length_splice; rewrite length_replicate; unfold INFS_BLOCK_SIZE; lia. }
  unfold INFS_BLOCK_SIZE in Hs.
  rewrite seal_lookup, lookup_splice by (rewrite ?Hs, ?length_replicate; lia).
  rewrite decide_True, Nat.sub_0_r, lookup_take_lt by lia; reflexivity.
Qed.

Lemma encoded_ok sb :
  length sb = sb_size -> bytes_ok sb ->
  let b := splice 0 (take sb_size sb) (replicate INFS_BLOCK_SIZE 0) in
  length b = INFS_BLOCK_SIZE /\ bytes_ok b.
Proof.
  intros Hl Hb; split.
  - rewrite length_splice; rewrite length_replicate; trivial.
    rewrite length_take, Hl; unfold sb_size, INFS_BLOCK_SIZE; lia.
  - apply bytes_ok_splice; auto using zeros_ok with infs.
Qed.

Lemma encoded_zero_tail sb :
  length sb = sb_size ->
  zero_from sb_size (seal sb_checksum_off (splice 0 (take sb_size sb) (replicate INFS_BLOCK_SIZE 0))) = true.
Proof.
  intros Hl; unfold zero_from; apply bytes_are_zero_spec.
  assert (Hb : length (splice 0 (take sb_size sb) (replicate INFS_BLOCK_SIZE 0)) = INFS_BLOCK_SIZE).
  { rewrite length_splice; rewrite length_replicate; trivial.
    rewrite length_take, Hl; unfold sb_size, INFS_BLOCK_SIZE; lia. }
  unfold sb_size, sb_checksum_off, INFS_BLOCK_SIZE in *.
  apply Forall_lookup; intros i x; rewrite lookup_slice; case_decide; [| discriminate].
  rewrite seal_lookup, lookup_splice by (rewrite ?Hb, ?length_take, ?length_replicate; lia).
  rewrite length_take, decide_False by lia.
  rewrite lookup_replicate; intros [-> _]; reflexivity.
Qed.

(** C17.  Corruption of any eight consecutive bytes or fewer that does not straddle
    the border of the checksum field is detected: two blocks that differ in such a
    window are never both accepted, by any of the validators. *)
Theorem validators_detect_bursts p x y s magic owner max_generation index level :
  bytes_ok (p ++ x ++ s) -> bytes_ok y -> length x = length y -> (length x <= 8)%nat -> x <> y ->
  length (p ++ x ++ s) = INFS_BLOCK_SIZE ->
  (clear_window sb_checksum_off (length p) (length x) ->
   infs_validate_superblock_block (p ++ x ++ s) = true ->
   infs_validate_superblock_block (p ++ y ++ s) = false) /\
  (clear_window hdr_checksum_off (length p) (length x) ->
   infs_validate_object_block (p ++ x ++ s) = true ->
   infs_validate_object_block (p ++ y ++ s) = false) /\
  (clear_window page_checksum_off (length p) (length x) ->
   infs_validate_metadata_page (p ++ x ++ s) magic owner = true ->
   infs_validate_metadata_page (p ++ y ++ s) magic owner = false) /\
  (clear_window apage_checksum_off (length p) (length x) ->
   infs_validate_allocation_page (p ++ x ++ s) magic max_generation index level = true ->
   infs_validate_allocation_page (p ++ y ++ s) magic max_generation index level = false).
Proof.
  intros Hok Hy Hl H8 Hne Hlen.
  assert (Hb : forall off, (off + 32 <= INFS_BLOCK_SIZE)%nat -> clear_window off (length p) (length x) ->
    seal_ok off (p ++ x ++ s) = true -> seal_ok off (p ++ y ++ s) = true -> False).
  { intros off Ho Hw H1 H2; apply Hne, (seal_ok_burst off p x y s); trivial; lia. }
  unfold infs_validate_superblock_block, infs_validate_superblock_block_minor,
    infs_validate_object_block, infs_validate_metadata_page, infs_validate_allocation_page; cbv zeta.
  split_and!; intros Hw Hv; apply not_true_iff_false; intros Hv'; revert Hv Hv';
    try (case_if Em; [discriminate |]); rewrite !andb_true_iff;
    intros [_ Hv] [_ Hv']; refine (Hb _ _ Hw Hv Hv');
    unfold sb_checksum_off, hdr_checksum_off, page_checksum_off, apage_checksum_off, INFS_BLOCK_SIZE; lia.
Qed.

(** ** Payload shapes look only at the header and the payload *)

Section Shapes.
Context (b b' : list Z) (ps : Z).
Hypothesis Hag : agree 64 96 (Z.to_nat ps) b b'.

Lemma index_shape_agree v :
  index_payload_shape_valid b ps v = index_payload_shape_valid b' ps v.
Proof.
  unfold index_payload_shape_valid; sz_norm; destruct (ps <? 8) eqn:E1; [reflexivity |]; to_prop.
  agree_fields Hag; destruct (v =? INFS_OBJECT_VERSION_CLASSIC); [reflexivity |].
  destruct (v =? INFS_OBJECT_VERSION_TREE); [| reflexivity].
  case_if E2; [reflexivity |]; to_prop; agree_fields Hag; reflexivity.
Qed.

Lemma symlink_shape_agree : symlink_payload_shape_valid b ps = symlink_payload_shape_valid b' ps.
Proof.
  unfold symlink_payload_shape_valid; sz_norm; destruct (ps <? 144) eqn:E1; [reflexivity |]; to_prop.
  agree_fields Hag; case_if E2; [reflexivity |]; to_prop.
  rewrite (agree_slice _ _ _ _ _ Hag) by lia; reflexivity.
Qed.

Lemma snapshot_shape_agree :
  snapshot_catalog_payload_shape_valid b ps = snapshot_catalog_payload_shape_valid b' ps.
Proof.
  unfold snapshot_catalog_payload_shape_valid, h_object_version; sz_norm.
  destruct (ps <? 8) eqn:E1; [reflexivity |]; to_prop; agree_fields Hag; reflexivity.
Qed.

Lemma principal_shape_agree :
  principal_payload_shape_valid b ps = principal_payload_shape_valid b' ps.
Proof.
  unfold principal_payload_shape_valid, h_object_id, h_parent_id; sz_norm.
  destruct (ps <? 16) eqn:E1; [reflexivity |]; to_prop; agree_fields Hag.
  case_if E2; [reflexivity |]; to_prop.
  assert (Hrec : forall i, (i < Z.to_nat (le16_at 100 b'))%nat -> binding_record b i = binding_record b' i).
  { intros i Hi; unfold binding_record; apply (agree_slice _ _ _ _ _ Hag); lia. }
  apply agree_forallb; intros i Hi; rewrite Hrec by lia; f_equal.
  apply agree_forallb; intros j Hj; rewrite Hrec by lia; reflexivity.
Qed.

Lemma binding_index_shape_agree :
  security_binding_index_payload_shape_valid b ps = security_binding_index_payload_shape_valid b' ps.
Proof.
  unfold security_binding_index_payload_shape_valid, h_object_id, h_parent_id; sz_norm.
  destruct (negb (ps =? 128)) eqn:E1; [reflexivity |]; to_prop; agree_fields Hag.
  case_if E2; [reflexivity |]; to_prop; unfold INFS_SECURITY_BINDING_MAX in *.
  rewrite (agree_slice _ _ _ _ _ Hag 152) by lia; case_if E3; [reflexivity |].
  rewrite (agree_forallb (fun i => b !!! (152 + i)%nat =? 0) (fun i => b' !!! (152 + i)%nat =? 0))
    by (intros i Hi; rewrite (agree_total _ _ _ _ _ Hag) by lia; reflexivity).
  agree_fields Hag; reflexivity.
Qed.

Lemma security_shape_agree v :
  security_payload_shape_valid b ps v = security_payload_shape_valid b' ps v.
Proof.
  unfold security_payload_shape_valid, h_object_id, h_parent_id; sz_norm.
  destruct (ps <? 80) eqn:E1; [reflexivity |]; to_prop; agree_fields Hag.
  case_if E2; [reflexivity |]; case_if E3; [reflexivity |].
  destruct (v =? INFS_OBJECT_VERSION_CLASSIC).
  - case_if E4; [reflexivity |]; to_prop; apply agree_forallb; intros i Hi.
    rewrite (agree_slice _ _ _ _ _ Hag) by lia; reflexivity.
  - case_if E4; [reflexivity |]; match goal with |- (if ?g then _ else _) = _ => destruct g eqn:E5 end;
      [reflexivity |].
    to_prop; apply agree_forallb; intros i Hi; rewrite (agree_le64 _ _ _ _ _ Hag) by lia; reflexivity.
Qed.

Lemma extension_shape_agree : extension_payload_shape_valid b ps = extension_payload_shape_valid b' ps.
Proof.
  unfold extension_payload_shape_valid, h_parent_id; sz_norm.
  destruct (ps <? 64) eqn:E1; [reflexivity |]; to_prop; agree_fields Hag.
  case_if E2; [reflexivity |]; case_if E3; [reflexivity |]; to_prop.
  rewrite (agree_slice _ _ _ _ _ Hag 160) by lia; agree_fields Hag; reflexivity.
Qed.

(** The fields of the entry at [offset]. *)
Lemma entry_slice_agree offset off k :
  (32 + offset + off + k <= Z.to_nat ps)%nat ->
  slice off k (drop (set_base + offset) b) = slice off k (drop (set_base + offset) b').
Proof. intros; rewrite !slice_drop; unfold set_base; apply (agree_slice _ _ _ _ _ Hag); lia. Qed.

Lemma duplicate_name_agree fuel bytes offset prior name :
  (32 + bytes <= Z.to_nat ps)%nat -> (offset + 24 + length name <= bytes)%nat ->
  duplicate_name fuel b prior offset name = duplicate_name fuel b' prior offset name.
Proof.
  intros Hb Ho; revert prior; induction fuel as [| fuel IH]; intros prior; cbn [duplicate_name];
    case_decide; trivial.
  unfold le16_at; rewrite !entry_slice_agree by lia.
  case_if E1; [reflexivity | apply IH].
Qed.

Lemma stream_entry_agree bytes offset :
  (32 + bytes <= Z.to_nat ps)%nat -> (offset < bytes)%nat ->
  stream_entry_valid b bytes offset = stream_entry_valid b' bytes offset.
Proof.
  intros Hb Ho; unfold stream_entry_valid; change (sizeof metadata_stream_entry_layout) with 24%nat.
  change (sz metadata_stream_entry_layout) with 24; case_decide as Hd; [reflexivity |].
  unfold le16_at, le32_at; rewrite !entry_slice_agree by lia.
  set (rec := load_le16 (slice 0 2 _)); set (len := load_le16 (slice 2 2 _)).
  case_if E1; [reflexivity |]; to_prop.
  rewrite entry_slice_agree by lia.
  destruct (memchr0 _); [reflexivity |]; case_if E2; [reflexivity |].
  rewrite (agree_forallb (fun pad => b !!! (set_base + (offset + pad))%nat =? 0)
             (fun pad => b' !!! (set_base + (offset + pad))%nat =? 0))
    by (intros i Hi; unfold set_base; rewrite (agree_total _ _ _ _ _ Hag) by lia; reflexivity).
  case_if E3; [reflexivity |].
  rewrite (duplicate_name_agree _ bytes); trivial.
  assert (length (slice 24 (Z.to_nat len) (drop (set_base + offset) b')) <= Z.to_nat len)%nat
    by (unfold slice; rewrite length_take; lia).
  lia.
Qed.

Lemma stream_entries_agree fuel bytes offset seen :
  (32 + bytes <= Z.to_nat ps)%nat ->
  stream_entries fuel b bytes offset seen = stream_entries fuel b' bytes offset seen.
Proof.
  intros Hb; revert offset seen; induction fuel as [| fuel IH]; intros offset seen;
    cbn [stream_entries]; case_decide; trivial.
  rewrite stream_entry_agree by assumption; destruct (stream_entry_valid _ _ _); trivial.
Qed.

Lemma metadata_set_shape_agree :
  metadata_set_payload_shape_valid b ps = metadata_set_payload_shape_valid b' ps.
Proof.
  unfold metadata_set_payload_shape_valid, h_parent_id; sz_norm.
  destruct (ps <? 32) eqn:E1; [reflexivity |]; to_prop; agree_fields Hag.
  case_if E2; [reflexivity |]; case_if E3; [reflexivity |]; to_prop.
  rewrite stream_entries_agree by lia; reflexivity.
Qed.

End Shapes.

(** ** Finalized objects *)

(** The block with everything behind the payload cleared, sealed. *)
Lemma finalized_agree off hdr n b :
  length b = INFS_BLOCK_SIZE -> (off + 32 = hdr)%nat -> (hdr + n <= INFS_BLOCK_SIZE)%nat ->
  agree off hdr n (seal off (clear_from (hdr + n) b)) b.
Proof.
  intros Hl Ho Hn i Hi.
  assert (Hc : length (clear_from (hdr + n) b) = INFS_BLOCK_SIZE)
    by (unfold clear_from; rewrite length_splice; rewrite ?length_replicate; lia).
  rewrite seal_lookup by lia; unfold clear_from.
  rewrite lookup_splice by (rewrite length_replicate; lia).
  rewrite length_replicate, decide_False by lia; reflexivity.
Qed.

Lemma finalized_seal_ok off hdr n b :
  length b = INFS_BLOCK_SIZE -> bytes_ok b -> (off + 32 = hdr)%nat -> (hdr + n <= INFS_BLOCK_SIZE)%nat ->
  seal_ok off (seal off (clear_from (hdr + n) b)) = true /\
  zero_from (hdr + n) (seal off (clear_from (hdr + n) b)) = true.
Proof.
  intros Hl Hb Ho Hn.
  assert (Hc : length (clear_from (hdr + n) b) = INFS_BLOCK_SIZE)
    by (unfold clear_from; rewrite length_splice; rewrite ?length_replicate; lia).
  split.
  - apply seal_seal_ok; [lia |]; apply bytes_ok_splice; auto using zeros_ok.
  - unfold zero_from; apply bytes_are_zero_spec, Forall_lookup; intros i x.
    rewrite lookup_slice; case_decide; [| discriminate].
    rewrite seal_lookup by lia; unfold clear_from.
    rewrite lookup_splice by (rewrite length_replicate; lia); rewrite length_replicate, decide_True by lia.
    rewrite lookup_replicate; intros [-> _]; reflexivity.
Qed.

Lemma object_fields_agree b b' m :
  agree hdr_checksum_off hdr_size m b b' -> object_fields_ok b = object_fields_ok b'.
Proof.
  unfold hdr_checksum_off, hdr_size; intros H; unfold object_fields_ok, h_object_type,
    h_object_version, h_header_size, h_generation, h_object_id, h_payload_size, h_checksum_type.
  agree_fields H; reflexivity.
Qed.

Lemma payload_shape_agree b b' :
  agree hdr_checksum_off hdr_size (Z.to_nat (h_payload_size b')) b b' ->
  payload_shape_ok b = payload_shape_ok b'.
Proof.
  unfold hdr_checksum_off, hdr_size; intros H; unfold payload_shape_ok.
  assert (Hps : h_payload_size b = h_payload_size b') by (unfold h_payload_size; agree_fields H; trivial).
  assert (Ht : h_object_type b = h_object_type b') by (unfold h_object_type; agree_fields H; trivial).
  assert (Hv : h_object_version b = h_object_version b') by (unfold h_object_version; agree_fields H; trivial).
  rewrite Hps, Ht, Hv, (index_shape_agree _ _ _ H), (symlink_shape_agree _ _ _ H),
    (snapshot_shape_agree _ _ _ H), (principal_shape_agree _ _ _ H), (binding_index_shape_agree _ _ _ H),
    (security_shape_agree _ _ _ H), (extension_shape_agree _ _ _ H), (metadata_set_shape_agree _ _ _ H).
  unfold named_stream_parent_shape_valid, h_parent_id; agree_fields H; reflexivity.
Qed.

Lemma object_finalize_valid b block :
  length b = INFS_BLOCK_SIZE -> bytes_ok b -> infs_object_finalize b = Good block ->
  infs_validate_object_block block = true /\
  length block = INFS_BLOCK_SIZE /\ bytes_ok block /\
  agree hdr_checksum_off hdr_size (Z.to_nat (h_payload_size b)) block b.
Proof.
  intros Hl Hb; unfold infs_object_finalize; case_if Eg; [discriminate |]; intros [= <-].
  apply negb_false_iff, andb_true_iff in Eg as [Hf Hs].
  assert (Hps : (hdr_size + Z.to_nat (h_payload_size b) <= INFS_BLOCK_SIZE)%nat).
  { unfold object_fields_ok in Hf; sz_norm; to_prop; unfold block_size, hdr_size, INFS_BLOCK_SIZE in *; lia. }
  pose proof (finalized_agree hdr_checksum_off hdr_size _ b Hl eq_refl Hps) as Hag.
  destruct (finalized_seal_ok hdr_checksum_off hdr_size _ b Hl Hb eq_refl Hps) as [Hok Hz].
  set (block := seal _ _) in *.
  assert (Hsame : h_payload_size block = h_payload_size b).
  { unfold h_payload_size; unfold hdr_checksum_off in Hag; agree_fields Hag; reflexivity. }
  split_and!; trivial.
  - unfold infs_validate_object_block.
    rewrite (object_fields_agree _ _ _ Hag), (payload_shape_agree _ _ Hag), Hf, Hs, Hsame, Hz, Hok.
    reflexivity.
  - unfold block; assert (length (clear_from (hdr_size + Z.to_nat (h_payload_size b)) b) = INFS_BLOCK_SIZE).
    { unfold clear_from; rewrite length_splice; rewrite ?length_replicate; lia. }
    rewrite seal_length; trivial; unfold hdr_checksum_off, hdr_size in *; lia.
  - unfold block; apply seal_bytes_ok, bytes_ok_splice; auto using zeros_ok.
Qed.

(** ** Canonical blocks: what the validators accept is what the finalizers produce *)

Lemma seal_fix off b :
  (off + 32 <= length b)%nat -> bytes_ok b -> seal_ok off b = true -> seal off b = b.
Proof.
  intros Hl Hb [Hz Hc]%seal_ok_inv; unfold seal, block_crc_with_zeroed_checksum.
  rewrite (splice_splice_eq off (replicate 32 0) (replicate 32 0))
    by (rewrite ?length_replicate; lia); rewrite <- Hc.
  apply list_eq; intros i; destruct (store_le64_ok (le64_at off b)) as [_ Hs].
  assert (Hlz : length (splice off (replicate 32 0) b) = length b)
    by (apply length_splice; rewrite length_replicate; lia).
  rewrite !lookup_splice by (rewrite ?length_replicate; lia); rewrite Hs, length_replicate.
  case_decide as H8; [| case_decide as H32; [| reflexivity]].
  - unfold le64_at; rewrite load_le64_law, store_le64_law
      by (auto with infs; apply length_slice; lia).
    pose proof (le_store_load (slice off 8 b) (bytes_ok_slice _ _ _ Hb)) as Hls.
    rewrite length_slice in Hls by lia; rewrite Hls, lookup_slice, decide_True by lia; f_equal; lia.
  - rewrite lookup_replicate_2 by lia.
    destruct (lookup_lt_is_Some_2 b i ltac:(lia)) as [x Hx]; rewrite Hx.
    rewrite Forall_lookup in Hz; specialize (Hz (i - (off + 8))%nat x).
    rewrite lookup_slice, decide_True in Hz by lia.
    replace (off + 8 + (i - (off + 8)))%nat with i in Hz by lia; rewrite <- Hz; trivial.
Qed.

Lemma clear_fix n b :
  length b = INFS_BLOCK_SIZE -> (n <= INFS_BLOCK_SIZE)%nat -> zero_from n b = true -> clear_from n b = b.
Proof.
  unfold zero_from, clear_from; rewrite bytes_are_zero_spec; intros Hl Hn Hz.
  apply list_eq; intros i; rewrite lookup_splice by (rewrite length_replicate; lia).
  rewrite length_replicate; case_decide; [| reflexivity].
  rewrite lookup_replicate_2 by lia.
  destruct (lookup_lt_is_Some_2 b i ltac:(lia)) as [x Hx]; rewrite Hx.
  rewrite Forall_lookup in Hz; specialize (Hz (i - n)%nat x); rewrite lookup_slice, decide_True in Hz by lia.
  replace (n + (i - n))%nat with i in Hz by lia; rewrite <- Hz; trivial.
Qed.

(** C18.  An object block is accepted exactly when finalizing it changes nothing:
    the validator accepts the finalizer's output and only that. *)
Theorem object_valid_iff_canonical b :
  length b = INFS_BLOCK_SIZE -> bytes_ok b ->
  infs_validate_object_block b = true <-> infs_object_finalize b = Good b.
Proof.
  intros Hl Hb; split.
  - unfold infs_validate_object_block, infs_object_finalize; intros Hv.
    apply andb_true_iff in Hv as [[Hf Hz]%andb_true_iff Hs]; rewrite Hf; cbn [negb]; f_equal.
    apply andb_true_iff in Hf as [Hf _].
    assert (Hps : (hdr_size + Z.to_nat (h_payload_size b) <= INFS_BLOCK_SIZE)%nat).
    { unfold object_fields_ok in Hf; sz_norm; to_prop; unfold block_size, hdr_size, INFS_BLOCK_SIZE in *; lia. }
    rewrite clear_fix by assumption; apply seal_fix; trivial.
    rewrite Hl; unfold hdr_checksum_off, INFS_BLOCK_SIZE; lia.
  - intros Hf; eapply object_finalize_valid; eassumption.
Qed.

(** C32.  A metadata page with a known magic is accepted for an owner exactly when
    it carries that magic and owner and finalizing it changes nothing. *)
Theorem metadata_page_valid_iff_canonical b magic owner :
  length b = INFS_BLOCK_SIZE -> bytes_ok b -> In magic page_magics -> length owner = 16%nat ->
  infs_validate_metadata_page b magic owner = true <->
  slice 0 8 b = magic /\ p_owner b = owner /\ infs_metadata_page_finalize b = Good b.
Proof.
  intros Hl Hb Hm Ho; unfold infs_validate_metadata_page, infs_metadata_page_finalize.
  assert (Hmag : take 8 magic = magic).
  { cbn in Hm; repeat destruct Hm as [<- | Hm]; trivial; contradiction. }
  rewrite Hmag, (take_ge owner) by lia; split.
  - rewrite !andb_true_iff, !bytes_eqb_eq; intros [[[[H1 H2] Hf] Hz] Hs]; split_and!; trivial.
    replace (existsb _ _) with true
      by (symmetry; apply existsb_exists; exists magic; split; [trivial | apply bytes_eqb_eq; trivial]).
    rewrite Hf; cbn [negb andb]; f_equal.
    assert (Hu : (page_size + Z.to_nat (p_bytes_used b) <= INFS_BLOCK_SIZE)%nat).
    { unfold page_fields_ok, INFS_METADATA_PAGE_DATA_SIZE in Hf; change (sz metadata_page_layout) with 80 in Hf.
      to_prop; unfold block_size, page_size, INFS_BLOCK_SIZE in *; lia. }
    rewrite clear_fix by assumption; apply seal_fix; trivial.
    rewrite Hl; unfold page_checksum_off, INFS_BLOCK_SIZE; lia.
  - intros (H1 & H2 & Hf); destruct (negb _) eqn:Eg in Hf; [discriminate |].
    apply negb_false_iff, andb_true_iff in Eg as [_ Hg].
    rewrite H1, H2, !bytes_eqb_refl, Hg; cbn [andb].
    assert (Hu : (page_size + Z.to_nat (p_bytes_used b) <= INFS_BLOCK_SIZE)%nat).
    { unfold page_fields_ok, INFS_METADATA_PAGE_DATA_SIZE in Hg; change (sz metadata_page_layout) with 80 in Hg.
      to_prop; unfold block_size, page_size, INFS_BLOCK_SIZE in *; lia. }
    destruct (finalized_seal_ok page_checksum_off page_size _ b Hl Hb eq_refl Hu) as [Hok Hz].
    apply Good_inj in Hf; rewrite Hf in Hok, Hz; rewrite Hok, Hz; reflexivity.
Qed.

(** C33.  An allocation page is accepted at a position exactly when its level,
    index and generation fit that position and finalizing it changes nothing. *)
Theorem allocation_page_valid_iff_canonical b max_generation index level :
  length b = INFS_BLOCK_SIZE -> bytes_ok b -> 0 <= level -> max_generation <> 0 ->
  infs_validate_allocation_page b (allocation_magic level) max_generation index level = true <->
  ap_level b = level /\ ap_logical_index b = index /\ ap_generation b <= max_generation /\
  infs_allocation_page_finalize b = Good b.
Proof.
  intros Hl Hb Hlev Hmg; unfold infs_validate_allocation_page, infs_allocation_page_finalize; cbv zeta.
  assert (Hmag : take 8 (allocation_magic level) = allocation_magic level)
    by (unfold allocation_magic; destruct (level =? 0); reflexivity).
  assert (Hu : forall l, allocation_counts_ok l (ap_entry_count b) (ap_bytes_used b) = true ->
            (apage_size + Z.to_nat (ap_bytes_used b) <= INFS_BLOCK_SIZE)%nat).
  { unfold allocation_counts_ok; intros l Hc; apply andb_true_iff in Hc as [_ Hc].
    unfold INFS_ALLOCATION_PAGE_DATA_SIZE in Hc; change (sz allocation_page_layout) with 72 in Hc.
    to_prop; unfold block_size, apage_size, INFS_BLOCK_SIZE in *; lia. }
  rewrite Hmag; split.
  - rewrite !andb_true_iff.
    intros [[[[[[[[[[_ Hr] Hm] Hg] Hgm] Hi] Hll] Hct] Hc] Hz] Hs].
    apply Z.eqb_eq in Hi, Hll; apply Z.leb_le in Hgm; split_and!; trivial.
    apply negb_true_iff in Hg; rewrite Hll, Hg, Hm, Hct, Hc, Z.gtb_ltb, Z.ltb_antisym, Hr; cbn [negb orb].
    f_equal; rewrite clear_fix by eauto; apply seal_fix; trivial.
    rewrite Hl; unfold apage_checksum_off, INFS_BLOCK_SIZE; lia.
  - intros (Hll & Hi & Hgm & Hf); rewrite Hll in *; destruct (_ || _) eqn:Eg in Hf; [discriminate |].
    rewrite !orb_false_iff, !negb_false_iff in Eg; destruct Eg as [[[[Hg Hr] Hm] Hct] Hc].
    destruct (finalized_seal_ok apage_checksum_off apage_size _ b Hl Hb eq_refl (Hu _ Hc)) as [Hok Hz].
    apply Good_inj in Hf; rewrite Hf in Hok, Hz; rewrite Hm, Hg, Hct, Hc, Hok, Hz, Hi, !Z.eqb_refl.
    apply Z.leb_le in Hgm; rewrite Hgm; rewrite Z.gtb_ltb, Z.ltb_antisym, negb_false_iff in Hr.
    rewrite Hr; destruct (Z.eqb_spec max_generation 0); [contradiction | reflexivity].
Qed.

(** ** The superblock codec *)

(** A label field: text without zeros, which is UTF-8 if there is any, and then zeros. *)
Definition labelled (field : list Z) : Prop :=
  exists text, field = text ++ replicate (INFS_LABEL_MAX - length text) 0 /\ (length text < INFS_LABEL_MAX)%nat /\
    (0 ∉ text) /\ (text = [] \/ infs_utf8_validate text = true).

Lemma memchr0_spec l :
  match memchr0 l with
  | Some n => (n < length l)%nat /\ (0 ∉ take n l) /\ l !! n = Some 0
  | None => 0 ∉ l
  end.
Proof.
  induction l as [| b l IH]; cbn [memchr0]; [apply not_elem_of_nil |]; destruct (Z.eqb_spec b 0) as [-> |].
  - cbn; split_and!; [lia | apply not_elem_of_nil | reflexivity].
  - destruct (memchr0 l) as [n' |]; cbn [fmap option_fmap option_map length take lookup list_lookup].
    + destruct IH as (H1 & H2 & H3); split_and!; [lia | rewrite not_elem_of_cons; auto | exact H3].
    + rewrite not_elem_of_cons; auto.
Qed.

Lemma label_valid_iff field : length field = INFS_LABEL_MAX -> superblock_label_valid field = true <-> labelled field.
Proof.
  intros Hl; unfold superblock_label_valid, labelled; pose proof (memchr0_spec field) as Hm.
  destruct (memchr0 field) as [n |] eqn:Em.
  - destruct Hm as (Hn & H0 & Hz); assert (Htl : length (take n field) = n) by (rewrite length_take; lia); split.
    + case_if E1; [discriminate |]; rewrite forallb_forall; intros Hf; exists (take n field); rewrite Htl; split_and!; trivial; [| lia |].
      * apply list_eq_same_length with INFS_LABEL_MAX; [rewrite length_app, Htl, length_replicate; lia | lia |]; intros i x y Hi Hx Hy.
        destruct (decide (i < n)%nat); [rewrite lookup_app_l, lookup_take_lt in Hy by lia; congruence |].
        rewrite lookup_app_r, lookup_replicate_2 in Hy by lia; injection Hy as <-; destruct (decide (i = n)) as [-> |]; [congruence |].
        specialize (Hf i ltac:(apply in_seq; lia)); apply Z.eqb_eq in Hf; rewrite (list_lookup_total_correct _ _ _ Hx) in Hf; exact Hf.
      * apply andb_false_iff in E1; rewrite !negb_false_iff, bool_decide_eq_true in E1; destruct E1 as [-> | E1]; [left; apply take_0 | auto].
    + intros (text & Hf & Ht & Hnz & Hu); assert (Hlen : n = length text).
      { destruct (Nat.lt_trichotomy n (length text)) as [Hlt | [? | Hgt]]; [exfalso | assumption | exfalso].
        - apply Hnz, list_elem_of_lookup; exists n; rewrite <- Hz, Hf, lookup_app_l by exact Hlt; reflexivity.
        - apply H0, list_elem_of_lookup; exists (length text); rewrite lookup_take_lt, Hf, lookup_app_r, Nat.sub_diag by lia; apply lookup_replicate_2; lia. }
      assert (Htn : take n field = text) by (rewrite Hf, Hlen, take_app_length; reflexivity); rewrite Htn.
      case_if E1; [destruct Hu as [-> | Hu]; [rewrite Hlen in E1; discriminate | rewrite Hu, andb_false_r in E1; discriminate] |].
      apply forallb_forall; intros i Hi%in_seq; apply Z.eqb_eq; rewrite Hf, lookup_total_app_r by lia; apply lookup_total_replicate_2; lia.
  - split; [discriminate | intros (text & Hf & Ht & _)]; exfalso; apply Hm, list_elem_of_lookup; exists (length text).
    rewrite Hf, lookup_app_r, Nat.sub_diag by lia; apply lookup_replicate_2; lia.
Qed.

Lemma nonzero_iff (id : list Z) n : length id = n -> id_is_nonzero id = true <-> id <> replicate n 0.
Proof.
  intros Hl; unfold id_is_nonzero; rewrite negb_true_iff, <- not_true_iff_false, bytes_are_zero_spec; apply not_iff_compat.
  split; [intros H | intros ->; apply Forall_replicate; reflexivity].
  apply list_eq_same_length with n; rewrite ?length_replicate; trivial; intros i x y Hi Hx Hy.
  rewrite lookup_replicate_2 in Hy by lia; injection Hy as <-; symmetry; exact (Forall_lookup_1 _ _ _ _ H Hx).
Qed.

(** What the encoder asks of a superblock, and what reading it back asks besides. *)
Record identified (sb : list Z) : Prop := {
  id_label : labelled (sb_label sb);
  id_uuid : sb_filesystem_uuid sb <> replicate 16 0;
  id_root : sb_root_object_id sb <> replicate 16 0
}.

Record in_order (sb : list Z) : Prop := {
  or_magic : slice 0 8 sb = INFS_MAGIC;
  or_major : sb_format_major sb = INFS_FORMAT_MAJOR;
  or_minor : sb_format_minor sb = INFS_FORMAT_MINOR;
  or_header : sb_header_size sb = 252;
  or_shift : sb_block_shift sb = 12;
  or_checksum : sb_checksum_type sb = INFS_CHECKSUM_CRC64_ECMA;
  or_generation : sb_generation sb <> 0;
  or_known : forall i, 0 <= i -> Z.testbit (sb_incompat_flags sb) i = true -> Z.testbit INFS_KNOWN_INCOMPAT_FLAGS i = true;
  or_required : forall i, 0 <= i -> Z.testbit required_incompat_flags i = true -> Z.testbit (sb_incompat_flags sb) i = true
}.

Lemma zero_extended n b : length b = INFS_BLOCK_SIZE -> (n <= INFS_BLOCK_SIZE)%nat ->
  splice 0 (slice 0 n b) (replicate INFS_BLOCK_SIZE 0) = clear_from n b.
Proof.
  intros Hl Hn; assert (Hs : length (slice 0 n b) = n) by (apply length_slice; lia).
  unfold clear_from; apply list_eq; intros i; rewrite !lookup_splice by (rewrite ?Hs, ?length_replicate; lia); rewrite Hs, length_replicate.
  repeat case_decide; try lia; rewrite ?lookup_slice, ?Nat.sub_0_r; [rewrite decide_True by lia; reflexivity | rewrite !lookup_replicate_2 by lia; reflexivity |].
  rewrite lookup_ge_None_2, lookup_ge_None_2 by (rewrite ?length_replicate; lia); reflexivity.
Qed.

Lemma fields_ok_iff sb : length sb = sb_size ->
  superblock_fields_ok sb INFS_FORMAT_MINOR = true <-> identified sb /\ in_order sb.
Proof.
  intros Hl; unfold superblock_fields_ok; rewrite !andb_true_iff, !Z.eqb_eq, negb_true_iff, Z.eqb_neq, bytes_eqb_eq.
  assert (Hsl : forall off k, (off + k <= 252)%nat -> length (slice off k sb) = k) by (intros; apply length_slice; unfold sb_size in Hl; lia).
  rewrite (label_valid_iff (sb_label sb) (Hsl 156%nat 64%nat ltac:(lia))); rewrite (nonzero_iff (sb_filesystem_uuid sb) 16) by (apply Hsl; lia).
  rewrite (nonzero_iff (sb_root_object_id sb) 16) by (apply Hsl; lia); split.
  - intros (((((((((((H1 & H2) & H3) & H4) & H5) & H6) & H7) & H8) & H9) & H10) & H11) & H12); split; split; trivial; intros i Hi.
    + intros Hb; apply (f_equal (fun z => Z.testbit z i)) in H11; rewrite Z.ldiff_spec, Hb, Z.bits_0 in H11; cbn in H11; apply negb_false_iff; exact H11.
    + intros Hb; apply (f_equal (fun z => Z.testbit z i)) in H12; rewrite Z.land_spec, Hb, andb_true_r in H12; exact H12.
  - intros [[I1 I2 I3] [O1 O2 O3 O4 O5 O6 O7 O8 O9]]; split_and!; trivial; apply Z.bits_inj'; intros i Hi.
    + rewrite Z.ldiff_spec, Z.bits_0; destruct (Z.testbit (sb_incompat_flags sb) i) eqn:Eb; [rewrite (O8 i Hi Eb); reflexivity | reflexivity].
    + rewrite Z.land_spec; destruct (Z.testbit required_incompat_flags i) eqn:Eb; [rewrite (O9 i Hi Eb); reflexivity | apply andb_false_r].
Qed.

Lemma encode_iff sb : length sb = sb_size ->
  infs_encode_superblock sb = Good (seal sb_checksum_off (splice 0 sb (replicate INFS_BLOCK_SIZE 0))) /\ identified sb \/
  infs_encode_superblock sb = Bad INVALID_ARGUMENT /\ ~ identified sb.
Proof.
  intros Hl; unfold infs_encode_superblock; rewrite take_ge by lia.
  assert (Hsl : forall off k, (off + k <= 252)%nat -> length (slice off k sb) = k) by (intros; apply length_slice; unfold sb_size in Hl; lia).
  pose proof (label_valid_iff (sb_label sb) (Hsl 156%nat 64%nat ltac:(lia))) as Hlab.
  pose proof (nonzero_iff (sb_filesystem_uuid sb) 16 (Hsl 100%nat 16%nat ltac:(lia))) as Hu.
  pose proof (nonzero_iff (sb_root_object_id sb) 16 (Hsl 116%nat 16%nat ltac:(lia))) as Hr.
  destruct (superblock_label_valid _), (id_is_nonzero (sb_filesystem_uuid sb)), (id_is_nonzero (sb_root_object_id sb)); cbn [negb orb];
    first [left; split; [reflexivity | split; tauto] | right; split; [reflexivity | intros [? ? ?]]; intuition discriminate].
Qed.

Lemma encoded_valid sb : length sb = sb_size -> bytes_ok sb ->
  infs_validate_superblock_block (seal sb_checksum_off (splice 0 sb (replicate INFS_BLOCK_SIZE 0))) = superblock_fields_ok sb INFS_FORMAT_MINOR.
Proof.
  intros Hl Hb; pose proof (encoded_zero_tail sb Hl) as Hz; destruct (encoded_ok sb Hl Hb) as [Hlen Hok]; rewrite take_ge in Hz, Hlen, Hok by lia.
  unfold infs_validate_superblock_block, infs_validate_superblock_block_minor; cbn [Z.eqb Pos.eqb INFS_FORMAT_MINOR INFS_LOCATOR_FORMAT_MINOR negb andb].
  rewrite (superblock_fields_agree _ sb), Hz, seal_seal_ok; [rewrite !andb_true_r; reflexivity | rewrite Hlen; unfold sb_checksum_off, INFS_BLOCK_SIZE; lia | assumption |].
  intros i [Hi | Hi]; [rewrite <- (encoded_lookup sb i Hl Hi), take_ge by lia; reflexivity | lia].
Qed.

(** C31.  The superblock codec is exact.  The encoder accepts exactly the superblocks
    whose label is UTF-8 text and zeros and whose two identifiers are not zero, and
    changes no field but the checksum; what it wrote is read back, to the same
    fields, exactly when the other fields are in order, and is refused otherwise; and
    a block the decoder accepts is the encoding of what it returns. *)
Theorem superblock_codec_exact sb block :
  length sb = sb_size -> bytes_ok sb -> length block = INFS_BLOCK_SIZE -> bytes_ok block ->
  (identified sb -> exists block, infs_encode_superblock sb = Good block /\ length block = INFS_BLOCK_SIZE /\
     take sb_checksum_off block = take sb_checksum_off sb /\
     (in_order sb -> infs_decode_superblock block = Good (take sb_size block)) /\
     (~ in_order sb -> infs_decode_superblock block = Bad INVALID_ARGUMENT)) /\
  (~ identified sb -> infs_encode_superblock sb = Bad INVALID_ARGUMENT) /\
  (infs_decode_superblock block = Good sb -> identified sb /\ in_order sb /\ infs_encode_superblock sb = Good block).
Proof.
  intros Hsb Hbs Hl Hb; split_and!.
  - intros Hid; destruct (encode_iff sb Hsb) as [[He _] | [_ ?]]; [| contradiction]; eexists; split; [exact He |].
    destruct (encoded_ok sb Hsb Hbs) as [Hlen _]; pose proof (fun i Hi => encoded_lookup sb i Hsb Hi) as Hlook; rewrite take_ge in Hlen, Hlook by lia.
    unfold infs_decode_superblock; rewrite (encoded_valid sb Hsb Hbs); set (raw := seal _ _) in *; split_and!.
    + unfold raw; rewrite seal_length; rewrite Hlen; [reflexivity | unfold sb_checksum_off, INFS_BLOCK_SIZE; lia].
    + apply list_eq; intros i; destruct (decide (i < sb_checksum_off)%nat) as [Hi |]; [rewrite !lookup_take_lt by exact Hi; apply Hlook, Hi | rewrite !lookup_take_ge by lia; reflexivity].
    + intros Ho; rewrite (proj2 (fields_ok_iff sb Hsb) (conj Hid Ho)); reflexivity.
    + intros Ho; destruct (superblock_fields_ok sb INFS_FORMAT_MINOR) eqn:Ef; [apply (fields_ok_iff sb Hsb) in Ef; tauto | reflexivity].
  - intros Hid; destruct (encode_iff sb Hsb) as [[_ ?] | [-> _]]; [contradiction | reflexivity].
  - unfold infs_decode_superblock; destruct (infs_validate_superblock_block block) eqn:Ev; [| discriminate].
    cbn [negb]; intros H%Good_inj.
    unfold infs_validate_superblock_block, infs_validate_superblock_block_minor in Ev; cbn [Z.eqb Pos.eqb INFS_FORMAT_MINOR INFS_LOCATOR_FORMAT_MINOR negb andb] in Ev.
    apply andb_true_iff in Ev as [[Hf Hz]%andb_true_iff Hs]; rewrite (superblock_fields_agree block sb) in Hf.
    2: { intros i [Hi | Hi]; [| lia]; rewrite <- H, lookup_slice; rewrite decide_True by (unfold sb_checksum_off, sb_size in *; lia); reflexivity. }
    apply (fields_ok_iff sb Hsb) in Hf as [Hid Ho]; split_and!; trivial; destruct (encode_iff sb Hsb) as [[-> _] | [_ ?]]; [f_equal | contradiction].
    assert (Hc : splice 0 sb (replicate INFS_BLOCK_SIZE 0) = block).
    { rewrite <- (clear_fix sb_size block Hl ltac:(unfold sb_size, INFS_BLOCK_SIZE; lia) Hz), <- H; apply zero_extended; [exact Hl | unfold sb_size, INFS_BLOCK_SIZE; lia]. }
    rewrite Hc; apply seal_fix; trivial; rewrite Hl; unfold sb_checksum_off, INFS_BLOCK_SIZE; lia.
Qed.

(** ** Building a block field by field *)

Definition wf (b : list Z) : Prop := length b = INFS_BLOCK_SIZE /\ bytes_ok b.

Lemma wf_zero : wf (replicate INFS_BLOCK_SIZE 0).
Proof. split; [apply length_replicate | apply zeros_ok]. Qed.

(** A store of [k] bytes. *)
Definition chunk (k : nat) (bs : list Z) : Prop := length bs = k /\ bytes_ok bs.

Lemma chunk_16 v : chunk 2 (store_le16 v).
Proof. rewrite store_le16_law; split; [apply length_le_store | apply le_store_ok]. Qed.
Lemma chunk_32 v : chunk 4 (store_le32 v).
Proof. rewrite store_le32_law; split; [apply length_le_store | apply le_store_ok]. Qed.
Lemma chunk_64 v : chunk 8 (store_le64 v).
Proof. rewrite store_le64_law; split; [apply length_le_store | apply le_store_ok]. Qed.
Lemma chunk_id id : length id = 16%nat -> bytes_ok id -> chunk 16 (take 16 id).
Proof. intros; rewrite take_ge by lia; split; assumption. Qed.

Lemma wf_splice k off bs b :
  wf b -> chunk k bs -> (off + k <= INFS_BLOCK_SIZE)%nat -> wf (splice off bs b).
Proof.
  intros [Hl Hb] [Hk Hbs] Ho; split; [rewrite length_splice; lia | apply bytes_ok_splice; assumption].
Qed.

Lemma get16 off v b :
  wf b -> (off + 2 <= INFS_BLOCK_SIZE)%nat -> fits 16 v -> le16_at off (splice off (store_le16 v) b) = v.
Proof. intros [Hl _]; intros; apply le16_at_splice; lia || assumption. Qed.
Lemma get32 off v b :
  wf b -> (off + 4 <= INFS_BLOCK_SIZE)%nat -> fits 32 v -> le32_at off (splice off (store_le32 v) b) = v.
Proof. intros [Hl _]; intros; apply le32_at_splice; lia || assumption. Qed.
Lemma get64 off v b :
  wf b -> (off + 8 <= INFS_BLOCK_SIZE)%nat -> fits 64 v -> le64_at off (splice off (store_le64 v) b) = v.
Proof. intros [Hl _]; intros; apply le64_at_splice; lia || assumption. Qed.
Lemma get_id off id b :
  wf b -> (off + 16 <= INFS_BLOCK_SIZE)%nat -> length id = 16%nat ->
  slice off 16 (splice off (take 16 id) b) = id.
Proof.
  intros [Hl _] Ho Hi; rewrite take_ge by lia; rewrite <- Hi; apply slice_splice_eq; lia.
Qed.

(** Reading a field past a store elsewhere. *)
Lemma skip k off n o bs b :
  wf b -> chunk k bs -> (o + k <= INFS_BLOCK_SIZE)%nat -> (off + n <= o \/ o + k <= off)%nat ->
  slice off n (splice o bs b) = slice off n b.
Proof. intros [Hl _] [Hk _] Ho Hd; apply slice_splice_ne; lia. Qed.

Lemma skip16 k off o bs b :
  wf b -> chunk k bs -> (o + k <= INFS_BLOCK_SIZE)%nat -> (off + 2 <= o \/ o + k <= off)%nat ->
  le16_at off (splice o bs b) = le16_at off b.
Proof. intros; unfold le16_at; rewrite (skip k) by assumption; reflexivity. Qed.
Lemma skip32 k off o bs b :
  wf b -> chunk k bs -> (o + k <= INFS_BLOCK_SIZE)%nat -> (off + 4 <= o \/ o + k <= off)%nat ->
  le32_at off (splice o bs b) = le32_at off b.
Proof. intros; unfold le32_at; rewrite (skip k) by assumption; reflexivity. Qed.
Lemma skip64 k off o bs b :
  wf b -> chunk k bs -> (o + k <= INFS_BLOCK_SIZE)%nat -> (off + 8 <= o \/ o + k <= off)%nat ->
  le64_at off (splice o bs b) = le64_at off b.
Proof. intros; unfold le64_at; rewrite (skip k) by assumption; reflexivity. Qed.

Lemma in_block k : (k <= 1024)%nat -> (k <= INFS_BLOCK_SIZE)%nat.
Proof. unfold INFS_BLOCK_SIZE; lia. Qed.

Lemma chunk_magic : chunk 8 INFS_OBJECT_MAGIC.
Proof. split; [reflexivity | eval_decide]. Qed.

Lemma chunk_attributes links now : chunk 120 (attributes_record links now).
Proof.
  unfold attributes_record; split.
  - rewrite !length_app, !length_replicate.
    rewrite !store_le64_law, !store_le32_law, !length_le_store; reflexivity.
  - rewrite !bytes_ok_app, !store_le64_law, !store_le32_law.
    split_and!; auto using zeros_ok with infs.
Qed.

End Validators.

Ltac chunk_solve :=
  first [apply chunk_16 | apply chunk_32 | apply chunk_64 | apply chunk_magic
        | apply chunk_attributes | apply chunk_id; assumption | eassumption].

Ltac wf_solve :=
  repeat (eapply wf_splice; [| chunk_solve | apply in_block; lia]); apply wf_zero || assumption.

Ltac skip_side := first [wf_solve | chunk_solve | apply in_block; lia | lia].
Ltac get_side := first [wf_solve | apply in_block; lia | assumption | eval_decide].

(** Evaluate a field read of a block built by stores. *)
Ltac read_field :=
  repeat first
    [ rewrite get16 by get_side | rewrite get32 by get_side | rewrite get64 by get_side
    | rewrite get_id by get_side
    | erewrite skip16 by skip_side | erewrite skip32 by skip_side
    | erewrite skip64 by skip_side | erewrite skip by skip_side ].

Section Encoders.
Context {E : Endian} {P : Platform}.

Definition good_id (id : list Z) : Prop :=
  length id = 16%nat /\ bytes_ok id /\ id_is_nonzero id = true.

(** A block under construction whose header says what it should. *)
Record header_is (b : list Z) (type version : Z) (id : list Z) (generation ps : Z) : Prop := {
  hi_wf : wf b;
  hi_magic : slice 0 8 b = INFS_OBJECT_MAGIC;
  hi_type : h_object_type b = type;
  hi_version : h_object_version b = version;
  hi_header_size : h_header_size b = 96;
  hi_generation : h_generation b = generation;
  hi_id : h_object_id b = id;
  hi_payload_size : h_payload_size b = ps;
  hi_checksum : h_checksum_type b = INFS_CHECKSUM_CRC64_ECMA
}.

Lemma object_init_header type id generation ps :
  good_id id -> object_type_valid type = true -> fits 16 type -> fits 64 generation ->
  generation <> 0 -> 0 <= ps <= 4000 ->
  exists b, infs_object_init type id None generation ps = Good b /\
            header_is b type INFS_OBJECT_VERSION_CLASSIC id generation ps.
Proof.
  intros (Hl & Hb & Hnz) Ht Htf Hg Hg0 Hps; unfold infs_object_init; rewrite Hnz, Ht.
  assert (Hpf : fits 32 ps) by (split; lia).
  destruct (Z.eqb_spec generation 0); [contradiction |]; sz_norm.
  replace (ps >? block_size - 96) with false by (unfold block_size; lia); cbn [negb orb].
  eexists; split; [reflexivity |]; split; unfold h_object_type, h_object_version, h_header_size,
    h_generation, h_object_id, h_payload_size, h_checksum_type; [wf_solve | ..]; read_field; trivial.
Qed.

Lemma header_splice b type version id generation ps k o bs :
  header_is b type version id generation ps -> chunk k bs -> (96 <= o)%nat -> (o + k <= 1024)%nat ->
  header_is (splice o bs b) type version id generation ps.
Proof.
  intros [] Hc Ho Hk; pose proof (in_block _ Hk).
  split; unfold h_object_type, h_object_version, h_header_size, h_generation, h_object_id,
    h_payload_size, h_checksum_type in *;
    first [eapply wf_splice; eassumption
          | erewrite ?(skip16 k), ?(skip32 k), ?(skip64 k), ?(skip k) by (assumption || lia); assumption].
Qed.

Lemma header_set_version b type version id generation ps v :
  header_is b type version id generation ps -> fits 16 v ->
  header_is (splice 10 (store_le16 v) b) type v id generation ps.
Proof.
  intros [] Hv; split; unfold h_object_type, h_object_version, h_header_size, h_generation,
    h_object_id, h_payload_size, h_checksum_type in *; [wf_solve | ..]; read_field; trivial.
Qed.

Lemma header_set_payload_size b type version id generation ps n :
  header_is b type version id generation ps -> fits 32 n ->
  header_is (splice 56 (store_le32 n) b) type version id generation n.
Proof.
  intros [] Hv; split; unfold h_object_type, h_object_version, h_header_size, h_generation,
    h_object_id, h_payload_size, h_checksum_type in *; [wf_solve | ..]; read_field; trivial.
Qed.

Lemma header_agree b c type version id generation ps m :
  header_is b type version id generation ps -> agree hdr_checksum_off hdr_size m c b -> wf c ->
  header_is c type version id generation ps.
Proof.
  unfold hdr_checksum_off, hdr_size; intros [] Hag Hw; split; unfold h_object_type, h_object_version,
    h_header_size, h_generation, h_object_id, h_payload_size, h_checksum_type in *;
    agree_fields Hag; assumption.
Qed.

(** Such a block finalizes when its payload has the right shape. *)
Lemma header_finalizes b type version id generation ps :
  header_is b type version id generation ps -> good_id id ->
  object_type_valid type = true -> object_version_valid type version = true ->
  generation <> 0 -> 0 <= ps <= 4000 -> payload_shape_ok b = true ->
  exists block, infs_object_finalize b = Good block /\
    infs_validate_object_block block = true /\
    header_is block type version id generation ps /\
    agree hdr_checksum_off hdr_size (Z.to_nat ps) block b.
Proof.
  intros Hh (_ & _ & Hnz) Ht Hv Hg Hps Hs.
  assert (Hf : object_fields_ok b = true).
  { unfold object_fields_ok; destruct Hh as [_ -> -> -> -> -> -> -> ->].
    rewrite bytes_eqb_refl, Ht, Hv, Hnz; sz_norm; unfold block_size.
    destruct (Z.eqb_spec generation 0); [contradiction |].
    replace (ps <=? 4096 - 96) with true by lia; reflexivity. }
  destruct (hi_wf _ _ _ _ _ _ Hh) as [Hl Hb].
  destruct (infs_object_finalize b) as [block | e] eqn:Ef.
  - exists block; split; [reflexivity |].
    apply object_finalize_valid in Ef as (Hval & Hl' & Hb' & Hag); trivial.
    rewrite (hi_payload_size _ _ _ _ _ _ Hh) in Hag; split_and!; trivial.
    eapply header_agree; [exact Hh | exact Hag | split; assumption].
  - unfold infs_object_finalize in Ef; rewrite Hf, Hs in Ef; discriminate.
Qed.

(** The index head written at format time is accepted by the validator and
    carries the identifier, generation, root pointer and entry count it was given. *)
Lemma tree_object_index_encodes id generation root count :
  good_id id -> fits 64 generation -> generation <> 0 ->
  fits 64 root -> root <> 0 -> fits 32 count -> count <> 0 ->
  exists block, infs_encode_tree_object_index id generation root count = Good block /\
    wf block /\ infs_validate_object_block block = true /\
    h_object_type block = INFS_OBJECT_INDEX /\ h_object_id block = id /\
    h_generation block = generation /\ le32_at 96 block = count /\ le64_at 104 block = root.
Proof.
  intros Hid Hg Hg0 Hr Hr0 Hc Hc0; unfold infs_encode_tree_object_index.
  destruct (Z.eqb_spec root 0), (Z.eqb_spec count 0); try contradiction; cbn [orb]; sz_norm; change (8 + 8) with 16.
  destruct (object_init_header INFS_OBJECT_INDEX id generation 16) as (b0 & Hi & Hh); trivial;
    [eval_decide | lia |]; rewrite Hi; cbn [mbind result_bind].
  set (b := splice 56 _ _).
  assert (Hb : header_is b INFS_OBJECT_INDEX INFS_OBJECT_VERSION_TREE id generation 16).
  { apply (header_set_payload_size _ _ _ _ _ 16); [| eval_decide].
    apply (header_splice _ _ _ _ _ _ 8); [| chunk_solve | lia | lia].
    apply (header_splice _ _ _ _ _ _ 4); [| chunk_solve | lia | lia].
    apply (header_splice _ _ _ _ _ _ 4); [| chunk_solve | lia | lia].
    eapply header_set_version; [exact Hh | eval_decide]. }
  pose proof (hi_wf _ _ _ _ _ _ Hh) as Hw.
  assert (H96 : le32_at 96 b = count) by (unfold b; read_field; reflexivity).
  assert (H100 : le32_at 100 b = 0) by (unfold b; read_field; reflexivity).
  assert (H104 : le64_at 104 b = root) by (unfold b; read_field; reflexivity).
  destruct (header_finalizes b _ _ _ _ _ Hb) as (block & Hf & Hv & Hb2 & Hag); trivial; [lia | |].
  { unfold payload_shape_ok; rewrite (hi_type _ _ _ _ _ _ Hb), (hi_version _ _ _ _ _ _ Hb),
      (hi_payload_size _ _ _ _ _ _ Hb); unfold index_payload_shape_valid.
    rewrite H96, H100, H104; destruct (Z.eqb_spec count 0), (Z.eqb_spec root 0); contradiction || reflexivity. }
  exists block; unfold hdr_checksum_off, hdr_size in Hag; split_and!; trivial;
    try apply Hb2; agree_fields Hag; assumption.
Qed.

(** The root directory written at format time is accepted by the validator,
    is an empty directory tree and carries the identifier and generation given. *)
Lemma tree_root_directory_encodes id generation permissions uid gid now :
  good_id id -> fits 64 generation -> generation <> 0 -> fits 32 uid -> fits 32 gid ->
  exists block, infs_encode_tree_root_directory id generation permissions uid gid now = Good block /\
    wf block /\ infs_validate_object_block block = true /\
    h_object_type block = INFS_OBJECT_DIRECTORY /\ h_object_version block = INFS_OBJECT_VERSION_TREE /\
    h_object_id block = id /\ h_generation block = generation /\
    le32_at 216 block = permissions .& 4095 /\ le32_at 220 block = uid /\ le32_at 224 block = gid /\
    le32_at 232 block = 0 /\ le64_at 240 block = 0.
Proof.
  intros Hid Hg Hg0 Hu Hgi; unfold infs_encode_tree_root_directory, encode_root_directory_version; sz_norm.
  change (sz directory_payload_layout) with 144.
  destruct (object_init_header INFS_OBJECT_DIRECTORY id generation 144) as (b0 & Hi & Hh); trivial;
    [eval_decide | lia |]; rewrite Hi; cbn [mbind result_bind].
  set (b := splice 236 _ _).
  assert (Hb : header_is b INFS_OBJECT_DIRECTORY INFS_OBJECT_VERSION_TREE id generation 144).
  { do 5 (apply (header_splice _ _ _ _ _ _ 4); [| chunk_solve | lia | lia]).
    apply (header_splice _ _ _ _ _ _ 120); [| chunk_solve | lia | lia].
    eapply header_set_version; [exact Hh | eval_decide]. }
  pose proof (hi_wf _ _ _ _ _ _ Hh) as Hw0.
  assert (Hp : fits 32 (permissions .& 4095)).
  { apply land_fits_r; [lia | split; lia]. }
  assert (H216 : le32_at 216 b = permissions .& 4095) by (unfold b; read_field; reflexivity).
  assert (H220 : le32_at 220 b = uid) by (unfold b; read_field; reflexivity).
  assert (H224 : le32_at 224 b = gid) by (unfold b; read_field; reflexivity).
  assert (Hdir : forall c, h_object_type c = INFS_OBJECT_DIRECTORY -> payload_shape_ok c = true).
  { intros c Hc; unfold payload_shape_ok; rewrite Hc; reflexivity. }
  destruct (header_finalizes b _ _ _ _ _ Hb) as (c0 & Hf & _ & Hc0 & Hag0); trivial; [lia | apply Hdir, Hb |].
  rewrite Hf; cbn [mbind result_bind]; change (144 + 8) with 152; set (c := splice 56 _ _).
  assert (Hc : header_is c INFS_OBJECT_DIRECTORY INFS_OBJECT_VERSION_TREE id generation 152).
  { eapply header_set_payload_size; [| eval_decide].
    apply (header_splice _ _ _ _ _ _ 8); [| chunk_solve | lia | lia].
    do 2 (apply (header_splice _ _ _ _ _ _ 4); [| chunk_solve | lia | lia]); exact Hc0. }
  pose proof (hi_wf _ _ _ _ _ _ Hc0) as Hw.
  unfold hdr_checksum_off, hdr_size in Hag0.
  assert (Hkeep : le32_at 216 c = permissions .& 4095 /\ le32_at 220 c = uid /\ le32_at 224 c = gid /\
            le32_at 232 c = 0 /\ le64_at 240 c = 0).
  { unfold c; split_and!; read_field; agree_fields Hag0; trivial. }
  destruct (header_finalizes c _ _ _ _ _ Hc) as (block & Hf2 & Hv & Hb2 & Hag); trivial;
    [lia | apply Hdir, Hc |].
  unfold hdr_checksum_off, hdr_size in Hag; exists block; destruct Hkeep as (K1 & K2 & K3 & K4 & K5).
  split_and!; trivial; try apply Hb2; agree_fields Hag; assumption.
Qed.

End Encoders.
(** ** Concrete blocks *)

Section Samples.
Import SecurityFacts.
#[local] Existing Instance reference_endian.
#[local] Existing Instance reference_platform.

Definition sample_superblock : list Z :=
  INFS_MAGIC ++ store_le16 INFS_FORMAT_MAJOR ++ store_le16 INFS_FORMAT_MINOR ++ store_le16 252 ++
  store_le16 12 ++ store_le32 1 ++ store_le64 1 ++ store_le64 4096 ++ store_le64 4000 ++
  store_le64 5 ++ store_le64 1 ++ store_le64 6 ++ store_le64 7 ++
  replicate 24 0 ++ sample_id 1 ++ sample_id 2 ++ replicate 16 0 ++
  store_le64 INFS_KNOWN_INCOMPAT_FLAGS ++ [105; 110; 102; 115] ++ replicate 60 0 ++ replicate 32 0.

Definition block_of (r : result (list Z)) : list Z :=
  match r with Good b => b | Bad _ => [] end.

Definition sample_index : list Z := Eval vm_compute in
  block_of (infs_encode_tree_object_index (sample_id 1) 1 5 3).

Definition sample_page : list Z := Eval vm_compute in
  block_of (b ← infs_metadata_page_init INFS_INDEX_PAGE_MAGIC (sample_id 1) 1;
            infs_metadata_page_finalize b).

Definition sample_leaf : list Z := Eval vm_compute in
  block_of (b ← infs_allocation_page_init INFS_ALLOCATION_LEAF_PAGE_MAGIC 1 7 0;
            infs_allocation_page_finalize
              (splice 72 [255] (splice 28 (store_le32 8) (splice 32 (store_le32 1) b)))).

Definition sealed_superblock : list Z := Eval vm_compute in
  block_of (infs_encode_superblock sample_superblock).

Lemma superblock_codec_exact_witness :
  identified sample_superblock /\ in_order (take sb_size sealed_superblock) /\
  infs_encode_superblock (take sb_size sealed_superblock) = Good sealed_superblock /\
  infs_encode_superblock (splice 100 (replicate 16 0) sample_superblock) = Bad INVALID_ARGUMENT.
Proof.
  assert (Hd : infs_decode_superblock sealed_superblock = Good (take sb_size sealed_superblock)) by (vm_compute; reflexivity).
  destruct (superblock_codec_exact (take sb_size sealed_superblock) sealed_superblock) as (_ & _ & Hback);
    [reflexivity | eval_decide | reflexivity | eval_decide |].
  destruct (Hback Hd) as (H1 & H2 & H3); split_and!; trivial.
  destruct (encode_iff sample_superblock eq_refl) as [[_ H] | [H _]]; [exact H | vm_compute in H; discriminate].
Defined.

Lemma validators_detect_bursts_witness :
  infs_validate_object_block (take 100 sample_index ++ slice 100 4 sample_index ++ drop 104 sample_index)
    = true /\
  infs_validate_object_block (take 100 sample_index ++ [0; 0; 0; 9] ++ drop 104 sample_index) = false.
Proof.
  assert (Hv : infs_validate_object_block
    (take 100 sample_index ++ slice 100 4 sample_index ++ drop 104 sample_index) = true)
    by (vm_compute; reflexivity).
  split; [exact Hv |].
  refine (proj1 (proj2 (validators_detect_bursts (take 100 sample_index) (slice 100 4 sample_index)
    [0; 0; 0; 9] (drop 104 sample_index) [] [] 0 0 0 _ _ _ _ _ _)) _ Hv);
    [eval_decide | eval_decide | reflexivity | eval_decide | vm_compute; discriminate | reflexivity
    | unfold clear_window; eval_decide].
Defined.

Lemma object_valid_iff_canonical_witness :
  infs_validate_object_block sample_index = true /\ infs_object_finalize sample_index = Good sample_index.
Proof.
  assert (Hv : infs_validate_object_block sample_index = true) by (vm_compute; reflexivity).
  split; [exact Hv |].
  apply object_valid_iff_canonical; [reflexivity | eval_decide | exact Hv].
Defined.

Lemma metadata_page_valid_iff_canonical_witness :
  infs_validate_metadata_page sample_page INFS_INDEX_PAGE_MAGIC (sample_id 1) = true /\
  slice 0 8 sample_page = INFS_INDEX_PAGE_MAGIC /\ p_owner sample_page = sample_id 1 /\
  infs_metadata_page_finalize sample_page = Good sample_page.
Proof.
  assert (Hv : infs_validate_metadata_page sample_page INFS_INDEX_PAGE_MAGIC (sample_id 1) = true)
    by (vm_compute; reflexivity).
  split; [exact Hv |].
  apply metadata_page_valid_iff_canonical;
    [reflexivity | eval_decide | right; right; left; reflexivity | reflexivity | exact Hv].
Defined.

Lemma allocation_page_valid_iff_canonical_witness :
  infs_validate_allocation_page sample_leaf (allocation_magic 0) 3 7 0 = true /\
  ap_level sample_leaf = 0 /\ ap_logical_index sample_leaf = 7 /\ ap_generation sample_leaf <= 3 /\
  infs_allocation_page_finalize sample_leaf = Good sample_leaf.
Proof.
  assert (Hv : infs_validate_allocation_page sample_leaf (allocation_magic 0) 3 7 0 = true)
    by (vm_compute; reflexivity).
  split; [exact Hv |].
  apply allocation_page_valid_iff_canonical; [reflexivity | eval_decide | lia | lia | exact Hv].
Defined.

End Samples.
End ObjectsFacts.
