(* ===== verification/Locator.v ===== *)
(** Recovery locators of [src/src/locator.c] and [src/include/infilfs/locator.h]:
    the codec of the two fixed locator blocks, the placement of the first
    metadata extent, the candidate list, the discovery of checkpoint headers
    through the storage dispatch, and the selection of the best superblock
    ([infs_read_best_superblock] of [src/src/fs.c]).

    Out-parameters become results; [valid[i]] and [out[i]] together are an
    optional header.  Null-pointer tests have no counterpart. *)

From stdpp Require Import prelude.
From S2P Require Import Prelude Endian Checksum Format Storage Objects.
#[local] Open Scope Z_scope.

(** * Definitions *)

Module Locator.
Import Storage Objects.

Definition INFS_LOCATOR_SCHEMA_VERSION : Z := 1.
Definition INFS_LOCATOR_BLOCK_A : Z := 1.
Definition INFS_LOCATOR_BLOCK_B : Z := 2047.
Definition INFS_LOCATOR_MIN_VOLUME_BLOCKS : Z := 4096.
Definition INFS_LOCATOR_HEADER_BYTES : nat := 80.
Definition INFS_LOCATOR_MAX_CANDIDATES : nat := 9.

Record infs_locator := Loc {
  generation : Z; total_blocks : Z; checkpoint : list Z; filesystem_uuid : list Z
}.

Definition zero_locator : infs_locator := Loc 0 0 (replicate 3 0) (replicate 16 0).

Record infs_locator_candidate := Candidate {
  physical_block : Z; declared_total_blocks : Z; declared_checkpoint : list Z;
  c_filesystem_uuid : list Z; source_locator : Z
}.

(** INFSL019 *)
Definition locator_magic : list Z := [73; 78; 70; 83; 76; 48; 49; 57].

Definition get_u16 (p : list Z) : Z := u16 ((p !!! 0%nat) .| ((p !!! 1%nat) ≪ 8)).

Definition get_u64 (p : list Z) : Z :=
  fold_left (fun value i => value .| ((p !!! i) ≪ (Z.of_nat i * 8))) (seq 0 8) 0.

Definition put_u16 (value : Z) : list Z := [u8 value; u8 (value ≫ 8)].

Definition put_u64 (value : Z) : list Z :=
  map (fun i => u8 (value ≫ (Z.of_nat i * 8))) (seq 0 8).

Definition all_zero (p : list Z) : bool := bytes_or p =? 0.

Definition locator_fields_valid (loc : infs_locator) : bool :=
  if (generation loc =? 0) || (total_blocks loc <? INFS_LOCATOR_MIN_VOLUME_BLOCKS) ||
     all_zero (filesystem_uuid loc) || negb (checkpoint loc !!! 0%nat =? 0) then false
  else
    forallb (fun i =>
      let pos := checkpoint loc !!! i in
      negb ((pos >=? total_blocks loc) || (pos =? INFS_LOCATOR_BLOCK_A) ||
            (pos =? INFS_LOCATOR_BLOCK_B)) &&
      forallb (fun j => negb (pos =? checkpoint loc !!! j))
        (seq (i + 1) (INFS_CHECKPOINT_COUNT - (i + 1))))
      (seq 0 INFS_CHECKPOINT_COUNT).

Definition infs_locator_encode (record : infs_locator) : result (list Z) :=
  if negb (locator_fields_valid record) then Bad INVALID_ARGUMENT
  else
    let block := replicate INFS_BLOCK_SIZE 0 in
    let block := splice 0 locator_magic block in
    let block := splice 8 (put_u16 INFS_LOCATOR_SCHEMA_VERSION) block in
    let block := splice 10 (put_u16 (Z.of_nat INFS_LOCATOR_HEADER_BYTES)) block in
    let block := splice 12 (put_u16 INFS_FORMAT_MAJOR) block in
    let block := splice 14 (put_u16 INFS_LOCATOR_FORMAT_MINOR) block in
    let block := splice 16 (put_u64 (generation record)) block in
    let block := splice 24 (put_u64 (total_blocks record)) block in
    let block := fold_left (fun block i =>
                   splice (32 + i * 8) (put_u64 (checkpoint record !!! i)) block)
                   (seq 0 INFS_CHECKPOINT_COUNT) block in
    let block := splice 56 (take 16 (filesystem_uuid record)) block in
    Good (splice 72 (put_u64 (Crc64.infs_crc64_ecma block)) block).

(** The record the fields of a block describe. *)
Definition locator_of_block (block : list Z) : infs_locator :=
  Loc (get_u64 (slice 16 8 block)) (get_u64 (slice 24 8 block))
    (map (fun i => get_u64 (slice (32 + i * 8) 8 block)) (seq 0 INFS_CHECKPOINT_COUNT))
    (slice 56 16 block).

Definition infs_locator_decode (block : list Z) (physical_device_blocks : Z)
    : result infs_locator :=
  if (physical_device_blocks <? INFS_LOCATOR_MIN_VOLUME_BLOCKS) ||
     negb (bytes_eqb (slice 0 8 block) locator_magic) ||
     negb (get_u16 (slice 8 2 block) =? INFS_LOCATOR_SCHEMA_VERSION) ||
     negb (get_u16 (slice 10 2 block) =? Z.of_nat INFS_LOCATOR_HEADER_BYTES) ||
     negb (get_u16 (slice 12 2 block) =? INFS_FORMAT_MAJOR) ||
     negb (get_u16 (slice 14 2 block) =? INFS_LOCATOR_FORMAT_MINOR)
  then Bad CORRUPT
  else
    let stored_crc := get_u64 (slice 72 8 block) in
    let canonical := splice 72 (replicate 8 0) block in
    if negb (stored_crc =? Crc64.infs_crc64_ecma canonical) ||
       negb (all_zero (slice INFS_LOCATOR_HEADER_BYTES
                             (INFS_BLOCK_SIZE - INFS_LOCATOR_HEADER_BYTES) block))
    then Bad CORRUPT
    else
      let loc := locator_of_block block in
      if negb (locator_fields_valid loc) || (total_blocks loc >? physical_device_blocks)
      then Bad CORRUPT
      else Good loc.

Definition infs_locator_plan_initial_metadata (total metadata_blocks : Z) : result Z :=
  if (total <? INFS_LOCATOR_MIN_VOLUME_BLOCKS) || (metadata_blocks =? 0) ||
     (metadata_blocks >? total) then Bad INVALID_ARGUMENT
  else
    let midpoint := total / 2 in
    if (metadata_blocks <=? INFS_LOCATOR_BLOCK_B - 2) && (metadata_blocks <? u64 (midpoint - 2))
    then Good 2
    else if (midpoint >? INFS_LOCATOR_BLOCK_B + 1) &&
            (metadata_blocks <? u64 (midpoint - (INFS_LOCATOR_BLOCK_B + 1)))
    then Good (INFS_LOCATOR_BLOCK_B + 1)
    else Bad NO_SPACE.

(** The three candidates of one map. *)
Definition map_candidates (loc : infs_locator) (source : Z) : list infs_locator_candidate :=
  map (fun j => Candidate (checkpoint loc !!! j) (total_blocks loc) (checkpoint loc)
                  (filesystem_uuid loc) source) (seq 0 INFS_CHECKPOINT_COUNT).

(** [valid_mask & (1u << i)]. *)
Definition in_mask (mask : Z) (i : nat) : bool := negb ((mask .& (1 ≪ Z.of_nat i)) =? 0).

Fixpoint collect_candidates (locators : list infs_locator) (valid_mask physical_blocks : Z)
    (indices : list nat) (out : list infs_locator_candidate) : result (list infs_locator_candidate) :=
  match indices with
  | [] => Good out
  | i :: rest =>
      let loc := nth i locators zero_locator in
      if negb (in_mask valid_mask i) then
        collect_candidates locators valid_mask physical_blocks rest out
      else if negb (locator_fields_valid loc) || (total_blocks loc >? physical_blocks)
      then Bad CORRUPT
      else collect_candidates locators valid_mask physical_blocks rest
             (out ++ map_candidates loc (Z.of_nat i))
  end.

Definition infs_locator_candidates (locators : list infs_locator)
    (valid_mask physical_blocks : Z) : result (list infs_locator_candidate) :=
  if negb ((valid_mask .& 0xFC) =? 0) then Bad INVALID_ARGUMENT
  else if ((valid_mask .& 3) =? 3) &&
          negb (bytes_eqb (filesystem_uuid (nth 0 locators zero_locator))
                          (filesystem_uuid (nth 1 locators zero_locator)))
  then Bad CORRUPT
  else
    out ← collect_candidates locators valid_mask physical_blocks [0; 1]%nat [];
    match out with [] => Bad CORRUPT | _ :: _ => Good out end.

(** ** Discovery *)

Section Discovery.
Context {E : Endian} {P : Platform} {C : Type}.

(** [if (first_read_error == INFS_STATUS_OK) first_read_error = status]. *)
Definition note_error (first status : infs_status) : infs_status :=
  if decide (first = OK) then status else first.

(** What the discovery threads through its reads: the storage handle and
    [first_read_error]. *)
Definition reading : Type := infs_storage C * infs_status.

(** Read one block; a failure is noted and the caller goes on. *)
Definition try_read (block : Z) (st : reading) : option (list Z) * reading :=
  let '(r, s') := infs_storage_read st.1 (u64 (block * block_size)) INFS_BLOCK_SIZE in
  match r with
  | Good raw => (Some raw, (s', st.2))
  | Bad status => (None, (s', note_error st.2 status))
  end.

(** The record in a block, if it decodes. *)
Definition locator_of (physical_blocks : Z) (raw : list Z) : option infs_locator :=
  match infs_locator_decode raw physical_blocks with Good loc => Some loc | Bad _ => None end.

Definition read_locator (physical_blocks address : Z) (st : reading)
    : option infs_locator * reading :=
  let '(raw, st) := try_read address st in (raw ≫= locator_of physical_blocks, st).

(** The map of a superblock. *)
Definition primary_map (anchor : list Z) : infs_locator :=
  Loc (sb_generation anchor) (sb_total_blocks anchor)
    (map (sb_checkpoint_block anchor) (seq 0 INFS_CHECKPOINT_COUNT)) (sb_filesystem_uuid anchor).

Definition primary_of_block (physical_blocks : Z) (raw : list Z) : option infs_locator :=
  if infs_validate_superblock_block_minor raw INFS_LOCATOR_FORMAT_MINOR then
    let primary := primary_map (slice 0 sb_size raw) in
    if locator_fields_valid primary && (total_blocks primary <=? physical_blocks)
    then Some primary else None
  else None.

Definition read_primary (physical_blocks : Z) (st : reading) : option infs_locator * reading :=
  let '(raw, st) := try_read 0 st in (raw ≫= primary_of_block physical_blocks, st).

(** The comparison of the primary map with the locators: whether one has the same
    geometry, or [CORRUPT] when one names another filesystem. *)
Fixpoint same_geometry (primary : infs_locator) (locators : list (option infs_locator))
    (same : bool) : result bool :=
  match locators with
  | [] => Good same
  | None :: rest => same_geometry primary rest same
  | Some loc :: rest =>
      if negb (bytes_eqb (filesystem_uuid primary) (filesystem_uuid loc)) then Bad CORRUPT
      else same_geometry primary rest
             (same || ((total_blocks primary =? total_blocks loc) &&
                       bool_decide (checkpoint primary = checkpoint loc)))
  end.

(** The locators as the mask and array of the code. *)
Definition mask_of (l0 l1 : option infs_locator) : Z :=
  match l0 with Some _ => 1 | None => 0 end .| match l1 with Some _ => 2 | None => 0 end.

(** From the maps that survive to the list of blocks to probe. *)
Definition gather (l0 l1 primary : option infs_locator) (physical_blocks : Z)
    (first_read_error : infs_status) : result (list infs_locator_candidate) :=
  let mask := mask_of l0 l1 in
  locations ← (if mask =? 0 then Good []
               else infs_locator_candidates [default zero_locator l0; default zero_locator l1]
                      mask physical_blocks);
  locations ← match primary with
              | None => Good locations
              | Some p => same ← same_geometry p [l0; l1] false;
                          Good (if same : bool then locations else locations ++ map_candidates p 2)
              end;
  match locations with
  | [] => Bad (note_error first_read_error CORRUPT)
  | _ :: _ => Good locations
  end.

(** A candidate block that is the header its map declares. *)
Definition check_header (hint : infs_locator_candidate) (raw : list Z) : option (list Z) :=
  if negb (infs_validate_superblock_block_minor raw INFS_LOCATOR_FORMAT_MINOR) then None
  else
    let sb := slice 0 sb_size raw in
    if negb (sb_total_blocks sb =? declared_total_blocks hint) ||
       negb (bytes_eqb (sb_filesystem_uuid sb) (c_filesystem_uuid hint)) then None
    else if forallb (fun j => sb_checkpoint_block sb j =? declared_checkpoint hint !!! j)
              (seq 0 INFS_CHECKPOINT_COUNT)
    then Some sb else None.

Fixpoint probe (hints : list infs_locator_candidate) (st : reading)
    : list (option (list Z)) * reading :=
  match hints with
  | [] => ([], st)
  | hint :: rest =>
      let '(raw, st) := try_read (physical_block hint) st in
      let '(found, st) := probe rest st in
      ((raw ≫= check_header hint) :: found, st)
  end.

(** The headers by candidate ([None] where [valid[i]] is 0), [read_error] and the
    handle. *)
Definition infs_locator_discover_019_headers_with_errors (s : infs_storage C)
    (physical_size_bytes : Z)
    : result (list (option (list Z))) * infs_status * infs_storage C :=
  let physical_blocks := physical_size_bytes / block_size in
  if negb (infs_storage_valid s) || negb (physical_size_bytes mod block_size =? 0) ||
     (physical_blocks <? INFS_LOCATOR_MIN_VOLUME_BLOCKS) then (Bad INVALID_ARGUMENT, OK, s)
  else
    let '(l0, st) := read_locator physical_blocks INFS_LOCATOR_BLOCK_A (s, OK) in
    let '(l1, st) := read_locator physical_blocks INFS_LOCATOR_BLOCK_B st in
    let '(primary, st) := read_primary physical_blocks st in
    match gather l0 l1 primary physical_blocks st.2 with
    | Bad e => (Bad e, OK, st.1)
    | Good locations =>
        let '(found, st) := probe locations st in
        let out := found ++ replicate (INFS_LOCATOR_MAX_CANDIDATES - length found) None in
        (if forallb (fun h => bool_decide (h = None)) out
         then Bad (note_error st.2 CORRUPT) else Good out, st.2, st.1)
    end.

Definition infs_locator_discover_019_headers (s : infs_storage C) (physical_size_bytes : Z)
    : result (list (option (list Z))) * infs_storage C :=
  let '(r, _, s) := infs_locator_discover_019_headers_with_errors s physical_size_bytes in (r, s).

(** ** The best superblock *)

(** One turn of the selection loop on [best] and [generation]. *)
Definition best_step (headers : list (option (list Z))) (best : nat * Z) (i : nat) : nat * Z :=
  match headers !! i with
  | Some (Some sb) => if sb_generation sb >? best.2 then (i, sb_generation sb) else best
  | _ => best
  end.

(** The index of the candidate with the largest generation. *)
Definition best_header (headers : list (option (list Z))) : nat * Z :=
  fold_left (best_step headers) (seq 0 INFS_LOCATOR_MAX_CANDIDATES) (0%nat, 0).

(** Whether a checkpoint copy belongs to the superblock chosen. *)
Definition copy_matches (out raw : list Z) : bool :=
  match infs_decode_superblock raw with
  | Bad _ => false
  | Good copy =>
      bytes_eqb (slice 28 8 copy) (slice 28 8 out) &&
      bytes_eqb (sb_filesystem_uuid copy) (sb_filesystem_uuid out) &&
      bytes_eqb (slice 76 24 copy) (slice 76 24 out)
  end.

Fixpoint count_copies (out : list Z) (indices : list nat) (s : infs_storage C)
    : Z * infs_storage C :=
  match indices with
  | [] => (0, s)
  | i :: rest =>
      let '(r, s) := infs_storage_read s (u64 (sb_checkpoint_block out i * block_size))
                       INFS_BLOCK_SIZE in
      let '(n, s) := count_copies out rest s in
      (match r with Good raw => if copy_matches out raw then 1 + n else n | Bad _ => n end, s)
  end.

(** The superblock and the number of valid copies.  [candidates[best]] is always a
    header that was filled in; see [best_header_spec]. *)
Definition infs_read_best_superblock (s : infs_storage C) (size_bytes : Z)
    : result (list Z * Z) * infs_storage C :=
  let '(r, s) := infs_locator_discover_019_headers s size_bytes in
  match r with
  | Bad e => (Bad e, s)
  | Good headers =>
      let out := default [] (mjoin (headers !! (best_header headers).1)) in
      let '(copies, s) := count_copies out (seq 0 INFS_CHECKPOINT_COUNT) s in
      (Good (out, copies), s)
  end.

(** The major and minor version of a volume, [NOT_FOUND] without the magic. *)
Definition infs_probe_format_signature (s : infs_storage C) : result (Z * Z) * infs_storage C :=
  let '(r, s) := infs_storage_read s 0 12 in
  (prefix ← r;
   if negb (bytes_eqb (slice 0 8 prefix) INFS_MAGIC) then Bad NOT_FOUND
   else Good (u16 ((prefix !!! 8%nat) .| ((prefix !!! 9%nat) ≪ 8)),
              u16 ((prefix !!! 10%nat) .| ((prefix !!! 11%nat) ≪ 8))), s).

End Discovery.
End Locator.

(** * Facts *)

Module LocatorFacts.
Import Storage Objects Locator ObjectsFacts StorageFacts.

(** ** Byte order *)

Lemma put_u16_store v : put_u16 v = le_store 2 v.
Proof. reflexivity. Qed.

Lemma put_u64_store v : put_u64 v = le_store 8 v.
Proof.
  unfold put_u64; cbn [seq map le_store]; rewrite !Z.shiftr_shiftr by lia.
  rewrite Z.shiftr_0_r; reflexivity.
Qed.

Lemma get_u16_load l : length l = 2%nat -> bytes_ok l -> get_u16 l = le_load l.
Proof.
  intros Hl Hb; destruct l as [| a [| b [|]]]; try discriminate.
  unfold get_u16; rewrite wrap_small.
  - cbn [le_load]; rewrite Z.shiftl_0_l, Z.lor_0_r; reflexivity.
  - replace (_ .| _) with (le_load [a; b]) by (cbn; rewrite Z.lor_0_r; reflexivity).
    apply (le_load_fits [a; b]); assumption.
Qed.

Lemma get_u64_load l : length l = 8%nat -> get_u64 l = le_load l.
Proof.
  intros Hl; do 8 (destruct l as [| ? l]; [discriminate |]); destruct l; [| discriminate].
  unfold get_u64; cbn [seq fold_left le_load]; rewrite !Z.shiftl_0_l, !Z.lor_0_r, !Z.lor_0_l.
  rewrite !Z.shiftl_lor, !Z.shiftl_shiftl, !Z.lor_assoc by lia.
  rewrite Z.shiftl_0_r; reflexivity.
Qed.

Lemma get_put_u64 v : fits 64 v -> get_u64 (put_u64 v) = v.
Proof.
  intros Hv; rewrite get_u64_load, put_u64_store by reflexivity.
  apply (le_load_store_id 8), Hv.
Qed.

Lemma get_put_u16 v : fits 16 v -> get_u16 (put_u16 v) = v.
Proof.
  intros Hv; rewrite get_u16_load, put_u16_store by (reflexivity || apply (le_store_ok 2)).
  apply (le_load_store_id 2), Hv.
Qed.

Lemma put_get_u64 l : length l = 8%nat -> bytes_ok l -> put_u64 (get_u64 l) = l.
Proof.
  intros Hl Hb; rewrite get_u64_load, put_u64_store by assumption.
  rewrite <- Hl; apply le_store_load, Hb.
Qed.

Lemma put_get_u16 l : length l = 2%nat -> bytes_ok l -> put_u16 (get_u16 l) = l.
Proof.
  intros Hl Hb; rewrite get_u16_load, put_u16_store by assumption.
  rewrite <- Hl; apply le_store_load, Hb.
Qed.

(** ** The block as its fields *)

(** Stores one behind the other. *)
Fixpoint stores (off : nat) (chunks : list (list Z)) (b : list Z) : list Z :=
  match chunks with
  | [] => b
  | c :: rest => stores (off + length c) rest (splice off c b)
  end.

(** In a cleared buffer they leave their concatenation. *)
Lemma stores_concat chunks a n :
  (length (concat chunks) <= n)%nat ->
  stores (length a) chunks (a ++ replicate n 0) =
  a ++ concat chunks ++ replicate (n - length (concat chunks)) 0.
Proof.
  revert a n; induction chunks as [| c rest IH]; intros a n; cbn [stores concat].
  - simpl; rewrite Nat.sub_0_r; reflexivity.
  - rewrite length_app; intros Hn.
    assert (splice (length a) c (a ++ replicate n 0) = (a ++ c) ++ replicate (n - length c) 0) as ->.
    { unfold splice; rewrite take_app_length, drop_app_ge, drop_replicate by lia.
      rewrite <- app_assoc; do 3 f_equal; lia. }
    rewrite <- length_app, IH by lia; rewrite <- !app_assoc; do 4 f_equal; lia.
Qed.

Lemma drop_chunk k n (b r : list Z) : drop (k + n) b = r -> drop k b = slice k n b ++ r.
Proof. intros <-; unfold slice; rewrite <- (take_drop n (drop k b)) at 1; rewrite drop_drop; reflexivity. Qed.

Lemma slice_skip k off n (x r : list Z) :
  length x = k -> (k <= off)%nat -> slice off n (x ++ r) = slice (off - k) n r.
Proof. intros <- Hk; apply slice_app_right, Hk. Qed.

Lemma slice_head n (x r : list Z) : length x = n -> slice 0 n (x ++ r) = x.
Proof. intros <-; unfold slice; rewrite drop_0; apply take_app_length. Qed.

(** The fields before the checksum. *)
Definition fields (l : infs_locator) : list Z :=
  locator_magic ++ put_u16 INFS_LOCATOR_SCHEMA_VERSION ++
  put_u16 (Z.of_nat INFS_LOCATOR_HEADER_BYTES) ++ put_u16 INFS_FORMAT_MAJOR ++
  put_u16 INFS_LOCATOR_FORMAT_MINOR ++ put_u64 (generation l) ++ put_u64 (total_blocks l) ++
  put_u64 (checkpoint l !!! 0%nat) ++ put_u64 (checkpoint l !!! 1%nat) ++
  put_u64 (checkpoint l !!! 2%nat) ++ filesystem_uuid l.

Definition with_crc (l : infs_locator) (crc : list Z) : list Z :=
  fields l ++ crc ++ replicate (INFS_BLOCK_SIZE - INFS_LOCATOR_HEADER_BYTES) 0.

Definition locator_crc (l : infs_locator) : Z :=
  Crc64.infs_crc64_ecma (with_crc l (replicate 8 0)).

(** A record as the C type has it. *)
Definition well_typed (l : infs_locator) : Prop :=
  fits 64 (generation l) /\ fits 64 (total_blocks l) /\
  length (checkpoint l) = 3%nat /\ Forall (fits 64) (checkpoint l) /\
  length (filesystem_uuid l) = 16%nat /\ bytes_ok (filesystem_uuid l).

Lemma length_fields l : length (filesystem_uuid l) = 16%nat -> length (fields l) = 72%nat.
Proof. intros H; unfold fields; rewrite !length_app, H; reflexivity. Qed.

Lemma length_with_crc l crc :
  length (filesystem_uuid l) = 16%nat -> length crc = 8%nat ->
  length (with_crc l crc) = INFS_BLOCK_SIZE.
Proof.
  intros Hu Hc; unfold with_crc; rewrite !length_app, (length_fields l Hu), Hc, length_replicate.
  reflexivity.
Qed.

Lemma length_locator_magic : length locator_magic = 8%nat.
Proof. reflexivity. Qed.

Lemma length_put_u16 v : length (put_u16 v) = 2%nat.
Proof. reflexivity. Qed.

Lemma length_put_u64 v : length (put_u64 v) = 8%nat.
Proof. reflexivity. Qed.

(** The encoder's sequence of stores. *)
Lemma encode_stores l :
  length (filesystem_uuid l) = 16%nat ->
  splice 56 (take 16 (filesystem_uuid l))
    (splice 48 (put_u64 (checkpoint l !!! 2%nat))
    (splice 40 (put_u64 (checkpoint l !!! 1%nat))
    (splice 32 (put_u64 (checkpoint l !!! 0%nat))
    (splice 24 (put_u64 (total_blocks l))
    (splice 16 (put_u64 (generation l))
    (splice 14 (put_u16 INFS_LOCATOR_FORMAT_MINOR)
    (splice 12 (put_u16 INFS_FORMAT_MAJOR)
    (splice 10 (put_u16 (Z.of_nat INFS_LOCATOR_HEADER_BYTES))
    (splice 8 (put_u16 INFS_LOCATOR_SCHEMA_VERSION)
    (splice 0 locator_magic (replicate INFS_BLOCK_SIZE 0))))))))))) = with_crc l (replicate 8 0).
Proof.
  intros Hu; rewrite (take_ge (filesystem_uuid l)) by lia.
  transitivity (stores 0 [locator_magic; put_u16 INFS_LOCATOR_SCHEMA_VERSION;
    put_u16 (Z.of_nat INFS_LOCATOR_HEADER_BYTES); put_u16 INFS_FORMAT_MAJOR;
    put_u16 INFS_LOCATOR_FORMAT_MINOR; put_u64 (generation l); put_u64 (total_blocks l);
    put_u64 (checkpoint l !!! 0%nat); put_u64 (checkpoint l !!! 1%nat);
    put_u64 (checkpoint l !!! 2%nat); filesystem_uuid l] (replicate INFS_BLOCK_SIZE 0));
    [reflexivity |].
  set (cs := _ :: _); assert (Hc : concat cs = fields l).
  { unfold cs, fields; cbn [concat]; rewrite app_nil_r; reflexivity. }
  pose proof (stores_concat cs [] INFS_BLOCK_SIZE) as Hs; rewrite Hc, (length_fields l Hu) in Hs.
  etransitivity; [apply Hs; unfold INFS_BLOCK_SIZE; lia |]; cbn [app].
  unfold with_crc; rewrite <- replicate_add; reflexivity.
Qed.

Lemma encode_shape l :
  length (filesystem_uuid l) = 16%nat ->
  infs_locator_encode l =
    if locator_fields_valid l then Good (with_crc l (put_u64 (locator_crc l)))
    else Bad INVALID_ARGUMENT.
Proof.
  intros Hu; unfold infs_locator_encode; destruct (locator_fields_valid l); [| reflexivity].
  cbn [negb INFS_CHECKPOINT_COUNT seq fold_left Nat.add Nat.mul].
  rewrite (encode_stores l Hu); f_equal; unfold locator_crc, with_crc at 1 3.
  rewrite <- (length_fields l Hu); apply splice_app; reflexivity.
Qed.

#[local] Opaque put_u16 put_u64 get_u16 get_u64.

(** ** Round trip *)

Lemma slice_zero_crc l crc :
  length (filesystem_uuid l) = 16%nat -> length crc = 8%nat ->
  splice 72 (replicate 8 0) (with_crc l crc) = with_crc l (replicate 8 0).
Proof.
  intros Hu Hc; unfold with_crc; rewrite <- (length_fields l Hu); apply splice_app; assumption.
Qed.

(** Read a field of [with_crc]. *)
Ltac chunk :=
  unfold with_crc, fields; rewrite <- ?app_assoc;
  repeat (erewrite slice_skip by (first [apply length_locator_magic | apply length_put_u16 | apply length_put_u64 | eassumption | lia]);
          cbn [Nat.sub]);
  apply slice_head; first [apply length_locator_magic | apply length_put_u16 | apply length_put_u64 | assumption].

Lemma locator_of_with_crc l crc : well_typed l -> locator_of_block (with_crc l crc) = l.
Proof.
  intros (Hg & Ht & Hc & Hf & Hu & _); unfold locator_of_block.
  assert (Hcp : map (fun i => get_u64 (slice (32 + i * 8) 8 (with_crc l crc))) (seq 0 INFS_CHECKPOINT_COUNT)
          = checkpoint l).
  { apply (list_eq_same_length _ _ 3%nat); [assumption | reflexivity |].
    intros i x y Hi Hx Hy; apply (Forall_lookup_1 _ _ i y) in Hf; [| exact Hy].
    rewrite <- (get_put_u64 y Hf), <- (list_lookup_total_correct _ _ _ Hy).
    destruct i as [| [| [| i]]]; [| | | lia]; injection Hx as <-; f_equal; chunk. }
  rewrite Hcp; destruct l as [g t cp u]; cbn [generation total_blocks checkpoint filesystem_uuid] in *.
  f_equal.
  - transitivity (get_u64 (put_u64 g)); [f_equal; chunk | apply get_put_u64, Hg].
  - transitivity (get_u64 (put_u64 t)); [f_equal; chunk | apply get_put_u64, Ht].
  - chunk.
Qed.

Lemma bytes_slice_ok off n (b : list Z) :
  length b = INFS_BLOCK_SIZE -> bytes_ok b -> (off + n <= 4096)%nat ->
  length (slice off n b) = n /\ bytes_ok (slice off n b).
Proof. intros Hl Hb Ho; split; [apply length_slice; rewrite Hl; exact Ho | auto with infs]. Qed.

Lemma get_u64_fits l : length l = 8%nat -> bytes_ok l -> fits 64 (get_u64 l).
Proof. intros Hl Hb; rewrite get_u64_load by exact Hl; rewrite <- (le_store_load l Hb), Hl. apply (le_load_fits _ (le_store_ok 8 _)). Qed.

Lemma locator_of_block_typed b :
  length b = INFS_BLOCK_SIZE -> bytes_ok b -> well_typed (locator_of_block b).
Proof.
  intros Hl Hb; unfold well_typed, locator_of_block; cbn [generation total_blocks checkpoint filesystem_uuid].
  assert (Hg : forall off, (off + 8 <= 4096)%nat -> fits 64 (get_u64 (slice off 8 b))).
  { intros off Ho; apply get_u64_fits; apply (bytes_slice_ok off 8 b Hl Hb Ho). }
  split_and!; try (apply Hg; lia); [reflexivity | | |].
  - apply Forall_fmap, Forall_forall; intros i Hi%elem_of_seq; apply Hg.
    unfold INFS_CHECKPOINT_COUNT in Hi; lia.
  - apply (bytes_slice_ok 56 16 b Hl Hb); lia.
  - auto with infs.
Qed.

(** A block with the fixed fields and the zero tail is its own fields. *)
Lemma block_is_fields b :
  length b = INFS_BLOCK_SIZE -> bytes_ok b ->
  slice 0 8 b = locator_magic -> get_u16 (slice 8 2 b) = INFS_LOCATOR_SCHEMA_VERSION ->
  get_u16 (slice 10 2 b) = Z.of_nat INFS_LOCATOR_HEADER_BYTES ->
  get_u16 (slice 12 2 b) = INFS_FORMAT_MAJOR ->
  get_u16 (slice 14 2 b) = INFS_LOCATOR_FORMAT_MINOR ->
  all_zero (slice INFS_LOCATOR_HEADER_BYTES (INFS_BLOCK_SIZE - INFS_LOCATOR_HEADER_BYTES) b) = true ->
  b = with_crc (locator_of_block b) (slice 72 8 b).
Proof.
  intros Hl Hb H0 H8 H10 H12 H14 Hz.
  assert (Hp2 : forall off v, (off + 2 <= 4096)%nat -> get_u16 (slice off 2 b) = v -> put_u16 v = slice off 2 b).
  { intros off v Ho <-; apply put_get_u16; apply (bytes_slice_ok off 2 b Hl Hb Ho). }
  assert (Hp8 : forall off, (off + 8 <= 4096)%nat -> put_u64 (get_u64 (slice off 8 b)) = slice off 8 b).
  { intros off Ho; apply put_get_u64; apply (bytes_slice_ok off 8 b Hl Hb Ho). }
  apply Z.eqb_eq, bytes_or_zero, zero_bytes_eq in Hz.
  rewrite length_slice in Hz by (rewrite Hl; unfold INFS_BLOCK_SIZE, INFS_LOCATOR_HEADER_BYTES; lia).
  unfold with_crc, fields, locator_of_block.
  cbn [generation total_blocks checkpoint filesystem_uuid INFS_CHECKPOINT_COUNT seq map].
  change (?l !!! 0%nat) with (hd 0 l); cbn [list_lookup_total lookup_total Nat.mul Nat.add hd].
  rewrite <- Hz, <- H0, (Hp2 8%nat _ ltac:(lia) H8), (Hp2 10%nat _ ltac:(lia) H10),
    (Hp2 12%nat _ ltac:(lia) H12), (Hp2 14%nat _ ltac:(lia) H14), !Hp8 by lia.
  rewrite <- !app_assoc; rewrite <- (drop_0 b) at 1.
  repeat (apply drop_chunk; cbn [Nat.add]).
  unfold slice; rewrite take_ge; [reflexivity | rewrite length_drop, Hl; reflexivity].
Qed.

Lemma put_u64_ok v : bytes_ok (put_u64 v).
Proof. rewrite put_u64_store; apply le_store_ok. Qed.

Lemma with_crc_ok l crc : well_typed l -> bytes_ok crc -> bytes_ok (with_crc l crc).
Proof.
  intros (_ & _ & _ & _ & _ & Hu) Hc; unfold with_crc, fields; rewrite !bytes_ok_app.
  split_and!; trivial; try apply put_u64_ok; try (rewrite put_u16_store; apply le_store_ok);
    [eval_decide | apply bytes_ok_replicate; split; lia].
Qed.

Lemma decode_with_crc l device_blocks :
  well_typed l -> locator_fields_valid l = true -> total_blocks l <= device_blocks ->
  infs_locator_decode (with_crc l (put_u64 (locator_crc l))) device_blocks = Good l.
Proof.
  intros Hw Hv Ht; pose proof Hw as (_ & _ & _ & _ & Hu & _); set (b := with_crc l _).
  assert (Hmin : INFS_LOCATOR_MIN_VOLUME_BLOCKS <= total_blocks l).
  { unfold locator_fields_valid in Hv; case_if_in Hv E; [discriminate | to_prop; assumption]. }
  assert (H0 : slice 0 8 b = locator_magic) by (unfold b; chunk).
  assert (H8 : slice 8 2 b = put_u16 INFS_LOCATOR_SCHEMA_VERSION) by (unfold b; chunk).
  assert (H10 : slice 10 2 b = put_u16 (Z.of_nat INFS_LOCATOR_HEADER_BYTES)) by (unfold b; chunk).
  assert (H12 : slice 12 2 b = put_u16 INFS_FORMAT_MAJOR) by (unfold b; chunk).
  assert (H14 : slice 14 2 b = put_u16 INFS_LOCATOR_FORMAT_MINOR) by (unfold b; chunk).
  assert (H72 : slice 72 8 b = put_u64 (locator_crc l)) by (unfold b; chunk).
  assert (H80 : slice INFS_LOCATOR_HEADER_BYTES (INFS_BLOCK_SIZE - INFS_LOCATOR_HEADER_BYTES) b
          = replicate (INFS_BLOCK_SIZE - INFS_LOCATOR_HEADER_BYTES) 0).
  { unfold b, with_crc; rewrite app_assoc, (slice_skip 80 80) by
      (first [lia | rewrite length_app, (length_fields l Hu); reflexivity]).
    unfold slice; rewrite drop_0, take_ge; [reflexivity | rewrite length_replicate; reflexivity]. }
  assert (Hcrc : splice 72 (replicate 8 0) b = with_crc l (replicate 8 0)).
  { apply slice_zero_crc; [exact Hu | apply length_put_u64]. }
  unfold infs_locator_decode; cbv zeta; rewrite H0, H8, H10, H12, H14, H72, H80, Hcrc.
  rewrite get_put_u64, bytes_eqb_refl by
    (apply Crc64Facts.crc64_fits, with_crc_ok; [exact Hw | eval_decide]).
  unfold b; rewrite (locator_of_with_crc l _ Hw), Hv; unfold locator_crc.
  unfold all_zero; rewrite bytes_or_replicate, !get_put_u16, !Z.eqb_refl by eval_decide.
  destruct (Z.ltb_spec device_blocks INFS_LOCATOR_MIN_VOLUME_BLOCKS); [lia |].
  rewrite Z.gtb_ltb; destruct (Z.ltb_spec device_blocks (total_blocks l)); [lia | reflexivity].
Qed.

(** C16.  The decoder accepts a block exactly when it is the encoding of the record
    it returns and that record fits the device: the encoding is canonical, and
    encoding then decoding gives the record back. *)
Theorem locator_codec_exact block device_blocks l :
  length block = INFS_BLOCK_SIZE -> bytes_ok block ->
  infs_locator_decode block device_blocks = Good l <->
  well_typed l /\ infs_locator_encode l = Good block /\ total_blocks l <= device_blocks.
Proof.
  intros Hl Hb; split.
  - unfold infs_locator_decode; cbv zeta.
    case_if E1; [discriminate |]; case_if E2; [discriminate |]; case_if E3; [discriminate |].
    intros [= <-]; rewrite !orb_false_iff, !negb_false_iff in *.
    destruct E1 as [[[[[_ Em%bytes_eqb_eq] Es%Z.eqb_eq] Eh%Z.eqb_eq] Ea%Z.eqb_eq] Ei%Z.eqb_eq].
    destruct E2 as [Ec%Z.eqb_eq Ez], E3 as [Ev Et].
    pose proof (locator_of_block_typed block Hl Hb) as Hw; split_and!; trivial; [| to_prop; assumption].
    pose proof (block_is_fields block Hl Hb Em Es Eh Ea Ei Ez) as Hf.
    destruct (bytes_slice_ok 72 8 block Hl Hb ltac:(lia)) as [Hl8 Hb8].
    rewrite encode_shape, Ev by apply Hw; f_equal; rewrite Hf at 3; f_equal.
    rewrite <- (put_get_u64 _ Hl8 Hb8), Ec; unfold locator_crc.
    rewrite Hf at 2; rewrite slice_zero_crc by (trivial; apply Hw); reflexivity.
  - intros (Hw & He & Ht); rewrite encode_shape in He by apply Hw.
    destruct (locator_fields_valid l) eqn:Ev; [| discriminate]; apply Good_inj in He as <-.
    apply decode_with_crc; assumption.
Qed.

Definition sample_locator : infs_locator := Loc 7 8192 [0; 4096; 8191] (replicate 16 5).

Lemma locator_codec_exact_witness :
  exists block, infs_locator_encode sample_locator = Good block /\
    (infs_locator_decode block 10000 = Good sample_locator <->
     well_typed sample_locator /\ infs_locator_encode sample_locator = Good block /\
     total_blocks sample_locator <= 10000).
Proof.
  eexists; split; [vm_compute; reflexivity |].
  apply locator_codec_exact; [reflexivity | eval_decide].
Defined.

(** ** The first metadata extent *)

(** The blocks of a new volume that the extent must not contain: the three
    checkpoints and the two locators. *)
Definition anchors (total : Z) : list Z := [0; total / 2; total - 1; INFS_LOCATOR_BLOCK_A; INFS_LOCATOR_BLOCK_B].

(** The extent of [n] blocks at [root] lies in the lower half, with a spare block
    between it and the checkpoint in the middle, and contains no anchor. *)
Record extent_fits (total n root : Z) : Prop := {
  ef_low : 2 <= root;
  ef_high : root + n < total / 2;
  ef_clear : Forall (fun b => ~ (root <= b < root + n)) (anchors total)
}.

(** C34.  The planner returns the lowest extent in the lower half of the volume that
    leaves a spare block before the checkpoint in the middle and contains no
    checkpoint and no locator; it reports a lack of space exactly when there is no
    such extent (one that ends right at the middle, or lies in the upper half, is
    not considered), and refuses exactly the volumes that are too small and the
    sizes that are zero or larger than the volume. *)
Theorem plan_initial_metadata_spec total n :
  fits 64 total -> fits 64 n ->
  let valid := INFS_LOCATOR_MIN_VOLUME_BLOCKS <= total /\ 0 < n <= total in
  match infs_locator_plan_initial_metadata total n with
  | Good root => valid /\ extent_fits total n root /\ forall r, extent_fits total n r -> root <= r
  | Bad e => (e = NO_SPACE /\ valid /\ forall r, ~ extent_fits total n r) \/ (e = INVALID_ARGUMENT /\ ~ valid)
  end.
Proof.
  intros [Ht1 Ht2] [Hn1 Hn2]; cbv zeta; unfold infs_locator_plan_initial_metadata, INFS_LOCATOR_BLOCK_B, INFS_LOCATOR_MIN_VOLUME_BLOCKS.
  case_if E; [right; split; [reflexivity | rewrite !orb_true_iff in E; lia] |]; to_prop; cbv zeta.
  pose proof (Z.div_mod total 2 ltac:(lia)); pose proof (Z.mod_pos_bound total 2 ltac:(lia)).
  assert (Hfit : forall r, extent_fits total n r <-> 2 <= r /\ r + n < total / 2 /\ ~ (r <= 2047 < r + n)).
  { intros r; split; [intros [F1 F2 F3]; unfold anchors in F3; rewrite !Forall_cons in F3; unfold INFS_LOCATOR_BLOCK_B in F3; tauto |].
    intros (F1 & F2 & F3); split; trivial; unfold anchors, INFS_LOCATOR_BLOCK_A, INFS_LOCATOR_BLOCK_B; repeat (apply Forall_cons; split; [lia |]); apply Forall_nil; exact I. }
  set (mid := total / 2) in *; rewrite (wrap_small 64 (mid - 2)) by (split; lia).
  case_if E1; [apply andb_true_iff in E1 as [E1 E2]; to_prop; rewrite Hfit; split_and!; try lia; intros r F; apply (ef_low _ _ _ F) |].
  case_if E2.
  - apply andb_true_iff in E2 as [E2 E3]; to_prop; rewrite wrap_small in E3 by (split; lia); rewrite Hfit.
    apply andb_false_iff in E1; split_and!; try lia; intros r (F1 & F2 & F3)%Hfit; destruct E1; to_prop; lia.
  - left; split_and!; [reflexivity | lia.. |]; intros r (F1 & F2 & F3)%Hfit; apply andb_false_iff in E1, E2.
    assert (n > 2045) by (destruct E1; to_prop; lia); destruct E2 as [E2 | E2]; [to_prop; lia |].
    rewrite wrap_small in E2 by (split; lia); to_prop; lia.
Qed.

Lemma plan_initial_metadata_spec_witness :
  infs_locator_plan_initial_metadata 100000 3000 = Good 2048 /\
  extent_fits 100000 3000 2048 /\ (forall r, extent_fits 100000 3000 r -> 2048 <= r) /\
  infs_locator_plan_initial_metadata 100000 47952 = Bad NO_SPACE.
Proof.
  pose proof (plan_initial_metadata_spec 100000 3000 ltac:(eval_decide) ltac:(eval_decide)) as (_ & H1 & H2); split_and!; trivial.
Defined.

End LocatorFacts.
