(* ===== verification/Discovery.v ===== *)
(** Facts about checkpoint discovery ([Locator.v]): what the headers found mean,
    when a header is found, and which superblock is chosen. *)

From stdpp Require Import prelude.
From S2P Require Import Prelude Endian Checksum Format Security Storage Objects Locator.
#[local] Open Scope Z_scope.

Module DiscoveryFacts.
Import Storage Objects Locator ObjectsFacts StorageFacts LocatorFacts.

(** ** Headers *)

Section Headers.
Context {E : Endian} {P : Platform}.

(** A block accepted as a 0.19 superblock. *)
Definition header_valid (raw : list Z) : Prop :=
  infs_validate_superblock_block_minor raw INFS_LOCATOR_FORMAT_MINOR = true.

(** The structure at the front of a block. *)
Definition header (raw : list Z) : list Z := slice 0 sb_size raw.

Lemma front_agree raw : agree sb_checksum_off 0 0 (header raw) raw.
Proof.
  intros i [Hi | Hi]; [| lia]; unfold header; rewrite lookup_slice, decide_True; [reflexivity |].
  unfold sb_checksum_off, sb_size in *; lia.
Qed.

Lemma header_generation raw : sb_generation (header raw) = sb_generation raw.
Proof. apply (agree_le64 _ _ _ _ _ (front_agree raw)); unfold sb_checksum_off; lia. Qed.

Lemma le64_fits off b : (off + 8 <= length b)%nat -> bytes_ok b -> fits 64 (le64_at off b).
Proof.
  intros Hl Hb; unfold le64_at; rewrite load_le64_law by (auto using length_slice with infs).
  replace 64 with (8 * Z.of_nat (length (slice off 8 b))) by (rewrite length_slice; [reflexivity | lia]).
  auto with infs.
Qed.

Lemma header_valid_generation raw :
  length raw = INFS_BLOCK_SIZE -> bytes_ok raw -> header_valid raw -> 0 < sb_generation (header raw).
Proof.
  intros Hl Hb Hv; rewrite header_generation.
  assert (Hf : fits 64 (sb_generation raw)).
  { apply le64_fits; [rewrite Hl; unfold INFS_BLOCK_SIZE; lia | assumption]. }
  unfold header_valid, infs_validate_superblock_block_minor, superblock_fields_ok in Hv.
  case_if_in Hv E1; [discriminate |]; split_ands; to_prop; unfold fits in Hf; lia.
Qed.

(** [raw] is the superblock a map declares. *)
Definition belongs (m : infs_locator) (raw : list Z) : Prop :=
  header_valid raw /\ sb_total_blocks (header raw) = total_blocks m /\
  sb_filesystem_uuid (header raw) = filesystem_uuid m /\
  forall j, (j < 3)%nat -> sb_checkpoint_block (header raw) j = checkpoint m !!! j.

(** A candidate stands for position [j] of the map [m]. *)
Definition stands_for (m : infs_locator) (j : nat) (c : infs_locator_candidate) : Prop :=
  physical_block c = checkpoint m !!! j /\ declared_total_blocks c = total_blocks m /\
  declared_checkpoint c = checkpoint m /\ c_filesystem_uuid c = filesystem_uuid m.

Lemma check_header_spec m j c raw sb :
  stands_for m j c -> check_header c raw = Some sb <-> belongs m raw /\ sb = header raw.
Proof.
  intros (_ & Ht & Hc & Hu); unfold check_header, belongs, header_valid; rewrite Ht, Hc, Hu.
  fold (header raw); destruct (infs_validate_superblock_block_minor _ _); cbn [negb];
    [| split; [discriminate | intros [[[=] _] _]]].
  case_if E1.
  { split; [discriminate |]; intros [(_ & H1 & H2 & _) _].
    rewrite H1, H2, Z.eqb_refl, bytes_eqb_refl in E1; discriminate. }
  apply orb_false_iff in E1 as [H1%negb_false_iff%Z.eqb_eq H2%negb_false_iff%bytes_eqb_eq].
  case_if E2.
  - rewrite forallb_forall in E2; split; [| intros [_ ->]; reflexivity].
    intros [= <-]; split_and!; trivial; intros j' Hj; apply Z.eqb_eq, E2, in_seq.
    unfold INFS_CHECKPOINT_COUNT; lia.
  - split; [discriminate |]; intros [(_ & _ & _ & H3) _]; exfalso; revert E2; apply not_false_iff_true.
    apply forallb_forall; intros j' Hj%in_seq; apply Z.eqb_eq, H3; unfold INFS_CHECKPOINT_COUNT in Hj; lia.
Qed.

Lemma map_candidates_stand m source c :
  In c (map_candidates m source) <->
  exists j, (j < 3)%nat /\ stands_for m j c /\ source_locator c = source.
Proof.
  unfold map_candidates; rewrite in_map_iff; split.
  - intros (j & <- & Hj%in_seq); exists j; unfold INFS_CHECKPOINT_COUNT in Hj; split; [lia |].
    repeat split.
  - intros (j & Hj & (H1 & H2 & H3 & H4) & H5); exists j; split.
    + destruct c; cbn in *; congruence.
    + apply in_seq; unfold INFS_CHECKPOINT_COUNT; lia.
Qed.

(** ** The maps that survive *)

(** A map a device of [n] blocks can have. *)
Definition map_ok (n : Z) (m : infs_locator) : Prop :=
  locator_fields_valid m = true /\ total_blocks m <= n /\ forall j, 0 <= checkpoint m !!! j.

Definition present (l0 l1 primary : option infs_locator) (m : infs_locator) : Prop :=
  l0 = Some m \/ l1 = Some m \/ primary = Some m.

(** All surviving maps name the filesystem [u]. *)
Definition same_filesystem (l0 l1 primary : option infs_locator) (u : list Z) : Prop :=
  forall m, present l0 l1 primary m -> filesystem_uuid m = u.

Definition source (l : option infs_locator) (i : Z) : list infs_locator_candidate :=
  match l with Some m => map_candidates m i | None => [] end.

(** The primary repeats the geometry of a locator. *)
Definition repeated (l0 l1 : option infs_locator) (p : infs_locator) : bool :=
  existsb (fun l => match l with
                    | Some m => (total_blocks p =? total_blocks m) &&
                                bool_decide (checkpoint p = checkpoint m)
                    | None => false
                    end) [l0; l1].

Definition gathered (l0 l1 primary : option infs_locator) : list infs_locator_candidate :=
  source l0 0 ++ source l1 1 ++
  match primary with
  | Some p => if repeated l0 l1 p then [] else map_candidates p 2
  | None => []
  end.

Section Maps.
Context (n : Z) (l0 l1 primary : option infs_locator).
Hypothesis Hok : forall m, present l0 l1 primary m -> map_ok n m.

Definition conflict (a b : option infs_locator) : bool :=
  match a, b with
  | Some x, Some y => negb (bytes_eqb (filesystem_uuid x) (filesystem_uuid y))
  | _, _ => false
  end.

Lemma conflict_false a b :
  conflict a b = false <->
  forall x y, a = Some x -> b = Some y -> filesystem_uuid x = filesystem_uuid y.
Proof.
  destruct a as [x |], b as [y |]; cbn; try (split; [discriminate || congruence | reflexivity]).
  rewrite negb_false_iff, bytes_eqb_eq; split; [congruence | auto].
Qed.

Lemma guard_false m : map_ok n m -> negb (locator_fields_valid m) || (total_blocks m >? n) = false.
Proof. intros (-> & Ht & _); rewrite Z.gtb_ltb; apply Z.ltb_ge, Ht. Qed.

Lemma candidates_eq :
  (if mask_of l0 l1 =? 0 then Good []
   else infs_locator_candidates [default zero_locator l0; default zero_locator l1] (mask_of l0 l1) n) =
  if conflict l0 l1 then Bad CORRUPT else Good (source l0 0 ++ source l1 1).
Proof.
  assert (H0 : forall m, l0 = Some m -> _) by (intros m Hm; apply (guard_false m), Hok; left; exact Hm).
  assert (H1 : forall m, l1 = Some m -> _) by (intros m Hm; apply (guard_false m), Hok; right; left; exact Hm).
  unfold infs_locator_candidates; destruct l0 as [a |], l1 as [b |]; cbn -[map_candidates orb Z.gtb];
    try (destruct (bytes_eqb _ _); cbn -[map_candidates orb Z.gtb]; [| reflexivity]);
    rewrite ?(H0 _ eq_refl), ?(H1 _ eq_refl); reflexivity.
Qed.

Lemma same_geometry_eq p :
  same_geometry p [l0; l1] false =
  if conflict (Some p) l0 || conflict (Some p) l1 then Bad CORRUPT else Good (repeated l0 l1 p).
Proof.
  clear Hok; unfold repeated; destruct l0 as [a |], l1 as [b |]; cbn;
    repeat (destruct (bytes_eqb _ _); cbn; [| reflexivity]);
    rewrite ?orb_false_r; reflexivity.
Qed.

Definition conflicting : bool :=
  conflict l0 l1 || conflict primary l0 || conflict primary l1.

Lemma conflicting_spec : conflicting = false <-> exists u, same_filesystem l0 l1 primary u.
Proof.
  unfold conflicting; rewrite !orb_false_iff, !conflict_false; split.
  - intros [[H01 Hp0] Hp1]; exists (filesystem_uuid (default (default (default zero_locator l1) l0) primary)).
    clear Hok; intros m Hm; destruct primary as [p |], l0 as [a |], l1 as [b |];
      destruct Hm as [Hm | [Hm | Hm]]; try discriminate; injection Hm as <-; cbn; auto; symmetry; auto.
  - intros [u Hu]; split_and!; intros x y Hx Hy; rewrite (Hu x), (Hu y); trivial; unfold present; auto.
Qed.

Lemma gather_eq first :
  gather l0 l1 primary n first =
  if conflicting then Bad CORRUPT
  else match gathered l0 l1 primary with
       | [] => Bad (note_error first CORRUPT)
       | locations => Good locations
       end.
Proof.
  unfold gather, conflicting, gathered; cbv zeta; rewrite candidates_eq.
  destruct (conflict l0 l1); [reflexivity |]; cbn [mbind result_bind orb].
  destruct primary as [p |]; cbn [conflict orb mbind result_bind].
  - rewrite same_geometry_eq; cbn [conflict].
    match goal with |- context [if ?c then Bad CORRUPT else Good (repeated _ _ _)] =>
      destruct c; [reflexivity |] end.
    cbn [mbind result_bind]; rewrite app_assoc; destruct (repeated l0 l1 p); rewrite ?app_nil_r;
      destruct (_ ++ _); reflexivity.
  - rewrite app_nil_r; destruct (_ ++ _); reflexivity.
Qed.

(** Every surviving map has a candidate for each of its positions. *)
Lemma gathered_complete u m j :
  same_filesystem l0 l1 primary u -> present l0 l1 primary m -> (j < 3)%nat ->
  exists c, In c (gathered l0 l1 primary) /\ stands_for m j c.
Proof.
  clear Hok; intros Hu Hm Hj.
  assert (Hsrc : forall l i m', l = Some m' -> exists c, In c (source l i) /\ stands_for m' j c).
  { intros l i m' ->; set (c := Candidate (checkpoint m' !!! j) (total_blocks m') (checkpoint m')
      (filesystem_uuid m') i); exists c; split; [| repeat split].
    apply map_candidates_stand; exists j; repeat split; exact Hj. }
  unfold gathered; destruct Hm as [Hm | [Hm | Hm]].
  - destruct (Hsrc l0 0 m Hm) as (c & Hc & Hs); exists c; split; [apply in_or_app; auto | exact Hs].
  - destruct (Hsrc l1 1 m Hm) as (c & Hc & Hs); exists c; split; [| exact Hs].
    apply in_or_app; right; apply in_or_app; auto.
  - rewrite Hm; destruct (repeated l0 l1 m) eqn:Er.
    + apply existsb_exists in Er as (l & Hl & Hg); destruct l as [m' |]; [| discriminate].
      apply andb_true_iff in Hg as [Ht%Z.eqb_eq Hc%bool_decide_eq_true].
      assert (Hp : present l0 l1 primary m') by (unfold present; destruct Hl as [? | [? | []]]; auto).
      assert (Huu : filesystem_uuid m = filesystem_uuid m').
      { rewrite (Hu m), (Hu m'); trivial; unfold present; auto. }
      assert (Hin : exists c, In c (source l0 0 ++ source l1 1) /\ stands_for m' j c).
      { destruct Hl as [Hl | [Hl | []]];
          [destruct (Hsrc _ 0 m' Hl) as (c & Hc' & Hs) | destruct (Hsrc _ 1 m' Hl) as (c & Hc' & Hs)];
          exists c; split; trivial; apply in_or_app; auto. }
      destruct Hin as (c & Hin & Hs); exists c; rewrite app_nil_r; split; [exact Hin |].
      unfold stands_for in *; rewrite Hc, Ht, Huu; exact Hs.
    + destruct (Hsrc (Some m) 2 m eq_refl) as (c & Hc & Hs); exists c; split; [| exact Hs].
      apply in_or_app; right; apply in_or_app; auto.
Qed.

Lemma gathered_sound c :
  In c (gathered l0 l1 primary) ->
  exists m j, present l0 l1 primary m /\ (j < 3)%nat /\ stands_for m j c.
Proof.
  clear Hok; assert (Hsrc : forall l i, In c (source l i) -> exists m j, l = Some m /\ (j < 3)%nat /\ stands_for m j c).
  { intros [m |] i Hc; [| contradiction].
    apply map_candidates_stand in Hc as (j & Hj & Hs & _); exists m, j; auto. }
  unfold gathered, present; intros Hc; apply in_app_or in Hc as [Hc | Hc]; [| apply in_app_or in Hc as [Hc | Hc]].
  - destruct (Hsrc _ _ Hc) as (m & j & ? & ? & ?); exists m, j; auto.
  - destruct (Hsrc _ _ Hc) as (m & j & ? & ? & ?); exists m, j; auto.
  - destruct primary as [p |]; [| contradiction]; destruct (repeated l0 l1 p); [contradiction |].
    destruct (Hsrc (Some p) 2 Hc) as (m & j & ? & ? & ?); exists m, j; auto.
Qed.

End Maps.

Lemma map_ok_position n m j :
  map_ok n m -> (j < 3)%nat ->
  0 <= checkpoint m !!! j < total_blocks m /\ checkpoint m !!! j <> INFS_LOCATOR_BLOCK_A /\
  checkpoint m !!! j <> INFS_LOCATOR_BLOCK_B.
Proof.
  intros (Hv & _ & H0) Hj; unfold locator_fields_valid in Hv; case_if_in Hv E1; [discriminate |].
  rewrite forallb_forall in Hv; specialize (Hv j); cbv zeta in Hv.
  rewrite andb_true_iff in Hv; destruct Hv as [Hv _]; [apply in_seq; unfold INFS_CHECKPOINT_COUNT; lia |].
  specialize (H0 j); to_prop; split_and!; trivial.
Qed.

Lemma decode_map_ok raw n m :
  length raw = INFS_BLOCK_SIZE -> bytes_ok raw -> infs_locator_decode raw n = Good m -> map_ok n m.
Proof.
  intros Hl Hb; unfold infs_locator_decode; cbv zeta.
  case_if E1; [discriminate |]; case_if E2; [discriminate |]; case_if E3; [discriminate |].
  intros [= <-]; apply orb_false_iff in E3 as [Ev%negb_false_iff Et]; to_prop; unfold map_ok; split_and!; trivial.
  pose proof (locator_of_block_typed raw Hl Hb) as (_ & _ & _ & Hf & _).
  intros j; rewrite list_lookup_total_alt; destruct (checkpoint _ !! j) eqn:Ej; [| cbn; lia].
  apply (Forall_lookup_1 _ _ _ _ Hf Ej).
Qed.

Lemma primary_map_ok raw n m :
  length raw = INFS_BLOCK_SIZE -> bytes_ok raw -> primary_of_block n raw = Some m ->
  map_ok n m /\ header_valid raw /\ m = primary_map (header raw).
Proof.
  intros Hl Hb; unfold primary_of_block, header_valid; destruct (infs_validate_superblock_block_minor _ _);
    [| discriminate]; fold (header raw); case_if E1; [| discriminate]; intros [= <-].
  apply andb_true_iff in E1 as [Ev Et]; to_prop; unfold map_ok; split_and!; trivial.
  intros j; unfold primary_map; cbn [checkpoint]; rewrite list_lookup_total_alt.
  destruct (map _ _ !! j) eqn:Ej; [| cbn; lia].
  apply list_elem_of_lookup_2, list_elem_of_In, in_map_iff in Ej as (i & <- & Hi%in_seq); cbn [default].
  apply le64_fits; [| unfold header; auto with infs].
  unfold header; rewrite length_slice; unfold INFS_CHECKPOINT_COUNT, sb_size in *; [lia |].
  rewrite Hl; unfold INFS_BLOCK_SIZE; lia.
Qed.

End Headers.

(** ** Reading the medium *)

(** Block [n] of an image. *)
Definition blk (img : list Z) (n : Z) : list Z := slice (Z.to_nat (n * block_size)) INFS_BLOCK_SIZE img.

Section Reads.
Context {E : Endian} {P : Platform} {C : Type} (image : C -> list Z) (img : list Z) (n : Z).
Hypothesis Himg : bytes_ok img.
Hypothesis Hn : n * block_size < 2 ^ 64.

(** [raw] is what the medium has at block [b]. *)
Definition is_block (raw : list Z) (b : Z) : Prop := raw = blk img b /\ length raw = INFS_BLOCK_SIZE.

Lemma is_block_ok raw b : is_block raw b -> length raw = INFS_BLOCK_SIZE /\ bytes_ok raw.
Proof. intros [-> Hl]; split; [exact Hl | unfold blk; auto with infs]. Qed.

Lemma block_offset b : 0 <= b < n -> u64 (b * block_size) = b * block_size.
Proof. intros Hb; apply wrap_small; unfold block_size, INFS_BLOCK_SIZE in *; split; lia. Qed.

Lemma try_read_sound b st raw st' :
  0 <= b < n -> holds image st.1 img -> try_read b st = (raw, st') ->
  holds image st'.1 img /\ forall r, raw = Some r -> is_block r b.
Proof.
  intros Hb Hh; unfold try_read; rewrite block_offset by exact Hb.
  destruct (infs_storage_read _ _ _) as [r s'] eqn:Er.
  destruct (read_sound _ _ _ _ _ _ _ Hh Er) as [Hh' Hr]; destruct r; intros [= <- <-]; split; trivial.
  - intros r [= <-]; apply Hr; reflexivity.
  - discriminate.
Qed.

Lemma read_locator_sound b st l st' :
  0 <= b < n -> holds image st.1 img -> read_locator n b st = (l, st') ->
  holds image st'.1 img /\ forall m, l = Some m -> map_ok n m.
Proof.
  intros Hb Hh; unfold read_locator; destruct (try_read b st) as [raw st1] eqn:Et.
  destruct (try_read_sound _ _ _ _ Hb Hh Et) as [Hh' Hr]; intros [= <- <-]; split; [exact Hh' |].
  intros m; destruct raw as [r |]; cbn; [| discriminate].
  destruct (is_block_ok _ _ (Hr r eq_refl)) as [Hl Hok].
  unfold locator_of; destruct (infs_locator_decode r n) as [l |] eqn:El; [| discriminate].
  intros [= <-]; eapply decode_map_ok; eassumption.
Qed.

Lemma read_primary_sound st l st' :
  0 < n -> holds image st.1 img -> read_primary n st = (l, st') ->
  holds image st'.1 img /\ forall m, l = Some m -> map_ok n m.
Proof.
  intros Hp Hh; unfold read_primary; destruct (try_read 0 st) as [raw st1] eqn:Et.
  destruct (try_read_sound 0 _ _ _ ltac:(lia) Hh Et) as [Hh' Hr]; intros [= <- <-]; split; [exact Hh' |].
  intros m; destruct raw as [r |]; cbn; [| discriminate].
  destruct (is_block_ok _ _ (Hr r eq_refl)) as [Hl Hok].
  intros Hm; eapply primary_map_ok; eassumption.
Qed.

Lemma probe_sound hints st found st' :
  Forall (fun c => 0 <= physical_block c < n) hints -> holds image st.1 img ->
  probe hints st = (found, st') ->
  holds image st'.1 img /\ length found = length hints /\
  forall sb, In (Some sb) found -> exists c raw, In c hints /\ is_block raw (physical_block c) /\
    check_header c raw = Some sb.
Proof.
  intros Hf; revert st found st'; induction Hf as [| c hints Hc _ IH]; intros st found st' Hh; cbn [probe].
  { intros [= <- <-]; split_and!; trivial; contradiction. }
  destruct (try_read _ _) as [raw st1] eqn:Et, (probe hints st1) as [found' st2] eqn:Ep.
  destruct (try_read_sound _ _ _ _ Hc Hh Et) as [Hh1 Hr], (IH _ _ _ Hh1 Ep) as (Hh2 & Hlen & Hin).
  intros [= <- <-]; split_and!; [exact Hh2 | cbn; congruence |].
  intros sb [Hsb | Hsb].
  - destruct raw as [r |]; [| discriminate]; exists c, r; split_and!; [left; trivial | apply Hr; trivial | exact Hsb].
  - destruct (Hin sb Hsb) as (c' & r & ? & ? & ?); exists c', r; split_and!; trivial; right; assumption.
Qed.

End Reads.

Lemma size_blocks size : fits 64 size -> size / block_size * block_size < 2 ^ 64.
Proof.
  intros [H0 H1]; pose proof (Z.div_mod size block_size ltac:(unfold block_size, INFS_BLOCK_SIZE; lia)).
  pose proof (Z.mod_pos_bound size block_size ltac:(unfold block_size, INFS_BLOCK_SIZE; lia)); lia.
Qed.

Lemma gathered_in_range n l0 l1 primary :
  (forall m, present l0 l1 primary m -> map_ok n m) ->
  Forall (fun c => 0 <= physical_block c < n) (gathered l0 l1 primary).
Proof.
  intros Hok; apply List.Forall_forall; intros c Hc.
  apply gathered_sound in Hc as (m & j & Hm & Hj & (-> & _)).
  pose proof (map_ok_position n m j (Hok m Hm) Hj); destruct (Hok m Hm) as (_ & ? & _); lia.
Qed.

Lemma length_gathered l0 l1 primary : (length (gathered l0 l1 primary) <= INFS_LOCATOR_MAX_CANDIDATES)%nat.
Proof.
  assert (Hs : forall l i, (length (source l i) <= 3)%nat) by (intros [m |] i; cbn; lia).
  unfold gathered; rewrite !length_app; pose proof (Hs l0 0); pose proof (Hs l1 1).
  destruct primary as [p |]; [pose proof (Hs (Some p) 2); destruct (repeated l0 l1 p) |];
    cbn [source length] in *; unfold INFS_LOCATOR_MAX_CANDIDATES; lia.
Qed.

Lemma pad_in {A} (x : A) l k : In (Some x) (l ++ replicate k None) <-> In (Some x) l.
Proof.
  rewrite in_app_iff; split; [| auto]; intros [H | H]; [exact H |].
  apply list_elem_of_In, elem_of_replicate in H as [[=] _].
Qed.

Lemma some_found {A} `{EqDecision A} (l : list (option A)) :
  forallb (fun h => bool_decide (h = None)) l = false <-> exists x, In (Some x) l.
Proof.
  rewrite <- not_true_iff_false, forallb_forall; split.
  - intros H; induction l as [| [x |] l IH]; [destruct H; contradiction | exists x; left; trivial |].
    destruct IH as [x Hx]; [| exists x; right; exact Hx].
    intros Hl; apply H; intros y [<- | Hy]; [reflexivity | auto].
  - intros [x Hx] H; specialize (H _ Hx); discriminate.
Qed.

Section Discover.
Context {E : Endian} {P : Platform} {C : Type} (image : C -> list Z).

(** A header is where it says it is: it is the valid superblock stored at one of
    the positions it declares, inside the volume, off both locators. *)
Definition located (img : list Z) (size : Z) (sb : list Z) : Prop :=
  exists j, (j < 3)%nat /\
    let pos := sb_checkpoint_block sb j in
    0 <= pos < sb_total_blocks sb /\ sb_total_blocks sb <= size / block_size /\
    pos <> INFS_LOCATOR_BLOCK_A /\ pos <> INFS_LOCATOR_BLOCK_B /\
    header_valid (blk img pos) /\ sb = header (blk img pos).

Lemma belongs_located img size m j :
  map_ok (size / block_size) m -> (j < 3)%nat -> belongs m (blk img (checkpoint m !!! j)) ->
  located img size (header (blk img (checkpoint m !!! j))).
Proof.
  intros Hok Hj (Hv & Ht & _ & Hc); exists j; split; [exact Hj |]; cbv zeta; rewrite (Hc j Hj), Ht.
  pose proof (map_ok_position _ m j Hok Hj) as (? & ? & ?); destruct Hok as (_ & ? & _); auto 10.
Qed.

(** What a successful discovery returned. *)
Lemma discover_sound s img size hs err s' :
  holds image s img -> bytes_ok img -> fits 64 size ->
  infs_locator_discover_019_headers_with_errors s size = (Good hs, err, s') ->
  holds image s' img /\ (length hs = INFS_LOCATOR_MAX_CANDIDATES) /\ (exists sb, In (Some sb) hs) /\
  exists u, forall sb, In (Some sb) hs -> sb_filesystem_uuid sb = u /\ located img size sb.
Proof.
  intros Hh Hb Hs; pose proof (size_blocks size Hs) as Hn; set (n := size / block_size) in *.
  unfold infs_locator_discover_019_headers_with_errors; fold n.
  case_if E0; [discriminate |].
  assert (Hmin : 4096 <= n) by (to_prop; assumption).
  destruct (read_locator n INFS_LOCATOR_BLOCK_A (s, OK)) as [l0 st0] eqn:E1.
  destruct (read_locator n INFS_LOCATOR_BLOCK_B st0) as [l1 st1] eqn:E2.
  destruct (read_primary n st1) as [pr st2] eqn:E3.
  eapply read_locator_sound in E1 as [Hh0 H0]; [| eassumption.. | unfold INFS_LOCATOR_BLOCK_A; lia | exact Hh].
  eapply read_locator_sound in E2 as [Hh1 H1]; [| eassumption.. | unfold INFS_LOCATOR_BLOCK_B; lia | exact Hh0].
  eapply read_primary_sound in E3 as [Hh2 H2]; [| eassumption.. | lia | exact Hh1].
  assert (Hok : forall m, present l0 l1 pr m -> map_ok n m) by (intros m [Hm | [Hm | Hm]]; auto).
  rewrite (gather_eq n l0 l1 pr Hok); destruct (conflicting l0 l1 pr) eqn:Ec; [discriminate |].
  apply conflicting_spec in Ec as [u Hu].
  destruct (gathered l0 l1 pr) as [| c cs] eqn:Eg; [discriminate |]; rewrite <- Eg in *.
  destruct (probe _ st2) as [found st3] eqn:Ep.
  eapply probe_sound in Ep as (Hh3 & Hlen & Hin); [| eassumption.. | apply gathered_in_range, Hok | exact Hh2].
  case_if E4; [discriminate |]; intros [= <- <- <-].
  split_and!; [exact Hh3 | | apply some_found, E4 | exists u].
  - pose proof (length_gathered l0 l1 pr); rewrite length_app, length_replicate; lia.
  - intros sb Hsb%pad_in; destruct (Hin sb Hsb) as (c' & raw & Hc & [-> _] & Hck).
    apply gathered_sound in Hc as (m & j & Hm & Hj & Hst).
    apply (check_header_spec m j _ _ _ Hst) in Hck as [Hbel ->].
    split; [rewrite <- (Hu m Hm); apply Hbel |].
    rewrite (proj1 Hst) in *; eapply belongs_located; eauto.
Qed.

(** ** The best header *)

(** The running choice is a header of the largest generation so far. *)
Lemma best_header_fold hs indices best :
  0 <= best.2 -> (0 < best.2 -> exists sb, hs !! best.1 = Some (Some sb) /\ sb_generation sb = best.2) ->
  let r := fold_left (best_step hs) indices best in
  best.2 <= r.2 /\ (0 < r.2 -> exists sb, hs !! r.1 = Some (Some sb) /\ sb_generation sb = r.2) /\
  forall i sb, In i indices -> hs !! i = Some (Some sb) -> sb_generation sb <= r.2.
Proof.
  revert best; induction indices as [| i indices IH]; intros best H0 Hg; cbn [fold_left].
  { split_and!; [reflexivity | exact Hg | contradiction]. }
  assert (Hs : best.2 <= (best_step hs best i).2 /\
    (0 < (best_step hs best i).2 -> exists sb, hs !! (best_step hs best i).1 = Some (Some sb) /\
       sb_generation sb = (best_step hs best i).2) /\
    forall sb, hs !! i = Some (Some sb) -> sb_generation sb <= (best_step hs best i).2).
  { unfold best_step; destruct (hs !! i) as [[sb |] |] eqn:Ei; [destruct (sb_generation sb >? best.2) eqn:Ec | ..];
      to_prop; cbn [fst snd]; split_and!; trivial; try lia; try (intros; exists sb; auto; fail);
      intros sb' [= <-]; lia. }
  destruct Hs as (H1 & H2 & H3), (IH (best_step hs best i)) as (H4 & H5 & H6); [lia | exact H2 |].
  split_and!; [lia | exact H5 |]; intros k sb [<- | Hk] Hsb; [specialize (H3 sb Hsb); lia | eauto].
Qed.

(** The header chosen is one of those found, and none is newer. *)
Lemma best_header_spec hs :
  length hs = INFS_LOCATOR_MAX_CANDIDATES -> (exists sb, In (Some sb) hs) ->
  (forall sb, In (Some sb) hs -> 0 < sb_generation sb) ->
  exists sb, default [] (mjoin (hs !! (best_header hs).1)) = sb /\ In (Some sb) hs /\
    forall sb', In (Some sb') hs -> sb_generation sb' <= sb_generation sb.
Proof.
  intros Hl [sb0 H0] Hpos; unfold best_header.
  pose proof (best_header_fold hs (seq 0 INFS_LOCATOR_MAX_CANDIDATES) (0%nat, 0) ltac:(cbn; lia)
    ltac:(cbn; lia)) as Hf.
  cbv zeta in Hf; set (r := fold_left _ _ _) in *; destruct Hf as (_ & H2 & H3).
  assert (Hle : forall sb, In (Some sb) hs -> sb_generation sb <= r.2).
  { intros sb Hsb; apply list_elem_of_In, list_elem_of_lookup_1 in Hsb as [i Hi].
    apply (H3 i sb); [| exact Hi]; apply lookup_lt_Some in Hi; apply in_seq; lia. }
  destruct H2 as (sb & Hsb & Hg); [specialize (Hle sb0 H0); specialize (Hpos sb0 H0); lia |].
  exists sb; rewrite Hsb, Hg; split_and!; [reflexivity | | exact Hle].
  apply list_elem_of_In, (list_elem_of_lookup_2 _ _ _ Hsb).
Qed.

Lemma count_copies_holds img out indices s k s' :
  holds image s img -> count_copies out indices s = (k, s') -> holds image s' img.
Proof.
  revert s k s'; induction indices as [| i indices IH]; intros s k s' Hh; cbn [count_copies].
  { intros [= <- <-]; exact Hh. }
  destruct (infs_storage_read _ _ _) as [r s1] eqn:Er, (count_copies out indices s1) as [m s2] eqn:Ec.
  destruct (read_sound _ _ _ _ _ _ _ Hh Er) as [Hh1 _]; specialize (IH s1 m s2 Hh1 Ec).
  intros H; apply pair_equal_spec in H as [_ <-]; exact IH.
Qed.

Lemma located_generation img size sb :
  bytes_ok img -> length img = Z.to_nat size -> located img size sb -> 0 < sb_generation sb.
Proof.
  intros Hb Hl (j & Hj & Hp & Ht & _ & _ & Hv & ->).
  apply header_valid_generation; [| unfold blk; auto with infs | exact Hv].
  unfold blk; apply length_slice; rewrite Hl.
  pose proof (Z.div_mod size block_size ltac:(unfold block_size, INFS_BLOCK_SIZE; lia)).
  pose proof (Z.mod_pos_bound size block_size ltac:(unfold block_size, INFS_BLOCK_SIZE; lia)).
  unfold block_size, INFS_BLOCK_SIZE in *; lia.
Qed.

(** C4.  Whatever the backend's reads do, a superblock returned by recovery is a
    valid one of the medium, stored at a position it declares itself, and the
    medium is unchanged. *)
Theorem best_superblock_sound s img size sb copies s' :
  holds image s img -> bytes_ok img -> fits 64 size -> length img = Z.to_nat size ->
  infs_read_best_superblock s size = (Good (sb, copies), s') ->
  located img size sb /\ holds image s' img.
Proof.
  intros Hh Hb Hs Hl; unfold infs_read_best_superblock, infs_locator_discover_019_headers.
  destruct (infs_locator_discover_019_headers_with_errors s size) as [[r e] s1] eqn:Ed.
  destruct r as [hs |]; [| discriminate].
  destruct (discover_sound _ _ _ _ _ _ Hh Hb Hs Ed) as (Hh1 & Hlen & Hex & u & Hall).
  destruct (best_header_spec hs Hlen Hex) as (sb0 & -> & Hin & _).
  { intros sb' Hsb'; apply (located_generation img size); trivial; apply Hall, Hsb'. }
  destruct (count_copies _ _ _) as [k s2] eqn:Ek; intros [= <- <- <-].
  split; [apply Hall, Hin | eapply count_copies_holds; eassumption].
Qed.

(** ** A medium that can be read *)

(** The handle's backend serves every read inside the medium [img]; [healthy] are
    the contexts reads lead to. *)
Definition served (s : infs_storage C) (img : list Z) : Prop :=
  exists o c f g (healthy : C -> Prop),
    ops s = Some o /\ context s = Some c /\ read_at o = Some f /\ get_size o = Some g /\
    image c = img /\ healthy c /\
    forall c off k, healthy c -> 0 <= off -> (Z.to_nat off + k <= length (image c))%nat ->
      exists c', f c off k = (Good (slice (Z.to_nat off) k (image c)), c') /\ image c' = image c /\
        healthy c'.

Lemma served_valid s img : served s img -> infs_storage_valid s = true.
Proof.
  intros (o & c & f & g & G & Ho & Hc & Hf & Hg & _); unfold infs_storage_valid; rewrite Ho, Hc, Hf, Hg.
  reflexivity.
Qed.

Lemma served_read s img off k :
  served s img -> 0 <= off -> (Z.to_nat off + k <= length img)%nat ->
  exists s', infs_storage_read s off k = (Good (slice (Z.to_nat off) k img), s') /\ served s' img.
Proof.
  intros Hs H0 Hl; pose proof (served_valid _ _ Hs) as Hv.
  destruct Hs as (o & c & f & g & G & Ho & Hc & Hf & Hg & <- & HG & Hr).
  destruct (Hr c off k HG H0 Hl) as (c' & Hrd & Hi & HG').
  exists (with_context s c'); split.
  - unfold infs_storage_read, dispatch; rewrite Ho, Hc, Hv, Hf, Hrd; reflexivity.
  - exists o, c', f, g, G; cbn; split_and!; trivial.
Qed.

Section Served.
Context (img : list Z) (n : Z).
Hypothesis Himg : bytes_ok img.
Hypothesis Hlen : length img = Z.to_nat (n * block_size).
Hypothesis Hmin : INFS_LOCATOR_MIN_VOLUME_BLOCKS <= n.
Hypothesis Hmax : n * block_size < 2 ^ 64.

Lemma blk_ok b : 0 <= b < n -> length (blk img b) = INFS_BLOCK_SIZE /\ bytes_ok (blk img b).
Proof.
  intros Hb; split; [| unfold blk; auto with infs].
  unfold blk; apply length_slice; rewrite Hlen; unfold block_size, INFS_BLOCK_SIZE in *; lia.
Qed.

Lemma try_read_served b st :
  served st.1 img -> 0 <= b < n ->
  exists s', try_read b st = (Some (blk img b), (s', st.2)) /\ served s' img.
Proof.
  intros Hs Hb; unfold try_read; rewrite (block_offset n Hmax b Hb).
  destruct (served_read st.1 img (b * block_size) INFS_BLOCK_SIZE Hs) as (s' & -> & Hs');
    [unfold block_size; lia | rewrite Hlen; unfold block_size, INFS_BLOCK_SIZE; lia |].
  exists s'; split; [reflexivity | exact Hs'].
Qed.

(** The maps on the medium. *)
#[local] Abbreviation locator_a := (locator_of n (blk img INFS_LOCATOR_BLOCK_A)).
#[local] Abbreviation locator_b := (locator_of n (blk img INFS_LOCATOR_BLOCK_B)).
#[local] Abbreviation primary := (primary_of_block n (blk img 0)).

Definition survives (m : infs_locator) : Prop := present locator_a locator_b primary m.

Lemma locator_of_ok raw m :
  length raw = INFS_BLOCK_SIZE -> bytes_ok raw -> locator_of n raw = Some m -> map_ok n m.
Proof.
  unfold locator_of; intros Hl Hb Hm; destruct (infs_locator_decode raw n) eqn:Ed; [| discriminate].
  injection Hm as <-; eapply decode_map_ok; eassumption.
Qed.

Lemma survives_ok m : survives m -> map_ok n m.
Proof.
  unfold INFS_LOCATOR_MIN_VOLUME_BLOCKS in Hmin.
  destruct (blk_ok INFS_LOCATOR_BLOCK_A ltac:(unfold INFS_LOCATOR_BLOCK_A; lia)) as [Hla Hba].
  destruct (blk_ok INFS_LOCATOR_BLOCK_B ltac:(unfold INFS_LOCATOR_BLOCK_B; lia)) as [Hlb Hbb].
  destruct (blk_ok 0 ltac:(lia)) as [Hl0 Hb0].
  intros [Hm | [Hm | Hm]]; [exact (locator_of_ok _ _ Hla Hba Hm) | exact (locator_of_ok _ _ Hlb Hbb Hm) |].
  exact (proj1 (primary_map_ok _ n m Hl0 Hb0 Hm)).
Qed.

Lemma probe_served hints st :
  Forall (fun c => 0 <= physical_block c < n) hints -> served st.1 img ->
  exists s', probe hints st = (map (fun c => check_header c (blk img (physical_block c))) hints, (s', st.2)) /\
    served s' img.
Proof.
  intros Hf; revert st; induction Hf as [| c hints Hc _ IH]; intros st Hs; cbn [probe map].
  { exists st.1; destruct st; split; [reflexivity | exact Hs]. }
  destruct (try_read_served (physical_block c) st Hs Hc) as (s1 & -> & Hs1).
  destruct (IH (s1, st.2) Hs1) as (s2 & -> & Hs2); exists s2; split; [reflexivity | exact Hs2].
Qed.

(** What discovery returns on a medium that can be read. *)
Definition outcome : result (list (option (list Z))) :=
  if conflicting locator_a locator_b primary then Bad CORRUPT
  else
    let found := map (fun c => check_header c (blk img (physical_block c)))
                   (gathered locator_a locator_b primary) in
    let out := found ++ replicate (INFS_LOCATOR_MAX_CANDIDATES - length found) None in
    if forallb (fun h => bool_decide (h = None)) out then Bad CORRUPT else Good out.

Lemma discover_served s :
  served s img ->
  exists s' err, infs_locator_discover_019_headers_with_errors s (n * block_size) = (outcome, err, s') /\
    served s' img.
Proof.
  intros Hs; unfold infs_locator_discover_019_headers_with_errors; rewrite (served_valid _ _ Hs).
  rewrite Z.div_mul, Z.mod_mul by (unfold block_size, INFS_BLOCK_SIZE; lia); cbn [negb Z.eqb orb].
  destruct (Z.ltb_spec n INFS_LOCATOR_MIN_VOLUME_BLOCKS); [lia |].
  unfold INFS_LOCATOR_MIN_VOLUME_BLOCKS in Hmin; unfold read_locator, read_primary.
  destruct (try_read_served INFS_LOCATOR_BLOCK_A (s, OK) Hs) as (s1 & -> & Hs1); [unfold INFS_LOCATOR_BLOCK_A; lia |]; cbn [snd].
  destruct (try_read_served INFS_LOCATOR_BLOCK_B (s1, OK) Hs1) as (s2 & -> & Hs2); [unfold INFS_LOCATOR_BLOCK_B; lia |]; cbn [snd].
  destruct (try_read_served 0 (s2, OK) Hs2) as (s3 & -> & Hs3); [lia |]; cbn [fst snd].
  cbn [mbind option_bind].
  rewrite (gather_eq n _ _ _ survives_ok); unfold outcome; cbv zeta.
  destruct (conflicting _ _ _); [exists s3, OK; split; trivial |].
  pose proof (gathered_in_range n _ _ _ survives_ok) as Hr.
  destruct (gathered _ _ _) as [| c cs]; [exists s3, OK; split; trivial |].
  destruct (probe_served (c :: cs) (s3, OK) Hr Hs3) as (s4 & -> & Hs4); exists s4, OK; split; trivial.
Qed.

(** The superblocks a recovery of the medium can reach. *)
Definition reachable (raw : list Z) : Prop :=
  exists m j, survives m /\ (j < 3)%nat /\ raw = blk img (checkpoint m !!! j) /\ belongs m raw.

Lemma outcome_in u :
  same_filesystem locator_a locator_b primary u ->
  (exists raw, reachable raw) ->
  exists hs, outcome = Good hs /\ length hs = INFS_LOCATOR_MAX_CANDIDATES /\
    forall sb, In (Some sb) hs <-> exists raw, reachable raw /\ sb = header raw.
Proof.
  intros Hu [raw0 Hraw0]; unfold outcome.
  replace (conflicting _ _ _) with false by (symmetry; apply conflicting_spec; exists u; exact Hu).
  cbv zeta; set (g := gathered _ _ _); set (found := map _ g); set (out := found ++ _).
  assert (Hin : forall sb, In (Some sb) out <-> exists raw, reachable raw /\ sb = header raw).
  { intros sb; unfold out; rewrite pad_in; unfold found; rewrite in_map_iff; split.
    - intros (c & Hck & Hc); apply gathered_sound in Hc as (m & j & Hm & Hj & Hst).
      destruct (proj1 (check_header_spec m j _ _ _ Hst) Hck) as [Hbel ->].
      rewrite (proj1 Hst) in Hbel |- *; eexists; split; [exists m, j; split_and!; eauto | reflexivity].
    - intros (raw & (m & j & Hm & Hj & -> & Hbel) & ->).
      destruct (gathered_complete _ _ _ u m j Hu Hm Hj) as (c & Hc & Hst); exists c; split; [| exact Hc].
      apply (check_header_spec m j _ _ _ Hst); rewrite (proj1 Hst); auto. }
  replace (forallb _ out) with false.
  - exists out; split_and!; [reflexivity | | exact Hin].
    unfold out, found; rewrite length_app, length_replicate, length_map.
    pose proof (length_gathered locator_a locator_b primary).
    fold g in H; lia.
  - symmetry; apply some_found; exists (header raw0); apply Hin; eauto.
Qed.

(** All maps that survive name one filesystem. *)
Definition one_filesystem : Prop :=
  forall m m', survives m -> survives m' -> filesystem_uuid m = filesystem_uuid m'.

Lemma one_filesystem_same raw :
  one_filesystem -> reachable raw ->
  exists u, same_filesystem locator_a locator_b primary u.
Proof. intros Ho (m & _ & Hm & _); exists (filesystem_uuid m); intros m' Hm'; apply Ho; assumption. Qed.

Lemma reachable_positions raw j :
  reachable raw -> (j < 3)%nat -> 0 <= sb_checkpoint_block (header raw) j < n.
Proof.
  intros (m & i & Hm & _ & _ & _ & _ & _ & Hc) Hj; rewrite (Hc j Hj).
  pose proof (survives_ok m Hm) as Hok; pose proof (map_ok_position n m j Hok Hj).
  destruct Hok as (_ & ? & _); lia.
Qed.

(** The copies of a superblock on the medium. *)
Definition copies_of (out : list Z) (indices : list nat) : Z :=
  Z.of_nat (length (List.filter (fun i => copy_matches out (blk img (sb_checkpoint_block out i))) indices)).

Lemma count_copies_served out indices s :
  served s img -> Forall (fun i => 0 <= sb_checkpoint_block out i < n) indices ->
  exists s', count_copies out indices s = (copies_of out indices, s') /\ served s' img.
Proof.
  intros Hs Hf; revert s Hs; induction Hf as [| i indices Hi _ IH]; intros s Hs; cbn [count_copies].
  { exists s; split; [reflexivity | exact Hs]. }
  rewrite (block_offset n Hmax _ Hi).
  destruct (served_read s img (sb_checkpoint_block out i * block_size) INFS_BLOCK_SIZE Hs) as (s1 & -> & Hs1);
    [unfold block_size; lia | rewrite Hlen; unfold block_size, INFS_BLOCK_SIZE; lia |].
  destruct (IH s1 Hs1) as (s2 & -> & Hs2); exists s2; split; [| exact Hs2].
  fold (blk img (sb_checkpoint_block out i)); unfold copies_of; cbn [List.filter].
  destruct (copy_matches _ _); [cbn [length]; f_equal; lia | reflexivity].
Qed.

(** Recovery reaches the newest superblock. *)
Lemma recovery_newest s raw0 :
  served s img -> one_filesystem -> reachable raw0 ->
  exists raw s', infs_read_best_superblock s (n * block_size) =
      (Good (header raw, copies_of (header raw) (seq 0 INFS_CHECKPOINT_COUNT)), s') /\
    served s' img /\ reachable raw /\
    forall raw', reachable raw' -> sb_generation (header raw') <= sb_generation (header raw).
Proof.
  intros Hs Ho Hr; destruct (one_filesystem_same raw0 Ho Hr) as [u Hu].
  destruct (outcome_in u Hu (ex_intro _ raw0 Hr)) as (hs & Hout & Hl & Hin).
  destruct (discover_served s Hs) as (s1 & err & Hd & Hs1).
  unfold infs_read_best_superblock, infs_locator_discover_019_headers; rewrite Hd, Hout.
  destruct (best_header_spec hs Hl) as (sb & -> & Hsb & Hbest).
  { exists (header raw0); apply Hin; eauto. }
  { intros sb (raw & (m & j & Hm & Hj & -> & Hv & _) & ->)%Hin.
    pose proof (survives_ok m Hm) as Hok; pose proof (map_ok_position n m j Hok Hj).
    destruct (blk_ok (checkpoint m !!! j)) as [Hbl Hbb]; [destruct Hok as (_ & ? & _); lia |].
    apply header_valid_generation; assumption. }
  apply Hin in Hsb as (raw & Hraw & ->); exists raw.
  destruct (count_copies_served (header raw) (seq 0 INFS_CHECKPOINT_COUNT) s1 Hs1) as (s2 & -> & Hs2).
  { apply List.Forall_forall; intros j Hj%in_seq; apply reachable_positions; [exact Hraw |].
    unfold INFS_CHECKPOINT_COUNT in Hj; lia. }
  exists s2; split_and!; trivial; intros raw' Hraw'; apply Hbest, Hin; eauto.
Qed.

(** The block a header was taken from counts as a copy of it. *)
Lemma reachable_copy raw : reachable raw -> 1 <= copies_of (header raw) (seq 0 INFS_CHECKPOINT_COUNT) <= 3.
Proof.
  intros (m & j & Hm & Hj & -> & Hv & _ & _ & Hc); unfold copies_of; set (f := fun i => copy_matches _ _).
  pose proof (List.filter_length_le f (seq 0 INFS_CHECKPOINT_COUNT)) as Hle; rewrite length_seq in Hle.
  assert (Hin : In j (List.filter f (seq 0 INFS_CHECKPOINT_COUNT))).
  { apply filter_In; split; [apply in_seq; unfold INFS_CHECKPOINT_COUNT; lia |]; unfold f; rewrite (Hc j Hj).
    unfold copy_matches, infs_decode_superblock, infs_validate_superblock_block.
    change INFS_FORMAT_MINOR with INFS_LOCATOR_FORMAT_MINOR; rewrite Hv; cbn [negb].
    unfold header; rewrite !bytes_eqb_refl; reflexivity. }
  unfold INFS_CHECKPOINT_COUNT in *; destruct (List.filter _ _); [contradiction | cbn [length] in *; lia].
Qed.

End Served.

(** C3.  On a medium that can be read and whose surviving maps name one
    filesystem, recovery succeeds as soon as any map leads to a valid superblock
    of its own geometry; it returns such a superblock, none that can be reached is
    newer, and it reports between one and three copies. *)
Theorem recovery_finds_newest s img n raw0 :
  bytes_ok img -> length img = Z.to_nat (n * block_size) ->
  INFS_LOCATOR_MIN_VOLUME_BLOCKS <= n -> n * block_size < 2 ^ 64 ->
  served s img -> one_filesystem img n -> reachable img n raw0 ->
  exists raw copies s', infs_read_best_superblock s (n * block_size) = (Good (header raw, copies), s') /\
    1 <= copies <= 3 /\ reachable img n raw /\
    forall raw', reachable img n raw' -> sb_generation (header raw') <= sb_generation (header raw).
Proof.
  intros Hb Hl Hmin Hmax Hs Ho Hr.
  destruct (recovery_newest img n Hb Hl Hmin Hmax s raw0 Hs Ho Hr) as (raw & s' & He & _ & Hraw & Hbest).
  eexists raw, _, s'; split; [exact He |]; split_and!; trivial; eapply reachable_copy; eassumption.
Qed.

End Discover.

Lemma ram_served img : served bytes (ram_storage img false) img.
Proof.
  exists ram_ops, (Ram img false), ram_read, (fun c => Good (Z.of_nat (length (bytes c)), false)),
    (fun c => broken c = false); split_and!; trivial.
  intros c off k Hc _ Hl; exists c; unfold ram_read; rewrite Hc, bool_decide_eq_false_2 by lia; auto.
Qed.

(** ** A sample volume *)

Section Samples.
Import SecurityFacts.
#[local] Existing Instance reference_endian.
#[local] Existing Instance reference_platform.

(** A volume of 4096 blocks: the superblock in block 0, a locator in block 1,
    nothing else. *)
Definition sample_primary : list Z := Eval vm_compute in
  block_of (infs_encode_superblock
    (splice 76 (store_le64 0 ++ store_le64 2048 ++ store_le64 4095) sample_superblock)).

Definition sample_map : list Z := Eval vm_compute in
  block_of (infs_locator_encode (Loc 1 4096 [0; 2048; 4095] (sample_id 1))).

Definition sample_image : list Z :=
  sample_primary ++ sample_map ++ replicate (Z.to_nat (4094 * block_size)) 0.

Lemma slice_replicate off k n : (off + k <= n)%nat -> slice off k (replicate n 0) = replicate k 0.
Proof. intros; unfold slice; rewrite drop_replicate, take_replicate; f_equal; lia. Qed.

Lemma sample_blk_0 : blk sample_image 0 = sample_primary.
Proof. unfold blk, sample_image; apply slice_head; reflexivity. Qed.

Lemma sample_blk_1 : blk sample_image 1 = sample_map.
Proof.
  unfold blk, sample_image; replace (Z.to_nat (1 * block_size)) with INFS_BLOCK_SIZE
    by (unfold block_size, INFS_BLOCK_SIZE; lia).
  rewrite (slice_skip INFS_BLOCK_SIZE) by (first [reflexivity | lia]).
  rewrite Nat.sub_diag; apply slice_head; reflexivity.
Qed.

Lemma sample_blk b : 2 <= b < 4096 -> blk sample_image b = replicate INFS_BLOCK_SIZE 0.
Proof.
  intros Hb; unfold blk, sample_image, block_size, INFS_BLOCK_SIZE.
  rewrite !(slice_skip INFS_BLOCK_SIZE) by (first [reflexivity | unfold INFS_BLOCK_SIZE; lia]).
  apply slice_replicate; unfold INFS_BLOCK_SIZE; lia.
Qed.

Lemma sample_image_ok : bytes_ok sample_image /\ length sample_image = Z.to_nat (4096 * block_size).
Proof.
  unfold sample_image; split.
  - rewrite !bytes_ok_app; split_and!; [eval_decide | eval_decide | apply bytes_ok_replicate; split; lia].
  - rewrite !length_app, length_replicate.
    change (length sample_primary) with INFS_BLOCK_SIZE; change (length sample_map) with INFS_BLOCK_SIZE.
    unfold block_size, INFS_BLOCK_SIZE; lia.
Qed.

(** The maps of the sample: the locator and the primary. *)
Lemma sample_survivors m :
  survives sample_image 4096 m -> m = Loc 1 4096 [0; 2048; 4095] (sample_id 1).
Proof.
  unfold survives, locator_of, INFS_LOCATOR_BLOCK_A, INFS_LOCATOR_BLOCK_B.
  rewrite sample_blk_0, sample_blk_1, sample_blk by lia.
  assert (H1 : infs_locator_decode sample_map 4096 = Good (Loc 1 4096 [0; 2048; 4095] (sample_id 1)))
    by (vm_compute; reflexivity).
  assert (H2 : infs_locator_decode (replicate INFS_BLOCK_SIZE 0) 4096 = Bad CORRUPT) by (vm_compute; reflexivity).
  assert (H3 : primary_of_block 4096 sample_primary = Some (Loc 1 4096 [0; 2048; 4095] (sample_id 1)))
    by (vm_compute; reflexivity).
  rewrite H1, H2, H3; intros [[= <-] | [[=] | [= <-]]]; reflexivity.
Qed.

Lemma sample_reachable : reachable sample_image 4096 sample_primary.
Proof.
  assert (Hm : primary_of_block 4096 sample_primary = Some (Loc 1 4096 [0; 2048; 4095] (sample_id 1)))
    by (vm_compute; reflexivity).
  exists (Loc 1 4096 [0; 2048; 4095] (sample_id 1)), 0%nat; split_and!; [| lia | symmetry; apply sample_blk_0 |].
  - right; right; rewrite sample_blk_0; exact Hm.
  - destruct (primary_map_ok sample_primary _ _ ltac:(reflexivity) ltac:(eval_decide) Hm) as (_ & Hv & _).
    split_and!; [exact Hv | vm_compute; reflexivity | vm_compute; reflexivity |].
    intros [| [| [| j]]] Hj; [vm_compute; reflexivity.. | lia].
Qed.

Lemma recovery_finds_newest_witness :
  exists raw copies s',
    infs_read_best_superblock (ram_storage sample_image false) (4096 * block_size)
      = (Good (header raw, copies), s') /\
    1 <= copies <= 3 /\ reachable sample_image 4096 raw /\
    forall raw', reachable sample_image 4096 raw' -> sb_generation (header raw') <= sb_generation (header raw).
Proof.
  apply (recovery_finds_newest bytes (ram_storage sample_image false) sample_image 4096 sample_primary);
    [apply sample_image_ok | apply sample_image_ok | unfold INFS_LOCATOR_MIN_VOLUME_BLOCKS; lia
    | eval_decide | apply ram_served | | apply sample_reachable].
  intros m m' Hm Hm'; rewrite (sample_survivors m Hm), (sample_survivors m' Hm'); reflexivity.
Defined.

Lemma best_superblock_sound_witness :
  exists sb copies s',
    infs_read_best_superblock (ram_storage sample_image false) (4096 * block_size) = (Good (sb, copies), s') /\
    located sample_image (4096 * block_size) sb /\ holds bytes s' sample_image.
Proof.
  destruct sample_image_ok as [Hb Hl].
  destruct (recovery_newest bytes sample_image 4096 Hb Hl ltac:(vm_compute; discriminate) ltac:(eval_decide)
    (ram_storage sample_image false) sample_primary (ram_served _)) as (raw & s' & He & _).
  { intros m m' Hm Hm'; rewrite (sample_survivors m Hm), (sample_survivors m' Hm'); reflexivity. }
  { apply sample_reachable. }
  eexists _, _, s'; split; [exact He |].
  eapply (best_superblock_sound bytes (ram_storage sample_image false) sample_image);
    [apply ram_holds | exact Hb | eval_decide | exact Hl | exact He].
Defined.

End Samples.

End DiscoveryFacts.
