(* ===== verification/Kernel.v ===== *)
(** Parts of the Linux driver ([src/kernel]) that the portable core has
    counterparts of: the CRC and block check, UTF-8 validation, the locator codec,
    checkpoint admission and checkpoint discovery.

    The kernel's byte-order macros are the operations of [Endian], a negative
    errno is a [KErr], and [sb_bread] is a parameter that returns the block or
    fails. *)

From Stdlib Require Import ZifyBool.
From stdpp Require Import prelude.
From S2P Require Import Prelude Endian Checksum Format Objects Locator.
#[local] Open Scope Z_scope.

(** * Definitions *)

Module Kernel.
Import Objects Locator.

Inductive errno := EINVAL | EIO | ENOMEM | EFSCORRUPTED | EFBIG | EOVERFLOW | ENAMETOOLONG | EILSEQ.

Inductive kresult (A : Type) := KOk (a : A) | KErr (e : errno).
#[global] Arguments KOk {A} a.
#[global] Arguments KErr {A} e.

(** ** CRC *)

Definition infilfs_rw_crc64_table : list Z := [
   0x0000000000000000; 0x42f0e1eba9ea3693; 0x85e1c3d753d46d26; 0xc711223cfa3e5bb5;
   0x493366450e42ecdf; 0x0bc387aea7a8da4c; 0xccd2a5925d9681f9; 0x8e224479f47cb76a;
   0x9266cc8a1c85d9be; 0xd0962d61b56fef2d; 0x17870f5d4f51b498; 0x5577eeb6e6bb820b;
   0xdb55aacf12c73561; 0x99a54b24bb2d03f2; 0x5eb4691841135847; 0x1c4488f3e8f96ed4;
   0x663d78ff90e185ef; 0x24cd9914390bb37c; 0xe3dcbb28c335e8c9; 0xa12c5ac36adfde5a;
   0x2f0e1eba9ea36930; 0x6dfeff5137495fa3; 0xaaefdd6dcd770416; 0xe81f3c86649d3285;
   0xf45bb4758c645c51; 0xb6ab559e258e6ac2; 0x71ba77a2dfb03177; 0x334a9649765a07e4;
   0xbd68d2308226b08e; 0xff9833db2bcc861d; 0x388911e7d1f2dda8; 0x7a79f00c7818eb3b;
   0xcc7af1ff21c30bde; 0x8e8a101488293d4d; 0x499b3228721766f8; 0x0b6bd3c3dbfd506b;
   0x854997ba2f81e701; 0xc7b97651866bd192; 0x00a8546d7c558a27; 0x4258b586d5bfbcb4;
   0x5e1c3d753d46d260; 0x1cecdc9e94ace4f3; 0xdbfdfea26e92bf46; 0x990d1f49c77889d5;
   0x172f5b3033043ebf; 0x55dfbadb9aee082c; 0x92ce98e760d05399; 0xd03e790cc93a650a;
   0xaa478900b1228e31; 0xe8b768eb18c8b8a2; 0x2fa64ad7e2f6e317; 0x6d56ab3c4b1cd584;
   0xe374ef45bf6062ee; 0xa1840eae168a547d; 0x66952c92ecb40fc8; 0x2465cd79455e395b;
   0x3821458aada7578f; 0x7ad1a461044d611c; 0xbdc0865dfe733aa9; 0xff3067b657990c3a;
   0x711223cfa3e5bb50; 0x33e2c2240a0f8dc3; 0xf4f3e018f031d676; 0xb60301f359dbe0e5;
   0xda050215ea6c212f; 0x98f5e3fe438617bc; 0x5fe4c1c2b9b84c09; 0x1d14202910527a9a;
   0x93366450e42ecdf0; 0xd1c685bb4dc4fb63; 0x16d7a787b7faa0d6; 0x5427466c1e109645;
   0x4863ce9ff6e9f891; 0x0a932f745f03ce02; 0xcd820d48a53d95b7; 0x8f72eca30cd7a324;
   0x0150a8daf8ab144e; 0x43a04931514122dd; 0x84b16b0dab7f7968; 0xc6418ae602954ffb;
   0xbc387aea7a8da4c0; 0xfec89b01d3679253; 0x39d9b93d2959c9e6; 0x7b2958d680b3ff75;
   0xf50b1caf74cf481f; 0xb7fbfd44dd257e8c; 0x70eadf78271b2539; 0x321a3e938ef113aa;
   0x2e5eb66066087d7e; 0x6cae578bcfe24bed; 0xabbf75b735dc1058; 0xe94f945c9c3626cb;
   0x676dd025684a91a1; 0x259d31cec1a0a732; 0xe28c13f23b9efc87; 0xa07cf2199274ca14;
   0x167ff3eacbaf2af1; 0x548f120162451c62; 0x939e303d987b47d7; 0xd16ed1d631917144;
   0x5f4c95afc5edc62e; 0x1dbc74446c07f0bd; 0xdaad56789639ab08; 0x985db7933fd39d9b;
   0x84193f60d72af34f; 0xc6e9de8b7ec0c5dc; 0x01f8fcb784fe9e69; 0x43081d5c2d14a8fa;
   0xcd2a5925d9681f90; 0x8fdab8ce70822903; 0x48cb9af28abc72b6; 0x0a3b7b1923564425;
   0x70428b155b4eaf1e; 0x32b26afef2a4998d; 0xf5a348c2089ac238; 0xb753a929a170f4ab;
   0x3971ed50550c43c1; 0x7b810cbbfce67552; 0xbc902e8706d82ee7; 0xfe60cf6caf321874;
   0xe224479f47cb76a0; 0xa0d4a674ee214033; 0x67c58448141f1b86; 0x253565a3bdf52d15;
   0xab1721da49899a7f; 0xe9e7c031e063acec; 0x2ef6e20d1a5df759; 0x6c0603e6b3b7c1ca;
   0xf6fae5c07d3274cd; 0xb40a042bd4d8425e; 0x731b26172ee619eb; 0x31ebc7fc870c2f78;
   0xbfc9838573709812; 0xfd39626eda9aae81; 0x3a28405220a4f534; 0x78d8a1b9894ec3a7;
   0x649c294a61b7ad73; 0x266cc8a1c85d9be0; 0xe17dea9d3263c055; 0xa38d0b769b89f6c6;
   0x2daf4f0f6ff541ac; 0x6f5faee4c61f773f; 0xa84e8cd83c212c8a; 0xeabe6d3395cb1a19;
   0x90c79d3fedd3f122; 0xd2377cd44439c7b1; 0x15265ee8be079c04; 0x57d6bf0317edaa97;
   0xd9f4fb7ae3911dfd; 0x9b041a914a7b2b6e; 0x5c1538adb04570db; 0x1ee5d94619af4648;
   0x02a151b5f156289c; 0x4051b05e58bc1e0f; 0x87409262a28245ba; 0xc5b073890b687329;
   0x4b9237f0ff14c443; 0x0962d61b56fef2d0; 0xce73f427acc0a965; 0x8c8315cc052a9ff6;
   0x3a80143f5cf17f13; 0x7870f5d4f51b4980; 0xbf61d7e80f251235; 0xfd913603a6cf24a6;
   0x73b3727a52b393cc; 0x31439391fb59a55f; 0xf652b1ad0167feea; 0xb4a25046a88dc879;
   0xa8e6d8b54074a6ad; 0xea16395ee99e903e; 0x2d071b6213a0cb8b; 0x6ff7fa89ba4afd18;
   0xe1d5bef04e364a72; 0xa3255f1be7dc7ce1; 0x64347d271de22754; 0x26c49cccb40811c7;
   0x5cbd6cc0cc10fafc; 0x1e4d8d2b65facc6f; 0xd95caf179fc497da; 0x9bac4efc362ea149;
   0x158e0a85c2521623; 0x577eeb6e6bb820b0; 0x906fc95291867b05; 0xd29f28b9386c4d96;
   0xcedba04ad0952342; 0x8c2b41a1797f15d1; 0x4b3a639d83414e64; 0x09ca82762aab78f7;
   0x87e8c60fded7cf9d; 0xc51827e4773df90e; 0x020905d88d03a2bb; 0x40f9e43324e99428;
   0x2cffe7d5975e55e2; 0x6e0f063e3eb46371; 0xa91e2402c48a38c4; 0xebeec5e96d600e57;
   0x65cc8190991cb93d; 0x273c607b30f68fae; 0xe02d4247cac8d41b; 0xa2dda3ac6322e288;
   0xbe992b5f8bdb8c5c; 0xfc69cab42231bacf; 0x3b78e888d80fe17a; 0x7988096371e5d7e9;
   0xf7aa4d1a85996083; 0xb55aacf12c735610; 0x724b8ecdd64d0da5; 0x30bb6f267fa73b36;
   0x4ac29f2a07bfd00d; 0x08327ec1ae55e69e; 0xcf235cfd546bbd2b; 0x8dd3bd16fd818bb8;
   0x03f1f96f09fd3cd2; 0x41011884a0170a41; 0x86103ab85a2951f4; 0xc4e0db53f3c36767;
   0xd8a453a01b3a09b3; 0x9a54b24bb2d03f20; 0x5d45907748ee6495; 0x1fb5719ce1045206;
   0x919735e51578e56c; 0xd367d40ebc92d3ff; 0x1476f63246ac884a; 0x568617d9ef46bed9;
   0xe085162ab69d5e3c; 0xa275f7c11f7768af; 0x6564d5fde549331a; 0x279434164ca30589;
   0xa9b6706fb8dfb2e3; 0xeb46918411358470; 0x2c57b3b8eb0bdfc5; 0x6ea7525342e1e956;
   0x72e3daa0aa188782; 0x30133b4b03f2b111; 0xf7021977f9cceaa4; 0xb5f2f89c5026dc37;
   0x3bd0bce5a45a6b5d; 0x79205d0e0db05dce; 0xbe317f32f78e067b; 0xfcc19ed95e6430e8;
   0x86b86ed5267cdbd3; 0xc4488f3e8f96ed40; 0x0359ad0275a8b6f5; 0x41a94ce9dc428066;
   0xcf8b0890283e370c; 0x8d7be97b81d4019f; 0x4a6acb477bea5a2a; 0x089a2aacd2006cb9;
   0x14dea25f3af9026d; 0x562e43b4931334fe; 0x913f6188692d6f4b; 0xd3cf8063c0c759d8;
   0x5dedc41a34bbeeb2; 0x1f1d25f19d51d821; 0xd80c07cd676f8394; 0x9afce626ce85b507
].

(** One turn of the loops. *)
Definition rw_crc64_step (crc byte : Z) : Z :=
  u64 (crc ≪ 8) .^ (infilfs_rw_crc64_table !!! Z.to_nat (u8 ((crc ≫ 56) .^ byte))).

Definition infilfs_rw_crc64 (data : list Z) : Z := fold_left rw_crc64_step data 0.

(** The loop from index [i]. *)
Fixpoint rw_crc64_zeroed_from (i : nat) (data : list Z) (zero_offset zero_length : nat) (crc : Z) : Z :=
  match data with
  | [] => crc
  | b :: rest =>
      let byte := if decide (zero_offset <= i /\ i - zero_offset < zero_length)%nat then 0 else b in
      rw_crc64_zeroed_from (S i) rest zero_offset zero_length (rw_crc64_step crc byte)
  end.

Definition infilfs_rw_crc64_zeroed (data : list Z) (zero_offset zero_length : nat) : Z :=
  rw_crc64_zeroed_from 0 data zero_offset zero_length 0.

(** ** UTF-8 *)

(** The loop over [need] continuation bytes. *)
Fixpoint utf8_continuation (need : nat) (s : list Z) (cp : Z) : option (Z * list Z) :=
  match need with
  | O => Some (cp, s)
  | S need' =>
      match s with
      | [] => None
      | d :: rest => if negb ((d .& 0xc0) =? 0x80) then None
                     else utf8_continuation need' rest (u32 (cp ≪ 6) .| (d .& 0x3f))
      end
  end.

(** The lead byte: the bits it contributes and the continuation bytes it needs. *)
Definition utf8_lead (c : Z) : option (Z * nat) :=
  if (c >=? 0xc2) && (c <=? 0xdf) then Some (c .& 0x1f, 1%nat)
  else if (c >=? 0xe0) && (c <=? 0xef) then Some (c .& 0x0f, 2%nat)
  else if (c >=? 0xf0) && (c <=? 0xf4) then Some (c .& 0x07, 3%nat)
  else None.

(** One turn of the loop: what is left of the string, [None] for [return false]. *)
Definition utf8_turn (c : Z) (rest : list Z) : option (list Z) :=
  if c <? 0x80 then Some rest
  else match utf8_lead c with
       | None => None
       | Some (cp, need) =>
           if bool_decide (length rest < need)%nat then None
           else match utf8_continuation need rest cp with
                | None => None
                | Some (cp, rest) =>
                    if (cp <? 0x80) || ((cp <? 0x800) && (c >=? 0xe0)) ||
                       ((cp <? 0x10000) && (c >=? 0xf0)) ||
                       ((cp >=? 0xd800) && (cp <=? 0xdfff)) || (cp >? 0x10ffff)
                    then None else Some rest
                end
       end.

Fixpoint utf8_loop (fuel : nat) (s : list Z) : bool :=
  match s, fuel with
  | [], _ => true
  | _ :: _, O => false
  | c :: rest, S fuel' => match utf8_turn c rest with
                          | None => false
                          | Some rest => utf8_loop fuel' rest
                          end
  end.

Definition infilfs_rw_utf8_valid (s : list Z) : bool := utf8_loop (length s) s.

Section Blocks.
Context {E : Endian}.

Definition infilfs_crc64_block_valid (block : list Z) (checksum_offset checksum_size : nat) : bool :=
  if decide (checksum_size < 8 \/ checksum_offset > INFS_BLOCK_SIZE - checksum_size)%nat then false
  else if negb (forallb (fun i => block !!! (checksum_offset + i)%nat =? 0) (seq 8 (checksum_size - 8)))
  then false
  else le64_at checksum_offset block =? infilfs_rw_crc64_zeroed block checksum_offset checksum_size.

(** [memchr_inv (p, 0, n)] finds nothing. *)
Definition memchr_inv_none (p : list Z) : bool := forallb (fun b => b =? 0) p.

(** ** Locators.  [struct infilfs_recovery_locator] has the fields of
    [infs_locator]. *)

Definition infilfs_locator_shape_valid (loc : infs_locator) : bool :=
  if (generation loc =? 0) || (total_blocks loc <? INFS_LOCATOR_MIN_VOLUME_BLOCKS) ||
     negb (checkpoint loc !!! 0%nat =? 0) then false
  else if negb (existsb (fun i => negb (filesystem_uuid loc !!! i =? 0)) (seq 0 16)) then false
  else
    forallb (fun i =>
      negb ((checkpoint loc !!! i >=? total_blocks loc) ||
            (checkpoint loc !!! i =? INFS_LOCATOR_BLOCK_A) ||
            (checkpoint loc !!! i =? INFS_LOCATOR_BLOCK_B)) &&
      forallb (fun j => negb (checkpoint loc !!! i =? checkpoint loc !!! j))
        (seq (i + 1) (INFS_CHECKPOINT_COUNT - (i + 1))))
      (seq 0 INFS_CHECKPOINT_COUNT).

Definition recovery_locator_of_disk (disk : list Z) : infs_locator :=
  Loc (le64_at 16 disk) (le64_at 24 disk)
    (map (fun i => le64_at (32 + 8 * i) disk) (seq 0 INFS_CHECKPOINT_COUNT)) (slice 56 16 disk).

Definition infilfs_locator_decode_019 (block : list Z) (device_blocks : Z) : kresult infs_locator :=
  if device_blocks <? INFS_LOCATOR_MIN_VOLUME_BLOCKS then KErr EFSCORRUPTED
  else if negb (bytes_eqb (slice 0 8 block) locator_magic) ||
          negb (le16_at 8 block =? INFS_LOCATOR_SCHEMA_VERSION) ||
          negb (le16_at 10 block =? Z.of_nat INFS_LOCATOR_HEADER_BYTES) ||
          negb (le16_at 12 block =? INFS_FORMAT_MAJOR) ||
          negb (le16_at 14 block =? INFS_LOCATOR_FORMAT_MINOR) ||
          negb (memchr_inv_none (slice INFS_LOCATOR_HEADER_BYTES
                                   (INFS_BLOCK_SIZE - INFS_LOCATOR_HEADER_BYTES) block)) ||
          negb (infilfs_crc64_block_valid block 72 8)
  then KErr EFSCORRUPTED
  else
    let candidate := recovery_locator_of_disk block in
    if negb (infilfs_locator_shape_valid candidate) || (total_blocks candidate >? device_blocks)
    then KErr EFSCORRUPTED
    else KOk candidate.

Definition infilfs_locator_encode_019 (loc : infs_locator) : kresult (list Z) :=
  if negb (infilfs_locator_shape_valid loc) then KErr EINVAL
  else
    let block := replicate INFS_BLOCK_SIZE 0 in
    let block := splice 0 locator_magic block in
    let block := splice 8 (store_le16 INFS_LOCATOR_SCHEMA_VERSION) block in
    let block := splice 10 (store_le16 (Z.of_nat INFS_LOCATOR_HEADER_BYTES)) block in
    let block := splice 12 (store_le16 INFS_FORMAT_MAJOR) block in
    let block := splice 14 (store_le16 INFS_LOCATOR_FORMAT_MINOR) block in
    let block := splice 16 (store_le64 (generation loc)) block in
    let block := splice 24 (store_le64 (total_blocks loc)) block in
    let block := fold_left (fun block i =>
                   splice (32 + 8 * i) (store_le64 (checkpoint loc !!! i)) block)
                   (seq 0 INFS_CHECKPOINT_COUNT) block in
    let block := splice 56 (take 16 (filesystem_uuid loc)) block in
    KOk (splice 72 (store_le64 (infilfs_rw_crc64_zeroed block 72 8)) block).

End Blocks.
End Kernel.

(** * Facts *)

Module KernelFacts.
Import Objects ObjectsFacts Locator LocatorFacts Kernel.

(** ** CRC *)

Lemma rw_crc64_table_same : infilfs_rw_crc64_table = Crc64.crc64_ecma_table.
Proof. vm_compute; reflexivity. Qed.

Lemma rw_crc64_step_same crc byte : rw_crc64_step crc byte = Crc64.crc64_step crc byte.
Proof. unfold rw_crc64_step; rewrite rw_crc64_table_same; apply Z.lxor_comm. Qed.

Lemma rw_crc64_same data : infilfs_rw_crc64 data = Crc64.infs_crc64_ecma data.
Proof.
  unfold infilfs_rw_crc64, Crc64.infs_crc64_ecma; generalize 0; induction data as [| b data IH]; intros crc;
    [reflexivity |]; cbn [fold_left]; rewrite rw_crc64_step_same; apply IH.
Qed.

(** Reading with the window zeroed is reading a copy with the window cleared. *)
Lemma zeroed_from_eq data i off len crc :
  (off + len <= i + length data)%nat ->
  rw_crc64_zeroed_from i data off len crc =
  fold_left rw_crc64_step
    (imap (fun k b => if decide (off <= i + k /\ i + k - off < len)%nat then 0 else b) data) crc.
Proof.
  revert i crc; induction data as [| b data IH]; intros i crc Hl; [reflexivity |].
  cbn [rw_crc64_zeroed_from]; rewrite imap_cons; cbn [fold_left length] in *.
  rewrite Nat.add_0_r, IH by lia; f_equal; apply imap_ext; intros k x _; cbn.
  rewrite Nat.add_succ_r; reflexivity.
Qed.

Lemma zeroed_splice data off len :
  (off + len <= length data)%nat ->
  imap (fun k b => if decide (off <= 0 + k /\ 0 + k - off < len)%nat then 0 else b) data =
  splice off (replicate len 0) data.
Proof.
  intros Hl; apply list_eq; intros i; rewrite list_lookup_imap, lookup_splice, length_replicate by
    (rewrite length_replicate; exact Hl).
  destruct (data !! i) as [b |] eqn:Ei; cbn.
  - apply lookup_lt_Some in Ei as Hi; repeat case_decide; try lia; trivial.
    rewrite lookup_replicate_2 by lia; reflexivity.
  - apply lookup_ge_None in Ei as Hi; case_decide; [lia | reflexivity].
Qed.

Lemma rw_crc64_zeroed_same data off len :
  (off + len <= length data)%nat ->
  infilfs_rw_crc64_zeroed data off len = block_crc_with_zeroed_checksum data off len.
Proof.
  intros Hl; unfold infilfs_rw_crc64_zeroed; rewrite zeroed_from_eq by exact Hl.
  rewrite zeroed_splice by exact Hl; apply rw_crc64_same.
Qed.

Lemma memchr_inv_zero p : memchr_inv_none p = bytes_are_zero p.
Proof.
  apply eq_true_iff_eq; rewrite bytes_are_zero_spec; unfold memchr_inv_none.
  rewrite forallb_forall, List.Forall_forall; split; intros H x Hx.
  - symmetry; apply Z.eqb_eq, H, Hx.
  - apply Z.eqb_eq; symmetry; apply H, Hx.
Qed.

Lemma forallb_slice_zero block off a n :
  (off + a + n <= length block)%nat ->
  forallb (fun i => block !!! (off + i)%nat =? 0) (seq a n) = bytes_are_zero (slice (off + a) n block).
Proof.
  intros Hl; rewrite <- memchr_inv_zero; unfold memchr_inv_none; revert a Hl.
  induction n as [| n IH]; intros a Hl; [reflexivity |]; cbn [seq forallb].
  rewrite IH by lia; unfold slice.
  destruct (lookup_lt_is_Some_2 block (off + a)%nat ltac:(lia)) as [b Hb].
  rewrite (drop_S block b (off + a) Hb), (list_lookup_total_correct _ _ _ Hb), Nat.add_succ_r; reflexivity.
Qed.

Section Blocks.
Context {E : Endian}.

Lemma block_valid_spec block off size :
  length block = INFS_BLOCK_SIZE -> (8 <= size)%nat -> (off + size <= INFS_BLOCK_SIZE)%nat ->
  infilfs_crc64_block_valid block off size =
  bytes_are_zero (slice (off + 8) (size - 8) block) &&
  (le64_at off block =? block_crc_with_zeroed_checksum block off size).
Proof.
  intros Hl H8 Hs; unfold infilfs_crc64_block_valid; rewrite decide_False by lia.
  rewrite rw_crc64_zeroed_same, forallb_slice_zero by lia.
  destruct (bytes_are_zero _); reflexivity.
Qed.

Lemma block_valid_seal block off :
  length block = INFS_BLOCK_SIZE -> (off + 32 <= INFS_BLOCK_SIZE)%nat ->
  infilfs_crc64_block_valid block off 32 = seal_ok off block.
Proof. intros Hl Hs; apply block_valid_spec; trivial; lia. Qed.

(** ** Locators *)

Lemma get_u16_at off b :
  length b = INFS_BLOCK_SIZE -> bytes_ok b -> (off + 2 <= INFS_BLOCK_SIZE)%nat ->
  le16_at off b = get_u16 (slice off 2 b).
Proof.
  intros Hl Hb Ho; destruct (bytes_slice_ok off 2 b Hl Hb Ho).
  unfold le16_at; rewrite load_le16_law, get_u16_load; trivial.
Qed.

Lemma get_u64_at off b :
  length b = INFS_BLOCK_SIZE -> bytes_ok b -> (off + 8 <= INFS_BLOCK_SIZE)%nat ->
  le64_at off b = get_u64 (slice off 8 b).
Proof.
  intros Hl Hb Ho; destruct (bytes_slice_ok off 8 b Hl Hb Ho).
  unfold le64_at; rewrite load_le64_law, get_u64_load; trivial.
Qed.

Lemma uuid_test (u : list Z) :
  length u = 16%nat -> existsb (fun i => negb (u !!! i =? 0)) (seq 0 16) = negb (all_zero u).
Proof.
  intros Hu; transitivity (negb (forallb (fun i => u !!! (0 + i)%nat =? 0) (seq 0 16))).
  - generalize (seq 0 16); induction l as [| i l IH]; [reflexivity |]; cbn [existsb forallb].
    rewrite IH, negb_andb; reflexivity.
  - rewrite forallb_slice_zero by (cbn; lia); unfold slice; rewrite drop_0, take_ge by lia; reflexivity.
Qed.

Lemma shape_valid_same loc :
  length (filesystem_uuid loc) = 16%nat -> infilfs_locator_shape_valid loc = locator_fields_valid loc.
Proof.
  intros Hu; unfold infilfs_locator_shape_valid, locator_fields_valid; rewrite uuid_test, negb_involutive by exact Hu.
  destruct (generation loc =? 0), (total_blocks loc <? _), (all_zero _), (checkpoint loc !!! _ =? 0);
    reflexivity.
Qed.

Lemma recovery_locator_same block :
  length block = INFS_BLOCK_SIZE -> bytes_ok block ->
  recovery_locator_of_disk block = locator_of_block block.
Proof.
  intros Hl Hb; unfold recovery_locator_of_disk, locator_of_block; f_equal;
    try (apply get_u64_at; trivial; unfold INFS_BLOCK_SIZE; lia).
  apply map_ext_in; intros i Hi%in_seq; rewrite Nat.mul_comm; apply get_u64_at; trivial.
  unfold INFS_CHECKPOINT_COUNT, INFS_BLOCK_SIZE in *; lia.
Qed.

(** The kernel's result for the portable one. *)
Definition as_kernel {A} (e : errno) (r : result A) : kresult A :=
  match r with Good a => KOk a | Bad _ => KErr e end.

Lemma decode_same block device_blocks :
  length block = INFS_BLOCK_SIZE -> bytes_ok block ->
  infilfs_locator_decode_019 block device_blocks =
  as_kernel EFSCORRUPTED (infs_locator_decode block device_blocks).
Proof.
  intros Hl Hb; unfold infilfs_locator_decode_019, infs_locator_decode; cbv zeta.
  rewrite memchr_inv_zero, block_valid_spec by (trivial; unfold INFS_BLOCK_SIZE; lia).
  rewrite !get_u16_at, get_u64_at by (trivial; unfold INFS_BLOCK_SIZE; lia).
  rewrite recovery_locator_same, shape_valid_same by (trivial; apply (locator_of_block_typed block Hl Hb)).
  change (bytes_are_zero (slice (72 + 8) (8 - 8) block)) with true; unfold block_crc_with_zeroed_checksum.
  unfold all_zero, bytes_are_zero; cbn [andb].
  set (t := bytes_or (slice INFS_LOCATOR_HEADER_BYTES _ _) =? 0).
  set (c := get_u64 (slice 72 8 block) =? _).
  destruct (device_blocks <? _), (bytes_eqb _ _), (_ =? INFS_LOCATOR_SCHEMA_VERSION),
    (_ =? Z.of_nat INFS_LOCATOR_HEADER_BYTES), (_ =? INFS_FORMAT_MAJOR), (_ =? INFS_LOCATOR_FORMAT_MINOR),
    t, c; cbn [negb orb]; try reflexivity.
  destruct (_ || _); reflexivity.
Qed.

Lemma store_le16_put v : store_le16 v = put_u16 v.
Proof. rewrite store_le16_law; symmetry; apply put_u16_store. Qed.

Lemma store_le64_put v : store_le64 v = put_u64 v.
Proof. rewrite store_le64_law; symmetry; apply put_u64_store. Qed.

Lemma encode_same loc :
  length (filesystem_uuid loc) = 16%nat ->
  infilfs_locator_encode_019 loc = as_kernel EINVAL (infs_locator_encode loc).
Proof.
  intros Hu; unfold infilfs_locator_encode_019, infs_locator_encode.
  rewrite shape_valid_same by exact Hu; destruct (locator_fields_valid loc); [| reflexivity].
  cbn [negb INFS_CHECKPOINT_COUNT seq fold_left Nat.add Nat.mul as_kernel].
  rewrite !store_le16_put, !store_le64_put, (encode_stores loc Hu).
  assert (Hl : length (with_crc loc (replicate 8 0)) = INFS_BLOCK_SIZE) by (apply length_with_crc; trivial).
  rewrite rw_crc64_zeroed_same by (rewrite Hl; unfold INFS_BLOCK_SIZE; lia).
  unfold block_crc_with_zeroed_checksum; rewrite slice_zero_crc by trivial; reflexivity.
Qed.

(** C38.  The driver's locator codec is the portable one: on every block the two
    decoders accept the same blocks with the same record, on every record the two
    encoders write the same bytes, and they refuse the same inputs. *)
Theorem kernel_locator_conforms block device_blocks loc :
  length block = INFS_BLOCK_SIZE -> bytes_ok block -> length (filesystem_uuid loc) = 16%nat ->
  infilfs_locator_decode_019 block device_blocks =
    as_kernel EFSCORRUPTED (infs_locator_decode block device_blocks) /\
  infilfs_locator_encode_019 loc = as_kernel EINVAL (infs_locator_encode loc).
Proof. intros Hl Hb Hu; split; [apply decode_same | apply encode_same]; assumption. Qed.

End Blocks.

Definition sample_locator_block : list Z := Eval vm_compute in
  match infs_locator_encode sample_locator with Good block => block | Bad _ => [] end.

Lemma kernel_locator_conforms_witness :
  infs_locator_decode sample_locator_block 10000 = Good sample_locator /\
  infilfs_locator_decode_019 (E := reference_endian) sample_locator_block 10000 =
    as_kernel EFSCORRUPTED (infs_locator_decode sample_locator_block 10000) /\
  infilfs_locator_encode_019 (E := reference_endian) sample_locator =
    as_kernel EINVAL (infs_locator_encode sample_locator).
Proof.
  split; [vm_compute; reflexivity |].
  apply kernel_locator_conforms; [reflexivity | eval_decide | reflexivity].
Defined.

(** ** UTF-8 *)

(** The Unicode scalar values and their encoding. *)
Definition scalar (cp : Z) : Prop := 0 <= cp <= 0x10ffff /\ ~ (0xd800 <= cp <= 0xdfff).

Definition utf8_encode (cp : Z) : list Z :=
  if cp <? 0x80 then [cp]
  else if cp <? 0x800 then [0xc0 + cp / 64; 0x80 + cp mod 64]
  else if cp <? 0x10000 then [0xe0 + cp / 4096; 0x80 + cp / 64 mod 64; 0x80 + cp mod 64]
  else [0xf0 + cp / 262144; 0x80 + cp / 4096 mod 64; 0x80 + cp / 64 mod 64; 0x80 + cp mod 64].

Lemma byte_cases (f : Z -> bool) d : forallb f (seqZ 0 256) = true -> fits 8 d -> f d = true.
Proof. intros Hf Hd; rewrite forallb_forall in Hf; apply Hf, list_elem_of_In, elem_of_seqZ, Hd. Qed.

(** A continuation byte carries six bits. *)
Lemma continuation_byte d :
  fits 8 d -> ((d .& 0xc0) =? 0x80) = (0x80 <=? d) && (d <? 0xc0).
Proof.
  intros Hd; apply eqb_prop; revert d Hd.
  intros d; apply (byte_cases (fun d => eqb ((d .& 0xc0) =? 0x80) ((0x80 <=? d) && (d <? 0xc0)))).
  vm_compute; reflexivity.
Qed.

Lemma lor_low k x y : 0 <= k -> 0 <= y < 2 ^ k -> (x * 2 ^ k .| y) = x * 2 ^ k + y.
Proof.
  intros Hk Hy; rewrite <- Z.add_lor_land; replace (x * 2 ^ k .& y) with 0; [lia |].
  rewrite <- Z.shiftl_mul_pow2 by exact Hk; symmetry; apply Z.bits_inj'; intros i Hi.
  rewrite Z.land_spec, shl_testbit, Z.bits_0 by exact Hk; destruct (Z.lt_ge_cases i k).
  - rewrite Z.testbit_neg_r by lia; reflexivity.
  - rewrite (fits_testbit k y) by (trivial; lia); apply andb_false_r.
Qed.

Lemma push_bits cp d :
  0 <= cp < 2 ^ 16 -> 0x80 <= d < 0xc0 -> (u32 (cp ≪ 6) .| (d .& 0x3f)) = cp * 64 + (d - 0x80).
Proof.
  intros Hc Hd; change 0x3f with (Z.ones 6); rewrite Z.land_ones, Z.shiftl_mul_pow2 by lia.
  rewrite wrap_small by (unfold fits; lia).
  replace (d mod 2 ^ 6) with (d - 0x80) by (apply (Z.mod_unique _ _ 2); lia).
  apply lor_low; lia.
Qed.

Lemma continue_done s cp : utf8_continuation 0 s cp = Some (cp, s).
Proof. reflexivity. Qed.

Lemma continue_cons need d rest cp :
  fits 8 d -> 0 <= cp < 2 ^ 16 ->
  utf8_continuation (S need) (d :: rest) cp =
  if (0x80 <=? d) && (d <? 0xc0) then utf8_continuation need rest (cp * 64 + (d - 0x80)) else None.
Proof.
  intros Hd Hc; cbn [utf8_continuation]; rewrite continuation_byte by exact Hd.
  destruct ((0x80 <=? d) && (d <? 0xc0)) eqn:Ed; [| reflexivity].
  cbn [negb]; rewrite push_bits by (to_prop; lia); reflexivity.
Qed.

(** The lead byte, by arithmetic. *)
Definition lead_bits (c : Z) : option (Z * nat) :=
  if (0xc2 <=? c) && (c <=? 0xdf) then Some (c - 0xc0, 1%nat)
  else if (0xe0 <=? c) && (c <=? 0xef) then Some (c - 0xe0, 2%nat)
  else if (0xf0 <=? c) && (c <=? 0xf4) then Some (c - 0xf0, 3%nat) else None.

Lemma utf8_lead_spec c : fits 8 c -> utf8_lead c = lead_bits c.
Proof.
  intros Hc; assert (Hall : forallb (fun c => bool_decide (utf8_lead c = lead_bits c)) (seqZ 0 256) = true)
    by (vm_compute; reflexivity).
  exact (bool_decide_eq_true_1 _ (byte_cases _ c Hall Hc)).
Qed.

Ltac utf8_step :=
  repeat match goal with H : Forall _ (_ :: _) |- _ => apply Forall_cons in H as [? H] end;
  rewrite ?continue_cons by (unfold fits in *; lia).

(** One turn takes the encoding of one scalar value off the string. *)
Lemma utf8_turn_sound c rest rest' :
  bytes_ok (c :: rest) -> utf8_turn c rest = Some rest' ->
  exists cp, scalar cp /\ c :: rest = utf8_encode cp ++ rest'.
Proof.
  intros [Hc Hb]%Forall_cons; unfold utf8_turn, scalar, utf8_encode; case_if E0.
  { intros [= <-]; exists c; rewrite E0; unfold fits in Hc; split; [lia | reflexivity]. }
  rewrite utf8_lead_spec by exact Hc; unfold lead_bits.
  case_if E2; [| case_if E3; [| case_if E4; [| discriminate]]]; case_bool_decide as Hn; try discriminate.
  - destruct rest as [| d1 r]; cbn [length] in Hn; [lia |].
    utf8_step; case_if D1; [| discriminate]; cbn [utf8_continuation]; case_if G; [discriminate |].
    intros [= <-]; exists ((c - 0xc0) * 64 + (d1 - 0x80)); split; [lia |].
    rewrite (proj2 (Z.ltb_ge _ _)), (proj2 (Z.ltb_lt _ _)) by lia.
    cbn [app]; repeat f_equal; Z.to_euclidean_division_equations; lia.
  - destruct rest as [| d1 [| d2 r]]; cbn [length] in Hn; [lia.. |].
    utf8_step; case_if D1; [| discriminate]; utf8_step; case_if D2; [| discriminate].
    cbn [utf8_continuation]; case_if G; [discriminate |].
    intros [= <-]; exists (((c - 0xe0) * 64 + (d1 - 0x80)) * 64 + (d2 - 0x80)); split; [lia |].
    rewrite !(proj2 (Z.ltb_ge _ _)), (proj2 (Z.ltb_lt _ _)) by lia.
    cbn [app]; repeat f_equal; Z.to_euclidean_division_equations; lia.
  - destruct rest as [| d1 [| d2 [| d3 r]]]; cbn [length] in Hn; [lia.. |].
    utf8_step; case_if D1; [| discriminate]; utf8_step; case_if D2; [| discriminate].
    utf8_step; case_if D3; [| discriminate]; cbn [utf8_continuation]; case_if G; [discriminate |].
    intros [= <-]; exists ((((c - 0xf0) * 64 + (d1 - 0x80)) * 64 + (d2 - 0x80)) * 64 + (d3 - 0x80)).
    split; [lia |]; rewrite !(proj2 (Z.ltb_ge _ _)) by lia.
    cbn [app]; repeat f_equal; Z.to_euclidean_division_equations; lia.
Qed.

Ltac utf8_run :=
  unfold utf8_turn; rewrite utf8_lead_spec by (unfold fits; lia); unfold lead_bits;
  repeat first
    [ rewrite bool_decide_eq_false_2 by (cbn; lia)
    | rewrite continue_done
    | rewrite continue_cons by (unfold fits; lia)
    | match goal with |- context [if ?b then _ else _] =>
        first [replace b with true by lia | replace b with false by lia] end ];
  reflexivity.

Lemma utf8_turn_2 c d r : 0xc2 <= c <= 0xdf -> 0x80 <= d < 0xc0 -> utf8_turn c (d :: r) = Some r.
Proof. intros; utf8_run. Qed.

Lemma utf8_turn_3 c d e r :
  0xe0 <= c <= 0xef -> 0x80 <= d < 0xc0 -> 0x80 <= e < 0xc0 ->
  scalar (((c - 0xe0) * 64 + (d - 0x80)) * 64 + (e - 0x80)) ->
  0x800 <= ((c - 0xe0) * 64 + (d - 0x80)) * 64 + (e - 0x80) ->
  utf8_turn c (d :: e :: r) = Some r.
Proof. unfold scalar; intros; utf8_run. Qed.

Lemma utf8_turn_4 c d e f r :
  0xf0 <= c <= 0xf4 -> 0x80 <= d < 0xc0 -> 0x80 <= e < 0xc0 -> 0x80 <= f < 0xc0 ->
  0x10000 <= (((c - 0xf0) * 64 + (d - 0x80)) * 64 + (e - 0x80)) * 64 + (f - 0x80) <= 0x10ffff ->
  utf8_turn c (d :: e :: f :: r) = Some r.
Proof. intros; utf8_run. Qed.

Lemma utf8_turn_complete cp rest :
  scalar cp -> exists c r, utf8_encode cp ++ rest = c :: r /\ utf8_turn c r = Some rest.
Proof.
  unfold utf8_encode; intros Hs; pose proof Hs as [Hr _].
  case_if E1; [| case_if E2; [| case_if E3]]; cbn [app]; eexists _, _; (split; [reflexivity |]).
  - unfold utf8_turn; rewrite E1; reflexivity.
  - apply utf8_turn_2; Z.to_euclidean_division_equations; lia.
  - assert (Hcp : ((0xe0 + cp / 4096 - 0xe0) * 64 + (0x80 + cp / 64 mod 64 - 0x80)) * 64 +
      (0x80 + cp mod 64 - 0x80) = cp) by (Z.to_euclidean_division_equations; lia).
    apply utf8_turn_3; rewrite ?Hcp; trivial; Z.to_euclidean_division_equations; lia.
  - assert (Hcp : (((0xf0 + cp / 262144 - 0xf0) * 64 + (0x80 + cp / 4096 mod 64 - 0x80)) * 64 +
      (0x80 + cp / 64 mod 64 - 0x80)) * 64 + (0x80 + cp mod 64 - 0x80) = cp)
      by (Z.to_euclidean_division_equations; lia).
    apply utf8_turn_4; rewrite ?Hcp; Z.to_euclidean_division_equations; lia.
Qed.

Lemma utf8_turn_shrinks c rest r :
  bytes_ok (c :: rest) -> utf8_turn c rest = Some r -> bytes_ok r /\ (length r <= length rest)%nat.
Proof.
  intros Hb Ht; destruct (utf8_turn_sound _ _ _ Hb Ht) as (cp & _ & Heq).
  assert (Hlen : length (c :: rest) = length (utf8_encode cp ++ r)) by (rewrite Heq; reflexivity).
  assert (Hne : (1 <= length (utf8_encode cp))%nat).
  { unfold utf8_encode; destruct (cp <? 0x80), (cp <? 0x800), (cp <? 0x10000); cbn; lia. }
  rewrite length_app in Hlen; cbn [length] in Hlen; rewrite Heq in Hb; apply bytes_ok_app in Hb.
  split; [apply Hb | lia].
Qed.

Lemma utf8_loop_spec fuel s :
  bytes_ok s -> (length s <= fuel)%nat ->
  utf8_loop fuel s = true <-> exists cps, Forall scalar cps /\ s = concat (map utf8_encode cps).
Proof.
  revert s; induction fuel as [| fuel IH]; intros [| c rest] Hb Hl; cbn [utf8_loop length] in *; try lia;
    try (split; [exists []; split; [constructor | reflexivity] | reflexivity]).
  split.
  - destruct (utf8_turn c rest) as [r |] eqn:Et; [| discriminate]; intros Hr.
    destruct (utf8_turn_shrinks _ _ _ Hb Et), (utf8_turn_sound _ _ _ Hb Et) as (cp & Hcp & ->).
    apply IH in Hr as (cps & Hcps & ->); [| assumption | lia].
    exists (cp :: cps); split; [constructor; assumption | reflexivity].
  - intros ([| cp cps] & Hcps & Heq); [discriminate |]; cbn [map concat] in Heq.
    apply Forall_cons in Hcps as [Hcp Hcps].
    destruct (utf8_turn_complete cp (concat (map utf8_encode cps)) Hcp) as (c' & r & He & Ht).
    rewrite He in Heq; injection Heq as -> ->; rewrite Ht.
    destruct (utf8_turn_shrinks _ _ _ Hb Ht); apply IH; [assumption | lia | exists cps; split; trivial].
Qed.

(** C39.  The driver's UTF-8 test accepts exactly the encodings of sequences of
    Unicode scalar values: no overlong form, no surrogate, nothing above 0x10FFFF,
    no truncated sequence. *)
Theorem utf8_valid_exact s :
  bytes_ok s ->
  infilfs_rw_utf8_valid s = true <-> exists cps, Forall scalar cps /\ s = concat (map utf8_encode cps).
Proof. intros Hb; apply utf8_loop_spec; [exact Hb | reflexivity]. Qed.

(** The Greek letter alpha and the euro sign; then an overlong slash. *)
Lemma utf8_valid_exact_witness :
  (infilfs_rw_utf8_valid [0xce; 0xb1; 0xe2; 0x82; 0xac] = true <->
   exists cps, Forall scalar cps /\ [0xce; 0xb1; 0xe2; 0x82; 0xac] = concat (map utf8_encode cps)) /\
  infilfs_rw_utf8_valid [0xce; 0xb1; 0xe2; 0x82; 0xac] = true /\
  infilfs_rw_utf8_valid [0xc0; 0xaf] = false.
Proof. split; [apply utf8_valid_exact; eval_decide | split; reflexivity]. Defined.

End KernelFacts.
