(* ===== verification/KernelMount.v ===== *)
(** Checkpoint admission and discovery of the Linux driver
    ([src/kernel/infiltratorfs_checkpoint_discovery.c], with the allocation tree
    counts of [infiltratorfs_allocation_map.c] and the block reads of
    [infiltratorfs_core.c]), and that what it admits is what the portable core
    admits.

    [sb_bread] is a parameter.  [valid[i]] and [disks[i]] together are an optional
    structure; [size_t] has 64 bits. *)

From Stdlib Require Import ZifyBool.
From stdpp Require Import prelude.
From S2P Require Import Prelude Endian Checksum Format Security Storage Objects Locator Discovery Kernel.
#[local] Open Scope Z_scope.

(** * Definitions *)

Module KernelMount.
Import Objects Locator Kernel.

(** ** Allocation tree geometry *)

Definition INFILFS_ALLOCATION_TREE_MAX_BLOCKS : Z :=
  INFS_ALLOCATION_TREE_MAX_LEAVES * INFS_ALLOCATION_BITS_PER_LEAF.

Definition SIZE_MAX : Z := 2 ^ 64 - 1.

Definition DIV_ROUND_UP_ULL (n d : Z) : Z := u64 (n + d - 1) / d.

(** The leaves, the pages of level 1 and 2, and all branch pages. *)
Definition infilfs_allocation_counts (total : Z) : kresult (Z * Z * Z * Z) :=
  if (total =? 0) || (total >? INFILFS_ALLOCATION_TREE_MAX_BLOCKS) then KErr EFBIG
  else
    let leaves := DIV_ROUND_UP_ULL total INFS_ALLOCATION_BITS_PER_LEAF in
    let level1 := DIV_ROUND_UP_ULL leaves INFS_ALLOCATION_TREE_FANOUT in
    let level2 := DIV_ROUND_UP_ULL level1 INFS_ALLOCATION_TREE_FANOUT in
    let branches := u64 (1 + level1 + level2) in
    if (leaves =? 0) || (level1 =? 0) || (level2 =? 0) || (leaves >? SIZE_MAX) ||
       (level1 >? SIZE_MAX) || (level2 >? SIZE_MAX) || (branches >? SIZE_MAX) then KErr EOVERFLOW
    else KOk (leaves, level1, level2, branches).

Definition infilfs_allocation_runtime_bytes (total : Z) : kresult Z :=
  if total >? 2 ^ 64 - 1 - 7 then KErr EINVAL
  else
    let raw := DIV_ROUND_UP_ULL total 8 in
    let blocks := DIV_ROUND_UP_ULL raw block_size in
    if (blocks =? 0) || (blocks >? SIZE_MAX / block_size) then KErr EOVERFLOW
    else KOk (u64 (blocks * block_size)).

Section Mount.
Context {E : Endian}.

(** ** Admission *)

Definition required_kernel_flags : Z :=
  INFS_INCOMPAT_UTF8_NAMES .| INFS_INCOMPAT_SPARSE_EXTENTS .| INFS_INCOMPAT_ALLOCATION_TREE .|
  INFS_INCOMPAT_UNICODE_NORM_V1.

Definition sb_allocation_root_block (b : list Z) : Z := le64_at 44 b.
Definition sb_allocation_leaf_count (b : list Z) : Z := le64_at 52 b.
Definition sb_object_index_block (b : list Z) : Z := le64_at 60 b.
Definition sb_root_object_block (b : list Z) : Z := le64_at 68 b.

(** The label ends in the field, in zeros, and is UTF-8. *)
Definition label_admitted (label : list Z) : bool :=
  match memchr0 label with
  | None => false
  | Some label_end => memchr_inv_none (drop label_end label) &&
                      infilfs_rw_utf8_valid (take label_end label)
  end.

(** [disk] is the 252-byte structure. *)
Definition infilfs_checkpoint_basic_valid (disk : list Z) (device_blocks : Z) : bool :=
  if negb (bytes_eqb (slice 0 8 disk) INFS_MAGIC) then false
  else if negb (sb_format_major disk =? INFS_FORMAT_MAJOR) ||
          negb (sb_format_minor disk =? INFS_FORMAT_MINOR) ||
          negb (sb_header_size disk =? Z.of_nat sb_size) ||
          negb (sb_block_shift disk =? INFS_BLOCK_SHIFT) ||
          negb (sb_checksum_type disk =? INFS_CHECKSUM_CRC64_ECMA) ||
          (sb_generation disk =? 0) then false
  else
    let total := sb_total_blocks disk in
    if (total <? 3) || (total >? device_blocks) || (sb_free_blocks disk >? total) then false
    else if existsb (fun i => sb_checkpoint_block disk i >=? total) (seq 0 INFS_CHECKPOINT_COUNT)
    then false
    else if negb (sb_checkpoint_block disk 0 =? 0) then false
    else if existsb (fun i => existsb (fun j => sb_checkpoint_block disk i =? sb_checkpoint_block disk j)
                                (seq (i + 1) (INFS_CHECKPOINT_COUNT - (i + 1))))
              (seq 0 INFS_CHECKPOINT_COUNT) then false
    else match infilfs_allocation_counts total with
    | KErr _ => false
    | KOk (leaves, _, _, _) =>
        if negb (sb_allocation_leaf_count disk =? leaves) || (sb_allocation_root_block disk =? 0) ||
           (sb_allocation_root_block disk >=? total) || (sb_object_index_block disk >=? total) ||
           (sb_root_object_block disk >=? total) then false
        else
          let incompat := sb_incompat_flags disk in
          if negb (Z.ldiff incompat INFS_KNOWN_INCOMPAT_FLAGS =? 0) then false
          else if negb ((incompat .& required_kernel_flags) =? required_kernel_flags) then false
          else if memchr_inv_none (sb_filesystem_uuid disk) || memchr_inv_none (sb_root_object_id disk)
          then false
          else label_admitted (sb_label disk)
    end.

(** ** Discovery *)

Context {D : Type} (sb_bread : D -> Z -> option (list Z) * D) (device_blocks : Z).

Definition infilfs_read_block (block : Z) (d : D) : kresult (list Z) * D :=
  if block >=? device_blocks then (KErr EIO, d)
  else match sb_bread d block with
       | (None, d) => (KErr EIO, d)
       | (Some data, d) => (KOk data, d)
       end.

(** What discovery threads through its reads: the device and [first_read_error]. *)
Definition probing : Type := D * option errno.

(** Read one block; a failure is noted and the loop goes on. *)
Definition probe_read (block : Z) (st : probing) : option (list Z) * probing :=
  match infilfs_read_block block st.1 with
  | (KOk raw, d) => (Some raw, (d, st.2))
  | (KErr e, d) => (None, (d, match st.2 with None => Some e | first => first end))
  end.

(** A block that passes the checksum, the zero tail and the admission tests. *)
Definition admitted_disk (raw : list Z) : option (list Z) :=
  if negb (infilfs_crc64_block_valid raw sb_checksum_off 32) ||
     negb (memchr_inv_none (slice sb_size (INFS_BLOCK_SIZE - sb_size) raw)) then None
  else
    let disk := slice 0 sb_size raw in
    if negb (infilfs_checkpoint_basic_valid disk device_blocks) ||
       negb (sb_format_minor disk =? INFS_LOCATOR_FORMAT_MINOR) then None
    else Some disk.

(** The map in locator [i]. *)
Definition locator_map (raw : list Z) : option infs_locator :=
  match infilfs_locator_decode_019 raw device_blocks with KOk m => Some m | KErr _ => None end.

(** The map in block zero. *)
Definition primary_disk_map (raw : list Z) : option infs_locator :=
  disk ← admitted_disk raw;
  if sb_total_blocks disk <? INFS_LOCATOR_MIN_VOLUME_BLOCKS then None
  else
    let m := Loc (sb_generation disk) (sb_total_blocks disk)
               (map (sb_checkpoint_block disk) (seq 0 INFS_CHECKPOINT_COUNT))
               (sb_filesystem_uuid disk) in
    if existsb (fun block => (block =? INFS_LOCATOR_BLOCK_A) || (block =? INFS_LOCATOR_BLOCK_B))
         (checkpoint m) then None
    else Some m.

(** Compare map [i] with map [j]: another filesystem is an error; block zero's map
    is dropped when it repeats a locator's geometry. *)
Definition compare_maps (i j : nat) (maps : list (option infs_locator))
    : kresult (list (option infs_locator)) :=
  match nth i maps None, nth j maps None with
  | Some a, Some b =>
      if negb (bytes_eqb (filesystem_uuid a) (filesystem_uuid b)) then KErr EFSCORRUPTED
      else if bool_decide (j = 2%nat) && (total_blocks a =? total_blocks b) &&
              bytes_eqb (checkpoint a) (checkpoint b)
      then KOk (<[j := None]> maps)
      else KOk maps
  | _, _ => KOk maps
  end.

(** The two nested loops over [i < j]. *)
Definition reconcile_maps (maps : list (option infs_locator)) : kresult (list (option infs_locator)) :=
  fold_left (fun r '(i, j) => match r with KOk maps => compare_maps i j maps | KErr e => KErr e end)
    [(0, 1); (0, 2); (1, 2)]%nat (KOk maps).

(** A block that is the checkpoint a map declares. *)
Definition declared_disk (m : infs_locator) (raw : list Z) : option (list Z) :=
  disk ← admitted_disk raw;
  if negb (sb_total_blocks disk =? total_blocks m) ||
     negb (bytes_eqb (sb_filesystem_uuid disk) (filesystem_uuid m)) then None
  else if forallb (fun c => sb_checkpoint_block disk c =? checkpoint m !!! c)
            (seq 0 INFS_CHECKPOINT_COUNT)
  then Some disk else None.

(** The inner loop: the checkpoints of one map. *)
Fixpoint probe_map (m : infs_locator) (js : list nat) (st : probing)
    : list (option (list Z)) * probing :=
  match js with
  | [] => ([], st)
  | j :: rest =>
      let '(raw, st) := probe_read (checkpoint m !!! j) st in
      let '(disks, st) := probe_map m rest st in
      ((raw ≫= declared_disk m) :: disks, st)
  end.

(** The outer loop: entry [3 * i + j] is checkpoint [j] of map [i]. *)
Fixpoint probe_maps (maps : list (option infs_locator)) (st : probing)
    : list (option (list Z)) * probing :=
  match maps with
  | [] => ([], st)
  | None :: rest =>
      let '(disks, st) := probe_maps rest st in (replicate INFS_CHECKPOINT_COUNT None ++ disks, st)
  | Some m :: rest =>
      let '(own, st) := probe_map m (seq 0 INFS_CHECKPOINT_COUNT) st in
      let '(disks, st) := probe_maps rest st in (own ++ disks, st)
  end.

(** [count] after the loops: one past the last entry of the last map probed. *)
Fixpoint last_map (i : nat) (maps : list (option infs_locator)) (count : nat) : nat :=
  match maps with
  | [] => count
  | None :: rest => last_map (S i) rest count
  | Some _ :: rest => last_map (S i) rest (S i * INFS_CHECKPOINT_COUNT)%nat
  end.

Record infilfs_checkpoint_candidates := Candidates {
  disks : list (option (list Z)); first_read_error : option errno; count : nat
}.

(** The return value and the set; both callers drop the set on an error.  [kmalloc] is
    whether the temporary buffer is granted. *)
Definition infilfs_read_checkpoint_candidates (kmalloc rdonly : bool) (d : D)
    : kresult infilfs_checkpoint_candidates * D :=
  if device_blocks <? INFS_LOCATOR_MIN_VOLUME_BLOCKS then (KErr EFSCORRUPTED, d)
  else if negb kmalloc then (KErr ENOMEM, d)
  else
    let '(a, st) := probe_read INFS_LOCATOR_BLOCK_A (d, None) in
    let '(b, st) := probe_read INFS_LOCATOR_BLOCK_B st in
    let '(z, st) := probe_read 0 st in
    match reconcile_maps [a ≫= locator_map; b ≫= locator_map; z ≫= primary_disk_map] with
    | KErr e => (KErr e, st.1)
    | KOk maps =>
        let '(disks, st) := probe_maps maps st in
        let found := existsb (fun o => bool_decide (is_Some o)) disks in
        (match st.2 with
         | Some e => if negb rdonly || negb found then KErr e
                     else KOk (Candidates disks st.2 (last_map 0 maps 0))
         | None => if found then KOk (Candidates disks None (last_map 0 maps 0)) else KErr EFSCORRUPTED
         end, st.1)
    end.

End Mount.
End KernelMount.

(** * Facts *)

Module KernelMountFacts.
Import Objects ObjectsFacts Locator LocatorFacts DiscoveryFacts Kernel KernelFacts KernelMount.

Ltac case_if_new := let G := fresh "G" in case_if G.

(** ** Admission *)

Section Admission.
Context {E : Endian} {P : Platform}.

(** The portable core's validator, a library function, accepts what the driver's
    accepts; [utf8_valid_exact] says what that is. *)
Hypothesis validator_complete : forall s, infilfs_rw_utf8_valid s = true -> infs_utf8_validate s = true.

Lemma label_admitted_valid label :
  length label = 64%nat -> label_admitted label = true -> superblock_label_valid label = true.
Proof.
  intros Hl; unfold label_admitted, superblock_label_valid; destruct (memchr0 label) as [n |]; [| discriminate].
  rewrite andb_true_iff, memchr_inv_zero, bytes_are_zero_spec; intros [Hz Hu].
  rewrite (validator_complete _ Hu), andb_false_r; cbn [negb].
  apply forallb_forall; intros i Hi%in_seq; apply Z.eqb_eq; symmetry.
  rewrite List.Forall_forall in Hz; apply Hz.
  unfold INFS_LABEL_MAX in Hi; destruct (lookup_lt_is_Some_2 label i ltac:(lia)) as [x Hx].
  rewrite (list_lookup_total_correct _ _ _ Hx); apply list_elem_of_In, (list_elem_of_lookup_2 _ (i - n)).
  rewrite lookup_drop; replace (n + (i - n))%nat with i by lia; exact Hx.
Qed.

Lemma required_flags_weaker f :
  (f .& required_kernel_flags) = required_kernel_flags ->
  (f .& required_incompat_flags) = required_incompat_flags.
Proof.
  intros H; change required_incompat_flags with (required_kernel_flags .& required_incompat_flags) at 1.
  rewrite Z.land_assoc, H; reflexivity.
Qed.

Lemma existsb_false {A} (f : A -> bool) l x : existsb f l = false -> In x l -> f x = false.
Proof.
  intros Hf Hx; apply not_true_iff_false; intros Ht; revert Hf; apply not_false_iff_true, existsb_exists; eauto.
Qed.

(** The geometry the driver checks. *)
Definition geometry_ok (disk : list Z) (device_blocks : Z) : Prop :=
  sb_total_blocks disk <= device_blocks /\ sb_checkpoint_block disk 0 = 0 /\
  (forall j, (j < 3)%nat -> sb_checkpoint_block disk j < sb_total_blocks disk) /\
  (forall i j, (i < j < 3)%nat -> sb_checkpoint_block disk i <> sb_checkpoint_block disk j).

Lemma basic_valid_fields disk device_blocks :
  length disk = sb_size -> infilfs_checkpoint_basic_valid disk device_blocks = true ->
  superblock_fields_ok disk INFS_LOCATOR_FORMAT_MINOR = true /\ geometry_ok disk device_blocks.
Proof.
  intros Hl; unfold infilfs_checkpoint_basic_valid; cbv zeta; rewrite !memchr_inv_zero.
  do 6 (case_if_new; [discriminate |]).
  destruct (infilfs_allocation_counts _) as [[[[leaves ?] ?] ?] |]; [| discriminate].
  do 4 (case_if_new; [discriminate |]); intros Hlab.
  apply negb_false_iff in G, G3, G6, G7; apply Z.eqb_eq in G3, G7.
  apply orb_false_iff in G8 as [Gu Gr]; split.
  - unfold superblock_fields_ok, id_is_nonzero; rewrite G, G6, Gu, Gr, (required_flags_weaker _ G7), Z.eqb_refl.
    rewrite label_admitted_valid by (first [exact Hlab | apply length_slice; rewrite Hl; unfold sb_size; lia]).
    change INFS_LOCATOR_FORMAT_MINOR with INFS_FORMAT_MINOR.
    rewrite !orb_false_iff, !negb_false_iff in G0; destruct G0 as [[[[[-> ->] ->] ->] ->] ->]; reflexivity.
  - unfold geometry_ok; split_and!; trivial; [lia | |].
    + intros j Hj; apply (existsb_false _ _ j) in G2; [lia | apply in_seq; unfold INFS_CHECKPOINT_COUNT; lia].
    + intros i j Hij; apply (existsb_false _ _ i) in G4; [| apply in_seq; unfold INFS_CHECKPOINT_COUNT; lia].
      apply (existsb_false _ _ j) in G4; [lia | apply in_seq; unfold INFS_CHECKPOINT_COUNT; lia].
Qed.

Lemma slice_front off k raw : (off + k <= sb_checksum_off)%nat -> slice off k (header raw) = slice off k raw.
Proof. intros H; apply (agree_slice _ _ _ _ _ (front_agree raw)); lia. Qed.

(** What the driver admits, the portable core accepts. *)
Lemma admitted_header_valid raw device_blocks disk :
  length raw = INFS_BLOCK_SIZE -> admitted_disk device_blocks raw = Some disk ->
  header_valid raw /\ disk = header raw /\ geometry_ok disk device_blocks.
Proof.
  intros Hl; unfold admitted_disk; cbv zeta; case_if_new; [discriminate |]; case_if_new; [discriminate |].
  intros [= <-]; fold (header raw) in *; apply orb_false_iff in G as [Gs%negb_false_iff Gz%negb_false_iff].
  apply orb_false_iff in G0 as [Gb%negb_false_iff _].
  apply basic_valid_fields in Gb as [Hf Hg];
    [| apply length_slice; rewrite Hl; unfold sb_size, INFS_BLOCK_SIZE; lia].
  split_and!; trivial; unfold header_valid, infs_validate_superblock_block_minor; cbn [negb andb Z.eqb].
  rewrite <- (superblock_fields_agree (header raw) raw) by apply front_agree; rewrite Hf.
  rewrite block_valid_seal in Gs by (trivial; unfold sb_checksum_off, INFS_BLOCK_SIZE; lia); rewrite Gs.
  unfold zero_from; rewrite <- memchr_inv_zero, Gz; reflexivity.
Qed.

(** The maps the driver uses are maps the portable core uses. *)
Lemma locator_map_same device_blocks raw :
  length raw = INFS_BLOCK_SIZE -> bytes_ok raw -> locator_map device_blocks raw = locator_of device_blocks raw.
Proof.
  intros Hl Hb; unfold locator_map, locator_of; rewrite decode_same by assumption.
  destruct (infs_locator_decode _ _); reflexivity.
Qed.

Lemma geometry_fields_valid disk device_blocks :
  id_is_nonzero (sb_filesystem_uuid disk) = true -> sb_generation disk <> 0 ->
  INFS_LOCATOR_MIN_VOLUME_BLOCKS <= sb_total_blocks disk -> geometry_ok disk device_blocks ->
  (forall j, (j < 3)%nat -> sb_checkpoint_block disk j <> INFS_LOCATOR_BLOCK_A /\
                            sb_checkpoint_block disk j <> INFS_LOCATOR_BLOCK_B) ->
  locator_fields_valid (primary_map disk) = true.
Proof.
  intros Hu Hg Ht (_ & H0 & Hlt & Hne) Hab; unfold locator_fields_valid, primary_map; cbn [generation total_blocks].
  change (checkpoint _ !!! 0%nat) with (sb_checkpoint_block disk 0); cbn [filesystem_uuid].
  unfold id_is_nonzero, bytes_are_zero in Hu; fold (all_zero (sb_filesystem_uuid disk)) in Hu.
  apply negb_true_iff in Hu; rewrite Hu, H0, (proj2 (Z.eqb_neq _ _) Hg), (proj2 (Z.ltb_ge _ _) Ht); cbn [orb negb Z.eqb].
  pose proof (Hlt 0%nat); pose proof (Hlt 1%nat); pose proof (Hlt 2%nat).
  pose proof (Hab 0%nat); pose proof (Hab 1%nat); pose proof (Hab 2%nat).
  pose proof (Hne 0 1)%nat; pose proof (Hne 0 2)%nat; pose proof (Hne 1 2)%nat.
  cbn; rewrite !Z.geb_leb; lia.
Qed.

Lemma header_valid_fields raw :
  header_valid raw ->
  id_is_nonzero (sb_filesystem_uuid (header raw)) = true /\ sb_generation (header raw) <> 0.
Proof.
  unfold header_valid, infs_validate_superblock_block_minor; case_if_new; [discriminate |]; intros H.
  rewrite <- (superblock_fields_agree (header raw) raw) in H by apply front_agree.
  unfold superblock_fields_ok in H; split_ands; to_prop; auto.
Qed.

Lemma primary_disk_map_same device_blocks raw m :
  length raw = INFS_BLOCK_SIZE -> primary_disk_map device_blocks raw = Some m ->
  primary_of_block device_blocks raw = Some m.
Proof.
  intros Hl; unfold primary_disk_map; destruct (admitted_disk _ raw) as [disk |] eqn:Ea; [| discriminate].
  destruct (admitted_header_valid _ _ _ Hl Ea) as (Hv & -> & Hg); cbn [mbind option_bind]; cbv zeta.
  fold (primary_map (header raw)); case_if_new; [discriminate |]; case_if_new; [discriminate |]; intros [= <-].
  destruct (header_valid_fields raw Hv) as [Hu Hgen].
  unfold primary_of_block; rewrite Hv; fold (header raw); cbv zeta.
  assert (Hf : locator_fields_valid (primary_map (header raw)) = true).
  { apply (geometry_fields_valid _ device_blocks); trivial; [to_prop; assumption |]; intros j Hj.
    apply (existsb_false _ _ (sb_checkpoint_block (header raw) j)) in G0;
      [lia | apply in_map, in_seq; unfold INFS_CHECKPOINT_COUNT; lia]. }
  rewrite Hf; destruct Hg as [Ht _]; cbn [andb primary_map total_blocks]; rewrite (proj2 (Z.leb_le _ _) Ht); reflexivity.
Qed.

(** A checkpoint the driver takes from a map belongs to that map. *)
Lemma declared_belongs device_blocks m raw disk :
  length raw = INFS_BLOCK_SIZE -> declared_disk device_blocks m raw = Some disk ->
  belongs m raw /\ disk = header raw.
Proof.
  intros Hl; unfold declared_disk; destruct (admitted_disk _ raw) as [d |] eqn:Ea; [| discriminate].
  destruct (admitted_header_valid _ _ _ Hl Ea) as (Hv & -> & _); cbn [mbind option_bind].
  case_if_new; [discriminate |]; case_if_new; [| discriminate]; intros [= <-]; split; [| reflexivity].
  rewrite orb_false_iff, !negb_false_iff, Z.eqb_eq, bytes_eqb_eq in G; destruct G as [Ht Hu].
  unfold belongs; split_and!; trivial; intros j Hj; rewrite forallb_forall in G0; apply Z.eqb_eq, G0, in_seq.
  unfold INFS_CHECKPOINT_COUNT; lia.
Qed.

End Admission.
(** ** Discovery *)

Section Sound.
Context {E : Endian} {P : Platform} {D : Type} (sb_bread : D -> Z -> option (list Z) * D).
Context (media : D -> list Z) (img : list Z) (device_blocks : Z).

Hypothesis validator_complete : forall s, infilfs_rw_utf8_valid s = true -> infs_utf8_validate s = true.

(** A read that succeeds returns the block of the medium; no read changes it. *)
Hypothesis bread_law : forall d b r d', sb_bread d b = (r, d') ->
  media d' = media d /\ forall raw, r = Some raw -> raw = blk (media d) b /\ length raw = INFS_BLOCK_SIZE.

Hypothesis img_ok : bytes_ok img.

Lemma probe_read_sound b st raw st' :
  media st.1 = img -> probe_read sb_bread device_blocks b st = (raw, st') ->
  media st'.1 = img /\ forall r, raw = Some r -> r = blk img b /\ length r = INFS_BLOCK_SIZE /\ bytes_ok r.
Proof.
  intros <-; unfold probe_read, infilfs_read_block; case_if_new.
  { intros [= <- <-]; split; [reflexivity | discriminate]. }
  destruct (sb_bread st.1 b) as [o d'] eqn:Eb; destruct (bread_law _ _ _ _ Eb) as [Hm Hr].
  destruct o as [data |]; intros [= <- <-]; (split; [exact Hm |]); [| discriminate].
  intros r [= <-]; destruct (Hr data eq_refl) as [-> Hl]; split_and!; trivial; unfold blk; auto with infs.
Qed.

(** Every structure found in a map is a reachable superblock of the medium. *)
Definition found_in (disks : list (option (list Z))) (m : infs_locator) : Prop :=
  forall disk, In (Some disk) disks -> exists j, (j < 3)%nat /\
    belongs m (blk img (checkpoint m !!! j)) /\ disk = header (blk img (checkpoint m !!! j)).

Lemma probe_map_sound m js st disks st' :
  Forall (fun j => (j < 3)%nat) js -> media st.1 = img ->
  probe_map sb_bread device_blocks m js st = (disks, st') -> media st'.1 = img /\ found_in disks m.
Proof.
  intros Hj; revert st disks st'; induction Hj as [| j js Hj _ IH]; intros st disks st' Hm; cbn [probe_map].
  { intros [= <- <-]; split; [exact Hm | intros ? []]. }
  destruct (probe_read _ _ _ _) as [raw st1] eqn:Er, (probe_map _ _ m js st1) as [ds st2] eqn:Ep.
  destruct (probe_read_sound _ _ _ _ Hm Er) as [Hm1 Hr], (IH _ _ _ Hm1 Ep) as [Hm2 Hf].
  intros [<- <-]%pair_equal_spec; split; [exact Hm2 |]; intros disk [Hd | Hd]; [| exact (Hf disk Hd)].
  apply bind_Some in Hd as (r & Hraw & Hd); destruct (Hr r Hraw) as (Heq & Hl & _).
  destruct (declared_belongs validator_complete _ _ _ _ Hl Hd) as [Hb Hdisk].
  exists j; rewrite <- Heq; split_and!; assumption.
Qed.

Lemma probe_maps_sound maps st disks st' :
  media st.1 = img -> probe_maps sb_bread device_blocks maps st = (disks, st') ->
  media st'.1 = img /\ forall disk, In (Some disk) disks -> exists m, In (Some m) maps /\
    exists j, (j < 3)%nat /\ belongs m (blk img (checkpoint m !!! j)) /\
      disk = header (blk img (checkpoint m !!! j)).
Proof.
  revert st disks st'; induction maps as [| [m |] maps IH]; intros st disks st' Hm; cbn [probe_maps].
  { intros [= <- <-]; split; [exact Hm | intros ? []]. }
  - destruct (probe_map _ _ m _ st) as [own st1] eqn:Ep, (probe_maps _ _ maps st1) as [ds st2] eqn:Es.
    apply probe_map_sound in Ep as [Hm1 Hf]; [| repeat constructor | exact Hm].
    destruct (IH _ _ _ Hm1 Es) as [Hm2 Hin]; intros [= <- <-]; split; [exact Hm2 |].
    intros disk [Hd | Hd]%in_app_iff.
    + exists m; split; [left; reflexivity | apply Hf, Hd].
    + destruct (Hin disk Hd) as (m' & Hm' & Hrest); exists m'; split; [right; exact Hm' | exact Hrest].
  - destruct (probe_maps _ _ maps st) as [ds st2] eqn:Es.
    destruct (IH _ _ _ Hm Es) as [Hm2 Hin]; intros [= <- <-]; split; [exact Hm2 |].
    intros disk [[=] | [[=] | [[=] | Hd]]].
    destruct (Hin disk Hd) as (m' & Hm' & Hrest); exists m'; split; [right; exact Hm' | exact Hrest].
Qed.

(** Reconciling keeps the locators and perhaps block zero's map, and lets only maps
    of one filesystem pass. *)
Definition agree_on (a b : option infs_locator) : Prop :=
  forall m m', a = Some m -> b = Some m' -> filesystem_uuid m = filesystem_uuid m'.

Lemma compare_maps_sound i j maps maps' :
  compare_maps i j maps = KOk maps' ->
  agree_on (nth i maps None) (nth j maps None) /\ (maps' = maps \/ j = 2%nat /\ maps' = <[2%nat := None]> maps /\ is_Some (nth i maps None)).
Proof.
  unfold compare_maps, agree_on; destruct (nth i maps None) as [a |], (nth j maps None) as [b |];
    try (intros [= <-]; split; [discriminate | auto]; fail).
  case_if_new; [discriminate |]; apply negb_false_iff, bytes_eqb_eq in G.
  case_if_new; intros [= <-]; (split; [congruence |]); [right | left; reflexivity].
  to_prop; subst; eauto.
Qed.

Lemma agree_on_all a b z :
  agree_on a b -> agree_on a z -> agree_on b z \/ is_Some a -> exists u, same_filesystem a b z u.
Proof.
  intros Hab Haz Hbz; unfold same_filesystem, present.
  destruct a as [a |]; [exists (filesystem_uuid a); intros m [Hm | [Hm | Hm]]; [congruence | symmetry; eauto..] |].
  destruct Hbz as [Hbz | [? [=]]].
  destruct b as [b |]; [exists (filesystem_uuid b); intros m [Hm | [Hm | Hm]]; [congruence.. | symmetry; eauto] |].
  exists (match z with Some z => filesystem_uuid z | None => [] end).
  intros m [Hm | [Hm | ->]]; congruence.
Qed.

Lemma reconcile_sound a b z maps :
  reconcile_maps [a; b; z] = KOk maps ->
  (forall m, In (Some m) maps -> present a b z m) /\ exists u, same_filesystem a b z u.
Proof.
  unfold reconcile_maps; cbn [fold_left].
  destruct (compare_maps 0 1 _) as [m1 |] eqn:E1; [| discriminate].
  destruct (compare_maps 0 2 m1) as [m2 |] eqn:E2; [| discriminate]; intros E3.
  apply compare_maps_sound in E1 as [H1 [-> | [[=] _]]]; cbn [nth] in H1.
  apply compare_maps_sound in E2 as [H2 Hm2], E3 as [H3 Hm3]; cbn [nth] in H2, Hm2.
  destruct Hm2 as [-> | (_ & -> & Ha)], Hm3 as [-> | (_ & -> & _)]; cbn [nth insert list_insert] in H3;
    (split; [intros m Hm; cbn in Hm; unfold present; intuition congruence | apply agree_on_all; auto]).
Qed.

(** The maps the driver reads survive for the portable core. *)
Lemma kernel_map_survives ra rb rz m :
  (forall r, ra = Some r -> r = blk img INFS_LOCATOR_BLOCK_A /\ length r = INFS_BLOCK_SIZE /\ bytes_ok r) ->
  (forall r, rb = Some r -> r = blk img INFS_LOCATOR_BLOCK_B /\ length r = INFS_BLOCK_SIZE /\ bytes_ok r) ->
  (forall r, rz = Some r -> r = blk img 0 /\ length r = INFS_BLOCK_SIZE /\ bytes_ok r) ->
  present (ra ≫= locator_map device_blocks) (rb ≫= locator_map device_blocks)
    (rz ≫= primary_disk_map device_blocks) m ->
  survives img device_blocks m.
Proof.
  intros Ha Hb Hz; unfold survives; intros [Hm | [Hm | Hm]]; [left | right; left | right; right].
  - destruct ra as [r |]; [| discriminate]; destruct (Ha r eq_refl) as (<- & Hl & Hok).
    rewrite <- (locator_map_same device_blocks r Hl Hok); exact Hm.
  - destruct rb as [r |]; [| discriminate]; destruct (Hb r eq_refl) as (<- & Hl & Hok).
    rewrite <- (locator_map_same device_blocks r Hl Hok); exact Hm.
  - destruct rz as [r |]; [| discriminate]; destruct (Hz r eq_refl) as (<- & Hl & _); cbn [mbind option_bind] in Hm.
    exact (primary_disk_map_same validator_complete device_blocks r m Hl Hm).
Qed.

(** The driver reports success only with a structure in the set. *)
Lemma verdict_found rdonly (first : option errno) ds n set :
  match first with
  | Some e => if negb rdonly || negb (existsb (fun o => bool_decide (is_Some o)) ds) then KErr e
              else KOk (Candidates ds first n)
  | None => if existsb (fun o => bool_decide (is_Some o)) ds then KOk (Candidates ds None n)
            else KErr EFSCORRUPTED
  end = KOk set ->
  disks set = ds /\ exists disk, In (Some disk) ds.
Proof.
  destruct (existsb _ ds) eqn:Ef; [| destruct first, rdonly; discriminate].
  apply existsb_exists in Ef as ([disk |] & Hin & Hs); [| discriminate].
  destruct first, rdonly; intros [= <-]; cbn [disks]; eauto.
Qed.

(** C37.  Whatever the block device's reads and the request for memory do, the
    checkpoints the driver collects are superblocks the portable core accepts and can
    reach on the same medium, all of one filesystem, and there is at least one. *)
Theorem kernel_candidates_reachable kmalloc rdonly d set d' :
  media d = img ->
  infilfs_read_checkpoint_candidates sb_bread device_blocks kmalloc rdonly d = (KOk set, d') ->
  media d' = img /\ (exists disk, In (Some disk) (disks set)) /\
  exists u, forall disk, In (Some disk) (disks set) ->
    sb_filesystem_uuid disk = u /\ exists raw, reachable img device_blocks raw /\ disk = header raw.
Proof.
  intros Hm; unfold infilfs_read_checkpoint_candidates; case_if_new; [discriminate |]; destruct kmalloc; [| discriminate]; cbn [negb].
  destruct (probe_read _ _ INFS_LOCATOR_BLOCK_A _) as [ra st1] eqn:E1.
  destruct (probe_read _ _ INFS_LOCATOR_BLOCK_B _) as [rb st2] eqn:E2.
  destruct (probe_read _ _ 0 _) as [rz st3] eqn:E3.
  apply probe_read_sound in E1 as [Hm1 Ha]; [| exact Hm]; apply probe_read_sound in E2 as [Hm2 Hb]; [| exact Hm1].
  apply probe_read_sound in E3 as [Hm3 Hz]; [| exact Hm2].
  destruct (reconcile_maps _) as [maps |] eqn:Er; [| discriminate].
  apply reconcile_sound in Er as [Hin [u Hu]].
  destruct (probe_maps _ _ maps st3) as [ds st4] eqn:Ep.
  apply probe_maps_sound in Ep as [Hm4 Hf]; [| exact Hm3].
  intros [Hv <-]%pair_equal_spec; apply verdict_found in Hv as [-> Hex].
  split_and!; [exact Hm4 | exact Hex | exists u]; intros disk Hd.
  destruct (Hf disk Hd) as (m & Hm' & j & Hj & Hbel & ->); apply Hin in Hm'; split.
  - rewrite <- (Hu m Hm'); apply Hbel.
  - eexists; split; [| reflexivity]; exists m, j; split_and!; trivial.
    exact (kernel_map_survives _ _ _ _ Ha Hb Hz Hm').
Qed.

End Sound.
(** The sample volume behind a block device that never fails. *)
Section Samples.
#[local] Existing Instance reference_endian.

(** A library whose validator is the exact one. *)
#[local] Instance utf8_platform : Platform :=
  {| infs_utf8_validate := infilfs_rw_utf8_valid; accelerated_sha256 := fun _ => None |}.

Definition sample_bread (_ : unit) (b : Z) : option (list Z) * unit :=
  (if (0 <=? b) && (b <? 4096) then
     Some (if b =? 0 then sample_primary else if b =? 1 then sample_map else replicate INFS_BLOCK_SIZE 0)
   else None, tt).

Lemma sample_bread_law d b r d' :
  sample_bread d b = (r, d') ->
  sample_image = sample_image /\
  forall raw, r = Some raw -> raw = blk sample_image b /\ length raw = INFS_BLOCK_SIZE.
Proof.
  unfold sample_bread; intros [<- _]%pair_equal_spec; split; [reflexivity |]; intros raw.
  case_if_new; [| discriminate]; to_prop; case_if_new; [| case_if_new]; to_prop; intros <-%(inj Some); try subst b.
  - rewrite sample_blk_0; split; reflexivity.
  - rewrite sample_blk_1; split; reflexivity.
  - rewrite sample_blk by lia; split; [reflexivity | apply length_replicate].
Qed.

Lemma kernel_candidates_reachable_witness :
  exists set, infilfs_read_checkpoint_candidates sample_bread 4096 true false tt = (KOk set, tt) /\
    (exists disk, In (Some disk) (disks set)) /\
    exists u, forall disk, In (Some disk) (disks set) ->
      sb_filesystem_uuid disk = u /\ exists raw, reachable sample_image 4096 raw /\ disk = header raw.
Proof.
  assert (He : exists set, infilfs_read_checkpoint_candidates sample_bread 4096 true false tt = (KOk set, tt))
    by (eexists; vm_compute; reflexivity).
  destruct He as [set He]; exists set; split; [exact He |].
  exact (proj2 (kernel_candidates_reachable sample_bread (fun _ => sample_image) sample_image 4096
    (fun _ H => H) sample_bread_law (proj1 sample_image_ok) true false tt set tt eq_refl He)).
Defined.

End Samples.
End KernelMountFacts.
