(* ===== verification/Checkpoint.v ===== *)
(** Publication of a checkpoint: the ordering protocol shared by the portable core
    and the Linux driver ([src/include/infilfs/checkpoint_protocol.h]), the driver's
    callbacks and its repair of checkpoint copies
    ([src/kernel/infiltratorfs_checkpoint_publish.c]).

    The block layer is an interface: what it has made durable, what it has
    accepted but not flushed, and the laws its operations obey.  A status is an
    optional error; [None] is zero. *)

From Stdlib Require Import ZifyBool.
From stdpp Require Import prelude.
From S2P Require Import Prelude Endian Checksum Format Security Storage Objects Locator Discovery Kernel KernelMount.
#[local] Open Scope Z_scope.

(** * Definitions *)

Module Checkpoint.
Import Objects Locator Kernel KernelMount.

(** ** The protocol *)

Section Protocol.
Context {S Err : Type}.

(** A callback: its status and what it leaves of the context. *)
Definition action (T : Type) : Type := T -> option Err * T.

Record infs_checkpoint_io := Io {
  io_locator : Z -> action S;
  io_checkpoint : Z -> action S;
  io_flush : action S;
  io_committed : option (S -> S)
}.

Definition skip {T} : action T := fun s => (None, s).

(** [status = a; if (status) return status; b]. *)
Definition and_then {T} (a b : action T) : action T := fun s =>
  match a s with
  | (Some e, s) => (Some e, s)
  | (None, s) => b s
  end.

(** A callback beside the flag [*committed]. *)
Definition beside (a : action S) : action (bool * S) := fun s =>
  let '(r, c) := a s.2 in (r, (s.1, c)).

(** [*committed = 1; if (io->committed) io->committed (context)]. *)
Definition note_committed (io : infs_checkpoint_io) : action (bool * S) := fun s =>
  (None, (true, match io_committed io with Some f => f s.2 | None => s.2 end)).

(** One turn of the loop over the copies. *)
Definition publish_copy (io : infs_checkpoint_io) (first n : Z) : action (bool * S) :=
  and_then (beside (io_checkpoint io (u32 (first + n) mod 3)))
  (and_then (beside (io_flush io))
            (if n =? 0 then note_committed io else skip)).

Definition publish_locator_copy (io : infs_checkpoint_io) (copy : Z) : action (bool * S) :=
  and_then (beside (io_locator io copy)) (beside (io_flush io)).

(** The status, [*committed] and the context. *)
Definition infs_checkpoint_publish (io : infs_checkpoint_io) (first : Z) (relocate : bool) (context : S)
    : option Err * (bool * S) :=
  let first := if relocate then 1 else first in
  and_then (if relocate then publish_locator_copy io 0 else skip)
  (and_then (publish_copy io first 0)
  (and_then (publish_copy io first 1)
  (and_then (publish_copy io first 2)
            (if relocate then publish_locator_copy io 1 else skip)))) (false, context).

End Protocol.
#[global] Arguments infs_checkpoint_io : clear implicits.
#[global] Arguments action : clear implicits.

(** ** The block layer *)

(** What [sb_getblk] and the synchronous write of the buffer did. *)
Inductive write_outcome := NoBuffer | WriteError | Written.

Class BlockLayer (D : Type) := {
  kmalloc : D -> bool * D;
  sb_bread : D -> Z -> option (list Z) * D;
  write_buffer : D -> Z -> list Z -> write_outcome * D;
  blkdev_issue_flush : D -> option errno * D;
  durable : D -> list Z;
  pending : D -> list (Z * list Z)
}.

(** Writing block [b] of an image. *)
Definition put_block (img : list Z) (w : Z * list Z) : list Z :=
  splice (Z.to_nat (w.1 * block_size)) w.2 img.

Definition apply_writes (ws : list (Z * list Z)) (img : list Z) : list Z := fold_left put_block ws img.

(** ** The driver *)

Section Driver.
Context {E : Endian} {D : Type} {B : BlockLayer D} (device_blocks : Z).

Definition infilfs_checkpoint_write_sync (block : Z) (data : list Z) : action errno D := fun d =>
  if block >=? device_blocks then (Some EIO, d)
  else match write_buffer d block data with
       | (NoBuffer, d) => (Some ENOMEM, d)
       | (WriteError, d) => (Some EIO, d)
       | (Written, d) => (None, d)
       end.

Definition infilfs_publish_flush : action errno D := blkdev_issue_flush.

(** [disk] is the structure, [encoded] its block. *)
Definition infilfs_publish_checkpoint (disk encoded : list Z) (copy : Z) : action errno D :=
  infilfs_checkpoint_write_sync (sb_checkpoint_block disk (Z.to_nat copy)) encoded.

Definition infilfs_publish_locator (disk : list Z) (copy : Z) : action errno D := fun d =>
  let '(raw, d) := kmalloc d in
  if negb raw then (Some ENOMEM, d)
  else
    let locator := Loc (sb_generation disk) (sb_total_blocks disk)
                     (map (sb_checkpoint_block disk) (seq 0 INFS_CHECKPOINT_COUNT))
                     (sb_filesystem_uuid disk) in
    match infilfs_locator_encode_019 locator with
    | KErr e => (Some e, d)
    | KOk raw => infilfs_checkpoint_write_sync
                   (if copy =? 0 then INFS_LOCATOR_BLOCK_A else INFS_LOCATOR_BLOCK_B) raw d
    end.

Definition infilfs_publication_io (disk encoded : list Z) : infs_checkpoint_io D errno :=
  Io (infilfs_publish_locator disk) (infilfs_publish_checkpoint disk encoded) infilfs_publish_flush None.

Definition infilfs_checkpoint_publish (disk encoded : list Z) (first : Z) (relocate : bool) (d : D)
    : option errno * (bool * D) :=
  infs_checkpoint_publish (infilfs_publication_io disk encoded) first relocate d.

(** The status of a commit: an error after the first copy is only noted. *)
Definition infilfs_rw_write_checkpoint_replicas_sync (disk data : list Z) (first : Z) (d : D)
    : option errno * option errno * D :=
  let '(ret, (committed, d)) := infilfs_checkpoint_publish disk data first false d in
  (if committed then None else ret, if committed then ret else None, d).

Definition infilfs_rw_store_crc (block : list Z) (checksum_offset checksum_size : nat) : list Z :=
  let block := splice checksum_offset (replicate checksum_size 0) block in
  splice checksum_offset (store_le64 (infilfs_rw_crc64 block)) block.

Definition infilfs_rw_encode_superblock (disk : list Z) : list Z :=
  infilfs_rw_store_crc (splice 0 (take sb_size disk) (replicate INFS_BLOCK_SIZE 0)) sb_checksum_off 32.

(** ** Repair *)

(** One copy: kept when it already has the block, else rewritten and flushed. *)
Definition heal_copy (disk encoded : list Z) (i : nat) : action errno D := fun d =>
  match infilfs_read_block sb_bread device_blocks (sb_checkpoint_block disk i) d with
  | (KErr e, d) => (Some e, d)
  | (KOk raw, d) =>
      if bytes_eqb raw encoded then (None, d)
      else and_then (infilfs_publish_checkpoint disk encoded (Z.of_nat i)) infilfs_publish_flush d
  end.

Definition locator_matches (disk raw : list Z) : bool :=
  match infilfs_locator_decode_019 raw device_blocks with
  | KErr _ => false
  | KOk loc => (total_blocks loc =? sb_total_blocks disk) && (generation loc <=? sb_generation disk) &&
               bytes_eqb (filesystem_uuid loc) (sb_filesystem_uuid disk) &&
               forallb (fun c => checkpoint loc !!! c =? sb_checkpoint_block disk c)
                 (seq 0 INFS_CHECKPOINT_COUNT)
  end.

Definition heal_locator (disk : list Z) (i : Z) : action errno D := fun d =>
  match infilfs_read_block sb_bread device_blocks
          (if i =? 0 then INFS_LOCATOR_BLOCK_A else INFS_LOCATOR_BLOCK_B) d with
  | (KErr e, d) => (Some e, d)
  | (KOk raw, d) => if locator_matches disk raw then (None, d)
                    else and_then (infilfs_publish_locator disk i) infilfs_publish_flush d
  end.

(** The flags of [sbi] the repair sets. *)
Record repair_flags := Flags { write_poisoned : bool; checkpoint_repair_needed : bool }.

Definition infilfs_checkpoint_heal (rdonly promoting : bool) (disk : list Z) (flags : repair_flags) (d : D)
    : option errno * repair_flags * D :=
  if rdonly && negb promoting then (None, flags, d)
  else
    let '(raw, d) := kmalloc d in
    if negb raw then (Some ENOMEM, flags, d)
    else
      let encoded := infilfs_rw_encode_superblock disk in
      let '(ret, d) :=
        and_then (heal_copy disk encoded 0)
        (and_then (heal_copy disk encoded 1)
        (and_then (heal_copy disk encoded 2)
                  (if sb_format_minor disk =? INFS_LOCATOR_FORMAT_MINOR
                   then and_then (heal_locator disk 0) (heal_locator disk 1) else skip))) d in
      (ret, match ret with
            | Some _ => Flags true true
            | None => Flags (write_poisoned flags) false
            end, d).

End Driver.
End Checkpoint.
