(* ===== verification/Crash.v ===== *)
(** Crash safety of checkpoint publication and repair ([Checkpoint.v]): after a
    power loss at any point, recovery ([Locator.v]) finds the old or the new
    superblock, and the new one once it is committed.

    A run that stops early is a run whose next operation fails, so the states left
    by all runs, for every behaviour of the block layer, are all the states a power
    loss can interrupt. *)

From Stdlib Require Import ZifyBool.
From stdpp Require Import prelude.
From S2P Require Import Prelude Endian Checksum Format Security Storage Objects Locator Discovery Kernel KernelMount Checkpoint.
#[local] Open Scope Z_scope.

Module CrashFacts.
Import Storage Objects ObjectsFacts Locator LocatorFacts DiscoveryFacts Kernel KernelFacts KernelMount KernelMountFacts Checkpoint.

(** ** What the block layer promises *)

Class BlockLaws (D : Type) {B : BlockLayer D} := {
  kmalloc_law (d : D) r d' : kmalloc d = (r, d') -> durable d' = durable d /\ pending d' = pending d;
  bread_law (d : D) b r d' : sb_bread d b = (r, d') ->
    durable d' = durable d /\ pending d' = pending d /\
    forall raw, r = Some raw -> raw = blk (apply_writes (pending d) (durable d)) b;
  write_law (d : D) b data o d' : write_buffer d b data = (o, d') ->
    durable d' = durable d /\
    pending d' = match o with NoBuffer => pending d | _ => pending d ++ [(b, data)] end;
  flush_law (d : D) r d' : blkdev_issue_flush d = (r, d') ->
    match r with
    | None => durable d' = apply_writes (pending d) (durable d) /\ pending d' = []
    | Some _ => durable d' = durable d /\ pending d' = pending d
    end
}.

(** ** Blocks of an image *)

(** [img] is a medium of [n] blocks. *)
Record medium (n : Z) (img : list Z) : Prop := {
  medium_ok : bytes_ok img;
  medium_len : length img = Z.to_nat (n * block_size);
  medium_min : INFS_LOCATOR_MIN_VOLUME_BLOCKS <= n;
  medium_max : n * block_size < 2 ^ 64
}.

(** A write of a whole block inside the medium. *)
Definition write_ok (n : Z) (w : Z * list Z) : Prop :=
  0 <= w.1 < n /\ length w.2 = INFS_BLOCK_SIZE /\ bytes_ok w.2.

Lemma put_block_medium n img w : medium n img -> write_ok n w -> medium n (put_block img w).
Proof.
  intros [Ho Hl Hmin Hmax] (Hb & Hd & Hk); split; trivial; unfold put_block; [auto with infs |].
  rewrite length_splice; trivial; rewrite Hd, Hl; unfold block_size, INFS_BLOCK_SIZE in *; lia.
Qed.

Lemma blk_put_eq n img w : medium n img -> write_ok n w -> blk (put_block img w) w.1 = w.2.
Proof.
  intros [Ho Hl _ _] (Hb & Hd & _); unfold blk, put_block; rewrite <- Hd; apply slice_splice_eq.
  rewrite Hd, Hl; unfold block_size, INFS_BLOCK_SIZE in *; lia.
Qed.

Lemma blk_put_ne n img w b :
  medium n img -> write_ok n w -> 0 <= b -> b <> w.1 -> blk (put_block img w) b = blk img b.
Proof.
  intros [Ho Hl _ _] (Hb & Hd & _) H0 Hne; unfold blk, put_block; apply slice_splice_ne;
    rewrite Hd, ?Hl; unfold block_size, INFS_BLOCK_SIZE in *; lia.
Qed.

Lemma apply_medium n ws img : medium n img -> Forall (write_ok n) ws -> medium n (apply_writes ws img).
Proof.
  intros Hm Hf; revert img Hm; induction Hf as [| w ws Hw _ IH]; intros img Hm; [exact Hm |].
  apply IH, put_block_medium; assumption.
Qed.

Lemma blk_apply_other n ws img b :
  medium n img -> Forall (write_ok n) ws -> 0 <= b -> ~ In b (map fst ws) ->
  blk (apply_writes ws img) b = blk img b.
Proof.
  intros Hm Hf H0; revert img Hm; induction Hf as [| w ws Hw _ IH]; intros img Hm Hb; [reflexivity |].
  cbn [map In] in Hb; apply Decidable.not_or in Hb as [Hne Hb]; cbn [apply_writes fold_left].
  etransitivity; [apply IH; [apply put_block_medium; assumption | exact Hb] |].
  eapply blk_put_ne; eauto.
Qed.

Lemma blk_apply_in n ws img b data :
  medium n img -> Forall (write_ok n) ws -> List.NoDup (map fst ws) -> In (b, data) ws ->
  blk (apply_writes ws img) b = data.
Proof.
  intros Hm Hf; revert img Hm; induction Hf as [| w ws Hw Hf IH]; intros img Hm Hn Hin; [contradiction |].
  apply NoDup_cons_iff in Hn as [Hnin Hn]; destruct Hin as [-> | Hin].
  - etransitivity; [eapply (blk_apply_other n ws); [apply put_block_medium; eassumption | exact Hf | apply Hw | exact Hnin] |].
    exact (blk_put_eq n img (b, data) Hm Hw).
  - apply IH; trivial; apply put_block_medium; assumption.
Qed.

(** ** Sequences of writes *)

Section Runs.
Context {E : Endian} {P : Platform} {D : Type} {B : BlockLayer D} {L : BlockLaws D}.

(** From a state with nothing pending, [k] of the writes [ws] were made durable and
    at most the next one is pending. *)
Definition progress (ws : list (Z * list Z)) (k : nat) (d d' : D) : Prop :=
  durable d' = apply_writes (take k ws) (durable d) /\
  (pending d' = [] \/ exists w, ws !! k = Some w /\ pending d' = [w]).

(** The action makes the writes [ws] in order, stops at the first failure, raises
    the flag only after [c] writes, and does so by the end if [sets]. *)
Definition runs (c : nat) (sets : bool) (ws : list (Z * list Z)) (a : action errno (bool * D)) : Prop :=
  forall s r s', pending s.2 = [] -> a s = (r, s') ->
  exists k, (k <= length ws)%nat /\ progress ws k s.2 s'.2 /\
    (r = None -> k = length ws /\ (sets = true -> s'.1 = true)) /\
    (s.1 = true -> s'.1 = true) /\ (s'.1 = true -> s.1 = true \/ (c <= k)%nat).

Lemma progress_done ws d d' : progress ws (length ws) d d' -> pending d' = [] /\ durable d' = apply_writes ws (durable d).
Proof.
  intros [Hd [Hp | (w & Hw & _)]]; [| rewrite lookup_ge_None_2 in Hw by reflexivity; discriminate].
  rewrite take_ge in Hd by reflexivity; auto.
Qed.

Lemma runs_skip c : runs c false [] skip.
Proof.
  intros s r s' Hp [= <- <-]; exists 0%nat; split_and!; [apply Nat.le_refl | split; auto | auto.. ].
  split; [reflexivity | discriminate].
Qed.

Lemma runs_and_then c c1 c2 b1 b2 ws1 ws2 a1 a2 :
  runs c1 b1 ws1 a1 -> runs c2 b2 ws2 a2 -> (c <= c1)%nat -> (c <= length ws1 + c2)%nat ->
  runs c (b1 || b2) (ws1 ++ ws2) (and_then a1 a2).
Proof.
  intros H1 H2 Hc1 Hc2 s r s' Hp; unfold and_then.
  destruct (a1 s) as [[e |] s1] eqn:E1; destruct (H1 _ _ _ Hp E1) as (k1 & Hk1 & Hp1 & Hr1 & Hm1 & Hf1).
  - intros [= <- <-]; exists k1; rewrite length_app; split_and!; [lia | | discriminate | exact Hm1 |].
    + destruct Hp1 as [Hd Hpd]; split; [rewrite take_app_le by lia; exact Hd |].
      destruct Hpd as [Hpd | (w & Hw & Hpd)]; [left; exact Hpd | right; exists w; split; [| exact Hpd]].
      apply lookup_app_l_Some, Hw.
    + intros Hs'; destruct (Hf1 Hs'); [left; assumption | right; lia].
  - destruct (Hr1 eq_refl) as [-> Hs1]; destruct (progress_done _ _ _ Hp1) as [Hpd Hdu]; intros E2.
    destruct (H2 _ _ _ Hpd E2) as (k2 & Hk2 & Hp2 & Hr2 & Hm2 & Hf2).
    exists (length ws1 + k2)%nat; rewrite length_app; split_and!; [lia | | | auto |].
    + destruct Hp2 as [Hd Hpd2]; split; [| rewrite lookup_app_r by lia; rewrite Nat.add_comm, Nat.add_sub; exact Hpd2].
      rewrite Hd, Hdu, take_app_add; symmetry; apply fold_left_app.
    + intros Hr; destruct (Hr2 Hr) as [-> Hs2]; split; [reflexivity |].
      rewrite orb_true_iff; intros [Hb | Hb]; auto.
    + intros Hs'; destruct (Hf2 Hs') as [Hs | Hs]; [destruct (Hf1 Hs); [left; assumption | right; lia] | right; lia].
Qed.

(** A write followed by a flush. *)
Definition writes (w : Z * list Z) (a : action errno D) : Prop :=
  forall d r d', pending d = [] -> a d = (r, d') ->
  durable d' = durable d /\
  match r with None => pending d' = [w] | Some _ => pending d' = [] \/ pending d' = [w] end.

Lemma runs_write c w a :
  writes w a -> runs c false [w] (and_then (beside a) (beside infilfs_publish_flush)).
Proof.
  intros Hw [f d] r s' Hp; unfold and_then, beside; cbn [fst snd] in *.
  destruct (a d) as [[e |] d1] eqn:Ea; destruct (Hw _ _ _ Hp Ea) as [Hd Hpd].
  - intros [= <- <-]; exists 0%nat; split_and!; cbn; [lia | | discriminate | auto..].
    split; [exact Hd | destruct Hpd as [Hpd | Hpd]; eauto].
  - unfold infilfs_publish_flush; cbn [fst snd]; destruct (blkdev_issue_flush d1) as [r2 d2] eqn:Ef; apply flush_law in Ef.
    destruct r2 as [e |]; destruct Ef as [Hd2 Hp2]; intros [= <- <-].
    + exists 0%nat; split_and!; cbn; [lia | | discriminate | auto..].
      split; [rewrite Hd2, Hd; reflexivity | right; exists w; split; [reflexivity | congruence]].
    + exists 1%nat; split_and!; cbn; [lia | | split; [reflexivity | discriminate] | auto..].
      split; [rewrite Hd2, Hpd, Hd; reflexivity | left; exact Hp2].
Qed.

(** ** The driver's writes *)

Context (n : Z).

Lemma write_sync_writes b data : writes (b, data) (infilfs_checkpoint_write_sync n b data).
Proof.
  intros d r d' Hp; unfold infilfs_checkpoint_write_sync; case_if_new.
  { intros [= <- <-]; auto. }
  destruct (write_buffer d b data) as [o d1] eqn:Ew; apply write_law in Ew as [Hd Hpd]; rewrite Hp in Hpd.
  destruct o; intros [= <- <-]; auto.
Qed.

(** The locator block of a superblock. *)
Definition locator_block (disk : list Z) : list Z :=
  with_crc (primary_map disk) (put_u64 (locator_crc (primary_map disk))).

Lemma publish_locator_writes disk copy :
  length (sb_filesystem_uuid disk) = 16%nat -> locator_fields_valid (primary_map disk) = true ->
  writes (if copy =? 0 then INFS_LOCATOR_BLOCK_A else INFS_LOCATOR_BLOCK_B, locator_block disk)
         (infilfs_publish_locator n disk copy).
Proof.
  intros Hu Hv d r d' Hp; unfold infilfs_publish_locator.
  destruct (kmalloc d) as [ok d1] eqn:Ek; apply kmalloc_law in Ek as [Hd1 Hp1].
  case_if_new; [intros [= <- <-]; rewrite Hp1; auto |].
  fold (primary_map disk); rewrite encode_same, encode_shape, Hv by exact Hu; cbn [as_kernel].
  intros Hw; apply (write_sync_writes _ (locator_block disk)) in Hw; [| congruence].
  rewrite <- Hd1; exact Hw.
Qed.

Lemma runs_then_flush c w a b2 a2 :
  writes w a -> runs 0 b2 [] a2 -> (c <= 1)%nat ->
  runs c b2 [w] (and_then (beside a) (and_then (beside infilfs_publish_flush) a2)).
Proof.
  intros Hw H2 Hc s r s' Hp He.
  apply (runs_and_then c 1 0 false b2 [w] [] _ _ (runs_write 1 w a Hw) H2 Hc Hc s r s' Hp).
  revert He; unfold and_then; destruct (beside a s) as [[e |] s1]; trivial.
Qed.

Lemma runs_note_committed disk encoded :
  runs 0 true [] (note_committed (infilfs_publication_io n disk encoded)).
Proof.
  intros s r s' Hp [= <- <-]; exists 0%nat; split_and!; cbn; [lia | | auto..].
  split; [reflexivity | left; exact Hp].
Qed.

Lemma publish_copy_runs disk encoded first i k :
  u32 (first + i) mod 3 = Z.of_nat k ->
  runs 1 (i =? 0) [(sb_checkpoint_block disk k, encoded)]
    (publish_copy (infilfs_publication_io n disk encoded) first i).
Proof.
  intros Hk; unfold publish_copy, infilfs_publication_io; cbn [io_checkpoint io_flush]; rewrite Hk.
  unfold infilfs_publish_checkpoint; rewrite Nat2Z.id.
  apply runs_then_flush; [apply write_sync_writes | | lia].
  destruct (i =? 0); [apply runs_note_committed | apply runs_skip].
Qed.

(** The order of the copies. *)
Definition turn (first : Z) (i : Z) : nat := Z.to_nat (u32 (first + i) mod 3).

Definition copy_writes (first : Z) (new : list Z) : list (Z * list Z) :=
  map (fun i => (sb_checkpoint_block (header new) (turn first i), new)) [0; 1; 2].

Definition publication_writes (first : Z) (relocate : bool) (new : list Z) : list (Z * list Z) :=
  if relocate then
    (INFS_LOCATOR_BLOCK_A, locator_block (header new)) :: copy_writes 1 new ++
    [(INFS_LOCATOR_BLOCK_B, locator_block (header new))]
  else copy_writes first new.

Lemma turn_eq first i : u32 (first + i) mod 3 = Z.of_nat (turn first i).
Proof. unfold turn; rewrite Z2Nat.id; [reflexivity |]; apply Z.mod_pos_bound; lia. Qed.

Lemma copies_run first new c2 b2 ws2 a2 :
  runs c2 b2 ws2 a2 ->
  runs 1 true (copy_writes first new ++ ws2)
    (let io := infilfs_publication_io n (header new) new in
     and_then (publish_copy io first 0) (and_then (publish_copy io first 1)
       (and_then (publish_copy io first 2) a2))).
Proof.
  intros Ha; cbv zeta; pose proof (fun i => publish_copy_runs (header new) new first i _ (turn_eq first i)) as Hc.
  refine (runs_and_then 1 1 0 true _ [_] _ _ _ (Hc 0) _ _ _); [| cbn; lia..].
  refine (runs_and_then 0 1 0 false _ [_] _ _ _ (Hc 1) _ _ _); [| cbn; lia..].
  refine (runs_and_then 0 1 c2 false b2 [_] _ _ _ (Hc 2) Ha _ _); cbn; lia.
Qed.

(** The whole publication. *)
Lemma publication_runs first relocate new :
  (relocate = true -> length (sb_filesystem_uuid (header new)) = 16%nat /\
                      locator_fields_valid (primary_map (header new)) = true) ->
  forall d r c d', pending d = [] ->
  infilfs_checkpoint_publish n (header new) new first relocate d = (r, (c, d')) ->
  let ws := publication_writes first relocate new in
  exists k, (k <= length ws)%nat /\ progress ws k d d' /\
    (r = None -> k = length ws /\ c = true) /\
    (c = true -> ((if relocate then 2 else 1) <= k)%nat).
Proof.
  intros Hrel d r c d' Hp Hpub; cbv zeta; unfold infilfs_checkpoint_publish, infs_checkpoint_publish in Hpub.
  destruct relocate; unfold publication_writes.
  - destruct (Hrel eq_refl) as [Hu Hv].
    pose proof (fun copy => publish_locator_writes (header new) copy Hu Hv) as Hl.
    assert (Hrun : runs 2 true ([(INFS_LOCATOR_BLOCK_A, locator_block (header new))] ++
      (copy_writes 1 new ++ [(INFS_LOCATOR_BLOCK_B, locator_block (header new))])) _)
      by exact (runs_and_then 2 2 1 false true _ _ _ _ (runs_write 2 _ _ (Hl 0))
        (copies_run 1 new 0 false _ _ (runs_write 0 _ _ (Hl 1))) ltac:(lia) ltac:(cbn; lia)).
    destruct (Hrun (false, d) r (c, d') Hp Hpub) as (k & Hk & Hpr & Hr & _ & Hf).
    exists k; split_and!; trivial; [intros He; destruct (Hr He); auto |].
    intros Hc; destruct (Hf Hc) as [[=] | Hle]; exact Hle.
  - pose proof (copies_run first new 0 false [] skip (runs_skip 0)) as Hrun; rewrite app_nil_r in Hrun.
    destruct (Hrun (false, d) r (c, d') Hp Hpub) as (k & Hk & Hpr & Hr & _ & Hf).
    exists k; split_and!; trivial; [intros He; destruct (Hr He); auto |].
    intros Hc; destruct (Hf Hc) as [[=] | Hle]; exact Hle.
Qed.

End Runs.
(** ** Power loss *)

Section Crash.
Context {E : Endian} {P : Platform}.

(** A block torn by the power loss is recognised by its checksum. *)
Definition torn (n : Z) (raw : list Z) : Prop := ~ header_valid raw /\ locator_of n raw = None.

(** What may be on the medium afterwards: every pending write made it, did not, or
    was torn. *)
Definition crash_image {D} `{BlockLayer D} (n : Z) (d : D) (img : list Z) : Prop :=
  medium n img /\
  forall b, 0 <= b < n -> blk img b = blk (durable d) b \/
    exists data, In (b, data) (pending d) /\ (blk img b = data \/ torn n (blk img b)).

(** The same, seen from before the writes: block [b] after [k] of the writes [ws]
    and with the next one in flight. *)
Definition after_writes (n : Z) (ws : list (Z * list Z)) (k : nat) (img img' : list Z) : Prop :=
  medium n img' /\
  forall b, 0 <= b < n ->
    (exists data, In (b, data) (take k ws) /\ blk img' b = data) \/
    (~ In b (map fst (take k ws)) /\
     (blk img' b = blk img b \/
      exists data, ws !! k = Some (b, data) /\ (blk img' b = data \/ torn n (blk img' b)))).

Lemma in_fst (b : Z) (ws : list (Z * list Z)) : In b (map fst ws) -> exists data, In (b, data) ws.
Proof. intros ([b' data] & <- & Hin)%in_map_iff; eauto. Qed.

Lemma in_take {A} (x : A) k l : In x (take k l) <-> exists i, l !! i = Some x /\ (i < k)%nat.
Proof.
  rewrite <- list_elem_of_In, list_elem_of_lookup; setoid_rewrite lookup_take_Some; reflexivity.
Qed.

Lemma in_take_in {A} (x : A) k l : In x (take k l) -> In x l.
Proof. intros (i & Hi & _)%in_take; apply list_elem_of_In; eapply list_elem_of_lookup_2, Hi. Qed.

Lemma nodup_take {A} (k : nat) (l : list A) : List.NoDup l -> List.NoDup (take k l).
Proof.
  intros H; rewrite <- (take_drop k l) in H; apply NoDup_app_remove_r in H; exact H.
Qed.

Lemma crash_after_writes {D} `{BlockLayer D} n ws k (d d' : D) img' :
  medium n (durable d) -> Forall (write_ok n) ws -> List.NoDup (map fst ws) ->
  progress ws k d d' -> crash_image n d' img' -> after_writes n ws k (durable d) img'.
Proof.
  intros Hm Hw Hn [Hd Hp] [Hm' Hb]; split; [exact Hm' |]; intros b Hr.
  assert (Hwk : Forall (write_ok n) (take k ws)) by (apply Forall_take, Hw).
  assert (Hnk : List.NoDup (map fst (take k ws))) by (rewrite <- firstn_map; apply nodup_take, Hn).
  destruct (Hb b Hr) as [He | (data & Hin & He)].
  - rewrite Hd in He; destruct (in_dec Z.eq_dec b (map fst (take k ws))) as [Hi | Hi].
    + apply in_fst in Hi as [data Hi]; left; exists data; split; [exact Hi |].
      rewrite He; exact (blk_apply_in n _ _ b data Hm Hwk Hnk Hi).
    + right; split; [exact Hi |]; left; rewrite He; apply (blk_apply_other n); trivial; lia.
  - destruct Hp as [Hp | (w & Hk & Hp)]; rewrite Hp in Hin; [contradiction |].
    destruct Hin as [-> | []]; right; split; [| right; eauto].
    intros Hi; rewrite <- (take_drop_middle ws k _ Hk), map_app in Hn; cbn [map fst] in Hn.
    apply NoDup_remove_2 in Hn; apply Hn, in_app_iff; left; exact Hi.
Qed.

(** ** The state a publication starts from *)

(** The volume is at the superblock in block [cur]: every copy is there, a locator
    leads to it, no surviving map names another filesystem, and no other block of
    this filesystem is a superblock as new. *)
Record anchored (n : Z) (img cur : list Z) : Prop := {
  an_medium : medium n img;
  an_block : length cur = INFS_BLOCK_SIZE /\ bytes_ok cur;
  an_valid : header_valid cur;
  an_map : map_ok n (primary_map (header cur));
  an_copies : forall j, (j < 3)%nat -> blk img (sb_checkpoint_block (header cur) j) = cur;
  an_locator : exists l m, (l = INFS_LOCATOR_BLOCK_A \/ l = INFS_LOCATOR_BLOCK_B) /\
    locator_of n (blk img l) = Some m /\ belongs m cur;
  an_filesystem : forall m, survives img n m -> filesystem_uuid m = sb_filesystem_uuid (header cur);
  an_newest : forall b, 0 <= b < n -> header_valid (blk img b) ->
    sb_filesystem_uuid (header (blk img b)) = sb_filesystem_uuid (header cur) ->
    sb_generation (header cur) <= sb_generation (header (blk img b)) -> blk img b = cur
}.

(** [new] may follow [old]: a newer superblock of the filesystem, of the same
    geometry unless the volume is relocated. *)
Record follows (n : Z) (relocate : bool) (old new : list Z) : Prop := {
  fo_block : length new = INFS_BLOCK_SIZE /\ bytes_ok new;
  fo_valid : header_valid new;
  fo_map : map_ok n (primary_map (header new));
  fo_filesystem : sb_filesystem_uuid (header new) = sb_filesystem_uuid (header old);
  fo_newer : sb_generation (header old) < sb_generation (header new);
  fo_geometry : relocate = false -> sb_total_blocks (header new) = sb_total_blocks (header old) /\
    forall j, (j < 3)%nat -> sb_checkpoint_block (header new) j = sb_checkpoint_block (header old) j
}.

(** ** Positions and blocks *)

Lemma primary_checkpoint disk j : (j < 3)%nat -> checkpoint (primary_map disk) !!! j = sb_checkpoint_block disk j.
Proof. intros Hj; destruct j as [| [| [| j]]]; [reflexivity.. | lia]. Qed.

Lemma position_range n disk j :
  map_ok n (primary_map disk) -> (j < 3)%nat ->
  0 <= sb_checkpoint_block disk j < n /\
  sb_checkpoint_block disk j <> INFS_LOCATOR_BLOCK_A /\ sb_checkpoint_block disk j <> INFS_LOCATOR_BLOCK_B.
Proof.
  intros Hm Hj; pose proof (map_ok_position _ _ j Hm Hj) as Hp; rewrite primary_checkpoint in Hp by exact Hj.
  destruct Hm as (_ & Ht & _); cbn [primary_map total_blocks] in *; intuition lia.
Qed.

Lemma position_zero n disk : map_ok n (primary_map disk) -> sb_checkpoint_block disk 0 = 0.
Proof.
  intros (Hv & _); unfold locator_fields_valid in Hv; case_if_in Hv G; [discriminate |].
  apply orb_false_iff in G as [_ G]; apply negb_false_iff, Z.eqb_eq in G; exact G.
Qed.

Lemma position_distinct n disk i j :
  map_ok n (primary_map disk) -> (i < 3)%nat -> (j < 3)%nat -> i <> j ->
  sb_checkpoint_block disk i <> sb_checkpoint_block disk j.
Proof.
  intros (Hv & _); unfold locator_fields_valid in Hv; case_if_in Hv G; [discriminate |]; clear G.
  rewrite forallb_forall in Hv.
  assert (Hlt : forall a b, (a < b < 3)%nat -> sb_checkpoint_block disk a <> sb_checkpoint_block disk b).
  { intros a b Hab; specialize (Hv a); rewrite in_seq, andb_true_iff, forallb_forall in Hv.
    destruct Hv as [_ Hv]; [unfold INFS_CHECKPOINT_COUNT; lia |].
    specialize (Hv b); rewrite in_seq, !primary_checkpoint in Hv by lia.
    unfold INFS_CHECKPOINT_COUNT in Hv; specialize (Hv ltac:(lia)); to_prop; assumption. }
  intros Hi Hj Hne; destruct (Nat.lt_ge_cases i j); [apply Hlt; lia | apply not_eq_sym, Hlt; lia].
Qed.

Lemma header_length raw : length raw = INFS_BLOCK_SIZE -> length (header raw) = sb_size.
Proof. intros Hl; apply length_slice; rewrite Hl; unfold sb_size, INFS_BLOCK_SIZE; lia. Qed.

Lemma header_map_typed raw :
  length raw = INFS_BLOCK_SIZE -> bytes_ok raw -> well_typed (primary_map (header raw)).
Proof.
  intros Hl Hb; pose proof (header_length raw Hl) as Hh.
  assert (Hbh : bytes_ok (header raw)) by (unfold header; auto with infs).
  assert (Hf : forall off, (off + 8 <= sb_size)%nat -> fits 64 (le64_at off (header raw)))
    by (intros off Ho; apply le64_fits; [rewrite Hh; exact Ho | exact Hbh]).
  unfold well_typed, primary_map; cbn [generation total_blocks checkpoint filesystem_uuid]; split_and!.
  - apply Hf; unfold sb_size; lia.
  - apply Hf; unfold sb_size; lia.
  - reflexivity.
  - repeat (apply Forall_cons; split; [apply Hf; unfold sb_size; lia |]); apply Forall_nil; trivial.
  - apply length_slice; rewrite Hh; unfold sb_size; lia.
  - unfold sb_filesystem_uuid; auto with infs.
Qed.

Lemma header_valid_magic raw : header_valid raw -> slice 0 8 raw = INFS_MAGIC.
Proof.
  unfold header_valid, infs_validate_superblock_block_minor, superblock_fields_ok; case_if_new; [discriminate |].
  rewrite !andb_true_iff; intros H; apply bytes_eqb_eq, H.
Qed.

(** The locator block of a superblock is a whole block, decodes to its map and is no
    superblock. *)
Lemma locator_block_spec n raw :
  length raw = INFS_BLOCK_SIZE -> bytes_ok raw -> map_ok n (primary_map (header raw)) ->
  let block := locator_block (header raw) in
  (length block = INFS_BLOCK_SIZE /\ bytes_ok block) /\
  locator_of n block = Some (primary_map (header raw)) /\ ~ header_valid block.
Proof.
  intros Hl Hb (Hv & Ht & _); pose proof (header_map_typed raw Hl Hb) as Hw; cbv zeta; unfold locator_block.
  assert (Hu : length (filesystem_uuid (primary_map (header raw))) = 16%nat) by apply Hw.
  split_and!.
  - apply length_with_crc; [exact Hu | apply length_put_u64].
  - apply with_crc_ok; [exact Hw | apply put_u64_ok].
  - unfold locator_of; rewrite decode_with_crc by assumption; reflexivity.
  - intros Hh%header_valid_magic; unfold with_crc, fields in Hh; rewrite <- !app_assoc, slice_head in Hh by reflexivity.
    discriminate.
Qed.

(** ** The writes of a publication *)

Lemma turns_distinct first :
  0 <= first < 3 -> exists a b c, map (turn first) [0; 1; 2] = [a; b; c] /\
    (a < 3)%nat /\ (b < 3)%nat /\ (c < 3)%nat /\ a <> b /\ a <> c /\ b <> c.
Proof.
  intros Hf; assert (first = 0 \/ first = 1 \/ first = 2) as [-> | [-> | ->]] by lia;
    [exists 0%nat, 1%nat, 2%nat | exists 1%nat, 2%nat, 0%nat | exists 2%nat, 0%nat, 1%nat];
    (split; [vm_compute; reflexivity | lia]).
Qed.

(** What is written where: the new superblock off the locators, or its locator. *)
Definition new_block (new : list Z) (w : Z * list Z) : Prop :=
  (w.2 = new /\ w.1 <> INFS_LOCATOR_BLOCK_A /\ w.1 <> INFS_LOCATOR_BLOCK_B) \/
  (w.2 = locator_block (header new) /\ (w.1 = INFS_LOCATOR_BLOCK_A \/ w.1 = INFS_LOCATOR_BLOCK_B)).

Lemma copy_writes_ok n new first :
  length new = INFS_BLOCK_SIZE /\ bytes_ok new -> map_ok n (primary_map (header new)) -> 0 <= first < 3 ->
  Forall (fun w => write_ok n w /\ w.2 = new /\ w.1 <> INFS_LOCATOR_BLOCK_A /\ w.1 <> INFS_LOCATOR_BLOCK_B)
    (copy_writes first new) /\
  List.NoDup (map fst (copy_writes first new)) /\
  forall j, (j < 3)%nat -> In (sb_checkpoint_block (header new) j, new) (copy_writes first new).
Proof.
  intros [Hl Hb] Hm Hf; destruct (turns_distinct first Hf) as (a & b & c & Ht & Ha & Hb' & Hc & Hab & Hac & Hbc).
  assert (Hcw : copy_writes first new =
    map (fun j => (sb_checkpoint_block (header new) j, new)) (map (turn first) [0; 1; 2])) by reflexivity.
  rewrite Hcw, Ht; clear Hcw Ht; cbn [map fst]; split_and!.
  - assert (Hw : forall j, (j < 3)%nat -> write_ok n (sb_checkpoint_block (header new) j, new) /\ new = new /\
      sb_checkpoint_block (header new) j <> INFS_LOCATOR_BLOCK_A /\
      sb_checkpoint_block (header new) j <> INFS_LOCATOR_BLOCK_B).
    { intros j Hj; pose proof (position_range n (header new) j Hm Hj); unfold write_ok; cbn; intuition. }
    repeat (apply Forall_cons; split; [apply Hw; assumption |]); apply Forall_nil; trivial.
  - pose proof (fun i j => position_distinct n (header new) i j Hm) as Hne.
    repeat (apply NoDup_cons_iff; split; [cbn [In] |]); [| | intros [] | apply List.NoDup_nil].
    + intros [H | [H | []]]; revert H; apply Hne; auto.
    + intros [H | []]; revert H; apply Hne; auto.
  - intros j Hj; assert (j = a \/ j = b \/ j = c) by lia; cbn [In]; intuition congruence.
Qed.

Lemma publication_writes_ok n new first relocate :
  length new = INFS_BLOCK_SIZE /\ bytes_ok new -> INFS_LOCATOR_MIN_VOLUME_BLOCKS <= n ->
  map_ok n (primary_map (header new)) -> 0 <= first < 3 ->
  let ws := publication_writes first relocate new in
  Forall (write_ok n) ws /\ List.NoDup (map fst ws) /\ Forall (new_block new) ws /\
  forall j, (j < 3)%nat -> In (sb_checkpoint_block (header new) j, new) ws.
Proof.
  intros Hbl Hmin Hm Hf; cbv zeta; unfold publication_writes; destruct relocate.
  - destruct (copy_writes_ok n new 1 Hbl Hm ltac:(lia)) as (Hw & Hn & Hin).
    destruct (locator_block_spec n new (proj1 Hbl) (proj2 Hbl) Hm) as [Hlb _].
    assert (Hout : forall b, In b (map fst (copy_writes 1 new)) -> b <> INFS_LOCATOR_BLOCK_A /\ b <> INFS_LOCATOR_BLOCK_B).
    { intros b [data Hb]%in_fst; rewrite List.Forall_forall in Hw; apply (Hw _ Hb). }
    unfold INFS_LOCATOR_MIN_VOLUME_BLOCKS in Hmin; split_and!.
    + apply Forall_cons; split; [| apply Forall_app; split; [eapply Forall_impl; [exact Hw | intros w [? _]; assumption] |]];
        [| apply Forall_singleton]; (split; [unfold INFS_LOCATOR_BLOCK_A, INFS_LOCATOR_BLOCK_B; cbn; lia | exact Hlb]).
    + cbn [map fst]; rewrite map_app; apply NoDup_cons_iff; split.
      * intros [Hi | [Hi | []]]%in_app_iff; [apply Hout in Hi as [[] _]; reflexivity | discriminate].
      * apply (NoDup_Add (a := INFS_LOCATOR_BLOCK_B) (l := map fst (copy_writes 1 new))).
        { rewrite <- (app_nil_r (map fst (copy_writes 1 new))) at 1; apply Add_app. }
        split; [exact Hn |]; intros Hi; apply Hout in Hi as [_ []]; reflexivity.
    + apply Forall_cons; split; [right; auto |]; apply Forall_app; split; [| apply Forall_singleton; right; auto].
      eapply Forall_impl; [exact Hw | intros w (_ & H); left; exact H].
    + intros j Hj; right; apply in_app_iff; left; apply Hin, Hj.
  - destruct (copy_writes_ok n new first Hbl Hm Hf) as (Hw & Hn & Hin); split_and!; trivial;
      (eapply Forall_impl; [exact Hw |]); [intros w [? _]; assumption | intros w (_ & H); left; exact H].
Qed.

(** ** What recovery sees *)

Section View.
Context (n : Z) (img img' old new : list Z) (ws : list (Z * list Z)) (k : nat).
Hypothesis Hafter : after_writes n ws k img img'.
Hypothesis Hws : Forall (new_block new) ws.
Hypothesis Hblock : length new = INFS_BLOCK_SIZE /\ bytes_ok new.
Hypothesis Hmap : map_ok n (primary_map (header new)).

Abbreviation uuid := (sb_filesystem_uuid (header new)).
Hypothesis Hfilesystem : forall m, survives img n m -> filesystem_uuid m = uuid.
Hypothesis Hnewest : forall b, 0 <= b < n -> header_valid (blk img b) ->
  sb_filesystem_uuid (header (blk img b)) = uuid ->
  sb_generation (header old) <= sb_generation (header (blk img b)) -> blk img b = old.

Lemma written_block w : In w (take k ws) \/ ws !! k = Some w -> new_block new w.
Proof.
  intros Hw; rewrite List.Forall_forall in Hws; apply Hws; destruct Hw as [Hw | Hw].
  - rewrite <- (take_drop k ws); apply in_app_iff; left; exact Hw.
  - apply list_elem_of_In; eapply list_elem_of_lookup_2, Hw.
Qed.

(** A superblock that is new on the medium is [new]. *)
Lemma view_header b :
  0 <= b < n -> header_valid (blk img' b) -> blk img' b = new \/ blk img' b = blk img b.
Proof.
  intros Hb Hv; destruct (locator_block_spec n new (proj1 Hblock) (proj2 Hblock) Hmap) as (_ & _ & Hnv).
  assert (Hdata : forall data, (In (b, data) (take k ws) \/ ws !! k = Some (b, data)) -> blk img' b = data -> blk img' b = new).
  { intros data Hw%written_block He; destruct Hw as [[Hw _] | [Hw _]]; cbn [snd] in Hw; [congruence |].
    exfalso; apply Hnv; rewrite <- Hw, <- He; exact Hv. }
  destruct (proj2 Hafter b Hb) as [(data & Hi & He) | (_ & [He | (data & Hi & [He | [Ht _]])])].
  - left; exact (Hdata data (or_introl Hi) He).
  - right; exact He.
  - left; exact (Hdata data (or_intror Hi) He).
  - contradiction.
Qed.

Lemma view_locator l m :
  0 <= l < n -> l = INFS_LOCATOR_BLOCK_A \/ l = INFS_LOCATOR_BLOCK_B -> locator_of n (blk img' l) = Some m ->
  m = primary_map (header new) \/ locator_of n (blk img l) = Some m.
Proof.
  intros Hr Hl Hm; destruct (locator_block_spec n new (proj1 Hblock) (proj2 Hblock) Hmap) as (_ & Hloc & _).
  assert (Hdata : forall data, (In (l, data) (take k ws) \/ ws !! k = Some (l, data)) -> blk img' l = data ->
    m = primary_map (header new)).
  { intros data Hw%written_block He; destruct Hw as [(_ & H1 & H2) | [Hw _]]; cbn [fst snd] in *; [tauto |].
    rewrite He, Hw, Hloc in Hm; congruence. }
  destruct (proj2 Hafter l Hr) as [(data & Hi & He) | (_ & [He | (data & Hi & [He | [_ Ht]])])].
  - left; exact (Hdata data (or_introl Hi) He).
  - right; rewrite <- He; exact Hm.
  - left; exact (Hdata data (or_intror Hi) He).
  - rewrite Ht in Hm; discriminate.
Qed.

Lemma view_filesystem m : survives img' n m -> filesystem_uuid m = uuid.
Proof.
  destruct Hafter as [[Ho Hl Hmin Hmax] _]; unfold INFS_LOCATOR_MIN_VOLUME_BLOCKS in Hmin; intros [Hm | [Hm | Hm]].
  - apply view_locator in Hm as [-> | Hm]; [reflexivity | apply Hfilesystem; left; exact Hm | | left; reflexivity].
    unfold INFS_LOCATOR_BLOCK_A; lia.
  - apply view_locator in Hm as [-> | Hm]; [reflexivity | apply Hfilesystem; right; left; exact Hm | | right; reflexivity].
    unfold INFS_LOCATOR_BLOCK_B; lia.
  - destruct (blk_ok img' n Ho Hl 0 ltac:(lia)) as [Hl0 Hb0].
    destruct (primary_map_ok _ _ _ Hl0 Hb0 Hm) as (_ & Hv & Hpm).
    destruct (view_header 0 ltac:(lia) Hv) as [He | He]; rewrite He in *; [rewrite Hpm; reflexivity |].
    apply Hfilesystem; right; right; exact Hm.
Qed.

Lemma view_reachable raw :
  reachable img' n raw -> raw = new \/ raw = old \/ sb_generation (header raw) < sb_generation (header old).
Proof.
  intros (m & j & Hm & Hj & -> & Hbel); pose proof Hafter as [[Ho Hl Hmin Hmax] _].
  pose proof (survives_ok img' n Ho Hl Hmin m Hm) as Hok; pose proof (map_ok_position n m j Hok Hj) as (Hp & _).
  assert (Hr : 0 <= checkpoint m !!! j < n) by (destruct Hok as (_ & ? & _); lia).
  pose proof Hbel as (Hv & _ & Hu & _); rewrite (view_filesystem m Hm) in Hu.
  destruct (view_header _ Hr Hv) as [He | He]; [left; exact He | rewrite He in *].
  destruct (Z.lt_ge_cases (sb_generation (header (blk img (checkpoint m !!! j)))) (sb_generation (header old)));
    [auto | right; left; apply Hnewest; trivial].
Qed.

(** Recovery, when [old] or [new] can be reached. *)
Lemma view_recovers {C} (image : C -> list Z) (s : infs_storage C) raw0 :
  served image s img' -> reachable img' n raw0 -> raw0 = old \/ raw0 = new ->
  sb_generation (header old) <= sb_generation (header new) ->
  exists raw copies s', infs_read_best_superblock s (n * block_size) = (Good (header raw, copies), s') /\
    (raw = old \/ raw = new) /\ sb_generation (header raw0) <= sb_generation (header raw).
Proof.
  intros Hs Hr Heq Hgen; pose proof Hafter as [[Ho Hl Hmin Hmax] _].
  assert (Hone : one_filesystem img' n).
  { intros m m' Hm Hm'; rewrite (view_filesystem m Hm), (view_filesystem m' Hm'); reflexivity. }
  destruct (recovery_newest image img' n Ho Hl Hmin Hmax s raw0 Hs Hone Hr) as (raw & s' & He & _ & Hraw & Hbest).
  eexists raw, _, s'; split; [exact He |]; specialize (Hbest raw0 Hr); split; [| exact Hbest].
  destruct (view_reachable raw Hraw) as [-> | [-> | Hlt]]; auto; destruct Heq as [-> | ->]; lia.
Qed.

End View.
(** ** Publication *)

Lemma belongs_primary cur : header_valid cur -> belongs (primary_map (header cur)) cur.
Proof. intros Hv; split_and!; trivial; intros j Hj; symmetry; apply primary_checkpoint, Hj. Qed.

Lemma belongs_same m old new :
  belongs m old -> header_valid new -> sb_total_blocks (header new) = sb_total_blocks (header old) ->
  sb_filesystem_uuid (header new) = sb_filesystem_uuid (header old) ->
  (forall j, (j < 3)%nat -> sb_checkpoint_block (header new) j = sb_checkpoint_block (header old) j) ->
  belongs m new.
Proof.
  intros (_ & Ht & Hu & Hc) Hv Ht' Hu' Hc'; split_and!; [exact Hv | congruence | congruence |].
  intros j Hj; rewrite Hc' by exact Hj; apply Hc, Hj.
Qed.

Lemma primary_survives n img cur :
  header_valid cur -> map_ok n (primary_map (header cur)) -> blk img 0 = cur ->
  survives img n (primary_map (header cur)).
Proof.
  intros Hv (Hf & Ht & _) He; right; right; rewrite He; unfold primary_of_block; rewrite Hv.
  fold (header cur); cbv zeta; rewrite Hf, (proj2 (Z.leb_le _ _) Ht); reflexivity.
Qed.

Section Publish.
Context (n : Z) (img old new : list Z) (first : Z) (relocate : bool).
Hypothesis Hold : anchored n img old.
Hypothesis Hnew : follows n relocate old new.
Hypothesis Hfirst : 0 <= first < 3.

Abbreviation ws := (publication_writes first relocate new).

Lemma publish_writes_ok :
  Forall (write_ok n) ws /\ List.NoDup (map fst ws) /\ Forall (new_block new) ws /\
  forall j, (j < 3)%nat -> In (sb_checkpoint_block (header new) j, new) ws.
Proof.
  apply publication_writes_ok; [apply Hnew | apply (an_medium _ _ _ Hold) | apply Hnew | exact Hfirst].
Qed.

(** A block already written has what was written. *)
Lemma after_written k img' b data :
  after_writes n ws k img img' -> 0 <= b < n -> In (b, data) (take k ws) -> blk img' b = data.
Proof.
  intros [_ Ha] Hb Hin; destruct publish_writes_ok as (_ & Hn & _).
  destruct (Ha b Hb) as [(data' & Hin' & He) | [Hni _]];
    [| destruct Hni; apply in_map_iff; exists (b, data); auto].
  rewrite He; assert (Hnk : List.NoDup (map fst (take k ws))) by (rewrite <- firstn_map; apply nodup_take, Hn).
  clear -Hnk Hin Hin'; induction (take k ws) as [| w l IH]; [contradiction |].
  apply NoDup_cons_iff in Hnk as [Hni Hnk]; destruct Hin as [-> | Hin], Hin' as [Heq | Hin'].
  - congruence.
  - destruct Hni; apply in_map_iff; exists (b, data'); auto.
  - subst w; destruct Hni; apply in_map_iff; exists (b, data); auto.
  - auto.
Qed.

(** A block that is no target yet has what it had. *)
Lemma after_untouched k img' b :
  after_writes n ws k img img' -> 0 <= b < n -> ~ In b (map fst (take (S k) ws)) -> blk img' b = blk img b.
Proof.
  intros [_ Ha] Hb Hni; destruct (Ha b Hb) as [(data & Hin & _) | [_ [He | (data & Hk & _)]]]; [| exact He |];
    destruct Hni; apply in_map_iff; exists (b, data); split; trivial.
  - apply in_take in Hin as (i & Hi & Hlt); apply in_take; exists i; split; [exact Hi | lia].
  - apply in_take; exists k; split; [exact Hk | lia].
Qed.

Lemma old_position j :
  relocate = false -> (j < 3)%nat -> blk img (sb_checkpoint_block (header new) j) = old.
Proof. intros Hr Hj; rewrite (proj2 (fo_geometry _ _ _ _ Hnew Hr) j Hj); apply Hold, Hj. Qed.

(** Ordinary commits leave the locator alone. *)
Lemma commit_locator k img' :
  relocate = false -> after_writes n ws k img img' ->
  exists l m, (l = INFS_LOCATOR_BLOCK_A \/ l = INFS_LOCATOR_BLOCK_B) /\
    locator_of n (blk img' l) = Some m /\ belongs m old /\ belongs m new.
Proof.
  intros Hr Ha; destruct (an_locator _ _ _ Hold) as (l & m & Hl & Hm & Hbel).
  pose proof (an_medium _ _ _ Hold) as [_ _ Hmin _]; unfold INFS_LOCATOR_MIN_VOLUME_BLOCKS in Hmin.
  assert (Hlr : 0 <= l < n) by (unfold INFS_LOCATOR_BLOCK_A, INFS_LOCATOR_BLOCK_B in Hl; lia).
  destruct (copy_writes_ok n new first (fo_block _ _ _ _ Hnew) (fo_map _ _ _ _ Hnew) Hfirst) as (Hcw & _).
  assert (Hws : ws = copy_writes first new) by (rewrite Hr; reflexivity).
  assert (He : blk img' l = blk img l).
  { apply (after_untouched k); trivial; intros [data Hin]%in_fst; apply in_take_in in Hin; rewrite Hws in Hin.
    rewrite List.Forall_forall in Hcw; apply Hcw in Hin; cbn in Hin; tauto. }
  destruct (fo_geometry _ _ _ _ Hnew Hr) as [Ht Hc].
  exists l, m; rewrite He; split_and!; trivial; eapply belongs_same; eauto; apply Hnew.
Qed.

(** A copy that is not in flight has the old or the new superblock. *)
Lemma commit_alive k img' :
  relocate = false -> after_writes n ws k img img' ->
  exists raw, reachable img' n raw /\ (raw = old \/ raw = new) /\ ((1 <= k)%nat -> raw = new).
Proof.
  intros Hr Ha; destruct (commit_locator k img' Hr Ha) as (l & m & Hl & Hm & Hbel & Hbn).
  assert (Hsurv : survives img' n m) by (destruct Hl as [-> | ->]; [left | right; left]; exact Hm).
  assert (Hreach : forall j raw, (j < 3)%nat -> blk img' (sb_checkpoint_block (header new) j) = raw ->
    belongs m raw -> reachable img' n raw).
  { intros j raw Hj <- Hb; exists m, j; pose proof (proj2 (proj2 (proj2 Hbn)) j Hj) as Hcj; rewrite <- Hcj; auto. }
  pose proof (fun j => position_range n (header new) j (fo_map _ _ _ _ Hnew)) as Hpos.
  destruct (turns_distinct first Hfirst) as (a & b & c & Hturn & Hla & Hlb & _ & Hab & _).
  assert (Hcopy : ws = map (fun j => (sb_checkpoint_block (header new) j, new)) [a; b; c])
    by (rewrite <- Hturn, Hr; reflexivity).
  destruct k as [| k].
  - exists old; split_and!; [| auto | lia].
    apply (Hreach b); [exact Hlb | | exact Hbel].
    rewrite (after_untouched 0 img' _ Ha); [apply old_position; assumption | apply Hpos, Hlb |].
    rewrite Hcopy; cbn; intros [He | []]; revert He; apply (position_distinct n); trivial; apply Hnew.
  - exists new; split_and!; [| auto | auto].
    apply (Hreach a); [exact Hla | | exact Hbn].
    apply (after_written (S k)); [exact Ha | apply Hpos, Hla | rewrite Hcopy; left; reflexivity].
Qed.

Lemma relocation_writes :
  relocate = true ->
  ws = (INFS_LOCATOR_BLOCK_A, locator_block (header new)) ::
    (sb_checkpoint_block (header new) 1, new) :: (sb_checkpoint_block (header new) 2, new) ::
    (sb_checkpoint_block (header new) 0, new) :: [(INFS_LOCATOR_BLOCK_B, locator_block (header new))].
Proof. intros ->; reflexivity. Qed.

Lemma block_zero_alive k img' :
  relocate = true -> (k < 2)%nat -> after_writes n ws k img img' -> reachable img' n old.
Proof.
  intros Hr Hk Ha; pose proof (an_medium _ _ _ Hold) as [_ _ Hmin _]; unfold INFS_LOCATOR_MIN_VOLUME_BLOCKS in Hmin.
  pose proof (fo_map _ _ _ _ Hnew) as Hmn; pose proof (position_zero n (header old) (an_map _ _ _ Hold)) as Hz0.
  assert (Hz : blk img' 0 = old).
  { transitivity (blk img 0); [| rewrite <- Hz0; apply Hold; lia].
    apply (after_untouched k); [exact Ha | lia | rewrite (relocation_writes Hr)].
    assert (sb_checkpoint_block (header new) 1 <> 0).
    { rewrite <- (position_zero n (header new) Hmn); apply (position_distinct n); trivial; lia. }
    unfold INFS_LOCATOR_BLOCK_A; destruct k as [| [| k]]; cbn [take map fst In]; intuition lia. }
  exists (primary_map (header old)), 0%nat; split_and!.
  - apply primary_survives; [apply Hold | apply Hold | exact Hz].
  - lia.
  - rewrite primary_checkpoint, Hz0 by lia; symmetry; exact Hz.
  - apply belongs_primary, Hold.
Qed.

(** Relocation: block zero keeps the old superblock until the first locator and a
    backup lead to the new one. *)
Lemma relocation_alive k img' :
  relocate = true -> after_writes n ws k img img' ->
  exists raw, reachable img' n raw /\ (raw = old \/ raw = new) /\ ((2 <= k)%nat -> raw = new).
Proof.
  intros Hr Ha; pose proof (an_medium _ _ _ Hold) as [_ _ Hmin _]; unfold INFS_LOCATOR_MIN_VOLUME_BLOCKS in Hmin.
  pose proof (relocation_writes Hr) as Hws.
  pose proof (fo_map _ _ _ _ Hnew) as Hmn; pose proof (fo_valid _ _ _ _ Hnew) as Hvn.
  destruct k as [| [| k]].
  1, 2: exists old; split_and!; [eapply block_zero_alive; [exact Hr | | exact Ha]; lia | auto | lia].
  exists new; split_and!; [| auto | auto].
  assert (HA : blk img' INFS_LOCATOR_BLOCK_A = locator_block (header new)).
  { apply (after_written (S (S k))); trivial; [unfold INFS_LOCATOR_BLOCK_A; lia | rewrite Hws; left; reflexivity]. }
  assert (H1 : blk img' (sb_checkpoint_block (header new) 1) = new).
  { apply (after_written (S (S k))); trivial; [apply position_range; trivial; lia | rewrite Hws; right; left; reflexivity]. }
  exists (primary_map (header new)), 1%nat; split_and!; [| lia | | apply belongs_primary, Hvn].
  - left; rewrite HA; apply locator_block_spec; trivial; apply Hnew.
  - rewrite primary_checkpoint by lia; symmetry; exact H1.
Qed.

Lemma publish_alive k img' :
  after_writes n ws k img img' ->
  exists raw, reachable img' n raw /\ (raw = old \/ raw = new) /\
    (((if relocate then 2 else 1) <= k)%nat -> raw = new).
Proof.
  intros Ha; assert (relocate = true \/ relocate = false) as [Hr | Hr] by (destruct relocate; auto).
  - destruct (relocation_alive k img' Hr Ha) as (raw & H); exists raw; rewrite Hr; exact H.
  - destruct (commit_alive k img' Hr Ha) as (raw & H); exists raw; rewrite Hr; exact H.
Qed.

Lemma locator_after img' :
  after_writes n ws (length ws) img img' ->
  exists l m, (l = INFS_LOCATOR_BLOCK_A \/ l = INFS_LOCATOR_BLOCK_B) /\
    locator_of n (blk img' l) = Some m /\ belongs m new.
Proof.
  intros Ha; assert (relocate = true \/ relocate = false) as [Hr | Hr] by (destruct relocate; auto).
  - exists INFS_LOCATOR_BLOCK_A, (primary_map (header new)); split_and!; [auto | | apply belongs_primary, Hnew].
    rewrite (after_written _ _ INFS_LOCATOR_BLOCK_A (locator_block (header new)) Ha).
    + apply locator_block_spec; apply Hnew.
    + pose proof (an_medium _ _ _ Hold) as [_ _ Hmin _]; unfold INFS_LOCATOR_MIN_VOLUME_BLOCKS in Hmin.
      unfold INFS_LOCATOR_BLOCK_A; lia.
    + rewrite take_ge by reflexivity; rewrite relocation_writes by exact Hr; left; reflexivity.
  - destruct (commit_locator _ img' Hr Ha) as (l & m & Hl & Hm & _ & Hb); eauto 6.
Qed.

(** After all writes the volume is at the new superblock. *)
Lemma publish_anchors img' :
  after_writes n ws (length ws) img img' -> anchored n img' new.
Proof.
  intros Ha; destruct publish_writes_ok as (_ & _ & Hnb & Hin).
  pose proof (fo_map _ _ _ _ Hnew) as Hmn; pose proof (fo_block _ _ _ _ Hnew) as Hbn.
  assert (Hfs : forall m, survives img n m -> filesystem_uuid m = sb_filesystem_uuid (header new)).
  { intros m Hm; rewrite (fo_filesystem _ _ _ _ Hnew); apply (an_filesystem _ _ _ Hold), Hm. }
  split; trivial; [apply Ha | apply Hnew | | apply locator_after, Ha | eapply view_filesystem; eassumption |].
  - intros j Hj; apply (after_written (length ws)); [exact Ha | apply position_range; assumption |].
    rewrite take_ge by reflexivity; apply Hin, Hj.
  - intros b Hb Hv Hu Hg.
    destruct (view_header n img img' new ws (length ws) Ha Hnb Hbn Hmn b Hb Hv) as [He | He]; [exact He |].
    pose proof (fo_newer _ _ _ _ Hnew); rewrite He in Hv, Hu, Hg.
    rewrite (fo_filesystem _ _ _ _ Hnew) in Hu.
    rewrite (an_newest _ _ _ Hold b Hb Hv Hu ltac:(lia)) in Hg; lia.
Qed.

End Publish.
(** C1.  Publishing a checkpoint is crash safe.  From a volume that is at [old],
    whatever the block layer does, a power loss at any point leaves a medium on
    which recovery finds [old] or [new], and [new] once the driver counted it as
    committed; when publication reports success the volume is at [new], ready for
    the next one.  This holds for ordinary commits and for relocations. *)
Theorem publication_crash_safe {D} {B : BlockLayer D} {L : BlockLaws D} n (d : D) old new first relocate r c d' :
  anchored n (durable d) old -> pending d = [] -> follows n relocate old new -> 0 <= first < 3 ->
  infilfs_checkpoint_publish n (header new) new first relocate d = (r, (c, d')) ->
  (forall img, crash_image n d' img ->
   forall C (image : C -> list Z) (s : infs_storage C), served image s img ->
   exists raw copies s', infs_read_best_superblock s (n * block_size) = (Good (header raw, copies), s') /\
     (raw = old \/ raw = new) /\ (c = true -> raw = new)) /\
  (r = None -> c = true /\ pending d' = [] /\ anchored n (durable d') new).
Proof.
  intros Hold Hp Hnew Hfirst Hpub.
  destruct (publication_runs n first relocate new) with (d := d) (r := r) (c := c) (d' := d') as (k & Hk & Hpr & Hr & Hc);
    trivial.
  { intros _; split; [apply (header_map_typed new); apply Hnew | apply Hnew]. }
  destruct (publish_writes_ok n (durable d) old new first relocate Hold Hnew Hfirst) as (Hw & Hnd & Hnb & _).
  pose proof (fun img => crash_after_writes n _ k d d' img (an_medium _ _ _ Hold) Hw Hnd Hpr) as Hca.
  split.
  - intros img Himg C image s Hs; pose proof (Hca img Himg) as Ha.
    destruct (publish_alive n (durable d) old new first relocate Hold Hnew Hfirst k img Ha) as (raw0 & Hreach & Heq & Hcom).
    assert (Hfs : forall m, survives (durable d) n m -> filesystem_uuid m = sb_filesystem_uuid (header new)).
    { intros m Hm; rewrite (fo_filesystem _ _ _ _ Hnew); apply (an_filesystem _ _ _ Hold), Hm. }
    assert (Hnw := an_newest _ _ _ Hold); rewrite <- (fo_filesystem _ _ _ _ Hnew) in Hnw.
    pose proof (fo_newer _ _ _ _ Hnew) as Hgen.
    destruct (view_recovers n _ img old new _ k Ha Hnb (fo_block _ _ _ _ Hnew) (fo_map _ _ _ _ Hnew) Hfs Hnw
                image s raw0 Hs Hreach Heq ltac:(lia)) as (raw & copies & s' & He & Hraw & Hle).
    exists raw, copies, s'; split_and!; trivial; intros Hct.
    rewrite (Hcom (Hc Hct)) in Hle; destruct Hraw as [-> | ->]; [lia | reflexivity].
  - intros Hok; destruct (Hr Hok) as [-> ->]; destruct (progress_done _ _ _ Hpr) as [Hpd Hdu]; split_and!; trivial.
    apply (publish_anchors n (durable d) old new first relocate Hold Hnew Hfirst), Hca.
    split; [| auto]; rewrite Hdu; apply apply_medium; [apply Hold | exact Hw].
Qed.

End Crash.
(** ** A disk with a write cache *)

(** Writes go to the cache, a flush empties it; each operation fails when the script
    says so. *)
Record cached_disk := Disk { platter : list Z; cache : list (Z * list Z); script : list bool }.

#[global] Instance cached_layer : BlockLayer cached_disk := {|
  kmalloc := fun d => (true, d);
  sb_bread := fun d b => (Some (blk (apply_writes (cache d) (platter d)) b), d);
  write_buffer := fun d b data =>
    (if default false (head (script d)) then WriteError else Written,
     Disk (platter d) (cache d ++ [(b, data)]) (tail (script d)));
  blkdev_issue_flush := fun d =>
    if default false (head (script d)) then (Some EIO, Disk (platter d) (cache d) (tail (script d)))
    else (None, Disk (apply_writes (cache d) (platter d)) [] (tail (script d)));
  durable := platter;
  pending := cache
|}.

#[global] Instance cached_laws : BlockLaws cached_disk.
Proof.
  split; cbn.
  - intros d r d' [= <- <-]; auto.
  - intros d b r d' [<- <-]%pair_equal_spec; split_and!; trivial; intros raw <-%(inj Some); reflexivity.
  - intros d b data o d'; destruct (default false (head (script d))); intros [= <- <-]; auto.
  - intros d r d'; destruct (default false (head (script d))); intros [<- <-]%pair_equal_spec; cbn; auto.
Qed.

Section Samples.
Import SecurityFacts.
#[local] Existing Instance reference_endian.
#[local] Existing Instance reference_platform.

(** The sample volume with all three copies, and the superblock to publish. *)
Definition sample_anchored : list Z :=
  apply_writes [(0, sample_primary); (1, sample_map); (2048, sample_primary); (4095, sample_primary)]
    (replicate (Z.to_nat (4096 * block_size)) 0).

Definition sample_next : list Z := Eval vm_compute in
  block_of (infs_encode_superblock (splice 20 (store_le64 2) (slice 0 sb_size sample_primary))).

Definition sample_writes : list (Z * list Z) :=
  [(0, sample_primary); (1, sample_map); (2048, sample_primary); (4095, sample_primary)].

Lemma sample_blocks b :
  0 <= b < 4096 ->
  (b = 0 \/ b = 2048 \/ b = 4095) /\ blk sample_anchored b = sample_primary \/
  b = 1 /\ blk sample_anchored b = sample_map \/
  b <> 0 /\ b <> 1 /\ b <> 2048 /\ b <> 4095 /\ blk sample_anchored b = replicate INFS_BLOCK_SIZE 0.
Proof.
  intros Hb; unfold sample_anchored; fold sample_writes.
  assert (Hm : medium 4096 (replicate (Z.to_nat (4096 * block_size)) 0)).
  { split; [apply bytes_ok_replicate; split; lia | apply length_replicate | reflexivity || (vm_compute; discriminate) | eval_decide]. }
  assert (Hw : Forall (write_ok 4096) sample_writes).
  { repeat (apply Forall_cons; split; [split; [cbn; lia | split; [reflexivity | eval_decide]] |]); apply Forall_nil; trivial. }
  assert (Hn : List.NoDup (map fst sample_writes)) by (repeat constructor; cbn; lia).
  assert (Hin : forall data, In (b, data) sample_writes -> blk (apply_writes sample_writes (replicate (Z.to_nat (4096 * block_size)) 0)) b = data)
    by (intros data Hi; exact (blk_apply_in 4096 _ _ b data Hm Hw Hn Hi)).
  destruct (in_dec Z.eq_dec b (map fst sample_writes)) as [Hi | Hi].
  - change (map fst sample_writes) with [0; 1; 2048; 4095] in Hi; destruct Hi as [<- | [<- | [<- | [<- | []]]]].
    + left; split; [lia | apply Hin; left; reflexivity].
    + right; left; split; [reflexivity | apply Hin; right; left; reflexivity].
    + left; split; [lia | apply Hin; right; right; left; reflexivity].
    + left; split; [lia | apply Hin; right; right; right; left; reflexivity].
  - right; right; rewrite (blk_apply_other 4096) by (trivial; lia); cbn in Hi; split_and!; try (intros ->; tauto).
    unfold blk; apply slice_replicate; unfold block_size, INFS_BLOCK_SIZE; lia.
Qed.

Lemma sample_medium : medium 4096 sample_anchored.
Proof.
  unfold sample_anchored; fold sample_writes; apply apply_medium.
  - split; [apply bytes_ok_replicate; split; lia | apply length_replicate | vm_compute; discriminate | eval_decide].
  - repeat (apply Forall_cons; split; [split; [cbn; lia | split; [reflexivity | eval_decide]] |]); apply Forall_nil; trivial.
Qed.

Lemma sample_primary_map : primary_map (header sample_primary) = Loc 1 4096 [0; 2048; 4095] (sample_id 1).
Proof. vm_compute; reflexivity. Qed.

Lemma sample_next_map : primary_map (header sample_next) = Loc 2 4096 [0; 2048; 4095] (sample_id 1).
Proof. vm_compute; reflexivity. Qed.

Lemma sample_map_ok g : g <> 0 -> map_ok 4096 (Loc g 4096 [0; 2048; 4095] (sample_id 1)).
Proof.
  intros Hg; split_and!; [| cbn; lia | intros j; destruct j as [| [| [| j]]]; discriminate].
  unfold locator_fields_valid; cbn [generation]; rewrite (proj2 (Z.eqb_neq g 0) Hg); reflexivity.
Qed.

Lemma sample_position cur g j :
  primary_map (header cur) = Loc g 4096 [0; 2048; 4095] (sample_id 1) -> (j < 3)%nat ->
  sb_checkpoint_block (header cur) j = [0; 2048; 4095] !!! j.
Proof. intros He Hj; rewrite <- primary_checkpoint, He by exact Hj; reflexivity. Qed.

Lemma sample_primary_valid : header_valid sample_primary.
Proof. vm_compute; reflexivity. Qed.

Lemma sample_is_anchored : anchored 4096 sample_anchored sample_primary.
Proof.
  pose proof sample_primary_valid as Hv; pose proof sample_primary_map as Hpm.
  assert (Hm1 : locator_of 4096 sample_map = Some (Loc 1 4096 [0; 2048; 4095] (sample_id 1))) by (vm_compute; reflexivity).
  assert (Hz : locator_of 4096 (replicate INFS_BLOCK_SIZE 0) = None) by (vm_compute; reflexivity).
  assert (HA : blk sample_anchored 1 = sample_map) by (destruct (sample_blocks 1) as [[? _] | [[_ H] | ?]]; [lia | lia | exact H | lia]).
  assert (HB : blk sample_anchored 2047 = replicate INFS_BLOCK_SIZE 0)
    by (destruct (sample_blocks 2047) as [[? _] | [[? _] | (_ & _ & _ & _ & H)]]; [lia.. | exact H]).
  assert (H0 : blk sample_anchored 0 = sample_primary)
    by (destruct (sample_blocks 0) as [[_ H] | [[? _] | (? & _)]]; [lia | exact H | lia | lia]).
  split; [apply sample_medium | | exact Hv | | | | |].
  - split; [reflexivity | eval_decide].
  - rewrite Hpm; apply sample_map_ok; lia.
  - intros j Hj; rewrite (sample_position _ _ _ Hpm Hj).
    assert (Hp : [0; 2048; 4095] !!! j = 0 \/ [0; 2048; 4095] !!! j = 2048 \/ [0; 2048; 4095] !!! j = 4095)
      by (destruct j as [| [| [| j]]]; [auto.. | lia]).
    destruct (sample_blocks ([0; 2048; 4095] !!! j)) as [[_ H] | [H | H]]; [lia | exact H | lia | lia].
  - exists 1, (primary_map (header sample_primary)); split_and!; [left; reflexivity | | apply belongs_primary, Hv].
    rewrite HA, Hpm; exact Hm1.
  - intros m [Hm | [Hm | Hm]].
    + unfold INFS_LOCATOR_BLOCK_A in Hm; rewrite HA, Hm1 in Hm; injection Hm as <-; rewrite <- Hpm; reflexivity.
    + unfold INFS_LOCATOR_BLOCK_B in Hm; rewrite HB, Hz in Hm; discriminate Hm.
    + rewrite H0 in Hm.
      destruct (primary_map_ok sample_primary _ _ ltac:(reflexivity) ltac:(eval_decide) Hm) as (_ & _ & He).
      rewrite He; reflexivity.
  - intros b Hb Hvb _ _; destruct (sample_blocks b Hb) as [[_ He] | [[_ He] | (_ & _ & _ & _ & He)]]; [exact He | |];
      rewrite He in Hvb; apply header_valid_magic in Hvb; vm_compute in Hvb; discriminate.
Qed.

Lemma sample_follows : follows 4096 false sample_primary sample_next.
Proof.
  split; [split; [reflexivity | eval_decide] | vm_compute; reflexivity | | | |].
  - rewrite sample_next_map; apply sample_map_ok; lia.
  - vm_compute; reflexivity.
  - vm_compute; reflexivity.
  - intros _; split; [vm_compute; reflexivity |]; intros j Hj.
    rewrite (sample_position _ _ _ sample_next_map Hj), (sample_position _ _ _ sample_primary_map Hj); reflexivity.
Qed.

(** The commit of the sample: every operation succeeds. *)
Lemma sample_commit img :
  exists d', infilfs_checkpoint_publish 4096 (header sample_next) sample_next 2 false (Disk img [] []) = (None, (true, d')).
Proof.
  pose proof (fun j => sample_position _ _ j sample_next_map) as Hp.
  eexists; unfold infilfs_checkpoint_publish, infs_checkpoint_publish, publish_copy, and_then, beside,
    infilfs_publication_io, infilfs_publish_checkpoint, infilfs_checkpoint_write_sync.
  cbn [io_checkpoint io_flush io_locator].
  change (Z.to_nat (u32 (2 + 0) mod 3)) with 2%nat; change (Z.to_nat (u32 (2 + 1) mod 3)) with 0%nat.
  change (Z.to_nat (u32 (2 + 2) mod 3)) with 1%nat; rewrite !Hp by lia; reflexivity.
Qed.

Lemma publication_crash_safe_witness :
  exists d', infilfs_checkpoint_publish 4096 (header sample_next) sample_next 2 false (Disk sample_anchored [] [])
      = (None, (true, d')) /\ anchored 4096 (durable d') sample_next.
Proof.
  destruct (sample_commit sample_anchored) as [d' He]; exists d'; split; [exact He |].
  apply (publication_crash_safe (B := cached_layer) (L := cached_laws) 4096 (Disk sample_anchored [] []) sample_primary sample_next 2 false None true d'
    sample_is_anchored eq_refl sample_follows ltac:(lia) He); reflexivity.
Defined.

End Samples.
End CrashFacts.
