(* ===== verification/Heal.v ===== *)
(** Crash safety of the repair of checkpoint copies ([infilfs_checkpoint_heal] of
    [Checkpoint.v]), and the one state in which it is not safe. *)

From Stdlib Require Import ZifyBool.
From stdpp Require Import prelude.
From S2P Require Import Prelude Endian Checksum Format Security Storage Objects Locator Discovery Kernel KernelMount Checkpoint Crash.
#[local] Open Scope Z_scope.

Module HealFacts.
Import Storage Objects ObjectsFacts Locator LocatorFacts DiscoveryFacts Kernel KernelFacts KernelMount KernelMountFacts
  Checkpoint CrashFacts.

(** ** Encoding *)

Section Encoding.
Context {E : Endian} {P : Platform}.

Lemma rw_store_crc_seal off block :
  (off + 32 <= length block)%nat -> infilfs_rw_store_crc block off 32 = seal off block.
Proof.
  intros Hl; unfold infilfs_rw_store_crc, seal, block_crc_with_zeroed_checksum; rewrite rw_crc64_same.
  rewrite (splice_splice_eq off (replicate 32 0) (replicate 32 0)) by (rewrite ?length_replicate; lia); reflexivity.
Qed.

(** Encoding the structure of a valid block gives the block back. *)
Lemma encode_header cur :
  length cur = INFS_BLOCK_SIZE -> bytes_ok cur -> header_valid cur ->
  infilfs_rw_encode_superblock (header cur) = cur.
Proof.
  intros Hl Hb Hv; unfold header_valid, infs_validate_superblock_block_minor in Hv.
  case_if_in Hv G; [discriminate |]; apply andb_true_iff in Hv as [[_ Hz]%andb_true_iff Hs].
  assert (Hc : splice 0 (take sb_size (header cur)) (replicate INFS_BLOCK_SIZE 0) = cur).
  { pose proof (header_length cur Hl) as Hh; rewrite <- (clear_fix sb_size cur) at 2;
      [| exact Hl | unfold sb_size, INFS_BLOCK_SIZE; lia | exact Hz].
    rewrite (take_ge (header cur)) by lia; unfold clear_from, splice; cbn [take app]; rewrite Hh, length_replicate.
    unfold header, slice; rewrite drop_0, drop_replicate, (drop_ge cur), app_nil_r; [reflexivity |].
    rewrite Hl; unfold sb_size, INFS_BLOCK_SIZE; lia. }
  unfold infilfs_rw_encode_superblock; rewrite Hc, rw_store_crc_seal;
    [apply seal_fix; trivial |]; rewrite Hl; unfold sb_checksum_off, INFS_BLOCK_SIZE; lia.
Qed.

Lemma locator_matches_belongs n cur raw :
  length raw = INFS_BLOCK_SIZE -> bytes_ok raw -> header_valid cur -> locator_matches n (header cur) raw = true ->
  exists m, locator_of n raw = Some m /\ belongs m cur.
Proof.
  intros Hl Hb Hv; unfold locator_matches, locator_of; rewrite decode_same by assumption.
  destruct (infs_locator_decode raw n) as [m |]; cbn [as_kernel]; [| discriminate].
  rewrite !andb_true_iff, forallb_forall; intros [[[Ht _] Hu] Hc]; exists m; split; [reflexivity |].
  apply bytes_eqb_eq in Hu; to_prop; split_and!; [exact Hv | congruence | congruence |].
  intros j Hj; symmetry; apply Z.eqb_eq, Hc, in_seq; unfold INFS_CHECKPOINT_COUNT; lia.
Qed.

End Encoding.

(** ** Repair *)

Section Heal.
Context {E : Endian} {P : Platform} {D : Type} {B : BlockLayer D} {L : BlockLaws D} (n : Z) (cur : list Z).
Hypothesis Hblock : length cur = INFS_BLOCK_SIZE /\ bytes_ok cur.
Hypothesis Hvalid : header_valid cur.
Hypothesis Hmap : map_ok n (primary_map (header cur)).

Abbreviation position j := (sb_checkpoint_block (header cur) j).

(** A locator leads to [cur]. *)
Definition leads (img : list Z) (l : Z) : Prop :=
  exists m, locator_of n (blk img l) = Some m /\ belongs m cur.

(** [cur] can be reached without a map the repair replaces: through a locator, or
    through block zero if that is [cur] itself. *)
Definition held (img : list Z) : Prop :=
  blk img 0 = cur \/
  ((leads img INFS_LOCATOR_BLOCK_A \/ leads img INFS_LOCATOR_BLOCK_B) /\
   exists j, (j < 3)%nat /\ blk img (position j) = cur).

(** The medium the repair works on. *)
Record repairable (img : list Z) : Prop := {
  re_medium : medium n img;
  re_held : held img;
  re_filesystem : forall m, survives img n m -> filesystem_uuid m = sb_filesystem_uuid (header cur);
  re_newest : forall b, 0 <= b < n -> header_valid (blk img b) ->
    sb_filesystem_uuid (header (blk img b)) = sb_filesystem_uuid (header cur) ->
    sb_generation (header cur) <= sb_generation (header (blk img b)) -> blk img b = cur
}.

Lemma held_reachable img : medium n img -> held img -> reachable img n cur.
Proof.
  intros _ [H0 | [Hl (j & Hj & Hp)]].
  - exists (primary_map (header cur)), 0%nat; split_and!; [| lia | | apply belongs_primary, Hvalid].
    + apply primary_survives; assumption.
    + rewrite primary_checkpoint, (position_zero n (header cur) Hmap) by lia; symmetry; exact H0.
  - assert (Hs : exists m, survives img n m /\ belongs m cur)
      by (destruct Hl as [(m & Hm & Hb) | (m & Hm & Hb)]; exists m; (split; [| exact Hb]); [left | right; left]; exact Hm).
    destruct Hs as (m & Hs & Hb); exists m, j; split_and!; trivial.
    rewrite <- (proj2 (proj2 (proj2 Hb)) j Hj); symmetry; exact Hp.
Qed.

Lemma repairable_recovers img {C} (image : C -> list Z) (s : infs_storage C) :
  repairable img -> served image s img ->
  exists copies s', infs_read_best_superblock s (n * block_size) = (Good (header cur, copies), s').
Proof.
  intros [Hm Hh Hf Hn] Hs.
  assert (Ha : after_writes n [] 0 img img) by (split; [exact Hm | intros b _; right; split; [intros [] | left; reflexivity]]).
  destruct (view_recovers n img img cur cur [] 0 Ha (Forall_nil_2 _) Hblock Hmap Hf Hn image s cur Hs
    (held_reachable img Hm Hh) (or_introl eq_refl) ltac:(lia)) as (raw & copies & s' & He & Hraw & _).
  exists copies, s'; rewrite He; destruct Hraw as [-> | ->]; reflexivity.
Qed.

(** Writing [cur] or its locator keeps the medium repairable, torn or not, as long
    as [cur] stays held. *)
Lemma repairable_step ws k img img' :
  repairable img -> Forall (new_block cur) ws -> after_writes n ws k img img' -> held img' -> repairable img'.
Proof.
  intros [Hm Hh Hf Hn] Hws Ha Hh'; split; [apply Ha | exact Hh' | eapply view_filesystem; eassumption |].
  intros b Hb Hv Hu Hg; destruct (view_header n img img' cur ws k Ha Hws Hblock Hmap b Hb Hv) as [He | He]; [exact He |].
  rewrite He in Hv, Hu, Hg |- *; apply Hn; assumption.
Qed.

Lemma held_kept t img img' :
  0 <= t < n -> medium n img ->
  (forall b, 0 <= b < n -> b <> t -> blk img' b = blk img b) -> held img ->
  (blk img 0 = cur /\ t <> 0) \/ (blk img t <> cur /\ t <> INFS_LOCATOR_BLOCK_A /\ t <> INFS_LOCATOR_BLOCK_B) -> held img'.
Proof.
  intros Ht [_ _ Hmin _] Hb Hh Hc; unfold INFS_LOCATOR_MIN_VOLUME_BLOCKS in Hmin.
  assert (Hz : blk img 0 = cur -> t <> 0 -> held img') by (intros H0 Hne; left; rewrite Hb by lia; exact H0).
  destruct Hc as [[H0 Hne] | (Hne & HA & HB)]; [auto |].
  destruct Hh as [H0 | [Hl (j & Hj & Hp)]]; [apply Hz; [exact H0 | intros ->; contradiction] |].
  right; split.
  - unfold leads; rewrite !Hb by (unfold INFS_LOCATOR_BLOCK_A, INFS_LOCATOR_BLOCK_B in *; lia); exact Hl.
  - exists j; split; [exact Hj |]; rewrite Hb; [exact Hp | apply position_range; assumption | intros <-; contradiction].
Qed.

(** Every medium a power loss leaves is repairable. *)
Definition safe (d : D) : Prop := forall img, crash_image n d img -> repairable img.

(** A repair step on block [t] that establishes [goal], on a medium with [pre]. *)
Definition heals (t : Z) (pre goal : list Z -> Prop) (a : action errno D) : Prop :=
  forall d r d', pending d = [] -> repairable (durable d) -> pre (durable d) -> a d = (r, d') ->
  safe d' /\
  (r = None -> pending d' = [] /\ medium n (durable d') /\ goal (durable d') /\
     forall b, 0 <= b < n -> b <> t -> blk (durable d') b = blk (durable d) b).

Lemma safe_idle d : pending d = [] -> repairable (durable d) -> safe d.
Proof.
  intros Hp Hr img [Hm Hb]; assert (He : forall b, 0 <= b < n -> blk img b = blk (durable d) b).
  { intros b Hbn; destruct (Hb b Hbn) as [He | (data & Hin & _)]; [exact He | rewrite Hp in Hin; contradiction]. }
  assert (Ha : after_writes n [] 0 (durable d) img)
    by (split; [exact Hm |]; intros b Hbn; right; split; [intros [] | left; apply He, Hbn]).
  apply (repairable_step [] 0 (durable d)); trivial.
  pose proof (re_medium _ Hr) as [_ _ Hmin _]; unfold INFS_LOCATOR_MIN_VOLUME_BLOCKS in Hmin.
  destruct (re_held _ Hr) as [H0 | [Hl (j & Hj & Hp')]]; [left; rewrite He by lia; exact H0 | right; split].
  - unfold leads; rewrite !He by (unfold INFS_LOCATOR_BLOCK_A, INFS_LOCATOR_BLOCK_B; lia); exact Hl.
  - exists j; split; [exact Hj |]; rewrite He; [exact Hp' | apply position_range; assumption].
Qed.

Lemma write_flush_progress w (a : action errno D) d r d' :
  writes w a -> pending d = [] -> and_then a infilfs_publish_flush d = (r, d') ->
  exists k, (k <= 1)%nat /\ progress [w] k d d' /\ (r = None -> k = 1%nat).
Proof.
  intros Hw Hp He.
  assert (Hb : and_then (beside a) (beside infilfs_publish_flush) (false, d) = (r, (false, d'))).
  { revert He; unfold and_then, beside; cbn [fst snd]; destruct (a d) as [[e |] d1]; cbn [fst snd];
      [intros [= <- <-]; reflexivity |].
    destruct (infilfs_publish_flush d1); intros [= <- <-]; reflexivity. }
  destruct (runs_write 0 w a Hw (false, d) r (false, d') Hp Hb) as (k & Hk & Hpr & Hr & _).
  exists k; split_and!; trivial; intros Hn; apply Hr, Hn.
Qed.

Lemma write_heals w (pre goal : list Z -> Prop) (a : action errno D) :
  writes w a -> write_ok n w -> new_block cur w ->
  (forall img, pre img -> (blk img 0 = cur /\ w.1 <> 0) \/
     (blk img w.1 <> cur /\ w.1 <> INFS_LOCATOR_BLOCK_A /\ w.1 <> INFS_LOCATOR_BLOCK_B)) ->
  (forall img, blk img w.1 = w.2 -> goal img) ->
  heals w.1 pre goal (and_then a infilfs_publish_flush).
Proof.
  intros Hw Hok Hnb Hpre Hgoal d r d' Hp Hr Hq He.
  destruct (write_flush_progress w a d r d' Hw Hp He) as (k & Hk & Hpr & Hdone); pose proof (re_medium _ Hr) as Hm.
  assert (Hws : Forall (write_ok n) [w]) by (apply Forall_singleton, Hok).
  assert (Hnd : List.NoDup (map fst [w])) by (repeat constructor; intros []).
  split.
  - intros img Hc; pose proof (crash_after_writes n [w] k d d' img Hm Hws Hnd Hpr Hc) as Ha.
    apply (repairable_step [w] k (durable d)); trivial; [apply Forall_singleton, Hnb |].
    apply (held_kept w.1 (durable d)); [apply Hok | exact Hm | | apply Hr | apply Hpre, Hq].
    intros b Hb Hne; destruct (proj2 Ha b Hb) as [(data & Hin & _) | [_ [Hbe | (data & Hin & _)]]]; [| exact Hbe |].
    + apply in_take_in in Hin as [-> | []]; contradiction.
    + apply list_elem_of_lookup_2, list_elem_of_In in Hin as [-> | []]; contradiction.
  - intros Hn; rewrite (Hdone Hn) in Hpr; destruct (progress_done [w] d d' Hpr) as [Hpd Hdu]; split_and!; trivial.
    + rewrite Hdu; exact (put_block_medium n (durable d) w Hm Hok).
    + apply Hgoal; rewrite Hdu; exact (blk_put_eq n (durable d) w Hm Hok).
    + intros b Hb Hne; rewrite Hdu; exact (blk_put_ne n (durable d) w b Hm Hok (proj1 Hb) Hne).
Qed.

(** A block read with nothing pending. *)
Lemma read_idle b d r d' :
  pending d = [] -> infilfs_read_block sb_bread n b d = (r, d') ->
  durable d' = durable d /\ pending d' = [] /\ forall raw, r = KOk raw -> raw = blk (durable d) b.
Proof.
  intros Hp; unfold infilfs_read_block; case_if_new; [intros [= <- <-]; split_and!; trivial; discriminate |].
  destruct (sb_bread d b) as [o d1] eqn:Eb; apply bread_law in Eb as (Hd & Hpd & Hr); rewrite Hp in *.
  destruct o as [data |]; intros [<- <-]%pair_equal_spec; split_and!; trivial; [| discriminate].
  intros raw [= <-]; apply Hr; reflexivity.
Qed.

Lemma heal_copy_heals i :
  (i < 3)%nat ->
  heals (position i) (fun _ => True) (fun img => blk img (position i) = cur) (heal_copy n (header cur) cur i).
Proof.
  intros Hi d r d' Hp Hr _; unfold heal_copy; destruct (infilfs_read_block _ _ _ d) as [rd d1] eqn:Er.
  apply read_idle in Er as (Hd & Hp1 & Hraw); [| exact Hp]; rewrite <- Hd in Hr, Hraw.
  destruct rd as [raw | e]; [| intros [= <- <-]; split; [apply safe_idle; assumption | discriminate]].
  specialize (Hraw raw eq_refl); case_if_new.
  - apply bytes_eqb_eq in G; intros [= <- <-]; split; [apply safe_idle; assumption |].
    intros _; split_and!; trivial; [apply Hr | congruence | intros; rewrite Hd; reflexivity].
  - apply bytes_eqb_neq in G; intros He; rewrite <- Hd.
    pose proof (position_range n (header cur) i Hmap Hi) as (Hpos & HA & HB).
    apply (write_heals (position i, cur) (fun img => blk img (position i) <> cur)
      (fun img => blk img (position i) = cur) (infilfs_publish_checkpoint n (header cur) cur (Z.of_nat i))) with (r := r);
      trivial; cbn [fst snd]; auto.
    + unfold infilfs_publish_checkpoint; rewrite Nat2Z.id; apply write_sync_writes.
    + split; [exact Hpos | exact Hblock].
    + left; auto.
    + congruence.
Qed.

Lemma heal_locator_heals i l :
  l = (if i =? 0 then INFS_LOCATOR_BLOCK_A else INFS_LOCATOR_BLOCK_B) ->
  heals l (fun img => blk img 0 = cur) (fun img => leads img l) (heal_locator n (header cur) i).
Proof.
  intros Hl d r d' Hp Hr H0; unfold heal_locator; rewrite <- Hl.
  destruct (infilfs_read_block _ _ _ d) as [rd d1] eqn:Er.
  apply read_idle in Er as (Hd & Hp1 & Hraw); [| exact Hp]; rewrite <- Hd in Hr, Hraw, H0.
  destruct rd as [raw | e]; [| intros [= <- <-]; split; [apply safe_idle; assumption | discriminate]].
  specialize (Hraw raw eq_refl); pose proof (re_medium _ Hr) as [Ho Hlen Hmin Hmax].
  assert (Hlr : 0 <= l < n) by (unfold INFS_LOCATOR_MIN_VOLUME_BLOCKS, INFS_LOCATOR_BLOCK_A, INFS_LOCATOR_BLOCK_B in *;
    destruct (i =? 0); lia).
  destruct (blk_ok _ n Ho Hlen l Hlr) as [Hbl Hbo]; case_if_new.
  - intros [= <- <-]; split; [apply safe_idle; assumption |]; intros _; split_and!; trivial;
      [split; assumption | | intros; rewrite Hd; reflexivity].
    unfold leads; rewrite <- Hraw; apply locator_matches_belongs; trivial; rewrite Hraw; assumption.
  - intros He; rewrite <- Hd; destruct (locator_block_spec n cur (proj1 Hblock) (proj2 Hblock) Hmap) as (Hlb & Hlo & _).
    apply (write_heals (l, locator_block (header cur)) (fun img => blk img 0 = cur)
      (fun img => leads img l) (infilfs_publish_locator n (header cur) i)) with (r := r); trivial; cbn [fst snd].
    + rewrite Hl; apply publish_locator_writes; [apply (header_map_typed cur); apply Hblock | apply Hmap].
    + split; [exact Hlr | exact Hlb].
    + right; split; [reflexivity | cbn; rewrite Hl; destruct (i =? 0); auto].
    + intros img Hz; left; split; [exact Hz | rewrite Hl; destruct (i =? 0); discriminate].
    + intros img Hbk; unfold leads; rewrite Hbk; exists (primary_map (header cur)); split; [exact Hlo | apply belongs_primary, Hvalid].
Qed.

(** ** The whole repair *)

(** From [pre] the action is safe, and when it succeeds it ends in [post]. *)
Definition triple (pre : list Z -> Prop) (a : action errno D) (post : list Z -> Prop) : Prop :=
  forall d r d', pending d = [] -> repairable (durable d) -> pre (durable d) -> a d = (r, d') ->
  safe d' /\ (r = None -> pending d' = [] /\ repairable (durable d') /\ post (durable d')).

Lemma triple_then pre mid post a b : triple pre a mid -> triple mid b post -> triple pre (and_then a b) post.
Proof.
  intros Ha Hb d r d' Hp Hr Hq; unfold and_then; destruct (a d) as [[e |] d1] eqn:Ea;
    destruct (Ha _ _ _ Hp Hr Hq Ea) as [Hs Hd].
  - intros [= <- <-]; split; [exact Hs | discriminate].
  - destruct (Hd eq_refl) as (Hp1 & Hr1 & Hm1); apply Hb; assumption.
Qed.

(** A step keeps what holds of other blocks. *)
Lemma heals_triple t pre goal a (frame : list Z -> Prop) :
  heals t pre goal a ->
  (forall img img', (forall b, 0 <= b < n -> b <> t -> blk img' b = blk img b) -> frame img -> frame img') ->
  (forall img, frame img -> pre img) ->
  triple frame a (fun img => frame img /\ goal img).
Proof.
  intros Ha Hf Hpre d r d' Hp Hr Hq He; destruct (Ha d r d' Hp Hr (Hpre _ Hq) He) as [Hs Hd]; split; [exact Hs |].
  intros Hn; destruct (Hd Hn) as (Hpd & Hm & Hg & Hb); split_and!; trivial; [| eapply Hf; eauto].
  apply Hs; split; [exact Hm | auto].
Qed.

Lemma format_minor_valid : sb_format_minor (header cur) = INFS_LOCATOR_FORMAT_MINOR.
Proof.
  pose proof Hvalid as Hv; unfold header_valid, infs_validate_superblock_block_minor in Hv; case_if_in Hv G; [discriminate |].
  rewrite <- (superblock_fields_agree (header cur) cur) in Hv by apply front_agree.
  unfold superblock_fields_ok in Hv; rewrite !andb_true_iff in Hv; apply Z.eqb_eq, Hv.
Qed.

(** The first [k] copies have [cur]. *)
Definition copies (k : nat) (img : list Z) : Prop := forall j, (j < k)%nat -> blk img (position j) = cur.

Lemma copies_frame k t img img' :
  (k <= 3)%nat -> (forall j, (j < k)%nat -> position j <> t) ->
  (forall b, 0 <= b < n -> b <> t -> blk img' b = blk img b) -> copies k img -> copies k img'.
Proof.
  intros Hk Hne Hb Hc j Hj; rewrite Hb; [apply Hc, Hj | apply position_range; trivial; lia | apply Hne, Hj].
Qed.

Lemma heal_copy_triple k :
  (k < 3)%nat -> triple (copies k) (heal_copy n (header cur) cur k) (copies (S k)).
Proof.
  intros Hk d r d' Hp Hr Hq He.
  destruct (heals_triple _ _ _ _ (copies k) (heal_copy_heals k Hk)) with (d := d) (r := r) (d' := d') as [Hs Hd];
    trivial.
  - intros img img' Hb; apply (copies_frame k (position k)); trivial; [lia |].
    intros j Hj; apply (position_distinct n); trivial; lia.
  - split; [exact Hs |]; intros Hn; destruct (Hd Hn) as (Hpd & Hrd & Hc & Hg); split_and!; trivial.
    intros j Hj; destruct (decide (j = k)) as [-> |]; [exact Hg | apply Hc; lia].
Qed.

Lemma position_not_locator l j :
  (l = INFS_LOCATOR_BLOCK_A \/ l = INFS_LOCATOR_BLOCK_B) -> (j < 3)%nat -> position j <> l.
Proof. intros Hl Hj; destruct (position_range n (header cur) j Hmap Hj) as (_ & HA & HB); destruct Hl as [-> | ->]; assumption. Qed.

Lemma copies_zero img : copies 3 img -> blk img 0 = cur.
Proof. intros Hc; rewrite <- (position_zero n (header cur) Hmap); apply Hc; lia. Qed.

Lemma heal_all :
  triple (copies 0)
    (and_then (heal_copy n (header cur) cur 0)
    (and_then (heal_copy n (header cur) cur 1)
    (and_then (heal_copy n (header cur) cur 2)
    (and_then (heal_locator n (header cur) 0) (heal_locator n (header cur) 1)))))
    (fun img => copies 3 img /\ leads img INFS_LOCATOR_BLOCK_A).
Proof.
  do 3 (eapply triple_then; [apply heal_copy_triple; lia |]).
  eapply triple_then.
  - apply (heals_triple _ _ _ _ (copies 3) (heal_locator_heals 0 INFS_LOCATOR_BLOCK_A eq_refl)); [| apply copies_zero].
    intros img img' Hb; apply (copies_frame 3 INFS_LOCATOR_BLOCK_A); trivial.
    intros j Hj; apply position_not_locator; auto.
  - intros d r d' Hp Hr Hq He.
    destruct (heals_triple _ _ _ _ (fun img => copies 3 img /\ leads img INFS_LOCATOR_BLOCK_A)
      (heal_locator_heals 1 INFS_LOCATOR_BLOCK_B eq_refl)) with (d := d) (r := r) (d' := d') as [Hs Hd]; trivial.
    + intros img img' Hb [Hc Hl]; split.
      * apply (copies_frame 3 INFS_LOCATOR_BLOCK_B img); trivial; intros j Hj; apply position_not_locator; auto.
      * unfold leads; rewrite Hb; [exact Hl | | discriminate].
        pose proof (re_medium _ Hr) as [_ _ Hmin _]; unfold INFS_LOCATOR_MIN_VOLUME_BLOCKS, INFS_LOCATOR_BLOCK_A in *; lia.
    + intros img [Hc _]; apply copies_zero, Hc.
    + split; [exact Hs |]; intros Hn; destruct (Hd Hn) as (Hpd & Hrd & Hc & _).
      exact (conj Hpd (conj Hrd Hc)).
Qed.

Lemma healed_anchored img :
  repairable img -> copies 3 img -> leads img INFS_LOCATOR_BLOCK_A -> anchored n img cur.
Proof.
  intros [Hm Hh Hf Hn] Hc (m & Hl & Hb); split; trivial; exists INFS_LOCATOR_BLOCK_A, m; auto.
Qed.

(** C2.  Repairing the checkpoint copies is crash safe.  On a medium whose newest
    superblock [cur] is held by a locator or by block zero, a power loss at any
    point of the repair, whatever the block layer does, leaves a medium on which
    recovery finds [cur]; a repair that reports success leaves all three copies and
    a locator in place and clears the repair flag, and a failed one blocks further
    writes. *)
Theorem heal_crash_safe rdonly promoting flags d r flags' d' :
  pending d = [] -> repairable (durable d) ->
  infilfs_checkpoint_heal n rdonly promoting (header cur) flags d = (r, flags', d') ->
  (forall img, crash_image n d' img ->
   forall C (image : C -> list Z) (s : infs_storage C), served image s img ->
   exists n_copies s', infs_read_best_superblock s (n * block_size) = (Good (header cur, n_copies), s')) /\
  (r = None -> (rdonly = true /\ promoting = false /\ d' = d) \/
     (pending d' = [] /\ anchored n (durable d') cur /\ checkpoint_repair_needed flags' = false)) /\
  (forall e, r = Some e -> (e = ENOMEM /\ flags' = flags) \/ write_poisoned flags' = true).
Proof.
  intros Hp Hr; assert (Hrec : forall d1, safe d1 -> forall img, crash_image n d1 img ->
    forall C (image : C -> list Z) (s : infs_storage C), served image s img ->
    exists n_copies s', infs_read_best_superblock s (n * block_size) = (Good (header cur, n_copies), s')).
  { intros d1 Hs img Hc C image s Hsv; exact (repairable_recovers img image s (Hs img Hc) Hsv). }
  unfold infilfs_checkpoint_heal; case_if_new.
  { intros [= <- <- <-]; split_and!; [apply Hrec, safe_idle; assumption | | discriminate].
    intros _; left; destruct rdonly, promoting; auto; discriminate. }
  destruct (kmalloc d) as [raw d1] eqn:Ek; apply kmalloc_law in Ek as [Hd1 Hp1].
  rewrite <- Hd1 in Hr; rewrite Hp in Hp1; case_if_new.
  { intros [= <- <- <-]; split_and!; [apply Hrec, safe_idle; assumption | discriminate |].
    intros e [= <-]; left; auto. }
  rewrite (encode_header cur (proj1 Hblock) (proj2 Hblock) Hvalid), format_minor_valid, Z.eqb_refl.
  destruct (and_then _ _ d1) as [ret d2] eqn:Ea.
  destruct (heal_all d1 ret d2 Hp1 Hr ltac:(intros j Hj; lia) Ea) as [Hs Hok]; intros [= <- <- <-].
  split_and!; [apply Hrec, Hs | intros ->; right | intros e ->; right; reflexivity].
  destruct (Hok eq_refl) as (Hp2 & Hr2 & Hc & Hl); split_and!; trivial; apply healed_anchored; assumption.
Qed.

End Heal.
(** A damaged backup copy. *)
Lemma damaged_repairable {E : Endian} {P : Platform} n img cur t data :
  anchored n img cur -> write_ok n (t, data) -> t <> 0 -> t <> INFS_LOCATOR_BLOCK_A -> t <> INFS_LOCATOR_BLOCK_B ->
  ~ header_valid data -> repairable n cur (put_block img (t, data)).
Proof.
  intros [Hm Hb Hv Hmap Hc Hl Hf Hn] Hok H0 HA HB Hnv; pose proof Hm as [_ _ Hmin _].
  unfold INFS_LOCATOR_MIN_VOLUME_BLOCKS in Hmin.
  pose proof (fun b => blk_put_ne n img (t, data) b Hm Hok) as Hne; cbn [fst] in Hne.
  split; [apply put_block_medium; assumption | | |].
  - left; rewrite Hne by lia; rewrite <- (position_zero n (header cur) Hmap); apply Hc; lia.
  - intros m; unfold survives; rewrite !Hne by (unfold INFS_LOCATOR_BLOCK_A, INFS_LOCATOR_BLOCK_B in *; lia); apply Hf.
  - intros b Hbn Hvb Hu Hg; destruct (Z.eq_dec b t) as [-> | Hbt].
    + exfalso; apply Hnv; pose proof (blk_put_eq n img (t, data) Hm Hok) as He; cbn [fst snd] in He.
      rewrite He in Hvb; exact Hvb.
    + rewrite (Hne b) in * by (trivial; lia); apply Hn; assumption.
Qed.

(** ** Samples *)

Section Samples.
Import SecurityFacts.
#[local] Existing Instance reference_endian.
#[local] Existing Instance reference_platform.

Abbreviation zeros := (replicate INFS_BLOCK_SIZE 0).

Lemma zeros_invalid : ~ header_valid zeros.
Proof. intros H%header_valid_magic; vm_compute in H; discriminate. Qed.

Lemma zeros_no_locator : locator_of 4096 zeros = None.
Proof. vm_compute; reflexivity. Qed.

(** The last copy of the sample volume is lost. *)
Definition sample_damaged : list Z := put_block sample_anchored (4095, zeros).

Lemma sample_damaged_repairable : repairable 4096 sample_primary sample_damaged.
Proof.
  apply damaged_repairable; [apply sample_is_anchored | | discriminate.. | exact zeros_invalid].
  split; [cbn; lia | split; [apply length_replicate | apply zeros_ok]].
Qed.

Lemma heal_crash_safe_witness :
  exists r flags' d',
    infilfs_checkpoint_heal 4096 false false (header sample_primary) (Flags false true) (Disk sample_damaged [] [])
      = (r, flags', d') /\
    forall img, crash_image 4096 d' img -> forall C (image : C -> list Z) (s : infs_storage C), served image s img ->
    exists n_copies s', infs_read_best_superblock s (4096 * block_size) = (Good (header sample_primary, n_copies), s').
Proof.
  destruct (infilfs_checkpoint_heal 4096 false false (header sample_primary) (Flags false true)
    (Disk sample_damaged [] [])) as [[r flags'] d'] eqn:He; exists r, flags', d'; split; [reflexivity |].
  pose proof sample_is_anchored as Ha.
  exact (proj1 (heal_crash_safe (B := cached_layer) (L := cached_laws) 4096 sample_primary (an_block _ _ _ Ha) (an_valid _ _ _ Ha)
    (an_map _ _ _ Ha) false false (Flags false true) (Disk sample_damaged [] []) r flags' d' eq_refl
    sample_damaged_repairable He)).
Defined.

(** A volume with no locator whose block zero is a generation behind. *)
Definition stale_writes : list (Z * list Z) :=
  [(0, sample_primary); (2048, sample_next); (4095, sample_primary)].

Definition sample_stale : list Z := apply_writes stale_writes (replicate (Z.to_nat (4096 * block_size)) 0).

Lemma empty_medium : medium 4096 (replicate (Z.to_nat (4096 * block_size)) 0).
Proof.
  split; [apply bytes_ok_replicate; split; lia | apply length_replicate | vm_compute; discriminate | eval_decide].
Qed.

Lemma stale_writes_ok : Forall (write_ok 4096) stale_writes.
Proof.
  repeat (apply Forall_cons; split; [split; [cbn; lia | split; [reflexivity | eval_decide]] |]); apply Forall_nil; trivial.
Qed.

Lemma stale_blocks :
  medium 4096 sample_stale /\ blk sample_stale 0 = sample_primary /\ blk sample_stale 2048 = sample_next /\
  blk sample_stale 4095 = sample_primary /\
  forall b, 0 <= b < 4096 -> b <> 0 -> b <> 2048 -> b <> 4095 -> blk sample_stale b = zeros.
Proof.
  pose proof empty_medium as Hm; pose proof stale_writes_ok as Hw.
  assert (Hn : List.NoDup (map fst stale_writes)) by (repeat constructor; cbn; lia).
  assert (Hin : forall b data, In (b, data) stale_writes -> blk sample_stale b = data)
    by (intros b data Hi; exact (blk_apply_in 4096 _ _ b data Hm Hw Hn Hi)).
  split_and!; [apply apply_medium; assumption | apply Hin.. |].
  - left; reflexivity.
  - right; left; reflexivity.
  - right; right; left; reflexivity.
  - intros b Hb H0 H1 H2.
    assert (Hni : ~ In b (map fst stale_writes))
      by (change (map fst stale_writes) with [0; 2048; 4095]; intros [? | [? | [? | []]]]; congruence).
    unfold sample_stale; rewrite (blk_apply_other 4096) by (trivial; lia).
    unfold blk; apply slice_replicate; unfold block_size, INFS_BLOCK_SIZE; lia.
Qed.

(** Its only map is the one of block zero. *)
Lemma stale_survivor m : survives sample_stale 4096 m -> m = primary_map (header sample_primary).
Proof.
  destruct stale_blocks as ([Ho Hl _ _] & H0 & _ & _ & Hz); unfold survives.
  rewrite !(Hz INFS_LOCATOR_BLOCK_A), !(Hz INFS_LOCATOR_BLOCK_B), zeros_no_locator, H0
    by (unfold INFS_LOCATOR_BLOCK_A, INFS_LOCATOR_BLOCK_B; lia).
  intros [Hm | [Hm | Hm]]; [discriminate Hm.. |].
  apply (primary_map_ok sample_primary 4096 m ltac:(reflexivity) ltac:(eval_decide) Hm).
Qed.

Lemma stale_reachable raw : reachable sample_stale 4096 raw -> raw = sample_primary \/ raw = sample_next.
Proof.
  destruct stale_blocks as (_ & H0 & H1 & H2 & _); intros (m & j & Hm & Hj & -> & _).
  rewrite (stale_survivor m Hm), (primary_checkpoint _ j Hj), (sample_position sample_primary 1 j sample_primary_map Hj).
  destruct j as [| [| [| j]]]; [left; exact H0 | right; exact H1 | left; exact H2 | lia].
Qed.

Lemma stale_reaches_next : reachable sample_stale 4096 sample_next.
Proof.
  destruct stale_blocks as (_ & H0 & H1 & _); pose proof sample_is_anchored as Ha; pose proof sample_follows as Hfo.
  exists (primary_map (header sample_primary)), 1%nat; split_and!; [| lia | |].
  - apply primary_survives; [apply Ha | apply Ha | exact H0].
  - assert (Hp : checkpoint (primary_map (header sample_primary)) !!! 1%nat = 2048) by (vm_compute; reflexivity).
    rewrite Hp; symmetry; exact H1.
  - destruct (fo_geometry _ _ _ _ Hfo eq_refl) as [Ht Hc].
    apply (belongs_same _ sample_primary); [apply belongs_primary, Ha | apply Hfo | exact Ht | apply Hfo | exact Hc].
Qed.

(** Recovery finds the newer superblock. *)
Lemma stale_recovers :
  exists copies s', infs_read_best_superblock (ram_storage sample_stale false) (4096 * block_size)
    = (Good (header sample_next, copies), s').
Proof.
  destruct stale_blocks as ([Ho Hl Hmin Hmax] & _).
  destruct (recovery_newest bytes sample_stale 4096 Ho Hl Hmin Hmax (ram_storage sample_stale false) sample_next
    (ram_served _)) as (raw & s' & He & _ & Hraw & Hbest).
  { intros m m' Hm Hm'; rewrite (stale_survivor m Hm), (stale_survivor m' Hm'); reflexivity. }
  { exact stale_reaches_next. }
  pose proof (Hbest sample_next stale_reaches_next) as Hle; pose proof (fo_newer _ _ _ _ sample_follows) as Hlt.
  exists (copies_of sample_stale (header raw) (seq 0 INFS_CHECKPOINT_COUNT)), s'; rewrite He.
  destruct (stale_reachable raw Hraw) as [-> | ->]; [lia | reflexivity].
Qed.

(** The medium when block zero is lost. *)
Definition sample_lost : list Z := put_block sample_stale (0, zeros).

Lemma lost_blocks :
  medium 4096 sample_lost /\ blk sample_lost 0 = zeros /\ blk sample_lost INFS_LOCATOR_BLOCK_A = zeros /\
  blk sample_lost INFS_LOCATOR_BLOCK_B = zeros /\ forall b, 0 <= b -> b <> 0 -> blk sample_lost b = blk sample_stale b.
Proof.
  destruct stale_blocks as (Hm & _ & _ & _ & Hz).
  assert (Hok : write_ok 4096 (0, zeros)) by (split; [cbn; lia | split; [apply length_replicate | apply zeros_ok]]).
  pose proof (fun b => blk_put_ne 4096 sample_stale (0, zeros) b Hm Hok) as Hne.
  split_and!; [exact (put_block_medium _ _ _ Hm Hok) | exact (blk_put_eq 4096 sample_stale (0, zeros) Hm Hok) | | | exact Hne].
  - etransitivity; [apply Hne; discriminate | apply Hz; unfold INFS_LOCATOR_BLOCK_A; lia].
  - etransitivity; [apply Hne; discriminate | apply Hz; unfold INFS_LOCATOR_BLOCK_B; lia].
Qed.

Lemma zeros_no_primary : primary_of_block 4096 zeros = None.
Proof. vm_compute; reflexivity. Qed.

Lemma sample_lost_unrecoverable (s : infs_storage ram) :
  served bytes s sample_lost ->
  exists s', infs_read_best_superblock s (4096 * block_size) = (Bad CORRUPT, s').
Proof.
  destruct lost_blocks as ([Ho Hl Hmin Hmax] & H0 & HA & HB & _); intros Hs.
  destruct (discover_served bytes sample_lost 4096 Ho Hl Hmin Hmax s Hs) as (s' & err & Hd & _).
  assert (Hout : outcome sample_lost 4096 = Bad CORRUPT)
    by (unfold outcome; rewrite H0, HA, HB, zeros_no_locator, zeros_no_primary; reflexivity).
  exists s'; unfold infs_read_best_superblock, infs_locator_discover_019_headers; rewrite Hd, Hout; reflexivity.
Qed.

Lemma stale_heal :
  infilfs_checkpoint_heal 4096 false false (header sample_next) (Flags false true) (Disk sample_stale [] [true])
    = (Some EIO, Flags true true, Disk sample_stale [(0, sample_next)] []).
Proof.
  destruct stale_blocks as (_ & H0 & _).
  assert (Hcopy : heal_copy 4096 (header sample_next) sample_next 0 (Disk sample_stale [] [true]) =
    (Some EIO, Disk sample_stale [(0, sample_next)] [])).
  { assert (Hp : sb_checkpoint_block (header sample_next) 0 = 0) by (vm_compute; reflexivity).
    assert (Hne : bytes_eqb sample_primary sample_next = false) by (vm_compute; reflexivity).
    unfold heal_copy, infilfs_read_block, infilfs_publish_checkpoint, infilfs_checkpoint_write_sync, and_then.
    change (Z.to_nat (Z.of_nat 0)) with 0%nat; rewrite Hp; cbn [Z.geb Z.compare sb_bread cached_layer cache platter].
    change (apply_writes [] sample_stale) with sample_stale; rewrite H0, Hne; reflexivity. }
  unfold infilfs_checkpoint_heal; cbn [andb negb kmalloc cached_layer].
  rewrite encode_header by apply sample_follows; unfold and_then at 1; rewrite Hcopy; reflexivity.
Qed.

(** C40.  The repair relies on a locator.  There is a volume, with no locator left and
    a block zero one generation behind, on which recovery finds the newest
    superblock, but the repair rewrites block zero first, and a power loss that
    destroys that block leaves nothing recovery can find. *)
Theorem heal_can_lose_the_volume :
  exists (d d' : cached_disk) cur img,
    (exists copies s', infs_read_best_superblock (ram_storage (durable d) false) (4096 * block_size)
       = (Good (header cur, copies), s')) /\
    infilfs_checkpoint_heal 4096 false false (header cur) (Flags false true) d = (Some EIO, Flags true true, d') /\
    crash_image 4096 d' img /\
    exists s', infs_read_best_superblock (ram_storage img false) (4096 * block_size) = (Bad CORRUPT, s').
Proof.
  destruct lost_blocks as (Hm & H0 & _ & _ & Hne).
  exists (Disk sample_stale [] [true]), (Disk sample_stale [(0, sample_next)] []), sample_next, sample_lost; split_and!.
  - exact stale_recovers.
  - exact stale_heal.
  - split; [exact Hm |]; intros b Hb; destruct (Z.eq_dec b 0) as [-> | Hb0]; [right | left; apply Hne; lia].
    exists sample_next; split; [left; reflexivity | right; rewrite H0; split; [exact zeros_invalid | exact zeros_no_locator]].
  - apply sample_lost_unrecoverable, ram_served.
Qed.

End Samples.
End HealFacts.
