(* ===== verification/FormatVolume.v ===== *)
(** Volume creation, [src/src/format_volume.c]: the plan of the bootstrap region,
    the allocation bitmap, the first superblock, and the order in which the
    blocks are written and flushed.

    A step that may fail and that changes the storage handle is an [io] action;
    [goto done] is the failure of the bind.  [calloc_ok] is whether the bitmap
    could be allocated.  The checked arithmetic of the [infiltratr] library is
    the interface [CheckedArithmetic].  [size_t] has 64 bits. *)

From stdpp Require Import prelude.
From S2P Require Import Prelude Endian Checksum Format Storage Objects Locator.
#[local] Open Scope Z_scope.

(** * Definitions *)

(** Overflow-checked arithmetic of the [infiltratr] library. *)
Class CheckedArithmetic := {
  infiltratr_u64_add_checked : Z -> Z -> option Z;
  infiltratr_size_add_checked : Z -> Z -> option Z;
  infiltratr_size_multiply_checked : Z -> Z -> option Z;
  u64_add_law a b : fits 64 a -> fits 64 b ->
    infiltratr_u64_add_checked a b = if a + b <? 2 ^ 64 then Some (a + b) else None;
  size_add_law a b : fits 64 a -> fits 64 b ->
    infiltratr_size_add_checked a b = if a + b <? 2 ^ 64 then Some (a + b) else None;
  size_multiply_law a b : fits 64 a -> fits 64 b ->
    infiltratr_size_multiply_checked a b = if a * b <? 2 ^ 64 then Some (a * b) else None
}.

Definition reference_arithmetic : CheckedArithmetic := {|
  infiltratr_u64_add_checked := fun a b => if a + b <? 2 ^ 64 then Some (a + b) else None;
  infiltratr_size_add_checked := fun a b => if a + b <? 2 ^ 64 then Some (a + b) else None;
  infiltratr_size_multiply_checked := fun a b => if a * b <? 2 ^ 64 then Some (a * b) else None;
  u64_add_law := fun _ _ _ _ => eq_refl;
  size_add_law := fun _ _ _ _ => eq_refl;
  size_multiply_law := fun _ _ _ _ => eq_refl
|}.

Module FormatVolume.
Import Storage Objects Locator.

(** ** Storage actions *)

Definition io (C X : Type) : Type := infs_storage C -> result X * infs_storage C.

#[global] Instance io_ret {C} : MRet (io C) := fun X x s => (Good x, s).

#[global] Instance io_bind {C} : MBind (io C) := fun X Y k m s =>
  let '(r, s) := m s in
  match r with Good x => k x s | Bad e => (Bad e, s) end.

(** A computation without effects. *)
Definition pure {C X} (r : result X) : io C X := fun s => (r, s).

(** [if (status != INFS_STATUS_OK) goto done;]. *)
Definition checked {C} (call : infs_storage C -> infs_status * infs_storage C) : io C unit := fun s =>
  let '(e, s) := call s in (if decide (e = OK) then Good tt else Bad e, s).

(** A [for] loop whose body may fail. *)
Fixpoint for_each {C} (indices : list Z) (body : Z -> io C unit) : io C unit :=
  match indices with
  | [] => mret tt
  | i :: rest => _ ← body i; for_each rest body
  end.

(** [for (i = first; i < bound; ++i)]. *)
Definition range (first bound : Z) : list Z := seqZ first (bound - first).

Definition status_of {C} (a : io C unit) (s : infs_storage C) : infs_status * infs_storage C :=
  let '(r, s) := a s in (match r with Good _ => OK | Bad e => e end, s).

(** ** Constants *)

Definition INFS_MIN_SIZE_BYTES : Z := 16 * 1024 * 1024.
Definition INFS_ALLOCATION_TREE_MAX_BLOCKS : Z :=
  INFS_ALLOCATION_TREE_MAX_LEAVES * INFS_ALLOCATION_BITS_PER_LEAF.
Definition INFS_FORMAT_OPTION_REMOVABLE_NAMES_V1 : Z := 0x1.
Definition INFS_FORMAT_OPTION_CASEFOLD_V1 : Z := 0x2.
Definition INFS_KNOWN_FORMAT_OPTIONS : Z :=
  INFS_FORMAT_OPTION_REMOVABLE_NAMES_V1 .| INFS_FORMAT_OPTION_CASEFOLD_V1.
Definition INFS_KNOWN_COMPAT_FLAGS : Z := 0.
Definition INFS_KNOWN_RO_COMPAT_FLAGS : Z := 0.
Definition SIZE_MAX : Z := 2 ^ 64 - 1.

(** The length of a C string. *)
Definition strlen (label : list Z) : nat :=
  match memchr0 label with Some n => n | None => length label end.

(** ** The allocation bitmap *)

Definition formatter_bitmap_set (bitmap : list Z) (block : Z) : list Z :=
  let i := Z.to_nat (block ≫ 3) in
  <[i := u8 ((bitmap !!! i) .| u8 (1 ≪ (block .& 7)))]> bitmap.

(** [(bitmap[block >> 3] >> (block & 7)) & 1]. *)
Definition bitmap_bit (bitmap : list Z) (block : Z) : bool :=
  negb ((((bitmap !!! Z.to_nat (block ≫ 3)) ≫ (block .& 7)) .& 1) =? 0).

Definition formatter_id_is_zero (id : list Z) : bool := bytes_or id =? 0.

(** The ceiling as the code computes it. *)
Definition div_up (a b : Z) : Z := a / b + (if a mod b =? 0 then 0 else 1).

(** The leaves, the pages of level 1 and 2, and all branch pages. *)
Definition formatter_allocation_counts (total : Z) : result (Z * Z * Z * Z) :=
  if (total =? 0) || (total >? INFS_ALLOCATION_TREE_MAX_BLOCKS) then Bad NOT_SUPPORTED
  else
    let leaves := div_up total INFS_ALLOCATION_BITS_PER_LEAF in
    let level1 := div_up leaves INFS_ALLOCATION_TREE_FANOUT in
    let level2 := div_up level1 INFS_ALLOCATION_TREE_FANOUT in
    if (leaves =? 0) || (level1 =? 0) || (level2 =? 0) then Bad CORRUPT
    else Good (leaves, level1, level2, u64 (1 + level1 + level2)).

(** ** The plan *)

(** Where the first metadata of a volume goes. *)
Record plan := Plan {
  p_total : Z; p_leaves : Z; p_level1 : Z; p_level2 : Z; p_branches : Z; p_root : Z
}.

Definition level2_start (p : plan) : Z := u64 (p_root p + 1).
Definition level1_start (p : plan) : Z := u64 (level2_start p + p_level2 p).
Definition leaf_start (p : plan) : Z := u64 (level1_start p + p_level1 p).
Definition index_block (p : plan) : Z := u64 (leaf_start p + p_leaves p).
Definition root_block (p : plan) : Z := u64 (index_block p + 1).
Definition index_page_block (p : plan) : Z := u64 (root_block p + 1).
Definition checkpoints (p : plan) : list Z := [0; p_total p / 2; p_total p - 1].

Definition make_plan (total minor : Z) : result plan :=
  counts ← formatter_allocation_counts total;
  let '(leaves, level1, level2, branches) := counts in
  root ← (if minor =? INFS_LOCATOR_FORMAT_MINOR
          then infs_locator_plan_initial_metadata total (u64 (branches + leaves + 3))
          else Good 1);
  let p := Plan total leaves level1 level2 branches root in
  if index_page_block p >=? checkpoints p !!! 1%nat then Bad NO_SPACE else Good p.

Section Bitmap.
Context {A : CheckedArithmetic}.

(** [bitmap_alloc]. *)
Definition bitmap_size (total : Z) : result Z :=
  match infiltratr_u64_add_checked total 7 with
  | None => Bad OVERFLOW
  | Some bits =>
      match infiltratr_u64_add_checked (bits / 8) (block_size - 1) with
      | None => Bad OVERFLOW
      | Some rounded =>
          let blocks := rounded / block_size in
          if (blocks =? 0) || (blocks >? SIZE_MAX) then Bad OVERFLOW
          else match infiltratr_size_multiply_checked blocks block_size with
               | None => Bad OVERFLOW
               | Some size => Good size
               end
      end
  end.

(** The bits set, in order. *)
Definition bitmap_marks (p : plan) (minor size : Z) : list Z :=
  checkpoints p ++
  (if minor =? INFS_LOCATOR_FORMAT_MINOR then [INFS_LOCATOR_BLOCK_A; INFS_LOCATOR_BLOCK_B] else []) ++
  range (p_root p) (u64 (leaf_start p + p_leaves p)) ++
  [index_block p; root_block p; index_page_block p] ++
  range (p_total p) (u64 (size * 8)).

Definition make_bitmap (p : plan) (minor : Z) (calloc_ok : bool) : result (list Z) :=
  size ← bitmap_size (p_total p);
  if negb calloc_ok then Bad NO_MEMORY
  else Good (fold_left formatter_bitmap_set (bitmap_marks p minor size)
               (replicate (Z.to_nat size) 0)).

End Bitmap.

Definition count_used (bitmap : list Z) (total : Z) : Z :=
  fold_left (fun used block => if bitmap_bit bitmap block then u64 (used + 1) else used)
    (range 0 total) 0.

(** ** Identifiers *)

Section Identifiers.
Context {C : Type}.

Definition collides (id : list Z) (avoid : option (list Z)) : bool :=
  match avoid with Some a => bytes_eqb id a | None => false end.

Fixpoint generate_attempts (attempts : nat) (avoid1 avoid2 : option (list Z)) : io C (list Z) :=
  match attempts with
  | O => pure (Bad IO_ERROR)
  | S attempts' =>
      id ← (fun s => infs_storage_random s 16);
      if formatter_id_is_zero id || collides id avoid1 || collides id avoid2
      then generate_attempts attempts' avoid1 avoid2
      else mret id
  end.

Definition formatter_generate_id (avoid1 avoid2 : option (list Z)) : io C (list Z) :=
  generate_attempts 32 avoid1 avoid2.

(** The identifiers of the filesystem, the root directory and the index. *)
Definition generate_ids : io C (list Z * list Z * list Z) :=
  filesystem_uuid ← formatter_generate_id None None;
  root_id ← formatter_generate_id (Some filesystem_uuid) None;
  index_id ← formatter_generate_id (Some filesystem_uuid) (Some root_id);
  mret (filesystem_uuid, root_id, index_id).

End Identifiers.

Section Format.
Context {E : Endian} {P : Platform} {A : CheckedArithmetic} {C : Type}.

(** ** The first superblock *)

Definition format_incompat_flags (options : Z) : Z :=
  INFS_INCOMPAT_UTF8_NAMES .| INFS_INCOMPAT_SPARSE_EXTENTS .| INFS_INCOMPAT_INLINE_DATA .|
  INFS_INCOMPAT_SHARED_EXTENTS .| INFS_INCOMPAT_PAGED_METADATA .| INFS_INCOMPAT_SYMBOLIC_LINKS .|
  INFS_INCOMPAT_HARD_LINKS .| INFS_INCOMPAT_SNAPSHOTS .| INFS_INCOMPAT_PAGED_EXTENTS .|
  INFS_INCOMPAT_INDEX_TREE .| INFS_INCOMPAT_DIRECTORY_TREE .| INFS_INCOMPAT_ALLOCATION_TREE .|
  INFS_INCOMPAT_COMPRESSED_EXTENTS .| INFS_INCOMPAT_UNICODE_NORM_V1 .|
  INFS_INCOMPAT_PORTABLE_SECURITY .| INFS_INCOMPAT_TYPED_EXTENSIONS .|
  INFS_INCOMPAT_NAMED_STREAMS_V1 .|
  (if negb ((options .& INFS_FORMAT_OPTION_REMOVABLE_NAMES_V1) =? 0)
   then INFS_INCOMPAT_REMOVABLE_NAMES_V1 else 0) .|
  (if negb ((options .& INFS_FORMAT_OPTION_CASEFOLD_V1) =? 0)
   then INFS_INCOMPAT_CASEFOLD_V1 else 0).

(** The 252-byte structure. *)
Definition first_superblock (p : plan) (minor used options : Z) (filesystem_uuid root_id label : list Z)
    : list Z :=
  let sb := replicate sb_size 0 in
  let sb := splice 0 INFS_MAGIC sb in
  let sb := splice 8 (store_le16 INFS_FORMAT_MAJOR) sb in
  let sb := splice 10 (store_le16 minor) sb in
  let sb := splice 12 (store_le16 (Z.of_nat sb_size)) sb in
  let sb := splice 14 (store_le16 INFS_BLOCK_SHIFT) sb in
  let sb := splice 16 (store_le32 INFS_CHECKSUM_CRC64_ECMA) sb in
  let sb := splice 20 (store_le64 1) sb in
  let sb := splice 28 (store_le64 (p_total p)) sb in
  let sb := splice 36 (store_le64 (u64 (p_total p - used))) sb in
  let sb := splice 44 (store_le64 (p_root p)) sb in
  let sb := splice 52 (store_le64 (p_leaves p)) sb in
  let sb := splice 60 (store_le64 (index_block p)) sb in
  let sb := splice 68 (store_le64 (root_block p)) sb in
  let sb := fold_left (fun sb i => splice (76 + 8 * i) (store_le64 (checkpoints p !!! i)) sb)
              (seq 0 INFS_CHECKPOINT_COUNT) sb in
  let sb := splice 100 (take 16 filesystem_uuid) sb in
  let sb := splice 116 (take 16 root_id) sb in
  let sb := splice 132 (store_le64 INFS_KNOWN_COMPAT_FLAGS) sb in
  let sb := splice 140 (store_le64 INFS_KNOWN_RO_COMPAT_FLAGS) sb in
  let sb := splice 148 (store_le64 (format_incompat_flags options)) sb in
  splice 156 (take (strlen label) label) sb.

(** ** Writing *)

Definition write_block (physical_block : Z) (block : list Z) : io C unit :=
  checked (fun s => infs_storage_write s (u64 (physical_block * block_size)) block).

Definition flush_storage : io C unit := checked infs_storage_flush.

Definition allocation_page (magic : list Z) (logical_index level entries : Z)
    (payload : list Z) (bytes : Z) : result (list Z) :=
  block ← infs_allocation_page_init magic 1 logical_index level;
  let block := splice 28 (store_le32 entries) block in
  let block := splice 32 (store_le32 bytes) block in
  infs_allocation_page_finalize (splice apage_size (take (Z.to_nat bytes) payload) block).

Definition formatter_write_allocation_page (physical_block : Z) (magic : list Z)
    (logical_index level entries : Z) (payload : list Z) (bytes : Z) : io C unit :=
  block ← pure (allocation_page magic logical_index level entries payload bytes);
  write_block physical_block block.

(** Invalidate the checkpoints and the locators of an earlier volume. *)
Definition wipe (p : plan) (minor : Z) : io C unit :=
  let block := replicate INFS_BLOCK_SIZE 0 in
  _ ← for_each (checkpoints p) (fun b => write_block b block);
  _ ← (if minor =? INFS_LOCATOR_FORMAT_MINOR then
         _ ← write_block INFS_LOCATOR_BLOCK_A block;
         write_block INFS_LOCATOR_BLOCK_B block
       else mret tt);
  flush_storage.

(** The [remaining > limit ? limit : remaining] of the loops. *)
Definition at_most (limit remaining : Z) : Z := u32 (if remaining >? limit then limit else remaining).

Definition write_leaf (p : plan) (bitmap : list Z) (i : Z) : io C unit :=
  let first_bit := u64 (i * INFS_ALLOCATION_BITS_PER_LEAF) in
  let valid_bits := at_most INFS_ALLOCATION_BITS_PER_LEAF (u64 (p_total p - first_bit)) in
  let bytes := u32 (valid_bits + 7) / 8 in
  let offset := u64 (i * INFS_ALLOCATION_PAGE_DATA_SIZE) in
  formatter_write_allocation_page (u64 (leaf_start p + i)) INFS_ALLOCATION_LEAF_PAGE_MAGIC
    i 0 valid_bits (drop (Z.to_nat offset) bitmap) bytes.

(** The pointers to [entries] blocks from [first] on. *)
Definition pointers (first entries : Z) : list Z :=
  concat (map (fun j => store_le64 (u64 (first + j))) (range 0 entries)).

(** Page [i] of a branch level over [count] children from [child_start] on. *)
Definition write_branch (start level child_start count i : Z) : io C unit :=
  let first := u64 (i * INFS_ALLOCATION_TREE_FANOUT) in
  let entries := at_most INFS_ALLOCATION_TREE_FANOUT (u64 (count - first)) in
  formatter_write_allocation_page (u64 (start + i)) INFS_ALLOCATION_BRANCH_PAGE_MAGIC
    i level entries (pointers (u64 (child_start + first)) entries) (u32 (entries * 8)).

Definition write_allocation_root (p : plan) : io C unit :=
  let entries := u32 (p_level2 p) in
  formatter_write_allocation_page (p_root p) INFS_ALLOCATION_BRANCH_PAGE_MAGIC
    0 INFS_ALLOCATION_TREE_ROOT_LEVEL entries (pointers (level2_start p) entries) (u32 (entries * 8)).

Definition write_allocation_tree (p : plan) (bitmap : list Z) : io C unit :=
  _ ← for_each (range 0 (p_leaves p)) (write_leaf p bitmap);
  _ ← for_each (range 0 (p_level1 p)) (write_branch (level1_start p) 1 (leaf_start p) (p_leaves p));
  _ ← for_each (range 0 (p_level2 p)) (write_branch (level2_start p) 2 (level1_start p) (p_level1 p));
  write_allocation_root p.

(** The one page of the object index, with its one entry. *)
Definition index_page (p : plan) (root_id index_id : list Z) : result (list Z) :=
  block ← infs_metadata_page_init INFS_INDEX_PAGE_MAGIC index_id 1;
  let block := splice page_size (replicate (sizeof index_entry_layout) 0) block in
  let block := splice page_size (take 16 root_id) block in
  let block := splice (page_size + 16) (store_le64 (root_block p)) block in
  let block := splice (page_size + 24) (store_le16 INFS_OBJECT_DIRECTORY) block in
  let block := splice 32 (store_le32 1) block in
  let block := splice 36 (store_le32 (sz index_entry_layout)) block in
  infs_metadata_page_finalize block.

Definition write_objects (p : plan) (root_id index_id : list Z) (root_uid root_gid : Z)
    (now : infs_timestamp) : io C unit :=
  page ← pure (index_page p root_id index_id);
  _ ← write_block (index_page_block p) page;
  index ← pure (infs_encode_tree_object_index index_id 1 (index_page_block p) 1);
  _ ← write_block (index_block p) index;
  root ← pure (infs_encode_tree_root_directory root_id 1 493 root_uid root_gid
                 (seconds now, nanoseconds now));
  _ ← write_block (root_block p) root;
  flush_storage.

(** Publish the locators, then the checkpoints one after the other. *)
Definition first_locator (p : plan) (filesystem_uuid : list Z) : infs_locator :=
  Loc 1 (p_total p) (checkpoints p) (take 16 filesystem_uuid).

Definition publish (p : plan) (minor : Z) (filesystem_uuid sb : list Z) : io C unit :=
  block ← pure (infs_encode_superblock sb);
  block ← (if minor =? INFS_LOCATOR_FORMAT_MINOR then
             locator ← pure (infs_locator_encode (first_locator p filesystem_uuid));
             _ ← write_block INFS_LOCATOR_BLOCK_A locator;
             _ ← write_block INFS_LOCATOR_BLOCK_B locator;
             _ ← flush_storage;
             pure (infs_encode_superblock sb)
           else mret block);
  _ ← for_each (checkpoints p) (fun b =>
        _ ← write_block b block;
        if minor =? INFS_LOCATOR_FORMAT_MINOR then flush_storage else mret tt);
  flush_storage.

(** ** Formatting *)

(** The callbacks the formatter calls. *)
Definition can_format (s : infs_storage C) : bool :=
  infs_storage_valid s &&
  match ops s with
  | Some o => bool_decide (is_Some (write_at o)) && bool_decide (is_Some (flush o)) &&
              bool_decide (is_Some (random_bytes o)) && bool_decide (is_Some (current_time o))
  | None => false
  end.

(** The size of a volume that may be formatted. *)
Definition accept_size (s : infs_storage C) : result Z :=
  size ← infs_storage_get_size s;
  if negb (size.1 mod block_size =? 0) then Bad INVALID_ARGUMENT
  else if size.1 <? INFS_MIN_SIZE_BYTES then Bad NO_SPACE
  else Good size.1.

Definition accept_label (label : list Z) : result unit :=
  if decide (INFS_LABEL_MAX <= strlen label)%nat then Bad NAME_TOO_LONG
  else if negb (infs_utf8_validate (take (strlen label) label)) then Bad INVALID_ARGUMENT
  else Good tt.

(** What is decided before the medium is touched: the plan and the bitmap. *)
Definition prepare (s : infs_storage C) (label : list Z) (options minor : Z) (calloc_ok : bool)
    : result (plan * list Z) :=
  if negb (minor =? INFS_FORMAT_MINOR) && negb (minor =? INFS_LOCATOR_FORMAT_MINOR)
  then Bad INVALID_ARGUMENT
  else if negb (Z.ldiff options INFS_KNOWN_FORMAT_OPTIONS =? 0) then Bad INVALID_ARGUMENT
  else if negb (can_format s) then Bad INVALID_ARGUMENT
  else
    _ ← accept_label label;
    size_bytes ← accept_size s;
    p ← make_plan (size_bytes / block_size) minor;
    bitmap ← make_bitmap p minor calloc_ok;
    Good (p, bitmap).

Definition format_storage_development (label : list Z) (options minor root_uid root_gid : Z)
    (calloc_ok : bool) (s : infs_storage C) : infs_status * infs_storage C :=
  status_of
    (prepared ← (fun s => (prepare s label options minor calloc_ok, s));
     let '(p, bitmap) := prepared in
     ids ← generate_ids;
     let '(filesystem_uuid, root_id, index_id) := ids in
     root_time ← infs_storage_current_time;
     let sb := first_superblock p minor (count_used bitmap (p_total p)) options
                 filesystem_uuid root_id label in
     _ ← wipe p minor;
     _ ← write_allocation_tree p bitmap;
     _ ← write_objects p root_id index_id root_uid root_gid root_time;
     publish p minor filesystem_uuid sb) s.

Definition infs_format_storage_with_options (label : list Z) (options : Z) (calloc_ok : bool) :=
  format_storage_development label options INFS_FORMAT_MINOR 0 0 calloc_ok.

Definition infs_format_storage_with_root_owner (label : list Z) (options root_uid root_gid : Z)
    (calloc_ok : bool) :=
  format_storage_development label options INFS_FORMAT_MINOR root_uid root_gid calloc_ok.

Definition infs_format_storage_019_test_image (label : list Z) (calloc_ok : bool)
    (s : infs_storage C) : infs_status * infs_storage C :=
  match infs_storage_get_size s with
  | Bad e => (e, s)
  | Good (_, device) =>
      if device : bool then (NOT_SUPPORTED, s)
      else format_storage_development label 0 INFS_LOCATOR_FORMAT_MINOR 0 0 calloc_ok s
  end.

Definition infs_format_storage (label : list Z) (calloc_ok : bool) :=
  infs_format_storage_with_options label 0 calloc_ok.

End Format.
End FormatVolume.
