(* ===== verification/FormatPlan.v ===== *)
(** Facts about the plan of a new volume ([FormatVolume.v]): every volume of a
    supported size can be laid out, the regions do not overlap, and the bitmap
    marks exactly the blocks in use. *)

From Stdlib Require Import ZifyBool.
From stdpp Require Import prelude.
From S2P Require Import Prelude Endian Checksum Format Storage Objects Locator Kernel KernelMount FormatVolume.

#[local] Open Scope Z_scope.

Module FormatPlanFacts.
Import Storage Objects Locator FormatVolume.

(** ** Counts *)

Lemma div_up_spec a b :
  0 < a -> 0 < b -> 0 < div_up a b /\ (div_up a b - 1) * b < a <= div_up a b * b.
Proof.
  intros Ha Hb; unfold div_up.
  pose proof (Z.div_mod a b ltac:(lia)); pose proof (Z.mod_pos_bound a b Hb).
  destruct (Z.eqb_spec (a mod b) 0); nia.
Qed.

Lemma div_up_round a b : 0 < a -> 0 < b -> a + b < 2 ^ 64 -> div_up a b = u64 (a + b - 1) / b.
Proof.
  intros Ha Hb Hs; rewrite wrap_small by (unfold fits; lia).
  destruct (div_up_spec a b Ha Hb) as [? ?].
  apply (Z.div_unique_pos _ _ _ (a + b - 1 - div_up a b * b)); nia.
Qed.

(** The sizes a volume may have. *)
Definition supported (n : Z) : Prop :=
  INFS_LOCATOR_MIN_VOLUME_BLOCKS <= n <= INFS_ALLOCATION_TREE_MAX_BLOCKS.

(** The counts, and the bounds that make every page fit its fanout. *)
Record counted (n leaves level1 level2 : Z) : Prop := {
  cn_leaves : (leaves - 1) * 32192 < n <= leaves * 32192;
  cn_level1 : (level1 - 1) * 503 < leaves <= level1 * 503;
  cn_level2 : (level2 - 1) * 503 < level1 <= level2 * 503;
  cn_root : 0 < level2 <= 503
}.

Lemma capacity_values :
  INFS_ALLOCATION_BITS_PER_LEAF = 32192 /\ INFS_ALLOCATION_TREE_FANOUT = 503 /\
  INFS_ALLOCATION_PAGE_DATA_SIZE = 4024 /\
  INFS_ALLOCATION_TREE_MAX_BLOCKS = 503 * 503 * 503 * 32192.
Proof. split_and!; reflexivity. Qed.

Ltac capacities :=
  destruct capacity_values as (Hbits & Hfanout & Hdata & Hmaxb);
  unfold supported, INFS_LOCATOR_MIN_VOLUME_BLOCKS in *; rewrite ?Hbits, ?Hfanout, ?Hdata, ?Hmaxb in *.

Lemma supported_bounds n : supported n -> 4096 <= n <= 503 * 503 * 503 * 32192.
Proof. intros Hn; capacities; lia. Qed.

Lemma counts_supported n :
  supported n ->
  exists leaves level1 level2, counted n leaves level1 level2 /\
    formatter_allocation_counts n = Good (leaves, level1, level2, 1 + level1 + level2).
Proof.
  intros Hn; unfold formatter_allocation_counts; capacities.
  destruct (div_up_spec n 32192) as [HL HLb]; [lia | lia |].
  destruct (div_up_spec _ 503 HL) as [H1 H1b]; [lia |].
  destruct (div_up_spec _ 503 H1) as [H2 H2b]; [lia |].
  revert HL HLb H1 H1b H2 H2b.
  generalize (div_up n 32192); intros leaves; generalize (div_up leaves 503); intros level1.
  generalize (div_up level1 503); intros level2; intros.
  exists leaves, level1, level2; split; [split; lia |].
  do 2 (destruct (_ || _)%bool eqn:E; [lia |]; clear E).
  rewrite wrap_small; [reflexivity | unfold fits; lia].
Qed.

(** ** The plan *)

Record planned (n : Z) (p : plan) : Prop := {
  pl_total : p_total p = n;
  pl_counted : counted n (p_leaves p) (p_level1 p) (p_level2 p);
  pl_root : p_root p = 2 \/ p_root p = 2048;
  pl_low : p_root p = 2 -> p_root p + p_level2 p + p_level1 p + p_leaves p + 3 < 2047;
  pl_high : p_root p + p_level2 p + p_level1 p + p_leaves p + 3 < n / 2;
  pl_level2 : level2_start p = p_root p + 1;
  pl_level1 : level1_start p = p_root p + 1 + p_level2 p;
  pl_leaf : leaf_start p = p_root p + 1 + p_level2 p + p_level1 p;
  pl_index : index_block p = p_root p + 1 + p_level2 p + p_level1 p + p_leaves p;
  pl_dir : root_block p = p_root p + 2 + p_level2 p + p_level1 p + p_leaves p;
  pl_page : index_page_block p = p_root p + 3 + p_level2 p + p_level1 p + p_leaves p
}.

Lemma plan_starts n leaves level1 level2 branches root :
  supported n -> counted n leaves level1 level2 -> root = 2 \/ root = 2048 ->
  let p := Plan n leaves level1 level2 branches root in
  level2_start p = root + 1 /\ level1_start p = root + 1 + level2 /\
  leaf_start p = root + 1 + level2 + level1 /\ index_block p = root + 1 + level2 + level1 + leaves /\
  root_block p = root + 2 + level2 + level1 + leaves /\
  index_page_block p = root + 3 + level2 + level1 + leaves.
Proof.
  intros Hn [] Hr p; capacities.
  assert (H2 : level2_start p = root + 1) by (unfold level2_start, p; cbn; apply wrap_small; unfold fits; lia).
  assert (H1 : level1_start p = root + 1 + level2)
    by (unfold level1_start; rewrite H2; apply wrap_small; unfold fits; cbn; lia).
  assert (H0 : leaf_start p = root + 1 + level2 + level1)
    by (unfold leaf_start; rewrite H1; apply wrap_small; unfold fits; cbn; lia).
  assert (Hi : index_block p = root + 1 + level2 + level1 + leaves)
    by (unfold index_block; rewrite H0; apply wrap_small; unfold fits; cbn; lia).
  assert (Hd : root_block p = root + 2 + level2 + level1 + leaves)
    by (unfold root_block; rewrite Hi, wrap_small; unfold fits; lia).
  split_and!; trivial; unfold index_page_block; rewrite Hd, wrap_small; unfold fits; lia.
Qed.

Lemma plan_supported n :
  supported n -> exists p, make_plan n INFS_LOCATOR_FORMAT_MINOR = Good p /\ planned n p.
Proof.
  intros Hn; destruct (counts_supported n Hn) as (leaves & level1 & level2 & Hc & He).
  unfold make_plan; rewrite He; cbn [mbind result_bind Z.eqb].
  assert (Hsum : u64 (1 + level1 + level2 + leaves + 3) = 4 + level1 + level2 + leaves).
  { destruct Hc; capacities; rewrite wrap_small; unfold fits; lia. }
  change (INFS_LOCATOR_FORMAT_MINOR =? INFS_LOCATOR_FORMAT_MINOR) with true; cbv iota; rewrite Hsum.
  assert (Hroot : exists root, infs_locator_plan_initial_metadata n (4 + level1 + level2 + leaves) = Good root /\
    (root = 2 \/ root = 2048) /\ (root = 2 -> root + level2 + level1 + leaves + 3 < 2047) /\
    root + level2 + level1 + leaves + 3 < n / 2).
  { destruct Hc; capacities; unfold infs_locator_plan_initial_metadata, INFS_LOCATOR_MIN_VOLUME_BLOCKS, INFS_LOCATOR_BLOCK_B.
    pose proof (Z.div_mod n 2 ltac:(lia)); pose proof (Z.mod_pos_bound n 2 ltac:(lia)).
    rewrite !wrap_small by (unfold fits; lia).
    destruct (_ || _)%bool eqn:E1; [lia |]; clear E1.
    destruct (_ && _)%bool eqn:E2; [exists 2; split; [reflexivity | lia] |].
    destruct (_ && _)%bool eqn:E3 in |- *; [exists 2048; split; [reflexivity | lia] | lia]. }
  destruct Hroot as (root & -> & Hr & Hlow & Hhigh); cbn [mbind result_bind].
  set (p := Plan n leaves level1 level2 _ root).
  destruct (plan_starts n leaves level1 level2 (1 + level1 + level2) root Hn Hc Hr) as (? & ? & ? & ? & ? & Hp).
  exists p; fold p in Hp; split; [| split; trivial].
  replace (_ >=? _) with false; [reflexivity |]; rewrite Hp; unfold p, checkpoints; cbn [lookup_total list_lookup_total p_total]; lia.
Qed.

(** ** The bitmap *)

Lemma low_bits b : 0 <= b -> (b .& 7) = b mod 8 /\ b ≫ 3 = b / 8.
Proof.
  intros; split; [change 7 with (Z.ones 3); rewrite Z.land_ones by lia; reflexivity |].
  apply Z.shiftr_div_pow2; lia.
Qed.

Lemma bitmap_bit_testbit bm b :
  0 <= b -> bitmap_bit bm b = Z.testbit (bm !!! Z.to_nat (b / 8)) (b mod 8).
Proof.
  intros Hb; unfold bitmap_bit; destruct (low_bits b Hb) as [-> ->].
  pose proof (Z.mod_pos_bound b 8 ltac:(lia)).
  change 1 with (Z.ones 1); rewrite Z.land_ones by lia; change (2 ^ 1) with 2.
  rewrite <- Z.bit0_mod, shr_testbit, Z.add_0_l by lia.
  destruct (Z.testbit _ _); reflexivity.
Qed.

Lemma formatter_set_length bm b : length (formatter_bitmap_set bm b) = length bm.
Proof. apply length_insert. Qed.

Lemma formatter_set_ok bm b : bytes_ok bm -> bytes_ok (formatter_bitmap_set bm b).
Proof. intros; apply Forall_insert; [assumption | apply wrap_range; lia]. Qed.

Lemma bitmap_set_bit bm b x :
  bytes_ok bm -> 0 <= b < 8 * Z.of_nat (length bm) -> 0 <= x ->
  bitmap_bit (formatter_bitmap_set bm b) x = (b =? x) || bitmap_bit bm x.
Proof.
  intros Hok Hb Hx; rewrite !bitmap_bit_testbit by lia; unfold formatter_bitmap_set.
  destruct (low_bits b ltac:(lia)) as [-> ->].
  pose proof (Z.mod_pos_bound b 8 ltac:(lia)); pose proof (Z.mod_pos_bound x 8 ltac:(lia)).
  pose proof (Z.div_mod b 8 ltac:(lia)); pose proof (Z.div_mod x 8 ltac:(lia)).
  destruct (decide (x / 8 = b / 8)) as [Hd | Hd].
  - rewrite Hd, list_lookup_total_insert_eq by lia.
    rewrite !wrap_testbit, Z.lor_spec, wrap_testbit by lia.
    replace (x mod 8 <? 8) with true by lia; rewrite !andb_true_l.
    rewrite shl_testbit, orb_comm by lia; f_equal.
    destruct (Z.eqb_spec b x) as [-> | Hne]; [rewrite Z.sub_diag; reflexivity |].
    destruct (x mod 8 - b mod 8) eqn:Ed; [lia | destruct p; reflexivity | reflexivity].
  - rewrite list_lookup_total_insert_ne by lia.
    destruct (Z.eqb_spec b x); [subst; contradiction | reflexivity].
Qed.

(** Setting a list of bits sets these bits and no others. *)
Lemma bitmap_marks_bit marks bm x :
  bytes_ok bm -> Forall (fun b => 0 <= b < 8 * Z.of_nat (length bm)) marks -> 0 <= x ->
  bitmap_bit (fold_left formatter_bitmap_set marks bm) x = bool_decide (x ∈ marks) || bitmap_bit bm x.
Proof.
  intros Hok Hm Hx; revert bm Hok Hm; induction marks as [| b marks IH]; intros bm Hok Hm.
  { rewrite bool_decide_false by (intros H; inversion H); reflexivity. }
  apply Forall_cons in Hm as [Hb Hm]; cbn [fold_left].
  rewrite IH; [| apply formatter_set_ok, Hok | rewrite formatter_set_length; exact Hm].
  rewrite bitmap_set_bit by assumption; rewrite orb_assoc; f_equal.
  rewrite (bool_decide_ext (x ∈ b :: marks) (b = x \/ x ∈ marks)) by (rewrite elem_of_cons; intuition congruence).
  rewrite bool_decide_or, (bool_decide_ext (b = x) ((b =? x) = true)) by (symmetry; apply Z.eqb_eq).
  destruct (b =? x), (bool_decide (x ∈ marks)); reflexivity.
Qed.

Lemma bitmap_marks_ok marks bm :
  bytes_ok bm -> bytes_ok (fold_left formatter_bitmap_set marks bm) /\
  length (fold_left formatter_bitmap_set marks bm) = length bm.
Proof.
  revert bm; induction marks as [| b marks IH]; intros bm Hok; [split; trivial |]; cbn [fold_left].
  destruct (IH (formatter_bitmap_set bm b) (formatter_set_ok _ _ Hok)) as [? ->].
  split; [assumption | apply formatter_set_length].
Qed.

(** The blocks a new volume uses. *)
Definition reserved (p : plan) (b : Z) : Prop :=
  b ∈ checkpoints p \/ b = INFS_LOCATOR_BLOCK_A \/ b = INFS_LOCATOR_BLOCK_B \/
  p_root p <= b <= index_page_block p.

#[global] Instance reserved_dec p b : Decision (reserved p b).
Proof. unfold reserved; apply _. Defined.

Section Bitmap.
Context {A : CheckedArithmetic} (n : Z) (p : plan).
Hypothesis Hn : supported n.
Hypothesis Hp : planned n p.

Lemma bitmap_size_ok :
  exists size, bitmap_size n = Good size /\ n <= 8 * size < 2 ^ 63 /\ 4096 <= size.
Proof.
  unfold bitmap_size; capacities; rewrite u64_add_law by (unfold fits; lia).
  replace (n + 7 <? 2 ^ 64) with true by lia.
  pose proof (Z.div_mod (n + 7) 8 ltac:(lia)); pose proof (Z.mod_pos_bound (n + 7) 8 ltac:(lia)).
  unfold block_size; rewrite u64_add_law by (unfold fits; lia).
  replace (_ <? 2 ^ 64) with true by lia.
  set (r := (n + 7) / 8) in *; set (k := (r + (4096 - 1)) / 4096).
  pose proof (Z.div_mod (r + (4096 - 1)) 4096 ltac:(lia)); pose proof (Z.mod_pos_bound (r + (4096 - 1)) 4096 ltac:(lia)).
  fold k in H1; destruct (_ || _)%bool eqn:E1; [unfold SIZE_MAX in E1; lia |].
  rewrite size_multiply_law by (unfold fits; lia).
  replace (_ <? 2 ^ 64) with true by lia; exists (k * 4096); split; [reflexivity | lia].
Qed.

Lemma range_in a b x : x ∈ range a b <-> a <= x < b.
Proof. unfold range; rewrite elem_of_seqZ; lia. Qed.

Lemma marks_in size x :
  n <= 8 * size < 2 ^ 63 ->
  x ∈ bitmap_marks p INFS_LOCATOR_FORMAT_MINOR size <-> reserved p x \/ n <= x < 8 * size.
Proof.
  intros Hs; destruct Hp; unfold bitmap_marks, reserved, checkpoints; capacities.
  change (INFS_LOCATOR_FORMAT_MINOR =? INFS_LOCATOR_FORMAT_MINOR) with true; cbv iota.
  rewrite !elem_of_app, !range_in, !elem_of_cons, elem_of_nil; fold (index_block p).
  rewrite (wrap_small 64 (size * 8)) by (unfold fits; lia).
  rewrite pl_index0, pl_dir0, pl_page0, pl_total0; destruct pl_counted0; lia.
Qed.

Lemma reserved_range b : reserved p b -> 0 <= b < n.
Proof.
  destruct Hp, pl_counted0; unfold reserved, checkpoints, INFS_LOCATOR_BLOCK_A, INFS_LOCATOR_BLOCK_B; capacities.
  pose proof (Z.div_mod n 2 ltac:(lia)); pose proof (Z.mod_pos_bound n 2 ltac:(lia)).
  rewrite pl_total0, pl_page0, !elem_of_cons, elem_of_nil; lia.
Qed.

(** The bitmap of a new volume marks the blocks in use and nothing else. *)
Lemma make_bitmap_ok :
  exists bm, make_bitmap p INFS_LOCATOR_FORMAT_MINOR true = Good bm /\ bytes_ok bm /\
    n <= 8 * Z.of_nat (length bm) /\
    forall b, 0 <= b < n -> bitmap_bit bm b = bool_decide (reserved p b).
Proof.
  destruct bitmap_size_ok as (size & Hs & Hbound & Hmin).
  unfold make_bitmap; rewrite (pl_total _ _ Hp), Hs; cbn [mbind result_bind negb].
  set (z := replicate (Z.to_nat size) 0); set (marks := bitmap_marks _ _ _).
  assert (Hz : length z = Z.to_nat size) by apply length_replicate.
  assert (Hzok : bytes_ok z) by (apply bytes_ok_replicate; split; reflexivity || lia).
  destruct (bitmap_marks_ok marks z Hzok) as [Hok Hl]; eexists; split; [reflexivity |].
  rewrite Hl, Hz; split_and!; [exact Hok | lia |]; intros b Hb.
  rewrite bitmap_marks_bit; [| exact Hzok | | lia].
  2: { apply Forall_forall; intros x [Hx%reserved_range | Hx]%(marks_in size x Hbound); lia. }
  rewrite (bitmap_bit_testbit z) by lia; unfold z; rewrite lookup_total_replicate_2.
  - rewrite Z.testbit_0_l, orb_false_r; apply bool_decide_ext.
    etransitivity; [apply (marks_in size b Hbound) |]; split; [intros [H | H]; [exact H | lia] | auto].
  - pose proof (Z.div_lt_upper_bound b 8 size); pose proof (Z.div_pos b 8); lia.
Qed.

(** ** The free blocks *)

(** The blocks of a list that a bitmap marks. *)
Definition marked (bm : list Z) (blocks : list Z) : Z :=
  Z.of_nat (length (List.filter (bitmap_bit bm) blocks)).

Lemma count_used_eq bm : count_used bm n = marked bm (range 0 n).
Proof.
  unfold count_used, marked, range; rewrite Z.sub_0_r; capacities.
  assert (Hgen : forall blocks used, 0 <= used -> used + Z.of_nat (length blocks) < 2 ^ 64 ->
    fold_left (fun used block => if bitmap_bit bm block then u64 (used + 1) else used) blocks used =
    used + Z.of_nat (length (List.filter (bitmap_bit bm) blocks))).
  { induction blocks as [| b blocks IH]; intros used Hu Hl; cbn [fold_left List.filter length] in *; [lia |].
    destruct (bitmap_bit bm b); [| apply IH; lia].
    rewrite wrap_small by (unfold fits; lia); rewrite IH by lia; cbn [length]; lia. }
  rewrite Hgen; [lia | lia | rewrite length_seqZ; lia].
Qed.

(** The blocks in use, each once. *)
Definition used_list : list Z :=
  [0; INFS_LOCATOR_BLOCK_A; INFS_LOCATOR_BLOCK_B; n / 2; n - 1] ++
  range (p_root p) (index_page_block p + 1).

Lemma used_list_in b : b ∈ used_list <-> reserved p b.
Proof.
  destruct Hp; unfold used_list, reserved, checkpoints.
  rewrite elem_of_app, range_in, !elem_of_cons, elem_of_nil, pl_total0; lia.
Qed.

Lemma used_list_nodup : NoDup used_list.
Proof.
  destruct Hp, pl_counted0; unfold used_list, INFS_LOCATOR_BLOCK_A, INFS_LOCATOR_BLOCK_B; capacities.
  pose proof (Z.div_mod n 2 ltac:(lia)); pose proof (Z.mod_pos_bound n 2 ltac:(lia)).
  apply NoDup_app; split_and!; [| | apply NoDup_seqZ].
  - repeat constructor; rewrite ?elem_of_cons, elem_of_nil; lia.
  - intros b; rewrite range_in, !elem_of_cons, elem_of_nil, pl_page0; lia.
Qed.

Lemma used_list_length : Z.of_nat (length used_list) = p_leaves p + p_level1 p + p_level2 p + 9.
Proof.
  destruct Hp, pl_counted0; unfold used_list, range; rewrite length_app, length_seqZ, pl_page0; cbn [length].
  lia.
Qed.

(** What a new volume marks: five fixed blocks and the bootstrap region. *)
Lemma marked_new bm :
  (forall b, 0 <= b < n -> bitmap_bit bm b = bool_decide (reserved p b)) ->
  marked bm (range 0 n) = p_leaves p + p_level1 p + p_level2 p + 9.
Proof.
  intros Hbits; rewrite <- used_list_length; unfold marked; f_equal; apply Permutation_length.
  apply NoDup_Permutation; [| apply used_list_nodup |].
  - apply NoDup_ListNoDup, List.NoDup_filter, NoDup_ListNoDup, NoDup_seqZ.
  - intros b; rewrite used_list_in, list_elem_of_In, filter_In, <- list_elem_of_In.
    rewrite range_in; split.
    + intros [Hb Ht]; rewrite Hbits in Ht by lia; apply bool_decide_eq_true in Ht; exact Ht.
    + intros Hr; pose proof (reserved_range b Hr); split; [lia |].
      rewrite Hbits by lia; apply bool_decide_eq_true, Hr.
Qed.

End Bitmap.

End FormatPlanFacts.
