(* ===== verification/Formatting.v ===== *)
(** Formatting a device ([FormatVolume.v]): on a device that takes its writes the
    formatter succeeds for every supported size, and what it leaves is a volume
    that recovery finds, whose allocation tree describes exactly the blocks in
    use. *)

From Stdlib Require Import ZifyBool.
From stdpp Require Import prelude.
From S2P Require Import Prelude Endian Checksum Format Storage Objects Locator Discovery Checkpoint.
From S2P Require Import Crash FormatVolume FormatPlan.
#[local] Open Scope Z_scope.

Module FormattingFacts.
Import Storage Objects Locator ObjectsFacts StorageFacts LocatorFacts DiscoveryFacts Checkpoint CrashFacts
  FormatVolume FormatPlanFacts.

(** ** A device that takes its writes *)

Section Accepts.
Context {C : Type} (image : C -> list Z).

(** Reads and writes inside the medium succeed, flushes succeed, the size is that
    of the medium, random bytes are bytes, and the clock gives a valid time;
    [healthy] are the contexts these calls lead to. *)
Record obliging (o : infs_storage_ops C) (healthy : C -> Prop) : Prop := {
  ob_read : exists f, read_at o = Some f /\ forall c off k, healthy c -> 0 <= off ->
    (Z.to_nat off + k <= length (image c))%nat ->
    exists c', f c off k = (Good (slice (Z.to_nat off) k (image c)), c') /\ image c' = image c /\ healthy c';
  ob_write : exists f, write_at o = Some f /\ forall c off bs, healthy c -> 0 <= off ->
    (Z.to_nat off + length bs <= length (image c))%nat ->
    exists c', f c off bs = (OK, c') /\ image c' = splice (Z.to_nat off) bs (image c) /\ healthy c';
  ob_flush : exists f, flush o = Some f /\ forall c, healthy c ->
    exists c', f c = (OK, c') /\ image c' = image c /\ healthy c';
  ob_size : exists f, get_size o = Some f /\ forall c, healthy c ->
    exists device, f c = Good (Z.of_nat (length (image c)), device);
  ob_random : exists f, random_bytes o = Some f /\ forall c k r c', healthy c -> f c k = (r, c') ->
    image c' = image c /\ healthy c' /\ forall bs, r = Good bs -> length bs = k /\ bytes_ok bs;
  ob_time : exists f, current_time o = Some f /\ forall c, healthy c ->
    exists t c', f c = (Good t, c') /\ infs_timestamp_valid t = true /\ image c' = image c /\ healthy c'
}.

Definition accepts (s : infs_storage C) (img : list Z) : Prop :=
  exists o c healthy, ops s = Some o /\ context s = Some c /\ image c = img /\ healthy c /\
    obliging o healthy.

Lemma accepts_served s img : accepts s img -> served image s img.
Proof.
  intros (o & c & G & Ho & Hc & Hi & HG & [(f & Hf & Hr) _ _ (g & Hg & _) _ _]).
  exists o, c, f, g, G; split_and!; trivial.
Qed.

Lemma accepts_valid s img : accepts s img -> infs_storage_valid s = true.
Proof. intros H%accepts_served; eapply served_valid, H. Qed.

(** A call of a callback the table has. *)
Lemma dispatch_call {F X} (s : infs_storage C) img (bad : X) (find : infs_storage_ops C -> option F)
    (call : F -> C -> X * C) o c f r c' :
  accepts s img -> ops s = Some o -> context s = Some c -> find o = Some f -> call f c = (r, c') ->
  dispatch s bad find call = (r, with_context s c').
Proof.
  intros Ha Ho Hc Hf Hr; unfold dispatch; rewrite Ho, Hc, (accepts_valid _ _ Ha), Hf, Hr; reflexivity.
Qed.

Lemma accepts_with_context s o c' (healthy : C -> Prop) :
  ops s = Some o -> healthy c' -> obliging o healthy -> accepts (with_context s c') (image c').
Proof. intros Ho HG Hob; exists o, c', healthy; split_and!; trivial. Qed.

Lemma accepts_write s img off bs :
  accepts s img -> 0 <= off -> (Z.to_nat off + length bs <= length img)%nat ->
  exists s', infs_storage_write s off bs = (OK, s') /\ accepts s' (splice (Z.to_nat off) bs img).
Proof.
  intros Ha H0 Hl; pose proof Ha as (o & c & G & Ho & Hc & <- & HG & Hob).
  destruct (ob_write _ _ Hob) as (f & Hf & Hw); destruct (Hw c off bs HG H0 Hl) as (c' & He & Hi & HG').
  exists (with_context s c'); rewrite <- Hi; split; [eapply dispatch_call; eassumption |].
  eapply accepts_with_context; eassumption.
Qed.

Lemma accepts_flush s img :
  accepts s img -> exists s', infs_storage_flush s = (OK, s') /\ accepts s' img.
Proof.
  intros Ha; pose proof Ha as (o & c & G & Ho & Hc & <- & HG & Hob).
  destruct (ob_flush _ _ Hob) as (f & Hf & Hw); destruct (Hw c HG) as (c' & He & Hi & HG').
  exists (with_context s c'); rewrite <- Hi; split; [eapply dispatch_call; eassumption |].
  eapply accepts_with_context; eassumption.
Qed.

Lemma accepts_size s img :
  accepts s img -> exists device, infs_storage_get_size s = Good (Z.of_nat (length img), device).
Proof.
  intros Ha; pose proof Ha as (o & c & G & Ho & Hc & <- & HG & Hob).
  destruct (ob_size _ _ Hob) as (f & Hf & Hw); destruct (Hw c HG) as (device & He); exists device.
  unfold infs_storage_get_size; erewrite (dispatch_call s); [| eassumption.. | rewrite He; reflexivity].
  reflexivity.
Qed.

Lemma accepts_random s img k r s' :
  accepts s img -> infs_storage_random s k = (r, s') ->
  accepts s' img /\ forall bs, r = Good bs -> length bs = k /\ bytes_ok bs.
Proof.
  intros Ha Hr; pose proof Ha as (o & c & G & Ho & Hc & <- & HG & Hob).
  destruct (ob_random _ _ Hob) as (f & Hf & Hw); destruct (f c k) as [r0 c'] eqn:He.
  unfold infs_storage_random in Hr; erewrite (dispatch_call s) in Hr; [| eassumption..].
  injection Hr as <- <-; destruct (Hw _ _ _ _ HG He) as (<- & HG' & Hbs); split; [| exact Hbs].
  eapply accepts_with_context; eassumption.
Qed.

Lemma accepts_time s img :
  accepts s img -> exists t s', infs_storage_current_time s = (Good t, s') /\ accepts s' img.
Proof.
  intros Ha; pose proof Ha as (o & c & G & Ho & Hc & <- & HG & Hob).
  destruct (ob_time _ _ Hob) as (f & Hf & Hw); destruct (Hw c HG) as (t & c' & He & Ht & Hi & HG').
  exists t, (with_context s c'); split; [| rewrite <- Hi; eapply accepts_with_context; eassumption].
  unfold infs_storage_current_time.
  rewrite (dispatch_call s _ _ _ _ _ _ _ (Good t) c' Ha Ho Hc Hf He), Ht; reflexivity.
Qed.

Lemma accepts_can_format s img : accepts s img -> can_format s = true.
Proof.
  intros Ha; unfold can_format; rewrite (accepts_valid _ _ Ha).
  destruct Ha as (o & c & G & -> & _ & _ & _ & [_ (w & -> & _) (f & -> & _) _ (r & -> & _) (t & -> & _)]).
  rewrite !bool_decide_true by (eexists; reflexivity); reflexivity.
Qed.

(** ** Identifiers *)

(** An identifier the formatter may use. *)
Definition fresh_id (id : list Z) (avoid1 avoid2 : option (list Z)) : Prop :=
  length id = 16%nat /\ bytes_ok id /\ formatter_id_is_zero id = false /\
  avoid1 <> Some id /\ avoid2 <> Some id.

Lemma collides_false id avoid : collides id avoid = false -> avoid <> Some id.
Proof.
  unfold collides; destruct avoid as [a |]; [| discriminate].
  intros H [= ->]; rewrite bytes_eqb_refl in H; discriminate.
Qed.

Lemma generate_attempts_ok k avoid1 avoid2 s img id s' :
  accepts s img -> generate_attempts k avoid1 avoid2 s = (Good id, s') ->
  accepts s' img /\ fresh_id id avoid1 avoid2.
Proof.
  revert s; induction k as [| k IH]; intros s Ha; cbn [generate_attempts]; [discriminate |].
  unfold mbind, io_bind; destruct (infs_storage_random s 16) as [r s1] eqn:Er.
  destruct (accepts_random _ _ _ _ _ Ha Er) as [Ha1 Hbs]; destruct r as [bs | e]; [| discriminate].
  destruct (_ || _)%bool eqn:E; [apply IH, Ha1 |]; intros [= <- <-]; split; [exact Ha1 |].
  destruct (Hbs bs eq_refl); rewrite !orb_false_iff in E; destruct E as [[Ez E1] E2].
  split_and!; trivial; apply collides_false; assumption.
Qed.

Lemma generate_ids_ok s img u r i s' :
  accepts s img -> generate_ids s = (Good (u, r, i), s') ->
  accepts s' img /\ fresh_id u None None /\ fresh_id r (Some u) None /\ fresh_id i (Some u) (Some r).
Proof.
  intros Ha; unfold generate_ids, formatter_generate_id, mbind, io_bind.
  destruct (generate_attempts 32 None None s) as [[u0 | e] s1] eqn:E1; [| discriminate].
  destruct (generate_attempts_ok _ _ _ _ _ _ _ Ha E1) as [Ha1 Hu].
  destruct (generate_attempts 32 (Some u0) None s1) as [[r0 | e] s2] eqn:E2; [| discriminate].
  destruct (generate_attempts_ok _ _ _ _ _ _ _ Ha1 E2) as [Ha2 Hr].
  destruct (generate_attempts 32 (Some u0) (Some r0) s2) as [[i0 | e] s3] eqn:E3; [| discriminate].
  destruct (generate_attempts_ok _ _ _ _ _ _ _ Ha2 E3) as [Ha3 Hi].
  intros [= <- <- <- <-]; split_and!; trivial.
Qed.

(** ** Sequences of block writes *)

Section Performs.
Context (n : Z).

(** [a] succeeds with [x] and does exactly the block writes [ws]. *)
Definition performs {X} (a : io C X) (x : X) (ws : list (Z * list Z)) : Prop :=
  Forall (CrashFacts.write_ok n) ws /\
  forall s img, accepts s img -> medium n img ->
    exists s', a s = (Good x, s') /\ accepts s' (apply_writes ws img).

Lemma performs_ret {X} (x : X) : performs (mret x) x [].
Proof. split; [constructor |]; intros s img Ha _; exists s; split; [reflexivity | exact Ha]. Qed.

Lemma performs_pure {X} (r : result X) (x : X) : r = Good x -> performs (pure r) x [].
Proof. intros ->; apply performs_ret. Qed.

Lemma performs_bind {X Y} (m : io C X) (k : X -> io C Y) x y ws1 ws2 :
  performs m x ws1 -> performs (k x) y ws2 -> performs (m ≫= k) y (ws1 ++ ws2).
Proof.
  intros [Hf1 H1] [Hf2 H2]; split; [apply Forall_app; auto |]; intros s img Ha Hm.
  destruct (H1 s img Ha Hm) as (s1 & E1 & Ha1).
  destruct (H2 s1 _ Ha1 (apply_medium n ws1 img Hm Hf1)) as (s2 & E2 & Ha2).
  exists s2; unfold mbind, io_bind; rewrite E1; split; [exact E2 |].
  unfold apply_writes in *; rewrite fold_left_app; exact Ha2.
Qed.

Lemma performs_write b data : CrashFacts.write_ok n (b, data) -> performs (write_block b data) tt [(b, data)].
Proof.
  intros Hw; split; [repeat constructor; apply Hw |]; intros s img Ha Hm.
  destruct Hw as (Hb & Hd & _), Hm as [_ Hl _ Hmax]; cbn [fst snd] in *.
  assert (Hoff : u64 (b * block_size) = b * block_size).
  { apply wrap_small; unfold fits, block_size in *; lia. }
  destruct (accepts_write s img (b * block_size) data Ha) as (s' & Hw & Ha');
    [unfold block_size; lia | rewrite Hd, Hl; unfold block_size, INFS_BLOCK_SIZE; lia |].
  exists s'; unfold write_block, checked; rewrite Hoff, Hw, decide_True by reflexivity.
  split; [reflexivity | exact Ha'].
Qed.

Lemma performs_flush : performs flush_storage tt [].
Proof.
  split; [constructor |]; intros s img Ha _; destruct (accepts_flush s img Ha) as (s' & Hf & Ha').
  exists s'; unfold flush_storage, checked; rewrite Hf, decide_True by reflexivity.
  split; [reflexivity | exact Ha'].
Qed.

Lemma performs_for (indices : list Z) (body : Z -> io C unit) (ws : Z -> list (Z * list Z)) :
  (forall i, i ∈ indices -> performs (body i) tt (ws i)) ->
  performs (for_each indices body) tt (flat_map ws indices).
Proof.
  induction indices as [| i rest IH]; intros Hb; [apply performs_ret |]; cbn [for_each flat_map].
  apply (performs_bind _ _ tt); [apply Hb; set_solver |]; apply IH; intros j Hj; apply Hb; set_solver.
Qed.

Lemma performs_each (indices : list Z) (body : Z -> io C unit) (Q : Z -> Z * list Z -> Prop) :
  (forall i, i ∈ indices -> exists w, performs (body i) tt [w] /\ Q i w) ->
  exists ws, performs (for_each indices body) tt ws /\ Forall2 Q indices ws.
Proof.
  induction indices as [| i rest IH]; intros Hb; [exists []; split; [apply performs_ret | constructor] |].
  destruct (Hb i) as (w & Hw & Hq); [set_solver |].
  destruct IH as (ws & Hws & Hqs); [intros j Hj; apply Hb; set_solver |].
  exists ([w] ++ ws); split; [| constructor; assumption]; cbn [for_each].
  eapply performs_bind; eassumption.
Qed.

End Performs.
End Accepts.

(** ** Allocation pages *)

Section Pages.
Context {E : Endian} {P : Platform}.

(** What a page of the new allocation tree holds. *)
Record page_is (block : list Z) (index level entries : Z) (payload : list Z) : Prop := {
  pg_wf : wf block;
  pg_valid : infs_validate_allocation_page block (allocation_magic level) 1 index level = true;
  pg_entries : ap_entry_count block = entries;
  pg_payload : slice apage_size (length payload) block = payload
}.

Lemma chunk_allocation_magic level : chunk 8 (take 8 (allocation_magic level)).
Proof. unfold allocation_magic; destruct (level =? 0); split; reflexivity || eval_decide. Qed.

(** The header of a page under construction. *)
Record page_header (b : list Z) (index level entries bytes : Z) : Prop := {
  ph_wf : wf b;
  ph_magic : slice 0 8 b = allocation_magic level;
  ph_generation : ap_generation b = 1;
  ph_index : ap_logical_index b = index;
  ph_level : ap_level b = level;
  ph_entries : ap_entry_count b = entries;
  ph_bytes : ap_bytes_used b = bytes;
  ph_checksum : ap_checksum_type b = INFS_CHECKSUM_CRC64_ECMA
}.

Lemma page_started index level entries bytes :
  0 <= level <= 3 -> fits 64 index -> fits 32 entries -> fits 32 bytes ->
  exists b, infs_allocation_page_init (allocation_magic level) 1 index level = Good b /\
    page_header (splice 32 (store_le32 bytes) (splice 28 (store_le32 entries) b)) index level entries bytes.
Proof.
  intros Hl Hi He Hb; unfold infs_allocation_page_init, INFS_ALLOCATION_TREE_ROOT_LEVEL.
  assert (Hm : take 8 (allocation_magic level) = allocation_magic level)
    by (unfold allocation_magic; destruct (level =? 0); reflexivity).
  pose proof (chunk_allocation_magic level) as Hc; rewrite Hm in *; rewrite bytes_eqb_refl.
  replace (level >? 3) with false by lia; cbn [Z.eqb orb negb].
  assert (Hlev : fits 32 level) by (split; lia).
  eexists; split; [reflexivity |]; split; unfold ap_generation, ap_logical_index, ap_level, ap_entry_count,
    ap_bytes_used, ap_checksum_type; [wf_solve | ..]; read_field; trivial.
  destruct Hc as [Hc8 _]; rewrite <- Hc8 at 1; apply slice_splice_eq.
  rewrite length_replicate, Hc8; unfold INFS_BLOCK_SIZE; lia.
Qed.

(** The payload leaves the header alone. *)
Lemma page_filled b index level entries bytes payload :
  page_header b index level entries bytes -> bytes_ok payload -> (length payload <= 4024)%nat ->
  page_header (splice apage_size payload b) index level entries bytes /\
  slice apage_size (length payload) (splice apage_size payload b) = payload.
Proof.
  intros [Hw Hm Hg Hi Hl He Hb Hc] Hok Hlen; assert (Hp : chunk (length payload) payload) by (split; trivial).
  assert (Hin : (72 + length payload <= INFS_BLOCK_SIZE)%nat) by (unfold INFS_BLOCK_SIZE; lia).
  unfold apage_size; split.
  - split; [eapply wf_splice; eassumption | ..];
      unfold ap_generation, ap_logical_index, ap_level, ap_entry_count, ap_bytes_used, ap_checksum_type in *;
      first [erewrite skip64 by (eassumption || lia) | erewrite skip32 by (eassumption || lia)
            | erewrite ObjectsFacts.skip by (eassumption || lia)]; assumption.
  - apply slice_splice_eq; rewrite (proj1 Hw); exact Hin.
Qed.

Lemma page_finished b index level entries payload :
  0 <= level <= 3 -> (length payload <= 4024)%nat ->
  page_header b index level entries (Z.of_nat (length payload)) ->
  allocation_counts_ok level entries (Z.of_nat (length payload)) = true ->
  slice apage_size (length payload) b = payload ->
  exists block, infs_allocation_page_finalize b = Good block /\ page_is block index level entries payload.
Proof.
  intros Hlev Hlen [[Hwl Hwb] Hm Hg Hi Hl He Hb Hc] Hcounts Hpl.
  assert (Hin : (apage_size + length payload <= INFS_BLOCK_SIZE)%nat) by (unfold apage_size, INFS_BLOCK_SIZE; lia).
  pose proof (finalized_agree apage_checksum_off apage_size _ b Hwl eq_refl Hin) as Hag.
  destruct (finalized_seal_ok apage_checksum_off apage_size _ b Hwl Hwb eq_refl Hin) as [Hok Hz].
  unfold infs_allocation_page_finalize; rewrite Hg, Hl, Hm, Hc, He, Hb, bytes_eqb_refl, Hcounts, Nat2Z.id.
  unfold INFS_ALLOCATION_TREE_ROOT_LEVEL; replace (level >? 3) with false by lia.
  cbn [Z.eqb negb orb]; rewrite Z.eqb_refl; cbn [negb orb]; set (block := seal _ _) in *.
  exists block; split; [reflexivity |].
  assert (Hw : wf block).
  { assert (length (clear_from (apage_size + length payload) b) = INFS_BLOCK_SIZE)
      by (unfold clear_from; rewrite length_splice; rewrite ?length_replicate; lia).
    unfold block; split; [rewrite seal_length; unfold apage_checksum_off, INFS_BLOCK_SIZE in *; lia |].
    apply seal_bytes_ok, bytes_ok_splice; auto using zeros_ok. }
  unfold apage_checksum_off, apage_size in Hag.
  split; [exact Hw | | unfold ap_entry_count in *; agree_fields Hag; exact He |].
  - unfold infs_validate_allocation_page, ap_generation, ap_logical_index, ap_level, ap_entry_count,
      ap_bytes_used, ap_checksum_type in *; agree_fields Hag.
    rewrite Hg, Hl, Hm, Hc, He, Hb, Hi, Hcounts, Nat2Z.id, Hz, Hok.
    replace (take 8 (allocation_magic level)) with (allocation_magic level)
      by (unfold allocation_magic; destruct (level =? 0); reflexivity).
    unfold INFS_ALLOCATION_TREE_ROOT_LEVEL; rewrite bytes_eqb_refl, !Z.eqb_refl.
    replace (level <=? 3) with true by lia; reflexivity.
  - unfold apage_size in *; agree_fields Hag; exact Hpl.
Qed.

Lemma allocation_page_ok index level entries payload bytes :
  0 <= level <= 3 -> fits 64 index -> fits 32 entries -> 0 <= bytes <= 4024 ->
  (Z.to_nat bytes <= length payload)%nat -> bytes_ok payload ->
  allocation_counts_ok level entries bytes = true ->
  exists block, allocation_page (allocation_magic level) index level entries payload bytes = Good block /\
    page_is block index level entries (take (Z.to_nat bytes) payload).
Proof.
  intros Hlev Hi He Hb Hlen Hok Hc; unfold allocation_page.
  destruct (page_started index level entries bytes Hlev Hi He) as (b & -> & Hh); [split; lia |].
  cbn [mbind result_bind]; set (pl := take (Z.to_nat bytes) payload).
  assert (Hpl : length pl = Z.to_nat bytes) by (unfold pl; rewrite length_take; lia).
  destruct (page_filled _ _ _ _ _ pl Hh) as [Hh' Hs]; [unfold pl; auto with infs | lia |].
  apply page_finished; trivial; [lia | |]; rewrite Hpl, Z2Nat.id by lia; assumption.
Qed.

(** ** The object index *)

Lemma chunk_index_magic : chunk 8 (take 8 INFS_INDEX_PAGE_MAGIC).
Proof. split; [reflexivity | eval_decide]. Qed.

Lemma chunk_zeros k : chunk k (replicate k 0).
Proof. split; [apply length_replicate | apply zeros_ok]. Qed.

(** A metadata page whose header is in order can be finalized, is then accepted,
    and keeps its entries. *)
Lemma metadata_page_finished b magic owner n :
  wf b -> slice 0 8 b = magic -> In magic page_magics -> p_owner b = owner -> length owner = 16%nat ->
  page_fields_ok b = true -> p_bytes_used b = Z.of_nat n -> (n <= 4016)%nat ->
  exists block, infs_metadata_page_finalize b = Good block /\ wf block /\
    infs_validate_metadata_page block magic owner = true /\ agree page_checksum_off page_size n block b.
Proof.
  intros [Hwl Hwb] Hmag Hin Ho Hol Hf Hu Hn; unfold infs_metadata_page_finalize; rewrite Hf, Hmag, Hu, Nat2Z.id.
  assert (Hm8 : take 8 magic = magic)
    by (cbn in Hin; repeat destruct Hin as [<- | Hin]; trivial; contradiction).
  replace (existsb _ page_magics) with true
    by (symmetry; apply existsb_exists; exists magic; split; [exact Hin | apply bytes_eqb_refl]).
  assert (Hin' : (page_size + n <= INFS_BLOCK_SIZE)%nat) by (unfold page_size, INFS_BLOCK_SIZE; lia).
  pose proof (finalized_agree page_checksum_off page_size n b Hwl eq_refl Hin') as Hag.
  destruct (finalized_seal_ok page_checksum_off page_size n b Hwl Hwb eq_refl Hin') as [Hok Hzf].
  eexists; split; [reflexivity |]; set (block := seal _ _) in *; split_and!; [| | exact Hag].
  - assert (length (clear_from (page_size + n) b) = INFS_BLOCK_SIZE)
      by (unfold clear_from; rewrite length_splice; rewrite ?length_replicate; lia).
    unfold block; split; [rewrite seal_length; unfold page_checksum_off, INFS_BLOCK_SIZE in *; lia |].
    apply seal_bytes_ok, bytes_ok_splice; auto using zeros_ok.
  - unfold page_checksum_off, page_size in Hag.
    assert (Hf' : page_fields_ok block = true).
    { rewrite <- Hf; unfold page_fields_ok, p_generation, p_owner, p_bytes_used, p_checksum_type, p_reserved.
      agree_fields Hag; reflexivity. }
    unfold infs_validate_metadata_page; rewrite Hf', Hok; unfold p_bytes_used, p_owner in *; agree_fields Hag.
    rewrite Hmag, Ho, Hu, Hm8, (take_ge owner), Nat2Z.id, Hzf, !bytes_eqb_refl by lia; reflexivity.
Qed.

(** The page that holds the one entry of the new index. *)
Record index_page_is (block root_id index_id : list Z) (root : Z) : Prop := {
  ip_wf : wf block;
  ip_valid : infs_validate_metadata_page block INFS_INDEX_PAGE_MAGIC index_id = true;
  ip_count : p_entry_count block = 1;
  ip_id : slice 80 16 block = root_id;
  ip_block : le64_at 96 block = root;
  ip_type : le16_at 104 block = INFS_OBJECT_DIRECTORY
}.

Lemma index_page_ok p root_id index_id :
  good_id root_id -> good_id index_id -> fits 64 (root_block p) ->
  exists block, index_page p root_id index_id = Good block /\
    index_page_is block root_id index_id (root_block p).
Proof.
  intros (Hrl & Hrb & _) (Hil & Hib & Hin) Hroot; unfold index_page, infs_metadata_page_init; rewrite Hin.
  cbn [negb orb Z.eqb mbind result_bind]; unfold page_size.
  change (80 + 16)%nat with 96%nat; change (80 + 24)%nat with 104%nat.
  change (sizeof index_entry_layout) with 32%nat; change (sz index_entry_layout) with 32.
  pose proof chunk_index_magic as Hm; pose proof (chunk_zeros 32) as Hz.
  match goal with |- context [infs_metadata_page_finalize ?x] => set (b := x) end.
  assert (Hw : wf b) by (unfold b; wf_solve).
  assert (Hmag : slice 0 8 b = INFS_INDEX_PAGE_MAGIC).
  { unfold b; read_field; change 8%nat with (length (take 8 INFS_INDEX_PAGE_MAGIC)) at 1.
    apply slice_splice_eq; rewrite length_replicate; unfold INFS_BLOCK_SIZE; cbn [take length INFS_INDEX_PAGE_MAGIC]; lia. }
  assert (Hg : p_generation b = 1) by (unfold p_generation, b; read_field; reflexivity).
  assert (Ho : p_owner b = index_id) by (unfold p_owner, b; read_field; reflexivity).
  assert (Hu : p_bytes_used b = 32) by (unfold p_bytes_used, b; read_field; reflexivity).
  assert (Hc : p_checksum_type b = INFS_CHECKSUM_CRC64_ECMA) by (unfold p_checksum_type, b; read_field; reflexivity).
  assert (Hr : p_reserved b = 0).
  { unfold p_reserved, b; read_field; unfold le32_at; rewrite slice_replicate by (unfold INFS_BLOCK_SIZE; lia).
    rewrite load_le32_law; [reflexivity | apply length_replicate | apply zeros_ok]. }
  assert (Hn : p_entry_count b = 1) by (unfold p_entry_count, b; read_field; reflexivity).
  assert (H80 : slice 80 16 b = root_id) by (unfold b; read_field; reflexivity).
  assert (H96 : le64_at 96 b = root_block p) by (unfold b; read_field; reflexivity).
  assert (H104 : le16_at 104 b = INFS_OBJECT_DIRECTORY) by (unfold b; read_field; reflexivity).
  assert (Hf : page_fields_ok b = true).
  { unfold page_fields_ok; rewrite Hg, Ho, Hu, Hc, Hr, Hin; reflexivity. }
  destruct (metadata_page_finished b INFS_INDEX_PAGE_MAGIC index_id 32) as (block & Hb & Hwb & Hv & Hag);
    trivial; [cbn; tauto | lia |].
  clearbody b; exists block; split; [exact Hb |]; unfold page_checksum_off, page_size in Hag.
  split; trivial; unfold p_entry_count in *; agree_fields Hag; assumption.
Qed.

End Pages.

(** ** The first superblock *)

(** The label field. *)
Lemma memchr0_strlen label k :
  (0 < k)%nat -> memchr0 (take (strlen label) label ++ replicate k 0) = Some (strlen label).
Proof.
  intros Hk; unfold strlen; induction label as [| b label IH].
  - destruct k; [lia | reflexivity].
  - cbn [memchr0]; destruct (Z.eqb_spec b 0); [destruct k; [lia | reflexivity] |].
    destruct (memchr0 label) as [m |]; cbn [fmap option_fmap option_map length take app memchr0] in *;
      (destruct (Z.eqb_spec b 0); [contradiction |]); rewrite IH; reflexivity.
Qed.

Lemma strlen_le label : (strlen label <= length label)%nat.
Proof.
  unfold strlen; induction label as [| b label IH]; cbn [memchr0 length]; [lia |].
  destruct (b =? 0); [lia |]; destruct (memchr0 label); cbn [fmap option_fmap option_map]; lia.
Qed.

Section Superblock.
Context {E : Endian} {P : Platform}.

(** The bytes of a C string. *)
Definition text (label : list Z) : list Z := take (strlen label) label.

Lemma length_text label : length (text label) = strlen label.
Proof. pose proof (strlen_le label); unfold text; rewrite length_take; lia. Qed.

Lemma label_field_valid label :
  accept_label label = Good tt ->
  superblock_label_valid (text label ++ replicate (INFS_LABEL_MAX - strlen label) 0) = true /\
  (strlen label < INFS_LABEL_MAX)%nat.
Proof.
  unfold accept_label; destruct (decide (INFS_LABEL_MAX <= strlen label)%nat); [discriminate |].
  fold (text label); destruct (infs_utf8_validate (text label)) eqn:Eu; [intros _ | discriminate].
  split; [| lia]; unfold superblock_label_valid; unfold text at 1.
  rewrite memchr0_strlen by lia; rewrite take_app_length' by (symmetry; apply length_text); rewrite Eu.
  rewrite andb_false_r; apply forallb_forall; intros i Hi%in_seq; apply Z.eqb_eq.
  rewrite lookup_total_app_r by (rewrite length_text; lia).
  apply lookup_total_replicate_2; rewrite length_text; lia.
Qed.

Definition superblock_chunks (p : plan) (minor used options : Z) (u r label : list Z) : list (list Z) :=
  [INFS_MAGIC; store_le16 INFS_FORMAT_MAJOR; store_le16 minor; store_le16 (Z.of_nat sb_size);
   store_le16 INFS_BLOCK_SHIFT; store_le32 INFS_CHECKSUM_CRC64_ECMA; store_le64 1;
   store_le64 (p_total p); store_le64 (u64 (p_total p - used)); store_le64 (p_root p);
   store_le64 (p_leaves p); store_le64 (index_block p); store_le64 (root_block p);
   store_le64 (checkpoints p !!! 0%nat); store_le64 (checkpoints p !!! 1%nat);
   store_le64 (checkpoints p !!! 2%nat); u; r; store_le64 INFS_KNOWN_COMPAT_FLAGS;
   store_le64 INFS_KNOWN_RO_COMPAT_FLAGS; store_le64 (format_incompat_flags options); text label].

Lemma len16 v : length (store_le16 v) = 2%nat.
Proof. apply chunk_16. Qed.
Lemma len32 v : length (store_le32 v) = 4%nat.
Proof. apply chunk_32. Qed.
Lemma len64 v : length (store_le64 v) = 8%nat.
Proof. apply chunk_64. Qed.

Lemma first_superblock_concat p minor used options u r label :
  length u = 16%nat -> length r = 16%nat -> (strlen label < 64)%nat ->
  first_superblock p minor used options u r label =
  concat (superblock_chunks p minor used options u r label) ++ replicate (96 - strlen label) 0.
Proof.
  intros Hu Hr Hl; set (cs := superblock_chunks p minor used options u r label).
  transitivity (stores 0 cs (replicate sb_size 0)).
  { unfold first_superblock, cs, superblock_chunks; cbn [INFS_CHECKPOINT_COUNT seq fold_left stores].
    rewrite (take_ge u), (take_ge r), Hu, Hr, ?len16, ?len32, ?len64 by lia; reflexivity. }
  assert (Hlen : length (concat cs) = (156 + strlen label)%nat).
  { unfold cs, superblock_chunks; cbn [concat].
    rewrite !length_app, Hu, Hr, !len16, !len32, !len64, length_text; cbn [length INFS_MAGIC]; lia. }
  pose proof (stores_concat cs [] sb_size) as Hs; rewrite Hlen in Hs.
  etransitivity; [apply Hs; unfold sb_size; lia |]; cbn [app]; do 2 f_equal; unfold sb_size; lia.
Qed.

Lemma len_magic : length INFS_MAGIC = 8%nat.
Proof. reflexivity. Qed.

Lemma load16 v : fits 16 v -> load_le16 (store_le16 v) = v.
Proof.
  intros; rewrite load_le16_law by apply chunk_16; rewrite store_le16_law; apply le_load_store_id; assumption.
Qed.
Lemma load32 v : fits 32 v -> load_le32 (store_le32 v) = v.
Proof.
  intros; rewrite load_le32_law by apply chunk_32; rewrite store_le32_law; apply le_load_store_id; assumption.
Qed.
Lemma load64 v : fits 64 v -> load_le64 (store_le64 v) = v.
Proof.
  intros; rewrite load_le64_law by apply chunk_64; rewrite store_le64_law; apply le_load_store_id; assumption.
Qed.

(** What the first superblock says. *)
Record first_is (sb : list Z) (p : plan) (used options : Z) (u r label : list Z) : Prop := {
  fi_length : length sb = sb_size;
  fi_bytes : bytes_ok sb;
  fi_magic : slice 0 8 sb = INFS_MAGIC;
  fi_major : sb_format_major sb = INFS_FORMAT_MAJOR;
  fi_minor : sb_format_minor sb = INFS_FORMAT_MINOR;
  fi_header : sb_header_size sb = Z.of_nat sb_size;
  fi_shift : sb_block_shift sb = INFS_BLOCK_SHIFT;
  fi_checksum : sb_checksum_type sb = INFS_CHECKSUM_CRC64_ECMA;
  fi_generation : sb_generation sb = 1;
  fi_total : sb_total_blocks sb = p_total p;
  fi_free : sb_free_blocks sb = p_total p - used;
  fi_root : le64_at 44 sb = p_root p;
  fi_leaves : le64_at 52 sb = p_leaves p;
  fi_index : le64_at 60 sb = index_block p;
  fi_directory : le64_at 68 sb = root_block p;
  fi_checkpoints : map (sb_checkpoint_block sb) [0; 1; 2]%nat = checkpoints p;
  fi_uuid : sb_filesystem_uuid sb = u;
  fi_root_id : sb_root_object_id sb = r;
  fi_flags : sb_incompat_flags sb = format_incompat_flags options;
  fi_label : sb_label sb = text label ++ replicate (INFS_LABEL_MAX - strlen label) 0
}.

End Superblock.

(** Find a field among the chunks. *)
Ltac skip_chunks :=
  repeat (erewrite slice_skip by (first [apply len16 | apply len32 | apply len64 | apply len_magic | eassumption | lia]);
          cbn [Nat.sub]).

Ltac find_chunk :=
  skip_chunks; apply slice_head; first [apply len16 | apply len32 | apply len64 | apply len_magic | assumption].

Ltac read_chunk :=
  match goal with
  | |- load_le16 _ = ?v => transitivity (load_le16 (store_le16 v)); [f_equal; find_chunk | apply load16]
  | |- load_le32 _ = ?v => transitivity (load_le32 (store_le32 v)); [f_equal; find_chunk | apply load32]
  | |- load_le64 _ = ?v => transitivity (load_le64 (store_le64 v)); [f_equal; find_chunk | apply load64]
  | |- slice _ _ _ = _ => find_chunk
  end.

Section Superblock2.
Context {E : Endian} {P : Platform}.

Lemma format_flags_fit options : fits 64 (format_incompat_flags options).
Proof.
  unfold format_incompat_flags; destruct (negb _), (negb _); split; vm_compute; congruence.
Qed.

Lemma first_superblock_is p used options u r label :
  length u = 16%nat -> bytes_ok u -> length r = 16%nat -> bytes_ok r -> (strlen label < 64)%nat -> bytes_ok label ->
  fits 64 (p_total p) -> 0 <= used <= p_total p -> fits 64 (p_root p) -> fits 64 (p_leaves p) ->
  Forall (fits 64) (checkpoints p) ->
  first_is (first_superblock p INFS_FORMAT_MINOR used options u r label) p used options u r label.
Proof.
  intros Hu Hub Hr Hrb Hl Hlb Ht Hused Hroot Hleaves Hcp.
  rewrite first_superblock_concat by assumption; unfold superblock_chunks; cbn [concat]; rewrite <- !app_assoc, app_nil_l.
  assert (Hidx : fits 64 (index_block p)) by (apply wrap_range; lia).
  assert (Hdir : fits 64 (root_block p)) by (apply wrap_range; lia).
  assert (Hfree : u64 (p_total p - used) = p_total p - used) by (apply wrap_small; unfold fits in *; lia).
  assert (Hc : forall i, (i < 3)%nat -> fits 64 (checkpoints p !!! i)).
  { intros i Hi; apply Forall_lookup_total_1; [exact Hcp | exact Hi]. }
  assert (Hc0 := Hc 0%nat ltac:(lia)); assert (Hc1 := Hc 1%nat ltac:(lia)); assert (Hc2 := Hc 2%nat ltac:(lia)).
  pose proof (format_flags_fit options) as Hflags.
  assert (Hfits : fits 64 (p_total p - used)) by (unfold fits in *; lia).
  split; unfold sb_format_major, sb_format_minor, sb_header_size, sb_block_shift, sb_checksum_type,
    sb_generation, sb_total_blocks, sb_free_blocks, sb_filesystem_uuid, sb_root_object_id, sb_incompat_flags,
    sb_label, sb_checkpoint_block, le16_at, le32_at, le64_at.
  16: change (checkpoints p) with [checkpoints p !!! 0%nat; checkpoints p !!! 1%nat; checkpoints p !!! 2%nat];
    cbn [map Nat.mul Nat.add]; repeat f_equal.
  all: try (read_chunk; assumption || eval_decide).
  - rewrite !length_app, Hu, Hr, !len16, !len32, !len64, length_text, length_replicate; cbn [length INFS_MAGIC].
    unfold sb_size; lia.
  - rewrite !bytes_ok_app; split_and!; try apply chunk_16; try apply chunk_32; try apply chunk_64;
      try apply zeros_ok; trivial; [eval_decide | unfold text; auto with infs].
  - rewrite Hfree; read_chunk; assumption.
  - skip_chunks; unfold slice; rewrite drop_0, take_app_ge, length_text by (rewrite length_text; lia).
    rewrite take_replicate; do 2 f_equal; unfold INFS_LABEL_MAX; lia.
Qed.

(** The fields lie before the checksum. *)
Lemma first_is_agree b sb p used options u r label :
  agree sb_checksum_off 0 0 b sb -> length b = sb_size -> bytes_ok b ->
  first_is sb p used options u r label -> first_is b p used options u r label.
Proof.
  unfold sb_checksum_off; intros H Hl Hb []; split; trivial; try rewrite <- fi_checkpoints0; cbn [map];
    unfold sb_format_major, sb_format_minor, sb_header_size, sb_block_shift, sb_checksum_type,
    sb_generation, sb_total_blocks, sb_free_blocks, sb_filesystem_uuid, sb_root_object_id, sb_incompat_flags,
    sb_label, sb_checkpoint_block in *; cbn [Nat.mul Nat.add] in *; agree_fields H; trivial.
Qed.

Lemma first_fields_ok sb p used options u r label :
  first_is sb p used options u r label -> good_id u -> good_id r -> accept_label label = Good tt ->
  superblock_fields_ok sb INFS_LOCATOR_FORMAT_MINOR = true.
Proof.
  intros [] (_ & _ & Hu) (_ & _ & Hr) [Hlab _]%label_field_valid; unfold superblock_fields_ok.
  rewrite fi_magic0, fi_major0, fi_minor0, fi_header0, fi_shift0, fi_checksum0, fi_generation0, fi_uuid0,
    fi_root_id0, fi_label0, fi_flags0, Hu, Hr, Hlab, bytes_eqb_refl.
  unfold format_incompat_flags.
  destruct (negb ((options .& INFS_FORMAT_OPTION_REMOVABLE_NAMES_V1) =? 0)),
    (negb ((options .& INFS_FORMAT_OPTION_CASEFOLD_V1) =? 0)); reflexivity.
Qed.

(** Its block is accepted, and starts with the structure. *)
Lemma first_encodes sb p used options u r label :
  first_is sb p used options u r label -> good_id u -> good_id r -> accept_label label = Good tt ->
  exists block, infs_encode_superblock sb = Good block /\ wf block /\ header_valid block /\
    agree sb_checksum_off 0 0 (header block) sb.
Proof.
  intros Hf Hu Hr Hlab; pose proof (first_fields_ok _ _ _ _ _ _ _ Hf Hu Hr Hlab) as Hok.
  destruct (label_field_valid label Hlab) as [Hlv _]; destruct Hf; unfold infs_encode_superblock.
  rewrite fi_label0, fi_uuid0, fi_root_id0, Hlv, (proj2 (proj2 Hu)), (proj2 (proj2 Hr)); cbn [negb orb].
  eexists; split; [reflexivity |].
  destruct (encoded_ok sb fi_length0 fi_bytes0) as [Hel Heb]; set (e := splice 0 _ _) in *.
  assert (Hag : agree sb_checksum_off 0 0 (seal sb_checksum_off e) sb).
  { intros i [Hi | Hi]; [apply (encoded_lookup sb i fi_length0 Hi) | lia]. }
  assert (Hin : (sb_checksum_off + 32 <= length e)%nat)
    by (rewrite Hel; unfold sb_checksum_off, INFS_BLOCK_SIZE; lia).
  split_and!.
  - split; [rewrite seal_length by exact Hin; exact Hel | apply seal_bytes_ok, Heb].
  - unfold header_valid, infs_validate_superblock_block_minor; cbn [Z.eqb negb andb INFS_LOCATOR_FORMAT_MINOR].
    rewrite (superblock_fields_agree _ _ _ Hag), Hok; unfold e at 1; rewrite (encoded_zero_tail sb fi_length0).
    rewrite seal_seal_ok by assumption; reflexivity.
  - intros i [Hi | Hi]; [| lia]; rewrite (front_agree _ i) by (left; exact Hi); apply Hag; left; exact Hi.
Qed.

End Superblock2.

End FormattingFacts.
