(* ===== verification/FreshVolume.v ===== *)
(** What formatting leaves on the medium ([FormatVolume.v]): the writes of the
    formatter, block by block, and the volume they make. *)

From Stdlib Require Import ZifyBool.
From stdpp Require Import prelude.
From S2P Require Import Prelude Endian Checksum Format Storage Objects Locator Discovery Checkpoint.
From S2P Require Import Crash FormatVolume FormatPlan Formatting.
#[local] Open Scope Z_scope.

Module FreshVolumeFacts.
Import Storage Objects Locator ObjectsFacts StorageFacts LocatorFacts DiscoveryFacts Checkpoint CrashFacts
  FormatVolume FormatPlanFacts FormattingFacts.

(** ** Shares *)

(** What page [i] holds of [count] items at [limit] a page. *)
Definition share (limit count i : Z) : Z := Z.min limit (count - i * limit).

Lemma share_range limit count pages i :
  (pages - 1) * limit < count <= pages * limit -> 0 < limit -> 0 <= i < pages -> 0 < share limit count i <= limit.
Proof. unfold share; nia. Qed.

Lemma at_most_share limit count i :
  0 < limit < 2 ^ 32 -> 0 <= i * limit < count -> count < 2 ^ 64 ->
  at_most limit (u64 (count - u64 (i * limit))) = share limit count i.
Proof.
  intros Hl Hi Hc; rewrite (wrap_small 64 (i * limit)), wrap_small by (unfold fits; lia).
  unfold at_most, share; rewrite wrap_small; [| unfold fits]; destruct (Z.gtb_spec (count - i * limit) limit); lia.
Qed.

Section Fresh.
Context {E : Endian} {P : Platform} {A : CheckedArithmetic} {C : Type} (image : C -> list Z).
Context (n : Z) (p : plan).
Hypothesis Hn : supported n.
Hypothesis Hp : planned n p.

Lemma length_pointers first entries : 0 <= entries -> length (pointers first entries) = Z.to_nat (entries * 8).
Proof.
  intros He; unfold pointers, range; rewrite Z.sub_0_r.
  assert (Hl : forall l, length (concat (map (fun j => store_le64 (u64 (first + j))) l)) = (8 * length l)%nat).
  { induction l as [| j l IH]; [reflexivity |]; cbn [map concat length]; rewrite length_app, len64, IH; lia. }
  rewrite Hl, length_seqZ; lia.
Qed.

Lemma pointers_ok first entries : bytes_ok (pointers first entries).
Proof.
  unfold pointers; induction (range 0 entries) as [| j l IH]; cbn [map concat]; [constructor |].
  apply bytes_ok_app; split; [apply chunk_64 | exact IH].
Qed.

(** Pointer [k] of a page. *)
Lemma pointer_at first entries k :
  0 <= k < entries -> fits 64 first -> first + entries < 2 ^ 64 ->
  le64_at (8 * Z.to_nat k) (pointers first entries) = first + k.
Proof.
  intros Hk Hf Hmax; unfold pointers, range; rewrite Z.sub_0_r.
  assert (Hgen : forall m a, (m < Z.to_nat entries)%nat -> forall l, l = map (fun j => store_le64 (u64 (first + j))) (seqZ a (Z.of_nat (S m))) ->
    slice (8 * m) 8 (concat l) = store_le64 (u64 (first + (a + Z.of_nat m)))).
  { induction m as [| m IH]; intros a Hm l ->; rewrite seqZ_cons by lia; cbn [map concat].
    - rewrite Z.add_0_r; apply slice_head, len64.
    - rewrite (slice_skip 8) by (apply len64 || lia); replace (8 * S m - 8)%nat with (8 * m)%nat by lia.
      rewrite (IH (Z.succ a)); [do 3 f_equal; lia | lia | do 2 f_equal; lia]. }
  replace entries with (Z.of_nat (S (Z.to_nat k)) + (entries - k - 1)) at 1 by lia.
  rewrite seqZ_app, map_app, concat_app by lia; unfold le64_at; rewrite slice_app_left.
  - rewrite (Hgen (Z.to_nat k) 0 ltac:(lia) _ eq_refl), Z.add_0_l, Z2Nat.id, wrap_small by (unfold fits in *; lia).
    apply load64; unfold fits in *; lia.
  - pose proof (length_pointers first (Z.of_nat (S (Z.to_nat k)))) as Hl; unfold pointers, range in Hl.
    rewrite Z.sub_0_r in Hl; rewrite Hl by lia; lia.
Qed.

(** ** The pages *)

Lemma performs_page b magic index level entries payload bytes :
  0 <= b < n -> 0 <= level <= 3 -> magic = allocation_magic level -> fits 64 index -> fits 32 entries ->
  0 <= bytes <= 4024 -> (Z.to_nat bytes <= length payload)%nat -> bytes_ok payload ->
  allocation_counts_ok level entries bytes = true ->
  exists block,
    performs image n (formatter_write_allocation_page b magic index level entries payload bytes) tt [(b, block)] /\
    page_is block index level entries (take (Z.to_nat bytes) payload).
Proof.
  intros Hb Hlev -> Hi He Hbytes Hlen Hok Hc.
  destruct (allocation_page_ok index level entries payload bytes) as (block & Hpage & His); trivial.
  exists block; split; [| exact His]; change [(b, block)] with ([] ++ [(b, block)]).
  eapply performs_bind; [apply performs_pure, Hpage |]; apply performs_write.
  split; [exact Hb |]; exact (pg_wf _ _ _ _ _ His).
Qed.

Context (bm : list Z).
Hypothesis Hbm : bytes_ok bm.
Hypothesis Hcover : n <= 8 * Z.of_nat (length bm).

(** The bits of leaf [i], and the bytes that hold them. *)
Definition leaf_bits (i : Z) : Z := share 32192 n i.
Definition leaf_bytes (i : Z) : list Z :=
  slice (Z.to_nat (i * 4024)) (Z.to_nat ((leaf_bits i + 7) / 8)) bm.

Lemma write_leaf_performs i :
  0 <= i < p_leaves p ->
  exists block, performs image n (write_leaf p bm i) tt [(leaf_start p + i, block)] /\
    page_is block i 0 (leaf_bits i) (leaf_bytes i).
Proof.
  intros Hi; destruct Hp, pl_counted0; unfold write_leaf; rewrite pl_total0.
    capacities.
  pose proof (share_range 32192 n (p_leaves p) i cn_leaves0 ltac:(lia) Hi) as Hs.
  rewrite at_most_share by lia; fold (leaf_bits i) in *.
  rewrite (wrap_small 32), (wrap_small 64 (i * 4024)), (wrap_small 64) by (unfold fits; lia).
  pose proof (Z.div_mod (leaf_bits i + 7) 8 ltac:(lia)); pose proof (Z.mod_pos_bound (leaf_bits i + 7) 8 ltac:(lia)).
  unfold leaf_bytes, slice; apply performs_page; trivial; try (unfold fits; lia); auto with infs.
  - rewrite length_drop; unfold leaf_bits, share in *; lia.
  - unfold allocation_counts_ok; rewrite Hbits, Hdata, wrap_small by (unfold fits; lia); cbn [Z.eqb]; lia.
Qed.

Lemma write_branch_performs start level child_start count pages i :
  0 <= i < pages -> (pages - 1) * 503 < count <= pages * 503 -> count < 2 ^ 32 ->
  1 <= level <= 2 -> 0 <= start + i < n -> 0 <= child_start -> child_start + count < 2 ^ 63 ->
  exists block, performs image n (write_branch start level child_start count i) tt [(start + i, block)] /\
    page_is block i level (share 503 count i) (pointers (child_start + i * 503) (share 503 count i)).
Proof.
  intros Hi Hc Hmax Hlev Hb Hcs Hcm; unfold write_branch; capacities.
  pose proof (share_range 503 count pages i Hc ltac:(lia) Hi) as Hs.
  assert (Hle : i * 503 + share 503 count i <= count) by (unfold share; lia).
  rewrite at_most_share by lia; rewrite (wrap_small 64 (i * 503)), (wrap_small 64 (child_start + _)),
    (wrap_small 64 (start + i)), (wrap_small 32) by (unfold fits; lia).
  set (e := share 503 count i) in *; set (ptrs := pointers _ e).
  assert (Hpl : length ptrs = Z.to_nat (e * 8)) by (apply length_pointers; lia).
  assert (Htake : take (Z.to_nat (e * 8)) ptrs = ptrs) by (apply take_ge; lia).
  enough (Hw : exists block, performs image n (formatter_write_allocation_page (start + i) INFS_ALLOCATION_BRANCH_PAGE_MAGIC
      i level e ptrs (e * 8)) tt [(start + i, block)] /\ page_is block i level e (take (Z.to_nat (e * 8)) ptrs))
    by (rewrite Htake in Hw; exact Hw).
  apply performs_page; trivial; try (unfold fits; lia); [| apply pointers_ok |].
  - unfold allocation_magic; replace (level =? 0) with false by lia; reflexivity.
  - unfold allocation_counts_ok; rewrite Hfanout, Hdata; replace (level =? 0) with false by lia; lia.
Qed.

Lemma write_root_performs :
  exists block, performs image n (write_allocation_root p) tt [(p_root p, block)] /\
    page_is block 0 3 (p_level2 p) (pointers (level2_start p) (p_level2 p)).
Proof.
  destruct Hp, pl_counted0; unfold write_allocation_root, INFS_ALLOCATION_TREE_ROOT_LEVEL; capacities.
  rewrite (wrap_small 32 (p_level2 p)), (wrap_small 32) by (unfold fits; lia).
  set (ptrs := pointers _ _).
  assert (Hpl : length ptrs = Z.to_nat (p_level2 p * 8)) by (apply length_pointers; lia).
  assert (Htake : take (Z.to_nat (p_level2 p * 8)) ptrs = ptrs) by (apply take_ge; lia).
  enough (Hw : exists block, performs image n (formatter_write_allocation_page (p_root p) INFS_ALLOCATION_BRANCH_PAGE_MAGIC
      0 3 (p_level2 p) ptrs (p_level2 p * 8)) tt [(p_root p, block)] /\
      page_is block 0 3 (p_level2 p) (take (Z.to_nat (p_level2 p * 8)) ptrs)) by (rewrite Htake in Hw; exact Hw).
  apply performs_page; trivial; try (unfold fits; lia); [apply pointers_ok |].
  unfold allocation_counts_ok; rewrite Hfanout, Hdata; cbn [Z.eqb]; lia.
Qed.

(** ** The whole tree *)

(** Page [i] of a level goes to [start + i]. *)
Definition at_level (start : Z) (R : Z -> list Z -> Prop) (i : Z) (w : Z * list Z) : Prop :=
  w.1 = start + i /\ R i w.2.

Definition leaf_is (i : Z) (block : list Z) : Prop := page_is block i 0 (leaf_bits i) (leaf_bytes i).
Definition branch_is (level child_start count i : Z) (block : list Z) : Prop :=
  page_is block i level (share 503 count i) (pointers (child_start + i * 503) (share 503 count i)).
Definition root_is (block : list Z) : Prop :=
  page_is block 0 3 (p_level2 p) (pointers (level2_start p) (p_level2 p)).

Lemma write_tree_performs :
  exists leaves level1 level2 root,
    performs image n (write_allocation_tree p bm) tt (leaves ++ level1 ++ level2 ++ [(p_root p, root)]) /\
    Forall2 (at_level (leaf_start p) leaf_is) (range 0 (p_leaves p)) leaves /\
    Forall2 (at_level (level1_start p) (branch_is 1 (leaf_start p) (p_leaves p))) (range 0 (p_level1 p)) level1 /\
    Forall2 (at_level (level2_start p) (branch_is 2 (level1_start p) (p_level1 p))) (range 0 (p_level2 p)) level2 /\
    root_is root.
Proof.
  destruct (performs_each image n (range 0 (p_leaves p)) (write_leaf p bm) (at_level (leaf_start p) leaf_is))
    as (leaves & Hw0 & Hq0).
  { intros i Hi%range_in; destruct (write_leaf_performs i Hi) as (block & Hw & His).
    eexists; split; [exact Hw | split; [reflexivity | exact His]]. }
  pose proof Hp as [? [] ? ? ? ? ? ? ? ? ?]; pose proof (supported_bounds n Hn).
  destruct (performs_each image n (range 0 (p_level1 p)) (write_branch (level1_start p) 1 (leaf_start p) (p_leaves p))
    (at_level (level1_start p) (branch_is 1 (leaf_start p) (p_leaves p)))) as (level1 & Hw1 & Hq1).
  { intros i Hi%range_in; destruct (write_branch_performs (level1_start p) 1 (leaf_start p) (p_leaves p) (p_level1 p) i)
      as (block & Hw & His); try lia; eexists; split; [exact Hw | split; [reflexivity | exact His]]. }
  destruct (performs_each image n (range 0 (p_level2 p)) (write_branch (level2_start p) 2 (level1_start p) (p_level1 p))
    (at_level (level2_start p) (branch_is 2 (level1_start p) (p_level1 p)))) as (level2 & Hw2 & Hq2).
  { intros i Hi%range_in; destruct (write_branch_performs (level2_start p) 2 (level1_start p) (p_level1 p) (p_level2 p) i)
      as (block & Hw & His); try lia; eexists; split; [exact Hw | split; [reflexivity | exact His]]. }
  destruct write_root_performs as (root & Hw3 & Hq3); exists leaves, level1, level2, root; split_and!; trivial.
  do 2 (eapply performs_bind; [eassumption |]); eapply performs_bind; eassumption.
Qed.

(** ** Objects and checkpoints *)

Context (u r index_id label : list Z) (options uid gid used : Z).
Hypothesis Hu : good_id u.
Hypothesis Hr : good_id r.
Hypothesis Hidx : good_id index_id.
Hypothesis Hlabel : accept_label label = Good tt.
Hypothesis Hlb : bytes_ok label.
Hypothesis Huid : fits 32 uid.
Hypothesis Hgid : fits 32 gid.
Hypothesis Hused : 0 <= used <= n.

Definition index_is (block : list Z) : Prop :=
  infs_validate_object_block block = true /\ h_object_type block = INFS_OBJECT_INDEX /\
  h_object_id block = index_id /\ le32_at 96 block = 1 /\ le64_at 104 block = index_page_block p.

Definition directory_is (block : list Z) : Prop :=
  infs_validate_object_block block = true /\ h_object_type block = INFS_OBJECT_DIRECTORY /\
  h_object_id block = r /\ le32_at 220 block = uid /\ le32_at 224 block = gid /\
  le32_at 232 block = 0 /\ le64_at 240 block = 0.

Lemma write_objects_performs now :
  exists page index directory,
    performs image n (write_objects p r index_id uid gid now) tt
      [(index_page_block p, page); (index_block p, index); (root_block p, directory)] /\
    index_page_is page r index_id (root_block p) /\ (wf index /\ index_is index) /\ wf directory /\ directory_is directory.
Proof.
  pose proof Hp as [? [] ? ? ? ? ? ? ? ? ?]; pose proof (supported_bounds n Hn).
  destruct (index_page_ok p r index_id Hr Hidx) as (page & Hpage & Hpi); [unfold fits; lia |].
  destruct (tree_object_index_encodes index_id 1 (index_page_block p) 1) as (index & Hindex & Hiw & ? & ? & ? & _ & ? & ?);
    trivial; try (unfold fits; lia).
  destruct (tree_root_directory_encodes r 1 493 uid gid (seconds now, nanoseconds now)) as
    (directory & Hdir & Hdw & ? & ? & _ & ? & _ & _ & ? & ? & ? & ?); trivial; try (unfold fits; lia).
  exists page, index, directory; split; [| unfold index_is, directory_is; auto 20].
  unfold write_objects; change [(index_page_block p, page); (index_block p, index); (root_block p, directory)]
    with ([] ++ [(index_page_block p, page)] ++ [] ++ [(index_block p, index)] ++ [] ++ [(root_block p, directory)] ++ []).
  eapply performs_bind; [apply performs_pure, Hpage |].
  eapply performs_bind; [apply performs_write; split; [cbn; lia | apply Hpi] |].
  eapply performs_bind; [apply performs_pure, Hindex |].
  eapply performs_bind; [apply performs_write; split; [cbn; lia | exact Hiw] |].
  eapply performs_bind; [apply performs_pure, Hdir |].
  eapply performs_bind; [apply performs_write; split; [cbn; lia | exact Hdw] | apply performs_flush].
Qed.

Lemma first_map_ok : map_ok n (first_locator p u).
Proof.
  pose proof Hp as [Ht [] ? ? ? ? ? ? ? ? ?]; pose proof (supported_bounds n Hn); destruct Hu as (Hul & _ & Hnz).
  pose proof (Z.div_mod n 2 ltac:(lia)); pose proof (Z.mod_pos_bound n 2 ltac:(lia)).
  unfold map_ok, first_locator; cbn [total_blocks checkpoint]; split_and!.
  - unfold locator_fields_valid, INFS_LOCATOR_MIN_VOLUME_BLOCKS, INFS_LOCATOR_BLOCK_A, INFS_LOCATOR_BLOCK_B.
    cbn [generation total_blocks checkpoint filesystem_uuid]; rewrite take_ge by lia.
    unfold id_is_nonzero, bytes_are_zero in Hnz; unfold all_zero; rewrite (negb_true_iff _) in Hnz; rewrite Hnz.
    unfold checkpoints; rewrite Ht; cbn [lookup_total list_lookup_total Z.eqb negb orb].
    replace (n <? 4096) with false by lia; cbn [orb INFS_CHECKPOINT_COUNT seq forallb Nat.add Nat.sub
      lookup_total list_lookup_total]; lia.
  - lia.
  - intros j; unfold checkpoints; rewrite Ht; destruct j as [| [| [| j]]];
      [cbn [lookup_total list_lookup_total]; lia.. |].
    change (0 <= inhabitant); cbn; lia.
Qed.

(** The superblock of the new volume. *)
Definition first_block (cur : list Z) : Prop :=
  infs_encode_superblock (first_superblock p INFS_FORMAT_MINOR used options u r label) = Good cur /\
  wf cur /\ header_valid cur /\ first_is (header cur) p used options u r label /\
  primary_map (header cur) = first_locator p u.

Lemma first_block_exists : exists cur, first_block cur.
Proof.
  pose proof Hp as [Ht [] ? ? ? ? ? ? ? ? ?]; pose proof (supported_bounds n Hn); destruct Hu as (Hul & Hub & _).
  pose proof (Z.div_mod n 2 ltac:(lia)); pose proof (Z.mod_pos_bound n 2 ltac:(lia)).
  destruct (label_field_valid label Hlabel) as [_ Hlen].
  pose proof (first_superblock_is p used options u r label) as Hf.
  destruct Hr as (Hrl & Hrb & _); do 4 specialize (Hf ltac:(assumption)); specialize (Hf Hlen Hlb).
  rewrite Ht in Hf; do 4 specialize (Hf ltac:(unfold fits; lia)).
  specialize (Hf ltac:(unfold checkpoints; rewrite Ht; repeat constructor; unfold fits; lia)).
  destruct (first_encodes _ p used options u r label Hf Hu Hr Hlabel) as (cur & He & Hw & Hv & Hag).
  exists cur; assert (Hfh : first_is (header cur) p used options u r label).
  { eapply first_is_agree; [exact Hag | apply header_length, Hw | unfold header; apply bytes_ok_slice, Hw | exact Hf]. }
  split_and!; trivial; try apply Hw; unfold primary_map, first_locator; destruct Hfh.
  rewrite (take_ge u), fi_generation0, fi_total0, fi_uuid0 by lia.
  change (seq 0 INFS_CHECKPOINT_COUNT) with [0; 1; 2]%nat; rewrite fi_checkpoints0; reflexivity.
Qed.

Lemma publish_performs cur :
  first_block cur ->
  performs image n (publish p INFS_LOCATOR_FORMAT_MINOR u
      (first_superblock p INFS_FORMAT_MINOR used options u r label)) tt
    [(INFS_LOCATOR_BLOCK_A, locator_block (header cur)); (INFS_LOCATOR_BLOCK_B, locator_block (header cur));
     (0, cur); (n / 2, cur); (n - 1, cur)].
Proof.
  intros (He & [Hwl Hwb] & Hv & _ & Hm); pose proof Hp as [Ht [] ? ? ? ? ? ? ? ? ?]; pose proof (supported_bounds n Hn).
  pose proof (Z.div_mod n 2 ltac:(lia)); pose proof (Z.mod_pos_bound n 2 ltac:(lia)).
  pose proof first_map_ok as Hok; destruct Hu as (Hul & Hub & _).
  destruct (locator_block_spec n cur Hwl Hwb) as ((Hll & Hlbk) & _ & _); [rewrite Hm; exact Hok |].
  assert (Hloc : infs_locator_encode (first_locator p u) = Good (locator_block (header cur))).
  { rewrite encode_shape by (cbn; rewrite length_take; lia); rewrite (proj1 Hok); unfold locator_block; rewrite Hm; reflexivity. }
  set (loc := locator_block _) in *; unfold publish, checkpoints; rewrite Ht.
  change (INFS_LOCATOR_FORMAT_MINOR =? INFS_LOCATOR_FORMAT_MINOR) with true; cbv iota; cbn [for_each].
  assert (Hwr : forall b, 0 <= b < n -> performs image n (_ ← write_block b cur; flush_storage) tt ([(b, cur)] ++ [])).
  { intros b Hb; eapply performs_bind; [apply performs_write; split; [exact Hb | split; assumption] | apply performs_flush]. }
  change [_; _; _; _; _] with ([] ++ ([] ++ [(INFS_LOCATOR_BLOCK_A, loc)] ++ [(INFS_LOCATOR_BLOCK_B, loc)] ++ [] ++ []) ++
    (([(0, cur)] ++ []) ++ ([(n / 2, cur)] ++ []) ++ ([(n - 1, cur)] ++ []) ++ []) ++ []).
  eapply performs_bind; [apply performs_pure, He |]; eapply performs_bind.
  - eapply performs_bind; [apply performs_pure, Hloc |].
    do 2 (eapply performs_bind; [apply performs_write; split; [cbn; unfold INFS_LOCATOR_BLOCK_A, INFS_LOCATOR_BLOCK_B; lia | split; assumption] |]).
    eapply performs_bind; [apply performs_flush | apply performs_pure, He].
  - eapply performs_bind; [| apply performs_flush].
    do 3 (eapply performs_bind; [apply Hwr; lia |]); apply performs_ret.
Qed.

(** ** The medium afterwards *)

Definition wiped : list (Z * list Z) :=
  map (fun b => (b, replicate INFS_BLOCK_SIZE 0)) [0; n / 2; n - 1; INFS_LOCATOR_BLOCK_A; INFS_LOCATOR_BLOCK_B].

Lemma wipe_performs : performs image n (wipe p INFS_LOCATOR_FORMAT_MINOR) tt wiped.
Proof.
  pose proof Hp as [Ht [] ? ? ? ? ? ? ? ? ?]; pose proof (supported_bounds n Hn).
  pose proof (Z.div_mod n 2 ltac:(lia)); pose proof (Z.mod_pos_bound n 2 ltac:(lia)).
  unfold wipe, checkpoints; rewrite Ht; cbn [for_each].
  change (INFS_LOCATOR_FORMAT_MINOR =? INFS_LOCATOR_FORMAT_MINOR) with true; cbv iota; set (z := replicate _ _).
  assert (Hwr : forall b, 0 <= b < n -> performs image n (write_block b z) tt [(b, z)]).
  { intros b Hb; apply performs_write; split; [exact Hb | apply wf_zero]. }
  change wiped with (([(0, z)] ++ [(n / 2, z)] ++ [(n - 1, z)] ++ []) ++
    ([(INFS_LOCATOR_BLOCK_A, z)] ++ [(INFS_LOCATOR_BLOCK_B, z)]) ++ []).
  eapply performs_bind; [| eapply performs_bind; [| apply performs_flush]].
  - do 3 (eapply performs_bind; [apply Hwr; lia |]); apply performs_ret.
  - eapply performs_bind; apply Hwr; unfold INFS_LOCATOR_BLOCK_A, INFS_LOCATOR_BLOCK_B; lia.
Qed.

Lemma level_blocks start R count ws :
  Forall2 (at_level start R) (range 0 count) ws -> 0 <= count -> map fst ws = range start (start + count).
Proof.
  intros Hf Hc; transitivity (map (Z.add start) (range 0 count)).
  - induction Hf as [| i w l ws [Hb _] _ IH]; cbn [map]; [reflexivity | congruence].
  - unfold range; replace (start + count - start) with (count - 0) by lia.
    etransitivity; [apply (fmap_add_seqZ start 0 (count - 0)) | f_equal; lia].
Qed.

Lemma level_page start R count ws i :
  Forall2 (at_level start R) (range 0 count) ws -> 0 <= i < count -> exists data, In (start + i, data) ws /\ R i data.
Proof.
  intros Hf Hi; destruct (Forall2_lookup_l _ _ _ (Z.to_nat i) i Hf) as ([b data] & Hw & [Hb HR]).
  { unfold range; rewrite lookup_seqZ; lia. }
  cbn [fst snd] in *; subst b; exists data; split; [| exact HR].
  apply list_elem_of_In; eapply list_elem_of_lookup_2, Hw.
Qed.

(** What is on the medium: [img0] before, [img] after, [cur] the superblock. *)
Record formatted (img0 img cur : list Z) : Prop := {
  fm_medium : medium n img;
  fm_cur : first_block cur;
  fm_leaf : forall i, 0 <= i < p_leaves p -> leaf_is i (blk img (leaf_start p + i));
  fm_level1 : forall i, 0 <= i < p_level1 p ->
    branch_is 1 (leaf_start p) (p_leaves p) i (blk img (level1_start p + i));
  fm_level2 : forall i, 0 <= i < p_level2 p ->
    branch_is 2 (level1_start p) (p_level1 p) i (blk img (level2_start p + i));
  fm_root : root_is (blk img (p_root p));
  fm_page : index_page_is (blk img (index_page_block p)) r index_id (root_block p);
  fm_index : index_is (blk img (index_block p));
  fm_directory : directory_is (blk img (root_block p));
  fm_locator : blk img INFS_LOCATOR_BLOCK_A = locator_block (header cur) /\
               blk img INFS_LOCATOR_BLOCK_B = locator_block (header cur);
  fm_copies : forall b, b ∈ checkpoints p -> blk img b = cur;
  fm_rest : forall b, 0 <= b < n -> ~ reserved p b -> blk img b = blk img0 b
}.

(** The blocks of a new volume, in the order they are written. *)
Definition new_blocks : list Z :=
  (range (leaf_start p) (leaf_start p + p_leaves p) ++ range (level1_start p) (level1_start p + p_level1 p) ++
   range (level2_start p) (level2_start p + p_level2 p) ++ [p_root p]) ++
  [index_page_block p; index_block p; root_block p] ++
  [INFS_LOCATOR_BLOCK_A; INFS_LOCATOR_BLOCK_B; 0; n / 2; n - 1].

Lemma new_blocks_in b : b ∈ new_blocks <-> reserved p b.
Proof.
  pose proof Hp as [Ht [] ? ? ? H2 H1 H0 Hi Hd Hpg]; unfold new_blocks, reserved, checkpoints.
  rewrite !elem_of_app, !range_in, !elem_of_cons, !elem_of_nil, H2, H1, H0, Hi, Hd, Hpg, Ht; lia.
Qed.

Lemma new_blocks_nodup : NoDup new_blocks.
Proof.
  pose proof Hp as [Ht [] ? ? ? H2 H1 H0 Hi Hd Hpg]; pose proof (supported_bounds n Hn).
  pose proof (Z.div_mod n 2 ltac:(lia)); pose proof (Z.mod_pos_bound n 2 ltac:(lia)).
  unfold new_blocks, INFS_LOCATOR_BLOCK_A, INFS_LOCATOR_BLOCK_B.
  repeat (apply NoDup_app; split_and!); try apply NoDup_seqZ;
    try (intros b; rewrite ?elem_of_app, ?range_in, ?elem_of_cons, ?elem_of_nil; lia);
    repeat (apply NoDup_cons; split; [rewrite ?elem_of_cons, elem_of_nil; lia |]); apply NoDup_nil; exact I.
Qed.

Lemma new_writes now cur :
  first_block cur ->
  exists ws, performs image n
      (_ ← write_allocation_tree p bm;
       _ ← write_objects p r index_id uid gid now;
       publish p INFS_LOCATOR_FORMAT_MINOR u (first_superblock p INFS_FORMAT_MINOR used options u r label)) tt ws /\
    forall img0 img, medium n img -> (forall b, 0 <= b < n -> ~ reserved p b -> blk img b = blk img0 b) ->
      formatted img0 (apply_writes ws img) cur.
Proof.
  intros Hcur; destruct write_tree_performs as (leaves & level1 & level2 & root & Hw1 & Hq0 & Hq1 & Hq2 & Hq3).
  destruct (write_objects_performs now) as (page & index & directory & Hw2 & Hpi & [_ Hii] & _ & Hdi).
  pose (ws := (leaves ++ level1 ++ level2 ++ [(p_root p, root)]) ++
    [(index_page_block p, page); (index_block p, index); (root_block p, directory)] ++
    [(INFS_LOCATOR_BLOCK_A, locator_block (header cur)); (INFS_LOCATOR_BLOCK_B, locator_block (header cur));
     (0, cur); (n / 2, cur); (n - 1, cur)]).
  exists ws; match goal with |- performs ?f ?k ?a ?x ?w /\ _ => assert (Hws : performs f k a x w) end.
  { eapply performs_bind; [exact Hw1 | eapply performs_bind; [exact Hw2 | apply publish_performs, Hcur]]. }
  split; [exact Hws |]; destruct Hws as [Hok _].
  pose proof Hp as [Ht [] ? ? ? ? ? ? ? ? ?].
  assert (Hfst : map fst ws = new_blocks).
  { unfold ws; rewrite !map_app, (level_blocks _ _ _ _ Hq0), (level_blocks _ _ _ _ Hq1), (level_blocks _ _ _ _ Hq2) by lia.
    reflexivity. }
  assert (Hnd : List.NoDup (map fst ws)) by (rewrite Hfst; apply NoDup_ListNoDup, new_blocks_nodup).
  intros img0 img Hm Hrest.
  assert (Hin : forall b data, In (b, data) ws -> blk (apply_writes ws img) b = data)
    by (intros b data; apply (blk_apply_in n ws img b data Hm Hok Hnd)).
  split; trivial.
  - apply apply_medium; assumption.
  - intros i Hi; destruct (level_page _ _ _ _ i Hq0 Hi) as (data & Hd & His).
    rewrite (Hin _ data); [exact His |]; unfold ws; rewrite !in_app_iff; auto.
  - intros i Hi; destruct (level_page _ _ _ _ i Hq1 Hi) as (data & Hd & His).
    rewrite (Hin _ data); [exact His |]; unfold ws; rewrite !in_app_iff; auto.
  - intros i Hi; destruct (level_page _ _ _ _ i Hq2 Hi) as (data & Hd & His).
    rewrite (Hin _ data); [exact His |]; unfold ws; rewrite !in_app_iff; auto.
  - rewrite (Hin _ root); [exact Hq3 |]; unfold ws; rewrite !in_app_iff; cbn [In]; auto 10.
  - rewrite (Hin _ page); [exact Hpi |]; unfold ws; rewrite !in_app_iff; cbn [In]; auto 10.
  - rewrite (Hin _ index); [exact Hii |]; unfold ws; rewrite !in_app_iff; cbn [In]; auto 10.
  - rewrite (Hin _ directory); [exact Hdi |]; unfold ws; rewrite !in_app_iff; cbn [In]; auto 10.
  - split; apply Hin; unfold ws; rewrite !in_app_iff; cbn [In]; auto 10.
  - intros b; unfold checkpoints; rewrite Ht, !elem_of_cons, elem_of_nil; intros Hb.
    apply Hin; unfold ws; rewrite !in_app_iff; cbn [In].
    destruct Hb as [-> | [-> | [-> | []]]]; auto 15.
  - intros b Hb Hnr; rewrite <- Hrest by assumption; apply (blk_apply_other n); trivial; [lia |].
    rewrite Hfst, <- list_elem_of_In, new_blocks_in; exact Hnr.
Qed.

(** ** The volume is anchored *)

Lemma page_not_header block index level entries payload :
  page_is block index level entries payload -> ~ header_valid block.
Proof.
  intros [_ Hv _ _] Hh%header_valid_magic; unfold infs_validate_allocation_page in Hv.
  rewrite !andb_true_iff, bytes_eqb_eq in Hv; destruct Hv as [[[[[[[[[_ Hm] _] _] _] _] _] _] _] _].
  rewrite Hh in Hm; unfold allocation_magic in Hm; destruct (level =? 0); discriminate.
Qed.

Lemma object_not_header block : infs_validate_object_block block = true -> ~ header_valid block.
Proof.
  intros Hv Hh%header_valid_magic; unfold infs_validate_object_block, object_fields_ok in Hv.
  rewrite !andb_true_iff, bytes_eqb_eq in Hv; rewrite Hh in Hv; destruct Hv; intuition discriminate.
Qed.

Lemma index_page_not_header block root : index_page_is block r index_id root -> ~ header_valid block.
Proof.
  intros [_ Hv _ _ _ _] Hh%header_valid_magic; unfold infs_validate_metadata_page in Hv.
  rewrite !andb_true_iff, bytes_eqb_eq in Hv; rewrite Hh in Hv; destruct Hv; intuition discriminate.
Qed.

(** A superblock on the new medium is the new one, or was there before. *)
Lemma formatted_header img0 img cur b :
  formatted img0 img cur -> 0 <= b < n -> header_valid (blk img b) -> blk img b = cur \/ blk img b = blk img0 b.
Proof.
  intros [] Hb Hv; destruct (decide (reserved p b)) as [Hres | Hres]; [left | right; apply fm_rest0; assumption].
  pose proof fm_cur0 as (_ & [Hwl Hwb] & _ & _ & Hm); pose proof first_map_ok as Hmap; rewrite <- Hm in Hmap.
  destruct (locator_block_spec n cur Hwl Hwb Hmap) as (_ & _ & Hnl).
  pose proof Hp as [Ht [] ? ? ? H2 H1 H0 Hi Hd Hpg].
  destruct Hres as [Hres | [-> | [-> | Hres]]]; [apply fm_copies0, Hres | exfalso.. |].
  - apply Hnl; rewrite <- (proj1 fm_locator0); exact Hv.
  - apply Hnl; rewrite <- (proj2 fm_locator0); exact Hv.
  - exfalso; rewrite Hpg in Hres.
    destruct (decide (b = p_root p)) as [-> | ?]; [exact (page_not_header _ _ _ _ _ fm_root0 Hv) |].
    destruct (decide (b < level1_start p)).
    { refine (page_not_header _ _ _ _ _ (fm_level4 (b - level2_start p) ltac:(lia)) _).
      replace (level2_start p + (b - level2_start p)) with b by lia; exact Hv. }
    destruct (decide (b < leaf_start p)).
    { refine (page_not_header _ _ _ _ _ (fm_level3 (b - level1_start p) ltac:(lia)) _).
      replace (level1_start p + (b - level1_start p)) with b by lia; exact Hv. }
    destruct (decide (b < index_block p)).
    { refine (page_not_header _ _ _ _ _ (fm_leaf0 (b - leaf_start p) ltac:(lia)) _).
      replace (leaf_start p + (b - leaf_start p)) with b by lia; exact Hv. }
    destruct (decide (b = index_block p)) as [-> | ?]; [exact (object_not_header _ (proj1 fm_index0) Hv) |].
    destruct (decide (b = root_block p)) as [-> | ?]; [exact (object_not_header _ (proj1 fm_directory0) Hv) |].
    replace b with (index_page_block p) in Hv by lia; exact (index_page_not_header _ _ fm_page0 Hv).
Qed.

Lemma formatted_anchored img0 img cur :
  formatted img0 img cur ->
  (forall b, 0 <= b < n -> header_valid (blk img0 b) -> sb_filesystem_uuid (header (blk img0 b)) <> u) ->
  anchored n img cur.
Proof.
  intros Hf Hstale; pose proof (formatted_header img0 img cur) as Hold; specialize (fun b => Hold b Hf).
  destruct Hf; pose proof fm_cur0 as (_ & [Hwl Hwb] & Hv & His & Hm).
  pose proof first_map_ok as Hmap; rewrite <- Hm in Hmap.
  destruct (locator_block_spec n cur Hwl Hwb Hmap) as (_ & Hloc & _).
  pose proof (fi_uuid _ _ _ _ _ _ _ His) as Huu.
  assert (H0 : blk img 0 = cur) by (apply fm_copies0; unfold checkpoints; rewrite elem_of_cons; left; reflexivity).
  split; trivial; [split; assumption | | | |].
  - intros j Hj; apply fm_copies0; rewrite <- (fi_checkpoints _ _ _ _ _ _ _ His), list_elem_of_In.
    apply in_map; destruct j as [| [| [| j]]]; [cbn; tauto.. | lia].
  - exists INFS_LOCATOR_BLOCK_A, (primary_map (header cur)); split_and!; [left; reflexivity | |].
    + rewrite (proj1 fm_locator0); exact Hloc.
    + apply belongs_primary, Hv.
  - intros m [Hs | [Hs | Hs]].
    + rewrite (proj1 fm_locator0), Hloc in Hs; injection Hs as <-; reflexivity.
    + rewrite (proj2 fm_locator0), Hloc in Hs; injection Hs as <-; reflexivity.
    + rewrite H0 in Hs; apply (primary_map_ok cur n m Hwl Hwb) in Hs as (_ & _ & ->); reflexivity.
  - intros b Hb Hvb Hub _; destruct (Hold b Hb Hvb) as [He | He]; [exact He |].
    exfalso; rewrite He in Hvb, Hub; apply (Hstale b Hb Hvb); rewrite Hub; exact Huu.
Qed.

End Fresh.
(** ** Formatting succeeds *)

Section Run.
Context {E : Endian} {P : Platform} {A : CheckedArithmetic} {C : Type} (image : C -> list Z).

Lemma fresh_good_id id avoid1 avoid2 : fresh_id id avoid1 avoid2 -> good_id id.
Proof.
  intros (Hl & Hb & Hz & _); split_and!; trivial.
  unfold id_is_nonzero, bytes_are_zero; apply negb_true_iff, Hz.
Qed.

Lemma marked_range n p bm :
  supported n -> planned n p -> (forall b, 0 <= b < n -> bitmap_bit bm b = bool_decide (reserved p b)) ->
  0 <= marked bm (range 0 n) <= n.
Proof.
  intros Hn Hp Hbits; rewrite (marked_new n p Hn Hp bm Hbits); pose proof Hp as [_ [] ? ? ? _ _ _ _ _ _].
  pose proof (supported_bounds n Hn).
  pose proof (Z.div_mod n 2 ltac:(lia)); pose proof (Z.mod_pos_bound n 2 ltac:(lia)); lia.
Qed.

Lemma prepare_supported s img n label options :
  supported n -> medium n img -> accepts image s img -> accept_label label = Good tt ->
  Z.ldiff options INFS_KNOWN_FORMAT_OPTIONS = 0 ->
  exists p bm, prepare s label options INFS_FORMAT_MINOR true = Good (p, bm) /\ planned n p /\ bytes_ok bm /\
    n <= 8 * Z.of_nat (length bm) /\ forall b, 0 <= b < n -> bitmap_bit bm b = bool_decide (reserved p b).
Proof.
  intros Hn [_ Hl _ _] Ha Hlab Hopt; destruct (plan_supported n Hn) as (p & Hplan & Hp).
  destruct (make_bitmap_ok n p Hn Hp) as (bm & Hbm & Hok & Hlen & Hbits); exists p, bm.
  split; [| auto]; unfold prepare; rewrite Hopt, (accepts_can_format _ _ _ Ha), Hlab.
  destruct (accepts_size _ _ _ Ha) as (device & Hsize); unfold accept_size; rewrite Hsize, Hl.
  pose proof (supported_bounds n Hn).
  rewrite Z2Nat.id by (unfold block_size; lia); cbn [fst mbind result_bind negb andb].
  rewrite Z.mod_mul by (unfold block_size; lia).
  unfold INFS_MIN_SIZE_BYTES; replace (n * block_size <? 16 * 1024 * 1024) with false by (unfold block_size; lia).
  change (0 =? 0) with true; cbn [negb mbind result_bind fst]; rewrite Z.div_mul by (unfold block_size; lia).
  change INFS_FORMAT_MINOR with INFS_LOCATOR_FORMAT_MINOR; rewrite Hplan; cbn [mbind result_bind]; rewrite Hbm.
  reflexivity.
Qed.

(** Formatting a device of a supported size, from the guards to the last flush. *)
Lemma format_run s img0 n label options uid gid u r index_id s0 :
  supported n -> medium n img0 -> accepts image s img0 ->
  Z.ldiff options INFS_KNOWN_FORMAT_OPTIONS = 0 -> accept_label label = Good tt -> bytes_ok label ->
  fits 32 uid -> fits 32 gid -> generate_ids s = (Good (u, r, index_id), s0) ->
  exists s' img cur p bm,
    infs_format_storage_with_root_owner label options uid gid true s = (OK, s') /\ accepts image s' img /\
    planned n p /\ bytes_ok bm /\ n <= 8 * Z.of_nat (length bm) /\
    (forall b, 0 <= b < n -> bitmap_bit bm b = bool_decide (reserved p b)) /\
    good_id u /\ formatted n p bm u r index_id label options uid gid (marked bm (range 0 n)) img0 img cur.
Proof.
  intros Hn Hm Ha Hopt Hlab Hlb Huid Hgid Hids.
  destruct (prepare_supported s img0 n label options Hn Hm Ha Hlab Hopt) as (p & bm & Hprep & Hp & Hbm & Hlen & Hbits).
  destruct (generate_ids_ok _ _ _ _ _ _ _ Ha Hids) as (Ha0 & Hu%fresh_good_id & Hr%fresh_good_id & Hi%fresh_good_id).
  destruct (accepts_time _ _ _ Ha0) as (now & s1 & Htime & Ha1); pose proof (supported_bounds n Hn) as Hb.
  assert (Hused : 0 <= marked bm (range 0 n) <= n) by (apply (marked_range n p bm Hn Hp Hbits)).
  destruct (first_block_exists n p Hn Hp bm u r label options (marked bm (range 0 n)) Hu Hr Hlab Hlb Hused) as (cur & Hcur).
  destruct (new_writes image n p Hn Hp bm Hbm Hlen u r index_id label options uid gid (marked bm (range 0 n))
    Hu Hr Hi Huid Hgid Hused now cur Hcur) as (ws & Hws & Hform).
  pose proof (wipe_performs image n p Hn Hp bm) as [Hwok Hwipe].
  destruct (Hwipe s1 img0 Ha1 Hm) as (s2 & Ew & Ha2).
  pose proof (apply_medium n (wiped n) img0 Hm Hwok) as Hm2; destruct (proj2 Hws s2 _ Ha2 Hm2) as (s3 & Et & Ha3).
  exists s3, (apply_writes ws (apply_writes (wiped n) img0)), cur, p, bm; split_and!; trivial; try apply Hu.
  - unfold infs_format_storage_with_root_owner, format_storage_development, status_of, mbind, io_bind.
    rewrite Hprep, Hids, Htime, (pl_total _ _ Hp), (count_used_eq n Hn).
    change INFS_FORMAT_MINOR with INFS_LOCATOR_FORMAT_MINOR in Et |- *; rewrite Ew.
    unfold mbind, io_bind in Et; rewrite Et; reflexivity.
  - apply Hform; [exact Hm2 |]; intros b Hbr Hnr; apply (blk_apply_other n); trivial; [lia |].
    intros Hin; apply Hnr; apply list_elem_of_In in Hin; unfold reserved, checkpoints; rewrite (pl_total _ _ Hp).
    revert Hin; cbn [wiped map fst]; rewrite !elem_of_cons, elem_of_nil; tauto.
Qed.

(** Recovery of an anchored volume returns its superblock, with all its copies. *)
Lemma anchored_recovers n img cur (s : infs_storage C) :
  anchored n img cur -> served image s img ->
  exists s', infs_read_best_superblock s (n * block_size) = (Good (header cur, 3), s').
Proof.
  intros [[Ho Hl Hmin Hmax] _ Hv Hmap Hcp Hloc Hfs Hnew] Hs.
  assert (Hone : one_filesystem img n) by (intros m m' H H'; rewrite (Hfs m H), (Hfs m' H'); reflexivity).
  assert (H0 : blk img 0 = cur) by (rewrite <- (position_zero n (header cur) Hmap); apply Hcp; lia).
  assert (Hr : reachable img n cur).
  { exists (primary_map (header cur)), 0%nat; split_and!; [| lia | | apply belongs_primary, Hv].
    - apply primary_survives; assumption.
    - rewrite primary_checkpoint by lia; symmetry; apply Hcp; lia. }
  destruct (recovery_newest image img n Ho Hl Hmin Hmax s cur Hs Hone Hr) as (raw & s' & He & _ & Hraw & Hbest).
  assert (raw = cur) as ->.
  { specialize (Hbest cur Hr); destruct Hraw as (m & j & Hm & Hj & -> & Hvr & _ & Hur & _).
    pose proof (survives_ok img n Ho Hl Hmin m Hm) as Hok; pose proof (map_ok_position n m j Hok Hj).
    apply Hnew; [destruct Hok as (_ & ? & _); lia | exact Hvr | rewrite Hur; apply Hfs, Hm | exact Hbest]. }
  exists s'; rewrite He; do 3 f_equal; unfold copies_of; cbn [INFS_CHECKPOINT_COUNT seq List.filter].
  rewrite !Hcp by lia.
  assert (Hc : copy_matches (header cur) cur = true).
  { unfold copy_matches, infs_decode_superblock, infs_validate_superblock_block.
    change INFS_FORMAT_MINOR with INFS_LOCATOR_FORMAT_MINOR; rewrite Hv; cbn [negb].
    unfold header; rewrite !bytes_eqb_refl; reflexivity. }
  rewrite Hc; reflexivity.
Qed.

(** C5.  Formatting makes a volume.  On a device that takes its writes, of any
    supported size and whatever it held before, formatting succeeds once three
    identifiers could be drawn that no old superblock carries; recovery then
    returns the new superblock with all three copies, the volume is ready for its
    first crash-safe publication, and the superblock says what was asked for. *)
Theorem format_makes_volume s img0 n label options uid gid u r index_id s0 :
  supported n -> medium n img0 -> accepts image s img0 ->
  Z.ldiff options INFS_KNOWN_FORMAT_OPTIONS = 0 -> accept_label label = Good tt -> bytes_ok label ->
  fits 32 uid -> fits 32 gid -> generate_ids s = (Good (u, r, index_id), s0) ->
  (forall b, 0 <= b < n -> header_valid (blk img0 b) -> sb_filesystem_uuid (header (blk img0 b)) <> u) ->
  exists s' s'' img cur,
    infs_format_storage_with_root_owner label options uid gid true s = (OK, s') /\ accepts image s' img /\
    infs_read_best_superblock s' (n * block_size) = (Good (header cur, 3), s'') /\ anchored n img cur /\
    sb_generation (header cur) = 1 /\ sb_total_blocks (header cur) = n /\
    sb_filesystem_uuid (header cur) = u /\ sb_root_object_id (header cur) = r /\
    sb_label (header cur) = text label ++ replicate (INFS_LABEL_MAX - strlen label) 0 /\
    sb_incompat_flags (header cur) = format_incompat_flags options.
Proof.
  intros Hn Hm Ha Hopt Hlab Hlb Huid Hgid Hids Hstale.
  destruct (format_run s img0 n label options uid gid u r index_id s0) as
    (s' & img & cur & p & bm & Hok & Ha' & Hp & _ & _ & Hbits & Hu & Hf); trivial.
  assert (Hused : 0 <= marked bm (range 0 n) <= n) by (apply (marked_range n p bm Hn Hp Hbits)).
  pose proof (formatted_anchored _ _ Hn Hp _ _ _ _ _ _ _ _ _ Hu Hused _ _ _ Hf Hstale) as Hanch.
  destruct (anchored_recovers n img cur s' Hanch (accepts_served _ _ _ Ha')) as (s'' & Hrec).
  exists s', s'', img, cur; destruct (fm_cur _ _ _ _ _ _ _ _ _ _ _ _ _ _ Hf) as (_ & _ & _ & [] & _).
  split_and!; trivial; rewrite <- (pl_total _ _ Hp); assumption.
Qed.

End Run.
(** ** Refusals *)

Section Refusals.
Context {E : Endian} {P : Platform} {A : CheckedArithmetic} {C : Type}.

Lemma refused (s : infs_storage C) label options minor uid gid ok e :
  prepare s label options minor ok = Bad e ->
  format_storage_development label options minor uid gid ok s = (e, s).
Proof.
  intros He; unfold format_storage_development, status_of, mbind, io_bind; rewrite He; reflexivity.
Qed.

(** C15.  The formatter refuses before it touches anything: unknown options, a label
    that is too long or not UTF-8, a size that is not whole blocks, a volume too
    small or too large for the allocation tree each give their error and the very
    handle that was passed in. *)
Theorem format_refuses_untouched (s : infs_storage C) label options uid gid ok size device :
  can_format s = true -> infs_storage_get_size s = Good (size, device) -> 0 <= size ->
  let format := infs_format_storage_with_root_owner label options uid gid ok s in
  (Z.ldiff options INFS_KNOWN_FORMAT_OPTIONS <> 0 -> format = (INVALID_ARGUMENT, s)) /\
  (Z.ldiff options INFS_KNOWN_FORMAT_OPTIONS = 0 ->
   ((INFS_LABEL_MAX <= strlen label)%nat -> format = (NAME_TOO_LONG, s)) /\
   ((strlen label < INFS_LABEL_MAX)%nat -> infs_utf8_validate (text label) = false ->
    format = (INVALID_ARGUMENT, s)) /\
   (accept_label label = Good tt ->
    (size mod block_size <> 0 -> format = (INVALID_ARGUMENT, s)) /\
    (size mod block_size = 0 -> size < INFS_MIN_SIZE_BYTES -> format = (NO_SPACE, s)) /\
    (size mod block_size = 0 -> INFS_ALLOCATION_TREE_MAX_BLOCKS < size / block_size -> format = (NOT_SUPPORTED, s)))).
Proof.
  intros Hcan Hsize H0 format; unfold format, infs_format_storage_with_root_owner.
  assert (Hmin : negb (INFS_FORMAT_MINOR =? INFS_FORMAT_MINOR) && negb (INFS_FORMAT_MINOR =? INFS_LOCATOR_FORMAT_MINOR) = false)
    by reflexivity.
  split; [intros Ho | intros Ho; split_and!].
  - apply refused; unfold prepare; rewrite Hmin; destruct (Z.eqb_spec (Z.ldiff options INFS_KNOWN_FORMAT_OPTIONS) 0);
      [contradiction | reflexivity].
  - intros Hl; apply refused; unfold prepare, accept_label; rewrite Hmin, Ho, Hcan, decide_True by exact Hl; reflexivity.
  - intros Hl Hu; apply refused; unfold prepare, accept_label; fold (text label).
    rewrite Hmin, Ho, Hcan, decide_False, Hu by lia; reflexivity.
  - intros Hlab; split_and!; intros Hmod.
    + apply refused; unfold prepare, accept_size; rewrite Hmin, Ho, Hcan, Hlab, Hsize; cbn [mbind result_bind fst].
      destruct (Z.eqb_spec (size mod block_size) 0); [contradiction | reflexivity].
    + intros Hsmall; apply refused; unfold prepare, accept_size; rewrite Hmin, Ho, Hcan, Hlab, Hsize.
      cbn [mbind result_bind fst]; rewrite Hmod, (proj2 (Z.ltb_lt _ _) Hsmall); reflexivity.
    + intros Hbig; apply refused; unfold prepare, accept_size; rewrite Hmin, Ho, Hcan, Hlab, Hsize.
      cbn [mbind result_bind fst]; rewrite Hmod.
      destruct capacity_values as (_ & _ & _ & Hmax); rewrite Hmax in Hbig.
      pose proof (Z.div_mod size block_size ltac:(unfold block_size; lia)) as Hd; rewrite Hmod in Hd.
      replace (size <? INFS_MIN_SIZE_BYTES) with false by (unfold INFS_MIN_SIZE_BYTES, block_size in *; lia).
      change (0 =? 0) with true; cbn [negb mbind result_bind]; unfold make_plan, formatter_allocation_counts.
      rewrite Hmax; replace (_ || _)%bool with true by lia; reflexivity.
Qed.

End Refusals.

(** ** A device in memory *)

Section Samples.
#[local] Existing Instance reference_endian.
#[local] Existing Instance reference_platform.
#[local] Existing Instance reference_arithmetic.

Record device := Device { contents : list Z; seed : Z }.

Definition device_ops : infs_storage_ops device := {|
  read_at := Some (fun c off k =>
    if decide (Z.to_nat off + k <= length (contents c))%nat
    then (Good (slice (Z.to_nat off) k (contents c)), c) else (Bad IO_ERROR, c));
  write_at := Some (fun c off bs =>
    if decide (Z.to_nat off + length bs <= length (contents c))%nat
    then (OK, Device (splice (Z.to_nat off) bs (contents c)) (seed c)) else (IO_ERROR, c));
  read_at_policy := None; write_at_policy := None;
  flush := Some (fun c => (OK, c));
  get_size := Some (fun c => Good (Z.of_nat (length (contents c)), true));
  random_bytes := Some (fun c k => (Good (replicate k (u8 (seed c))), Device (contents c) (seed c + 1)));
  current_time := Some (fun c => (Good (Timestamp 1700000000 5), c));
  close := None
|}.

Definition device_storage (img : list Z) (k : Z) : infs_storage device :=
  Handle (Some device_ops) (Some (Device img k)).

Lemma device_ops_obliging : obliging contents device_ops (fun _ => True).
Proof.
  split; (eexists; split; [reflexivity |]).
  - intros c off n _ _ Hl; cbv beta; rewrite decide_True by exact Hl; eauto.
  - intros c off bs _ _ Hl; cbv beta; rewrite decide_True by exact Hl; eauto.
  - intros c _; exists c; auto.
  - intros c _; exists true; reflexivity.
  - intros c n r c' _ [= <- <-]; split_and!; trivial; intros bs [= <-].
    split; [apply length_replicate | apply bytes_ok_replicate, wrap_range; lia].
  - intros c _; exists (Timestamp 1700000000 5), c; auto.
Qed.

Lemma device_accepts img k : accepts contents (device_storage img k) img.
Proof. exists device_ops, (Device img k), (fun _ => True); split_and!; trivial; exact device_ops_obliging. Qed.

(** 16 MiB of zeros. *)
Definition blank : list Z := replicate (Z.to_nat (4096 * block_size)) 0.

Lemma blank_medium : medium 4096 blank.
Proof.
  split; [apply zeros_ok | apply length_replicate | unfold INFS_LOCATOR_MIN_VOLUME_BLOCKS; lia | unfold block_size; lia].
Qed.

Lemma blank_not_header b : 0 <= b < 4096 -> ~ header_valid (blk blank b).
Proof.
  intros Hb Hv%header_valid_magic; revert Hv; unfold blk, blank.
  rewrite slice_replicate by (unfold block_size, INFS_BLOCK_SIZE; lia).
  rewrite slice_replicate by (unfold INFS_BLOCK_SIZE; lia); discriminate.
Qed.

Lemma device_ids img :
  generate_ids (device_storage img 1) =
    (Good (replicate 16 1, replicate 16 2, replicate 16 3), device_storage img 4).
Proof. reflexivity. Qed.

(** DATA *)
Definition sample_label : list Z := [68; 65; 84; 65].

Lemma format_makes_volume_witness :
  exists s' s'' img cur,
    infs_format_storage_with_root_owner sample_label 3 1000 1000 true (device_storage blank 1) = (OK, s') /\
    accepts contents s' img /\
    infs_read_best_superblock s' (4096 * block_size) = (Good (header cur, 3), s'') /\ anchored 4096 img cur /\
    sb_generation (header cur) = 1 /\ sb_total_blocks (header cur) = 4096 /\
    sb_filesystem_uuid (header cur) = replicate 16 1 /\ sb_root_object_id (header cur) = replicate 16 2 /\
    sb_label (header cur) = text sample_label ++ replicate (INFS_LABEL_MAX - strlen sample_label) 0 /\
    sb_incompat_flags (header cur) = format_incompat_flags 3.
Proof.
  apply (format_makes_volume contents (device_storage blank 1) blank 4096 sample_label 3 1000 1000
    (replicate 16 1) (replicate 16 2) (replicate 16 3) (device_storage blank 4)).
  - unfold supported, INFS_LOCATOR_MIN_VOLUME_BLOCKS; destruct capacity_values as (_ & _ & _ & ->); lia.
  - exact blank_medium.
  - apply device_accepts.
  - reflexivity.
  - reflexivity.
  - eval_decide.
  - eval_decide.
  - eval_decide.
  - apply device_ids.
  - intros b Hb Hv; destruct (blank_not_header b Hb Hv).
Defined.

Lemma format_refuses_untouched_witness :
  can_format (device_storage [1; 2; 3] 1) = true /\
  infs_format_storage_with_root_owner sample_label 0 0 0 true (device_storage [1; 2; 3] 1) =
    (INVALID_ARGUMENT, device_storage [1; 2; 3] 1).
Proof.
  split; [reflexivity |].
  apply (format_refuses_untouched (device_storage [1; 2; 3] 1) sample_label 0 0 0 true 3 true);
    [reflexivity | reflexivity | lia | reflexivity | reflexivity | vm_compute; discriminate].
Defined.

End Samples.
End FreshVolumeFacts.
