(* ===== verification/Allocator.v ===== *)
(** The block allocator and the transactions of a volume,
    [src/src/volume/core.inc]: the allocation bitmap, the runtime index of free
    extents, the choice of a run, the journal of allocations, deferred frees, and
    the two levels of rollback (the transaction, and the savepoint of one
    operation inside it).

    The mutable volume is a record that the operations take and return.  Growing
    an array may fail: [reserves t] is the answer to the [t]-th request, and the
    record counts the requests.  The object and directory caches, which only
    speed up lookups elsewhere, are the interface [Caches].  Array capacities and
    [memmove] are those of lists. *)

From stdpp Require Import prelude.
From S2P Require Import Prelude Endian Checksum Format Storage Objects FormatVolume.
#[local] Open Scope Z_scope.

(** * Definitions *)

Module Allocator.
Import Storage Objects.

(** ** The bitmap *)

Definition bitmap_get (bitmap : list Z) (block : Z) : bool :=
  negb ((((bitmap !!! Z.to_nat (block ≫ 3)) ≫ (block .& 7)) .& 1) =? 0).

Definition bitmap_set (bitmap : list Z) (block : Z) (allocated : bool) : list Z :=
  let mask := u8 (1 ≪ (block .& 7)) in
  let i := Z.to_nat (block ≫ 3) in
  if allocated then <[i := u8 ((bitmap !!! i) .| mask)]> bitmap
  else <[i := u8 ((bitmap !!! i) .& u8 (Z.lnot mask))]> bitmap.

(** [for (b = 0; b < count; ++b) bitmap_set (bitmap, start + b, allocated)]. *)
Definition bitmap_set_run (bitmap : list Z) (start count : Z) (allocated : bool) : list Z :=
  fold_left (fun bm b => bitmap_set bm (u64 (start + b)) allocated) (seqZ 0 count) bitmap.

(** The number of bits of a byte that are clear. *)
Definition byte_free (byte : Z) : Z :=
  let value := u8 (byte - ((byte ≫ 1) .& 0x55)) in
  let value := u8 ((value .& 0x33) + ((value ≫ 2) .& 0x33)) in
  let value := u8 ((value + (value ≫ 4)) .& 0x0f) in
  8 - value.

Definition bitmap_count_free (bitmap : list Z) (total : Z) : Z :=
  let full_bytes := total ≫ 3 in
  let count := fold_left (fun c byte => u64 (c + byte_free (bitmap !!! Z.to_nat byte)))
                 (seqZ 0 full_bytes) 0 in
  fold_left (fun c bit => u64 (c + (if bitmap_get bitmap bit then 0 else 1)))
    (seqZ (full_bytes ≪ 3) (total - (full_bytes ≪ 3))) count.

(** [while (b < bound && !stop (b)) ++b;], with [fuel] the distance to [bound]. *)
Fixpoint advance (fuel : nat) (stop : Z -> bool) (b : Z) : Z :=
  match fuel with
  | O => b
  | S fuel' => if stop b then b else advance fuel' stop (b + 1)
  end.

(** [while (b > bound && !stop (b - 1)) --b;]. *)
Fixpoint retreat (fuel : nat) (stop : Z -> bool) (b : Z) : Z :=
  match fuel with
  | O => b
  | S fuel' => if stop (b - 1) then b else retreat fuel' stop (b - 1)
  end.

Definition skip_used (bitmap : list Z) (bound b : Z) : Z :=
  advance (Z.to_nat (bound - b)) (fun b => negb (bitmap_get bitmap b)) b.
Definition skip_free (bitmap : list Z) (bound b : Z) : Z :=
  advance (Z.to_nat (bound - b)) (bitmap_get bitmap) b.

(** ** Ranges, transactions, volumes *)

(** [struct infs_free_extent] and [struct infs_deferred_range]. *)
Record extent := Extent { start : Z; count : Z }.

#[global] Instance extent_eq_dec : EqDecision extent.
Proof. solve_decision. Defined.

Record transaction := Tx {
  tx_active : bool; tx_error : infs_status; tx_base_sb : list Z;
  tx_deferred : list extent; tx_allocated : list extent
}.

(** The savepoint of one operation ([tx_operation_*]). *)
Record savepoint := Savepoint {
  op_active : bool; op_sb : list Z; op_allocated_count : nat; op_deferred_count : nat;
  op_had_last_deferred : bool; op_last_deferred : extent; op_pending_bytes : Z;
  op_data_cursor : Z; op_metadata_cursor : Z
}.

Record infs_volume {C K : Type} := Vol {
  storage : infs_storage C; writable : bool; reopen_required_status : infs_status;
  sb : list Z; bitmap : list Z;
  free_extents : list extent; free_extent_index_valid : bool;
  tx : transaction; op : savepoint; tx_pending_bytes : Z;
  data_allocation_cursor : Z; metadata_allocation_cursor : Z;
  checksum_cursor_valid : bool; caches : K; requests : nat
}.
#[global] Arguments infs_volume : clear implicits.
#[global] Arguments Vol {C K}.

(** The object and directory caches ([object_cache_clear], [directory_cache_clear],
    [object_cache_rebuild]): what they hold after each call. *)
Class Caches (C K : Type) := {
  object_cache_clear : K -> K;
  directory_cache_clear : K -> K;
  object_cache_rebuild : infs_volume C K -> K
}.

Section Volume.
Context {E : Endian} {A : CheckedArithmetic} {C K : Type} {CC : Caches C K}.
Context (reserves : nat -> bool).

#[local] Abbreviation volume := (infs_volume C K).

(** *** Updates of one field *)

Definition set_storage (v : volume) (s : infs_storage C) : volume :=
  let '(Vol _ w r sb bm fe fv t o pb dc mc cc k n) := v in Vol s w r sb bm fe fv t o pb dc mc cc k n.
Definition set_sb (v : volume) (sb : list Z) : volume :=
  let '(Vol s w r _ bm fe fv t o pb dc mc cc k n) := v in Vol s w r sb bm fe fv t o pb dc mc cc k n.
Definition set_bitmap (v : volume) (bm : list Z) : volume :=
  let '(Vol s w r sb _ fe fv t o pb dc mc cc k n) := v in Vol s w r sb bm fe fv t o pb dc mc cc k n.
Definition set_index (v : volume) (fe : list extent) (fv : bool) : volume :=
  let '(Vol s w r sb bm _ _ t o pb dc mc cc k n) := v in Vol s w r sb bm fe fv t o pb dc mc cc k n.
Definition set_tx (v : volume) (t : transaction) : volume :=
  let '(Vol s w r sb bm fe fv _ o pb dc mc cc k n) := v in Vol s w r sb bm fe fv t o pb dc mc cc k n.
Definition set_op (v : volume) (o : savepoint) : volume :=
  let '(Vol s w r sb bm fe fv t _ pb dc mc cc k n) := v in Vol s w r sb bm fe fv t o pb dc mc cc k n.
Definition set_hints (v : volume) (pb dc mc : Z) : volume :=
  let '(Vol s w r sb bm fe fv t o _ _ _ cc k n) := v in Vol s w r sb bm fe fv t o pb dc mc cc k n.
Definition set_caches (v : volume) (cc : bool) (k : K) : volume :=
  let '(Vol s w r sb bm fe fv t o pb dc mc _ _ n) := v in Vol s w r sb bm fe fv t o pb dc mc cc k n.
Definition set_requests (v : volume) (n : nat) : volume :=
  let '(Vol s w r sb bm fe fv t o pb dc mc cc k _) := v in Vol s w r sb bm fe fv t o pb dc mc cc k n.

Definition total_blocks (v : volume) : Z := sb_total_blocks (sb v).
Definition free_blocks (v : volume) : Z := sb_free_blocks (sb v).
Definition set_free_blocks (v : volume) (n : Z) : volume :=
  set_sb v (splice 36 (store_le64 n) (sb v)).

(** [infiltratr_array_reserve]. *)
Definition array_reserve (v : volume) : bool * volume :=
  (reserves (requests v), set_requests v (S (requests v))).

(** ** The free-extent index *)

(** The maximal free runs from [b] on; [fuel] bounds the turns. *)
Fixpoint free_runs (fuel : nat) (bitmap : list Z) (total b : Z) : list extent :=
  match fuel with
  | O => []
  | S fuel' =>
      if b <? total then
        let first := skip_used bitmap total b in
        if first =? total then []
        else
          let last := skip_free bitmap total first in
          Extent first (last - first) :: free_runs fuel' bitmap total last
      else []
  end.

(** The first loop counts the runs the second one stores. *)
Definition free_extent_index_rebuild (v : volume) : bool * volume :=
  let total := total_blocks v in
  let '(ok, v) := array_reserve v in
  if negb ok then (false, set_index v (free_extents v) false)
  else (true, set_index v (free_runs (Z.to_nat total) (bitmap v) total 0) true).

Definition free_extent_index_invalidate (v : volume) : volume := set_index v (free_extents v) false.

(** What removing [start, end) from a list of extents does. *)
Inductive removal := NotFound | Replaced (l : list extent) | Split (l : list extent).

Definition removal_map (f : list extent -> list extent) (r : removal) : removal :=
  match r with NotFound => NotFound | Replaced l => Replaced (f l) | Split l => Split (f l) end.

Fixpoint remove_run (extents : list extent) (first last : Z) : removal :=
  match extents with
  | [] => NotFound
  | e :: rest =>
      match infiltratr_u64_add_checked (start e) (count e) with
      | None => NotFound
      | Some e_end =>
          if (first <? start e) || (last >? e_end) then removal_map (cons e) (remove_run rest first last)
          else if (first =? start e) && (last =? e_end) then Replaced rest
          else if first =? start e then Replaced (Extent last (e_end - last) :: rest)
          else if last =? e_end then Replaced (Extent (start e) (first - start e) :: rest)
          else Split (Extent (start e) (first - start e) :: Extent last (e_end - last) :: rest)
      end
  end.

(** Room for one more extent. *)
Definition reserve_one (v : volume) : bool * volume :=
  match infiltratr_size_add_checked (Z.of_nat (length (free_extents v))) 1 with
  | None => (false, v)
  | Some _ => array_reserve v
  end.

Definition free_extent_index_remove (v : volume) (first n : Z) : bool * volume :=
  if negb (free_extent_index_valid v) || (n =? 0) then (false, v)
  else match infiltratr_u64_add_checked first n with
       | None => (false, v)
       | Some last =>
           match remove_run (free_extents v) first last with
           | NotFound => (false, v)
           | Replaced l => (true, set_index v l true)
           | Split l => let '(ok, v) := reserve_one v in
                        if negb ok then (false, v) else (true, set_index v l true)
           end
       end.

(** The extents that end before [first], and the others; [None] on overflow. *)
Fixpoint add_skip (extents : list extent) (first : Z) : option (list extent * list extent) :=
  match extents with
  | [] => Some ([], [])
  | e :: rest =>
      match infiltratr_u64_add_checked (start e) (count e) with
      | None => None
      | Some e_end =>
          if e_end >=? first then Some ([], e :: rest)
          else '(before, after) ← add_skip rest first; Some (e :: before, after)
      end
  end.

(** The step back to an extent that still touches [first]. *)
Definition add_back (before after : list extent) (first last : Z)
    : option (list extent * list extent * Z * Z) :=
  match reverse before with
  | [] => Some (before, after, first, last)
  | prev :: rest =>
      match infiltratr_u64_add_checked (start prev) (count prev) with
      | None => None
      | Some prev_end =>
          if prev_end >=? first
          then Some (reverse rest, prev :: after, start prev, if prev_end >? last then prev_end else last)
          else Some (before, after, first, last)
      end
  end.

(** Swallow the extents that touch [first, last). *)
Fixpoint add_merge (extents : list extent) (first last : Z) : option (Z * Z * list extent) :=
  match extents with
  | [] => Some (first, last, [])
  | e :: rest =>
      if start e <=? last then
        match infiltratr_u64_add_checked (start e) (count e) with
        | None => None
        | Some e_end =>
            add_merge rest (if start e <? first then start e else first)
              (if e_end >? last then e_end else last)
        end
      else Some (first, last, extents)
  end.

Definition free_extent_index_add (v : volume) (first n : Z) : bool * volume :=
  if negb (free_extent_index_valid v) || (n =? 0) then (false, v)
  else match (last ← infiltratr_u64_add_checked first n;
              '(before, after) ← add_skip (free_extents v) first;
              '(before, after, first, last) ← add_back before after first last;
              '(first, last, rest) ← add_merge after first last;
              Some (before, after, rest, Extent first (last - first))) with
       | None => (false, v)
       | Some (before, after, rest, e) =>
           if decide (length rest < length after)%nat then (true, set_index v (before ++ e :: rest) true)
           else let '(ok, v) := reserve_one v in
                if negb ok then (false, v) else (true, set_index v (before ++ e :: rest) true)
       end.

(** ** Choosing a run *)

(** A search that may stop: the run it found, or the best so far. *)
Definition search : Type := (Z * Z) + (Z * Z).

Definition consider (wanted candidate available : Z) (best : Z * Z) : search :=
  let n := if available <? wanted then available else wanted in
  if n =? wanted then inl (candidate, wanted)
  else inr (if n >? best.2 then (candidate, n) else best).

Fixpoint search_extents (f : extent -> Z * Z -> search) (extents : list extent) (best : Z * Z) : search :=
  match extents with
  | [] => inr best
  | e :: rest => match f e best with inl found => inl found | inr best => search_extents f rest best end
  end.

Definition then_search (r : search) (k : Z * Z -> search) : search :=
  match r with inl found => inl found | inr best => k best end.

(** One extent in a forward pass. *)
Definition forward_extent (pass : bool) (wanted cursor : Z) (e : extent) (best : Z * Z) : search :=
  let last := u64 (start e + count e) in
  if (negb pass && (last <=? cursor)) || (pass && (last >? cursor)) then inr best
  else
    let candidate := if negb pass && (start e <? cursor) then cursor else start e in
    if candidate >=? last then inr best
    else consider wanted candidate (last - candidate) best.

Definition whole_extent (wanted : Z) (e : extent) (best : Z * Z) : search :=
  consider wanted (start e) (count e) best.

(** The run chosen, [None] when there is none. *)
Definition free_extent_index_choose_forward (v : volume) (wanted cursor : Z) : option (Z * Z) :=
  if negb (free_extent_index_valid v) || (wanted =? 0) || bool_decide (free_extents v = []) then None
  else
    let r := search_extents (forward_extent false wanted cursor) (free_extents v) (0, 0) in
    let r := then_search r (search_extents (forward_extent true wanted cursor) (free_extents v)) in
    let r := then_search r (search_extents (whole_extent wanted) (free_extents v)) in
    match r with
    | inl found => Some found
    | inr best => if best.2 =? 0 then None else Some best
    end.

(** [consider] for a run that ends at [last]. *)
Definition consider_end (wanted last available : Z) (best : Z * Z) : search :=
  let n := if available <? wanted then available else wanted in
  if n =? wanted then inl (u64 (last - wanted), wanted)
  else inr (if n >? best.2 then (u64 (last - n), n) else best).

Definition reverse_extent (pass : bool) (wanted cursor : Z) (e : extent) (best : Z * Z) : search :=
  let last := u64 (start e + count e) in
  if (negb pass && (start e >=? cursor)) || (pass && (start e <? cursor)) then inr best
  else
    let candidate_end := if negb pass && (last >? cursor) then cursor else last in
    if candidate_end <=? start e then inr best
    else consider_end wanted candidate_end (candidate_end - start e) best.

Definition whole_extent_end (wanted : Z) (e : extent) (best : Z * Z) : search :=
  consider_end wanted (u64 (start e + count e)) (count e) best.

Definition free_extent_index_choose_reverse (v : volume) (wanted cursor : Z) (exact : bool)
    : option (Z * Z) :=
  if negb (free_extent_index_valid v) || (wanted =? 0) || bool_decide (free_extents v = []) then None
  else
    let extents := reverse (free_extents v) in
    let r := search_extents (reverse_extent false wanted cursor) extents (0, 0) in
    let r := then_search r (search_extents (reverse_extent true wanted cursor) extents) in
    let r := then_search r (search_extents (whole_extent_end wanted) extents) in
    match r with
    | inl found => Some found
    | inr best => if exact || (best.2 =? 0) then None else Some best
    end.

(** [alloc_scan_segment] from [b]: [inl] when a run of the wanted length was found;
    [fuel] bounds the turns. *)
Fixpoint scan_segment (fuel : nat) (bitmap : list Z) (wanted last b : Z) (best : Z * Z) : search :=
  match fuel with
  | O => inr best
  | S fuel' =>
      if b <? last then
        let first := skip_used bitmap last b in
        if first =? last then inr best
        else
          let b := advance (Z.to_nat (last - first))
                     (fun b => bitmap_get bitmap b || negb (b - first <? wanted)) first in
          let len := b - first in
          let best := if len >? best.2 then (first, len) else best in
          if len =? wanted then inl best
          else scan_segment fuel' bitmap wanted last (skip_free bitmap last b) best
      else inr best
  end.

Definition alloc_scan_segment (v : volume) (wanted first last : Z) (best : Z * Z) : search :=
  scan_segment (Z.to_nat (last - first)) (bitmap v) wanted last first best.

Fixpoint scan_segment_reverse (fuel : nat) (bitmap : list Z) (wanted first b : Z) (best : Z * Z) : search :=
  match fuel with
  | O => inr best
  | S fuel' =>
      if b >? first then
        let run_end := retreat (Z.to_nat (b - first)) (fun b => negb (bitmap_get bitmap b)) b in
        if run_end =? first then inr best
        else
          let b := retreat (Z.to_nat (run_end - first))
                     (fun b => bitmap_get bitmap b || negb (run_end - (b + 1) <? wanted)) run_end in
          let len := run_end - b in
          let best := if len >? best.2 then (b, len) else best in
          if len =? wanted then inl best
          else scan_segment_reverse fuel' bitmap wanted first
                 (retreat (Z.to_nat (b - first)) (bitmap_get bitmap) b) best
      else inr best
  end.

Definition alloc_scan_segment_reverse (v : volume) (wanted first last : Z) (best : Z * Z) : search :=
  scan_segment_reverse (Z.to_nat (last - first)) (bitmap v) wanted first last best.

(** ** Blocks *)

Definition write_block (v : volume) (block_no : Z) (block : list Z) : infs_status * volume :=
  if block_no >=? total_blocks v then (INVALID_ARGUMENT, v)
  else let '(e, s) := infs_storage_write (storage v) (u64 (block_no * block_size)) block in
       (e, set_storage v s).

Definition read_block (v : volume) (block_no : Z) : result (list Z) * volume :=
  if block_no >=? total_blocks v then (Bad INVALID_ARGUMENT, v)
  else let '(r, s) := infs_storage_read (storage v) (u64 (block_no * block_size)) INFS_BLOCK_SIZE in
       (r, set_storage v s).

Fixpoint zero_loop (v : volume) (first : Z) (indices : list Z) : infs_status * volume :=
  match indices with
  | [] => (OK, v)
  | i :: rest =>
      let '(e, v) := write_block v (u64 (first + i)) (replicate INFS_BLOCK_SIZE 0) in
      if decide (e = OK) then zero_loop v first rest else (e, v)
  end.

Definition zero_blocks (v : volume) (first n : Z) : infs_status * volume :=
  zero_loop v first (seqZ 0 n).

(** ** Transactions *)

Definition set_journal (v : volume) (allocated : list extent) : volume :=
  let t := tx v in set_tx v (Tx (tx_active t) (tx_error t) (tx_base_sb t) (tx_deferred t) allocated).
Definition set_deferred (v : volume) (deferred : list extent) : volume :=
  let t := tx v in set_tx v (Tx (tx_active t) (tx_error t) (tx_base_sb t) deferred (tx_allocated t)).
Definition set_tx_error (v : volume) (e : infs_status) : volume :=
  let t := tx v in set_tx v (Tx (tx_active t) e (tx_base_sb t) (tx_deferred t) (tx_allocated t)).

Definition tx_begin (v : volume) : infs_status * volume :=
  if decide (reopen_required_status v <> OK) then (reopen_required_status v, v)
  else if negb (writable v) then (READ_ONLY, v)
  else if tx_active (tx v) then (tx_error (tx v), v)
  else match infiltratr_u64_add_checked (sb_generation (sb v)) 1 with
       | None => (OVERFLOW, v)
       | Some next => if next =? 0 then (OVERFLOW, v)
                      else (OK, set_tx v (Tx true OK (sb v) [] []))
       end.

Definition tx_record_allocated (v : volume) (first n : Z) : infs_status * volume :=
  if negb (tx_active (tx v)) || (n =? 0) then (INVALID_ARGUMENT, v)
  else match infiltratr_u64_add_checked first n with
       | None => (INVALID_ARGUMENT, v)
       | Some _ =>
           match infiltratr_size_add_checked (Z.of_nat (length (tx_allocated (tx v)))) 1 with
           | None => (OVERFLOW, v)
           | Some _ =>
               let '(ok, v) := array_reserve v in
               if negb ok then (NO_MEMORY, v)
               else (OK, set_journal v (tx_allocated (tx v) ++ [Extent first n]))
           end
       end.

Definition in_extent (block : Z) (e : extent) : bool :=
  (block >=? start e) && (block - start e <? count e).

Definition tx_block_private_since (v : volume) (block : Z) (first : nat) : bool :=
  tx_active (tx v) && existsb (in_extent block) (drop first (tx_allocated (tx v))).

Definition tx_block_private (v : volume) (block : Z) : bool :=
  tx_block_private_since v block (if op_active (op v) then op_allocated_count (op v) else 0%nat).

Definition tx_operation_begin (v : volume) : infs_status * volume :=
  if negb (tx_active (tx v)) || op_active (op v) then (INVALID_ARGUMENT, v)
  else
    let deferred := tx_deferred (tx v) in
    let had := negb (bool_decide (deferred = [])) in
    (OK, set_op v (Savepoint true (sb v) (length (tx_allocated (tx v))) (length deferred) had
                     (if had then default (op_last_deferred (op v)) (last deferred)
                      else op_last_deferred (op v))
                     (tx_pending_bytes v) (data_allocation_cursor v) (metadata_allocation_cursor v))).

Definition tx_operation_discard (v : volume) : volume :=
  let o := op v in
  set_op v (Savepoint false (op_sb o) 0 0 false (Extent 0 0) (op_pending_bytes o)
              (op_data_cursor o) (op_metadata_cursor o)).

Definition tx_operation_commit (v : volume) : volume := tx_operation_discard v.

(** Clear the bits of some ranges. *)
Definition clear_ranges (bm : list Z) (ranges : list extent) : list Z :=
  fold_left (fun bm e => bitmap_set_run bm (start e) (count e) false) ranges bm.

(** The restored end of the deferred list. *)
Definition restore_deferred (o : savepoint) (deferred : list extent) : list extent :=
  let deferred := take (op_deferred_count o) deferred in
  if op_had_last_deferred o && negb (bool_decide (deferred = []))
  then take (length deferred - 1) deferred ++ [op_last_deferred o]
  else deferred.

Definition tx_operation_abort (v : volume) : volume :=
  if negb (op_active (op v)) then v
  else
    let o := op v in
    let t := tx v in
    let v := set_bitmap v (clear_ranges (bitmap v) (drop (op_allocated_count o) (tx_allocated t))) in
    let v := set_tx v (Tx (tx_active t) OK (tx_base_sb t) (restore_deferred o (tx_deferred t))
                         (take (op_allocated_count o) (tx_allocated t))) in
    let v := set_sb v (op_sb o) in
    let v := set_hints v (op_pending_bytes o) (op_data_cursor o) (op_metadata_cursor o) in
    let v := tx_operation_discard v in
    let v := set_caches v false (directory_cache_clear (object_cache_clear (caches v))) in
    let v := (free_extent_index_rebuild v).2 in
    set_caches v (checksum_cursor_valid v) (object_cache_rebuild v).

(** Set the bits of the deferred ranges that the transaction did not allocate. *)
Definition restore_ranges (v : volume) (bm : list Z) (ranges : list extent) : list Z :=
  fold_left (fun bm e =>
    fold_left (fun bm b =>
      let block := u64 (start e + b) in
      if tx_block_private_since v block 0 then bm else bitmap_set bm block true)
      (seqZ 0 (count e)) bm) ranges bm.

Definition tx_abort (v : volume) : volume :=
  if negb (tx_active (tx v)) then v
  else
    let v := if op_active (op v) then tx_operation_discard v else v in
    let t := tx v in
    let bm := clear_ranges (bitmap v) (tx_allocated t) in
    let v := set_bitmap v (restore_ranges v bm (tx_deferred t)) in
    let v := set_sb v (tx_base_sb t) in
    let v := set_tx v (Tx false OK (tx_base_sb t) [] []) in
    let v := set_caches v false (object_cache_clear (caches v)) in
    (free_extent_index_rebuild v).2.

Definition mutation_scope_begin (v : volume) : infs_status * bool * volume :=
  let started_transaction := negb (tx_active (tx v)) in
  let '(e, v) := tx_begin v in
  if decide (e <> OK) then (e, started_transaction, v)
  else
    let '(e, v) := tx_operation_begin v in
    (e, started_transaction, if decide (e <> OK) then (if started_transaction then tx_abort v else v) else v).

Definition mutation_scope_fail (v : volume) (started_transaction : bool) : volume :=
  let v := tx_operation_abort v in
  if started_transaction && tx_active (tx v) then tx_abort v else v.

Definition mutation_scope_success (v : volume) : volume := tx_operation_commit v.

Definition tx_defer_range (v : volume) (first n : Z) : infs_status * volume :=
  if n =? 0 then (OK, v)
  else if negb (tx_active (tx v)) then (INVALID_ARGUMENT, v)
  else if decide (tx_error (tx v) <> OK) then (tx_error (tx v), v)
  else
    let deferred := tx_deferred (tx v) in
    let append v :=
      match infiltratr_size_add_checked (Z.of_nat (length deferred)) 1 with
      | None => (OVERFLOW, v)
      | Some _ => let '(ok, v) := array_reserve v in
                  if negb ok then (NO_MEMORY, v) else (OK, set_deferred v (deferred ++ [Extent first n]))
      end in
    match last deferred with
    | None => append v
    | Some e =>
        match infiltratr_u64_add_checked (start e) (count e) with
        | None => append v
        | Some last_end =>
            if last_end =? first then
              match infiltratr_u64_add_checked (count e) n with
              | None => (OVERFLOW, set_tx_error v OVERFLOW)
              | Some merged =>
                  (OK, set_deferred v (take (length deferred - 1) deferred ++ [Extent (start e) merged]))
              end
            else append v
        end
    end.

(** ** Allocation *)

Definition allocate_selected_run_uninitialized (v : volume) (first n : Z) : infs_status * volume :=
  let '(e, v) := tx_record_allocated v first n in
  if decide (e <> OK) then (e, v)
  else
    let v := if free_extent_index_valid v then
               let '(ok, v) := free_extent_index_remove v first n in
               if ok : bool then v else free_extent_index_invalidate v
             else v in
    let v := set_bitmap v (bitmap_set_run (bitmap v) first n true) in
    (OK, set_free_blocks v (u64 (free_blocks v - n))).

Definition allocate_selected_run (v : volume) (first n : Z) : infs_status * volume :=
  let '(e, v) := allocate_selected_run_uninitialized v first n in
  if decide (e <> OK) then (e, v)
  else
    let '(e, v) := zero_blocks v first n in
    if decide (e <> OK) then
      let v := set_bitmap v (bitmap_set_run (bitmap v) first n false) in
      let v := set_journal v (take (length (tx_allocated (tx v)) - 1) (tx_allocated (tx v))) in
      let v := set_free_blocks v (u64 (free_blocks v + n)) in
      if free_extent_index_valid v then
        let '(ok, v) := free_extent_index_add v first n in
        if ok : bool then
          (if negb (free_extent_index_valid v) then (e, (free_extent_index_rebuild v).2) else (e, v))
        else (e, free_extent_index_invalidate v)
      else (e, (free_extent_index_rebuild v).2)
    else (e, v).

Definition allocate (zero_fill : bool) (v : volume) (first n : Z) : infs_status * volume :=
  if zero_fill then allocate_selected_run v first n else allocate_selected_run_uninitialized v first n.

(** The best run of a search that did not stop. *)
Definition best_of (r : search) : Z * Z := match r with inl found => found | inr best => best end.
Definition found_in (r : search) : bool := match r with inl _ => true | inr _ => false end.

(** The run file data goes to. *)
Definition choose_data (v : volume) (wanted cursor : Z) : Z * Z :=
  let total := total_blocks v in
  if free_extent_index_valid v then default (0, 0) (free_extent_index_choose_forward v wanted cursor)
  else
    let r := alloc_scan_segment v wanted cursor total (0, 0) in
    let r := if negb (found_in r) && (cursor >? 1)
             then alloc_scan_segment v wanted 1 cursor (best_of r) else r in
    if negb (found_in r) && (cursor >? 1) && ((best_of r).2 <? wanted)
    then best_of (alloc_scan_segment v wanted 1 total (0, 0))
    else best_of r.

Definition alloc_data_run_impl (v : volume) (wanted : Z) (zero_fill : bool)
    : result (Z * Z) * volume :=
  let '(e, v) := tx_begin v in
  if decide (e <> OK) then (Bad e, v)
  else if (wanted =? 0) || (free_blocks v =? 0) then (Bad NO_SPACE, v)
  else
    let total := total_blocks v in
    let cursor := data_allocation_cursor v in
    let cursor := if (cursor <? 1) || (cursor >=? total) then 1 else cursor in
    let '(best_start, best_count) := choose_data v wanted cursor in
    if best_count =? 0 then (Bad NO_SPACE, v)
    else
      let '(e, v) := allocate zero_fill v best_start best_count in
      if decide (e <> OK) then (Bad e, v)
      else
        let next := u64 (best_start + best_count) in
        let next := if next >=? total then 1 else next in
        (Good (best_start, best_count),
         set_hints v (tx_pending_bytes v) next (metadata_allocation_cursor v)).

(** Where the search for metadata starts, and where it goes on. *)
Definition metadata_cursor (v : volume) : Z :=
  let cursor := metadata_allocation_cursor v in
  if (cursor <=? 1) || (cursor >? total_blocks v) then total_blocks v else cursor.

Definition move_metadata_cursor (v : volume) (first : Z) : volume :=
  set_hints v (tx_pending_bytes v) (data_allocation_cursor v)
    (if first <=? 1 then total_blocks v else first).

Definition choose_metadata (v : volume) (wanted cursor : Z) : Z * Z :=
  let total := total_blocks v in
  if free_extent_index_valid v then default (0, 0) (free_extent_index_choose_reverse v wanted cursor false)
  else
    let r := alloc_scan_segment_reverse v wanted 1 cursor (0, 0) in
    let r := if negb (found_in r) && (cursor <? total)
             then alloc_scan_segment_reverse v wanted cursor total (best_of r) else r in
    if negb (found_in r) && (cursor <? total) && ((best_of r).2 <? wanted)
    then best_of (alloc_scan_segment_reverse v wanted 1 total (0, 0))
    else best_of r.

Definition alloc_run (v : volume) (wanted : Z) : result (Z * Z) * volume :=
  let '(e, v) := tx_begin v in
  if decide (e <> OK) then (Bad e, v)
  else if (wanted =? 0) || (free_blocks v =? 0) then (Bad NO_SPACE, v)
  else
    let '(best_start, best_count) := choose_metadata v wanted (metadata_cursor v) in
    if best_count =? 0 then (Bad NO_SPACE, v)
    else
      let '(e, v) := allocate_selected_run v best_start best_count in
      if decide (e <> OK) then (Bad e, v)
      else (Good (best_start, best_count), move_metadata_cursor v best_start).

Definition choose_exact (v : volume) (wanted cursor : Z) : option Z :=
  let total := total_blocks v in
  if free_extent_index_valid v then fst <$> free_extent_index_choose_reverse v wanted cursor true
  else
    let r := alloc_scan_segment_reverse v wanted 1 cursor (0, 0) in
    let r := if negb (found_in r) && (cursor <? total)
             then alloc_scan_segment_reverse v wanted cursor total (0, 0) else r in
    let r := if negb (found_in r) && (cursor <? total)
             then alloc_scan_segment_reverse v wanted 1 total (0, 0) else r in
    if found_in r then Some (best_of r).1 else None.

Definition alloc_exact_run_impl (v : volume) (wanted : Z) (zero_fill : bool) : result Z * volume :=
  if wanted =? 0 then (Bad INVALID_ARGUMENT, v)
  else
    let '(e, v) := tx_begin v in
    if decide (e <> OK) then (Bad e, v)
    else match choose_exact v wanted (metadata_cursor v) with
         | None => (Bad NO_SPACE, v)
         | Some first =>
             let '(e, v) := allocate zero_fill v first wanted in
             if decide (e <> OK) then (Bad e, v)
             else (Good first, move_metadata_cursor v first)
         end.

(** Free the blocks from [b] to [last]: those of the transaction at once, the
    others when it is published. *)
Fixpoint free_loop (fuel : nat) (v : volume) (last b : Z) : volume :=
  match fuel with
  | O => v
  | S fuel' =>
      if b <? last then
        if negb (bitmap_get (bitmap v) b) then free_loop fuel' v last (b + 1)
        else if tx_block_private v b then
          let v := set_bitmap v (bitmap_set (bitmap v) b false) in
          let v := set_free_blocks v (u64 (free_blocks v + 1)) in
          let v := if free_extent_index_valid v then
                     let '(ok, v) := free_extent_index_add v b 1 in
                     if ok : bool then v else free_extent_index_invalidate v
                   else v in
          free_loop fuel' v last (b + 1)
        else
          let next := advance (Z.to_nat (last - b))
                        (fun b => negb (bitmap_get (bitmap v) b) || tx_block_private v b) b in
          let '(e, v) := tx_defer_range v b (next - b) in
          if decide (e <> OK) then v else free_loop fuel' v last next
      else v
  end.

Definition free_run (v : volume) (first n : Z) : volume :=
  if n =? 0 then v
  else
    let '(e, v) := tx_begin v in
    if decide (e <> OK) then set_tx_error v e
    else
      let total := total_blocks v in
      let last := u64 (first + n) in
      let last := if (last <? first) || (last >? total) then total else last in
      free_loop (Z.to_nat (last - first)) v last first.

End Volume.
End Allocator.
