(* ===== verification/FreeExtents.v ===== *)
(** Facts about the bitmap and the free-extent index ([Allocator.v]): the byte
    trick counts the clear bits, and the index, however it is updated, lists the
    maximal free runs of the bitmap. *)

From Stdlib Require Import ZifyBool.
From stdpp Require Import prelude.
From S2P Require Import Prelude Endian Checksum Format Storage Objects FormatVolume FormatPlan Allocator.
#[local] Open Scope Z_scope.

Module FreeExtentsFacts.
Import Storage Objects FormatVolume FormatPlanFacts Allocator.

(** ** Bits *)

(** Bits a bitmap has. *)
Definition bits (bm : list Z) : Z := 8 * Z.of_nat (length bm).

Lemma bitmap_set_length bm b a : length (Allocator.bitmap_set bm b a) = length bm.
Proof. unfold Allocator.bitmap_set; destruct a; apply length_insert. Qed.

Lemma bitmap_set_ok bm b a : bytes_ok bm -> bytes_ok (Allocator.bitmap_set bm b a).
Proof.
  intros; unfold Allocator.bitmap_set; destruct a; (apply Forall_insert; [assumption | apply wrap_range; lia]).
Qed.

Lemma bitmap_get_set bm b a x :
  bytes_ok bm -> 0 <= b < bits bm -> 0 <= x ->
  bitmap_get (Allocator.bitmap_set bm b a) x = if b =? x then a else bitmap_get bm x.
Proof.
  intros Hok Hb Hx; destruct a.
  { etransitivity; [exact (bitmap_set_bit bm b x Hok Hb Hx) |]; destruct (b =? x); reflexivity. }
  etransitivity; [apply bitmap_bit_testbit, Hx |]; rewrite (bitmap_bit_testbit bm x Hx : bitmap_get bm x = _).
  unfold Allocator.bitmap_set, bits in *; destruct (low_bits b ltac:(lia)) as [-> ->].
  pose proof (Z.mod_pos_bound b 8 ltac:(lia)); pose proof (Z.mod_pos_bound x 8 ltac:(lia)).
  pose proof (Z.div_mod b 8 ltac:(lia)); pose proof (Z.div_mod x 8 ltac:(lia)).
  destruct (decide (x / 8 = b / 8)) as [Hd | Hd].
  - rewrite Hd, list_lookup_total_insert_eq by lia.
    rewrite !wrap_testbit, Z.land_spec, wrap_testbit, Z.lnot_spec, wrap_testbit, shl_testbit by lia.
    replace (x mod 8 <? 8) with true by lia; rewrite !andb_true_l.
    destruct (Z.eqb_spec b x) as [-> | Hne]; [rewrite Z.sub_diag; apply andb_false_r |].
    destruct (x mod 8 - b mod 8) eqn:Ed; [lia | destruct p; apply andb_true_r | apply andb_true_r].
  - rewrite list_lookup_total_insert_ne by lia.
    destruct (Z.eqb_spec b x); [subst; contradiction | reflexivity].
Qed.

Lemma bitmap_set_run_ok bm first n a :
  bytes_ok bm -> bytes_ok (bitmap_set_run bm first n a) /\ length (bitmap_set_run bm first n a) = length bm.
Proof.
  unfold bitmap_set_run; generalize (seqZ 0 n); intros l; revert bm; induction l as [| b l IH]; intros bm Hok; [auto |].
  cbn [fold_left]; rewrite <- (bitmap_set_length bm (u64 (first + b)) a); apply IH, bitmap_set_ok, Hok.
Qed.

(** A run of bits takes the value, the others stay. *)
Lemma bitmap_get_run bm first n a x :
  bytes_ok bm -> 0 <= first -> 0 <= n -> first + n <= bits bm -> bits bm < 2 ^ 64 -> 0 <= x ->
  bitmap_get (bitmap_set_run bm first n a) x =
  if (first <=? x) && (x <? first + n) then a else bitmap_get bm x.
Proof.
  intros Hok Hf Hn Hle Hmax Hx; unfold bitmap_set_run.
  assert (Hgen : forall k bm m, bytes_ok bm -> 0 <= m -> first + m + Z.of_nat k <= bits bm -> bits bm < 2 ^ 64 ->
    bitmap_get (fold_left (fun bm b => Allocator.bitmap_set bm (u64 (first + b)) a) (seqZ m (Z.of_nat k)) bm) x =
    if (first + m <=? x) && (x <? first + m + Z.of_nat k) then a else bitmap_get bm x).
  { clear bm Hok Hle Hmax; induction k as [| k IH]; intros bm m Hok Hm Hle Hmax.
    - cbn; destruct (_ && _)%bool eqn:E2; [lia | reflexivity].
    - rewrite seqZ_cons by lia; cbn [fold_left]; replace (Z.pred (Z.of_nat (S k))) with (Z.of_nat k) by lia.
      unfold bits in *; rewrite (wrap_small 64 (first + m)) by (unfold fits; lia).
      rewrite IH; rewrite ?bitmap_set_length; try lia; [| apply bitmap_set_ok, Hok].
      rewrite bitmap_get_set by (unfold bits; lia || assumption).
      destruct (Z.eqb_spec (first + m) x); repeat case_match; lia || reflexivity. }
  rewrite <- (Z2Nat.id n Hn), Hgen by (assumption || lia); rewrite Z.add_0_r; reflexivity.
Qed.

(** ** Counting *)

(** The clear bits among some. *)
Definition clear_bits (bm : list Z) (l : list Z) : Z :=
  Z.of_nat (length (List.filter (fun b => negb (bitmap_get bm b)) l)).

Lemma byte_free_spec v :
  fits 8 v -> byte_free v = Z.of_nat (length (List.filter (fun i => negb (Z.testbit v i)) (seqZ 0 8))).
Proof.
  assert (Hall : forallb (fun v => byte_free v =? Z.of_nat (length (List.filter (fun i => negb (Z.testbit v i)) (seqZ 0 8))))
    (seqZ 0 256) = true) by (vm_compute; reflexivity).
  rewrite forallb_forall in Hall; intros Hv; apply Z.eqb_eq, Hall, list_elem_of_In, elem_of_seqZ.
  unfold fits in Hv; lia.
Qed.

Lemma clear_bits_app bm l1 l2 : clear_bits bm (l1 ++ l2) = clear_bits bm l1 + clear_bits bm l2.
Proof. unfold clear_bits; rewrite List.filter_app, length_app; lia. Qed.

Lemma clear_bits_cons bm b l : clear_bits bm (b :: l) = (if bitmap_get bm b then 0 else 1) + clear_bits bm l.
Proof. unfold clear_bits; cbn [List.filter]; destruct (bitmap_get bm b); cbn [negb length]; lia. Qed.

Lemma clear_bits_bounds bm l : 0 <= clear_bits bm l <= Z.of_nat (length l).
Proof. pose proof (List.filter_length_le (fun b => negb (bitmap_get bm b)) l); unfold clear_bits; lia. Qed.

(** The bits of one byte. *)
Lemma clear_byte bm k :
  bytes_ok bm -> 0 <= k -> clear_bits bm (seqZ (8 * k) 8) = byte_free (bm !!! Z.to_nat k).
Proof.
  intros Hok Hk; rewrite byte_free_spec by (apply bytes_ok_lookup_total, Hok); unfold clear_bits; f_equal.
  replace (seqZ (8 * k) 8) with (map (Z.add (8 * k)) (seqZ 0 8))
    by (etransitivity; [apply fmap_add_seqZ | f_equal; lia]).
  rewrite <- (length_map (Z.add (8 * k)) (List.filter _ (seqZ 0 8))); f_equal.
  assert (Hgen : forall l, Forall (fun i => 0 <= i < 8) l ->
    List.filter (fun b => negb (bitmap_get bm b)) (map (Z.add (8 * k)) l) =
    map (Z.add (8 * k)) (List.filter (fun i => negb (Z.testbit (bm !!! Z.to_nat k) i)) l)).
  { induction 1 as [| i l Hi _ IH]; [reflexivity |]; cbn [map List.filter].
    rewrite (bitmap_bit_testbit bm (8 * k + i) ltac:(lia) : bitmap_get _ _ = _).
    replace ((8 * k + i) / 8) with k by (apply (Z.div_unique_pos _ _ _ i); lia).
    replace ((8 * k + i) mod 8) with i by (apply (Z.mod_unique_pos _ _ k); lia).
    rewrite IH; destruct (Z.testbit _ i); reflexivity. }
  apply Hgen; apply Forall_forall; intros i Hi%elem_of_seqZ; lia.
Qed.

(** The byte-at-a-time population count is the number of clear bits. *)
Lemma count_free_clear bm total :
  bytes_ok bm -> 0 <= total <= bits bm -> total < 2 ^ 64 ->
  bitmap_count_free bm total = clear_bits bm (seqZ 0 total).
Proof.
  intros Hok Ht Hmax; unfold bitmap_count_free; rewrite Z.shiftr_div_pow2, Z.shiftl_mul_pow2 by lia.
  change (2 ^ 3) with 8; set (k := total / 8).
  pose proof (Z.div_mod total 8 ltac:(lia)) as Hd; pose proof (Z.mod_pos_bound total 8 ltac:(lia)); fold k in Hd.
  assert (Hbytes : forall m, Z.of_nat m <= k ->
    fold_left (fun c byte => u64 (c + byte_free (bm !!! Z.to_nat byte))) (seqZ 0 (Z.of_nat m)) 0 =
    clear_bits bm (seqZ 0 (8 * Z.of_nat m))).
  { induction m as [| m IH]; intros Hm; [reflexivity |].
    replace (Z.of_nat (S m)) with (Z.of_nat m + 1) by lia; rewrite seqZ_app, fold_left_app, IH by lia; cbn [fold_left seqZ].
    replace (8 * (Z.of_nat m + 1)) with (8 * Z.of_nat m + 8) by lia.
    rewrite seqZ_app, clear_bits_app, !Z.add_0_l, (seqZ_cons (Z.of_nat m)), (seqZ_nil (Z.succ _)) by lia.
    cbn [fold_left]; rewrite clear_byte by (trivial; lia); apply wrap_small.
    pose proof (clear_bits_bounds bm (seqZ 0 (8 * Z.of_nat m))) as H1; rewrite length_seqZ in H1.
    pose proof (clear_bits_bounds bm (seqZ (8 * Z.of_nat m) 8)) as H2; rewrite length_seqZ, clear_byte in H2 by (trivial; lia).
    unfold fits; lia. }
  rewrite <- (Z2Nat.id k) by lia; rewrite Hbytes by lia; rewrite Z2Nat.id by lia.
  assert (Hbits : forall l c, 0 <= c -> c + Z.of_nat (length l) < 2 ^ 64 ->
    fold_left (fun c bit => u64 (c + (if bitmap_get bm bit then 0 else 1))) l c = c + clear_bits bm l).
  { induction l as [| b l IH]; intros c Hc Hl; cbn [fold_left length] in *; [unfold clear_bits; cbn; lia |].
    rewrite clear_bits_cons; rewrite wrap_small by (unfold fits; destruct (bitmap_get bm b); lia).
    rewrite IH by (destruct (bitmap_get bm b); lia); lia. }
  pose proof (clear_bits_bounds bm (seqZ 0 (8 * k))) as Hb; rewrite length_seqZ in Hb.
  rewrite Hbits by (rewrite ?length_seqZ; lia); rewrite <- clear_bits_app.
  replace total with (8 * k + (total - 8 * k)) at 2 by lia; rewrite seqZ_app by lia.
  do 2 f_equal; rewrite (Z.mul_comm k); reflexivity.
Qed.

(** ** What the index says *)

Definition ext_end (e : extent) : Z := start e + count e.

(** Extents in order from [lo] on, within [total], not touching each other. *)
Fixpoint sorted_from (lo total : Z) (l : list extent) : Prop :=
  match l with
  | [] => True
  | e :: rest => lo <= start e /\ 0 < count e /\ ext_end e <= total /\
                 sorted_from (ext_end e + 1) total rest
  end.

Definition covered (l : list extent) (b : Z) : Prop := exists e, In e l /\ start e <= b < ext_end e.

(** The extents are the maximal free runs of the bitmap. *)
Record represents (bm : list Z) (total : Z) (l : list extent) : Prop := {
  rp_sorted : sorted_from 0 total l;
  rp_covered : forall b, 0 <= b < total -> covered l b <-> bitmap_get bm b = false
}.

Lemma covered_nil b : ~ covered [] b.
Proof. intros (e & [] & _). Qed.

Lemma covered_cons e l b : covered (e :: l) b <-> start e <= b < ext_end e \/ covered l b.
Proof.
  split; [intros (x & [-> | Hin] & Hb); [left; exact Hb | right; exists x; auto] |].
  intros [Hb | (x & Hin & Hb)]; [exists e | exists x]; cbn; auto.
Qed.

Lemma covered_app l1 l2 b : covered (l1 ++ l2) b <-> covered l1 b \/ covered l2 b.
Proof.
  split; [intros (x & Hin & Hb); apply in_app_iff in Hin as [Hin | Hin]; [left | right]; exists x; auto |].
  intros [(x & Hin & Hb) | (x & Hin & Hb)]; exists x; rewrite in_app_iff; auto.
Qed.

Lemma sorted_weaken lo lo' total l : lo' <= lo -> sorted_from lo total l -> sorted_from lo' total l.
Proof. destruct l as [| e l]; cbn; [trivial |]; intros; intuition lia. Qed.

Lemma sorted_covered lo total l b : sorted_from lo total l -> covered l b -> lo <= b < total.
Proof.
  revert lo; induction l as [| e l IH]; intros lo Hs Hc; [destruct (covered_nil b Hc) |].
  cbn in Hs; destruct Hs as (Hlo & Hn & He & Hs); apply covered_cons in Hc as [Hc | Hc]; [lia |].
  specialize (IH _ Hs Hc); unfold ext_end in *; lia.
Qed.

Lemma sorted_split lo total l1 l2 :
  sorted_from lo total (l1 ++ l2) ->
  sorted_from lo total l1 /\ Forall (fun e => 0 <= start e - lo /\ 0 < count e /\ ext_end e <= total) l1 /\
  exists m, lo <= m /\ Forall (fun e => ext_end e + 1 <= m) l1 /\ sorted_from m total l2.
Proof.
  revert lo; induction l1 as [| e l1 IH]; intros lo; cbn [app sorted_from].
  { intros Hs; split_and!; trivial; exists lo; split_and!; trivial; lia. }
  intros (H1 & H2 & H3 & Hs); destruct (IH _ Hs) as (Hs1 & Hf & m & Hm & Hm1 & Hs2); unfold ext_end in *; split_and!; trivial.
  - constructor; [lia |]; eapply Forall_impl; [exact Hf |]; cbn; lia.
  - exists m; split_and!; [lia | constructor; [lia | exact Hm1] | exact Hs2].
Qed.

Lemma sorted_join lo total l1 m l2 :
  sorted_from lo total l1 -> Forall (fun e => ext_end e + 1 <= m) l1 -> lo <= m -> sorted_from m total l2 ->
  sorted_from lo total (l1 ++ l2).
Proof.
  revert lo; induction l1 as [| e l1 IH]; intros lo Hs Hf Hm Hs2; [eapply sorted_weaken; eassumption |].
  apply Forall_cons in Hf as [He Hf]; cbn in *; destruct Hs as (H1 & H2 & H3 & Hs); split_and!; trivial.
  apply IH; trivial.
Qed.

(** ** Rebuilding *)

Lemma advance_spec fuel stop b :
  b <= advance fuel stop b <= b + Z.of_nat fuel /\
  (forall x, b <= x < advance fuel stop b -> stop x = false) /\
  (advance fuel stop b < b + Z.of_nat fuel -> stop (advance fuel stop b) = true).
Proof.
  revert b; induction fuel as [| fuel IH]; intros b; cbn [advance]; [split_and!; intros; lia |].
  destruct (stop b) eqn:Es; [split_and!; intros; try lia; exact Es |].
  destruct (IH (b + 1)) as (H1 & H2 & H3); split_and!; [lia | lia | |]; intros.
  - destruct (Z.eq_dec x b) as [-> |]; [exact Es | apply H2; lia].
  - apply H3; lia.
Qed.

Lemma retreat_spec fuel stop b :
  b - Z.of_nat fuel <= retreat fuel stop b <= b /\
  (forall x, retreat fuel stop b <= x < b -> stop x = false) /\
  (b - Z.of_nat fuel < retreat fuel stop b -> stop (retreat fuel stop b - 1) = true).
Proof.
  revert b; induction fuel as [| fuel IH]; intros b; cbn [retreat]; [split_and!; intros; lia |].
  destruct (stop (b - 1)) eqn:Es; [split_and!; intros; try lia; exact Es |].
  destruct (IH (b - 1)) as (H1 & H2 & H3); split_and!; [lia | lia | |]; intros.
  - destruct (Z.eq_dec x (b - 1)) as [-> |]; [exact Es | apply H2; lia].
  - apply H3; lia.
Qed.

Lemma skip_used_spec bm bound b :
  b <= bound -> b <= skip_used bm bound b <= bound /\
  (forall x, b <= x < skip_used bm bound b -> bitmap_get bm x = true) /\
  (skip_used bm bound b < bound -> bitmap_get bm (skip_used bm bound b) = false).
Proof.
  intros Hb; unfold skip_used.
  destruct (advance_spec (Z.to_nat (bound - b)) (fun b => negb (bitmap_get bm b)) b) as (H1 & H2 & H3).
  split_and!; [lia | lia | |]; intros; [apply negb_false_iff, H2; lia | apply negb_true_iff, H3; lia].
Qed.

Lemma skip_free_spec bm bound b :
  b <= bound -> b <= skip_free bm bound b <= bound /\
  (forall x, b <= x < skip_free bm bound b -> bitmap_get bm x = false) /\
  (skip_free bm bound b < bound -> bitmap_get bm (skip_free bm bound b) = true).
Proof.
  intros Hb; unfold skip_free; destruct (advance_spec (Z.to_nat (bound - b)) (bitmap_get bm) b) as (H1 & H2 & H3).
  split_and!; [lia | lia | |]; intros; [apply H2; lia | apply H3; lia].
Qed.

Lemma free_runs_spec fuel bm total b lo :
  (Z.to_nat (total - b) <= fuel)%nat -> b <= total ->
  (lo <= b \/ (lo = b + 1 /\ (b < total -> bitmap_get bm b = true))) ->
  sorted_from lo total (free_runs fuel bm total b) /\
  forall x, b <= x < total -> covered (free_runs fuel bm total b) x <-> bitmap_get bm x = false.
Proof.
  revert b lo; induction fuel as [| fuel IH]; intros b lo Hf Hb Hlo; cbn [free_runs].
  { split; [exact I | intros; lia]. }
  destruct (Z.ltb_spec b total) as [Hlt | Hge]; [| split; [exact I | intros; lia]].
  destruct (skip_used_spec bm total b Hb) as (H1 & H2 & H3); set (first := skip_used bm total b) in *.
  destruct (Z.eqb_spec first total) as [He | Hne].
  { split; [exact I |]; intros x Hx; split; [intros H; destruct (covered_nil x H) |].
    rewrite (H2 x) by lia; discriminate. }
  destruct (skip_free_spec bm total first ltac:(lia)) as (G1 & G2 & G3); set (next := skip_free bm total first) in *.
  assert (Hfirst : bitmap_get bm first = false) by (apply H3; lia).
  assert (Hnext : first < next).
  { destruct (Z.eq_dec first next) as [Heq |]; [| lia]; rewrite <- Heq in G3; rewrite G3 in Hfirst by lia; discriminate. }
  destruct (IH next (next + 1)) as [Hs Hc]; [lia | lia | right; split; [reflexivity | exact G3] |].
  split.
  - cbn; unfold ext_end; cbn; replace (first + (next - first)) with next by lia; split_and!; try lia; [| exact Hs].
    destruct Hlo as [Hlo | [-> Hlo]]; [lia |]; specialize (Hlo Hlt).
    destruct (Z.eq_dec first b) as [Heq |]; [rewrite Heq, Hlo in Hfirst; discriminate | lia].
  - intros x Hx; rewrite covered_cons; unfold ext_end; cbn; replace (first + (next - first)) with next by lia.
    destruct (Z.lt_ge_cases x first).
    { rewrite (H2 x) by lia; split; [| discriminate].
      intros [Hin | Hcov]; [lia | pose proof (sorted_covered _ _ _ _ Hs Hcov); lia]. }
    destruct (Z.lt_ge_cases x next); [rewrite (G2 x) by lia; split; auto; intros; left; lia |].
    rewrite <- (Hc x ltac:(lia)); split; [intros [? | ?]; [lia | assumption] | auto].
Qed.

Lemma rebuilt_represents bm total :
  0 <= total -> represents bm total (free_runs (Z.to_nat total) bm total 0).
Proof.
  intros Ht; destruct (free_runs_spec (Z.to_nat total) bm total 0 0) as [Hs Hc]; [lia.. | left; lia |].
  split; assumption.
Qed.

(** ** Removing and adding a run *)

Section Updates.
Context {A : CheckedArithmetic} (total : Z).
Hypothesis Htotal : 0 <= total < 2 ^ 63.

Lemma add_fits a b : 0 <= a -> 0 <= b -> a + b <= total -> infiltratr_u64_add_checked a b = Some (a + b).
Proof.
  intros; rewrite u64_add_law by (unfold fits; lia); replace (a + b <? 2 ^ 64) with true by lia; reflexivity.
Qed.

(** The list after [first, last) is gone. *)
Definition without (l l' : list extent) (lo first last : Z) : Prop :=
  sorted_from lo total l' /\ forall b, covered l' b <-> covered l b /\ ~ first <= b < last.

Lemma remove_run_spec l lo first last :
  0 <= lo -> sorted_from lo total l -> first < last -> (forall b, first <= b < last -> covered l b) ->
  exists l', (remove_run l first last = Replaced l' \/ remove_run l first last = Split l') /\
    without l l' lo first last.
Proof.
  intros Hlo; revert lo Hlo; induction l as [| e l IH]; intros lo Hlo Hs Hlt Hc.
  { destruct (covered_nil first); apply Hc; lia. }
  cbn in Hs; destruct Hs as (H1 & H2 & H3 & Hs); unfold ext_end in H3; cbn [remove_run].
  rewrite add_fits by lia; fold (ext_end e).
  assert (Hwhere : (start e <= first /\ last <= ext_end e) \/ ext_end e < first).
  { destruct (proj1 (covered_cons e l first) (Hc first ltac:(lia))) as [Hin | Hin];
      [left | right; pose proof (sorted_covered _ _ _ _ Hs Hin); lia].
    split; [lia |]; destruct (Z.le_gt_cases last (ext_end e)) as [| Hgt]; [assumption | exfalso].
    destruct (proj1 (covered_cons e l (ext_end e)) (Hc (ext_end e) ltac:(lia))) as [? | Hin2]; [lia |].
    pose proof (sorted_covered _ _ _ _ Hs Hin2); lia. }
  assert (Hgap : forall b, covered l b -> ext_end e < b) by (intros b Hb; pose proof (sorted_covered _ _ _ _ Hs Hb); lia).
  destruct Hwhere as [[Hf Hl] | Hafter].
  - replace ((first <? start e) || (last >? ext_end e)) with false by lia.
    assert (Hout : forall b l', (covered l' b <-> (start e <= b < first \/ last <= b < ext_end e) \/ covered l b) ->
      covered l' b <-> covered (e :: l) b /\ ~ first <= b < last).
    { intros b l' Hl'; rewrite covered_cons, Hl'; split; [| intuition lia].
      intros [? | Hb]; [split; [left |]; lia | split; [right; exact Hb |]; specialize (Hgap b Hb); lia]. }
    destruct ((first =? start e) && (last =? ext_end e)) eqn:E1.
    { exists l; split; [left; reflexivity |]; split; [apply (sorted_weaken (ext_end e + 1)); [unfold ext_end in *; lia | exact Hs] |].
      intros b; apply Hout; split; [auto |]; intros [? | ?]; [lia | assumption]. }
    destruct (Z.eqb_spec first (start e)); [| destruct (Z.eqb_spec last (ext_end e))].
    + eexists; split; [left; reflexivity |]; unfold ext_end in *; split; [cbn; unfold ext_end; cbn |].
      { replace (last + (start e + count e - last)) with (start e + count e) by lia; split_and!; try lia; exact Hs. }
      intros b; apply Hout; rewrite covered_cons; unfold ext_end; cbn; intuition lia.
    + eexists; split; [left; reflexivity |]; unfold ext_end in *; split; [cbn; unfold ext_end; cbn |].
      { split_and!; try lia; apply (sorted_weaken (start e + count e + 1)); [lia | exact Hs]. }
      intros b; apply Hout; rewrite covered_cons; unfold ext_end; cbn; intuition lia.
    + eexists; split; [right; reflexivity |]; unfold ext_end in *; split; [cbn; unfold ext_end; cbn |].
      { replace (last + (start e + count e - last)) with (start e + count e) by lia; split_and!; try lia; exact Hs. }
      intros b; apply Hout; rewrite !covered_cons; unfold ext_end; cbn; intuition lia.
  - replace ((first <? start e) || (last >? ext_end e)) with true by lia.
    destruct (IH (ext_end e + 1)) as (l' & Hr & Hs' & Hc'); try assumption; [unfold ext_end in *; lia | |].
    { intros b Hb; destruct (proj1 (covered_cons e l b) (Hc b Hb)); [lia | assumption]. }
    exists (e :: l'); split; [destruct Hr as [-> | ->]; [left | right]; reflexivity |]; split; [cbn; auto |].
    intros b; rewrite !covered_cons, Hc'; intuition lia.
Qed.

Lemma add_skip_spec l lo first :
  0 <= lo -> sorted_from lo total l ->
  exists before after, add_skip l first = Some (before, after) /\ l = before ++ after /\
    Forall (fun e => ext_end e < first) before /\ (forall e, In e after -> first <= ext_end e).
Proof.
  intros Hlo; revert lo Hlo; induction l as [| e l IH]; intros lo Hlo Hs; [exists [], []; split_and!; trivial; intros e [] |].
  cbn in Hs; destruct Hs as (H1 & H2 & H3 & Hs); cbn [add_skip]; unfold ext_end in H3.
  rewrite add_fits by lia; fold (ext_end e); destruct (Z.geb_spec (ext_end e) first) as [Hge | Hlt].
  - exists [], (e :: l); split_and!; trivial; intros x [<- | Hx]; [exact Hge |].
    assert (Hafter : forall l lo, sorted_from lo total l -> forall x, In x l -> lo <= ext_end x).
    { clear; induction l as [| y l IH]; intros lo Hs x Hx; [destruct Hx |]; cbn in Hs; unfold ext_end in *.
      destruct Hx as [<- | Hx]; [lia |]; destruct Hs as (? & ? & ? & Hs); specialize (IH _ Hs x Hx); lia. }
    specialize (Hafter _ _ Hs x Hx); lia.
  - destruct (IH (ext_end e + 1)) as (before & after & -> & -> & Hb & Ha); [unfold ext_end; lia | exact Hs |].
    exists (e :: before), after; split_and!; trivial; constructor; assumption.
Qed.

Lemma add_merge_spec l lo first last :
  0 <= lo -> sorted_from lo total l -> 0 <= first < last -> last <= total ->
  (forall e, In e l -> first <= ext_end e) ->
  exists first' last' rest, add_merge l first last = Some (first', last', rest) /\
    Z.min first lo <= first' <= first /\ last <= last' <= total /\ sorted_from (last' + 1) total rest /\
    (forall b, (first' <= b < last' \/ covered rest b) <-> (first <= b < last \/ covered l b)).
Proof.
  intros Hlo; revert lo Hlo first last; induction l as [| e l IH]; intros lo Hlo first last Hs Hf Hl Hends.
  { exists first, last, []; split_and!; trivial; try lia; tauto. }
  cbn in Hs; destruct Hs as (H1 & H2 & H3 & Hs); cbn [add_merge]; pose proof (Hends e (or_introl eq_refl)) as He.
  destruct (Z.leb_spec (start e) last) as [Hle | Hgt].
  - unfold ext_end in H3; rewrite add_fits by lia; fold (ext_end e).
    set (f1 := if start e <? first then start e else first); set (l1 := if ext_end e >? last then ext_end e else last).
    assert (Hf1 : f1 = Z.min (start e) first) by (unfold f1; destruct (Z.ltb_spec (start e) first); lia).
    assert (Hl1 : l1 = Z.max (ext_end e) last) by (unfold l1; destruct (Z.gtb_spec (ext_end e) last); lia).
    destruct (IH (ext_end e + 1) ltac:(unfold ext_end; lia) f1 l1) as (f' & l' & rest & -> & Hb1 & Hb2 & Hs' & Hc);
      [exact Hs | unfold ext_end in *; lia | unfold ext_end in *; lia | intros x Hx; specialize (Hends x (or_intror Hx)); lia |].
    exists f', l', rest; unfold ext_end in *; split_and!; trivial; try lia.
    intros b; rewrite Hc, covered_cons; unfold ext_end; intuition lia.
  - exists first, last, (e :: l); split_and!; trivial; try lia; cbn; split_and!; lia || assumption.
Qed.

(** The list after [first, first + n) was added. *)
Lemma add_run_spec l first n :
  sorted_from 0 total l -> 0 <= first -> 0 < n -> first + n <= total ->
  exists before after rest e,
    (last ← infiltratr_u64_add_checked first n;
     '(before, after) ← add_skip l first;
     '(before, after, first, last) ← add_back before after first last;
     '(first, last, rest) ← add_merge after first last;
     Some (before, after, rest, Extent first (last - first))) = Some (before, after, rest, e) /\
    sorted_from 0 total (before ++ e :: rest) /\
    forall b, covered (before ++ e :: rest) b <-> covered l b \/ first <= b < first + n.
Proof.
  intros Hs Hf Hn Ht; rewrite add_fits by lia; cbn [mbind option_bind].
  destruct (add_skip_spec l 0 first ltac:(lia) Hs) as (before & after & -> & -> & Hb & Ha); cbn [mbind option_bind].
  assert (Hback : add_back before after first (first + n) = Some (before, after, first, first + n)).
  { unfold add_back; destruct before as [| x before _] using rev_ind; [reflexivity |].
    rewrite reverse_snoc; apply sorted_split in Hs as (_ & Hr & _).
    apply Forall_app in Hb as [_ Hx], Hr as [_ Hr]; rewrite Forall_singleton in Hx, Hr; unfold ext_end in *.
    rewrite add_fits by lia; destruct (Z.geb_spec (start x + count x) first); [lia | reflexivity]. }
  rewrite Hback; cbn [mbind option_bind].
  apply sorted_split in Hs as (Hs1 & _ & m & Hm & Hm1 & Hs2).
  destruct (add_merge_spec after m first (first + n)) as (f' & l' & rest & -> & Hf' & Hl' & Hs' & Hc); trivial; try lia.
  cbn [mbind option_bind]; exists before, after, rest, (Extent f' (l' - f')); split_and!; [reflexivity | |].
  - apply (sorted_join _ _ _ (Z.min first m)); [exact Hs1 | | lia |].
    + apply Forall_forall; intros e He; rewrite Forall_forall in Hb, Hm1; specialize (Hb e He); specialize (Hm1 e He); lia.
    + cbn; unfold ext_end; cbn; replace (f' + (l' - f')) with l' by lia; split_and!; try lia; exact Hs'.
  - intros b; rewrite !covered_app, covered_cons; unfold ext_end; cbn; replace (f' + (l' - f')) with l' by lia.
    rewrite Hc; tauto.
Qed.

End Updates.

(** ** The index of a volume *)

Section VolumeIndex.
Context {E : Endian} {A : CheckedArithmetic} {C K : Type} (reserves : nat -> bool).
#[local] Abbreviation volume := (infs_volume C K).

(** A bitmap with one run of bits set to [a]. *)
Definition with_run (bm bm' : list Z) (total first n : Z) (a : bool) : Prop :=
  forall b, 0 <= b < total ->
    bitmap_get bm' b = if (first <=? b) && (b <? first + n) then a else bitmap_get bm b.

Lemma with_run_bounds bm bm' total first n a b :
  with_run bm bm' total first n a -> 0 <= b < total ->
  (first <= b < first + n -> bitmap_get bm' b = a) /\
  (~ first <= b < first + n -> bitmap_get bm' b = bitmap_get bm b).
Proof.
  intros H Hb; rewrite (H b Hb); destruct ((first <=? b) && (b <? first + n)) eqn:Ein; split; intros; trivial; lia.
Qed.

Lemma reserve_one_is (v : volume) : exists ok k, reserve_one reserves v = (ok, set_requests v k).
Proof.
  unfold reserve_one, array_reserve; destruct (infiltratr_size_add_checked _ _); [eauto |].
  exists false, (requests v); destruct v; reflexivity.
Qed.

Lemma rebuild_is (v : volume) :
  0 <= total_blocks v -> exists fe fv k,
    (free_extent_index_rebuild reserves v).2 = set_requests (set_index v fe fv) k /\
    (fv = true -> represents (bitmap v) (total_blocks v) fe).
Proof.
  intros Ht; unfold free_extent_index_rebuild, array_reserve; destruct (reserves _); cbn [negb snd].
  - exists (free_runs (Z.to_nat (total_blocks v)) (bitmap v) (total_blocks v) 0), true, (S (requests v)).
    split; [destruct v; reflexivity |]; intros _; exact (rebuilt_represents _ _ Ht).
  - exists (free_extents v), false, (S (requests v)); split; [destruct v; reflexivity | discriminate].
Qed.

Lemma same_index (v : volume) : v = set_requests (set_index v (free_extents v) (free_extent_index_valid v)) (requests v).
Proof. destruct v; reflexivity. Qed.

(** The index after blocks were taken: it is right, or no longer used. *)
Lemma index_remove_keeps (v : volume) bm bm' total first n :
  0 <= total < 2 ^ 63 -> (free_extent_index_valid v = true -> represents bm total (free_extents v)) ->
  0 <= first -> 0 < n -> first + n <= total -> (forall b, first <= b < first + n -> bitmap_get bm b = false) ->
  with_run bm bm' total first n true ->
  exists fe fv k,
    (if free_extent_index_valid v then
       let '(ok, v') := free_extent_index_remove reserves v first n in
       if ok : bool then v' else free_extent_index_invalidate v'
     else v) = set_requests (set_index v fe fv) k /\
    (fv = true -> represents bm' total fe).
Proof.
  intros Ht Hidx Hf Hn Hle Hfree Hrun; unfold free_extent_index_remove, free_extent_index_invalidate.
  destruct (free_extent_index_valid v) eqn:Hv; cbn [negb orb];
    [| exists (free_extents v), false, (requests v); rewrite <- Hv; split; [apply same_index | rewrite Hv; discriminate]].
  destruct (Hidx eq_refl) as [Hs Hc]; replace (n =? 0) with false by lia; rewrite (add_fits total) by lia.
  destruct (remove_run_spec total Ht (free_extents v) 0 first (first + n)) as (l' & Hr & Hs' & Hc'); try lia; trivial.
  { intros b Hb; apply Hc; [lia | auto]. }
  assert (Hrep : represents bm' total l').
  { split; [exact Hs' |]; intros b Hb; rewrite Hc'; destruct (with_run_bounds _ _ _ _ _ _ b Hrun Hb) as [Hin Hout].
    split; [intros [Hcov Hnot]; rewrite Hout, <- Hc by assumption; exact Hcov |]; intros Hclear.
    destruct (decide (first <= b < first + n)) as [Hb' | Hb']; [rewrite Hin in Hclear by exact Hb'; discriminate |].
    split; [apply Hc; [exact Hb |]; rewrite <- Hout by exact Hb'; exact Hclear | exact Hb']. }
  destruct Hr as [-> | ->].
  - exists l', true, (requests v); split; [destruct v; reflexivity | trivial].
  - destruct (reserve_one_is v) as ([|] & k & ->); cbn [negb].
    + exists l', true, k; split; [destruct v; reflexivity | trivial].
    + exists (free_extents v), false, k; split; [destruct v; reflexivity | discriminate].
Qed.

(** The index after blocks were given back. *)
Lemma index_add_keeps (v : volume) bm bm' total first n :
  0 <= total < 2 ^ 63 -> (free_extent_index_valid v = true -> represents bm total (free_extents v)) ->
  0 <= first -> 0 < n -> first + n <= total -> with_run bm bm' total first n false ->
  exists fe fv k,
    (if free_extent_index_valid v then
       let '(ok, v') := free_extent_index_add reserves v first n in
       if ok : bool then v' else free_extent_index_invalidate v'
     else v) = set_requests (set_index v fe fv) k /\
    (fv = true -> represents bm' total fe).
Proof.
  intros Ht Hidx Hf Hn Hle Hrun; unfold free_extent_index_add, free_extent_index_invalidate.
  destruct (free_extent_index_valid v) eqn:Hv; cbn [negb orb];
    [| exists (free_extents v), false, (requests v); rewrite <- Hv; split; [apply same_index | rewrite Hv; discriminate]].
  destruct (Hidx eq_refl) as [Hs Hc]; replace (n =? 0) with false by lia.
  destruct (add_run_spec total Ht (free_extents v) first n Hs Hf Hn Hle) as (before & after & rest & e & -> & Hs' & Hc').
  assert (Hrep : represents bm' total (before ++ e :: rest)).
  { split; [exact Hs' |]; intros b Hb; rewrite Hc', (Hc b Hb); destruct (with_run_bounds _ _ _ _ _ _ b Hrun Hb) as [Hin Hout].
    destruct (decide (first <= b < first + n)) as [Hb' | Hb']; [rewrite Hin by exact Hb'; tauto | rewrite Hout by exact Hb'; tauto]. }
  destruct (decide _); [exists (before ++ e :: rest), true, (requests v); split; [destruct v; reflexivity | trivial] |].
  destruct (reserve_one_is v) as ([|] & k & ->); cbn [negb].
  - exists (before ++ e :: rest), true, k; split; [destruct v; reflexivity | trivial].
  - exists (free_extents v), false, k; split; [destruct v; reflexivity | discriminate].
Qed.

End VolumeIndex.

End FreeExtentsFacts.
