(* ===== verification/AllocChoice.v ===== *)
(** The choice of a run ([Allocator.v]): whether the free-extent index is in use
    or the bitmap is scanned, forwards for data and backwards for metadata, the
    run chosen is free and as long as any, up to the length wanted. *)

From Stdlib Require Import ZifyBool.
From stdpp Require Import prelude.
From S2P Require Import Prelude Endian Checksum Format Storage Objects FormatVolume Allocator FreeExtents.
#[local] Open Scope Z_scope.

Module AllocChoiceFacts.
Import Storage Objects ObjectsFacts FormatVolume Allocator FreeExtentsFacts.

(** ** What a search may return *)

Definition free_at (bm : list Z) (total s n : Z) : Prop :=
  0 <= s /\ s + n <= total /\ forall b, s <= b < s + n -> bitmap_get bm b = false.

(** A longest free run of [total] blocks, cut to [wanted]. *)
Record best_run (bm : list Z) (total wanted : Z) (r : Z * Z) : Prop := {
  br_size : 0 <= r.2 <= wanted;
  br_free : 0 < r.2 -> free_at bm total r.1 r.2;
  br_longest : forall s n, free_at bm total s n -> Z.min n wanted <= r.2
}.

Section Search.
Context (bm : list Z) (total wanted : Z).
Hypothesis Htotal : 0 < total < 2 ^ 63.
Hypothesis Hwanted : 0 < wanted.

Definition sound (best : Z * Z) : Prop :=
  0 <= best.2 <= wanted /\ (0 < best.2 -> free_at bm total best.1 best.2).

Definition sound_search (r : search) : Prop :=
  sound (best_of r) /\ ((best_of r).2 = wanted <-> found_in r = true).

(** A step of a search: no shorter than before, and at least [n]. *)
Definition improves (n : Z) (best : Z * Z) (r : search) : Prop :=
  sound_search r /\ best.2 <= (best_of r).2 /\ Z.min n wanted <= (best_of r).2.

Definition searching (best : Z * Z) : Prop := sound best /\ best.2 < wanted.

Lemma searching_start : searching (0, 0).
Proof. split; [split |]; cbn; lia. Qed.

Lemma best_sound best : searching best -> sound_search (inr best).
Proof. intros [Hs Hlt]; split; [exact Hs |]; cbn; split; [lia | discriminate]. Qed.

Lemma run_sound s n : 0 <= n <= wanted -> free_at bm total s n -> sound (s, n).
Proof. intros Hn Hf; split; cbn; [exact Hn | intros _; exact Hf]. Qed.

Lemma found_sound s : free_at bm total s wanted -> sound_search (inl (s, wanted)).
Proof. intros Hf; split; [apply run_sound; [lia | exact Hf] | cbn; tauto]. Qed.

Lemma searching_stay best : searching best -> improves 0 best (inr best).
Proof. intros Hb; split_and!; [exact (best_sound _ Hb) | cbn; lia | destruct Hb as [[? _] _]; cbn; lia]. Qed.

Lemma not_found r : sound_search r -> found_in r = false -> searching (best_of r) /\ r = inr (best_of r).
Proof.
  intros [Hs Hf] E; destruct r as [| best]; [discriminate |]; split; [split; [exact Hs |] | reflexivity].
  destruct Hs as [Hs _]; cbn in *; assert (best.2 <> wanted) by (intros He; apply Hf in He; discriminate); lia.
Qed.

Lemma found_all r n : sound_search r -> found_in r = true -> Z.min n wanted <= (best_of r).2.
Proof. intros [_ Hf] E; apply Hf in E; lia. Qed.

Lemma free_at_sub s n s' n' : free_at bm total s n -> s <= s' -> s' + n' <= s + n -> free_at bm total s' n'.
Proof. intros (H1 & H2 & H3) Hs Hn; split_and!; [lia | lia |]; intros; apply H3; lia. Qed.

Lemma consider_improves candidate available best :
  searching best -> 0 < available -> free_at bm total candidate available ->
  improves available best (consider wanted candidate available best).
Proof.
  intros [Hs Hlt] Ha Hf; pose proof (proj1 Hs) as Hb; unfold consider.
  set (n := if available <? wanted then available else wanted).
  assert (Hn : n = Z.min available wanted) by (unfold n; destruct (Z.ltb_spec available wanted); lia).
  assert (Hfn : free_at bm total candidate n) by (eapply free_at_sub; [exact Hf | lia..]).
  destruct (Z.eqb_spec n wanted) as [He | Hne].
  - rewrite He in Hfn; split_and!; [exact (found_sound _ Hfn) | cbn; lia..].
  - destruct (Z.gtb_spec n best.2); (split_and!; [| cbn; lia..]); apply best_sound; split; cbn; try lia; trivial.
    apply run_sound; [lia | exact Hfn].
Qed.

Lemma consider_end_improves last available best :
  searching best -> 0 < available -> last < 2 ^ 64 -> free_at bm total (last - available) available ->
  improves available best (consider_end wanted last available best).
Proof.
  intros [Hs Hlt] Ha Hmax Hf; pose proof (proj1 Hs) as Hb; unfold consider_end.
  set (n := if available <? wanted then available else wanted).
  assert (Hn : n = Z.min available wanted) by (unfold n; destruct (Z.ltb_spec available wanted); lia).
  assert (Hfn : free_at bm total (last - n) n) by (eapply free_at_sub; [exact Hf | lia..]).
  assert (Hw : u64 (last - n) = last - n) by (apply wrap_small; destruct Hfn; unfold fits; lia).
  destruct (Z.eqb_spec n wanted) as [He | Hne].
  - rewrite He in Hfn, Hw; rewrite Hw; split_and!; [exact (found_sound _ Hfn) | cbn; lia..].
  - rewrite Hw; destruct (Z.gtb_spec n best.2); (split_and!; [| cbn; lia..]); apply best_sound; split; cbn; try lia; trivial.
    apply run_sound; [lia | exact Hfn].
Qed.

(** ** Searching the index *)

(** A search that keeps what it has, and improves on every extent by [g]. *)
Lemma search_improves (g : extent -> Z) f l best :
  searching best -> (forall e best, In e l -> searching best -> improves (g e) best (f e best)) ->
  improves 0 best (search_extents f l best) /\
  forall e, In e l -> Z.min (g e) wanted <= (best_of (search_extents f l best)).2.
Proof.
  revert best; induction l as [| e l IH]; intros best Hb Hf; cbn [search_extents].
  { split; [exact (searching_stay best Hb) | intros e []]. }
  destruct (Hf e best (or_introl eq_refl) Hb) as (Hs & Hle & Hg).
  destruct (f e best) as [found | best'] eqn:Ef.
  - split; [split_and!; [exact Hs | exact Hle | apply (found_all (inl found)); trivial] |].
    intros e' _; apply (found_all (inl found)); trivial.
  - destruct (not_found _ Hs eq_refl) as [Hb' _]; cbn in Hb', Hle, Hg.
    destruct (IH best' Hb') as [(Hs2 & Hle2 & H0) Hall]; [intros; apply Hf; [right |]; assumption |].
    split; [split_and!; trivial; lia |]; intros e' [<- | Hin]; [lia | exact (Hall e' Hin)].
Qed.

Lemma then_improves r k best :
  improves 0 best r -> (forall best', searching best' -> improves 0 best' (k best')) ->
  improves 0 best (then_search r k).
Proof.
  intros (Hs & Hle & H0) Hk; destruct r as [found | best'] eqn:Er; [split_and!; trivial |]; cbn [then_search].
  destruct (not_found _ Hs eq_refl) as [Hb' _]; destruct (Hk best' Hb') as (Hs2 & Hle2 & H2); cbn in *; split_and!; trivial; lia.
Qed.

Context (l : list extent).
Hypothesis Hrep : represents bm total l.

Lemma in_sorted lo l' e : sorted_from lo total l' -> In e l' -> lo <= start e /\ 0 < count e /\ ext_end e <= total.
Proof.
  revert lo; induction l' as [| x l' IH]; intros lo Hs Hin; [destruct Hin |].
  cbn in Hs; destruct Hs as (H1 & H2 & H3 & Hs); destruct Hin as [-> | Hin]; [auto |].
  destruct (IH _ Hs Hin) as (? & ? & ?); unfold ext_end in *; split_and!; lia.
Qed.

Lemma extent_free e : In e l -> 0 < count e /\ ext_end e < 2 ^ 63 /\ free_at bm total (start e) (count e).
Proof.
  intros Hin; destruct Hrep as [Hs Hc]; destruct (in_sorted 0 l e Hs Hin) as (H1 & H2 & H3); unfold ext_end in *.
  split_and!; [lia.. |]; split_and!; [lia.. |]; intros b Hb; apply Hc; [lia |]; exists e; auto.
Qed.

(** Every free run lies in one extent. *)
Lemma run_in_extent s n : free_at bm total s n -> 0 < n -> exists e, In e l /\ start e <= s /\ s + n <= ext_end e.
Proof.
  intros (H1 & H2 & H3) Hn; destruct Hrep as [Hs Hc].
  assert (Hcov : forall b, s <= b < s + n -> covered l b) by (intros b Hb; apply Hc; [lia | auto]).
  clear Hrep Hc H1 H2 H3; revert Hs; generalize 0 at 1; induction l as [| e l' IH]; intros lo Hs.
  { destruct (covered_nil s); apply Hcov; lia. }
  cbn in Hs; destruct Hs as (H1 & H2 & H3 & Hs).
  destruct (proj1 (covered_cons e l' s) (Hcov s ltac:(lia))) as [Hin | Hin].
  - exists e; split_and!; [left; reflexivity | lia |].
    destruct (Z.le_gt_cases (s + n) (ext_end e)) as [| Hgt]; [assumption | exfalso].
    destruct (proj1 (covered_cons e l' (ext_end e)) (Hcov (ext_end e) ltac:(lia))) as [? | Hin2]; [lia |].
    pose proof (sorted_covered _ _ _ _ Hs Hin2); lia.
  - pose proof (sorted_covered _ _ _ _ Hs Hin) as Hlo.
    destruct IH with (z := ext_end e + 1) as (e' & Hin' & ? & ?); trivial; [| exists e'; split_and!; trivial; right; trivial].
    intros b Hb; destruct (proj1 (covered_cons e l' b) (Hcov b Hb)) as [? | ?]; [lia | assumption].
Qed.

Lemma forward_extent_improves pass cursor e best :
  In e l -> searching best -> improves 0 best (forward_extent pass wanted cursor e best).
Proof.
  intros Hin Hb; destruct (extent_free e Hin) as (Hn & Hmax & Hf); unfold ext_end in Hmax.
  unfold forward_extent; rewrite wrap_small by (destruct Hf; unfold fits; lia).
  destruct (_ || _)%bool eqn:Eout; [exact (searching_stay best Hb) |].
  set (candidate := if negb pass && (start e <? cursor) then cursor else start e).
  destruct (Z.geb_spec candidate (start e + count e)); [exact (searching_stay best Hb) |].
  assert (Hcand : start e <= candidate) by (unfold candidate; case_match; lia).
  destruct (consider_improves candidate (start e + count e - candidate) best Hb) as (H1 & H2 & H3); [lia | |].
  { eapply free_at_sub; [exact Hf | lia..]. }
  split_and!; trivial; destruct Hb as [[? _] _]; lia.
Qed.

Lemma reverse_extent_improves pass cursor e best :
  In e l -> searching best -> improves 0 best (reverse_extent pass wanted cursor e best).
Proof.
  intros Hin Hb; destruct (extent_free e Hin) as (Hn & Hmax & Hf); unfold ext_end in Hmax.
  unfold reverse_extent; rewrite wrap_small by (destruct Hf; unfold fits; lia).
  destruct (_ || _)%bool eqn:Eout; [exact (searching_stay best Hb) |].
  set (candidate := if negb pass && (start e + count e >? cursor) then cursor else start e + count e).
  destruct (Z.leb_spec candidate (start e)); [exact (searching_stay best Hb) |].
  assert (Hcand : candidate <= start e + count e) by (unfold candidate; case_match; lia).
  destruct (consider_end_improves candidate (candidate - start e) best Hb) as (H1 & H2 & H3); [lia | lia | |].
  { eapply free_at_sub; [exact Hf | lia..]. }
  split_and!; trivial; destruct Hb as [[? _] _]; lia.
Qed.

(** The end of a search over the whole volume. *)
Definition finished (r : search) : Prop :=
  sound_search r /\ forall s n, free_at bm total s n -> Z.min n wanted <= (best_of r).2.

Lemma finished_best r : finished r -> best_run bm total wanted (best_of r).
Proof. intros [[[Hn Hf] _] Hmax]; split; assumption. Qed.

(** Three passes, the last over whole extents. *)
Lemma three_passes (f0 f1 f2 : extent -> Z * Z -> search) l' :
  (forall e, In e l <-> In e l') ->
  (forall e best, In e l -> searching best -> improves 0 best (f0 e best)) ->
  (forall e best, In e l -> searching best -> improves 0 best (f1 e best)) ->
  (forall e best, In e l -> searching best -> improves (count e) best (f2 e best)) ->
  finished (then_search (then_search (search_extents f0 l' (0, 0)) (search_extents f1 l')) (search_extents f2 l')).
Proof.
  intros Hin H0 H1 H2; set (r := then_search (search_extents f0 l' (0, 0)) (search_extents f1 l')).
  assert (Hr : improves 0 (0, 0) r).
  { apply then_improves; [| intros best' Hb']; (apply (search_improves (fun _ => 0)); [assumption || exact searching_start |]);
      intros; rewrite <- Hin in *; auto. }
  destruct Hr as (Hs & Hle & _); destruct (found_in r) eqn:Ef.
  { replace (then_search r _) with r by (destruct r; [reflexivity | discriminate]).
    split; [exact Hs |]; intros s n _; apply found_all; trivial. }
  destruct (not_found r Hs Ef) as [Hb ->]; cbn [then_search best_of].
  destruct (search_improves count f2 l' (best_of r) Hb) as [(Hs2 & _ & Hz) Hall]; [intros; rewrite <- Hin in *; auto |].
  split; [exact Hs2 |]; intros s n Hf; destruct (Z.le_gt_cases n 0); [lia |].
  destruct (run_in_extent s n Hf ltac:(lia)) as (e & He & Hs' & Hn'); rewrite Hin in He; specialize (Hall e He).
  unfold ext_end in Hn'; lia.
Qed.

Lemma forward_finished cursor :
  finished (then_search (then_search (search_extents (forward_extent false wanted cursor) l (0, 0))
    (search_extents (forward_extent true wanted cursor) l)) (search_extents (whole_extent wanted) l)).
Proof.
  apply three_passes; [tauto | intros; apply forward_extent_improves; assumption.. |].
  intros e best He Hb; destruct (extent_free e He) as (Hn & _ & Hf); apply consider_improves; assumption.
Qed.

Lemma reverse_finished cursor :
  finished (then_search (then_search (search_extents (reverse_extent false wanted cursor) (reverse l) (0, 0))
    (search_extents (reverse_extent true wanted cursor) (reverse l))) (search_extents (whole_extent_end wanted) (reverse l))).
Proof.
  apply three_passes; [intros e; rewrite <- !list_elem_of_In, elem_of_reverse; tauto | intros; apply reverse_extent_improves; assumption.. |].
  intros e best He Hb; destruct (extent_free e He) as (Hn & Hmax & Hf); unfold whole_extent_end, ext_end in *.
  rewrite wrap_small by (destruct Hf; unfold fits; lia); apply consider_end_improves; trivial; [lia |].
  eapply free_at_sub; [exact Hf | lia..].
Qed.

Lemma empty_finished : l = [] -> best_run bm total wanted (0, 0).
Proof.
  intros Hl; split; cbn; [lia | lia |]; intros s n Hf; destruct (Z.le_gt_cases n 0); [lia |].
  destruct (run_in_extent s n Hf ltac:(lia)) as (e & He & _); rewrite Hl in He; destruct He.
Qed.

End Search.

(** ** Scanning the bitmap *)

Section Scan.
Context (bm : list Z) (total wanted : Z).
Hypothesis Htotal : 0 < total < 2 ^ 63.
Hypothesis Hwanted : 0 < wanted.

(** A scan of [lo, hi) from [best] on. *)
Definition scanned (lo hi : Z) (best : Z * Z) (r : search) : Prop :=
  improves bm total wanted 0 best r /\
  forall s n, lo <= s -> s + n <= hi -> free_at bm total s n -> Z.min n wanted <= (best_of r).2.

Lemma scanned_empty lo hi best :
  searching bm total wanted best ->
  (forall b, lo <= b < hi -> bitmap_get bm b = true) -> scanned lo hi best (inr best).
Proof.
  intros Hb Hused; split; [exact (searching_stay _ _ _ Hwanted best Hb) |]; intros s n Hlo Hhi (_ & _ & Hf).
  destruct (Z.le_gt_cases n 0); [destruct Hb as [[? _] _]; cbn; lia |].
  specialize (Hf s ltac:(lia)); rewrite Hused in Hf by lia; discriminate.
Qed.

Lemma scanned_found lo hi best s :
  searching bm total wanted best -> free_at bm total s wanted ->
  scanned lo hi best (inl (if wanted >? best.2 then (s, wanted) else best)).
Proof.
  intros [Hb Hlt] Hf; replace (wanted >? best.2) with true by lia; split; [| intros s' n' _ _ _; cbn; lia].
  split_and!; [eapply found_sound; eassumption | cbn; lia | cbn; lia].
Qed.

(** A run of [n] blocks, too short, then the scan of the rest. *)
Lemma scanned_step lo hi lo' hi' best s n k :
  searching bm total wanted best -> 0 < n < wanted -> free_at bm total s n ->
  (forall s' n', lo <= s' -> s' + n' <= hi -> 0 < n' -> free_at bm total s' n' -> n' <= n \/ (lo' <= s' /\ s' + n' <= hi')) ->
  (forall best', searching bm total wanted best' -> scanned lo' hi' best' (k best')) ->
  scanned lo hi best (k (if n >? best.2 then (s, n) else best)).
Proof.
  intros Hb Hn Hf Hrest Hk; set (best' := if _ >? _ then _ else _).
  assert (Hb' : searching bm total wanted best').
  { unfold best'; destruct (Z.gtb_spec n best.2); [| exact Hb]; split; [apply run_sound; [lia | exact Hf] | cbn; lia]. }
  assert (Hge : best.2 <= best'.2 /\ n <= best'.2) by (unfold best'; destruct (Z.gtb_spec n best.2); cbn; lia).
  destruct (Hk best' Hb') as [(Hs & Hle & Hz) Hall]; split; [split_and!; trivial; lia |].
  intros s' n' Hlo Hhi Hf'; destruct (Z.le_gt_cases n' 0); [lia |].
  destruct (Hrest s' n' Hlo Hhi ltac:(lia) Hf') as [? | [? ?]]; [lia | apply (Hall s' n'); assumption].
Qed.

Lemma scan_segment_spec fuel last b best :
  (Z.to_nat (last - b) <= fuel)%nat -> 0 <= b <= last -> last <= total -> searching bm total wanted best ->
  scanned b last best (scan_segment fuel bm wanted last b best).
Proof.
  revert b best; induction fuel as [| fuel IH]; intros b best Hfuel Hb Hl Hbest; cbn [scan_segment].
  { apply scanned_empty; [exact Hbest | intros; lia]. }
  destruct (Z.ltb_spec b last); [| apply scanned_empty; [exact Hbest | intros; lia]].
  destruct (skip_used_spec bm last b ltac:(lia)) as (H1 & H2 & H3); set (first := skip_used bm last b) in *.
  destruct (Z.eqb_spec first last) as [| Hnl]; [apply scanned_empty; [exact Hbest | intros; apply H2; lia] |].
  destruct (advance_spec (Z.to_nat (last - first)) (fun b => bitmap_get bm b || negb (b - first <? wanted)) first) as (G1 & G2 & G3).
  set (b' := advance _ _ first) in *; rewrite Z2Nat.id in G1, G3 by lia.
  assert (Hrun : forall x, first <= x < b' -> bitmap_get bm x = false /\ x - first < wanted).
  { intros x Hx; specialize (G2 x Hx); apply orb_false_iff in G2 as [? ?]; split; [assumption | lia]. }
  assert (Hlong : 0 < b' - first <= wanted).
  { specialize (H3 ltac:(lia)); destruct (Z.eq_dec first b') as [He |]; [| specialize (Hrun (b' - 1) ltac:(lia)); lia].
    rewrite <- He in G3; specialize (G3 ltac:(lia)); rewrite H3 in G3; lia. }
  assert (Hf : free_at bm total first (b' - first)) by (split_and!; [lia.. |]; intros; apply Hrun; lia).
  destruct (Z.eqb_spec (b' - first) wanted) as [He | Hne].
  { rewrite He in Hf |- *; apply scanned_found; assumption. }
  assert (Hstop : b' < last -> bitmap_get bm b' = true) by (intros Hlt; specialize (G3 ltac:(lia)); apply orb_true_iff in G3 as [? | ?]; [assumption | lia]).
  assert (Hskip : skip_free bm last b' = b').
  { destruct (skip_free_spec bm last b' ltac:(lia)) as (S1 & S2 & _); destruct (Z.eq_dec (skip_free bm last b') b'); [assumption |].
    specialize (S2 b' ltac:(lia)); rewrite Hstop in S2 by lia; discriminate. }
  rewrite Hskip; apply (scanned_step b last b' last best first (b' - first) (scan_segment fuel bm wanted last b')); trivial; [lia | |].
  - intros s n Hs1 Hs2 Hn (_ & _ & Hfree); destruct (Z.le_gt_cases b' s); [right; lia | left].
    assert (first <= s) by (destruct (Z.le_gt_cases first s); [assumption |]; specialize (Hfree s ltac:(lia)); rewrite H2 in Hfree by lia; discriminate).
    destruct (Z.le_gt_cases (s + n) b'); [lia |]; specialize (Hfree b' ltac:(lia)); rewrite Hstop in Hfree by lia; discriminate.
  - intros best' Hb'; apply IH; trivial; lia.
Qed.

Lemma scan_segment_reverse_spec fuel first b best :
  (Z.to_nat (b - first) <= fuel)%nat -> 0 <= first <= b -> b <= total -> searching bm total wanted best ->
  scanned first b best (scan_segment_reverse fuel bm wanted first b best).
Proof.
  revert b best; induction fuel as [| fuel IH]; intros b best Hfuel Hb Hl Hbest; cbn [scan_segment_reverse].
  { apply scanned_empty; [exact Hbest | intros; lia]. }
  destruct (Z.gtb_spec b first); [| apply scanned_empty; [exact Hbest | intros; lia]].
  destruct (retreat_spec (Z.to_nat (b - first)) (fun b => negb (bitmap_get bm b)) b) as (H1 & H2 & H3).
  set (run_end := retreat _ _ b) in *; rewrite Z2Nat.id in H1, H3 by lia.
  assert (Hused : forall x, run_end <= x < b -> bitmap_get bm x = true) by (intros; apply negb_false_iff, H2; assumption).
  destruct (Z.eqb_spec run_end first) as [| Hnl]; [apply scanned_empty; [exact Hbest | intros; apply Hused; lia] |].
  destruct (retreat_spec (Z.to_nat (run_end - first)) (fun b => bitmap_get bm b || negb (run_end - (b + 1) <? wanted)) run_end) as (G1 & G2 & G3).
  set (b' := retreat _ _ run_end) in *; rewrite Z2Nat.id in G1, G3 by lia.
  assert (Hrun : forall x, b' <= x < run_end -> bitmap_get bm x = false /\ run_end - (x + 1) < wanted).
  { intros x Hx; specialize (G2 x Hx); apply orb_false_iff in G2 as [? ?]; split; [assumption | lia]. }
  assert (Hlong : 0 < run_end - b' <= wanted).
  { specialize (H3 ltac:(lia)); apply negb_true_iff in H3.
    destruct (Z.eq_dec run_end b') as [He |]; [| specialize (Hrun b' ltac:(lia)); lia].
    rewrite <- He in G3; specialize (G3 ltac:(lia)); rewrite H3 in G3; lia. }
  assert (Hf : free_at bm total b' (run_end - b')) by (split_and!; [lia.. |]; intros; apply Hrun; lia).
  destruct (Z.eqb_spec (run_end - b') wanted) as [He | Hne].
  { rewrite He in Hf |- *; apply scanned_found; assumption. }
  assert (Hstop : first < b' -> bitmap_get bm (b' - 1) = true).
  { intros Hlt; specialize (G3 ltac:(lia)); apply orb_true_iff in G3 as [? | ?]; [assumption | lia]. }
  assert (Hskip : retreat (Z.to_nat (b' - first)) (bitmap_get bm) b' = b').
  { destruct (Z.to_nat (b' - first)) eqn:En; [reflexivity |]; cbn [retreat]; rewrite Hstop by lia; reflexivity. }
  rewrite Hskip; apply (scanned_step first b first b' best b' (run_end - b') (scan_segment_reverse fuel bm wanted first b')); trivial; [lia | |].
  - intros s n Hs1 Hs2 Hn (_ & _ & Hfree); destruct (Z.le_gt_cases (s + n) b'); [right; lia | left].
    assert (s + n <= run_end).
    { destruct (Z.le_gt_cases (s + n) run_end); [assumption |]; specialize (Hfree (s + n - 1) ltac:(lia)); rewrite Hused in Hfree by lia; discriminate. }
    destruct (Z.le_gt_cases b' s); [lia |]; specialize (Hfree (b' - 1) ltac:(lia)); rewrite Hstop in Hfree by lia; discriminate.
  - intros best' Hb'; apply IH; trivial; lia.
Qed.

(** Two partial scans, then the whole volume. *)
Lemma scan_choice r1 (more : bool) (k : Z * Z -> search) r3 :
  sound_search bm total wanted r1 -> (more = false -> finished bm total wanted r1) ->
  (forall best, searching bm total wanted best -> sound_search bm total wanted (k best)) ->
  finished bm total wanted r3 ->
  let r := if negb (found_in r1) && more then k (best_of r1) else r1 in
  best_run bm total wanted
    (if negb (found_in r) && more && ((best_of r).2 <? wanted) then best_of r3 else best_of r).
Proof.
  intros H1 Hall Hk H3 r.
  assert (Hfound : forall r, sound_search bm total wanted r -> found_in r = true -> best_run bm total wanted (best_of r)).
  { intros q Hq Hf; apply finished_best; split; [exact Hq |]; intros; eapply found_all; eassumption. }
  assert (Hr : sound_search bm total wanted r).
  { unfold r; destruct (found_in r1) eqn:E1; cbn [negb andb]; [exact H1 |]; destruct more; [apply Hk | exact H1].
    exact (proj1 (not_found _ _ _ _ H1 E1)). }
  destruct (found_in r) eqn:Er; cbn [negb andb]; [exact (Hfound r Hr Er) |].
  destruct more; cbn [andb].
  - destruct (not_found _ _ _ _ Hr Er) as [[_ Hlt] _]; replace (_ <? wanted) with true by lia; exact (finished_best _ _ _ _ H3).
  - unfold r; rewrite andb_false_r; exact (finished_best _ _ _ _ (Hall eq_refl)).
Qed.

(** The forward scan: from the cursor to the end, then from block 1 to the cursor,
    then, when no run was long enough, the whole volume.  Block 0 is in use. *)
Hypothesis Hzero : bitmap_get bm 0 = true.

Lemma scanned_whole r : scanned 1 total (0, 0) r -> finished bm total wanted r.
Proof.
  intros [(Hs & Hle & Hz) Hall]; split; [exact Hs |]; intros s n Hf; destruct (Z.le_gt_cases n 0); [lia |].
  destruct Hf as (H1 & H2 & Hf); apply (Hall s n); trivial; [| split_and!; trivial].
  destruct (Z.eq_dec s 0) as [-> |]; [| lia]; specialize (Hf 0 ltac:(lia)); rewrite Hzero in Hf; discriminate.
Qed.

End Scan.

(** ** The runs a volume chooses *)

Section Choose.
Context {E : Endian} {A : CheckedArithmetic} {C K : Type}.
#[local] Abbreviation volume := (infs_volume C K).

(** The superblock in memory: the structure without the rest of its block. *)
Definition sb_wf (s : list Z) : Prop := length s = sb_size /\ bytes_ok s.

(** The accounting of a volume: the bitmap covers every block and has block 0 in
    use, the superblock counts the free blocks, the index lists them. *)
Record volume_ok (v : volume) : Prop := {
  ok_sb : sb_wf (sb v);
  ok_total : 0 < total_blocks v < 2 ^ 63;
  ok_bitmap : bytes_ok (bitmap v) /\ total_blocks v <= bits (bitmap v) < 2 ^ 64;
  ok_zero : bitmap_get (bitmap v) 0 = true;
  ok_free : free_blocks v = clear_bits (bitmap v) (seqZ 0 (total_blocks v));
  ok_index : free_extent_index_valid v = true -> represents (bitmap v) (total_blocks v) (free_extents v)
}.

Context (v : volume) (wanted : Z).
Hypothesis Hok : volume_ok v.
Hypothesis Hwanted : 0 < wanted.
#[local] Abbreviation best := (best_run (bitmap v) (total_blocks v) wanted).

Lemma index_choice r :
  finished (bitmap v) (total_blocks v) wanted r ->
  best (default (0, 0) (match r with inl found => Some found | inr b => if b.2 =? 0 then None else Some b end)).
Proof.
  intros Hfin; apply finished_best in Hfin; destruct r as [found | b]; [exact Hfin |]; cbn [best_of] in Hfin.
  destruct (Z.eqb_spec b.2 0) as [He |]; [| exact Hfin]; destruct Hfin as [H1 H2 H3]; split; cbn; [lia.. |].
  rewrite <- He; exact H3.
Qed.

Lemma choose_data_best cursor : 1 <= cursor < total_blocks v -> best (choose_data v wanted cursor).
Proof.
  intros Hc; destruct Hok as [_ Ht _ Hz _ Hi]; unfold choose_data; destruct (free_extent_index_valid v) eqn:Ev.
  { unfold free_extent_index_choose_forward; rewrite Ev; specialize (Hi eq_refl); replace (wanted =? 0) with false by lia; cbn [negb orb].
    destruct (bool_decide_reflect (free_extents v = [])) as [He | Hne]; [eapply empty_finished; eassumption |].
    apply index_choice, forward_finished; assumption. }
  unfold alloc_scan_segment.
  assert (Hscan : forall lo hi b, 0 <= lo <= hi -> hi <= total_blocks v -> searching (bitmap v) (total_blocks v) wanted b ->
    scanned (bitmap v) (total_blocks v) wanted lo hi b (scan_segment (Z.to_nat (hi - lo)) (bitmap v) wanted hi lo b))
    by (intros; apply scan_segment_spec; trivial; lia).
  pose proof (searching_start (bitmap v) (total_blocks v) wanted Hwanted) as H0.
  apply scan_choice with (more := cursor >? 1)
    (k := (fun b => scan_segment (Z.to_nat (cursor - 1)) (bitmap v) wanted cursor 1 b)); trivial.
  - apply (Hscan cursor (total_blocks v) (0, 0)); trivial; lia.
  - intros H1; assert (cursor = 1) as -> by lia; apply scanned_whole; trivial; apply Hscan; trivial; lia.
  - intros b Hb; apply (Hscan 1 cursor b); trivial; lia.
  - apply scanned_whole; trivial; apply Hscan; trivial; lia.
Qed.

Lemma reverse_scan lo hi b :
  0 <= lo <= hi -> hi <= total_blocks v -> searching (bitmap v) (total_blocks v) wanted b ->
  scanned (bitmap v) (total_blocks v) wanted lo hi b (alloc_scan_segment_reverse v wanted lo hi b).
Proof. intros; pose proof (ok_total v Hok); apply scan_segment_reverse_spec; trivial; lia. Qed.

Lemma choose_metadata_best cursor : 1 < cursor <= total_blocks v -> best (choose_metadata v wanted cursor).
Proof.
  intros Hc; destruct Hok as [_ Ht _ Hz _ Hi]; unfold choose_metadata; destruct (free_extent_index_valid v) eqn:Ev.
  { unfold free_extent_index_choose_reverse; rewrite Ev; specialize (Hi eq_refl); replace (wanted =? 0) with false by lia; cbn [negb orb].
    destruct (bool_decide_reflect (free_extents v = [])) as [He | Hne]; [eapply empty_finished; eassumption |].
    apply index_choice, reverse_finished; assumption. }
  pose proof (searching_start (bitmap v) (total_blocks v) wanted Hwanted) as H0.
  apply scan_choice with (more := cursor <? total_blocks v)
    (k := (fun b => alloc_scan_segment_reverse v wanted cursor (total_blocks v) b)); trivial.
  - apply (reverse_scan 1 cursor (0, 0)); trivial; lia.
  - intros H1; assert (cursor = total_blocks v) as -> by lia; apply scanned_whole; trivial; apply reverse_scan; trivial; lia.
  - intros b Hb; apply (reverse_scan cursor (total_blocks v) b); trivial; lia.
  - apply scanned_whole; trivial; apply reverse_scan; trivial; lia.
Qed.

(** A finished search finds a run of the wanted length when there is one. *)
Definition exact_run (r : option Z) : Prop :=
  match r with
  | Some s => free_at (bitmap v) (total_blocks v) s wanted
  | None => forall s, ~ free_at (bitmap v) (total_blocks v) s wanted
  end.

Lemma exact_of r :
  finished (bitmap v) (total_blocks v) wanted r ->
  exact_run (if found_in r then Some (best_of r).1 else None).
Proof.
  intros [[[Hn Hf] Hw] Hmax]; destruct (found_in r); cbn.
  - rewrite <- (proj2 Hw eq_refl) at 1; apply Hf; destruct Hw as [_ Hw]; specialize (Hw eq_refl); lia.
  - intros s Hs; specialize (Hmax s wanted Hs); rewrite Z.min_id in Hmax; assert (He : (best_of r).2 = wanted) by lia.
    apply Hw in He; discriminate.
Qed.

Lemma found_finished r :
  sound_search (bitmap v) (total_blocks v) wanted r -> found_in r = true -> finished (bitmap v) (total_blocks v) wanted r.
Proof. intros Hs Hf; split; [exact Hs |]; intros; eapply found_all; eassumption. Qed.

Lemma choose_exact_spec cursor : 1 < cursor <= total_blocks v -> exact_run (choose_exact v wanted cursor).
Proof.
  intros Hc; destruct Hok as [_ Ht _ Hz _ Hi]; unfold choose_exact; destruct (free_extent_index_valid v) eqn:Ev.
  { unfold free_extent_index_choose_reverse; rewrite Ev; specialize (Hi eq_refl); replace (wanted =? 0) with false by lia; cbn [negb orb].
    destruct (bool_decide_reflect (free_extents v = [])) as [He | Hne].
    { intros s Hs; pose proof (br_longest _ _ _ _ (empty_finished _ _ _ Hwanted _ Hi He) s wanted Hs); cbn in *; lia. }
    pose proof (exact_of _ (reverse_finished _ _ _ Ht Hwanted _ Hi cursor)) as Hx.
    destruct (then_search _ _) as [found | b]; exact Hx. }
  pose proof (searching_start (bitmap v) (total_blocks v) wanted Hwanted) as H0; cbv zeta.
  assert (Hpart : forall lo hi, 0 <= lo <= hi -> hi <= total_blocks v ->
    sound_search (bitmap v) (total_blocks v) wanted (alloc_scan_segment_reverse v wanted lo hi (0, 0)))
    by (intros; apply (reverse_scan lo hi (0, 0)); trivial).
  assert (Hwhole : finished (bitmap v) (total_blocks v) wanted (alloc_scan_segment_reverse v wanted 1 (total_blocks v) (0, 0)))
    by (apply scanned_whole; trivial; apply reverse_scan; trivial; lia).
  apply exact_of; destruct (Z.ltb_spec cursor (total_blocks v)); rewrite ?andb_true_r, ?andb_false_r.
  - destruct (found_in (alloc_scan_segment_reverse v wanted 1 cursor (0, 0))) eqn:E1; cbn [negb].
    { rewrite E1; apply found_finished; [apply Hpart; lia | exact E1]. }
    destruct (found_in (alloc_scan_segment_reverse v wanted cursor (total_blocks v) (0, 0))) eqn:E2; cbn [negb]; [| exact Hwhole].
    apply found_finished; [apply Hpart; lia | exact E2].
  - assert (cursor = total_blocks v) as -> by lia; exact Hwhole.
Qed.

End Choose.

(** ** The index and the scan agree *)

Lemma best_run_length bm total wanted r r' :
  best_run bm total wanted r -> best_run bm total wanted r' -> r.2 = r'.2.
Proof.
  assert (Hle : forall r r', best_run bm total wanted r -> best_run bm total wanted r' -> r.2 <= r'.2).
  { intros q q' [H1 H2 _] [G1 _ G3]; destruct (Z.eq_dec q.2 0); [lia |].
    specialize (G3 q.1 q.2 (H2 ltac:(lia))); lia. }
  intros; apply Z.le_antisymm; apply Hle; assumption.
Qed.

(** The volume without its index. *)
Definition unindexed {C K} (v : infs_volume C K) : infs_volume C K := free_extent_index_invalidate v.

(** C10.  With the free-extent index in use an allocator settles for as long a
    run as it would by scanning the bitmap, for data, for metadata, and for a run
    of an exact length, wherever the cursors stand. *)
Theorem index_agrees_with_scan {E : Endian} {A : CheckedArithmetic} {C K : Type}
    (v : infs_volume C K) wanted data metadata :
  volume_ok v -> 0 < wanted -> 1 <= data < total_blocks v -> 1 < metadata <= total_blocks v ->
  (choose_data v wanted data).2 = (choose_data (unindexed v) wanted data).2 /\
  (choose_metadata v wanted metadata).2 = (choose_metadata (unindexed v) wanted metadata).2 /\
  (is_Some (choose_exact v wanted metadata) <-> is_Some (choose_exact (unindexed v) wanted metadata)).
Proof.
  intros Hok Hw Hd Hm.
  assert (Hok' : volume_ok (unindexed v)) by (destruct Hok, v; split; trivial; discriminate).
  assert (Hsame : bitmap (unindexed v) = bitmap v /\ total_blocks (unindexed v) = total_blocks v) by (destruct v; auto).
  destruct Hsame as [Hb Ht]; split_and!.
  - apply (best_run_length (bitmap v) (total_blocks v) wanted); [apply choose_data_best; trivial |].
    rewrite <- Hb, <- Ht; apply choose_data_best; rewrite ?Ht; trivial.
  - apply (best_run_length (bitmap v) (total_blocks v) wanted); [apply choose_metadata_best; trivial |].
    rewrite <- Hb, <- Ht; apply choose_metadata_best; rewrite ?Ht; trivial.
  - pose proof (choose_exact_spec v wanted Hok Hw metadata Hm) as H1.
    pose proof (choose_exact_spec (unindexed v) wanted Hok' Hw metadata ltac:(rewrite Ht; exact Hm)) as H2.
    unfold exact_run in H2; rewrite Hb, Ht in H2.
    destruct (choose_exact v wanted metadata), (choose_exact (unindexed v) wanted metadata); cbn in H1, H2;
      split; intros [x Hx]; try discriminate; eauto; [destruct (H2 _ H1) | destruct (H1 _ H2)].
Qed.

(** ** A volume of 20 blocks *)

Section Sample.
#[local] Existing Instance reference_endian.
#[local] Existing Instance reference_arithmetic.

(** Blocks 1, 5, 6, 16 and 19 are free. *)
Definition sample_volume : infs_volume ram () :=
  Vol (ram_storage (replicate (20 * INFS_BLOCK_SIZE) 7) false) true OK
    (splice 36 (store_le64 5) (splice 28 (store_le64 20) (replicate sb_size 0)))
    [0x9d; 0xff; 0xf6] [Extent 1 1; Extent 5 2; Extent 16 1; Extent 19 1] true
    (Tx false OK [] [] []) (Savepoint false [] 0 0 false (Extent 0 0) 0 0 0) 0 7 0 false () 0.

Lemma sample_ok : volume_ok sample_volume.
Proof.
  split.
  - split; [vm_compute; reflexivity | eval_decide].
  - vm_compute; auto.
  - split; [eval_decide | split; vm_compute; [discriminate | reflexivity]].
  - vm_compute; reflexivity.
  - vm_compute; reflexivity.
  - intros _; change (total_blocks sample_volume) with (le64_at 28 (sb sample_volume)).
    replace (le64_at 28 (sb sample_volume)) with 20 by (vm_compute; reflexivity).
    replace (free_extents sample_volume) with (free_runs 20 [0x9d; 0xff; 0xf6] 20 0) by (vm_compute; reflexivity).
    apply (rebuilt_represents [0x9d; 0xff; 0xf6] 20); lia.
Qed.

(** Two blocks are wanted, from block 7 on. *)
Lemma index_agrees_with_scan_witness :
  choose_data sample_volume 2 7 = (5, 2) /\
  (choose_data sample_volume 2 7).2 = (choose_data (unindexed sample_volume) 2 7).2.
Proof.
  split; [vm_compute; reflexivity |].
  apply (index_agrees_with_scan sample_volume 2 7 20); [exact sample_ok | lia | split; vm_compute; auto; discriminate.. ].
Defined.

End Sample.
End AllocChoiceFacts.
