(* ===== verification/Transactions.v ===== *)
(** Allocation inside transactions ([Allocator.v]): every allocation and every free
    keeps the accounting of the volume, the journal and the deferred ranges are
    enough to undo them, and the two levels of rollback give back exactly the
    bitmap and the superblock they started from. *)

From Stdlib Require Import ZifyBool.
From stdpp Require Import prelude.
From S2P Require Import Prelude Endian Checksum Format Storage Objects FormatVolume FormatPlan Allocator FreeExtents AllocChoice.
#[local] Open Scope Z_scope.

Module TransactionsFacts.
Import Storage Objects ObjectsFacts FormatVolume FormatPlanFacts Allocator FreeExtentsFacts AllocChoiceFacts.

(** ** Bitmaps *)

Lemma bitmap_ext bm bm' :
  bytes_ok bm -> bytes_ok bm' -> length bm = length bm' ->
  (forall b, 0 <= b < bits bm -> bitmap_get bm b = bitmap_get bm' b) -> bm = bm'.
Proof.
  intros H1 H2 Hl Hb; apply list_eq_same_length with (n := length bm); [auto.. |]; intros i x y Hi Hx Hy.
  rewrite <- (list_lookup_total_correct _ _ _ Hx), <- (list_lookup_total_correct _ _ _ Hy).
  pose proof (bytes_ok_lookup_total bm i H1) as B1; pose proof (bytes_ok_lookup_total bm' i H2) as B2.
  rewrite <- (wrap_small 8 (bm !!! i)), <- (wrap_small 8 (bm' !!! i)) by assumption.
  apply Z.bits_inj'; intros k Hk; rewrite !wrap_testbit by lia; destruct (Z.ltb_spec k 8); [| reflexivity]; cbn [andb].
  assert (Hbit : forall bm, bitmap_get bm (8 * Z.of_nat i + k) = _) by (intros; apply bitmap_bit_testbit; lia).
  specialize (Hb (8 * Z.of_nat i + k)); unfold bits in Hb; rewrite !Hbit in Hb.
  replace ((8 * Z.of_nat i + k) / 8) with (Z.of_nat i) in Hb by (apply (Z.div_unique_pos _ _ _ k); lia).
  replace ((8 * Z.of_nat i + k) mod 8) with k in Hb by (apply (Z.mod_unique_pos _ _ (Z.of_nat i)); lia).
  rewrite Nat2Z.id in Hb; apply Hb; lia.
Qed.

Lemma clear_bits_ext bm bm' l :
  (forall b, In b l -> bitmap_get bm b = bitmap_get bm' b) -> clear_bits bm l = clear_bits bm' l.
Proof.
  induction l as [| b l IH]; intros Heq; [reflexivity |]; rewrite !clear_bits_cons, IH, (Heq b) by (cbn in *; auto); reflexivity.
Qed.

Lemma clear_bits_all bm l a :
  (forall b, In b l -> bitmap_get bm b = a) -> clear_bits bm l = if a then 0 else Z.of_nat (length l).
Proof.
  induction l as [| b l IH]; intros Heq; [destruct a; reflexivity |]; rewrite clear_bits_cons, IH, (Heq b) by (cbn in *; auto).
  cbn [length]; destruct a; lia.
Qed.

Lemma in_seqZ b m n : In b (seqZ m n) <-> m <= b < m + n.
Proof. rewrite <- list_elem_of_In, elem_of_seqZ; reflexivity. Qed.

(** A run of blocks changes hands. *)
Lemma clear_bits_run bm bm' total first n a :
  0 <= first -> 0 <= n -> first + n <= total -> with_run bm bm' total first n a ->
  (forall b, first <= b < first + n -> bitmap_get bm b = negb a) ->
  clear_bits bm' (seqZ 0 total) = clear_bits bm (seqZ 0 total) + (if a then - n else n).
Proof.
  intros Hf Hn Ht Hrun Hold.
  assert (Hsplit : seqZ 0 total = seqZ 0 first ++ seqZ first n ++ seqZ (first + n) (total - (first + n))).
  { rewrite <- (seqZ_app first n (total - (first + n))), <- (seqZ_app 0 first) by lia; f_equal; lia. }
  rewrite Hsplit, !clear_bits_app.
  rewrite (clear_bits_ext bm' bm (seqZ 0 first)), (clear_bits_ext bm' bm (seqZ (first + n) _)).
  - rewrite (clear_bits_all bm' (seqZ first n) a), (clear_bits_all bm (seqZ first n) (negb a)), length_seqZ; [destruct a; cbn [negb]; lia | |].
    + intros b Hb%in_seqZ; apply Hold; lia.
    + intros b Hb%in_seqZ; rewrite (Hrun b) by lia; replace (_ && _)%bool with true by lia; reflexivity.
  - intros b Hb%in_seqZ; rewrite (Hrun b) by lia; replace (_ && _)%bool with false by lia; reflexivity.
  - intros b Hb%in_seqZ; rewrite (Hrun b) by lia; replace (_ && _)%bool with false by lia; reflexivity.
Qed.

(** ** Changes of a volume *)

Section Volume.
Context {E : Endian} {A : CheckedArithmetic} {C K : Type} {CC : Caches C K} (reserves : nat -> bool).
#[local] Abbreviation volume := (infs_volume C K).

Definition journaled (l : list extent) (b : Z) : bool := existsb (in_extent b) l.

(** What an operation inside a transaction leaves alone, and the accounting. *)
Record kept (v v' : volume) : Prop := {
  kp_ok : volume_ok v';
  kp_op : op v' = op v;
  kp_active : tx_active (tx v') = tx_active (tx v);
  kp_base : tx_base_sb (tx v') = tx_base_sb (tx v);
  kp_total : total_blocks v' = total_blocks v;
  kp_length : length (bitmap v') = length (bitmap v)
}.

Definition in_range (total : Z) (e : extent) : Prop := 0 <= start e /\ 0 < count e /\ start e + count e <= total.

(** The deferred ranges with one more, perhaps merged into the last. *)
Definition deferred_with (d d' : list extent) (first n : Z) : Prop :=
  d' = d ++ [Extent first n] \/
  exists init e, d = init ++ [e] /\ start e + count e = first /\ d' = init ++ [Extent (start e) (count e + n)].

(** The elementary changes. *)
Inductive change (v v' : volume) : Prop :=
| Quiet :
    bitmap v' = bitmap v -> tx_allocated (tx v') = tx_allocated (tx v) ->
    tx_deferred (tx v') = tx_deferred (tx v) -> change v v'
| Took first n :
    in_range (total_blocks v) (Extent first n) ->
    (forall b, first <= b < first + n -> bitmap_get (bitmap v) b = false) ->
    bitmap v' = bitmap_set_run (bitmap v) first n true ->
    tx_allocated (tx v') = tx_allocated (tx v) ++ [Extent first n] ->
    tx_deferred (tx v') = tx_deferred (tx v) -> change v v'
| Released b :
    0 <= b < total_blocks v -> bitmap_get (bitmap v) b = true -> tx_block_private v b = true ->
    bitmap v' = Allocator.bitmap_set (bitmap v) b false ->
    tx_allocated (tx v') = tx_allocated (tx v) -> tx_deferred (tx v') = tx_deferred (tx v) -> change v v'
| Deferred first n :
    in_range (total_blocks v) (Extent first n) ->
    (forall b, first <= b < first + n -> bitmap_get (bitmap v) b = true /\ tx_block_private v b = false) ->
    bitmap v' = bitmap v -> tx_allocated (tx v') = tx_allocated (tx v) ->
    deferred_with (tx_deferred (tx v)) (tx_deferred (tx v')) first n -> change v v'.

Definition changes (v v' : volume) : Prop := kept v v' /\ change v v'.

(** *** Fields of an updated volume *)

Lemma sb_free_is (v : volume) n : sb (set_free_blocks v n) = splice 36 (store_le64 n) (sb v).
Proof. destruct v; reflexivity. Qed.

Lemma length_store64 n : length (store_le64 n) = 8%nat.
Proof. rewrite store_le64_law; apply length_le_store. Qed.

Lemma total_free_blocks (v : volume) n : sb_wf (sb v) -> total_blocks (set_free_blocks v n) = total_blocks v.
Proof.
  intros [Hl _]; unfold total_blocks, sb_total_blocks, le64_at; rewrite sb_free_is, slice_splice_ne; trivial;
    rewrite length_store64, ?Hl; unfold sb_size; lia.
Qed.

Lemma free_free_blocks (v : volume) n : sb_wf (sb v) -> fits 64 n -> free_blocks (set_free_blocks v n) = n.
Proof. intros [Hl _] Hn; unfold free_blocks, sb_free_blocks; rewrite sb_free_is; apply le64_at_splice; [rewrite Hl; unfold sb_size; lia | exact Hn]. Qed.

Lemma wf_free_blocks (v : volume) n : sb_wf (sb v) -> sb_wf (sb (set_free_blocks v n)).
Proof.
  intros [Hl Hb]; rewrite sb_free_is; split; [rewrite length_splice; rewrite ?length_store64, ?Hl; unfold sb_size; lia |].
  apply bytes_ok_splice; [rewrite store_le64_law; apply le_store_ok | exact Hb].
Qed.

(** A volume with other blocks in use. *)
Definition moved (v : volume) (bm : list Z) (fb : Z) (fe : list extent) (fv : bool) (k : nat) : volume :=
  set_free_blocks (set_bitmap (set_requests (set_index v fe fv) k) bm) fb.

Lemma moved_ok (v : volume) bm fb fe fv k :
  volume_ok v -> bytes_ok bm -> length bm = length (bitmap v) -> bitmap_get bm 0 = true ->
  fb = clear_bits bm (seqZ 0 (total_blocks v)) -> (fv = true -> represents bm (total_blocks v) fe) ->
  kept v (moved v bm fb fe fv k) /\ free_blocks (moved v bm fb fe fv k) = fb.
Proof.
  intros [Hs Ht Hb Hz Hf Hi] Hbm Hl Hz' Hfb Hi'.
  set (w := set_bitmap (set_requests (set_index v fe fv) k) bm).
  assert (Hw : sb w = sb v /\ bitmap w = bm /\ free_extents w = fe /\ free_extent_index_valid w = fv /\
    op w = op v /\ tx w = tx v) by (unfold w; destruct v; split_and!; reflexivity).
  destruct Hw as (W1 & W2 & W3 & W4 & W5 & W6).
  assert (Hfits : fits 64 fb).
  { rewrite Hfb; pose proof (clear_bits_bounds bm (seqZ 0 (total_blocks v))) as Hc; rewrite length_seqZ in Hc; unfold fits; lia. }
  assert (Htot : total_blocks (set_free_blocks w fb) = total_blocks v).
  { rewrite total_free_blocks by (rewrite W1; exact Hs); unfold total_blocks; rewrite W1; reflexivity. }
  assert (Hfree : free_blocks (set_free_blocks w fb) = fb) by (apply free_free_blocks; [rewrite W1; exact Hs | exact Hfits]).
  assert (Hrest : forall x, bitmap (set_free_blocks w x) = bm /\ op (set_free_blocks w x) = op v /\ tx (set_free_blocks w x) = tx v /\
    free_extents (set_free_blocks w x) = fe /\ free_extent_index_valid (set_free_blocks w x) = fv) by (unfold w; destruct v; intros; split_and!; reflexivity).
  destruct (Hrest fb) as (R1 & R2 & R3 & R4 & R5); unfold moved; fold w.
  split; [| exact Hfree]; split; [| exact R2 | rewrite R3.. | exact Htot | rewrite R1]; trivial.
  split; rewrite ?Htot, ?R1, ?R4, ?R5; trivial; [apply wf_free_blocks; rewrite W1; exact Hs | | rewrite Hfree; exact Hfb].
  split; [exact Hbm |]; unfold bits in *; rewrite Hl; apply Hb.
Qed.

Lemma moved_fields (v : volume) bm fb fe fv k :
  bitmap (moved v bm fb fe fv k) = bm /\ op (moved v bm fb fe fv k) = op v /\ tx (moved v bm fb fe fv k) = tx v.
Proof. unfold moved; destruct v; auto. Qed.

Lemma journal_fields (v : volume) l :
  let w := set_journal v l in
  bitmap w = bitmap v /\ sb w = sb v /\ op w = op v /\ tx_active (tx w) = tx_active (tx v) /\
  tx_base_sb (tx w) = tx_base_sb (tx v) /\ tx_allocated (tx w) = l /\ tx_deferred (tx w) = tx_deferred (tx v).
Proof. destruct v; cbn; auto 10. Qed.

(** Updates elsewhere keep the accounting. *)
Lemma ok_same (v v' : volume) :
  volume_ok v -> sb v' = sb v -> bitmap v' = bitmap v -> free_extents v' = free_extents v ->
  free_extent_index_valid v' = free_extent_index_valid v -> volume_ok v'.
Proof.
  intros [Hs Ht Hb Hz Hf Hi] E1 E2 E3 E4; unfold total_blocks, free_blocks in *.
  split; unfold total_blocks, free_blocks; rewrite ?E1, ?E2, ?E3, ?E4; assumption.
Qed.

Lemma requests_ok (v : volume) k : volume_ok v -> volume_ok (set_requests v k).
Proof. intros; apply (ok_same v); [assumption | destruct v; reflexivity..]. Qed.

Lemma quiet_same (v v' : volume) :
  volume_ok v -> sb v' = sb v -> bitmap v' = bitmap v -> free_extents v' = free_extents v ->
  free_extent_index_valid v' = free_extent_index_valid v -> op v' = op v ->
  tx_active (tx v') = tx_active (tx v) -> tx_base_sb (tx v') = tx_base_sb (tx v) ->
  tx_allocated (tx v') = tx_allocated (tx v) -> tx_deferred (tx v') = tx_deferred (tx v) -> changes v v'.
Proof.
  intros Hok E1 E2 E3 E4 E5 E6 E7 E8 E9; split; [| apply Quiet; assumption].
  split; trivial; [apply (ok_same v); assumption | unfold total_blocks; rewrite E1; reflexivity | rewrite E2; reflexivity].
Qed.

(** ** Taking a run *)

Lemma run_bits (v : volume) first n a x :
  volume_ok v -> in_range (total_blocks v) (Extent first n) -> 0 <= x ->
  bitmap_get (bitmap_set_run (bitmap v) first n a) x =
  if (first <=? x) && (x <? first + n) then a else bitmap_get (bitmap v) x.
Proof. intros [_ Ht [Hb1 Hb2] _ _ _] (H1 & H2 & H3) Hx; cbn in *; apply bitmap_get_run; trivial; lia. Qed.

Lemma free_run_not_zero (v : volume) first n :
  volume_ok v -> in_range (total_blocks v) (Extent first n) ->
  (forall b, first <= b < first + n -> bitmap_get (bitmap v) b = false) -> 1 <= first.
Proof.
  intros Hok (H1 & H2 & H3) Hf; cbn in *; destruct (Z.eq_dec first 0) as [-> |]; [| lia].
  specialize (Hf 0 ltac:(lia)); rewrite (ok_zero v Hok) in Hf; discriminate.
Qed.

(** The run is marked, counted and in the journal. *)
Record taken (v v' : volume) (first n : Z) : Prop := {
  tk_changes : changes v v';
  tk_bitmap : bitmap v' = bitmap_set_run (bitmap v) first n true;
  tk_journal : tx_allocated (tx v') = tx_allocated (tx v) ++ [Extent first n];
  tk_deferred : tx_deferred (tx v') = tx_deferred (tx v);
  tk_free : free_blocks v' = free_blocks v - n
}.

Lemma record_cases (v : volume) first n :
  tx_active (tx v) = true -> 0 < total_blocks v < 2 ^ 63 -> in_range (total_blocks v) (Extent first n) ->
  (exists k, tx_record_allocated reserves v first n =
     (OK, set_requests (set_journal v (tx_allocated (tx v) ++ [Extent first n])) k)) \/
  (exists e k, (e = NO_MEMORY \/ e = OVERFLOW) /\ tx_record_allocated reserves v first n = (e, set_requests v k)).
Proof.
  intros Ha Ht (H1 & H2 & H3); cbn in *; unfold tx_record_allocated; rewrite Ha; replace (n =? 0) with false by lia; cbn [negb orb].
  rewrite (add_fits (total_blocks v)) by lia; destruct (infiltratr_size_add_checked _ _); unfold array_reserve.
  - destruct (reserves (requests v)); cbn [negb]; [left; exists (S (requests v)); destruct v; reflexivity |].
    right; exists NO_MEMORY, (S (requests v)); split; [left | ]; reflexivity.
  - right; exists OVERFLOW, (requests v); split; [right; reflexivity | destruct v; reflexivity].
Qed.

Lemma clear_count (v : volume) first n :
  volume_ok v -> in_range (total_blocks v) (Extent first n) ->
  (forall b, first <= b < first + n -> bitmap_get (bitmap v) b = false) -> n <= free_blocks v.
Proof.
  intros Hok Hr Hf; pose proof Hr as (H1 & H2 & H3); cbn in *; rewrite (ok_free v Hok).
  assert (Hrun : with_run (bitmap v) (bitmap_set_run (bitmap v) first n true) (total_blocks v) first n true)
    by (intros b Hb; apply run_bits; trivial; lia).
  pose proof (clear_bits_run _ _ _ _ _ _ H1 (Z.lt_le_incl _ _ H2) H3 Hrun Hf) as Hc; cbn in Hc.
  pose proof (clear_bits_bounds (bitmap_set_run (bitmap v) first n true) (seqZ 0 (total_blocks v))); lia.
Qed.

Lemma take_cases (v : volume) first n :
  volume_ok v -> tx_active (tx v) = true -> in_range (total_blocks v) (Extent first n) ->
  (forall b, first <= b < first + n -> bitmap_get (bitmap v) b = false) ->
  (exists v', allocate_selected_run_uninitialized reserves v first n = (OK, v') /\ taken v v' first n) \/
  (exists e k, (e = NO_MEMORY \/ e = OVERFLOW) /\ allocate_selected_run_uninitialized reserves v first n = (e, set_requests v k)).
Proof.
  intros Hok Ha Hr Hf; unfold allocate_selected_run_uninitialized.
  destruct (record_cases v first n Ha (ok_total v Hok) Hr) as [[k ->] | (e & k & He & ->)];
    [left | right; exists e, k; rewrite decide_True by (destruct He; subst; discriminate); auto].
  rewrite decide_False by (intros []; reflexivity).
  set (w := set_requests (set_journal v (tx_allocated (tx v) ++ [Extent first n])) k).
  set (bm := bitmap_set_run (bitmap v) first n true).
  assert (Hrun : with_run (bitmap v) bm (total_blocks v) first n true) by (intros b Hb; apply run_bits; trivial; lia).
  assert (Hw : volume_ok w) by (apply (ok_same v); [exact Hok | unfold w; destruct v; reflexivity..]).
  assert (Hsame : bitmap w = bitmap v /\ total_blocks w = total_blocks v /\ free_blocks w = free_blocks v) by (unfold w; destruct v; auto).
  destruct Hsame as (W1 & W2 & W3); pose proof Hr as (H1 & H2 & H3); cbn in H1, H2, H3.
  destruct (index_remove_keeps reserves w (bitmap v) bm (total_blocks v) first n) as (fe & fv & k' & -> & Hi); trivial.
  { pose proof (ok_total v Hok); lia. }
  { rewrite <- W1, <- W2; exact (ok_index w Hw). }
  pose proof (clear_count v first n Hok Hr Hf) as Hn.
  pose proof (clear_bits_run _ _ _ _ _ _ H1 (Z.lt_le_incl _ _ H2) H3 Hrun Hf) as Hc; rewrite <- (ok_free v Hok) in Hc.
  assert (Hu : u64 (free_blocks v - n) = free_blocks v - n).
  { apply wrap_small; pose proof (ok_free v Hok) as Hfb; pose proof (clear_bits_bounds (bitmap v) (seqZ 0 (total_blocks v))) as Hcb.
    rewrite length_seqZ in Hcb; pose proof (ok_total v Hok); unfold fits; lia. }
  assert (Hbm : bytes_ok bm /\ length bm = length (bitmap v)) by (apply bitmap_set_run_ok, (ok_bitmap v Hok)).
  destruct (moved_ok w bm (free_blocks v - n) fe fv k' Hw) as [Hk Hfree]; trivial; try apply Hbm.
  { rewrite W1; apply Hbm. }
  { unfold bm; rewrite run_bits by (trivial; lia); rewrite (ok_zero v Hok); destruct (_ && _)%bool; reflexivity. }
  { rewrite W2, Hc; lia. }
  { rewrite W2; exact Hi. }
  exists (moved w bm (free_blocks v - n) fe fv k'); split.
  { unfold moved; f_equal; rewrite <- Hu, <- W3 at 1; unfold bm; rewrite <- W1; destruct w; reflexivity. }
  destruct (moved_fields w bm (free_blocks v - n) fe fv k') as (F1 & F2 & F3).
  assert (Htx : op w = op v /\ tx w = tx (set_journal v (tx_allocated (tx v) ++ [Extent first n]))) by (unfold w; destruct v; auto).
  destruct Htx as [T0 Htx]; destruct (journal_fields v (tx_allocated (tx v) ++ [Extent first n])) as (_ & _ & _ & T1 & T2 & T3 & T4).
  rewrite <- Htx in T1, T2, T3, T4; rewrite T0 in F2.
  assert (Hchg : changes v (moved w bm (free_blocks v - n) fe fv k')).
  { split; [| apply (Took _ _ first n); rewrite ?F1, ?F3; trivial].
    destruct Hk; split; rewrite ?F1, ?F2, ?F3; trivial; [rewrite kp_total0; exact W2 | apply Hbm]. }
  split; rewrite ?F1, ?F3; trivial.
Qed.

(** *** Taking a run and zeroing it *)

Lemma zero_blocks_is (v : volume) first n : exists e s, zero_blocks v first n = (e, set_storage v s).
Proof.
  unfold zero_blocks; generalize (seqZ 0 n); intros l; revert v; induction l as [| i l IH]; intros v; cbn [zero_loop].
  { exists OK, (storage v); destruct v; reflexivity. }
  unfold write_block; destruct (_ >=? _); [rewrite decide_False by discriminate; exists INVALID_ARGUMENT, (storage v); destruct v; reflexivity |].
  destruct (infs_storage_write _ _ _) as [e s]; destruct (decide (e = OK)); [| eauto].
  destruct (IH (set_storage v s)) as (e' & s' & ->); exists e', s'; destruct v; reflexivity.
Qed.

(** The volume after a failed operation. *)
Record unmoved (v v' : volume) : Prop := {
  um_changes : changes v v';
  um_bitmap : bitmap v' = bitmap v;
  um_journal : tx_allocated (tx v') = tx_allocated (tx v);
  um_deferred : tx_deferred (tx v') = tx_deferred (tx v);
  um_free : free_blocks v' = free_blocks v
}.

Lemma unmoved_same (v v' : volume) :
  volume_ok v -> sb v' = sb v -> bitmap v' = bitmap v -> free_extents v' = free_extents v ->
  free_extent_index_valid v' = free_extent_index_valid v -> op v' = op v ->
  tx_active (tx v') = tx_active (tx v) -> tx_base_sb (tx v') = tx_base_sb (tx v) ->
  tx_allocated (tx v') = tx_allocated (tx v) -> tx_deferred (tx v') = tx_deferred (tx v) -> unmoved v v'.
Proof. intros; split; trivial; [apply quiet_same; assumption | unfold free_blocks; congruence]. Qed.

Lemma requests_unmoved (v : volume) k : volume_ok v -> unmoved v (set_requests v k).
Proof. intros; apply unmoved_same; [assumption | destruct v; reflexivity..]. Qed.

(** The blocks of a run go back. *)
Lemma give_back_run (v : volume) first n :
  volume_ok v -> in_range (total_blocks v) (Extent first n) ->
  (forall b, first <= b < first + n -> bitmap_get (bitmap v) b = false) ->
  bitmap_set_run (bitmap_set_run (bitmap v) first n true) first n false = bitmap v.
Proof.
  intros Hok Hr Hf; pose proof Hr as (H1 & H2 & H3); cbn in H1, H2, H3; destruct (ok_bitmap v Hok) as [Hb1 Hb2].
  destruct (bitmap_set_run_ok (bitmap v) first n true Hb1) as [G1 G2].
  destruct (bitmap_set_run_ok _ first n false G1) as [G3 G4].
  apply bitmap_ext; trivial; [congruence |]; intros b Hb.
  rewrite bitmap_get_run, run_bits; trivial; unfold bits in *; rewrite ?G4, ?G2 in *; try lia.
  destruct ((first <=? b) && (b <? first + n)) eqn:Ein; [symmetry; apply Hf; lia | reflexivity].
Qed.

(** The index after a failed allocation. *)
Lemma index_restored (v : volume) (e : infs_status) bm bm' total first n :
  0 <= total < 2 ^ 63 -> total_blocks v = total -> bitmap v = bm' ->
  (free_extent_index_valid v = true -> represents bm total (free_extents v)) ->
  in_range total (Extent first n) -> with_run bm bm' total first n false ->
  exists fe fv k,
    (if free_extent_index_valid v then
       let '(ok, v') := free_extent_index_add reserves v first n in
       if ok : bool then
         (if negb (free_extent_index_valid v') then (e, (free_extent_index_rebuild reserves v').2) else (e, v'))
       else (e, free_extent_index_invalidate v')
     else (e, (free_extent_index_rebuild reserves v).2)) = (e, set_requests (set_index v fe fv) k) /\
    (fv = true -> represents bm' total fe).
Proof.
  intros Ht Htot Hbm Hidx (H1 & H2 & H3) Hrun; cbn in H1, H2, H3.
  destruct (index_add_keeps reserves v bm bm' total first n Ht Hidx) as (fe & fv & k & Heq & Hi); trivial.
  destruct (free_extent_index_valid v) eqn:Ev.
  - destruct (free_extent_index_add reserves v first n) as [[|] v']; [| exists fe, fv, k; rewrite Heq; auto].
    destruct fv; rewrite Heq; [exists fe, true, k; replace (free_extent_index_valid _) with true by (destruct v; reflexivity); auto |].
    replace (free_extent_index_valid _) with false by (destruct v; reflexivity); cbn [negb].
    destruct (rebuild_is reserves (set_requests (set_index v fe false) k)) as (fe' & fv' & k' & -> & Hi').
    { replace (total_blocks _) with (total_blocks v) by (destruct v; reflexivity); lia. }
    exists fe', fv', k'; split; [destruct v; reflexivity |]; subst; destruct v; exact Hi'.
  - destruct (rebuild_is reserves v ltac:(lia)) as (fe' & fv' & k' & -> & Hi'); exists fe', fv', k'; subst; auto.
Qed.

Lemma taken_storage (v v' : volume) first n s : taken v v' first n -> taken v (set_storage v' s) first n.
Proof.
  intros [[Hk Hc] H1 H2 H3 H4]; destruct Hk as [Kok K1 K2 K3 K4 K5].
  assert (Hfields : sb (set_storage v' s) = sb v' /\ bitmap (set_storage v' s) = bitmap v' /\ tx (set_storage v' s) = tx v' /\
    op (set_storage v' s) = op v' /\ free_extents (set_storage v' s) = free_extents v' /\
    free_extent_index_valid (set_storage v' s) = free_extent_index_valid v') by (destruct v'; auto 10).
  destruct Hfields as (F1 & F2 & F3 & F4 & F5 & F6).
  split; rewrite ?F2, ?F3; trivial; [| unfold free_blocks in *; rewrite F1; exact H4].
  split; [split; unfold total_blocks in *; rewrite ?F1, ?F2, ?F3, ?F4; trivial; apply (ok_same v'); assumption |].
  destruct Hc; [apply Quiet | apply (Took _ _ first0 n0) | apply (Released _ _ b) | apply (Deferred _ _ first0 n0)]; rewrite ?F2, ?F3; trivial.
Qed.

(** Undoing an allocation whose zeroing failed. *)
Lemma undo_take (v v1 : volume) (e : infs_status) first n :
  volume_ok v -> in_range (total_blocks v) (Extent first n) ->
  (forall b, first <= b < first + n -> bitmap_get (bitmap v) b = false) -> taken v v1 first n ->
  let w := set_bitmap v1 (bitmap_set_run (bitmap v1) first n false) in
  let w := set_journal w (take (length (tx_allocated (tx w)) - 1) (tx_allocated (tx w))) in
  let w := set_free_blocks w (u64 (free_blocks w + n)) in
  exists v',
    (if free_extent_index_valid w then
       let '(ok, v') := free_extent_index_add reserves w first n in
       if ok : bool then
         (if negb (free_extent_index_valid v') then (e, (free_extent_index_rebuild reserves v').2) else (e, v'))
       else (e, free_extent_index_invalidate v')
     else (e, (free_extent_index_rebuild reserves w).2)) = (e, v') /\ unmoved v v'.
Proof.
  intros Hok Hr Hf [[[Kok K1 K2 K3 K4 K5] _] T1 T2 T3 T4] w0 w1 w.
  assert (Hjournal : take (length (tx_allocated (tx w0)) - 1) (tx_allocated (tx w0)) = tx_allocated (tx v)).
  { unfold w0; replace (tx (set_bitmap v1 _)) with (tx v1) by (destruct v1; reflexivity); rewrite T2, length_app; cbn [length].
    replace (_ + 1 - 1)%nat with (length (tx_allocated (tx v))) by lia; apply take_app_length. }
  assert (Hbm : bitmap_set_run (bitmap v1) first n false = bitmap v) by (rewrite T1; apply give_back_run; assumption).
  assert (Hfree : u64 (free_blocks w1 + n) = free_blocks v).
  { replace (free_blocks w1) with (free_blocks v1) by (unfold w1, w0; destruct v1; reflexivity); rewrite T4.
    replace (free_blocks v - n + n) with (free_blocks v) by lia; apply wrap_small; rewrite (ok_free v Hok).
    pose proof (clear_bits_bounds (bitmap v) (seqZ 0 (total_blocks v))) as Hc; rewrite length_seqZ in Hc.
    pose proof (ok_total v Hok); unfold fits; lia. }
  set (u := set_journal v1 (tx_allocated (tx v))).
  assert (Hw : w = set_free_blocks (set_bitmap u (bitmap v)) (free_blocks v)).
  { unfold w; rewrite Hfree; unfold w1, u; rewrite Hjournal; unfold w0; rewrite Hbm; destruct v1; reflexivity. }
  assert (Hu : volume_ok u) by (apply (ok_same v1); [exact Kok | unfold u; destruct v1; reflexivity..]).
  assert (Hut : total_blocks u = total_blocks v) by (rewrite <- K4; unfold u; destruct v1; reflexivity).
  assert (Hwt : total_blocks w = total_blocks v).
  { rewrite Hw, total_free_blocks; [rewrite <- Hut; destruct u; reflexivity | destruct u; apply Hu]. }
  destruct (index_restored w e (bitmap v1) (bitmap v) (total_blocks v) first n) as (fe & fv & k & -> & Hi); trivial.
  { pose proof (ok_total v Hok); lia. }
  { rewrite Hw; destruct u; reflexivity. }
  { rewrite Hw; rewrite <- K4; intros Hv; unfold u in *; destruct v1; exact (ok_index _ Kok Hv). }
  { intros b Hb; rewrite T1, run_bits by (trivial; lia); destruct (_ && _)%bool eqn:Ein; [apply Hf; lia | reflexivity]. }
  assert (Hfin : set_requests (set_index w fe fv) k = moved u (bitmap v) (free_blocks v) fe fv k)
    by (rewrite Hw; unfold moved; destruct u; reflexivity).
  eexists; split; [reflexivity |]; rewrite Hfin.
  destruct (moved_ok u (bitmap v) (free_blocks v) fe fv k Hu) as [[Fok F1 F2 F3 F4 F5] Ff]; trivial; rewrite ?Hut; trivial; try apply Hok.
  { rewrite <- K5; unfold u; destruct v1; reflexivity. }
  destruct (moved_fields u (bitmap v) (free_blocks v) fe fv k) as (G1 & G2 & G3).
  destruct (journal_fields v1 (tx_allocated (tx v))) as (J1 & J2 & J3 & J4 & J5 & J6 & J7); fold u in J1, J2, J3, J4, J5, J6, J7.
  split; rewrite ?G1, ?G3; trivial; [split; [split; rewrite ?G1, ?G2, ?G3; trivial; congruence |] | congruence].
  apply Quiet; rewrite ?G1, ?G3; congruence.
Qed.

Lemma allocate_cases zero (v : volume) first n :
  volume_ok v -> tx_active (tx v) = true -> in_range (total_blocks v) (Extent first n) ->
  (forall b, first <= b < first + n -> bitmap_get (bitmap v) b = false) ->
  (exists v', allocate reserves zero v first n = (OK, v') /\ taken v v' first n) \/
  (exists e v', e <> OK /\ (zero = false -> e <> NO_SPACE) /\ allocate reserves zero v first n = (e, v') /\ unmoved v v').
Proof.
  intros Hok Ha Hr Hf; pose proof (take_cases v first n Hok Ha Hr Hf) as Hcases; destruct zero; cbn [allocate].
  - unfold allocate_selected_run; destruct Hcases as [(v1 & -> & Ht) | (e & k & He & ->)].
    + rewrite decide_False by (intros []; reflexivity); destruct (zero_blocks_is v1 first n) as (e & s & ->).
      destruct (decide (e <> OK)) as [He | He].
      * destruct (undo_take v (set_storage v1 s) e first n Hok Hr Hf) as (v' & Heq & Hu); [apply taken_storage, Ht |].
        right; exists e, v'; split_and!; [exact He | discriminate | exact Heq | exact Hu].
      * left; exists (set_storage v1 s); split; [f_equal; destruct (decide (e = OK)); [assumption | contradiction] | apply taken_storage, Ht].
    + assert (e <> OK) by (destruct He; subst; discriminate); right; exists e, (set_requests v k).
      rewrite decide_True by assumption; split_and!; [assumption | discriminate | reflexivity | exact (requests_unmoved v k Hok)].
  - destruct Hcases as [? | (e & k & He & ->)]; [left; assumption | right; exists e, (set_requests v k)].
    split_and!; [destruct He; subst; discriminate | intros _; destruct He; subst; discriminate | reflexivity | exact (requests_unmoved v k Hok)].
Qed.

(** ** The allocators *)

Lemma tx_begin_active (v : volume) : tx_active (tx v) = true -> exists e, tx_begin v = (e, v).
Proof.
  intros Ha; unfold tx_begin; destruct (decide _); [eauto |]; destruct (negb _); [eauto |]; rewrite Ha; eauto.
Qed.

Lemma unmoved_refl (v : volume) : volume_ok v -> unmoved v v.
Proof. intros; apply unmoved_same; trivial. Qed.

Lemma taken_hints (v v' : volume) first n pb dc mc : taken v v' first n -> taken v (set_hints v' pb dc mc) first n.
Proof.
  intros [[Hk Hc] H1 H2 H3 H4]; destruct Hk as [Kok K1 K2 K3 K4 K5].
  assert (Hok' : volume_ok (set_hints v' pb dc mc)) by (apply (ok_same v'); [exact Kok | destruct v'; reflexivity..]).
  destruct v'; split; trivial; split; [split; assumption |].
  destruct Hc; [apply Quiet | apply (Took _ _ first0 n0) | apply (Released _ _ b) | apply (Deferred _ _ first0 n0)]; assumption.
Qed.

(** What an allocator of [wanted] blocks does. *)
Definition allocated (v : volume) (wanted : Z) (r : result (Z * Z)) (v' : volume) : Prop :=
  match r with
  | Good (first, n) => taken v v' first n /\ 1 <= first /\ 0 < n /\ best_run (bitmap v) (total_blocks v) wanted (first, n)
  | Bad e => unmoved v v'
  end.

(** The volume has no free block. *)
Definition full (v : volume) : Prop := forall b, 0 <= b < total_blocks v -> bitmap_get (bitmap v) b = true.

Lemma best_none (v : volume) wanted r :
  0 < wanted -> best_run (bitmap v) (total_blocks v) wanted r -> r.2 = 0 <-> full v.
Proof.
  intros Hw [H1 H2 H3]; split.
  - intros H0 b Hb; destruct (bitmap_get (bitmap v) b) eqn:Eb; [reflexivity |].
    assert (Hf : free_at (bitmap v) (total_blocks v) b 1) by (split_and!; [lia.. |]; intros x Hx; replace x with b by lia; exact Eb).
    specialize (H3 b 1 Hf); lia.
  - intros Hfull; destruct (Z.eq_dec r.2 0); [assumption |]; destruct (H2 ltac:(lia)) as (G1 & G2 & G3).
    specialize (G3 r.1 ltac:(lia)); rewrite Hfull in G3 by lia; discriminate.
Qed.

Lemma free_zero (v : volume) : volume_ok v -> free_blocks v = 0 <-> full v.
Proof.
  intros Hok; rewrite (ok_free v Hok); split.
  - intros H0 b Hb; destruct (bitmap_get (bitmap v) b) eqn:Eb; [reflexivity | exfalso].
    assert (Hin : In b (List.filter (fun b => negb (bitmap_get (bitmap v) b)) (seqZ 0 (total_blocks v)))).
    { apply filter_In; rewrite in_seqZ, Eb; split; [lia | reflexivity]. }
    unfold clear_bits in H0; destruct (List.filter _ _); [destruct Hin | cbn in H0; lia].
  - intros Hfull; apply (clear_bits_all _ _ true); intros b Hb%in_seqZ; apply Hfull; lia.
Qed.

Lemma run_range (v : volume) wanted r :
  best_run (bitmap v) (total_blocks v) wanted r -> 0 < r.2 -> in_range (total_blocks v) (Extent r.1 r.2) /\
  forall b, r.1 <= b < r.1 + r.2 -> bitmap_get (bitmap v) b = false.
Proof. intros [_ Hf _] H0; destruct (Hf H0) as (H1 & H2 & H3); split; [split_and!; cbn; lia | exact H3]. Qed.

(** The common end of the allocators: take the chosen run, move a cursor. *)
Lemma allocate_best zero (v : volume) wanted r (f : volume -> volume) :
  volume_ok v -> tx_active (tx v) = true -> best_run (bitmap v) (total_blocks v) wanted r -> 0 < r.2 ->
  (forall w, exists pb dc mc, f w = set_hints w pb dc mc) ->
  let '(e, v') := allocate reserves zero v r.1 r.2 in
  if decide (e <> OK) then unmoved v v' /\ (zero = false -> e <> NO_SPACE)
  else allocated v wanted (Good (r.1, r.2)) (f v').
Proof.
  intros Hok Ha Hb H0 Hf; destruct (run_range v wanted r Hb H0) as [Hr Hfree].
  destruct (allocate_cases zero v r.1 r.2 Hok Ha Hr Hfree) as [(v' & -> & Ht) | (e & v' & He & Hz & -> & Hu)].
  - rewrite decide_False by (intros []; reflexivity); destruct (Hf v') as (pb & dc & mc & ->).
    split_and!; [apply taken_hints, Ht | eapply free_run_not_zero; eassumption | exact H0 | destruct r; exact Hb].
  - rewrite decide_True by exact He; auto.
Qed.

Lemma two_blocks (v : volume) : volume_ok v -> full v \/ 1 < total_blocks v.
Proof.
  intros Hok; pose proof (ok_total v Hok); destruct (Z.eq_dec (total_blocks v) 1) as [He |]; [left | right; lia].
  intros b Hb; replace b with 0 by lia; exact (ok_zero v Hok).
Qed.

(** The status of an allocator that did not zero the run says whether there was room. *)
Definition room_known (v : volume) (wanted : Z) (r : result (Z * Z)) : Prop :=
  r = Bad NO_SPACE <-> wanted = 0 \/ full v.

(** From the choice of a run to the end of an allocator. *)
Lemma allocate_chosen zero (v : volume) wanted (r : Z * Z) (f : volume -> volume) :
  volume_ok v -> tx_active (tx v) = true -> 0 < wanted -> best_run (bitmap v) (total_blocks v) wanted r ->
  (forall w, exists pb dc mc, f w = set_hints w pb dc mc) ->
  let '(q, v') :=
    if r.2 =? 0 then (Bad NO_SPACE, v)
    else let '(e, v') := allocate reserves zero v r.1 r.2 in
         if decide (e <> OK) then (Bad e, v') else (Good (r.1, r.2), f v') in
  allocated v wanted q v' /\ (zero = false -> room_known v wanted q).
Proof.
  intros Hok Ha Hw Hb Hf; pose proof (best_none v wanted r Hw Hb) as Hnone; pose proof (br_size _ _ _ _ Hb) as Hsz.
  destruct (Z.eqb_spec r.2 0) as [H0 | H0]; [split; [exact (unmoved_refl v Hok) |]; intros _; unfold room_known; rewrite <- Hnone; tauto |].
  pose proof (allocate_best zero v wanted r f Hok Ha Hb ltac:(lia) Hf) as Halloc.
  destruct (allocate reserves zero v r.1 r.2) as [e v'].
  assert (Hroom : ~ (wanted = 0 \/ full v)) by (intros [? | Hfull]; [lia |]; apply Hnone in Hfull; contradiction).
  destruct (decide (e <> OK)); [destruct Halloc as [Hu Hz] |]; (split; [assumption |]); intros Hzero; unfold room_known.
  - split; [intros [= He]; destruct (Hz Hzero He) | intros H; destruct (Hroom H)].
  - split; [discriminate | intros H; destruct (Hroom H)].
Qed.

Lemma data_allocated (v : volume) wanted zero :
  volume_ok v -> tx_active (tx v) = true -> 0 <= wanted ->
  let '(r, v') := alloc_data_run_impl reserves v wanted zero in
  allocated v wanted r v' /\ (tx_begin v = (OK, v) -> zero = false -> room_known v wanted r).
Proof.
  intros Hok Ha Hw; unfold alloc_data_run_impl; destruct (tx_begin_active v Ha) as [e He]; rewrite He.
  destruct (decide (e <> OK)) as [Hne | Heq].
  { split; [exact (unmoved_refl v Hok) |]; intros [=]; contradiction. }
  destruct ((wanted =? 0) || (free_blocks v =? 0)) eqn:E0.
  { split; [exact (unmoved_refl v Hok) |]; intros _ _; unfold room_known; rewrite <- (free_zero v Hok); split; [intros; lia | reflexivity]. }
  set (cursor := if _ || _ then 1 else _).
  assert (Hcur : 1 <= cursor < total_blocks v).
  { destruct (two_blocks v Hok) as [Hfull | ?]; [apply (free_zero v Hok) in Hfull; lia |]; unfold cursor; case_match; lia. }
  pose proof (choose_data_best v wanted Hok ltac:(lia) cursor Hcur) as Hbest; cbv zeta.
  destruct (choose_data v wanted cursor) as [first n].
  pose proof (allocate_chosen zero v wanted (first, n)
    (fun w => set_hints w (tx_pending_bytes w)
       (if u64 (first + n) >=? total_blocks v then 1 else u64 (first + n)) (metadata_allocation_cursor w))
    Hok Ha ltac:(lia) Hbest ltac:(eauto)) as Halloc; cbn [fst snd] in Halloc.
  destruct (n =? 0); [| destruct (allocate reserves zero v first n) as [e' v']; destruct (decide (e' <> OK))];
    (split; [apply Halloc | intros _; apply Halloc]).
Qed.

Lemma metadata_cursor_range (v : volume) : volume_ok v -> 1 < total_blocks v -> 1 < metadata_cursor v <= total_blocks v.
Proof. intros Hok Ht; unfold metadata_cursor; case_match; lia. Qed.

Lemma metadata_allocated (v : volume) wanted :
  volume_ok v -> tx_active (tx v) = true -> 0 <= wanted ->
  let '(r, v') := alloc_run reserves v wanted in allocated v wanted r v'.
Proof.
  intros Hok Ha Hw; unfold alloc_run; destruct (tx_begin_active v Ha) as [e ->].
  destruct (decide (e <> OK)) as [Hne | Heq]; [exact (unmoved_refl v Hok) |].
  destruct ((wanted =? 0) || (free_blocks v =? 0)) eqn:E0; [exact (unmoved_refl v Hok) |].
  assert (Hcur : 1 < metadata_cursor v <= total_blocks v).
  { apply metadata_cursor_range; trivial; destruct (two_blocks v Hok) as [Hfull | ?]; [apply (free_zero v Hok) in Hfull |]; lia. }
  pose proof (choose_metadata_best v wanted Hok ltac:(lia) _ Hcur) as Hbest.
  destruct (choose_metadata v wanted (metadata_cursor v)) as [first n].
  pose proof (allocate_chosen true v wanted (first, n) (fun w => move_metadata_cursor w first)
    Hok Ha ltac:(lia) Hbest ltac:(unfold move_metadata_cursor; eauto)) as Halloc; cbn [fst snd allocate] in Halloc.
  destruct (n =? 0); [| destruct (allocate_selected_run reserves v first n) as [e' v']; destruct (decide (e' <> OK))]; apply Halloc.
Qed.

Lemma exact_allocated (v : volume) wanted zero :
  volume_ok v -> tx_active (tx v) = true -> 0 <= wanted -> 1 < total_blocks v ->
  let '(r, v') := alloc_exact_run_impl reserves v wanted zero in
  match r with
  | Good first => taken v v' first wanted /\ 1 <= first /\ free_at (bitmap v) (total_blocks v) first wanted
  | Bad e => unmoved v v'
  end /\
  (tx_begin v = (OK, v) -> zero = false -> 0 < wanted ->
   r = Bad NO_SPACE <-> forall s, ~ free_at (bitmap v) (total_blocks v) s wanted).
Proof.
  intros Hok Ha Hw Ht; unfold alloc_exact_run_impl.
  destruct (Z.eqb_spec wanted 0); [split; [exact (unmoved_refl v Hok) | lia] |].
  destruct (tx_begin_active v Ha) as [e He]; rewrite He.
  destruct (decide (e <> OK)) as [Hne | Heq]; [split; [exact (unmoved_refl v Hok) |]; intros [=]; contradiction |].
  pose proof (choose_exact_spec v wanted Hok ltac:(lia) _ (metadata_cursor_range v Hok Ht)) as Hx.
  destruct (choose_exact v wanted (metadata_cursor v)) as [first |]; cbn in Hx;
    [| split; [exact (unmoved_refl v Hok) | tauto]].
  assert (Hr : in_range (total_blocks v) (Extent first wanted)) by (destruct Hx as (? & ? & _); split_and!; cbn; lia).
  assert (Hroom : ~ (forall s, ~ free_at (bitmap v) (total_blocks v) s wanted)) by (intros H; exact (H first Hx)).
  pose proof (free_run_not_zero v first wanted Hok Hr (proj2 (proj2 Hx))) as H1.
  destruct (allocate_cases zero v first wanted Hok Ha Hr (proj2 (proj2 Hx))) as [(v' & -> & Htk) | (e' & v' & He' & Hz & -> & Hu)].
  - rewrite decide_False by (intros []; reflexivity); split; [| intros _ _ _; split; [discriminate | tauto]].
    split_and!; trivial; unfold move_metadata_cursor; apply taken_hints, Htk.
  - rewrite decide_True by exact He'; split; [exact Hu |]; intros _ Hzero _; split; [intros [= H]; destruct (Hz Hzero H) | tauto].
Qed.

(** C7.  Inside a transaction each allocator returns a run that was free, as
    long as any free run up to the length wanted (the exact length for the exact
    allocator), never block 0, and marks, counts and journals exactly that run.  On
    an error the bitmap, the free count, the journal and the deferred ranges are
    those before, even when the zeroing of the run failed half way.  A run that is
    not zeroed is refused for lack of space exactly when there is none. *)
Theorem allocators_correct (v : volume) wanted zero :
  volume_ok v -> tx_active (tx v) = true -> 0 <= wanted -> 1 < total_blocks v ->
  (let '(r, v') := alloc_data_run_impl reserves v wanted zero in
   allocated v wanted r v' /\ (tx_begin v = (OK, v) -> zero = false -> room_known v wanted r)) /\
  (let '(r, v') := alloc_run reserves v wanted in allocated v wanted r v') /\
  (let '(r, v') := alloc_exact_run_impl reserves v wanted zero in
   match r with
   | Good first => taken v v' first wanted /\ 1 <= first /\ free_at (bitmap v) (total_blocks v) first wanted
   | Bad e => unmoved v v'
   end /\
   (tx_begin v = (OK, v) -> zero = false -> 0 < wanted ->
    r = Bad NO_SPACE <-> forall s, ~ free_at (bitmap v) (total_blocks v) s wanted)).
Proof.
  intros Hok Ha Hw Ht; split_and!; [apply data_allocated | apply metadata_allocated | apply exact_allocated]; assumption.
Qed.

End Volume.

(** The sample volume inside a transaction, two blocks wanted. *)
Lemma allocators_correct_witness :
  let v := (tx_begin (E := reference_endian) (A := reference_arithmetic) sample_volume).2 in
  let '(r, v') := alloc_data_run_impl (E := reference_endian) (A := reference_arithmetic) (fun _ => true) v 2 true in
  r = Good (5, 2) /\ bitmap v' = [0xfd; 0xff; 0xf6] /\ allocated (E := reference_endian) v 2 r v'.
Proof.
  pose proof (allocators_correct (E := reference_endian) (A := reference_arithmetic) (fun _ => true)
    (tx_begin (E := reference_endian) (A := reference_arithmetic) sample_volume).2 2 true) as H.
  cbv zeta; destruct (alloc_data_run_impl _ _ 2 true) as [r v'] eqn:Ea.
  assert (Hr : r = Good (5, 2) /\ bitmap v' = [0xfd; 0xff; 0xf6]).
  { replace r with (alloc_data_run_impl (E := reference_endian) (A := reference_arithmetic) (fun _ => true)
      (tx_begin (E := reference_endian) (A := reference_arithmetic) sample_volume).2 2 true).1 by (rewrite Ea; reflexivity).
    replace v' with (alloc_data_run_impl (E := reference_endian) (A := reference_arithmetic) (fun _ => true)
      (tx_begin (E := reference_endian) (A := reference_arithmetic) sample_volume).2 2 true).2 by (rewrite Ea; reflexivity).
    clear; split; vm_compute; reflexivity. }
  destruct Hr as [Hr Hb]; split_and!; [exact Hr | exact Hb |].
  refine (proj1 (proj1 (H _ _ _ _))); [| vm_compute; reflexivity | lia | vm_compute; reflexivity].
  apply (ok_same sample_volume); [exact sample_ok | vm_compute; reflexivity..].
Defined.

End TransactionsFacts.
