(* ===== verification/Rollback.v ===== *)
(** Freeing and rolling back ([Allocator.v]): a freed run is released at once or
    deferred to the publication, and aborting an operation, or the whole
    transaction, gives back the bitmap, the superblock and the journal it started
    from, whatever was allocated and freed in between. *)

From Stdlib Require Import ZifyBool.
From stdpp Require Import prelude relations.
From S2P Require Import Prelude Endian Checksum Format Storage Objects FormatVolume FormatPlan Allocator FreeExtents AllocChoice Transactions.
#[local] Open Scope Z_scope.

Module RollbackFacts.
Import Storage Objects ObjectsFacts FormatVolume FormatPlanFacts Allocator FreeExtentsFacts AllocChoiceFacts TransactionsFacts.

Section Volume.
Context {E : Endian} {A : CheckedArithmetic} {C K : Type} {CC : Caches C K} (reserves : nat -> bool).
#[local] Abbreviation volume := (infs_volume C K).
#[local] Abbreviation J v := (tx_allocated (tx v)).
#[local] Abbreviation D v := (tx_deferred (tx v)).

(** ** Journals *)

Lemma in_extent_iff b e : in_extent b e = true <-> start e <= b < start e + count e.
Proof. unfold in_extent; lia. Qed.

Lemma journaled_app l1 l2 b : journaled (l1 ++ l2) b = journaled l1 b || journaled l2 b.
Proof. apply existsb_app. Qed.

Lemma journaled_cons e l b : journaled (e :: l) b = (start e <=? b) && (b <? start e + count e) || journaled l b.
Proof. cbn; f_equal; unfold in_extent; lia. Qed.

Lemma journaled_iff l b : journaled l b = true <-> exists e, In e l /\ start e <= b < start e + count e.
Proof. unfold journaled; rewrite existsb_exists; split; intros (e & H1 & H2); exists e; rewrite in_extent_iff in *; auto. Qed.

Lemma journaled_range total l b : Forall (in_range total) l -> journaled l b = true -> 0 <= b < total.
Proof.
  intros Hl; rewrite journaled_iff; intros (e & Hin & Hb); rewrite Forall_forall in Hl.
  destruct (Hl e (proj2 (list_elem_of_In _ _) Hin)) as (? & ? & ?); lia.
Qed.

(** The blocks a longer deferred list holds. *)
Lemma deferred_with_iff d d' first n b :
  0 < n -> Forall (fun e => 0 < count e) d -> deferred_with d d' first n ->
  journaled d' b = journaled d b || ((first <=? b) && (b <? first + n)).
Proof.
  intros Hn Hd [-> | (init & e & -> & He & ->)]; rewrite !journaled_app; cbn; unfold in_extent; cbn.
  - rewrite orb_false_r; f_equal; lia.
  - apply Forall_app in Hd as [_ Hd]; rewrite Forall_singleton in Hd; rewrite !orb_false_r, <- orb_assoc; f_equal; lia.
Qed.

Lemma deferred_with_range total d d' first n :
  Forall (in_range total) d -> in_range total (Extent first n) -> deferred_with d d' first n -> Forall (in_range total) d'.
Proof.
  intros Hd Hr [-> | (init & e & -> & He & ->)]; [apply Forall_app; auto |].
  apply Forall_app in Hd as [Hd He']; apply Forall_app; split; [exact Hd |]; rewrite Forall_singleton in *.
  unfold in_range in *; cbn in *; lia.
Qed.

(** ** Releasing and deferring *)

Lemma release_changes (v : volume) b :
  volume_ok v -> 1 <= b < total_blocks v -> bitmap_get (bitmap v) b = true -> tx_block_private v b = true ->
  let w := set_bitmap v (Allocator.bitmap_set (bitmap v) b false) in
  let w := set_free_blocks w (u64 (free_blocks w + 1)) in
  exists v',
    (if free_extent_index_valid w then
       let '(ok, w) := free_extent_index_add reserves w b 1 in
       if ok : bool then w else free_extent_index_invalidate w
     else w) = v' /\ changes v v' /\
    bitmap v' = Allocator.bitmap_set (bitmap v) b false /\ tx v' = tx v.
Proof.
  intros Hok Hb Hused Hpriv w0 w; set (bm := Allocator.bitmap_set (bitmap v) b false).
  destruct (ok_bitmap v Hok) as [B1 B2]; pose proof (ok_total v Hok) as Ht.
  assert (Hrun : with_run (bitmap v) bm (total_blocks v) b 1 false).
  { intros x Hx; unfold bm; rewrite bitmap_get_set by (trivial; lia).
    destruct (Z.eqb_spec b x); [replace (_ && _)%bool with true by lia | replace (_ && _)%bool with false by lia]; reflexivity. }
  assert (Hc : clear_bits bm (seqZ 0 (total_blocks v)) = free_blocks v + 1).
  { rewrite (clear_bits_run (bitmap v) bm (total_blocks v) b 1 false) by (trivial; try lia; intros x Hx; replace x with b by lia; exact Hused).
    rewrite (ok_free v Hok); reflexivity. }
  assert (Hu : u64 (free_blocks w0 + 1) = free_blocks v + 1).
  { replace (free_blocks w0) with (free_blocks v) by (unfold w0; destruct v; reflexivity); apply wrap_small.
    pose proof (clear_bits_bounds bm (seqZ 0 (total_blocks v))) as Hcb; rewrite length_seqZ in Hcb; unfold fits.
    pose proof (clear_bits_bounds (bitmap v) (seqZ 0 (total_blocks v))); rewrite <- (ok_free v Hok) in *; lia. }
  assert (Hidx : free_extent_index_valid w = true -> represents (bitmap v) (total_blocks v) (free_extents w))
    by (unfold w, w0; destruct v; exact (ok_index _ Hok)).
  destruct (index_add_keeps reserves w (bitmap v) bm (total_blocks v) b 1) as (fe & fv & k & -> & Hi); trivial; try lia.
  assert (Heq : set_requests (set_index w fe fv) k = moved v bm (free_blocks v + 1) fe fv k)
    by (unfold w; rewrite Hu; unfold w0, moved, bm; destruct v; reflexivity).
  destruct (moved_ok v bm (free_blocks v + 1) fe fv k Hok) as [Hk _]; trivial.
  { apply bitmap_set_ok, B1. }
  { apply bitmap_set_length. }
  { unfold bm; rewrite bitmap_get_set by (trivial; lia); replace (b =? 0) with false by lia; exact (ok_zero v Hok). }
  { symmetry; exact Hc. }
  destruct (moved_fields v bm (free_blocks v + 1) fe fv k) as (F1 & F2 & F3).
  rewrite Heq; eexists; split_and!; [reflexivity | | exact F1 | exact F3].
  split; [exact Hk |]; apply (Released _ _ b); rewrite ?F1, ?F3; trivial; lia.
Qed.

(** The outcomes of deferring a range: one more range, or nothing but an error. *)
Definition defers (v : volume) (first n : Z) (r : infs_status * volume) : Prop :=
  exists e k d,
    r = (e, set_requests (set_deferred v d) k) /\
    ((e = OK /\ deferred_with (D v) d first n /\ (length d <= S (length (D v)))%nat) \/ (e <> OK /\ d = D v)) /\
    (tx_error (tx v) = OK -> (forall k, reserves k = true) -> Z.of_nat (length (D v)) < 2 ^ 63 -> e = OK).

Lemma deferred_self (v : volume) : v = set_requests (set_deferred v (D v)) (requests v).
Proof. destruct v as [? ? ? ? ? ? ? [] ]; reflexivity. Qed.

Lemma append_defers (v : volume) first n :
  defers v first n
    match infiltratr_size_add_checked (Z.of_nat (length (D v))) 1 with
    | None => (OVERFLOW, v)
    | Some _ => let '(ok, v') := array_reserve reserves v in
                if negb ok then (NO_MEMORY, v') else (OK, set_deferred v' (D v ++ [Extent first n]))
    end.
Proof.
  destruct (infiltratr_size_add_checked _ _) eqn:Es; unfold array_reserve.
  - destruct (reserves (requests v)) eqn:Er; cbn [negb].
    + exists OK, (S (requests v)), (D v ++ [Extent first n]); split_and!; [destruct v; reflexivity | left | reflexivity].
      split_and!; [reflexivity | left; reflexivity | rewrite length_app; cbn; lia].
    + exists NO_MEMORY, (S (requests v)), (D v); split_and!; [destruct v as [? ? ? ? ? ? ? [] ]; reflexivity | right; split; [discriminate | reflexivity] |].
      intros _ Hall; rewrite Hall in Er; discriminate.
  - exists OVERFLOW, (requests v), (D v); split_and!; [f_equal; exact (deferred_self v) | right; split; [discriminate | reflexivity] |].
    intros _ _ Hl; rewrite size_add_law in Es by (unfold fits; lia); replace (_ <? 2 ^ 64) with true in Es by lia; discriminate.
Qed.

Lemma defer_cases (v : volume) first n :
  volume_ok v -> tx_active (tx v) = true -> Forall (in_range (total_blocks v)) (D v) ->
  in_range (total_blocks v) (Extent first n) -> defers v first n (tx_defer_range reserves v first n).
Proof.
  intros Hok Ha Hd (H1 & H2 & H3); cbn in H1, H2, H3; pose proof (ok_total v Hok) as Ht; unfold tx_defer_range.
  replace (n =? 0) with false by lia; rewrite Ha; cbn [negb].
  destruct (decide (tx_error (tx v) <> OK)) as [He | He].
  { exists (tx_error (tx v)), (requests v), (D v); split_and!; [f_equal; exact (deferred_self v) | right; auto | contradiction]. }
  pose proof (append_defers v first n) as Happ; cbv zeta.
  destruct (last (D v)) as [x |] eqn:El; [| exact Happ].
  apply last_Some in El as [init Hinit]; rewrite Hinit in Hd; apply Forall_app in Hd as [_ Hx]; rewrite Forall_singleton in Hx.
  destruct Hx as (X1 & X2 & X3); rewrite (add_fits (total_blocks v)) by lia.
  destruct (Z.eqb_spec (start x + count x) first) as [Heq |]; [| exact Happ].
  rewrite (add_fits (total_blocks v)) by lia.
  exists OK, (requests v), (take (length (D v) - 1) (D v) ++ [Extent (start x) (count x + n)]).
  assert (Htake : take (length (D v) - 1) (D v) = init).
  { rewrite Hinit, length_app; cbn [length]; replace (_ + 1 - 1)%nat with (length init) by lia; apply take_app_length. }
  split_and!; [destruct v; reflexivity | left; split_and!; [reflexivity | right; exists init, x; rewrite Htake; auto |] | trivial].
  rewrite Htake, Hinit, !length_app; cbn; lia.
Qed.

Lemma deferred_fields (v : volume) d k :
  let w := set_requests (set_deferred v d) k in
  sb w = sb v /\ bitmap w = bitmap v /\ free_extents w = free_extents v /\
  free_extent_index_valid w = free_extent_index_valid v /\ op w = op v /\ tx_active (tx w) = tx_active (tx v) /\
  tx_base_sb (tx w) = tx_base_sb (tx v) /\ J w = J v /\ D w = d /\ tx_error (tx w) = tx_error (tx v).
Proof. destruct v; cbn; auto 15. Qed.

Lemma defer_changes (v : volume) first n d k :
  volume_ok v -> in_range (total_blocks v) (Extent first n) ->
  (forall b, first <= b < first + n -> bitmap_get (bitmap v) b = true /\ tx_block_private v b = false) ->
  deferred_with (D v) d first n \/ d = D v -> changes v (set_requests (set_deferred v d) k).
Proof.
  intros Hok Hr Hb Hd; destruct (deferred_fields v d k) as (F1 & F2 & F3 & F4 & F5 & F6 & F7 & F8 & F9 & _).
  split.
  - split; trivial; [apply (ok_same v); trivial | unfold total_blocks; rewrite F1; reflexivity | rewrite F2; reflexivity].
  - destruct Hd as [Hd | ->]; [apply (Deferred _ _ first n); trivial; rewrite F9; exact Hd | apply Quiet; trivial].
Qed.

(** Private blocks are those of the journal, since the savepoint if there is one. *)
Definition since (v : volume) : list extent := drop (if op_active (op v) then op_allocated_count (op v) else 0%nat) (J v).

Lemma private_since (v : volume) b : tx_active (tx v) = true -> tx_block_private v b = journaled (since v) b.
Proof. intros Ha; unfold tx_block_private, tx_block_private_since; rewrite Ha; reflexivity. Qed.

Lemma since_journaled (v : volume) b : journaled (since v) b = true -> journaled (J v) b = true.
Proof.
  intros H; unfold since in H; set (k := if op_active _ then _ else _) in H.
  rewrite <- (take_drop k (J v)), journaled_app, H; apply orb_true_r.
Qed.

(** *** The loop of [free_run] *)

(** A volume inside a transaction that never took block 0. *)
Record freeable (v : volume) : Prop := {
  fr_ok : volume_ok v;
  fr_active : tx_active (tx v) = true;
  fr_deferred : Forall (in_range (total_blocks v)) (D v);
  fr_zero : journaled (J v) 0 = false
}.

Lemma private_range (v : volume) b : freeable v -> 0 <= b -> tx_block_private v b = true -> 1 <= b.
Proof.
  intros [_ Ha _ Hz] Hb Hp; destruct (Z.eq_dec b 0) as [-> |]; [| lia].
  rewrite private_since in Hp by exact Ha; apply since_journaled in Hp; congruence.
Qed.

Lemma private_same (v w : volume) b :
  tx_active (tx w) = tx_active (tx v) -> J w = J v -> op w = op v -> tx_block_private w b = tx_block_private v b.
Proof. intros H1 H2 H3; unfold tx_block_private, tx_block_private_since; rewrite H1, H2, H3; reflexivity. Qed.

(** One turn: at the end, past a free block, past a private block, past a deferred run. *)
Inductive free_turn (v : volume) (last b : Z) (k : Z -> volume -> volume) : volume -> Prop :=
| Ended : last <= b -> free_turn v last b k v
| Already : b < last -> bitmap_get (bitmap v) b = false -> free_turn v last b k (k (b + 1) v)
| Private w : b < last -> bitmap_get (bitmap v) b = true -> tx_block_private v b = true ->
    changes v w -> bitmap w = Allocator.bitmap_set (bitmap v) b false -> tx w = tx v ->
    free_turn v last b k (k (b + 1) w)
| Shared next e w : b < next <= last ->
    (forall x, b <= x < next -> bitmap_get (bitmap v) x = true /\ tx_block_private v x = false) ->
    changes v w -> bitmap w = bitmap v -> J w = J v -> tx_error (tx w) = tx_error (tx v) ->
    (e = OK -> deferred_with (D v) (D w) b (next - b) /\ (length (D w) <= S (length (D v)))%nat) ->
    (e <> OK -> D w = D v) ->
    (tx_error (tx v) = OK -> (forall k, reserves k = true) -> Z.of_nat (length (D v)) < 2 ^ 63 -> e = OK) ->
    free_turn v last b k (if decide (e <> OK) then w else k next w).

Lemma free_loop_turn fuel (v : volume) last b :
  freeable v -> 0 <= b -> last <= total_blocks v ->
  free_turn v last b (fun b v => free_loop reserves fuel v last b) (free_loop reserves (S fuel) v last b).
Proof.
  intros Hfr Hb Hl; pose proof Hfr as [Hok Ha Hd Hz]; cbn [free_loop].
  destruct (Z.ltb_spec b last) as [Hlt |]; [| constructor; assumption].
  destruct (bitmap_get (bitmap v) b) eqn:Eb; cbn [negb];
    [| apply (Already v last b (fun b v => free_loop reserves fuel v last b)); assumption].
  destruct (tx_block_private v b) eqn:Ep.
  - pose proof (private_range v b Hfr Hb Ep).
    destruct (release_changes v b Hok ltac:(lia) Eb Ep) as (w & Hw & Hc & Hbm & Htx); cbv zeta; cbv zeta in Hw; rewrite Hw.
    apply (Private v last b (fun b v => free_loop reserves fuel v last b) w); assumption.
  - set (stop := fun b => negb (bitmap_get (bitmap v) b) || tx_block_private v b).
    destruct (advance_spec (Z.to_nat (last - b)) stop b) as (H1 & H2 & H3); set (next := advance _ stop b) in *.
    assert (Hnext : b < next).
    { destruct (Z.eq_dec next b) as [Heq |]; [| lia]; rewrite Heq in H3; specialize (H3 ltac:(lia)).
      unfold stop in H3; rewrite Eb, Ep in H3; discriminate. }
    assert (Hrun : forall x, b <= x < next -> bitmap_get (bitmap v) x = true /\ tx_block_private v x = false).
    { intros x Hx; specialize (H2 x Hx); apply orb_false_iff in H2 as [G1 G2]; apply negb_false_iff in G1; auto. }
    assert (Hr : in_range (total_blocks v) (Extent b (next - b))) by (split_and!; cbn; lia).
    destruct (defer_cases v b (next - b) Hok Ha Hd Hr) as (e & k & d & Heq & Hcases & Hall); rewrite Heq.
    destruct (deferred_fields v d k) as (F1 & F2 & F3 & F4 & F5 & F6 & F7 & F8 & F9 & F10).
    apply (Shared v last b (fun b v => free_loop reserves fuel v last b) next e); rewrite ?F9; trivial; [lia | | | ].
    + apply (defer_changes v b (next - b)); trivial; [| destruct Hcases as [(_ & ? & _) | [_ ?]]; [left | right]; assumption].
      replace (b + (next - b)) with next by lia; exact Hrun.
    + intros He; destruct Hcases as [(_ & ? & ?) | [? _]]; [auto | contradiction].
    + intros He; destruct Hcases as [(? & _ & _) | [_ ?]]; [contradiction | assumption].
Qed.

Lemma changes_freeable (v w : volume) :
  freeable v -> changes v w -> J w = J v -> Forall (in_range (total_blocks v)) (D w) -> freeable w.
Proof.
  intros [Hok Ha Hd Hz] [[Kok K1 K2 K3 K4 K5] _] HJ HD; split; [exact Kok | congruence | rewrite K4; exact HD | rewrite HJ; exact Hz].
Qed.

Lemma positive_ranges total l : Forall (in_range total) l -> Forall (fun e => 0 < count e) l.
Proof. intros H; eapply Forall_impl; [exact H |]; intros e (? & ? & ?); lia. Qed.

Lemma turn_freeable (v w : volume) b next :
  freeable v -> changes v w -> J w = J v -> 0 <= b < next -> next <= total_blocks v ->
  deferred_with (D v) (D w) b (next - b) -> freeable w.
Proof.
  intros Hfr Hc HJ Hb Hl Hd; apply (changes_freeable v); trivial.
  apply (deferred_with_range _ (D v) _ b (next - b)); [apply Hfr | split_and!; cbn; lia | exact Hd].
Qed.

Lemma free_loop_changes fuel (v : volume) last b :
  freeable v -> 0 <= b -> last <= total_blocks v -> rtc changes v (free_loop reserves fuel v last b).
Proof.
  revert v b; induction fuel as [| fuel IH]; intros v b Hfr Hb Hl; [apply rtc_refl |].
  destruct (free_loop_turn fuel v last b Hfr Hb Hl) as [| | w Hlt Hu Hp Hc Hbm Htx | next e w Hn Hrun Hc Hbm HJ He Hok Hbad Hall].
  - apply rtc_refl.
  - apply IH; trivial; lia.
  - apply rtc_l with w; [exact Hc |]; apply IH; [| lia | rewrite (kp_total _ _ (proj1 Hc)); exact Hl].
    apply (changes_freeable v); trivial; rewrite Htx; [reflexivity | apply Hfr].
  - apply rtc_l with w; [exact Hc |]; destruct (decide (e <> OK)) as [| Heq]; [apply rtc_refl |].
    destruct Hok as [Hd _]; [destruct (decide (e = OK)); [assumption | contradiction] |].
    apply IH; [apply (turn_freeable v w b next); trivial; lia | lia | rewrite (kp_total _ _ (proj1 Hc)); exact Hl].
Qed.

(** Exactly the private blocks of [lo, hi) are free again, exactly the others of it that
    were in use are deferred, and nothing else happened to the bitmap, the deferred
    ranges or the journal. *)
Definition in_run (lo hi x : Z) : bool := (lo <=? x) && (x <? hi).

Record freed (v v' : volume) (lo hi : Z) : Prop := {
  fd_bitmap : forall x, 0 <= x -> bitmap_get (bitmap v') x = bitmap_get (bitmap v) x && negb (in_run lo hi x && tx_block_private v x);
  fd_deferred : forall x, journaled (D v') x = journaled (D v) x || (in_run lo hi x && bitmap_get (bitmap v) x && negb (tx_block_private v x));
  fd_journal : J v' = J v;
  fd_private : forall x, tx_block_private v' x = tx_block_private v x;
  fd_error : tx_error (tx v') = tx_error (tx v)
}.

Lemma freed_none (v w : volume) b : bitmap w = bitmap v -> D w = D v -> J w = J v ->
  (forall x, tx_block_private w x = tx_block_private v x) -> tx_error (tx w) = tx_error (tx v) -> freed v w b b.
Proof.
  intros H1 H2 H3 H4 H5; split; trivial; intros x; unfold in_run; replace ((b <=? x) && (x <? b)) with false by lia; cbn [andb negb].
  - rewrite H1, andb_true_r; reflexivity.
  - rewrite H2, orb_false_r; reflexivity.
Qed.

Lemma freed_trans (v w v' : volume) lo mid hi : 0 <= lo <= mid -> mid <= hi -> freed v w lo mid -> freed w v' mid hi -> freed v v' lo hi.
Proof.
  intros Hl Hm [A1 A2 A3 A4 A5] [B1 B2 B3 B4 B5]; split; try congruence; intros x; [intros Hx |].
  - rewrite B1, A1, A4 by exact Hx; unfold in_run; destruct (bitmap_get (bitmap v) x), (tx_block_private v x); cbn [andb negb]; trivial; lia.
  - rewrite B2, A2, A4; unfold in_run; destruct (Z.lt_ge_cases x 0).
    + replace (lo <=? x) with false by lia; replace (mid <=? x) with false by lia; cbn [andb]; rewrite !orb_false_r; reflexivity.
    + rewrite A1 by lia; unfold in_run; destruct (journaled (D v) x), (bitmap_get (bitmap v) x), (tx_block_private v x); cbn [andb orb negb]; trivial; lia.
Qed.

Lemma changes_private (v w : volume) x : changes v w -> J w = J v -> tx_block_private w x = tx_block_private v x.
Proof. intros [[_ H1 H2 _ _ _] _] HJ; apply private_same; assumption. Qed.

(** The loop gets to the end, or stops at a range that could not be deferred. *)
Lemma free_loop_frees fuel (v : volume) last b :
  freeable v -> 0 <= b -> b <= last <= total_blocks v -> (Z.to_nat (last - b) <= fuel)%nat ->
  exists stop, b <= stop <= last /\ freed v (free_loop reserves fuel v last b) b stop /\
    (tx_error (tx v) = OK -> (forall k, reserves k = true) -> Z.of_nat (length (D v)) + (last - b) < 2 ^ 63 -> stop = last).
Proof.
  revert v b; induction fuel as [| fuel IH]; intros v b Hfr Hb Hl Hfuel.
  { exists b; split_and!; try lia; apply freed_none; reflexivity. }
  destruct (free_loop_turn fuel v last b Hfr Hb ltac:(lia)) as [| Hlt Hz | w Hlt Hu Hp Hc Hbm Htx | next e w Hn Hrun Hc Hbm HJ He Hok Hbad Hall].
  - exists b; split_and!; try lia; apply freed_none; reflexivity.
  - destruct (IH v (b + 1) Hfr) as (stop & H1 & H2 & H3); try lia; exists stop; split_and!; try lia; [| intros; apply H3; trivial; lia].
    apply (freed_trans v v _ b (b + 1)); trivial; try lia; split; trivial; intros x; unfold in_run; destruct (Z.eq_dec x b) as [-> |];
      rewrite ?Hz; cbn [andb]; rewrite ?andb_false_r; trivial; try (rewrite orb_false_r; reflexivity);
      replace ((b <=? x) && (x <? b + 1)) with false by lia; cbn [andb negb]; rewrite ?andb_true_r, ?orb_false_r; reflexivity.
  - destruct (ok_bitmap v (fr_ok v Hfr)) as [B1 B2]; assert (HJ : J w = J v) by (rewrite Htx; reflexivity).
    pose proof (kp_total _ _ (proj1 Hc)) as Ht; pose proof (fun x => changes_private v w x Hc HJ) as Hpr.
    destruct (IH w (b + 1)) as (stop & H1 & H2 & H3); try lia; [apply (changes_freeable v); trivial; rewrite Htx; apply Hfr |].
    exists stop; split_and!; try lia; [| rewrite Htx in H3; intros; apply H3; trivial; lia].
    apply (freed_trans v w _ b (b + 1)); trivial; try lia; split; trivial; try (rewrite Htx; reflexivity).
    + intros x Hx; rewrite Hbm, bitmap_get_set by (trivial; lia); unfold in_run; destruct (Z.eqb_spec b x) as [<- |]; [rewrite Hu, Hp; cbn; lia |].
      replace ((b <=? x) && (x <? b + 1)) with false by lia; symmetry; apply andb_true_r.
    + intros x; rewrite Htx; unfold in_run; destruct (Z.eq_dec x b) as [-> |]; [rewrite Hp; cbn [negb]; rewrite andb_false_r, orb_false_r; reflexivity |].
      replace ((b <=? x) && (x <? b + 1)) with false by lia; symmetry; apply orb_false_r.
  - pose proof (kp_total _ _ (proj1 Hc)) as Ht; pose proof (fun x => changes_private v w x Hc HJ) as Hpr.
    destruct (decide (e <> OK)) as [Hne | Heq].
    { exists b; split_and!; try lia; [apply freed_none; auto |]; intros H1 H2 H3; destruct Hne; apply Hall; trivial; lia. }
    assert (Hek : e = OK) by (destruct (decide (e = OK)); [assumption | contradiction]); destruct (Hok Hek) as [Hd Hdl].
    assert (Hdj : forall x, journaled (D w) x = journaled (D v) x || ((b <=? x) && (x <? b + (next - b)))).
    { intros x; apply deferred_with_iff; trivial; [lia | eapply positive_ranges, Hfr]. }
    destruct (IH w next) as (stop & H1 & H2 & H3); try lia; [apply (turn_freeable v w b next); trivial; lia |].
    exists stop; split_and!; try lia; [| intros E1 E2 E3; apply H3; trivial; [congruence | lia]].
    apply (freed_trans v w _ b next); trivial; try lia; split; trivial; intros x; unfold in_run.
    + intros Hx; rewrite Hbm; destruct ((b <=? x) && (x <? next)) eqn:Er; [| symmetry; apply andb_true_r].
      destruct (Hrun x ltac:(lia)) as [-> ->]; reflexivity.
    + rewrite Hdj; replace (b + (next - b)) with next by lia; destruct ((b <=? x) && (x <? next)) eqn:Er; [| reflexivity].
      destruct (Hrun x ltac:(lia)) as [-> ->]; reflexivity.
Qed.

(** ** What the journal is enough to undo *)

(** Between the bitmap [base] and now: only blocks of the journal changed, and
    they were free; deferred blocks were in use or are in the journal. *)
Record undoable (base bm : list Z) (j d : list extent) : Prop := {
  un_taken : forall b, journaled j b = true -> bitmap_get base b = false;
  un_others : forall b, 0 <= b -> journaled j b = false -> bitmap_get bm b = bitmap_get base b;
  un_deferred : forall b, journaled d b = true -> journaled j b = true \/ bitmap_get base b = true
}.

Lemma undoable_start bm : undoable bm bm [] [].
Proof. split; trivial; discriminate. Qed.

Lemma undoable_take base (v : volume) j d first n :
  volume_ok v -> in_range (total_blocks v) (Extent first n) ->
  (forall b, first <= b < first + n -> bitmap_get (bitmap v) b = false) ->
  undoable base (bitmap v) j d -> undoable base (bitmap_set_run (bitmap v) first n true) (j ++ [Extent first n]) d.
Proof.
  intros Hok Hr Hf [H1 H2 H3]; split.
  - intros b; rewrite journaled_app; destruct (journaled j b) eqn:Ej; [intros _; apply H1, Ej |]; cbn; unfold in_extent; cbn.
    intros Hb; destruct Hr as (? & ? & ?); cbn in *; rewrite <- H2 by (trivial; lia); apply Hf; lia.
  - intros b Hb; rewrite journaled_app; intros [Ej Er]%orb_false_iff; rewrite run_bits by assumption; cbn in Er; unfold in_extent in Er; cbn in Er.
    replace (_ && _)%bool with false by lia; apply H2; assumption.
  - intros b Hb; rewrite journaled_app; destruct (H3 b Hb) as [-> | ?]; auto.
Qed.

Lemma undoable_release base (v : volume) j d b :
  volume_ok v -> 0 <= b < total_blocks v -> journaled j b = true ->
  undoable base (bitmap v) j d -> undoable base (Allocator.bitmap_set (bitmap v) b false) j d.
Proof.
  intros Hok Hb Hj [H1 H2 H3]; destruct (ok_bitmap v Hok) as [B1 B2]; split; trivial; intros x Hx Ex.
  rewrite bitmap_get_set by (trivial; lia); destruct (Z.eqb_spec b x); [congruence | apply H2; assumption].
Qed.

Lemma undoable_defer base bm j d d' first n :
  0 <= first -> 0 < n -> Forall (fun e => 0 < count e) d -> deferred_with d d' first n ->
  (forall b, first <= b < first + n -> bitmap_get bm b = true) -> undoable base bm j d -> undoable base bm j d'.
Proof.
  intros Hf Hn Hd Hw Hb [H1 H2 H3]; split; trivial; intros b; rewrite (deferred_with_iff d d' first n) by assumption.
  intros [Hx | Hx]%orb_true_iff; [auto |]; destruct (journaled j b) eqn:Ej; [auto | right].
  rewrite <- H2 by (trivial; lia); apply Hb; lia.
Qed.

(** *** Undoing *)

Lemma clear_ranges_spec total bm l :
  bytes_ok bm -> total <= bits bm < 2 ^ 64 -> Forall (in_range total) l ->
  bytes_ok (clear_ranges bm l) /\ length (clear_ranges bm l) = length bm /\
  forall b, 0 <= b -> bitmap_get (clear_ranges bm l) b = if journaled l b then false else bitmap_get bm b.
Proof.
  unfold clear_ranges; intros Hb Ht Hl; revert bm Hb Ht; induction Hl as [| e l (H1 & H2 & H3) Hl IH]; intros bm Hb Ht; [auto |].
  cbn [fold_left]; destruct (bitmap_set_run_ok bm (start e) (count e) false Hb) as [G1 G2].
  destruct (IH _ G1) as (I1 & I2 & I3); [unfold bits in *; rewrite G2; exact Ht |].
  split_and!; [exact I1 | congruence |]; intros b Hb0; rewrite I3, bitmap_get_run by (trivial; unfold bits in *; lia).
  rewrite journaled_cons; destruct (journaled l b), ((start e <=? b) && (b <? start e + count e)); reflexivity.
Qed.

Lemma restore_run_spec (keep : Z -> bool) bm first n :
  bytes_ok bm -> 0 <= first -> 0 <= n -> first + n <= bits bm < 2 ^ 64 ->
  let bm' := fold_left (fun bm b => if keep (u64 (first + b)) then bm else Allocator.bitmap_set bm (u64 (first + b)) true) (seqZ 0 n) bm in
  bytes_ok bm' /\ length bm' = length bm /\
  forall b, 0 <= b -> bitmap_get bm' b = if (first <=? b) && (b <? first + n) && negb (keep b) then true else bitmap_get bm b.
Proof.
  intros Hb Hf Hn Hmax bm'.
  assert (Hgen : forall k bm m, bytes_ok bm -> 0 <= m -> first + m + Z.of_nat k <= bits bm < 2 ^ 64 ->
    let bm' := fold_left (fun bm b => if keep (u64 (first + b)) then bm else Allocator.bitmap_set bm (u64 (first + b)) true) (seqZ m (Z.of_nat k)) bm in
    bytes_ok bm' /\ length bm' = length bm /\
    forall b, 0 <= b -> bitmap_get bm' b = if (first + m <=? b) && (b <? first + m + Z.of_nat k) && negb (keep b) then true else bitmap_get bm b).
  { clear -Hf; induction k as [| k IH]; intros bm m Hb Hm Hmax.
    - cbn; split_and!; trivial; intros b _; destruct (_ && _)%bool eqn:Eb; [lia | reflexivity].
    - rewrite seqZ_cons by lia; replace (Z.pred (Z.of_nat (S k))) with (Z.of_nat k) by lia; cbn [fold_left].
      rewrite (wrap_small 64 (first + m)) by (unfold fits; lia).
      set (bm1 := if keep (first + m) then bm else _).
      assert (Hb1 : bytes_ok bm1 /\ length bm1 = length bm) by (unfold bm1; destruct (keep _); auto using bitmap_set_ok, bitmap_set_length).
      destruct Hb1 as [Hb1 Hl1]; destruct (IH bm1 (Z.succ m) Hb1) as (I1 & I2 & I3); [lia | unfold bits in *; rewrite Hl1; lia |].
      split_and!; [exact I1 | congruence |]; intros b Hb0; rewrite I3 by exact Hb0.
      assert (Hget : bitmap_get bm1 b = if (first + m =? b) && negb (keep b) then true else bitmap_get bm b).
      { unfold bm1; destruct (keep (first + m)) eqn:Ek.
        - destruct (Z.eqb_spec (first + m) b) as [<- |]; [rewrite Ek |]; reflexivity.
        - rewrite bitmap_get_set by (trivial; lia); destruct (Z.eqb_spec (first + m) b) as [<- |]; [rewrite Ek |]; reflexivity. }
      rewrite Hget; destruct (keep b); cbn [negb]; rewrite ?andb_false_r, ?andb_true_r; [reflexivity |].
      destruct (Z.eqb_spec (first + m) b); repeat case_match; trivial; lia. }
  destruct (Hgen (Z.to_nat n) bm 0 Hb ltac:(lia) ltac:(lia)) as (G1 & G2 & G3); rewrite Z2Nat.id in G1, G2, G3 by exact Hn.
  split_and!; [exact G1 | exact G2 |]; intros b Hb0; unfold bm'; rewrite G3 by exact Hb0; rewrite Z.add_0_r; reflexivity.
Qed.

Lemma restore_ranges_spec (v : volume) total bm l :
  tx_active (tx v) = true -> bytes_ok bm -> total <= bits bm < 2 ^ 64 -> Forall (in_range total) l ->
  bytes_ok (restore_ranges v bm l) /\ length (restore_ranges v bm l) = length bm /\
  forall b, 0 <= b -> bitmap_get (restore_ranges v bm l) b =
    if journaled l b && negb (journaled (J v) b) then true else bitmap_get bm b.
Proof.
  intros Ha; unfold restore_ranges; intros Hb Ht Hl; revert bm Hb Ht; induction Hl as [| e l (H1 & H2 & H3) Hl IH]; intros bm Hb Ht; [auto |].
  assert (Hpriv : forall b, tx_block_private_since v b 0 = journaled (J v) b) by (intros; unfold tx_block_private_since; rewrite Ha; reflexivity).
  cbn [fold_left].
  destruct (restore_run_spec (fun b => tx_block_private_since v b 0) bm (start e) (count e) Hb H1 ltac:(lia) ltac:(lia)) as (G1 & G2 & G3).
  cbv beta in G1, G2, G3; set (bm1 := fold_left _ (seqZ 0 (count e)) bm) in *.
  destruct (IH bm1 G1) as (I1 & I2 & I3); [unfold bits in *; rewrite G2; exact Ht |].
  split_and!; [exact I1 | congruence |]; intros b Hb0; rewrite I3, G3, Hpriv, journaled_cons by exact Hb0.
  destruct (journaled (J v) b); cbn [negb]; rewrite ?andb_false_r, ?andb_true_r; [reflexivity |].
  destruct (journaled l b), ((start e <=? b) && (b <? start e + count e)); reflexivity.
Qed.

(** ** The transaction *)

(** [v] is inside the transaction begun at [v0]. *)
Record in_tx (v0 v : volume) : Prop := {
  it_ok : volume_ok v;
  it_active : tx_active (tx v) = true;
  it_base : tx_base_sb (tx v) = sb v0;
  it_total : total_blocks v = total_blocks v0;
  it_length : length (bitmap v) = length (bitmap v0);
  it_journal : Forall (in_range (total_blocks v0)) (J v);
  it_deferred : Forall (in_range (total_blocks v0)) (D v);
  it_undo : undoable (bitmap v0) (bitmap v) (J v) (D v)
}.

Lemma changes_in_tx (v0 v v' : volume) : in_tx v0 v -> changes v v' -> in_tx v0 v'.
Proof.
  intros [Hok Ha Hb Ht Hl HJ HD Hu] [[Kok K1 K2 K3 K4 K5] Hc]; split; trivial; try congruence;
    destruct Hc as [C1 C2 C3 | first n Hr Hf C1 C2 C3 | b Hb' Hub Hp C1 C2 C3 | first n Hr Hf C1 C2 C3];
    rewrite ?C1, ?C2, ?C3; trivial.
  - apply Forall_app; split; [assumption | rewrite Forall_singleton, <- Ht; exact Hr].
  - apply (deferred_with_range _ (D v) _ first n); trivial; rewrite <- Ht; exact Hr.
  - apply undoable_take; assumption.
  - apply undoable_release; trivial; rewrite private_since in Hp by exact Ha; apply since_journaled, Hp.
  - destruct Hr as (? & ? & ?); cbn in *; eapply undoable_defer; [| | eapply positive_ranges, HD | exact C3 | apply Hf | exact Hu]; lia.
Qed.

Lemma rtc_ok (v v' : volume) : volume_ok v -> rtc changes v v' -> volume_ok v'.
Proof. intros Hok; induction 1 as [| x y z [[Hy _ _ _ _ _] _] _ IH]; auto. Qed.

Lemma rtc_in_tx (v0 v v' : volume) : in_tx v0 v -> rtc changes v v' -> in_tx v0 v'.
Proof. intros H; induction 1; eauto using changes_in_tx. Qed.

(** ** The operation *)

(** The deferred ranges since [d]: some more, the last of [d] perhaps longer. *)
Definition grown (d d' : list extent) : Prop :=
  (exists more, d' = d ++ more) \/ (exists init e e' more, d = init ++ [e] /\ d' = init ++ e' :: more).

Lemma grown_with d d' d'' first n : grown d d' -> deferred_with d' d'' first n -> grown d d''.
Proof.
  assert (Hsnoc : forall (l l2 : list extent) e m, l ++ l2 = m ++ [e] -> (l2 = [] /\ l = m ++ [e]) \/ exists l3, l2 = l3 ++ [e] /\ m = l ++ l3).
  { intros l l2 e m; destruct l2 as [| x l2 _] using rev_ind; [rewrite app_nil_r; auto |].
    rewrite app_assoc; intros [<- [= ->]]%app_inj_tail; right; exists l2; auto. }
  intros Hg [-> | (init & e & -> & He & ->)].
  - destruct Hg as [[more ->] | (i & x & x' & more & -> & ->)]; [left; eexists; rewrite <- app_assoc; reflexivity |].
    right; exists i, x, x', (more ++ [Extent first n]); rewrite <- app_assoc; auto.
  - destruct Hg as [[more Hm] | (i & x & x' & more & -> & Hm)].
    + destruct (Hsnoc d more e init (eq_sym Hm)) as [[-> Hd] | (l3 & -> & ->)].
      * right; exists init, e, (Extent (start e) (count e + n)), []; auto.
      * left; eexists; rewrite <- app_assoc; reflexivity.
    + destruct (Hsnoc (i ++ [x']) more e init) as [[-> Hd] | (l3 & -> & ->)]; [rewrite <- app_assoc; auto | |].
      * apply app_inj_tail in Hd as [<- <-]; right; exists i, x, (Extent (start x') (count x' + n)), []; auto.
      * right; exists i, x, x', (l3 ++ [Extent (start e) (count e + n)]); rewrite <- !app_assoc; auto.
Qed.

(** [v] is inside the operation begun at [o]. *)
Record in_op (o v : volume) : Prop := {
  io_ok : volume_ok v;
  io_active : tx_active (tx v) = true;
  io_base : tx_base_sb (tx v) = tx_base_sb (tx o);
  io_total : total_blocks v = total_blocks o;
  io_length : length (bitmap v) = length (bitmap o);
  io_op : op v = op (tx_operation_begin o).2 /\ op_active (op v) = true /\ op_allocated_count (op v) = length (J o);
  io_journal : exists more, J v = J o ++ more /\ Forall (in_range (total_blocks o)) more /\
    undoable (bitmap o) (bitmap v) more [];
  io_deferred : grown (D o) (D v)
}.

Lemma in_op_since (o v : volume) more : in_op o v -> J v = J o ++ more -> since v = more.
Proof. intros [_ _ _ _ _ (_ & Ha & Hn) _ _] HJ; unfold since; rewrite Ha, Hn, HJ; apply drop_app_length. Qed.

Lemma changes_in_op (o v v' : volume) : in_op o v -> changes v v' -> in_op o v'.
Proof.
  intros Hin [[Kok K1 K2 K3 K4 K5] Hc]; pose proof Hin as [Hok Ha Hb Ht Hl Hop (more & HJ & Hm & Hu) Hd].
  pose proof (in_op_since o v more Hin HJ) as Hs.
  split; trivial; try congruence;
    destruct Hc as [C1 C2 C3 | first n Hr Hf C1 C2 C3 | b Hb' Hub Hp C1 C2 C3 | first n Hr Hf C1 C2 C3]; rewrite ?C1, ?C2, ?C3; eauto.
  - exists (more ++ [Extent first n]); split_and!; [rewrite HJ, app_assoc; reflexivity | apply Forall_app; split; [assumption | rewrite Forall_singleton, <- Ht; exact Hr] |].
    apply undoable_take; assumption.
  - exists more; split_and!; trivial; apply undoable_release; trivial; rewrite <- Hs, <- private_since by exact Ha; exact Hp.
  - eapply grown_with; eassumption.
Qed.

Lemma rtc_in_op (o v v' : volume) : in_op o v -> rtc changes v v' -> in_op o v'.
Proof. intros H; induction 1; eauto using changes_in_op. Qed.

Lemma tx_begin_again (v : volume) :
  reopen_required_status v = OK -> writable v = true -> tx_active (tx v) = true -> tx_error (tx v) = OK -> tx_begin v = (OK, v).
Proof. intros H1 H2 H3 H4; unfold tx_begin; rewrite H1, H2, H3, H4; reflexivity. Qed.

(** C11.  Freeing a run inside a transaction.  Up to a block at which the run is either
    done or could not be deferred, exactly the blocks the transaction (or the open
    operation) allocated itself are free again, exactly the other blocks in use are
    deferred to the publication, and the rest of the bitmap, of the deferred ranges
    and the whole journal are as before; the accounting stays right.  The run is
    done whenever memory is granted and the deferred ranges and the blocks of the run
    are fewer than 2^63 in all; when memory is refused, the rest of the run stays in
    use and no error is recorded. *)
Theorem free_run_frees (v : volume) first n :
  freeable v -> tx_begin v = (OK, v) -> 0 <= first -> 0 < n -> first + n <= total_blocks v ->
  exists stop, first <= stop <= first + n /\
    freed v (free_run reserves v first n) first stop /\ volume_ok (free_run reserves v first n) /\
    ((forall k, reserves k = true) -> Z.of_nat (length (D v)) + n < 2 ^ 63 -> stop = first + n).
Proof.
  intros Hfr Hb Hf Hn Ht; unfold free_run; replace (n =? 0) with false by lia; rewrite Hb.
  assert (Herr : tx_error (tx v) = OK).
  { revert Hb; unfold tx_begin; rewrite (fr_active v Hfr); repeat (destruct (decide _) || destruct (negb _)); congruence. }
  rewrite decide_False by (intros []; reflexivity); pose proof (ok_total v (fr_ok v Hfr)).
  rewrite wrap_small by (unfold fits; lia); replace (_ || _)%bool with false by lia.
  destruct (free_loop_frees (Z.to_nat (first + n - first)) v (first + n) first Hfr) as (stop & H1 & H2 & H3); try lia.
  exists stop; split_and!; trivial; try lia; [| intros; apply H3; trivial; lia].
  apply (rtc_ok v); [apply Hfr | apply free_loop_changes; trivial; lia].
Qed.

End Volume.

Section Sample.
#[local] Existing Instance reference_endian.
#[local] Existing Instance reference_arithmetic.

(** The sample volume after blocks 5 and 6 were allocated. *)
Definition sample_busy : infs_volume ram () :=
  (alloc_data_run_impl (fun _ => true) (tx_begin sample_volume).2 2 false).2.

Lemma sample_freeable : freeable sample_busy.
Proof.
  assert (Hok : volume_ok (tx_begin sample_volume).2) by (apply (ok_same sample_volume); [exact sample_ok | vm_compute; reflexivity..]).
  pose proof (data_allocated (fun _ => true) (tx_begin sample_volume).2 2 false Hok ltac:(vm_compute; reflexivity) ltac:(lia)) as H.
  assert (Hr : (alloc_data_run_impl (fun _ => true) (tx_begin sample_volume).2 2 false).1 = Good (5, 2)) by (vm_compute; reflexivity).
  unfold sample_busy; destruct (alloc_data_run_impl _ _ 2 false) as [r v'] eqn:Ea; cbn [fst snd] in *; subst r.
  destruct H as [[[[[Hk K1 K2 K3 K4 K5] _] _ H2 H3 _] _] _].
  split; [exact Hk | rewrite K2; vm_compute; reflexivity | rewrite H3; apply Forall_nil; exact I | rewrite H2; vm_compute; reflexivity].
Qed.

(** Freeing blocks 3 to 6: 3 and 4 are deferred, 5 and 6 are free again; without memory
    nothing happens to 3 and 4. *)
Lemma free_run_frees_witness :
  let v := free_run (fun _ => true) sample_busy 3 4 in
  freed sample_busy v 3 7 /\ tx_deferred (tx v) = [Extent 3 2] /\ bitmap v = [0x9d; 0xff; 0xf6] /\
  exists stop, 3 <= stop <= 7 /\ freed sample_busy (free_run (fun _ => false) sample_busy 3 4) 3 stop.
Proof.
  assert (Hb : tx_begin sample_busy = (OK, sample_busy)) by (apply tx_begin_again; vm_compute; reflexivity).
  assert (Ht : 3 + 4 <= total_blocks sample_busy) by (vm_compute; discriminate).
  cbv zeta; split_and!; [| vm_compute; reflexivity | vm_compute; reflexivity |].
  - destruct (free_run_frees (fun _ => true) sample_busy 3 4 sample_freeable Hb ltac:(lia) ltac:(lia) Ht) as (stop & _ & H2 & _ & H4).
    change 7 with (3 + 4); rewrite <- H4; [exact H2 | reflexivity | vm_compute; reflexivity].
  - destruct (free_run_frees (fun _ => false) sample_busy 3 4 sample_freeable Hb ltac:(lia) ltac:(lia) Ht) as (stop & H1 & H2 & _); exists stop; auto.
Defined.

End Sample.
End RollbackFacts.
