(* ===== verification/TxSteps.v ===== *)
(** Transactions as sequences of steps ([Allocator.v]): what callers do between
    [tx_begin] and [tx_abort], and between [tx_operation_begin] and
    [tx_operation_abort], and that both aborts undo all of it. *)

From Stdlib Require Import ZifyBool.
From stdpp Require Import prelude relations.
From S2P Require Import Prelude Endian Checksum Format Storage Objects FormatVolume FormatPlan Allocator FreeExtents AllocChoice Transactions Rollback.
#[local] Open Scope Z_scope.

Module TxStepsFacts.
Import Storage Objects ObjectsFacts FormatVolume FormatPlanFacts Allocator FreeExtentsFacts AllocChoiceFacts TransactionsFacts RollbackFacts.

Section Volume.
Context {E : Endian} {A : CheckedArithmetic} {C K : Type} {CC : Caches C K} (reserves : nat -> bool).
#[local] Abbreviation volume := (infs_volume C K).
#[local] Abbreviation J v := (tx_allocated (tx v)).
#[local] Abbreviation D v := (tx_deferred (tx v)).

(** ** Steps *)

(** What an operation does: allocate, free, write a block, edit the superblock
    (the counts apart, which only the allocator changes). *)
Inductive op_step (v : volume) : volume -> Prop :=
| step_data wanted zero : 0 <= wanted -> op_step v (alloc_data_run_impl reserves v wanted zero).2
| step_metadata wanted : 0 <= wanted -> op_step v (alloc_run reserves v wanted).2
| step_exact wanted zero : 0 <= wanted -> op_step v (alloc_exact_run_impl reserves v wanted zero).2
| step_free first n : 0 <= first -> op_step v (free_run reserves v first n)
| step_write b data : op_step v (write_block v b data).2
| step_superblock s : sb_wf s -> sb_total_blocks s = total_blocks v -> sb_free_blocks s = free_blocks v ->
    op_step v (set_sb v s).

(** What a transaction does: operations, each inside a savepoint or not. *)
Inductive tx_step (v : volume) : volume -> Prop :=
| step_op v' : op_step v v' -> tx_step v v'
| step_begin v' : tx_operation_begin v = (OK, v') -> tx_step v v'
| step_commit : tx_step v (tx_operation_commit v)
| step_abort : tx_step v (tx_operation_abort reserves v).

Lemma unmoved_rtc (v v' : volume) : unmoved v v' -> rtc changes v v'.
Proof. intros [H _ _ _ _]; apply rtc_once, H. Qed.

Lemma allocated_rtc (v v' : volume) wanted r : allocated v wanted r v' -> rtc changes v v'.
Proof. destruct r as [[first n] | e]; [intros [[H _ _ _ _] _]; apply rtc_once, H | apply unmoved_rtc]. Qed.

Lemma free_run_rtc (v : volume) first n : freeable v -> 0 <= first -> rtc changes v (free_run reserves v first n).
Proof.
  intros Hfr Hf; unfold free_run; destruct (n =? 0); [apply rtc_refl |].
  destruct (tx_begin_active v (fr_active v Hfr)) as [e ->]; destruct (decide (e <> OK)).
  { apply rtc_once, quiet_same; [apply Hfr | destruct v; reflexivity..]. }
  apply free_loop_changes; [exact Hfr | exact Hf | case_match; lia].
Qed.

Lemma superblock_rtc (v : volume) s :
  volume_ok v -> sb_wf s -> sb_total_blocks s = total_blocks v -> sb_free_blocks s = free_blocks v -> rtc changes v (set_sb v s).
Proof.
  intros [H1 H2 H3 H4 H5 H6] Hs Ht Hf; apply rtc_once; split; [| destruct v; apply Quiet; reflexivity].
  destruct v; split; trivial; split; unfold total_blocks, free_blocks in *; cbn in *; rewrite ?Ht, ?Hf; assumption.
Qed.

Lemma op_step_rtc (v v' : volume) : freeable v -> 1 < total_blocks v -> op_step v v' -> rtc changes v v'.
Proof.
  intros Hfr H1; pose proof (fr_ok v Hfr) as Hok; pose proof (fr_active v Hfr) as Ha.
  destruct 1 as [wanted zero Hw | wanted Hw | wanted zero Hw | first n Hf | b data | s Hs Ht Hfb].
  - pose proof (data_allocated reserves v wanted zero Hok Ha Hw) as H; destruct (alloc_data_run_impl _ _ _ _); apply (allocated_rtc v _ wanted _ (proj1 H)).
  - pose proof (metadata_allocated reserves v wanted Hok Ha Hw) as H; destruct (alloc_run _ _ _); apply (allocated_rtc v _ wanted _ H).
  - pose proof (exact_allocated reserves v wanted zero Hok Ha Hw H1) as H; destruct (alloc_exact_run_impl _ _ _ _) as [[first | e] v'];
      destruct H as [H _]; [destruct H as [[H _ _ _ _] _]; apply rtc_once, H | apply unmoved_rtc, H].
  - apply free_run_rtc; assumption.
  - unfold write_block; destruct (_ >=? _); [apply rtc_refl |]; destruct (infs_storage_write _ _ _) as [e s].
    apply rtc_once, quiet_same; [exact Hok | destruct v; reflexivity..].
  - apply superblock_rtc; assumption.
Qed.

(** ** Inside a transaction *)

Lemma in_tx_freeable (v0 v : volume) : volume_ok v0 -> in_tx v0 v -> freeable v.
Proof.
  intros H0 [Hok Ha Hb Ht Hl HJ HD Hu]; split; trivial; [rewrite Ht; exact HD |].
  destruct (journaled (J v) 0) eqn:Ej; [| reflexivity]; apply (un_taken _ _ _ _ Hu) in Ej; rewrite (ok_zero v0 H0) in Ej; discriminate.
Qed.

Lemma tx_begin_in_tx (v v0 : volume) :
  volume_ok v -> tx_active (tx v) = false -> tx_begin v = (OK, v0) -> in_tx v v0 /\ op v0 = op v.
Proof.
  intros Hok Ha; unfold tx_begin; destruct (decide _) as [Hd |]; [intros [= Hr _]; contradiction |].
  destruct (negb _); [discriminate |]; rewrite Ha; destruct (infiltratr_u64_add_checked _ _); [| discriminate].
  destruct (_ =? 0); [discriminate |]; intros [= <-]; split; [| destruct v; reflexivity].
  assert (Hok' : volume_ok (set_tx v (Tx true OK (sb v) [] []))) by (apply (ok_same v); [exact Hok | destruct v; reflexivity..]).
  destruct v; split; trivial; [apply Forall_nil; exact I.. | apply undoable_start].
Qed.

(** Another volume with the same allocation state. *)
Lemma in_tx_same (v0 v v' : volume) :
  in_tx v0 v -> volume_ok v' -> tx_active (tx v') = true -> tx_base_sb (tx v') = tx_base_sb (tx v) ->
  sb v' = sb v -> bitmap v' = bitmap v -> J v' = J v -> D v' = D v -> in_tx v0 v'.
Proof.
  intros [Hok Ha Hb Ht Hl HJ HD Hu] Hok' Ha' E1 E2 E3 E4 E5; split; rewrite ?E3, ?E4, ?E5; trivial; [congruence |].
  unfold total_blocks in *; rewrite E2; exact Ht.
Qed.

(** ** Aborting an operation *)

(** The allocation state of [v'] is that of [o]. *)
Record restored (o v' : volume) : Prop := {
  rs_ok : volume_ok v';
  rs_bitmap : bitmap v' = bitmap o;
  rs_sb : sb v' = sb o;
  rs_active : tx_active (tx v') = tx_active (tx o);
  rs_error : tx_error (tx v') = OK;
  rs_base : tx_base_sb (tx v') = tx_base_sb (tx o);
  rs_journal : J v' = J o;
  rs_deferred : D v' = D o;
  rs_op : op_active (op v') = false;
  rs_hints : tx_pending_bytes v' = tx_pending_bytes o /\ data_allocation_cursor v' = data_allocation_cursor o /\
    metadata_allocation_cursor v' = metadata_allocation_cursor o
}.

Lemma undo_bitmap (o : volume) bm more d :
  volume_ok o -> bytes_ok bm -> length bm = length (bitmap o) -> Forall (in_range (total_blocks o)) more ->
  undoable (bitmap o) bm more d -> clear_ranges bm more = bitmap o.
Proof.
  intros Hok Hb Hl Hm [H1 H2 _]; destruct (ok_bitmap o Hok) as [B1 B2].
  destruct (clear_ranges_spec (total_blocks o) bm more Hb) as (C1 & C2 & C3); [unfold bits in *; rewrite Hl; exact B2 | exact Hm |].
  apply bitmap_ext; trivial; [congruence |]; intros b Hb0; rewrite C3 by lia.
  destruct (journaled more b) eqn:Ej; [symmetry; apply H1, Ej | apply H2; [lia | exact Ej]].
Qed.

Lemma restore_grown (o : volume) sp d :
  op_deferred_count sp = length (D o) -> op_had_last_deferred sp = negb (bool_decide (D o = [])) ->
  (forall init e, D o = init ++ [e] -> op_last_deferred sp = e) -> grown (D o) d -> restore_deferred sp d = D o.
Proof.
  intros Hc Hh Hl Hg.
  assert (Hlast : forall init e e', D o = init ++ [e] -> take (length (D o)) d = init ++ [e'] -> restore_deferred sp d = D o).
  { intros init e e' HD Ht; unfold restore_deferred; rewrite Hc, Hh, Ht, HD, (Hl init e HD).
    rewrite !bool_decide_false by (destruct init; discriminate); cbn [negb andb].
    rewrite length_app; cbn [length]; replace (_ + 1 - 1)%nat with (length init) by lia; rewrite take_app_length; reflexivity. }
  destruct Hg as [[more ->] | (init & e & e' & more & HD & ->)].
  - destruct (last (D o)) as [e |] eqn:El.
    + apply last_Some in El as [init HD]; apply (Hlast init e e HD); rewrite take_app_length; exact HD.
    + apply last_None in El; unfold restore_deferred; rewrite Hc, Hh, El; reflexivity.
  - apply (Hlast init e e' HD); rewrite HD, length_app; cbn [length].
    replace (init ++ e' :: more) with ((init ++ [e']) ++ more) by (rewrite <- app_assoc; reflexivity).
    replace (length init + 1)%nat with (length (init ++ [e'])) by (rewrite length_app; reflexivity); apply take_app_length.
Qed.

Lemma begin_fields (o v : volume) :
  tx_operation_begin o = (OK, v) ->
  let s := op (tx_operation_begin o).2 in
  op_active s = true /\ op_sb s = sb o /\ op_allocated_count s = length (J o) /\ op_deferred_count s = length (D o) /\
  op_had_last_deferred s = negb (bool_decide (D o = [])) /\ (forall init e, D o = init ++ [e] -> op_last_deferred s = e) /\
  op_pending_bytes s = tx_pending_bytes o /\ op_data_cursor s = data_allocation_cursor o /\
  op_metadata_cursor s = metadata_allocation_cursor o.
Proof.
  unfold tx_operation_begin; destruct (_ || _)%bool; [discriminate |]; intros [= <-]; cbn [snd].
  assert (Hl : forall init e, D o = init ++ [e] ->
    (if negb (bool_decide (D o = [])) then default (op_last_deferred (op o)) (last (D o)) else op_last_deferred (op o)) = e).
  { intros init e HD; rewrite HD, bool_decide_false by (destruct init; discriminate); rewrite last_snoc; reflexivity. }
  destruct o; split_and!; trivial.
Qed.

Lemma op_abort_restores (o v : volume) :
  volume_ok o -> tx_active (tx o) = true -> op_active (op o) = false -> in_op o v -> restored o (tx_operation_abort reserves v).
Proof.
  intros Hok Hao Hop [Vok Va Vb Vt Vl (Vop & Vact & _) (more & HJ & Hm & Hu) Hg].
  assert (Hbegin : exists w, tx_operation_begin o = (OK, w)) by (unfold tx_operation_begin; rewrite Hao, Hop; cbn; eauto).
  destruct Hbegin as [w Hw]; destruct (begin_fields o w Hw) as (S1 & S2 & S3 & S4 & S5 & S6 & S7 & S8 & S9).
  rewrite <- Vop in *; unfold tx_operation_abort; rewrite Vact; cbn [negb]; cbv zeta.
  rewrite (restore_grown o (op v) (D v) S4 S5 S6 Hg), S2, S3, S7, S8, S9, HJ, drop_app_length, take_app_length.
  rewrite (undo_bitmap o (bitmap v) more [] Hok (proj1 (ok_bitmap v Vok)) Vl Hm Hu), Va, Vb.
  set (w1 := set_caches _ false _).
  assert (Hw1 : bitmap w1 = bitmap o /\ sb w1 = sb o /\ tx w1 = Tx true OK (tx_base_sb (tx o)) (D o) (J o) /\ op_active (op w1) = false /\
    tx_pending_bytes w1 = tx_pending_bytes o /\ data_allocation_cursor w1 = data_allocation_cursor o /\
    metadata_allocation_cursor w1 = metadata_allocation_cursor o) by (unfold w1; destruct v; cbn; auto 10).
  clearbody w1; destruct Hw1 as (F1 & F2 & F3 & F4 & F5 & F6 & F7).
  destruct (rebuild_is reserves w1) as (fe & fv & k & -> & Hi).
  { unfold total_blocks; rewrite F2; pose proof (ok_total o Hok) as Ht; unfold total_blocks in Ht; lia. }
  assert (Hfin : volume_ok (set_requests (set_index w1 fe fv) k)).
  { unfold total_blocks in Hi; rewrite F1, F2 in Hi; destruct Hok as [H1 H2 H3 H4 H5 H6], w1.
    unfold total_blocks, free_blocks in *; cbn in *; subst; split; trivial. }
  split; [eapply ok_same; [exact Hfin | destruct w1; reflexivity..] | | | | | | | | |]; destruct w1; cbn in *; subst; auto.
Qed.

(** ** Steps keep the transaction undoable *)

(** Inside the transaction begun at [v0], perhaps inside an operation of it. *)
Definition scoped (v0 v : volume) : Prop :=
  in_tx v0 v /\ (op_active (op v) = true -> exists o, in_tx v0 o /\ op_active (op o) = false /\ in_op o v).

Lemma rtc_op (v v' : volume) : rtc changes v v' -> op v' = op v.
Proof. induction 1 as [| v w v' [[_ H _ _ _ _] _] _ IH]; [reflexivity | congruence]. Qed.

Lemma begin_in_op (v v' : volume) : volume_ok v -> tx_operation_begin v = (OK, v') -> in_op v v'.
Proof.
  intros Hok Hb; destruct (begin_fields v v' Hb) as (S1 & _ & S3 & _); rewrite Hb in S1, S3; cbn [snd] in S1, S3.
  assert (Heq : exists s, v' = set_op v s /\ tx_active (tx v) = true).
  { revert Hb; unfold tx_operation_begin; destruct (negb (tx_active (tx v)) || op_active (op v)) eqn:Eg; [discriminate |].
    apply orb_false_iff in Eg as [Eg%negb_false_iff _]; intros [= <-]; eauto. }
  destruct Heq as (s & -> & Ha).
  assert (Hok' : volume_ok (set_op v s)) by (apply (ok_same v); [exact Hok | destruct v; reflexivity..]).
  split; rewrite ?Hb; trivial; try (destruct v; reflexivity || exact Ha); [auto | |].
  - exists []; split_and!; [rewrite app_nil_r; destruct v; reflexivity | apply Forall_nil; exact I |].
    replace (bitmap (set_op v s)) with (bitmap v) by (destruct v; reflexivity); apply undoable_start.
  - left; exists []; rewrite app_nil_r; destruct v; reflexivity.
Qed.

Lemma begin_inactive (v v' : volume) :
  tx_operation_begin v = (OK, v') -> tx_active (tx v) = true /\ op_active (op v) = false /\ exists s, v' = set_op v s.
Proof.
  unfold tx_operation_begin; destruct (negb (tx_active (tx v)) || op_active (op v)) eqn:Eg; [discriminate |].
  apply orb_false_iff in Eg as [Eg%negb_false_iff ?]; intros [= <-]; eauto.
Qed.

Lemma scoped_op (v0 v : volume) s : in_tx v0 v -> in_tx v0 (set_op v s).
Proof.
  intros Hin; pose proof (it_active _ _ Hin); apply (in_tx_same v0 v); trivial; try (destruct v; assumption || reflexivity).
  apply (ok_same v); [apply Hin | destruct v; reflexivity..].
Qed.

Lemma restored_in_tx (v0 o v' : volume) : in_tx v0 o -> restored o v' -> in_tx v0 v'.
Proof.
  intros Hin [R1 R2 R3 R4 R5 R6 R7 R8 R9]; apply (in_tx_same v0 o); trivial; rewrite R4; apply Hin.
Qed.

Lemma step_scoped (v0 v v' : volume) :
  volume_ok v0 -> 1 < total_blocks v0 -> scoped v0 v -> tx_step v v' -> scoped v0 v'.
Proof.
  intros H0 H1 [Hin Hop] Hstep; destruct Hstep as [v' Hstep | v' Hb | |].
  - assert (Hr : rtc changes v v').
    { apply op_step_rtc; trivial; [apply (in_tx_freeable v0); trivial | rewrite (it_total _ _ Hin); exact H1]. }
    split; [apply (rtc_in_tx v0 v); trivial |]; rewrite (rtc_op v v' Hr); intros Ha.
    destruct (Hop Ha) as (o & Ho & Hi & Hio); exists o; split_and!; trivial; apply (rtc_in_op o v); trivial.
  - destruct (begin_inactive v v' Hb) as (Ha & Hi & s & Hs); split; [rewrite Hs; apply scoped_op, Hin |].
    intros _; exists v; split_and!; trivial; apply begin_in_op; trivial; apply Hin.
  - split; [apply scoped_op, Hin | destruct v; discriminate].
  - destruct (op_active (op v)) eqn:Ea.
    + destruct (Hop eq_refl) as (o & Ho & Hi & Hio).
      assert (Hr : restored o (tx_operation_abort reserves v)) by (apply op_abort_restores; trivial; apply Ho).
      split; [apply (restored_in_tx v0 o); trivial | rewrite (rs_op _ _ Hr); discriminate].
    + unfold tx_operation_abort; rewrite Ea; cbn [negb]; split; [exact Hin | rewrite Ea; discriminate].
Qed.

Lemma steps_scoped (v0 v v' : volume) :
  volume_ok v0 -> 1 < total_blocks v0 -> scoped v0 v -> rtc tx_step v v' -> scoped v0 v'.
Proof. intros H0 H1 Hs; induction 1; eauto using step_scoped. Qed.

Lemma op_steps_inside (v0 o v v' : volume) :
  volume_ok v0 -> 1 < total_blocks v0 -> rtc op_step v v' -> in_op o v /\ in_tx v0 v -> in_op o v' /\ in_tx v0 v'.
Proof.
  intros H0 H1; induction 1 as [| x y z Hstep _ IH]; [auto |]; intros [Hx1 Hx2]; apply IH.
  assert (Hr : rtc changes x y).
  { apply op_step_rtc; trivial; [apply (in_tx_freeable v0); trivial | rewrite (it_total _ _ Hx2); exact H1]. }
  split; [apply (rtc_in_op o x) | apply (rtc_in_tx v0 x)]; assumption.
Qed.

(** ** Aborting the transaction *)

Lemma tx_abort_restores (v0 v : volume) :
  volume_ok v0 -> in_tx v0 v ->
  let v' := tx_abort reserves v in
  volume_ok v' /\ bitmap v' = bitmap v0 /\ sb v' = sb v0 /\ tx_active (tx v') = false /\ J v' = [] /\ D v' = [].
Proof.
  intros H0 [Vok Va Vb Vt Vl HJ HD Hu]; unfold tx_abort; rewrite Va; cbn [negb]; cbv zeta.
  set (u := if op_active (op v) then tx_operation_discard v else v).
  assert (Hu0 : bitmap u = bitmap v /\ tx u = tx v) by (unfold u; destruct (op_active _); destruct v; auto).
  clearbody u; destruct Hu0 as [U1 U2]; rewrite U2, Vb, U1.
  destruct (ok_bitmap v0 H0) as [B1 B2].
  destruct (clear_ranges_spec (total_blocks v0) (bitmap v) (J v) (proj1 (ok_bitmap v Vok))) as (C1 & C2 & C3);
    [unfold bits in *; rewrite Vl; exact B2 | exact HJ |].
  destruct (restore_ranges_spec u (total_blocks v0) (clear_ranges (bitmap v) (J v)) (D v)) as (R1 & R2 & R3);
    [rewrite U2; exact Va | exact C1 | unfold bits in *; rewrite C2, Vl; exact B2 | exact HD |].
  assert (Hbm : restore_ranges u (clear_ranges (bitmap v) (J v)) (D v) = bitmap v0).
  { apply bitmap_ext; trivial; [congruence |]; intros b Hb; rewrite R3, C3, U2 by lia; destruct Hu as [N1 N2 N3].
    destruct (journaled (J v) b) eqn:Ej; cbn [negb]; [rewrite andb_false_r; symmetry; apply N1, Ej |].
    rewrite andb_true_r; destruct (journaled (D v) b) eqn:Ed; [| apply N2; [lia | exact Ej]].
    destruct (N3 b Ed) as [? | ->]; [congruence | reflexivity]. }
  rewrite Hbm; set (w := set_caches _ false _).
  assert (Hw : bitmap w = bitmap v0 /\ sb w = sb v0 /\ tx w = Tx false OK (sb v0) [] []) by (unfold w; destruct u; auto).
  clearbody w; destruct Hw as (F1 & F2 & F3).
  destruct (rebuild_is reserves w) as (fe & fv & k & -> & Hi).
  { unfold total_blocks; rewrite F2; pose proof (ok_total v0 H0) as Ht; unfold total_blocks in Ht; lia. }
  unfold total_blocks in Hi; rewrite F1, F2 in Hi; destruct H0 as [H1 H2 H3 H4 H5 H6].
  split_and!; try (destruct w; cbn in *; subst; reflexivity).
  destruct w; unfold total_blocks, free_blocks in *; cbn in *; subst; split; trivial.
Qed.

(** C8.  Aborting a transaction undoes it.  Whatever was allocated, freed,
    written and counted since [tx_begin], in any order, with any number of
    savepoints opened, committed or aborted in between and with any of it failing
    half way, [tx_abort] leaves the bitmap and the superblock that were there
    before, an empty journal, and an index that is right or not in use. *)
Theorem transaction_rolls_back (v v0 v1 : volume) :
  volume_ok v -> 1 < total_blocks v -> tx_active (tx v) = false -> op_active (op v) = false ->
  tx_begin v = (OK, v0) -> rtc tx_step v0 v1 ->
  let v' := tx_abort reserves v1 in
  volume_ok v' /\ bitmap v' = bitmap v /\ sb v' = sb v /\ tx_active (tx v') = false /\ J v' = [] /\ D v' = [].
Proof.
  intros Hok H1 Ha Hop Hb Hsteps; destruct (tx_begin_in_tx v v0 Hok Ha Hb) as [Hin Hop0].
  apply (tx_abort_restores v v1 Hok), (steps_scoped v v0 v1); trivial; split; [exact Hin |].
  rewrite Hop0, Hop; discriminate.
Qed.

(** C9.  Aborting one operation undoes that operation only: the bitmap, the
    superblock, the journal, the deferred ranges and the allocation cursors are
    those at its [tx_operation_begin], so the earlier part of the transaction is
    kept, no error is recorded any more, and the accounting of the volume is right. *)
Theorem operation_rolls_back (v v0 o v1 v2 : volume) :
  volume_ok v -> 1 < total_blocks v -> tx_active (tx v) = false -> op_active (op v) = false ->
  tx_begin v = (OK, v0) -> rtc tx_step v0 o -> tx_operation_begin o = (OK, v1) -> rtc op_step v1 v2 ->
  restored o (tx_operation_abort reserves v2).
Proof.
  intros Hok H1 Ha Hop Hb Hsteps Hbegin Hops; destruct (tx_begin_in_tx v v0 Hok Ha Hb) as [Hin Hop0].
  assert (Hs : scoped v o) by (apply (steps_scoped v v0); trivial; split; [exact Hin | rewrite Hop0, Hop; discriminate]).
  destruct (begin_inactive o v1 Hbegin) as (Hao & Hio & _).
  assert (Hstart : in_op o v1 /\ in_tx v v1).
  { split; [apply begin_in_op; trivial; apply Hs |]; destruct (begin_inactive o v1 Hbegin) as (_ & _ & s & ->); apply scoped_op, Hs. }
  apply op_abort_restores; trivial; [apply Hs | apply (op_steps_inside v o v1); trivial].
Qed.

Lemma tx_begin_fresh (v : volume) :
  reopen_required_status v = OK -> writable v = true -> tx_active (tx v) = false ->
  is_Some (infiltratr_u64_add_checked (sb_generation (sb v)) 1) ->
  infiltratr_u64_add_checked (sb_generation (sb v)) 1 <> Some 0 -> tx_begin v = (OK, (tx_begin v).2).
Proof.
  intros H1 H2 H3 [n H4] H5; unfold tx_begin; rewrite H1, H2, H3, H4 in *; cbn [negb]; rewrite decide_False by tauto.
  destruct (Z.eqb_spec n 0); [congruence | reflexivity].
Qed.

End Volume.

Section Sample.
#[local] Existing Instance reference_endian.
#[local] Existing Instance reference_arithmetic.

Definition sample_caches : Caches ram () := {|
  object_cache_clear := fun k => k; directory_cache_clear := fun k => k; object_cache_rebuild := fun _ => ()
|}.
#[local] Existing Instance sample_caches.

(** An operation that frees blocks 2 to 6 of [sample_busy] and allocates one block. *)
Definition sample_op : infs_volume ram () := (tx_operation_begin sample_busy).2.
Definition sample_done : infs_volume ram () :=
  (alloc_exact_run_impl (fun _ => true) (free_run (fun _ => true) sample_op 2 5) 1 false).2.

Lemma sample_op_steps : rtc (op_step (fun _ => true)) sample_op sample_done.
Proof.
  apply rtc_l with (free_run (fun _ => true) sample_op 2 5); [apply step_free; lia |].
  apply rtc_once, step_exact; lia.
Qed.

Lemma sample_starts : tx_begin sample_volume = (OK, (tx_begin sample_volume).2).
Proof. apply tx_begin_fresh; [vm_compute; reflexivity.. | vm_compute; eauto | vm_compute; discriminate]. Qed.

Lemma sample_begins : tx_operation_begin sample_busy = (OK, sample_op).
Proof.
  unfold sample_op, tx_operation_begin; replace (_ || _)%bool with false by (vm_compute; reflexivity); reflexivity.
Qed.

Lemma sample_busy_step : rtc (tx_step (fun _ => true)) (tx_begin sample_volume).2 sample_busy.
Proof. apply rtc_once, step_op, step_data; lia. Qed.

Lemma transaction_rolls_back_witness :
  bitmap sample_done = [0xfd; 0xff; 0xfe] /\ bitmap (tx_abort (fun _ => true) sample_done) = bitmap sample_volume.
Proof.
  split; [vm_compute; reflexivity |].
  refine (proj1 (proj2 (transaction_rolls_back (fun _ => true) sample_volume (tx_begin sample_volume).2 sample_done
    sample_ok _ _ _ _ _))); [vm_compute; reflexivity.. | exact sample_starts |].
  transitivity sample_busy; [exact sample_busy_step |]; apply rtc_l with sample_op; [apply step_begin, sample_begins |].
  pose proof sample_op_steps as H; induction H as [| x y z Hs _ IH]; [apply rtc_refl | apply rtc_l with y; [apply step_op, Hs | exact IH]].
Defined.

Lemma operation_rolls_back_witness :
  tx_deferred (tx sample_done) = [Extent 2 5] /\ restored sample_busy (tx_operation_abort (fun _ => true) sample_done).
Proof.
  split; [vm_compute; reflexivity |].
  apply (operation_rolls_back (fun _ => true) sample_volume (tx_begin sample_volume).2 sample_busy sample_op sample_done
    sample_ok); [vm_compute; reflexivity.. | exact sample_starts | exact sample_busy_step | exact sample_begins | exact sample_op_steps].
Defined.

End Sample.
End TxStepsFacts.
