(* ===== verification/AllocationMap.v ===== *)
(** The allocation map on the medium, [src/src/volume/allocation-map.inc]: a tree
    of pages whose leaves hold the bitmap.  Loading reads and checks the whole tree;
    publishing writes the pages a transaction changed to new blocks, together with
    the pages whose own blocks that frees, and the branches above them.

    An operation of a volume that may fail is an [act]; [goto fail] and [goto out]
    are the failure of the bind.  [reserves] answers the requests for memory, as in
    [Allocator.v], and [grown] is the capacity an array has after it was asked to
    hold some number of entries.  The cached layout of the committed tree is an
    argument of the operations that use it.  [size_t] has 64 bits. *)

From stdpp Require Import prelude sorting.
From S2P Require Import Prelude Endian Checksum Format Storage Objects Locator FormatVolume Allocator.
#[local] Open Scope Z_scope.

(** * Definitions *)

Module AllocationMap.
Import Storage Objects Locator FormatVolume Allocator.

(** ** Actions *)

Definition act (C K X : Type) : Type := infs_volume C K -> result X * infs_volume C K.

#[global] Instance act_ret {C K} : MRet (act C K) := fun X x v => (Good x, v).

#[global] Instance act_bind {C K} : MBind (act C K) := fun X Y k m v =>
  let '(r, v) := m v in
  match r with Good x => k x v | Bad e => (Bad e, v) end.

Definition fail {C K X} (e : infs_status) : act C K X := fun v => (Bad e, v).

(** [if (condition) { status = e; goto fail; }]. *)
Definition guard_with {C K} (e : infs_status) (bad : bool) : act C K unit :=
  if bad then fail e else mret tt.

(** A call that returns a status. *)
Definition status_act {C K} (call : infs_volume C K -> infs_status * infs_volume C K) : act C K unit := fun v =>
  let '(e, v) := call v in (if decide (e = OK) then Good tt else Bad e, v).

(** A call that returns a result. *)
Definition run {C K X} (call : infs_volume C K -> result X * infs_volume C K) : act C K X := call.

Definition lift {C K X} (r : result X) : act C K X := fun v => (r, v).
Definition get {C K} : act C K (infs_volume C K) := fun v => (Good v, v).
Definition put {C K} (v : infs_volume C K) : act C K unit := fun _ => (Good tt, v).

(** A loop that carries a value. *)
Fixpoint fold_each {C K S} (indices : list Z) (body : Z -> S -> act C K S) (s : S) : act C K S :=
  match indices with
  | [] => mret s
  | i :: rest => s ← body i s; fold_each rest body s
  end.

(** ** Layouts *)

Record infs_allocation_layout := Layout {
  leaf_blocks : list Z; branch_blocks : list Z;
  leaf_count : Z; branch_count : Z; level1_count : Z; level2_count : Z
}.

Section Map.
Context {E : Endian} {A : CheckedArithmetic} {C K : Type}.
Context (reserves : nat -> bool) (grown : Z -> Z).

(** Entry [i] of an array of block numbers. *)
Definition entry (l : list Z) (i : Z) : Z := l !!! Z.to_nat i.

(** The fields of the superblock the map uses. *)
Definition allocation_root (sb : list Z) : Z := le64_at 44 sb.
Definition allocation_leaves (sb : list Z) : Z := le64_at 52 sb.
Definition object_index (sb : list Z) : Z := le64_at 60 sb.
Definition root_object (sb : list Z) : Z := le64_at 68 sb.

Definition allocation_map_counts (total : Z) : result (Z * Z * Z * Z) :=
  if (total =? 0) || (total >? INFS_ALLOCATION_TREE_MAX_BLOCKS) then Bad NOT_SUPPORTED
  else
    let leaves := div_up total INFS_ALLOCATION_BITS_PER_LEAF in
    let level1 := div_up leaves INFS_ALLOCATION_TREE_FANOUT in
    let level2 := div_up level1 INFS_ALLOCATION_TREE_FANOUT in
    let branches := u64 (1 + level1 + level2) in
    if (leaves =? 0) || (level1 =? 0) || (level2 =? 0) || (leaves >? SIZE_MAX) ||
       (level1 >? SIZE_MAX) || (level2 >? SIZE_MAX) || (branches >? SIZE_MAX)
    then Bad OVERFLOW
    else Good (leaves, level1, level2, branches).

(** The cached layout of a volume: none, or the committed one. *)
Definition allocation_map_cache_destroy (cache : option infs_allocation_layout) : option infs_allocation_layout := None.

Definition allocation_map_cache_replace (cache : option infs_allocation_layout) (l : infs_allocation_layout)
    : option infs_allocation_layout := Some l.

Definition allocation_map_cache_view (cache : option infs_allocation_layout) (sb : list Z)
    : result infs_allocation_layout :=
  counts ← allocation_map_counts (sb_total_blocks sb);
  let '(leaves, level1, level2, branches) := counts in
  match cache with
  | None => Bad CORRUPT
  | Some l =>
      if negb (leaf_count l =? leaves) || negb (branch_count l =? branches) ||
         negb (level1_count l =? level1) || negb (level2_count l =? level2) ||
         negb (allocation_leaves sb =? leaves) || negb (entry (branch_blocks l) 0 =? allocation_root sb)
      then Bad CORRUPT
      else Good l
  end.

Definition allocation_map_runtime_bytes (total : Z) : result Z :=
  match infiltratr_u64_add_checked total 7 with
  | None => Bad INVALID_ARGUMENT
  | Some rounded_bits =>
      let raw := rounded_bits / 8 in
      let rem := raw mod block_size in
      match (if rem =? 0 then Some raw else infiltratr_u64_add_checked raw (block_size - rem)) with
      | None => Bad OVERFLOW
      | Some rounded => if (rounded =? 0) || (rounded >? SIZE_MAX) then Bad OVERFLOW else Good rounded
      end
  end.

(** ** Loading *)

Definition allocation_map_read_page (block_no : Z) (magic : list Z)
    (generation logical_index level expected_entries : Z) : act C K (list Z) :=
  v ← get;
  _ ← guard_with CORRUPT ((block_no =? 0) || (block_no >=? total_blocks v));
  block ← run (fun v => read_block v block_no);
  _ ← guard_with CORRUPT (negb (infs_validate_allocation_page block magic generation logical_index level));
  _ ← guard_with CORRUPT (negb (ap_entry_count block =? expected_entries));
  mret block.

(** The [k]-th pointer of a branch page. *)
Definition page_pointer (page : list Z) (k : Z) : Z := le64_at (apage_size + 8 * Z.to_nat k) page.

(** What the loops have filled in, and the buffer [page] they all read into.  The
    pointers of a page of level 2 and of level 1 are copied out of it first; those of
    the root, [root_children], are read in it, whatever it holds by then. *)
Record progress := Progress {
  pr_bitmap : list Z; pr_leaves : list Z; pr_branches : list Z; global_level1 : Z; global_leaf : Z; pr_page : list Z
}.

(** A request for memory. *)
Definition memory : act C K unit := fun v =>
  let '(ok, v) := array_reserve reserves v in (if ok : bool then Good tt else Bad NO_MEMORY, v).

Section Load.
Context (total generation leaves level1 level2 branches : Z) (bitmap_bytes : option Z).

Definition load_leaf (leaf_children : list Z) (k : Z) (s : progress) : act C K progress :=
  let leaf_block := page_pointer leaf_children k in
  let first_bit := u64 (global_leaf s * INFS_ALLOCATION_BITS_PER_LEAF) in
  let valid_bits := at_most INFS_ALLOCATION_BITS_PER_LEAF (u64 (total - first_bit)) in
  let leaf_slots := <[Z.to_nat (global_leaf s) := leaf_block]> (pr_leaves s) in
  leaf ← allocation_map_read_page leaf_block INFS_ALLOCATION_LEAF_PAGE_MAGIC generation (global_leaf s) 0 valid_bits;
  bitmap ← (match bitmap_bytes with
            | None => mret (pr_bitmap s)
            | Some size =>
                let bytes := ap_bytes_used leaf in
                let offset := u64 (global_leaf s * INFS_ALLOCATION_PAGE_DATA_SIZE) in
                _ ← guard_with CORRUPT ((offset >? size) || (bytes >? size - offset));
                mret (splice (Z.to_nat offset) (slice apage_size (Z.to_nat bytes) leaf) (pr_bitmap s))
            end);
  mret (Progress bitmap leaf_slots (pr_branches s) (global_level1 s) (global_leaf s + 1) leaf).

Definition load_level1 (l1_children : list Z) (j : Z) (s : progress) : act C K progress :=
  let l1_block := page_pointer l1_children j in
  let l1_entries := at_most INFS_ALLOCATION_TREE_FANOUT (u64 (leaves - global_leaf s)) in
  let l1_slot := u64 (1 + level2 + global_level1 s) in
  _ ← guard_with CORRUPT (l1_slot >=? branches);
  let slots := <[Z.to_nat l1_slot := l1_block]> (pr_branches s) in
  l1 ← allocation_map_read_page l1_block INFS_ALLOCATION_BRANCH_PAGE_MAGIC generation (global_level1 s) 1 l1_entries;
  s ← fold_each (range 0 l1_entries) (load_leaf l1)
        (Progress (pr_bitmap s) (pr_leaves s) slots (global_level1 s) (global_leaf s) l1);
  mret (Progress (pr_bitmap s) (pr_leaves s) (pr_branches s) (global_level1 s + 1) (global_leaf s) (pr_page s)).

Definition load_level2 (i : Z) (s : progress) : act C K progress :=
  let l2_block := page_pointer (pr_page s) i in
  let l2_entries := at_most INFS_ALLOCATION_TREE_FANOUT (u64 (level1 - global_level1 s)) in
  let l2_slot := u64 (1 + i) in
  _ ← guard_with CORRUPT (l2_slot >=? branches);
  let slots := <[Z.to_nat l2_slot := l2_block]> (pr_branches s) in
  l2 ← allocation_map_read_page l2_block INFS_ALLOCATION_BRANCH_PAGE_MAGIC generation i 2 l2_entries;
  fold_each (range 0 l2_entries) (load_level1 l2)
    (Progress (pr_bitmap s) (pr_leaves s) slots (global_level1 s) (global_leaf s) l2).

End Load.

(** [qsort] with [allocation_map_u64_compare]. *)
Definition sort_pages (pages : list Z) : list Z := merge_sort Z.le pages.

(** One page of the sorted list; [previous] is the one before it. *)
Definition page_refused (sb : list Z) (total : Z) (previous : option Z) (page : Z) : bool :=
  (page =? 0) || (page >=? total) || bool_decide (previous = Some page) ||
  existsb (fun c => page =? sb_checkpoint_block sb c) (seq 0 INFS_CHECKPOINT_COUNT) ||
  ((sb_format_minor sb =? INFS_LOCATOR_FORMAT_MINOR) &&
   ((page =? INFS_LOCATOR_BLOCK_A) || (page =? INFS_LOCATOR_BLOCK_B))).

Fixpoint pages_refused (sb : list Z) (total : Z) (previous : option Z) (pages : list Z) : bool :=
  match pages with
  | [] => false
  | page :: rest => page_refused sb total previous page || pages_refused sb total (Some page) rest
  end.

(** The bits after the last block are in use. *)
Definition seal_tail (bitmap : list Z) (total : Z) : list Z :=
  fold_left (fun bm bit => bitmap_set bm bit true)
    (range total (u64 (Z.of_nat (length bitmap) * 8))) bitmap.

(** The checks of a loaded bitmap. *)
Definition bitmap_refused (sb : list Z) (total : Z) (bitmap : list Z) (leaf_blocks branch_blocks : list Z) : bool :=
  negb (bitmap_count_free bitmap total =? sb_free_blocks sb) ||
  existsb (fun b => negb (bitmap_get bitmap b)) leaf_blocks ||
  existsb (fun b => negb (bitmap_get bitmap b)) branch_blocks ||
  existsb (fun b => (b >=? total) || negb (bitmap_get bitmap b))
    (map (sb_checkpoint_block sb) (seq 0 INFS_CHECKPOINT_COUNT) ++ [object_index sb; root_object sb]) ||
  ((sb_format_minor sb =? INFS_LOCATOR_FORMAT_MINOR) &&
   (negb (bitmap_get bitmap INFS_LOCATOR_BLOCK_A) || negb (bitmap_get bitmap INFS_LOCATOR_BLOCK_B))).

(** The pages of the tree, once the loops are done. *)
Definition check_pages (sb : list Z) (total leaves branches : Z) (s : progress) : act C K unit :=
  match infiltratr_size_add_checked leaves branches with
  | None => fail OVERFLOW
  | Some page_count =>
      match infiltratr_size_multiply_checked page_count 8 with
      | None => fail OVERFLOW
      | Some _ =>
          _ ← memory;
          guard_with CORRUPT (pages_refused sb total None (sort_pages (pr_leaves s ++ pr_branches s)))
      end
  end.

(** [want_bitmap] is whether the caller asked for the bitmap. *)
Definition allocation_map_load (sb : list Z) (want_bitmap : bool)
    : act C K (list Z * infs_allocation_layout) :=
  let total := sb_total_blocks sb in
  let generation := sb_generation sb in
  let root := allocation_root sb in
  counts ← lift (allocation_map_counts total);
  let '(leaves, level1, level2, branches) := counts in
  _ ← guard_with CORRUPT
        (((sb_incompat_flags sb .& INFS_INCOMPAT_ALLOCATION_TREE) =? 0) ||
         negb (allocation_leaves sb =? leaves) || (root =? 0) || (root >=? total) || (generation =? 0));
  match infiltratr_size_multiply_checked leaves 8, infiltratr_size_multiply_checked branches 8 with
  | Some _, Some _ =>
      _ ← run (fun v => let '(ok1, v) := array_reserve reserves v in
                    let '(ok2, v) := array_reserve reserves v in
                    (if ok1 && ok2 then Good tt else Bad NO_MEMORY, v));
      bitmap_bytes ← (if want_bitmap
                      then size ← lift (allocation_map_runtime_bytes total); _ ← memory; mret (Some size)
                      else mret None);
      page ← allocation_map_read_page root INFS_ALLOCATION_BRANCH_PAGE_MAGIC generation 0
               INFS_ALLOCATION_TREE_ROOT_LEVEL (u32 level2);
      let start := Progress (replicate (Z.to_nat (default 0 bitmap_bytes)) 0) (replicate (Z.to_nat leaves) 0)
                     (<[0%nat := root]> (replicate (Z.to_nat branches) 0)) 0 0 page in
      s ← fold_each (range 0 level2) (load_level2 total generation leaves level1 level2 branches bitmap_bytes) start;
      _ ← guard_with CORRUPT (negb (global_level1 s =? level1) || negb (global_leaf s =? leaves));
      _ ← check_pages sb total leaves branches s;
      let layout := Layout (pr_leaves s) (pr_branches s) leaves branches level1 level2 in
      if want_bitmap then
        let bitmap := seal_tail (pr_bitmap s) total in
        _ ← guard_with CORRUPT (bitmap_refused sb total bitmap (pr_leaves s) (pr_branches s));
        mret (bitmap, layout)
      else mret ([], layout)
  | _, _ => fail OVERFLOW
  end.

(** ** Dirty pages *)

Definition allocation_map_leaf_index (block : Z) : Z := block / INFS_ALLOCATION_BITS_PER_LEAF.

Definition is_dirty (dirty : list bool) (i : Z) : bool := dirty !!! Z.to_nat i.
Definition mark (dirty : list bool) (i : Z) : list bool := <[Z.to_nat i := true]> dirty.

Definition allocation_map_mark_dirty_range (leaf_count total start count : Z) (dirty : list bool) : list bool :=
  if (count =? 0) || (start >=? total) then dirty
  else
    let last := u64 (start + count) in
    let last := if (last <? start) || (last >? total) then total else last in
    let first := allocation_map_leaf_index start in
    let final := allocation_map_leaf_index (last - 1) in
    if first >=? leaf_count then dirty
    else
      let final := if final >=? leaf_count then leaf_count - 1 else final in
      fold_left mark (range first (final + 1)) dirty.

Definition allocation_map_mark_tx_changes (v : infs_volume C K) (leaf_count : Z) (dirty : list bool) : list bool :=
  let mark_all := fold_left (fun dirty e =>
    allocation_map_mark_dirty_range leaf_count (total_blocks v) (start e) (count e) dirty) in
  mark_all (tx_deferred (tx v)) (mark_all (tx_allocated (tx v)) dirty).

(** The dirty leaves, pages of level 1 and pages of level 2, and whether a pass changed them. *)
Record dirty_set := Dirty { dirty_leaves : list bool; dirty_level1 : list bool; dirty_level2 : list bool; changed : bool }.

Definition touch_leaf (s : dirty_set) (i : Z) : dirty_set :=
  if is_dirty (dirty_leaves s) i then s
  else Dirty (mark (dirty_leaves s) i) (dirty_level1 s) (dirty_level2 s) true.
Definition touch_level1 (s : dirty_set) (i : Z) : dirty_set :=
  if is_dirty (dirty_level1 s) i then s
  else Dirty (dirty_leaves s) (mark (dirty_level1 s) i) (dirty_level2 s) true.
Definition touch_level2 (s : dirty_set) (i : Z) : dirty_set :=
  if is_dirty (dirty_level2 s) i then s
  else Dirty (dirty_leaves s) (dirty_level1 s) (mark (dirty_level2 s) i) true.

(** The leaf that holds the bit of [block] is dirty. *)
Definition touch_owner (old : infs_allocation_layout) (total block : Z) (s : dirty_set) : dirty_set :=
  if block >=? total then s
  else
    let owner := allocation_map_leaf_index block in
    if owner <? leaf_count old then touch_leaf s owner else s.

(** One turn of the [do] loop. *)
Definition close_pass (old : infs_allocation_layout) (total : Z) (s : dirty_set) : dirty_set :=
  let s := Dirty (dirty_leaves s) (dirty_level1 s) (dirty_level2 s) false in
  let s := fold_left (fun s i =>
    if is_dirty (dirty_leaves s) i && (i / INFS_ALLOCATION_TREE_FANOUT <? level1_count old)
    then touch_level1 s (i / INFS_ALLOCATION_TREE_FANOUT) else s) (range 0 (leaf_count old)) s in
  let s := fold_left (fun s i =>
    if is_dirty (dirty_level1 s) i && (i / INFS_ALLOCATION_TREE_FANOUT <? level2_count old)
    then touch_level2 s (i / INFS_ALLOCATION_TREE_FANOUT) else s) (range 0 (level1_count old)) s in
  let s := touch_owner old total (entry (branch_blocks old) 0) s in
  let s := fold_left (fun s i =>
    if is_dirty (dirty_level2 s) i then touch_owner old total (entry (branch_blocks old) (1 + i)) s else s)
    (range 0 (level2_count old)) s in
  let s := fold_left (fun s i =>
    if is_dirty (dirty_level1 s) i
    then touch_owner old total (entry (branch_blocks old) (1 + level2_count old + i)) s else s)
    (range 0 (level1_count old)) s in
  fold_left (fun s i =>
    if is_dirty (dirty_leaves s) i then touch_owner old total (entry (leaf_blocks old) i) s else s)
    (range 0 (leaf_count old)) s.

(** [do { ... } while (changed)]; [None] when [fuel] turns were not enough. *)
Fixpoint close_loop (fuel : nat) (old : infs_allocation_layout) (total : Z) (s : dirty_set) : option dirty_set :=
  match fuel with
  | O => None
  | S fuel' => let s := close_pass old total s in if changed s then close_loop fuel' old total s else Some s
  end.

(** Every turn but the last marks a page. *)
Definition close_fuel (s : dirty_set) : nat :=
  S (length (dirty_leaves s) + length (dirty_level1 s) + length (dirty_level2 s)).

Definition allocation_map_close_dirty_set (old : infs_allocation_layout) (total : Z) (s : dirty_set) : dirty_set :=
  default s (close_loop (close_fuel s) old total s).

Definition allocation_map_dirty_count (dirty : list bool) : Z :=
  fold_left (fun n d => u64 (n + (if d : bool then 1 else 0))) dirty 0.

(** The pages to write: the dirty ones and the root. *)
Definition pages_needed (s : dirty_set) : option Z :=
  needed ← infiltratr_size_add_checked (allocation_map_dirty_count (dirty_leaves s)) (allocation_map_dirty_count (dirty_level1 s));
  needed ← infiltratr_size_add_checked needed (allocation_map_dirty_count (dirty_level2 s));
  infiltratr_size_add_checked needed 1.

(** ** Publishing *)

Definition allocation_map_write_page (physical : Z) (magic : list Z)
    (generation logical level entries : Z) (payload : list Z) (bytes : Z) : act C K unit :=
  block ← lift (infs_allocation_page_init magic generation logical level);
  let block := splice 28 (store_le32 entries) block in
  let block := splice 32 (store_le32 bytes) block in
  let block := if bytes =? 0 then block else splice apage_size (take (Z.to_nat bytes) payload) block in
  block ← lift (infs_allocation_page_finalize block);
  status_act (fun v => write_block v physical block).

(** The blocks reserved for new pages, and the capacity of their array. *)
Record reservation := Reservation { reserved : list Z; capacity : Z }.

(** One turn of [while (reserved_count < needed)]. *)
Definition reserve_page (r : reservation) : act C K reservation :=
  let reserved_count := Z.of_nat (length (reserved r)) in
  capacity ← (if reserved_count =? capacity r then
                match infiltratr_size_add_checked reserved_count 1 with
                | None => fail OVERFLOW
                | Some required => _ ← memory; mret (grown required)
                end
              else mret (capacity r));
  block ← run (fun v => alloc_exact_run_impl reserves v 1 false);
  mret (Reservation (reserved r ++ [block]) capacity).

Definition reserve_pages (needed : Z) (r : reservation) : act C K reservation :=
  fold_each (range (Z.of_nat (length (reserved r))) needed) (fun _ => reserve_page) r.

(** The [for (;;)] loop: reserve a block for every dirty page until reserving
    makes no further page dirty; [None] when [fuel] turns were not enough. *)
Fixpoint reserve_loop (fuel : nat) (old : infs_allocation_layout) (total : Z) (s : dirty_set) (r : reservation)
    : act C K (option (dirty_set * reservation * Z)) :=
  match fuel with
  | O => mret None
  | S fuel' =>
      match pages_needed s with
      | None => fail OVERFLOW
      | Some needed =>
          _ ← guard_with CORRUPT (needed >? u64 (leaf_count old + branch_count old));
          r ← reserve_pages needed r;
          v ← get;
          let s := Dirty (allocation_map_mark_tx_changes v (leaf_count old) (dirty_leaves s))
                     (dirty_level1 s) (dirty_level2 s) (changed s) in
          let s := allocation_map_close_dirty_set old total s in
          match pages_needed s with
          | None => fail OVERFLOW
          | Some after =>
              if (after =? needed) && (Z.of_nat (length (reserved r)) >=? after)
              then mret (Some (s, r, after))
              else reserve_loop fuel' old total s r
          end
      end
  end.

(** [if (dirty[i]) new[base + i] = reserved[r++]]. *)
Definition assign (dirty : list bool) (blocks : list Z) (base : Z) (reserved : list Z) (i : Z) (s : list Z * Z) : list Z * Z :=
  if is_dirty dirty i then (<[Z.to_nat (base + i) := entry reserved s.2]> s.1, s.2 + 1) else s.

Definition assign_all (dirty : list bool) (count base : Z) (reserved : list Z) (s : list Z * Z) : list Z * Z :=
  fold_left (fun s i => assign dirty s.1 base reserved i s) (range 0 count) s.

(** The new places of the pages, and how many blocks they take. *)
Definition new_places (old : infs_allocation_layout) (s : dirty_set) (reserved : list Z) : list Z * list Z * Z :=
  let '(leaves, r) := assign_all (dirty_leaves s) (leaf_count old) 0 reserved (leaf_blocks old, 0) in
  let branches := <[0%nat := entry reserved r]> (branch_blocks old) in
  let '(branches, r) := assign_all (dirty_level2 s) (level2_count old) 1 reserved (branches, r + 1) in
  let '(branches, r) := assign_all (dirty_level1 s) (level1_count old) (1 + level2_count old) reserved (branches, r) in
  (leaves, branches, r).

(** Defer the old blocks of the pages that are replaced. *)
Definition defer_old (old : infs_allocation_layout) (s : dirty_set) : act C K unit :=
  let defer block := status_act (fun v => tx_defer_range reserves v block 1) in
  let each dirty count base blocks :=
    fold_each (range 0 count) (fun i _ => if is_dirty dirty i then defer (entry blocks (base + i)) else mret tt) tt in
  _ ← defer (entry (branch_blocks old) 0);
  _ ← each (dirty_level2 s) (level2_count old) 1 (branch_blocks old);
  _ ← each (dirty_level1 s) (level1_count old) (1 + level2_count old) (branch_blocks old);
  each (dirty_leaves s) (leaf_count old) 0 (leaf_blocks old).

(** Free a deferred block, unless a snapshot still holds it; [free_blocks] counts. *)
Definition release_block (snapshot_union : list Z) (block : Z) (free_blocks : Z) : act C K Z :=
  v ← get;
  if negb (bitmap_get (bitmap v) block) || bitmap_get snapshot_union block then mret free_blocks
  else
    let v := set_bitmap v (bitmap_set (bitmap v) block false) in
    let v := if free_extent_index_valid v then
               let '(ok, v) := free_extent_index_add reserves v block 1 in
               if ok : bool then v else free_extent_index_invalidate v
             else v in
    _ ← put v;
    _ ← guard_with OVERFLOW (free_blocks =? 2 ^ 64 - 1);
    mret (free_blocks + 1).

(** [for (b = 0; b < count && start + b < total; ++b)]. *)
Fixpoint blocks_below (total : Z) (blocks : list Z) : list Z :=
  match blocks with
  | [] => []
  | block :: rest => if block <? total then block :: blocks_below total rest else []
  end.

Definition release_range (snapshot_union : list Z) (total : Z) (e : extent) (free_blocks : Z) : act C K Z :=
  fold_each (blocks_below total (map (fun b => u64 (start e + b)) (range 0 (count e))))
    (release_block snapshot_union) free_blocks.

Fixpoint release_all (snapshot_union : list Z) (total : Z) (ranges : list extent) (free_blocks : Z) : act C K Z :=
  match ranges with
  | [] => mret free_blocks
  | e :: rest => free_blocks ← release_range snapshot_union total e free_blocks;
                 release_all snapshot_union total rest free_blocks
  end.

(** The superblock of the new map. *)
Definition map_superblock (sb : list Z) (free_blocks root leaves generation : Z) : list Z :=
  let sb := splice 36 (store_le64 free_blocks) sb in
  let sb := splice 44 (store_le64 root) sb in
  let sb := splice 52 (store_le64 leaves) sb in
  splice 20 (store_le64 generation) sb.

Definition publish_leaf (dirty : list bool) (total generation : Z) (new_leaves : list Z) (i : Z) : act C K unit :=
  if negb (is_dirty dirty i) then mret tt
  else
    v ← get;
    let bitmap_bytes := Z.of_nat (length (bitmap v)) in
    let first_bit := u64 (i * INFS_ALLOCATION_BITS_PER_LEAF) in
    let valid_bits := at_most INFS_ALLOCATION_BITS_PER_LEAF (u64 (total - first_bit)) in
    let bytes := u32 (valid_bits + 7) / 8 in
    let offset := u64 (i * INFS_ALLOCATION_PAGE_DATA_SIZE) in
    _ ← guard_with CORRUPT ((offset >? bitmap_bytes) || (bytes >? bitmap_bytes - offset));
    allocation_map_write_page (entry new_leaves i) INFS_ALLOCATION_LEAF_PAGE_MAGIC generation i 0 valid_bits
      (drop (Z.to_nat offset) (bitmap v)) bytes.

(** The pointers of a page to [entries] blocks of a list. *)
Definition pointers_to (blocks : list Z) (first entries : Z) : list Z :=
  concat (map (fun j => store_le64 (entry blocks (first + j))) (range 0 entries)).

(** Page [i] of a branch level over the [children] of which there are [count]. *)
Definition publish_branch (dirty : list bool) (generation level base child_base count : Z)
    (branches children : list Z) (i : Z) : act C K unit :=
  if negb (is_dirty dirty i) then mret tt
  else
    let first := u64 (i * INFS_ALLOCATION_TREE_FANOUT) in
    let entries := at_most INFS_ALLOCATION_TREE_FANOUT (u64 (count - first)) in
    allocation_map_write_page (entry branches (base + i)) INFS_ALLOCATION_BRANCH_PAGE_MAGIC generation i level entries
      (pointers_to children (child_base + first) entries) (u32 (entries * 8)).

(** Write the pages, children before parents. *)
Definition write_pages (old : infs_allocation_layout) (s : dirty_set) (total generation : Z)
    (new_leaves new_branches : list Z) : act C K unit :=
  let level1_base := 1 + level2_count old in
  _ ← fold_each (range 0 (leaf_count old)) (fun i _ => publish_leaf (dirty_leaves s) total generation new_leaves i) tt;
  _ ← fold_each (range 0 (level1_count old)) (fun i _ =>
        publish_branch (dirty_level1 s) generation 1 level1_base 0 (leaf_count old) new_branches new_leaves i) tt;
  _ ← fold_each (range 0 (level2_count old)) (fun i _ =>
        publish_branch (dirty_level2 s) generation 2 1 level1_base (level1_count old) new_branches new_branches i) tt;
  allocation_map_write_page (entry new_branches 0) INFS_ALLOCATION_BRANCH_PAGE_MAGIC generation 0
    INFS_ALLOCATION_TREE_ROOT_LEVEL (u32 (level2_count old))
    (pointers_to new_branches 1 (u32 (level2_count old))) (u32 (u32 (level2_count old) * 8)).

(** The loop of reservations marks a page in every turn but the last. *)
Definition reserve_fuel (old : infs_allocation_layout) : nat :=
  S (Z.to_nat (leaf_count old + level1_count old + level2_count old)).

(** The bitmap the publication leaves: deferred blocks free, checkpoints and the tail in use. *)
Definition settle_bitmap (total : Z) : act C K unit := fun v =>
  let bm := fold_left (fun bm i => bitmap_set bm (sb_checkpoint_block (sb v) i) true) (seq 0 INFS_CHECKPOINT_COUNT) (bitmap v) in
  (Good tt, set_bitmap v (seal_tail bm total)).

(** [snapshot_union_bitmap] is the union of the bitmaps the snapshots hold. *)
Definition allocation_map_publish (cache : option infs_allocation_layout) (snapshot_union_bitmap : act C K (list Z))
    (generation : Z) : act C K infs_allocation_layout :=
  v ← get;
  _ ← guard_with INVALID_ARGUMENT (negb (tx_active (tx v)) || (generation =? 0));
  old ← lift (allocation_map_cache_view cache (tx_base_sb (tx v)));
  let total := total_blocks v in
  _ ← run (fun v => let '(ok1, v) := array_reserve reserves v in
                let '(ok2, v) := array_reserve reserves v in
                let '(ok3, v) := array_reserve reserves v in
                (if ok1 && ok2 && ok3 then Good tt else Bad NO_MEMORY, v));
  v ← get;
  let s := Dirty (replicate (Z.to_nat (leaf_count old)) false) (replicate (Z.to_nat (level1_count old)) false)
             (replicate (Z.to_nat (level2_count old)) false) false in
  let s := Dirty (allocation_map_mark_tx_changes v (leaf_count old) (dirty_leaves s)) (dirty_level1 s) (dirty_level2 s) false in
  let s := allocation_map_close_dirty_set old total s in
  loop ← reserve_loop (reserve_fuel old) old total s (Reservation [] 0);
  match loop with
  | None => fail CORRUPT
  | Some (s, r, needed) =>
      match infiltratr_size_multiply_checked (leaf_count old) 8, infiltratr_size_multiply_checked (branch_count old) 8 with
      | Some _, Some _ =>
          _ ← run (fun v => let '(ok1, v) := array_reserve reserves v in
                        let '(ok2, v) := array_reserve reserves v in
                        (if ok1 && ok2 then Good tt else Bad NO_MEMORY, v));
          let '(new_leaves, new_branches, used) := new_places old s (reserved r) in
          _ ← guard_with CORRUPT (negb (used =? needed) || (used >? Z.of_nat (length (reserved r))));
          _ ← defer_old old s;
          snapshot_union ← snapshot_union_bitmap;
          v ← get;
          free ← release_all snapshot_union total (tx_deferred (tx v)) (free_blocks v);
          _ ← settle_bitmap total;
          v ← get;
          _ ← put (set_sb v (map_superblock (sb v) free (entry new_branches 0) (leaf_count old) generation));
          _ ← write_pages old s total generation new_leaves new_branches;
          mret (Layout new_leaves new_branches (leaf_count old) (branch_count old) (level1_count old) (level2_count old))
      | _, _ => fail OVERFLOW
      end
  end.

End Map.
End AllocationMap.
