(* ===== verification/DirtySet.v ===== *)
(** The pages a publication has to write ([AllocationMap.v]): the loop that closes
    the dirty set terminates, and its result is the least set that holds the pages
    given and is closed under the dependencies between pages. *)

From Stdlib Require Import ZifyBool.
From stdpp Require Import prelude.
From S2P Require Import Prelude Endian Checksum Format Storage Objects Locator FormatVolume FormatPlan Allocator AllocationMap.
#[local] Open Scope Z_scope.

Module DirtySetFacts.
Import Storage Objects Locator FormatVolume Allocator AllocationMap.

(** ** Pages and rules *)

Inductive node := Leaf (i : Z) | Level1 (i : Z) | Level2 (i : Z).

#[global] Instance node_eq_dec : EqDecision node.
Proof. solve_decision. Defined.

Definition dirty_node (s : dirty_set) (n : node) : bool :=
  match n with
  | Leaf i => is_dirty (dirty_leaves s) i
  | Level1 i => is_dirty (dirty_level1 s) i
  | Level2 i => is_dirty (dirty_level2 s) i
  end.

Definition touch (s : dirty_set) (n : node) : dirty_set :=
  match n with Leaf i => touch_leaf s i | Level1 i => touch_level1 s i | Level2 i => touch_level2 s i end.

(** A page that makes another one dirty; [None] for what holds in any case. *)
Definition rule : Type := option node * node.

Definition premise (s : dirty_set) (r : rule) : bool :=
  match r.1 with None => true | Some n => dirty_node s n end.

Definition apply_rule (s : dirty_set) (r : rule) : dirty_set := if premise s r then touch s r.2 else s.

Section Rules.
Context (old : infs_allocation_layout) (total : Z).

Definition owner_rules (p : option node) (block : Z) : list rule :=
  if block >=? total then []
  else if allocation_map_leaf_index block <? leaf_count old then [(p, Leaf (allocation_map_leaf_index block))] else [].

(** The dependencies, in the order of a pass. *)
Definition rules : list rule :=
  flat_map (fun i => if i / INFS_ALLOCATION_TREE_FANOUT <? level1_count old
                     then [(Some (Leaf i), Level1 (i / INFS_ALLOCATION_TREE_FANOUT))] else []) (range 0 (leaf_count old)) ++
  flat_map (fun i => if i / INFS_ALLOCATION_TREE_FANOUT <? level2_count old
                     then [(Some (Level1 i), Level2 (i / INFS_ALLOCATION_TREE_FANOUT))] else []) (range 0 (level1_count old)) ++
  owner_rules None (entry (branch_blocks old) 0) ++
  flat_map (fun i => owner_rules (Some (Level2 i)) (entry (branch_blocks old) (1 + i))) (range 0 (level2_count old)) ++
  flat_map (fun i => owner_rules (Some (Level1 i)) (entry (branch_blocks old) (1 + level2_count old + i)))
    (range 0 (level1_count old)) ++
  flat_map (fun i => owner_rules (Some (Leaf i)) (entry (leaf_blocks old) i)) (range 0 (leaf_count old)).

Definition pass_rules (s : dirty_set) : dirty_set :=
  fold_left apply_rule rules (Dirty (dirty_leaves s) (dirty_level1 s) (dirty_level2 s) false).

Lemma fold_rules (f : dirty_set -> Z -> dirty_set) (g : Z -> list rule) l s :
  (forall s i, f s i = fold_left apply_rule (g i) s) -> fold_left f l s = fold_left apply_rule (flat_map g l) s.
Proof.
  intros Hf; revert s; induction l as [| i l IH]; intros s; [reflexivity |].
  cbn [fold_left flat_map]; rewrite fold_left_app, Hf; apply IH.
Qed.

Lemma owner_rules_eq p block s :
  fold_left apply_rule (owner_rules p block) s =
  if premise s (p, Leaf 0) then touch_owner old total block s else s.
Proof.
  unfold owner_rules, touch_owner; destruct (block >=? total); [destruct (premise _ _); reflexivity |].
  destruct (_ <? leaf_count old); [| destruct (premise _ _); reflexivity]; reflexivity.
Qed.

(** A pass of the code follows the rules. *)
Lemma close_pass_rules s : close_pass old total s = pass_rules s.
Proof.
  unfold close_pass, pass_rules, rules; rewrite !fold_left_app.
  rewrite (fold_rules _ (fun i => owner_rules (Some (Leaf i)) (entry (leaf_blocks old) i)))
    by (intros s' i; rewrite owner_rules_eq; reflexivity); f_equal.
  rewrite (fold_rules _ (fun i => owner_rules (Some (Level1 i)) (entry (branch_blocks old) (1 + level2_count old + i))))
    by (intros s' i; rewrite owner_rules_eq; reflexivity); f_equal.
  rewrite (fold_rules _ (fun i => owner_rules (Some (Level2 i)) (entry (branch_blocks old) (1 + i))))
    by (intros s' i; rewrite owner_rules_eq; reflexivity); f_equal.
  rewrite owner_rules_eq; cbn [premise fst]; f_equal.
  rewrite (fold_rules _ (fun i => if i / INFS_ALLOCATION_TREE_FANOUT <? level2_count old
    then [(Some (Level1 i), Level2 (i / INFS_ALLOCATION_TREE_FANOUT))] else [])).
  2: { intros s' i; destruct (_ <? level2_count old); rewrite ?andb_true_r, ?andb_false_r; reflexivity. }
  f_equal; apply fold_rules.
  intros s' i; destruct (_ <? level1_count old); rewrite ?andb_true_r, ?andb_false_r; reflexivity.
Qed.

(** ** Marks *)

Definition node_ok (n : node) : Prop :=
  match n with
  | Leaf i => 0 <= i < leaf_count old
  | Level1 i => 0 <= i < level1_count old
  | Level2 i => 0 <= i < level2_count old
  end.

Record sized (s : dirty_set) : Prop := {
  sd_leaves : length (dirty_leaves s) = Z.to_nat (leaf_count old);
  sd_level1 : length (dirty_level1 s) = Z.to_nat (level1_count old);
  sd_level2 : length (dirty_level2 s) = Z.to_nat (level2_count old)
}.

Definition below (s t : dirty_set) : Prop := forall n, node_ok n -> dirty_node s n = true -> dirty_node t n = true.

Definition closed_under (rs : list rule) (t : dirty_set) : Prop :=
  forall r, In r rs -> premise t r = true -> dirty_node t r.2 = true.

Definition trues (l : list bool) : nat := length (List.filter id l).
Definition marks (s : dirty_set) : nat := trues (dirty_leaves s) + trues (dirty_level1 s) + trues (dirty_level2 s).

Lemma trues_insert (l : list bool) i : l !! i = Some false -> trues (<[i := true]> l) = S (trues l).
Proof.
  revert i; induction l as [| b l IH]; intros [| i] H; cbn in H; try discriminate.
  - injection H as ->; reflexivity.
  - unfold trues in *; cbn; destruct b; cbn; rewrite IH by exact H; reflexivity.
Qed.

Lemma trues_bound l : (trues l <= length l)%nat.
Proof. apply List.filter_length_le. Qed.

Lemma is_dirty_mark l i j :
  0 <= i -> 0 <= j -> (Z.to_nat i < length l)%nat -> is_dirty (mark l i) j = (i =? j) || is_dirty l j.
Proof.
  intros Hi Hj Hl; unfold is_dirty, mark; destruct (Z.eqb_spec i j) as [-> | Hne].
  - rewrite list_lookup_total_insert_eq by exact Hl; reflexivity.
  - rewrite list_lookup_total_insert_ne by lia; reflexivity.
Qed.

Lemma mark_trues l i : (Z.to_nat i < length l)%nat -> is_dirty l i = false -> trues (mark l i) = S (trues l).
Proof.
  intros Hl Hd; apply trues_insert; unfold is_dirty in Hd; rewrite <- Hd; apply list_lookup_lookup_total_lt, Hl.
Qed.

Lemma touch_clean s n :
  sized s -> node_ok n -> dirty_node s n = false ->
  sized (touch s n) /\ marks (touch s n) = S (marks s) /\ changed (touch s n) = true /\
  forall m, node_ok m -> dirty_node (touch s n) m = bool_decide (m = n) || dirty_node s m.
Proof.
  intros [S1 S2 S3] Hn Hd; destruct n as [i | i | i]; cbn in Hn, Hd; cbn [touch];
    unfold touch_leaf, touch_level1, touch_level2; rewrite Hd; unfold marks; cbn [dirty_leaves dirty_level1 dirty_level2 changed];
    rewrite mark_trues by (trivial; lia); (split_and!; [split; cbn; unfold mark; rewrite ?length_insert; assumption | lia | reflexivity |]);
    intros [j | j | j] Hm; cbn in Hm; cbn [dirty_node dirty_leaves dirty_level1 dirty_level2];
    try (rewrite bool_decide_false by discriminate; reflexivity);
    rewrite is_dirty_mark by lia; destruct (Z.eqb_spec i j);
    [rewrite bool_decide_true by congruence | rewrite bool_decide_false by congruence | rewrite bool_decide_true by congruence
    | rewrite bool_decide_false by congruence | rewrite bool_decide_true by congruence | rewrite bool_decide_false by congruence]; reflexivity.
Qed.

Lemma touch_dirty s n : dirty_node s n = true -> touch s n = s.
Proof.
  destruct n as [i | i | i]; cbn [dirty_node touch]; unfold touch_leaf, touch_level1, touch_level2; intros ->; reflexivity.
Qed.

(** ** Passes *)

Definition rule_ok (r : rule) : Prop := node_ok r.2 /\ match r.1 with None => True | Some n => node_ok n end.

Lemma premise_below s t r : rule_ok r -> below s t -> premise s r = true -> premise t r = true.
Proof. unfold premise; intros [_ H] Hb; destruct (r.1) as [n |]; [apply Hb, H | trivial]. Qed.

(** What following some rules does. *)
Record followed (rs : list rule) (s s' : dirty_set) : Prop := {
  fw_sized : sized s';
  fw_below : below s s';
  fw_marks : (marks s <= marks s')%nat;
  fw_kept : changed s = true -> changed s' = true;
  fw_more : changed s' = true -> changed s = true \/ (marks s < marks s')%nat;
  fw_still : changed s' = false -> s' = s /\ closed_under rs s;
  fw_least : forall t, below s t -> closed_under rs t -> below s' t
}.

Lemma apply_followed s r : sized s -> rule_ok r -> followed [r] s (apply_rule s r).
Proof.
  intros Hs Hr; pose proof Hr as [Hn _]; unfold apply_rule; destruct (premise s r) eqn:Ep; [destruct (dirty_node s r.2) eqn:Ed |].
  - rewrite (touch_dirty s _ Ed); split; trivial; [intros n _; trivial | auto |].
    intros Hc; split; [reflexivity |]; intros q [<- | []] _; exact Ed.
  - destruct (touch_clean s r.2 Hs Hn Ed) as (T1 & T2 & T3 & T4); split; trivial.
    + intros n Hn' Hd; rewrite T4, Hd by exact Hn'; apply orb_true_r.
    + lia.
    + intros _; right; lia.
    + rewrite T3; discriminate.
    + intros t Ht Hc n Hn' Hd; rewrite T4 in Hd by exact Hn'; apply orb_true_iff in Hd as [Hd | Hd]; [| apply Ht; assumption].
      apply bool_decide_eq_true in Hd; subst n; apply Hc; [left; reflexivity | apply (premise_below s); assumption].
  - split; trivial; [intros n _; trivial | auto |].
    intros Hc; split; [reflexivity |]; intros q [<- | []] Hq; congruence.
Qed.

Lemma fold_followed rs s : sized s -> Forall rule_ok rs -> followed rs s (fold_left apply_rule rs s).
Proof.
  intros Hs Hrs; revert s Hs; induction Hrs as [| r rs Hr Hrs IH]; intros s Hs; cbn [fold_left].
  { split; trivial; [intros n _; trivial | auto |]; intros _; split; [reflexivity | intros q []]. }
  destruct (apply_followed s r Hs Hr) as [A1 A2 A3 A4 A5 A6 A7]; destruct (IH _ A1) as [B1 B2 B3 B4 B5 B6 B7]; split; trivial.
  - intros n Hn Hd; apply B2, A2; assumption.
  - lia.
  - auto.
  - intros Hc; destruct (B5 Hc) as [Hc1 | ?]; [destruct (A5 Hc1); [left; assumption | right; lia] | right; lia].
  - intros Hc; destruct (B6 Hc) as [-> Hcl]; rewrite <- (proj1 (B6 Hc)) in Hcl.
    destruct (changed (apply_rule s r)) eqn:E1; [rewrite B4 in Hc by reflexivity; discriminate |].
    destruct (A6 eq_refl) as [He Hcr]; split; [exact He |]; intros q [<- | Hq] Hp; [apply Hcr; [left; reflexivity | exact Hp] |].
    rewrite <- He; rewrite (proj1 (B6 Hc)) in Hcl; apply Hcl; [exact Hq | rewrite He; exact Hp].
  - intros t Ht Hc; apply B7; [apply A7; trivial |]; intros q Hq; apply Hc; cbn in *; tauto.
Qed.

(** ** The loop *)

Hypothesis Hcounts : 0 <= leaf_count old /\ 0 <= level1_count old /\ 0 <= level2_count old.
Hypothesis Hleaf_blocks : forall i, 0 <= i < leaf_count old -> 0 <= entry (leaf_blocks old) i.
Hypothesis Hbranch_blocks : forall i, 0 <= i < 1 + level2_count old + level1_count old -> 0 <= entry (branch_blocks old) i.

Lemma owner_rules_ok p block : 0 <= block -> match p with None => True | Some n => node_ok n end -> Forall rule_ok (owner_rules p block).
Proof.
  intros Hb Hp; unfold owner_rules, allocation_map_leaf_index; destruct (block >=? total); [constructor |].
  destruct (Z.ltb_spec (block / INFS_ALLOCATION_BITS_PER_LEAF) (leaf_count old)); repeat constructor; cbn; trivial.
  apply Z.div_pos; [exact Hb | reflexivity].
Qed.

Lemma flat_map_ok (g : Z -> list rule) n : (forall i, 0 <= i < n -> Forall rule_ok (g i)) -> Forall rule_ok (flat_map g (range 0 n)).
Proof.
  intros Hg; apply Forall_forall; intros r Hr; apply list_elem_of_In, in_flat_map in Hr as (i & Hi & Hr).
  apply list_elem_of_In, elem_of_seqZ in Hi; specialize (Hg i ltac:(lia)); rewrite Forall_forall in Hg; apply Hg, list_elem_of_In, Hr.
Qed.

Lemma rules_ok : Forall rule_ok rules.
Proof.
  assert (Hdiv : forall i, 0 <= i -> 0 <= i / INFS_ALLOCATION_TREE_FANOUT) by (intros; apply Z.div_pos; [assumption | reflexivity]).
  unfold rules; rewrite !Forall_app; split_and!; try (apply flat_map_ok; intros i Hi).
  - destruct (Z.ltb_spec (i / INFS_ALLOCATION_TREE_FANOUT) (level1_count old)); repeat constructor; cbn; try lia; apply Hdiv; lia.
  - destruct (Z.ltb_spec (i / INFS_ALLOCATION_TREE_FANOUT) (level2_count old)); repeat constructor; cbn; try lia; apply Hdiv; lia.
  - apply owner_rules_ok; [apply Hbranch_blocks; lia | exact I].
  - apply owner_rules_ok; [apply Hbranch_blocks; lia | cbn; lia].
  - apply owner_rules_ok; [apply Hbranch_blocks; lia | cbn; lia].
  - apply owner_rules_ok; [apply Hleaf_blocks; lia | cbn; lia].
Qed.

Definition same_pages (s s' : dirty_set) : Prop :=
  dirty_leaves s' = dirty_leaves s /\ dirty_level1 s' = dirty_level1 s /\ dirty_level2 s' = dirty_level2 s.

Lemma pass_followed s :
  sized s -> followed rules (Dirty (dirty_leaves s) (dirty_level1 s) (dirty_level2 s) false) (close_pass old total s).
Proof. intros [S1 S2 S3]; rewrite close_pass_rules; apply fold_followed; [split; assumption | exact rules_ok]. Qed.

Lemma marks_bound s : sized s -> (marks s <= length (dirty_leaves s) + length (dirty_level1 s) + length (dirty_level2 s))%nat.
Proof.
  intros _; unfold marks; pose proof (trues_bound (dirty_leaves s)); pose proof (trues_bound (dirty_level1 s)).
  pose proof (trues_bound (dirty_level2 s)); lia.
Qed.

Lemma close_loop_ends fuel s :
  sized s -> (Z.to_nat (leaf_count old) + Z.to_nat (level1_count old) + Z.to_nat (level2_count old) < fuel + marks s)%nat ->
  exists s', close_loop fuel old total s = Some s' /\ sized s' /\ below s s' /\ closed_under rules s' /\
    (forall t, below s t -> closed_under rules t -> below s' t).
Proof.
  revert s; induction fuel as [| fuel IH]; intros s Hs Hfuel.
  { pose proof (marks_bound s Hs) as Hb; destruct Hs as [S1 S2 S3]; rewrite S1, S2, S3 in Hb; lia. }
  cbn [close_loop]; destruct (pass_followed s Hs) as [F1 F2 F3 F4 F5 F6 F7]; set (s0 := Dirty _ _ _ false) in *.
  assert (Hsame : forall n, dirty_node s0 n = dirty_node s n) by (intros []; reflexivity).
  assert (Hlow : forall t, below s t <-> below s0 t) by (intros t; split; intros H n Hn Hd; apply H; trivial; rewrite ?Hsame in *; trivial).
  destruct (changed (close_pass old total s)) eqn:Ec.
  - destruct (F5 eq_refl) as [Hf | Hm]; [discriminate |]; change (marks s0) with (marks s) in Hm.
    destruct (IH (close_pass old total s) F1 ltac:(lia)) as (s' & -> & G1 & G2 & G3 & G4).
    exists s'; split_and!; [reflexivity | exact G1 | intros n Hn Hd; apply G2, F2; trivial; rewrite Hsame; exact Hd | exact G3 |].
    intros t Ht Hc; apply G4, Hc; apply F7; [apply Hlow, Ht | exact Hc].
  - destruct (F6 eq_refl) as [He Hcl]; rewrite He; exists s0; split_and!; [reflexivity | split; apply Hs | | exact Hcl |].
    + intros n Hn Hd; rewrite Hsame; exact Hd.
    + intros t Ht _; apply Hlow, Ht.
Qed.

(** ** The dependencies between pages *)

(** The leaf with the bit of [block] is dirty. *)
Definition owned (t : dirty_set) (block : Z) : Prop :=
  block < total -> allocation_map_leaf_index block < leaf_count old ->
  is_dirty (dirty_leaves t) (allocation_map_leaf_index block) = true.

(** A dirty page has its parent dirty, and the leaf that holds the bit of its old
    block; the root is always replaced. *)
Record closed (t : dirty_set) : Prop := {
  cl_leaf : forall i, 0 <= i < leaf_count old -> is_dirty (dirty_leaves t) i = true ->
    i / INFS_ALLOCATION_TREE_FANOUT < level1_count old -> is_dirty (dirty_level1 t) (i / INFS_ALLOCATION_TREE_FANOUT) = true;
  cl_level1 : forall i, 0 <= i < level1_count old -> is_dirty (dirty_level1 t) i = true ->
    i / INFS_ALLOCATION_TREE_FANOUT < level2_count old -> is_dirty (dirty_level2 t) (i / INFS_ALLOCATION_TREE_FANOUT) = true;
  cl_root : owned t (entry (branch_blocks old) 0);
  cl_level2_block : forall i, 0 <= i < level2_count old -> is_dirty (dirty_level2 t) i = true ->
    owned t (entry (branch_blocks old) (1 + i));
  cl_level1_block : forall i, 0 <= i < level1_count old -> is_dirty (dirty_level1 t) i = true ->
    owned t (entry (branch_blocks old) (1 + level2_count old + i));
  cl_leaf_block : forall i, 0 <= i < leaf_count old -> is_dirty (dirty_leaves t) i = true -> owned t (entry (leaf_blocks old) i)
}.

Lemma closed_app rs1 rs2 t : closed_under (rs1 ++ rs2) t <-> closed_under rs1 t /\ closed_under rs2 t.
Proof.
  split; [intros H; split; intros r Hr; apply H, in_app_iff; auto |].
  intros [H1 H2] r Hr; apply in_app_iff in Hr as [Hr | Hr]; auto.
Qed.

Lemma closed_flat_map (g : Z -> list rule) n t :
  closed_under (flat_map g (range 0 n)) t <-> forall i, 0 <= i < n -> closed_under (g i) t.
Proof.
  split.
  - intros H i Hi r Hr; apply H, in_flat_map; exists i; split; [apply list_elem_of_In, elem_of_seqZ; lia | exact Hr].
  - intros H r Hr; apply in_flat_map in Hr as (i & Hi & Hr); apply list_elem_of_In, elem_of_seqZ in Hi; apply (H i); [lia | exact Hr].
Qed.

Lemma closed_one (b : bool) r t : closed_under (if b then [r] else []) t <-> (b = true -> premise t r = true -> dirty_node t r.2 = true).
Proof.
  destruct b; split; intros H.
  - intros _; apply H; left; reflexivity.
  - intros q [<- | []]; auto.
  - discriminate.
  - intros q [].
Qed.

Lemma closed_owner p block t : closed_under (owner_rules p block) t <-> (premise t (p, Leaf 0) = true -> owned t block).
Proof.
  unfold owner_rules, owned; destruct (Z.geb_spec block total); [split; [lia | intros _ r []] |].
  rewrite closed_one; cbn [dirty_node snd]; rewrite Z.ltb_lt; unfold premise; cbn [fst]; tauto.
Qed.

Lemma closed_iff t : closed_under rules t <-> closed t.
Proof.
  unfold rules; rewrite !closed_app, !closed_flat_map, closed_owner.
  setoid_rewrite closed_one; setoid_rewrite closed_owner; unfold premise; cbn [fst snd dirty_node]; setoid_rewrite Z.ltb_lt.
  split; [intros (H1 & H2 & H3 & H4 & H5 & H6); split; auto |].
  intros [H1 H2 H3 H4 H5 H6]; split_and!; auto.
Qed.

End Rules.

(** C12.  The loop that closes the dirty set of a publication ends, after at most
    one turn per page and one more, for every layout of the map and every set of
    dirty pages.  Its result is the least set with these pages in which a dirty
    page has a dirty parent and the leaf that accounts for its old block is dirty. *)
Theorem close_dirty_set_least (old : infs_allocation_layout) total s :
  0 <= leaf_count old /\ 0 <= level1_count old /\ 0 <= level2_count old ->
  (forall i, 0 <= i < leaf_count old -> 0 <= entry (leaf_blocks old) i) ->
  (forall i, 0 <= i < 1 + level2_count old + level1_count old -> 0 <= entry (branch_blocks old) i) ->
  sized old s ->
  let s' := allocation_map_close_dirty_set old total s in
  close_loop (close_fuel s) old total s = Some s' /\
  sized old s' /\ below old s s' /\ closed old total s' /\
  forall t, below old s t -> closed old total t -> below old s' t.
Proof.
  intros Hc Hl Hb Hs; destruct (close_loop_ends old total Hc Hl Hb (close_fuel s) s Hs) as (s' & He & H1 & H2 & H3 & H4).
  { pose proof Hs as [S1 S2 S3]; unfold close_fuel; rewrite S1, S2, S3; lia. }
  unfold allocation_map_close_dirty_set; rewrite He; cbn [default from_option id]; split_and!; [reflexivity | exact H1 | exact H2 | apply closed_iff; assumption |].
  intros t Ht Hcl; apply H4; [exact Ht | apply closed_iff; assumption].
Qed.

(** Three leaves: a change in the first, whose own block lies in the second. *)
Definition sample_layout : infs_allocation_layout := Layout [32200; 40000; 40001] [40002; 40003; 40004] 3 3 1 1.

Lemma close_dirty_set_least_witness :
  dirty_leaves (allocation_map_close_dirty_set sample_layout 90000
    (Dirty [true; false; false] [false] [false] false)) = [true; true; false] /\
  closed sample_layout 90000 (allocation_map_close_dirty_set sample_layout 90000 (Dirty [true; false; false] [false] [false] false)).
Proof.
  split; [vm_compute; reflexivity |].
  apply (close_dirty_set_least sample_layout 90000 (Dirty [true; false; false] [false] [false] false)); [cbn; lia | | |].
  - intros i Hi; cbn in Hi; assert (i = 0 \/ i = 1 \/ i = 2) as [-> | [-> | ->]] by lia; vm_compute; discriminate.
  - intros i Hi; cbn in Hi; assert (i = 0 \/ i = 1 \/ i = 2) as [-> | [-> | ->]] by lia; vm_compute; discriminate.
  - split; reflexivity.
Defined.

End DirtySetFacts.
