(* ===== verification/MapTree.v ===== *)
(** Loading the allocation map ([AllocationMap.v]): when the pages of a tree are on
    the medium and one page of level 2 is enough, the loader returns their layout and
    the bitmap they hold, and only reads.  With more such pages it takes the pointer to
    the second one from the buffer of the last page read, a leaf. *)

From Stdlib Require Import ZifyBool.
From stdpp Require Import prelude sorting.
From S2P Require Import Prelude Endian Checksum Format Storage Objects Locator Discovery Crash FormatVolume FormatPlan.
From S2P Require Import Formatting FreshVolume Allocator FreeExtents Transactions AllocationMap.
#[local] Open Scope Z_scope.

Module MapTreeFacts.
Import Storage Objects Locator ObjectsFacts DiscoveryFacts CrashFacts FormatVolume FormatPlanFacts FormattingFacts
  FreshVolumeFacts Allocator FreeExtentsFacts TransactionsFacts AllocationMap.

Section Reading.
Context {E : Endian} {A : CheckedArithmetic} {C K : Type} (image : C -> list Z) (reserves : nat -> bool).
Context (img : list Z) (n : Z).
Hypothesis Hmedium : medium n img.
Hypothesis Hmemory : forall k, reserves k = true.
#[local] Abbreviation volume := (infs_volume C K).

(** ** Actions that read *)

(** The volume is on the medium [img]. *)
Definition mounted (v : volume) : Prop := served image (storage v) img /\ total_blocks v = n.

(** Only the storage handle and the memory requests moved. *)
Definition only_read (v v' : volume) : Prop := exists s k, v' = set_requests (set_storage v s) k.

Lemma only_read_refl v : only_read v v.
Proof. exists (storage v), (requests v); destruct v; reflexivity. Qed.

Lemma only_read_trans v1 v2 v3 : only_read v1 v2 -> only_read v2 v3 -> only_read v1 v3.
Proof. intros (s & k & ->) (s' & k' & ->); exists s', k'; destruct v1; reflexivity. Qed.

(** [a] succeeds with [x] on any volume on the medium, and only reads. *)
Definition reads {X} (a : act C K X) (x : X) : Prop :=
  forall v, mounted v -> exists v', a v = (Good x, v') /\ mounted v' /\ only_read v v'.

Lemma reads_ret {X} (x : X) : reads (mret x) x.
Proof. intros v Hv; exists v; split_and!; [reflexivity | exact Hv | apply only_read_refl]. Qed.

Lemma reads_bind {X Y} (m : act C K X) (k : X -> act C K Y) x y : reads m x -> reads (k x) y -> reads (m ≫= k) y.
Proof.
  intros Hm Hk v Hv; destruct (Hm v Hv) as (v1 & E1 & M1 & O1); destruct (Hk v1 M1) as (v2 & E2 & M2 & O2).
  exists v2; unfold mbind, act_bind; rewrite E1; split_and!; [exact E2 | exact M2 | eapply only_read_trans; eassumption].
Qed.

Lemma reads_lift {X} (r : result X) x : r = Good x -> reads (lift r) x.
Proof. intros ->; apply reads_ret. Qed.

Lemma reads_guard e b : b = false -> reads (guard_with e b) tt.
Proof. intros ->; apply reads_ret. Qed.

Lemma reads_memory : reads (memory reserves) tt.
Proof.
  intros v [Hs Ht]; unfold memory, array_reserve; rewrite Hmemory; eexists; split_and!; [reflexivity | |].
  - split; destruct v; assumption.
  - exists (storage v), (S (requests v)); destruct v; reflexivity.
Qed.

(** A loop with an invariant. *)
Lemma reads_fold {S} (body : Z -> S -> act C K S) (I : Z -> S -> Prop) count s :
  0 <= count -> I 0 s -> (forall i s, 0 <= i < count -> I i s -> exists s', reads (body i s) s' /\ I (i + 1) s') ->
  exists s', reads (fold_each (range 0 count) body s) s' /\ I count s'.
Proof.
  intros Hc H0 Hstep; unfold range; rewrite Z.sub_0_r.
  assert (Hgen : forall k i s, 0 <= i -> i + Z.of_nat k = count -> I i s ->
    exists s', reads (fold_each (seqZ i (Z.of_nat k)) body s) s' /\ I count s').
  { induction k as [| k IH]; intros i t Hi Hk HI.
    - exists t; split; [apply reads_ret | replace count with i by lia; exact HI].
    - destruct (Hstep i t ltac:(lia) HI) as (t1 & R1 & I1).
      destruct (IH (i + 1) t1 ltac:(lia) ltac:(lia) I1) as (t2 & R2 & I2); exists t2; split; [| exact I2].
      rewrite seqZ_cons by lia; replace (Z.pred (Z.of_nat (Datatypes.S k))) with (Z.of_nat k) by lia.
      replace (Z.succ i) with (i + 1) by lia; cbn [fold_each]; eapply reads_bind; eassumption. }
  destruct (Hgen (Z.to_nat count) 0 s ltac:(lia) ltac:(lia) H0) as (s' & R & HI); rewrite Z2Nat.id in R by exact Hc; eauto.
Qed.

Lemma reads_single {S} (body : Z -> S -> act C K S) s s' : reads (body 0 s) s' -> reads (fold_each (range 0 1) body s) s'.
Proof. intros H; change (range 0 1) with [0]; cbn [fold_each]; eapply reads_bind; [exact H | apply reads_ret]. Qed.

(** [a] fails with [e] on any volume on the medium, and only reads. *)
Definition refuses {X} (a : act C K X) (e : infs_status) : Prop :=
  forall v, mounted v -> exists v', a v = (Bad e, v') /\ only_read v v'.

Lemma refuses_first {X Y} (m : act C K X) (k : X -> act C K Y) e : refuses m e -> refuses (m ≫= k) e.
Proof. intros Hm v Hv; destruct (Hm v Hv) as (v1 & E1 & O1); exists v1; unfold mbind, act_bind; rewrite E1; auto. Qed.

Lemma refuses_then {X Y} (m : act C K X) (k : X -> act C K Y) x e : reads m x -> refuses (k x) e -> refuses (m ≫= k) e.
Proof.
  intros Hm Hk v Hv; destruct (Hm v Hv) as (v1 & E1 & M1 & O1); destruct (Hk v1 M1) as (v2 & E2 & O2).
  exists v2; unfold mbind, act_bind; rewrite E1; split; [exact E2 | eapply only_read_trans; eassumption].
Qed.

(** ** Pages *)

(** A valid page of a tree of generation [gen] at block [b]. *)
Record page_at (gen b index level entries : Z) (payload : list Z) : Prop := {
  pa_block : 0 < b < n;
  pa_valid : infs_validate_allocation_page (blk img b) (allocation_magic level) gen index level = true;
  pa_entries : ap_entry_count (blk img b) = entries;
  pa_payload : slice apage_size (length payload) (blk img b) = payload
}.

Lemma read_page_reads gen b index level entries payload magic :
  page_at gen b index level entries payload -> magic = allocation_magic level ->
  reads (allocation_map_read_page b magic gen index level entries) (blk img b).
Proof.
  intros [Hb Hv He Hp] -> v [Hs Ht]; unfold allocation_map_read_page, mbind, act_bind, get, guard_with, run, fail.
  rewrite Ht; replace ((b =? 0) || (b >=? n)) with false by lia; cbn [mret act_ret].
  unfold read_block; rewrite Ht; replace (b >=? n) with false by lia.
  destruct Hmedium as [_ Hl _ Hmax]; unfold block_size in *; rewrite wrap_small by (unfold fits; lia).
  destruct (served_read image (storage v) img (b * 4096) INFS_BLOCK_SIZE Hs) as (s' & Hr & Hs');
    [lia | rewrite Hl; unfold INFS_BLOCK_SIZE; lia |].
  unfold block_size; rewrite Hr; fold (blk img b); change (slice (Z.to_nat (b * 4096)) INFS_BLOCK_SIZE img) with (blk img b).
  rewrite Hv, He, Z.eqb_refl; cbn [negb mret act_ret]; exists (set_storage v s'); split_and!; [reflexivity | |].
  - split; destruct v; assumption.
  - exists s', (requests v); destruct v; reflexivity.
Qed.

Lemma read_page_zero gen index level entries magic :
  refuses (allocation_map_read_page 0 magic gen index level entries) CORRUPT.
Proof. intros v _; exists v; split; [reflexivity | apply only_read_refl]. Qed.

(** ** Pointers *)

Lemma length_pointers_to blocks first entries : 0 <= entries -> length (pointers_to blocks first entries) = Z.to_nat (entries * 8).
Proof.
  intros He; unfold pointers_to, range; rewrite Z.sub_0_r.
  assert (Hl : forall l, length (concat (map (fun j => store_le64 (entry blocks (first + j))) l)) = (8 * length l)%nat).
  { induction l as [| j l IH]; [reflexivity |]; cbn [map concat length]; rewrite length_app, length_store64, IH; lia. }
  rewrite Hl, length_seqZ; lia.
Qed.

Lemma pointers_to_ok blocks first entries : bytes_ok (pointers_to blocks first entries).
Proof.
  unfold pointers_to; induction (range 0 entries) as [| j l IH]; cbn [map concat]; [constructor |].
  apply bytes_ok_app; split; [apply chunk_64 | exact IH].
Qed.

Lemma pointers_to_at blocks first entries k :
  0 <= k < entries -> fits 64 (entry blocks (first + k)) ->
  le64_at (8 * Z.to_nat k) (pointers_to blocks first entries) = entry blocks (first + k).
Proof.
  intros Hk Hf; unfold pointers_to, range; rewrite Z.sub_0_r.
  replace entries with (k + (1 + (entries - k - 1))) at 1 by lia.
  rewrite (seqZ_app 0 k), (seqZ_app (0 + k) 1), !map_app, !concat_app by lia; unfold le64_at.
  pose proof (length_pointers_to blocks first k ltac:(lia)) as Hl; unfold pointers_to, range in Hl; rewrite Z.sub_0_r in Hl.
  rewrite slice_app_right by (rewrite Hl; lia); rewrite Hl; replace (8 * Z.to_nat k - Z.to_nat (k * 8))%nat with 0%nat by lia.
  rewrite Z.add_0_l, (seqZ_cons k 1), (seqZ_nil (Z.succ k)) by lia; cbn [map concat]; rewrite app_nil_r.
  rewrite slice_app_left by (rewrite length_store64; lia); unfold slice; rewrite drop_0, take_ge by (rewrite length_store64; lia).
  apply load64, Hf.
Qed.

Lemma page_pointer_at gen b index level entries blocks first count k :
  page_at gen b index level entries (pointers_to blocks first count) -> 0 <= k < count -> fits 64 (entry blocks (first + k)) ->
  page_pointer (blk img b) k = entry blocks (first + k).
Proof.
  intros [_ _ _ Hp] Hk Hf; rewrite <- (pointers_to_at blocks first count k Hk Hf), <- Hp.
  unfold page_pointer, le64_at; rewrite slice_in_slice; [reflexivity |].
  rewrite length_pointers_to by lia; lia.
Qed.

(** ** Trees *)

Record tree_on (gen : Z) (bm : list Z) (l : infs_allocation_layout) : Prop := {
  tr_counted : counted n (leaf_count l) (level1_count l) (level2_count l);
  tr_branches : branch_count l = 1 + level1_count l + level2_count l;
  tr_leaf_length : length (leaf_blocks l) = Z.to_nat (leaf_count l);
  tr_branch_length : length (branch_blocks l) = Z.to_nat (branch_count l);
  tr_leaf : forall i, 0 <= i < leaf_count l ->
    page_at gen (entry (leaf_blocks l) i) i 0 (share 32192 n i) (leaf_bytes n bm i);
  tr_level1 : forall i, 0 <= i < level1_count l ->
    page_at gen (entry (branch_blocks l) (1 + level2_count l + i)) i 1 (share 503 (leaf_count l) i)
      (pointers_to (leaf_blocks l) (i * 503) (share 503 (leaf_count l) i));
  tr_level2 : forall i, 0 <= i < level2_count l ->
    page_at gen (entry (branch_blocks l) (1 + i)) i 2 (share 503 (level1_count l) i)
      (pointers_to (branch_blocks l) (1 + level2_count l + i * 503) (share 503 (level1_count l) i));
  tr_root : page_at gen (entry (branch_blocks l) 0) 0 3 (level2_count l) (pointers_to (branch_blocks l) 1 (level2_count l))
}.

Context (gen : Z) (bm : list Z) (l : infs_allocation_layout) (size : Z).
Hypothesis Hn : supported n.
Hypothesis Htree : tree_on gen bm l.
Hypothesis Hsize : (n + 7) / 8 <= size < 2 ^ 64.
Hypothesis Hbm : (n + 7) / 8 <= Z.of_nat (length bm).

(** The bytes of the bitmap the first [g] leaves hold. *)
Definition held (g : Z) : Z := Z.min (g * 4024) ((n + 7) / 8).

(** How far the loops have come: [d] pages of level 2 have their slot. *)
Record filled (d : Z) (s : progress) : Prop := {
  fl_leaves : 0 <= global_leaf s <= leaf_count l /\ length (pr_leaves s) = Z.to_nat (leaf_count l);
  fl_branches : 0 <= global_level1 s <= level1_count l /\ length (pr_branches s) = Z.to_nat (branch_count l);
  fl_leaf : forall k, 0 <= k < global_leaf s -> entry (pr_leaves s) k = entry (leaf_blocks l) k;
  fl_level1 : forall k, 0 <= k < global_level1 s ->
    entry (pr_branches s) (1 + level2_count l + k) = entry (branch_blocks l) (1 + level2_count l + k);
  fl_level2 : forall k, 0 <= k < 1 + d -> entry (pr_branches s) k = entry (branch_blocks l) k;
  fl_bitmap : pr_bitmap s = take (Z.to_nat (held (global_leaf s))) bm ++ replicate (Z.to_nat (size - held (global_leaf s))) 0
}.

Lemma entry_insert bs i j x :
  0 <= i -> 0 <= j -> (Z.to_nat i < length bs)%nat -> entry (<[Z.to_nat i := x]> bs) j = if i =? j then x else entry bs j.
Proof.
  intros Hi Hj Hl; unfold entry; destruct (Z.eqb_spec i j) as [-> |].
  - apply list_lookup_total_insert_eq, Hl.
  - apply list_lookup_total_insert_ne; lia.
Qed.

Lemma held_leaf g :
  0 <= g < leaf_count l -> held g = g * 4024 /\ held (g + 1) = g * 4024 + (share 32192 n g + 7) / 8 /\
  0 < share 32192 n g <= 32192 /\ held (g + 1) <= (n + 7) / 8.
Proof.
  intros Hg; pose proof (cn_leaves _ _ _ _ (tr_counted _ _ _ Htree)) as Hc; unfold held, share.
  pose proof (Z.div_mod (n + 7) 8 ltac:(lia)); pose proof (Z.mod_pos_bound (n + 7) 8 ltac:(lia)).
  set (r := Z.min 32192 (n - g * 32192)); assert (Hr : 0 < r <= 32192) by (unfold r; lia).
  pose proof (Z.div_mod (r + 7) 8 ltac:(lia)); pose proof (Z.mod_pos_bound (r + 7) 8 ltac:(lia)).
  unfold r in *; lia.
Qed.

(** The next bytes of a growing prefix. *)
Lemma splice_extends m len :
  0 <= m -> 0 <= len -> m + len <= size -> m + len <= Z.of_nat (length bm) ->
  splice (Z.to_nat m) (slice (Z.to_nat m) (Z.to_nat len) bm) (take (Z.to_nat m) bm ++ replicate (Z.to_nat (size - m)) 0) =
  take (Z.to_nat (m + len)) bm ++ replicate (Z.to_nat (size - (m + len))) 0.
Proof.
  intros H1 H2 H3 H4; set (a := take (Z.to_nat m) bm).
  assert (Ha : length a = Z.to_nat m) by (unfold a; rewrite length_take; lia).
  replace (replicate (Z.to_nat (size - m)) 0) with (replicate (Z.to_nat len) 0 ++ replicate (Z.to_nat (size - (m + len))) 0)
    by (rewrite <- replicate_add; f_equal; lia).
  rewrite <- Ha at 1; rewrite splice_app by (rewrite length_replicate, length_slice; lia).
  rewrite app_assoc; f_equal; unfold a, slice; rewrite take_take_drop; f_equal; lia.
Qed.

Lemma page_bytes g :
  0 <= g < leaf_count l ->
  ap_bytes_used (blk img (entry (leaf_blocks l) g)) = (share 32192 n g + 7) / 8 /\
  slice apage_size (Z.to_nat ((share 32192 n g + 7) / 8)) (blk img (entry (leaf_blocks l) g)) =
  slice (Z.to_nat (g * 4024)) (Z.to_nat ((share 32192 n g + 7) / 8)) bm.
Proof.
  intros Hg; destruct (held_leaf g Hg) as (H1 & H2 & H3 & H4); destruct (tr_leaf _ _ _ Htree g Hg) as [_ Hv He Hp].
  unfold infs_validate_allocation_page in Hv; rewrite He in Hv; rewrite !andb_true_iff in Hv; destruct Hv as [[[_ Hc] _] _].
  unfold allocation_counts_ok in Hc; cbn [Z.eqb] in Hc; rewrite wrap_small in Hc by (unfold fits; lia).
  split; [lia |]; unfold leaf_bytes, leaf_bits in Hp; rewrite length_slice in Hp; [exact Hp |].
  pose proof (Z.div_mod (share 32192 n g + 7) 8 ltac:(lia)); pose proof (Z.mod_pos_bound (share 32192 n g + 7) 8 ltac:(lia)); lia.
Qed.

Lemma leaf_bounds : 0 < leaf_count l < 2 ^ 32 /\ 0 < level1_count l < 2 ^ 32 /\ 0 < level2_count l <= 503.
Proof. pose proof (supported_bounds n Hn); destruct (tr_counted _ _ _ Htree); lia. Qed.

Lemma leaf_entry_fits k : 0 <= k < leaf_count l -> 0 < entry (leaf_blocks l) k < n.
Proof. intros Hk; exact (pa_block _ _ _ _ _ _ (tr_leaf _ _ _ Htree k Hk)). Qed.

Lemma branch_entry_fits k : 0 <= k < branch_count l -> 0 < entry (branch_blocks l) k < n.
Proof.
  intros Hk; rewrite (tr_branches _ _ _ Htree) in Hk; pose proof leaf_bounds.
  destruct (Z.eq_dec k 0) as [-> |]; [exact (pa_block _ _ _ _ _ _ (tr_root _ _ _ Htree)) |].
  destruct (Z.lt_ge_cases k (1 + level2_count l)).
  - pose proof (pa_block _ _ _ _ _ _ (tr_level2 _ _ _ Htree (k - 1) ltac:(lia))) as Hb; replace (1 + (k - 1)) with k in Hb by lia; exact Hb.
  - pose proof (pa_block _ _ _ _ _ _ (tr_level1 _ _ _ Htree (k - 1 - level2_count l) ltac:(lia))) as Hb.
    replace (1 + level2_count l + (k - 1 - level2_count l)) with k in Hb by lia; exact Hb.
Qed.

Lemma n_fits x : 0 < x < n -> fits 64 x.
Proof. pose proof (supported_bounds n Hn); unfold fits; lia. Qed.

(** The buffer holds the leaf that was read last. *)
Definition last_leaf (s : progress) : Prop := pr_page s = blk img (entry (leaf_blocks l) (global_leaf s - 1)).

(** *** One leaf *)
Lemma load_leaf_reads d s j k :
  filled d s -> 0 <= j < level1_count l -> 0 <= k < share 503 (leaf_count l) j -> global_leaf s = j * 503 + k ->
  exists s', reads (load_leaf n gen (Some size) (blk img (entry (branch_blocks l) (1 + level2_count l + j))) k s) s' /\
    filled d s' /\ global_leaf s' = j * 503 + (k + 1) /\ global_level1 s' = global_level1 s /\ pr_branches s' = pr_branches s /\
    last_leaf s'.
Proof.
  intros [F1 F2 F3 F4 F5 F6] Hj Hk Hg; pose proof leaf_bounds as (B1 & B2 & B3).
  assert (Hgr : 0 <= global_leaf s < leaf_count l) by (unfold share in Hk; lia).
  destruct (held_leaf _ Hgr) as (H1 & H2 & H3 & H4); destruct (page_bytes _ Hgr) as (P1 & P2).
  pose proof (Z.div_pos (share 32192 n (global_leaf s) + 7) 8 ltac:(lia) ltac:(lia)) as Hpos.
  pose proof (leaf_entry_fits _ Hgr) as Hle; unfold load_leaf; destruct capacity_values as (-> & _ & -> & _).
  rewrite (page_pointer_at gen _ _ _ _ _ _ _ k (tr_level1 _ _ _ Htree j Hj) Hk), <- Hg by (rewrite <- Hg; apply n_fits, Hle).
  pose proof (supported_bounds n Hn); pose proof (cn_leaves _ _ _ _ (tr_counted _ _ _ Htree)) as Hcl.
  rewrite at_most_share by lia; rewrite (wrap_small 64 (global_leaf s * 4024)) by (unfold fits; lia).
  eexists; split_and!.
  - eapply reads_bind; [eapply read_page_reads; [exact (tr_leaf _ _ _ Htree _ Hgr) | reflexivity] |].
    eapply reads_bind; [eapply reads_bind; [apply reads_guard | apply reads_ret] | apply reads_ret].
    rewrite P1; lia.
  - rewrite P1, P2, F6, H1; split; cbn [pr_bitmap pr_leaves pr_branches global_level1 global_leaf]; trivial.
    + rewrite length_insert; lia.
    + intros x Hx; rewrite entry_insert by lia; destruct (Z.eqb_spec (global_leaf s) x) as [-> |]; [reflexivity | apply F3; lia].
    + rewrite splice_extends, H2 by lia; reflexivity.
  - cbn; lia.
  - reflexivity.
  - reflexivity.
  - unfold last_leaf; cbn [pr_page global_leaf]; do 2 f_equal; lia.
Qed.

(** *** One page of level 1, and its leaves *)
Lemma load_level1_reads s i j :
  filled (i + 1) s -> 0 <= i < level2_count l -> 0 <= j < share 503 (level1_count l) i ->
  global_level1 s = i * 503 + j -> global_leaf s = (i * 503 + j) * 503 ->
  exists s', reads (load_level1 n gen (leaf_count l) (level2_count l) (branch_count l) (Some size)
      (blk img (entry (branch_blocks l) (1 + i))) j s) s' /\
    filled (i + 1) s' /\ global_level1 s' = i * 503 + (j + 1) /\
    global_leaf s' = Z.min ((i * 503 + (j + 1)) * 503) (leaf_count l) /\ last_leaf s'.
Proof.
  intros [F1 F2 F3 F4 F5 F6] Hi Hj Hg1 Hg; pose proof leaf_bounds as (B1 & B2 & B3); set (g := i * 503 + j) in *.
  assert (Hgr : 0 <= g < level1_count l) by (unfold share in Hj; lia); pose proof (tr_branches _ _ _ Htree) as HB.
  pose proof (cn_level1 _ _ _ _ (tr_counted _ _ _ Htree)) as Hc1.
  pose proof (share_range 503 (leaf_count l) (level1_count l) g Hc1 ltac:(lia) Hgr) as Hsh.
  pose proof (branch_entry_fits (1 + level2_count l + g) ltac:(lia)) as Hbe.
  unfold load_level1; destruct capacity_values as (_ & -> & _ & _).
  rewrite (page_pointer_at gen _ _ _ _ _ _ _ j (tr_level2 _ _ _ Htree i Hi) Hj);
    replace (1 + level2_count l + i * 503 + j) with (1 + level2_count l + g) by (unfold g; lia); [| apply n_fits, Hbe].
  assert (Hent : at_most 503 (u64 (leaf_count l - global_leaf s)) = share 503 (leaf_count l) g).
  { rewrite <- (at_most_share 503 (leaf_count l) g), (wrap_small 64 (g * 503)), <- Hg by (unfold fits; lia); reflexivity. }
  rewrite Hent, Hg1, (wrap_small 64 (1 + level2_count l + g)) by (unfold fits; lia).
  set (s0 := Progress (pr_bitmap s) (pr_leaves s) (<[Z.to_nat (1 + level2_count l + g) := entry (branch_blocks l) (1 + level2_count l + g)]> (pr_branches s))
    g (global_leaf s) (blk img (entry (branch_blocks l) (1 + level2_count l + g)))).
  assert (Hs0 : filled (i + 1) s0).
  { split; unfold s0; cbn [pr_bitmap pr_leaves pr_branches global_level1 global_leaf]; trivial; [rewrite length_insert; lia | |];
      intros x Hx; rewrite entry_insert by lia.
    - replace (1 + level2_count l + g =? 1 + level2_count l + x) with false by lia; apply F4; lia.
    - replace (1 + level2_count l + g =? x) with false by lia; apply F5; lia. }
  assert (Hslot : entry (pr_branches s0) (1 + level2_count l + g) = entry (branch_blocks l) (1 + level2_count l + g)).
  { unfold s0; cbn [pr_branches]; rewrite entry_insert, Z.eqb_refl by lia; reflexivity. }
  destruct (reads_fold (load_leaf n gen (Some size) (blk img (entry (branch_blocks l) (1 + level2_count l + g))))
    (fun k s => filled (i + 1) s /\ global_leaf s = g * 503 + k /\ global_level1 s = g /\ pr_branches s = pr_branches s0 /\ (0 < k -> last_leaf s))
    (share 503 (leaf_count l) g) s0) as (s1 & R1 & (G1 & G2 & G3 & G4 & G5)); [lia | split_and!; trivial; unfold s0; cbn; lia | |].
  { intros k t Hk (T1 & T2 & T3 & T4 & _); destruct (load_leaf_reads (i + 1) t g k T1 Hgr Hk T2) as (t' & Rt & U1 & U2 & U3 & U4 & U5).
    exists t'; split_and!; trivial; [congruence | congruence]. }
  eexists; split_and!.
  - eapply reads_bind; [apply reads_guard; lia |].
    eapply reads_bind; [eapply read_page_reads; [exact (tr_level1 _ _ _ Htree g Hgr) | reflexivity] |].
    eapply reads_bind; [exact R1 | apply reads_ret].
  - destruct G1 as [L1 L2 L3 L4 L5 L6]; split; cbn [pr_bitmap pr_leaves pr_branches global_level1 global_leaf]; trivial; [lia |].
    intros x Hx; destruct (Z.eq_dec x g) as [-> |]; [rewrite G4; exact Hslot | apply L4; lia].
  - cbn; lia.
  - cbn; unfold share in G2; lia.
  - exact (G5 ltac:(lia)).
Qed.

(** *** One page of level 2, and what is below it *)
Definition next_level1 (i : Z) : Z := Z.min (i * 503) (level1_count l).
Definition next_leaf (i : Z) : Z := Z.min (next_level1 i * 503) (leaf_count l).

Lemma load_level2_reads s i :
  filled i s -> 0 <= i < level2_count l -> global_level1 s = next_level1 i -> global_leaf s = next_leaf i ->
  page_pointer (pr_page s) i = entry (branch_blocks l) (1 + i) ->
  exists s', reads (load_level2 n gen (leaf_count l) (level1_count l) (level2_count l) (branch_count l) (Some size) i s) s' /\
    filled (i + 1) s' /\ global_level1 s' = next_level1 (i + 1) /\ global_leaf s' = next_leaf (i + 1) /\ last_leaf s'.
Proof.
  intros [F1 F2 F3 F4 F5 F6] Hi Hg1 Hg Hptr; pose proof leaf_bounds as (B1 & B2 & B3); pose proof (tr_branches _ _ _ Htree) as HB.
  destruct (tr_counted _ _ _ Htree) as [_ Hc1 Hc2 _]; unfold next_leaf, next_level1 in *.
  assert (Hgi : global_level1 s = i * 503) by lia; assert (Hli : global_leaf s = i * 503 * 503) by lia.
  pose proof (share_range 503 (level1_count l) (level2_count l) i Hc2 ltac:(lia) Hi) as Hsh.
  pose proof (branch_entry_fits (1 + i) ltac:(lia)) as Hbe; unfold load_level2; destruct capacity_values as (_ & -> & _ & _).
  rewrite Hptr; assert (Hent : at_most 503 (u64 (level1_count l - global_level1 s)) = share 503 (level1_count l) i).
  { rewrite <- (at_most_share 503 (level1_count l) i), (wrap_small 64 (i * 503)), Hgi by (unfold fits; lia); reflexivity. }
  rewrite Hent, (wrap_small 64 (1 + i)) by (unfold fits; lia);
  set (s0 := Progress (pr_bitmap s) (pr_leaves s) (<[Z.to_nat (1 + i) := entry (branch_blocks l) (1 + i)]> (pr_branches s))
    (global_level1 s) (global_leaf s) (blk img (entry (branch_blocks l) (1 + i)))).
  assert (Hs0 : filled (i + 1) s0).
  { split; unfold s0; cbn [pr_bitmap pr_leaves pr_branches global_level1 global_leaf]; trivial; [rewrite length_insert; lia | |];
      intros x Hx; rewrite entry_insert by lia.
    - replace (1 + i =? 1 + level2_count l + x) with false by lia; apply F4; lia.
    - destruct (Z.eqb_spec (1 + i) x) as [-> |]; [reflexivity | apply F5; lia]. }
  destruct (reads_fold (load_level1 n gen (leaf_count l) (level2_count l) (branch_count l) (Some size) (blk img (entry (branch_blocks l) (1 + i))))
    (fun j s => filled (i + 1) s /\ global_level1 s = i * 503 + j /\ global_leaf s = Z.min ((i * 503 + j) * 503) (leaf_count l) /\ (0 < j -> last_leaf s))
    (share 503 (level1_count l) i) s0) as (s1 & R1 & (G1 & G2 & G3 & G4)); [lia | split_and!; trivial; unfold s0; cbn; lia | |].
  { intros j t Hj (T1 & T2 & T3 & _); destruct (load_level1_reads t i j T1 Hi Hj T2) as (t' & Rt & U1 & U2 & U3 & U4); [rewrite T3; unfold share in Hj; lia |].
    exists t'; split_and!; trivial; intros _; exact U4. }
  exists s1; split_and!; trivial; [| unfold share in *; lia | unfold share in *; lia | apply G4; lia].
  eapply reads_bind; [apply reads_guard; lia |].
  eapply reads_bind; [eapply read_page_reads; [exact (tr_level2 _ _ _ Htree i Hi) | reflexivity] | exact R1].
Qed.

(** ** The whole tree *)

(** The state before the loops. *)
Definition loop_start : progress :=
  Progress (replicate (Z.to_nat size) 0) (replicate (Z.to_nat (leaf_count l)) 0)
    (<[0%nat := entry (branch_blocks l) 0]> (replicate (Z.to_nat (branch_count l)) 0)) 0 0 (blk img (entry (branch_blocks l) 0)).

Lemma loop_start_filled : filled 0 loop_start /\ global_level1 loop_start = next_level1 0 /\ global_leaf loop_start = next_leaf 0 /\
  page_pointer (pr_page loop_start) 0 = entry (branch_blocks l) (1 + 0).
Proof.
  pose proof leaf_bounds as (B1 & B2 & B3); pose proof (tr_branches _ _ _ Htree) as HB.
  assert (Hheld0 : held 0 = 0) by (unfold held; pose proof (Z.div_pos (n + 7) 8); pose proof (supported_bounds n Hn); lia).
  split_and!; [| unfold next_level1; cbn; lia | unfold next_leaf, next_level1; cbn; lia |].
  - split; unfold loop_start; cbn [pr_bitmap pr_leaves pr_branches global_level1 global_leaf].
    + rewrite length_replicate; lia.
    + rewrite length_insert, length_replicate; lia.
    + intros k Hk; lia.
    + intros k Hk; lia.
    + intros k Hk; replace k with 0 by lia; apply list_lookup_total_insert_eq; rewrite length_replicate; lia.
    + rewrite Hheld0, Z.sub_0_r; reflexivity.
  - apply (page_pointer_at gen _ _ _ _ _ _ _ 0 (tr_root _ _ _ Htree) ltac:(lia)), n_fits, branch_entry_fits; lia.
Qed.

(** With one page of level 2 the whole tree is read. *)
Lemma load_tree_reads : level2_count l = 1 ->
  exists s', reads (fold_each (range 0 (level2_count l))
      (load_level2 n gen (leaf_count l) (level1_count l) (level2_count l) (branch_count l) (Some size)) loop_start) s' /\
    exists page, s' = Progress (take (Z.to_nat ((n + 7) / 8)) bm ++ replicate (Z.to_nat (size - (n + 7) / 8)) 0)
           (leaf_blocks l) (branch_blocks l) (level1_count l) (leaf_count l) page.
Proof.
  intros Hone; pose proof leaf_bounds as (B1 & B2 & B3); pose proof (tr_branches _ _ _ Htree) as HB.
  pose proof (tr_counted _ _ _ Htree) as [C1 C2 C3 C4]; destruct loop_start_filled as (S1 & S2 & S3 & S4).
  destruct (load_level2_reads loop_start 0 S1 ltac:(lia) S2 S3 S4) as (s1 & R1 & [L1 L2 L3 L4 L5 L6] & G2 & G3 & _).
  exists s1; split; [rewrite Hone in R1 |- *; apply reads_single, R1 |].
  unfold next_level1, next_leaf in *; unfold next_level1 in *.
  assert (E1 : global_level1 s1 = level1_count l) by lia; assert (E2 : global_leaf s1 = leaf_count l) by lia.
  assert (Hfull : held (leaf_count l) = (n + 7) / 8).
  { unfold held; pose proof (Z.div_mod (n + 7) 8 ltac:(lia)); pose proof (Z.mod_pos_bound (n + 7) 8 ltac:(lia)); lia. }
  assert (Hlist : forall (x y : list Z), length x = length y -> (forall k, 0 <= k < Z.of_nat (length y) -> entry x k = entry y k) -> x = y).
  { intros x y Hl Hk; apply list_eq_same_length with (n := length y); [reflexivity | exact Hl |]; intros i a b Hi Ha Hb.
    specialize (Hk (Z.of_nat i) ltac:(lia)); unfold entry in Hk; rewrite Nat2Z.id in Hk.
    rewrite (list_lookup_total_correct _ _ _ Ha), (list_lookup_total_correct _ _ _ Hb) in Hk; exact Hk. }
  exists (pr_page s1); destruct s1 as [b1 l1 br1 g1 gl1 pg1]; cbn [pr_bitmap pr_leaves pr_branches global_level1 global_leaf pr_page] in *; subst g1 gl1.
  rewrite E1, E2, Hfull in *; f_equal; [exact L6 | |]; apply Hlist.
  - rewrite (tr_leaf_length _ _ _ Htree); lia.
  - rewrite (tr_leaf_length _ _ _ Htree); intros k Hk; apply L3; lia.
  - rewrite (tr_branch_length _ _ _ Htree); lia.
  - rewrite (tr_branch_length _ _ _ Htree); intros k Hk; destruct (Z.lt_ge_cases k (1 + level2_count l)); [apply L5; lia |].
    replace k with (1 + level2_count l + (k - 1 - level2_count l)) by lia; apply L4; lia.
Qed.

(** With more than one, the pointer to the second is read in the buffer after it was
    reused: it is the second word of the bits in the last leaf below the first. *)
Lemma load_tree_refused : 2 <= level2_count l -> page_pointer (blk img (entry (leaf_blocks l) (503 * 503 - 1))) 1 = 0 ->
  refuses (fold_each (range 0 (level2_count l))
    (load_level2 n gen (leaf_count l) (level1_count l) (level2_count l) (branch_count l) (Some size)) loop_start) CORRUPT.
Proof.
  intros Htwo Hzero; pose proof leaf_bounds as (B1 & B2 & B3); pose proof (tr_counted _ _ _ Htree) as [C1 C2 C3 C4].
  destruct loop_start_filled as (S1 & S2 & S3 & S4); pose proof (tr_branches _ _ _ Htree) as HB.
  destruct (load_level2_reads loop_start 0 S1 ltac:(lia) S2 S3 S4) as (s1 & R1 & _ & G2 & G3 & G4).
  assert (Hleaf : global_leaf s1 = 503 * 503) by (rewrite G3; unfold next_leaf, next_level1; lia).
  unfold last_leaf in G4; rewrite Hleaf in G4; unfold range; rewrite Z.sub_0_r, !seqZ_cons by lia; cbn [fold_each].
  eapply refuses_then; [exact R1 |]; apply refuses_first; unfold load_level2; rewrite G4; change (Z.succ 0) with 1; rewrite Hzero.
  eapply refuses_then; [apply reads_guard; rewrite wrap_small by (unfold fits; lia); lia |]; apply refuses_first, read_page_zero.
Qed.

End Reading.
End MapTreeFacts.
