(* ===== verification/MapLoad.v ===== *)
(** The loader of the allocation map ([AllocationMap.v]) as a whole: the counts, the
    size of the bitmap, the checks of the pages and of the loaded bitmap, and the
    map of a new volume. *)

From Stdlib Require Import ZifyBool.
From stdpp Require Import prelude sorting.
From S2P Require Import Prelude Endian Checksum Format Storage Objects Locator Discovery Crash FormatVolume FormatPlan.
From S2P Require Import Formatting FreshVolume Allocator FreeExtents AllocChoice Transactions AllocationMap MapTree.
#[local] Open Scope Z_scope.

Module MapLoadFacts.
Import Storage Objects Locator ObjectsFacts DiscoveryFacts CrashFacts FormatVolume FormatPlanFacts FormattingFacts
  FreshVolumeFacts Allocator FreeExtentsFacts AllocChoiceFacts TransactionsFacts AllocationMap MapTreeFacts.

(** ** Sizes *)

Lemma div_up_unique a b q : 0 < b -> 0 < a -> (q - 1) * b < a <= q * b -> div_up a b = q.
Proof. intros Hb Ha Hq; destruct (div_up_spec a b Ha Hb) as [_ Hd]; nia. Qed.

Lemma map_counts n leaves level1 level2 :
  supported n -> counted n leaves level1 level2 ->
  allocation_map_counts n = Good (leaves, level1, level2, 1 + level1 + level2).
Proof.
  intros Hn [C1 C2 C3 C4]; pose proof (supported_bounds n Hn); unfold allocation_map_counts.
  destruct capacity_values as (-> & -> & _ & ->); replace (_ || _)%bool with false by lia.
  rewrite (div_up_unique n 32192 leaves), (div_up_unique leaves 503 level1), (div_up_unique level1 503 level2) by lia.
  rewrite wrap_small by (unfold fits; lia); unfold SIZE_MAX; replace (_ || _)%bool with false by lia; reflexivity.
Qed.

(** Whole blocks that hold a bit for every block. *)
Definition bitmap_room (n : Z) : Z := ((n + 7) / 8 + 4095) / 4096 * 4096.

Lemma bitmap_room_bounds n : 4096 <= n <= 503 * 503 * 503 * 32192 -> (n + 7) / 8 <= bitmap_room n < 2 ^ 60 /\ n <= 8 * bitmap_room n.
Proof.
  intros Hn; unfold bitmap_room; set (raw := (n + 7) / 8).
  pose proof (Z.div_mod (n + 7) 8 ltac:(lia)); pose proof (Z.mod_pos_bound (n + 7) 8 ltac:(lia)).
  pose proof (Z.div_mod (raw + 4095) 4096 ltac:(lia)); pose proof (Z.mod_pos_bound (raw + 4095) 4096 ltac:(lia)); lia.
Qed.

Lemma runtime_bytes {A : CheckedArithmetic} n : supported n -> allocation_map_runtime_bytes n = Good (bitmap_room n).
Proof.
  intros Hs; pose proof (supported_bounds n Hs) as Hn; destruct (bitmap_room_bounds n Hn) as [Hr _].
  unfold allocation_map_runtime_bytes; rewrite u64_add_law by (unfold fits; lia).
  replace (n + 7 <? 2 ^ 64) with true by lia; set (raw := (n + 7) / 8) in *.
  assert (Hraw : 0 < raw < 2 ^ 60) by (unfold raw in *; pose proof (Z.div_mod (n + 7) 8 ltac:(lia)); pose proof (Z.mod_pos_bound (n + 7) 8 ltac:(lia)); lia).
  assert (Hrem : bitmap_room n = if raw mod 4096 =? 0 then raw else raw + (4096 - raw mod 4096)).
  { unfold bitmap_room; fold raw; pose proof (Z.div_mod raw 4096 ltac:(lia)); pose proof (Z.mod_pos_bound raw 4096 ltac:(lia)).
    pose proof (Z.div_mod (raw + 4095) 4096 ltac:(lia)); pose proof (Z.mod_pos_bound (raw + 4095) 4096 ltac:(lia)).
    destruct (Z.eqb_spec (raw mod 4096) 0); nia. }
  unfold block_size, SIZE_MAX; pose proof (Z.mod_pos_bound raw 4096 ltac:(lia)).
  destruct (Z.eqb_spec (raw mod 4096) 0) as [H0 | H0].
  - replace (_ || _)%bool with false by lia; rewrite Hrem; reflexivity.
  - rewrite u64_add_law by (unfold fits; lia); replace (_ <? 2 ^ 64) with true by lia.
    replace (_ || _)%bool with false by lia; rewrite Hrem; reflexivity.
Qed.

(** ** The list of pages *)

Definition page_fine {E : Endian} (sb : list Z) (total b : Z) : Prop :=
  0 < b < total /\ (forall c, (c < 3)%nat -> b <> sb_checkpoint_block sb c) /\
  (sb_format_minor sb = INFS_LOCATOR_FORMAT_MINOR -> b <> INFS_LOCATOR_BLOCK_A /\ b <> INFS_LOCATOR_BLOCK_B).

Lemma pages_accepted {E : Endian} sb total previous pages :
  List.NoDup pages -> (forall p, previous = Some p -> ~ In p pages) -> Forall (page_fine sb total) pages ->
  pages_refused sb total previous pages = false.
Proof.
  intros Hnd Hprev Hf; revert previous Hnd Hprev; induction Hf as [| b pages (H1 & H2 & H3) Hf IH]; intros previous Hnd Hprev; [reflexivity |].
  inversion_clear Hnd as [| ? ? Hb Hnd']; cbn [pages_refused]; apply orb_false_iff; split.
  - unfold page_refused; rewrite !orb_false_iff; split_and!; try lia.
    + apply bool_decide_false; intros ->; apply (Hprev b eq_refl); left; reflexivity.
    + pose proof (H2 0%nat ltac:(lia)); pose proof (H2 1%nat ltac:(lia)); pose proof (H2 2%nat ltac:(lia)).
      cbn [INFS_CHECKPOINT_COUNT seq existsb]; lia.
  - apply IH; [exact Hnd' |]; intros p [= <-]; exact Hb.
Qed.

Lemma sorted_accepted {E : Endian} sb total pages :
  List.NoDup pages -> Forall (page_fine sb total) pages -> pages_refused sb total None (sort_pages pages) = false.
Proof.
  intros Hnd Hf; pose proof (merge_sort_Permutation Z.le pages) as Hp; apply pages_accepted; [| discriminate |].
  - apply (Permutation_NoDup (symmetry Hp) Hnd).
  - unfold sort_pages; rewrite Hp; exact Hf.
Qed.

(** ** The tail of the bitmap *)

Lemma seal_tail_spec bm total :
  bytes_ok bm -> 0 <= total <= bits bm -> bits bm < 2 ^ 64 ->
  bytes_ok (seal_tail bm total) /\ length (seal_tail bm total) = length bm /\
  forall b, 0 <= b < bits bm -> bitmap_get (seal_tail bm total) b = (total <=? b) || bitmap_get bm b.
Proof.
  intros Hok Ht Hmax; unfold seal_tail, range, bits in *; rewrite wrap_small by (unfold fits; lia).
  replace (Z.of_nat (length bm) * 8) with (8 * Z.of_nat (length bm)) by lia.
  assert (Hgen : forall k bm m, bytes_ok bm -> 0 <= m -> m + Z.of_nat k = 8 * Z.of_nat (length bm) ->
    let bm' := fold_left (fun bm bit => Allocator.bitmap_set bm bit true) (seqZ m (Z.of_nat k)) bm in
    bytes_ok bm' /\ length bm' = length bm /\
    forall b, 0 <= b < 8 * Z.of_nat (length bm) -> bitmap_get bm' b = (m <=? b) || bitmap_get bm b).
  { clear; induction k as [| k IH]; intros bm m Hok Hm Hk.
    - cbn; split_and!; trivial; intros b Hb; replace (m <=? b) with false by lia; reflexivity.
    - rewrite seqZ_cons by lia; replace (Z.pred (Z.of_nat (S k))) with (Z.of_nat k) by lia; cbn [fold_left].
      destruct (IH (Allocator.bitmap_set bm m true) (Z.succ m)) as (I1 & I2 & I3);
        [apply bitmap_set_ok, Hok | lia | rewrite bitmap_set_length; lia |].
      rewrite bitmap_set_length in I2, I3; split_and!; trivial; intros b Hb; rewrite I3 by exact Hb.
      rewrite bitmap_get_set by (trivial; unfold bits; lia); destruct (Z.eqb_spec m b);
        [replace (m <=? b) with true by lia; apply orb_true_r | f_equal; lia]. }
  destruct (Hgen (Z.to_nat (8 * Z.of_nat (length bm) - total)) bm total Hok ltac:(lia) ltac:(lia)) as (G1 & G2 & G3).
  rewrite Z2Nat.id in G1, G2, G3 by lia; auto.
Qed.

(** ** The loaded bitmap *)

(** The bytes the leaves hold, in a bitmap of whole blocks, the tail in use. *)
Definition loaded (n : Z) (bm : list Z) : list Z :=
  seal_tail (take (Z.to_nat ((n + 7) / 8)) bm ++ replicate (Z.to_nat (bitmap_room n - (n + 7) / 8)) 0) n.

Lemma bitmap_get_byte bm bm' b : 0 <= b -> bm !!! Z.to_nat (b / 8) = bm' !!! Z.to_nat (b / 8) -> bitmap_get bm b = bitmap_get bm' b.
Proof.
  intros Hb He; transitivity (Z.testbit (bm !!! Z.to_nat (b / 8)) (b mod 8)); [exact (bitmap_bit_testbit bm b Hb) |].
  rewrite He; symmetry; exact (bitmap_bit_testbit bm' b Hb).
Qed.

Lemma loaded_spec n bm :
  supported n -> bytes_ok bm -> (n + 7) / 8 <= Z.of_nat (length bm) ->
  bytes_ok (loaded n bm) /\ Z.of_nat (length (loaded n bm)) = bitmap_room n /\
  (forall b, 0 <= b < n -> bitmap_get (loaded n bm) b = bitmap_get bm b) /\
  (forall b, n <= b < 8 * bitmap_room n -> bitmap_get (loaded n bm) b = true).
Proof.
  intros Hs Hok Hl; pose proof (supported_bounds n Hs) as Hn; destruct (bitmap_room_bounds n Hn) as [Hr Hr8].
  pose proof (Z.div_mod (n + 7) 8 ltac:(lia)); pose proof (Z.mod_pos_bound (n + 7) 8 ltac:(lia)).
  pose (raw := take (Z.to_nat ((n + 7) / 8)) bm ++ replicate (Z.to_nat (bitmap_room n - (n + 7) / 8)) 0).
  assert (Hlen : Z.of_nat (length raw) = bitmap_room n) by (unfold raw; rewrite length_app, length_take, length_replicate; lia).
  assert (Hraw : bytes_ok raw) by (apply bytes_ok_app; split; [apply Forall_take, Hok | apply zeros_ok]).
  destruct (seal_tail_spec raw n Hraw) as (S1 & S2 & S3); [unfold bits; lia.. |]; unfold bits in S3; rewrite Hlen in S3.
  unfold loaded; fold raw; split_and!; [exact S1 | rewrite S2; exact Hlen | |]; intros b Hb; rewrite S3 by lia.
  - replace (n <=? b) with false by lia; cbn [orb]; apply bitmap_get_byte; [lia |].
    pose proof (Z.div_mod b 8 ltac:(lia)); pose proof (Z.mod_pos_bound b 8 ltac:(lia)).
    unfold raw; rewrite !list_lookup_total_alt, lookup_app_l by (rewrite length_take; lia); rewrite lookup_take_lt by lia; reflexivity.
  - replace (n <=? b) with true by lia; reflexivity.
Qed.

(** A bitmap of the right size with its tail in use is loaded as it is. *)
Lemma loaded_same n bm :
  supported n -> bytes_ok bm -> Z.of_nat (length bm) = bitmap_room n ->
  (forall b, n <= b < 8 * bitmap_room n -> bitmap_get bm b = true) -> loaded n bm = bm.
Proof.
  intros Hs Hok Hl Ht; destruct (bitmap_room_bounds n (supported_bounds n Hs)) as [Hr _].
  destruct (loaded_spec n bm Hs Hok ltac:(lia)) as (L1 & L2 & L3 & L4).
  apply bitmap_ext; trivial; [lia |]; intros b Hb; unfold bits in Hb; rewrite L2 in Hb.
  destruct (Z.lt_ge_cases b n); [apply L3; lia | rewrite L4, Ht by lia; reflexivity].
Qed.

(** ** The superblock agrees with the tree *)

Section Header.
Context {E : Endian} {A : CheckedArithmetic}.

Record map_header (sb : list Z) (n gen : Z) (bm : list Z) (l : infs_allocation_layout) : Prop := {
  mh_total : sb_total_blocks sb = n;
  mh_generation : sb_generation sb = gen /\ gen <> 0;
  mh_root : allocation_root sb = entry (branch_blocks l) 0;
  mh_leaves : allocation_leaves sb = leaf_count l;
  mh_flag : (sb_incompat_flags sb .& INFS_INCOMPAT_ALLOCATION_TREE) <> 0;
  mh_distinct : List.NoDup (leaf_blocks l ++ branch_blocks l);
  mh_pages : Forall (page_fine sb n) (leaf_blocks l ++ branch_blocks l);
  mh_free : sb_free_blocks sb = clear_bits bm (seqZ 0 n);
  mh_used : Forall (fun b => 0 <= b < n /\ bitmap_get bm b = true)
    (leaf_blocks l ++ branch_blocks l ++
     map (sb_checkpoint_block sb) (seq 0 INFS_CHECKPOINT_COUNT) ++ [object_index sb; root_object sb]);
  mh_locators : sb_format_minor sb = INFS_LOCATOR_FORMAT_MINOR ->
    bitmap_get bm INFS_LOCATOR_BLOCK_A = true /\ bitmap_get bm INFS_LOCATOR_BLOCK_B = true
}.

Lemma loaded_accepted sb n gen bm l :
  supported n -> bytes_ok bm -> (n + 7) / 8 <= Z.of_nat (length bm) -> map_header sb n gen bm l ->
  bitmap_refused sb n (loaded n bm) (leaf_blocks l) (branch_blocks l) = false.
Proof.
  intros Hs Hok Hl [_ _ _ _ _ _ _ Hfree Hused Hloc]; pose proof (supported_bounds n Hs) as Hn.
  destruct (bitmap_room_bounds n Hn) as [Hr Hr8]; destruct (loaded_spec n bm Hs Hok Hl) as (L1 & L2 & L3 & L4).
  assert (Hset : forall b, 0 <= b < n /\ bitmap_get bm b = true -> bitmap_get (loaded n bm) b = true)
    by (intros b [Hb Hg]; rewrite L3 by exact Hb; exact Hg).
  assert (Hall : forall (bs : list Z) (f : Z -> bool), Forall (fun b => 0 <= b < n /\ bitmap_get bm b = true) bs ->
    (forall b, 0 <= b < n -> bitmap_get (loaded n bm) b = true -> f b = false) -> existsb f bs = false).
  { intros bs f; induction 1 as [| b bs Hb _ IH]; intros Hf; [reflexivity |]; cbn [existsb]; rewrite IH, orb_false_r by exact Hf.
    apply Hf; [apply Hb | apply Hset, Hb]. }
  rewrite !Forall_app in Hused; destruct Hused as (U1 & U2 & U3 & U4); unfold bitmap_refused; rewrite !orb_false_iff; split_and!.
  - rewrite count_free_clear by (trivial; unfold bits; lia); rewrite Hfree, negb_false_iff, Z.eqb_eq.
    apply clear_bits_ext; intros b Hb%in_seqZ; apply L3; lia.
  - apply (Hall _ _ U1); intros b _ ->; reflexivity.
  - apply (Hall _ _ U2); intros b _ ->; reflexivity.
  - apply Hall; [apply Forall_app; auto |]; intros b Hb ->; replace (b >=? n) with false by lia; reflexivity.
  - destruct (Z.eqb_spec (sb_format_minor sb) INFS_LOCATOR_FORMAT_MINOR) as [Hm |]; [| reflexivity].
    destruct (Hloc Hm) as [HA HB]; unfold INFS_LOCATOR_BLOCK_A, INFS_LOCATOR_BLOCK_B in *; rewrite !L3, HA, HB by lia; reflexivity.
Qed.

End Header.

(** ** Loading *)

Section Load.
Context {E : Endian} {A : CheckedArithmetic} {C K : Type} (image : C -> list Z) (reserves : nat -> bool).
Hypothesis Hmemory : forall k, reserves k = true.
#[local] Abbreviation volume := (infs_volume C K).

Lemma memory_twice img n :
  reads (K := K) image img n (run (fun v => let '(ok1, v) := array_reserve reserves v in
    let '(ok2, v) := array_reserve reserves v in (if ok1 && ok2 then Good tt else Bad NO_MEMORY, v))) tt.
Proof.
  intros v [Hs Ht]; unfold run, array_reserve; rewrite !Hmemory; eexists; split_and!; [reflexivity | split; destruct v; assumption |].
  exists (storage v), (S (S (requests v))); destruct v; reflexivity.
Qed.

(** An action that reads, at the head of a sequence. *)
Lemma reads_on img n {X} (m : act C K X) x : reads (K := K) image img n m x -> forall v : volume, mounted image img n v ->
  exists v1, mounted image img n v1 /\ only_read v v1 /\ forall Y (k : X -> act C K Y), (m ≫= k) v = k x v1.
Proof. intros R v Hv; destruct (R v Hv) as (v1 & E1 & M1 & O1); exists v1; split_and!; trivial; intros Y k; unfold mbind, act_bind; rewrite E1; reflexivity. Qed.

(** What comes after the loops. *)
Definition after_loops (sb : list Z) (n : Z) (l : infs_allocation_layout) (s : progress) : act C K (list Z * infs_allocation_layout) :=
  _ ← guard_with CORRUPT (negb (global_level1 s =? level1_count l) || negb (global_leaf s =? leaf_count l));
  _ ← check_pages reserves sb n (leaf_count l) (branch_count l) s;
  let bitmap := seal_tail (pr_bitmap s) n in
  _ ← guard_with CORRUPT (bitmap_refused sb n bitmap (pr_leaves s) (pr_branches s));
  mret (bitmap, Layout (pr_leaves s) (pr_branches s) (leaf_count l) (branch_count l) (level1_count l) (level2_count l)).

(** What comes before them goes well. *)
Lemma map_load_starts img n gen bm l sb :
  medium n img -> supported n -> tree_on img n gen bm l -> map_header sb n gen bm l ->
  forall v : volume, mounted image img n v -> exists v1, mounted image img n v1 /\ only_read v v1 /\
    allocation_map_load reserves sb true v =
    (s ← fold_each (range 0 (level2_count l)) (load_level2 n gen (leaf_count l) (level1_count l) (level2_count l) (branch_count l)
       (Some (bitmap_room n))) (loop_start img l (bitmap_room n)); after_loops sb n l s) v1.
Proof.
  intros Hm Hs Ht Hh v Hv; pose proof Hh as [H1 [H2 H2'] H3 H4 H5 H6 H7 _ _ _]; pose proof (tr_branches _ _ _ _ _ Ht) as HB.
  pose proof (leaf_bounds img n gen bm l Hs Ht) as (B1 & B2 & B3).
  pose proof (tr_root _ _ _ _ _ Ht) as Hroot; pose proof (pa_block _ _ _ _ _ _ _ _ Hroot) as Hrb.
  unfold allocation_map_load; rewrite H1, H2, H3, H4.
  assert (R1 : reads (K := K) image img n (lift (allocation_map_counts n)) (leaf_count l, level1_count l, level2_count l, branch_count l))
    by (rewrite HB; apply reads_lift, (map_counts n _ _ _ Hs (tr_counted _ _ _ _ _ Ht))).
  destruct (reads_on _ _ _ _ R1 v Hv) as (v1 & M1 & O1 & E1); rewrite E1; clear E1; cbv beta iota.
  match goal with |- context [mbind _ (guard_with CORRUPT ?b) v1] =>
    assert (R2 : reads (K := K) image img n (guard_with CORRUPT b) tt) by (apply reads_guard; rewrite Z.eqb_refl; cbn [negb]; lia) end.
  destruct (reads_on _ _ _ _ R2 v1 M1) as (v2 & M2 & O2 & E2); rewrite E2; clear E2.
  rewrite !size_multiply_law by (unfold fits; lia); replace (leaf_count l * 8 <? 2 ^ 64) with true by lia.
  replace (branch_count l * 8 <? 2 ^ 64) with true by lia; cbv beta iota.
  destruct (reads_on _ _ _ _ (memory_twice img n) v2 M2) as (v3 & M3 & O3 & E3); rewrite E3; clear E3.
  assert (R4 : reads (K := K) image img n (size ← lift (allocation_map_runtime_bytes n); _ ← memory reserves; mret (Some size)) (Some (bitmap_room n)))
    by (eapply reads_bind; [apply reads_lift, runtime_bytes, Hs | eapply reads_bind; [apply reads_memory, Hmemory | apply reads_ret]]).
  destruct (reads_on _ _ _ _ R4 v3 M3) as (v4 & M4 & O4 & E4); rewrite E4; clear E4; cbn [default from_option id].
  rewrite (wrap_small 32 (level2_count l)) by (unfold fits; lia).
  destruct (reads_on _ _ _ _ (read_page_reads image img n Hm _ _ _ _ _ _ _ Hroot eq_refl) v4 M4) as (v5 & M5 & O5 & E5); rewrite E5.
  exists v5; split_and!; [exact M5 | eauto 10 using only_read_trans | reflexivity].
Qed.

Lemma map_load_reads img n gen bm l sb :
  medium n img -> supported n -> tree_on img n gen bm l -> map_header sb n gen bm l -> bytes_ok bm ->
  (n + 7) / 8 <= Z.of_nat (length bm) -> level2_count l = 1 ->
  reads (K := K) image img n (allocation_map_load reserves sb true) (loaded n bm, l).
Proof.
  intros Hm Hs Ht Hh Hok Hl Hone v Hv; pose proof Hh as [_ _ _ _ _ H6 H7 _ _ _]; pose proof (supported_bounds n Hs) as Hn; destruct (bitmap_room_bounds n Hn) as [Hr _].
  pose proof (leaf_bounds img n gen bm l Hs Ht) as (B1 & B2 & B3); pose proof (tr_branches _ _ _ _ _ Ht) as HB.
  destruct (map_load_starts img n gen bm l sb Hm Hs Ht Hh v Hv) as (v1 & M1 & O1 & ->).
  destruct (load_tree_reads (K := K) image img n Hm gen bm l (bitmap_room n) Hs Ht ltac:(lia) Hl Hone) as (s & Rs & page & Es).
  enough (R : reads (K := K) image img n (s ← fold_each (range 0 (level2_count l)) (load_level2 n gen (leaf_count l) (level1_count l)
    (level2_count l) (branch_count l) (Some (bitmap_room n))) (loop_start img l (bitmap_room n)); after_loops sb n l s) (loaded n bm, l)).
  { destruct (R v1 M1) as (v2 & E2 & M2 & O2); exists v2; split_and!; trivial; eapply only_read_trans; eassumption. }
  eapply reads_bind; [exact Rs |]; rewrite Es; unfold after_loops; cbn [pr_bitmap pr_leaves pr_branches global_level1 global_leaf].
  eapply reads_bind; [apply reads_guard; rewrite !Z.eqb_refl; reflexivity |].
  eapply reads_bind.
  { unfold check_pages; cbn [pr_leaves pr_branches]; rewrite size_add_law by (unfold fits; lia).
    replace (leaf_count l + branch_count l <? 2 ^ 64) with true by lia; rewrite size_multiply_law by (unfold fits; lia).
    replace (_ <? 2 ^ 64) with true by lia; eapply reads_bind; [apply reads_memory, Hmemory |].
    apply reads_guard, sorted_accepted; assumption. }
  eapply reads_bind; [apply reads_guard, (loaded_accepted sb n gen bm l Hs Hok Hl Hh) |].
  assert (Hlay : Layout (leaf_blocks l) (branch_blocks l) (leaf_count l) (branch_count l) (level1_count l) (level2_count l) = l)
    by (destruct l; reflexivity).
  unfold loaded; rewrite Hlay; apply reads_ret.
Qed.

(** A tree with more than one page of level 2 is refused where the reused buffer shows no
    pointer. *)
Lemma map_load_refused img n gen bm l sb :
  medium n img -> supported n -> tree_on img n gen bm l -> map_header sb n gen bm l ->
  (n + 7) / 8 <= Z.of_nat (length bm) -> 2 <= level2_count l ->
  page_pointer (blk img (entry (leaf_blocks l) (503 * 503 - 1))) 1 = 0 ->
  refuses (K := K) image img n (allocation_map_load reserves sb true) CORRUPT.
Proof.
  intros Hm Hs Ht Hh Hl Htwo Hz v Hv; destruct (bitmap_room_bounds n (supported_bounds n Hs)) as [Hr _].
  destruct (map_load_starts img n gen bm l sb Hm Hs Ht Hh v Hv) as (v1 & M1 & O1 & ->).
  destruct (refuses_first image img n _ (after_loops sb n l) _
    (load_tree_refused image img n Hm gen bm l (bitmap_room n) Hs Ht ltac:(lia) Hl Htwo Hz) v1 M1) as (v2 & E2 & O2).
  exists v2; split; [exact E2 | eapply only_read_trans; eassumption].
Qed.

End Load.

End MapLoadFacts.
