(* ===== verification/NewVolume.v ===== *)
(** A new volume is ready for use: the allocation map the formatter writes
    ([FormatVolume.v]) is the one the loader of a mount ([AllocationMap.v]) reads back,
    and with it the accounting invariant of the allocators ([AllocChoice.v]) holds,
    up to the size where the tree needs a second page of level 2. *)

From Stdlib Require Import ZifyBool.
From stdpp Require Import prelude sorting.
From S2P Require Import Prelude Endian Checksum Format Storage Objects Locator Discovery Crash FormatVolume FormatPlan.
From S2P Require Import Formatting FreshVolume Allocator FreeExtents AllocChoice Transactions AllocationMap MapTree MapLoad.
#[local] Open Scope Z_scope.

Module NewVolumeFacts.
Import Storage Objects Locator ObjectsFacts DiscoveryFacts CrashFacts FormatVolume FormatPlanFacts FormattingFacts
  FreshVolumeFacts Allocator FreeExtentsFacts AllocChoiceFacts TransactionsFacts AllocationMap MapTreeFacts MapLoadFacts.

#[local] Abbreviation reserved := FormatPlanFacts.reserved.

(** ** The layout the formatter plans *)

(** The root, level 2 and level 1 lie before the leaves, in this order. *)
Definition new_layout (p : plan) : infs_allocation_layout :=
  Layout (range (leaf_start p) (leaf_start p + p_leaves p)) (range (p_root p) (leaf_start p))
    (p_leaves p) (1 + p_level1 p + p_level2 p) (p_level1 p) (p_level2 p).

Lemma entry_range a b i : 0 <= i < b - a -> entry (range a b) i = a + i.
Proof.
  intros Hi; unfold entry, range; apply list_lookup_total_correct; rewrite lookup_seqZ; lia.
Qed.

Lemma length_range a b : length (range a b) = Z.to_nat (b - a).
Proof. apply length_seqZ. Qed.

Lemma pointers_range {E : Endian} a b first entries :
  0 <= a -> b <= 2 ^ 64 -> 0 <= first -> first + entries <= b - a ->
  pointers (a + first) entries = pointers_to (range a b) first entries.
Proof.
  intros Ha Hb Hf He; unfold pointers, pointers_to; f_equal; apply map_ext_in.
  intros j Hj%list_elem_of_In%range_in; rewrite entry_range, wrap_small by (unfold fits; lia); f_equal; lia.
Qed.

Lemma marked_clear bm l : marked bm l + clear_bits bm l = Z.of_nat (length l).
Proof.
  induction l as [| b l IH]; [reflexivity |]; rewrite clear_bits_cons; revert IH; unfold marked; cbn [List.filter].
  change (bitmap_bit bm b) with (bitmap_get bm b); destruct (bitmap_get bm b); cbn [length]; lia.
Qed.

Lemma flags_have_tree options : (format_incompat_flags options .& INFS_INCOMPAT_ALLOCATION_TREE) <> 0.
Proof. unfold format_incompat_flags; destruct (negb _), (negb _); vm_compute; discriminate. Qed.

(** The blocks a tree with one page of level 2 covers. *)
Definition one_level2 : Z := 503 * 503 * 32192.

Lemma quiet_byte bm (k : nat) x : bytes_ok bm -> bm !! k = Some x -> (forall j, 0 <= j < 8 -> bitmap_get bm (8 * Z.of_nat k + j) = false) -> x = 0.
Proof.
  intros Hok Hx Hq; pose proof (Forall_lookup_1 _ _ _ _ Hok Hx) as Hf; apply Z.bits_inj'; intros j Hj; rewrite Z.bits_0.
  destruct (Z.lt_ge_cases j 8); [| apply (fits_testbit 8 x); [lia | exact Hf | lia]].
  rewrite <- (Hq j ltac:(lia)), <- (list_lookup_total_correct _ _ _ Hx); symmetry.
  transitivity (Z.testbit (bm !!! Z.to_nat ((8 * Z.of_nat k + j) / 8)) ((8 * Z.of_nat k + j) mod 8)); [apply bitmap_bit_testbit; lia |].
  replace ((8 * Z.of_nat k + j) / 8) with (Z.of_nat k) by (apply (Z.div_unique_pos _ _ _ j); lia).
  replace ((8 * Z.of_nat k + j) mod 8) with j by (apply (Z.mod_unique_pos _ _ (Z.of_nat k)); lia).
  rewrite Nat2Z.id; reflexivity.
Qed.

(** ** The tree on the medium *)

Section Tree.
Context {E : Endian} {P : Platform} {A : CheckedArithmetic}.
Context (n : Z) (p : plan) (bm u r index_id label : list Z) (options uid gid used : Z) (img0 img cur : list Z).
Hypothesis Hn : supported n.
Hypothesis Hp : planned n p.
Hypothesis Hf : formatted n p bm u r index_id label options uid gid used img0 img cur.

Lemma page_is_at b index level entries payload :
  0 < b < n -> page_is (blk img b) index level entries payload -> page_at img n 1 b index level entries payload.
Proof. intros Hb []; split; assumption. Qed.

Lemma new_tree : tree_on img n 1 bm (new_layout p).
Proof.
  pose proof Hp as [Ht [C1 C2 C3 C4] Hr Hlow Hhigh H2 H1 H0 _ _ _]; pose proof (supported_bounds n Hn) as Hb.
  pose proof (Z.div_mod n 2 ltac:(lia)); pose proof (Z.mod_pos_bound n 2 ltac:(lia)).
  split; cbn [new_layout leaf_blocks branch_blocks leaf_count branch_count level1_count level2_count].
  - exact (pl_counted _ _ Hp).
  - reflexivity.
  - rewrite length_range; f_equal; lia.
  - rewrite length_range; f_equal; lia.
  - intros i Hi; rewrite entry_range by lia; apply page_is_at; [lia | apply (fm_leaf _ _ _ _ _ _ _ _ _ _ _ _ _ _ Hf i Hi)].
  - intros i Hi; rewrite entry_range by lia; pose proof (share_range 503 _ _ i C2 ltac:(lia) Hi) as Hs.
    rewrite <- pointers_range by (unfold share in *; lia); replace (p_root p + _) with (level1_start p + i) by lia.
    apply page_is_at; [lia | apply (fm_level1 _ _ _ _ _ _ _ _ _ _ _ _ _ _ Hf i Hi)].
  - intros i Hi; rewrite entry_range by lia; pose proof (share_range 503 _ _ i C3 ltac:(lia) Hi) as Hs.
    rewrite <- pointers_range by (unfold share in *; lia); replace (p_root p + (1 + i)) with (level2_start p + i) by lia.
    replace (p_root p + _) with (level1_start p + i * 503) by lia.
    apply page_is_at; [lia | apply (fm_level2 _ _ _ _ _ _ _ _ _ _ _ _ _ _ Hf i Hi)].
  - rewrite entry_range, <- pointers_range by lia; rewrite Z.add_0_r, <- H2.
    apply page_is_at; [lia | apply (fm_root _ _ _ _ _ _ _ _ _ _ _ _ _ _ Hf)].
Qed.

Hypothesis Hbits : forall b, 0 <= b < n -> bitmap_bit bm b = bool_decide (reserved p b).
Hypothesis Hused : used = marked bm (range 0 n).

Lemma reserved_used b : 0 <= b < n -> reserved p b -> bitmap_get bm b = true.
Proof. intros Hb Hr; etransitivity; [exact (Hbits b Hb) | apply bool_decide_true, Hr]. Qed.

Lemma new_page_fine b : p_root p <= b < index_block p -> page_fine (header cur) n b.
Proof.
  pose proof Hp as [Ht [C1 C2 C3 C4] Hr Hlow Hhigh H2 H1 H0 Hi Hd Hpg]; pose proof (supported_bounds n Hn).
  pose proof (Z.div_mod n 2 ltac:(lia)); pose proof (Z.mod_pos_bound n 2 ltac:(lia)).
  destruct (fm_cur _ _ _ _ _ _ _ _ _ _ _ _ _ _ Hf) as (_ & _ & _ & Hfi & _).
  intros Hb; split; [lia | split; [| intros _; unfold INFS_LOCATOR_BLOCK_A, INFS_LOCATOR_BLOCK_B; lia]].
  pose proof (fi_checkpoints _ _ _ _ _ _ _ Hfi) as Hc; unfold checkpoints in Hc; rewrite Ht in Hc; cbn [map] in Hc.
  injection Hc as Hc0 Hc1 Hc2; intros [| [| [| c]]] Hlt; [rewrite Hc0 | rewrite Hc1 | rewrite Hc2 |]; lia.
Qed.

Lemma new_header : map_header (header cur) n 1 bm (new_layout p).
Proof.
  pose proof Hp as [Ht [C1 C2 C3 C4] Hr Hlow Hhigh H2 H1 H0 Hi Hd Hpg]; pose proof (supported_bounds n Hn).
  pose proof (Z.div_mod n 2 ltac:(lia)); pose proof (Z.mod_pos_bound n 2 ltac:(lia)).
  destruct (fm_cur _ _ _ _ _ _ _ _ _ _ _ _ _ _ Hf) as (_ & _ & _ & Hfi & _).
  assert (Hpages : forall b, In b (leaf_blocks (new_layout p) ++ branch_blocks (new_layout p)) -> p_root p <= b < index_block p).
  { intros b Hb; apply in_app_iff in Hb; cbn [new_layout leaf_blocks branch_blocks] in Hb.
    destruct Hb as [Hb%list_elem_of_In%range_in | Hb%list_elem_of_In%range_in]; lia. }
  assert (Hres : forall b, In b (leaf_blocks (new_layout p) ++ branch_blocks (new_layout p)) -> 0 <= b < n /\ bitmap_get bm b = true).
  { intros b Hb%Hpages; split; [lia |]; apply reserved_used; [lia | unfold FormatPlanFacts.reserved; lia]. }
  split; try apply Hfi.
  - rewrite (fi_total _ _ _ _ _ _ _ Hfi); exact Ht.
  - split; [apply (fi_generation _ _ _ _ _ _ _ Hfi) | lia].
  - unfold allocation_root; rewrite (fi_root _ _ _ _ _ _ _ Hfi); cbn [new_layout branch_blocks]; rewrite entry_range; lia.
  - rewrite (fi_flags _ _ _ _ _ _ _ Hfi); apply flags_have_tree.
  - apply NoDup_ListNoDup, NoDup_app; split_and!; try apply NoDup_seqZ.
    intros b Hb%range_in; cbn [new_layout branch_blocks]; rewrite range_in; lia.
  - apply List.Forall_forall; intros b Hb%Hpages; apply new_page_fine, Hb.
  - rewrite (fi_free _ _ _ _ _ _ _ Hfi), Ht, Hused; pose proof (marked_clear bm (range 0 n)) as Hm.
    rewrite length_range in Hm; unfold range in *; rewrite Z.sub_0_r in *; lia.
  - rewrite !app_assoc, <- (app_assoc _ (map _ _)); apply Forall_app; split; [apply List.Forall_forall, Hres |].
    change (map (sb_checkpoint_block (header cur)) (seq 0 INFS_CHECKPOINT_COUNT))
      with (map (sb_checkpoint_block (header cur)) [0; 1; 2]%nat); rewrite (fi_checkpoints _ _ _ _ _ _ _ Hfi).
    unfold object_index, root_object; rewrite (fi_index _ _ _ _ _ _ _ Hfi), (fi_directory _ _ _ _ _ _ _ Hfi).
    apply List.Forall_forall; intros b Hb; assert (Hb' : 0 <= b < n /\ reserved p b);
      [| split; [apply Hb' | apply reserved_used; apply Hb']].
    unfold FormatPlanFacts.reserved; apply in_app_iff in Hb; destruct Hb as [Hb | [<- | [<- | []]]]; [| lia | lia].
    split; [| left; apply list_elem_of_In, Hb]; unfold checkpoints in Hb; rewrite Ht in Hb.
    destruct Hb as [<- | [<- | [<- | []]]]; lia.
  - intros _; unfold INFS_LOCATOR_BLOCK_A, INFS_LOCATOR_BLOCK_B; split; (apply reserved_used; [lia |]);
      unfold FormatPlanFacts.reserved, INFS_LOCATOR_BLOCK_A, INFS_LOCATOR_BLOCK_B; tauto.
Qed.

(** The 64 blocks whose bits are the second word of the leaf 503 * 503 - 1 are free in a
    volume whose middle lies below them. *)
Lemma window_free b : one_level2 < n < 2 * (one_level2 - 32128) -> one_level2 - 32128 <= b < one_level2 - 32064 -> bitmap_get bm b = false.
Proof.
  unfold one_level2; intros Hrange Hb; etransitivity; [exact (Hbits b ltac:(lia)) |]; apply bool_decide_false.
  pose proof Hp as [Ht _ Hr Hlow Hhigh _ _ _ _ _ Hpg]; pose proof (Z.div_mod n 2 ltac:(lia)); pose proof (Z.mod_pos_bound n 2 ltac:(lia)).
  unfold FormatPlanFacts.reserved, INFS_LOCATOR_BLOCK_A, INFS_LOCATOR_BLOCK_B, checkpoints; rewrite Ht.
  intros [Hc | [? | [? | ?]]]; try lia; rewrite !elem_of_cons, elem_of_nil in Hc; destruct Hc as [? | [? | [? | []]]]; lia.
Qed.

Lemma window_pointer : bytes_ok bm -> (n + 7) / 8 <= Z.of_nat (length bm) -> one_level2 < n < 2 * (one_level2 - 32128) ->
  page_pointer (blk img (entry (leaf_blocks (new_layout p)) (503 * 503 - 1))) 1 = 0.
Proof.
  intros Hok Hroom Hrange; pose proof new_tree as Ht; pose proof (cn_leaves _ _ _ _ (tr_counted _ _ _ _ _ Ht)) as Hc.
  pose proof (Z.div_mod (n + 7) 8 ltac:(lia)); pose proof (Z.mod_pos_bound (n + 7) 8 ltac:(lia)); unfold one_level2 in *.
  destruct (page_bytes img n 1 bm (new_layout p) Ht Hroom (503 * 503 - 1) ltac:(lia)) as [_ Hs].
  replace (share 32192 n (503 * 503 - 1)) with 32192 in Hs by (unfold share; lia); change (Z.to_nat ((32192 + 7) / 8)) with 4024%nat in Hs.
  unfold page_pointer, le64_at; change (8 * Z.to_nat 1)%nat with 8%nat.
  rewrite <- (slice_in_slice apage_size 4024 _ 8 8), Hs, slice_in_slice by lia.
  replace (slice _ 8 bm) with (replicate 8 0); [rewrite load_le64_law; [reflexivity | reflexivity | eval_decide] |].
  apply list_eq_same_length with 8%nat; [apply length_slice; lia | reflexivity |]; intros i x y Hi Hx Hy.
  apply lookup_replicate in Hx as [-> _]; rewrite lookup_slice, decide_True in Hy by exact Hi; symmetry.
  apply (quiet_byte bm (Z.to_nat ((503 * 503 - 1) * 4024) + 8 + i)%nat y Hok Hy); intros j Hj; apply window_free; unfold one_level2; lia.
Qed.

End Tree.

(** ** Loading it *)

Section Mount.
Context {E : Endian} {P : Platform} {A : CheckedArithmetic} {C K : Type} (image : C -> list Z) (reserves : nat -> bool).

(** Where the header's counts, the bitmap and the index come from one loaded map. *)
Lemma loaded_volume_ok (v : infs_volume C K) n bm :
  sb_wf (sb v) -> supported n -> total_blocks v = n -> bytes_ok bm -> (n + 7) / 8 <= Z.of_nat (length bm) ->
  bitmap_get bm 0 = true -> free_blocks v = clear_bits bm (seqZ 0 n) ->
  volume_ok (free_extent_index_rebuild reserves (set_bitmap v (loaded n bm))).2.
Proof.
  intros Hsb Hs Ht Hok Hl H0 Hfree; pose proof (supported_bounds n Hs) as Hb.
  destruct (bitmap_room_bounds n Hb) as [Hr Hr8]; destruct (loaded_spec n bm Hs Hok Hl) as (L1 & L2 & L3 & _).
  destruct (rebuild_is reserves (set_bitmap v (loaded n bm))) as (fe & fv & k & -> & Hrep).
  { replace (total_blocks _) with n by (destruct v; exact (eq_sym Ht)); lia. }
  destruct v as [st w rs sb' bm' fe' fv' t o pb dc mc cc kk rq]; split; cbn in Hsb, Ht, Hfree |- *; trivial.
  - unfold total_blocks in *; cbn in Ht |- *; lia.
  - unfold total_blocks, bits in *; cbn in Ht |- *; split; [exact L1 | lia].
  - rewrite L3 by lia; exact H0.
  - unfold free_blocks, total_blocks in *; cbn in Ht, Hfree |- *; rewrite Hfree, Ht.
    apply clear_bits_ext; intros b Hx%in_seqZ; symmetry; apply L3; lia.
Qed.

(** C6.  A new volume mounts if it is not too large.  After formatting, recovery returns
    the new superblock, whatever the size.  On any volume on that medium carrying it,
    of at most 503 * 503 * 32192 blocks (31 TiB), the loader of the allocation map
    accepts the tree the formatter wrote: it only reads, returns the planned layout
    and a bitmap that marks exactly the blocks the formatter uses, and with that
    bitmap and the index of free extents built from it the accounting invariant the
    allocators and transactions rely on holds.  Above that size, up to twice it, the
    loader refuses what the formatter wrote: the pointer to the second page of level
    2 is read in a buffer that holds a leaf by then. *)
Theorem new_volume_mounts s img0 n label options uid gid u r index_id s0 :
  (forall k, reserves k = true) ->
  supported n -> medium n img0 -> accepts image s img0 ->
  Z.ldiff options INFS_KNOWN_FORMAT_OPTIONS = 0 -> accept_label label = Good tt -> bytes_ok label ->
  fits 32 uid -> fits 32 gid -> generate_ids s = (Good (u, r, index_id), s0) ->
  (forall b, 0 <= b < n -> header_valid (blk img0 b) -> sb_filesystem_uuid (header (blk img0 b)) <> u) ->
  exists s' s'' img cur p bm,
    infs_format_storage_with_root_owner label options uid gid true s = (OK, s') /\ served image s' img /\
    infs_read_best_superblock s' (n * block_size) = (Good (header cur, 3), s'') /\ planned n p /\
    sb_free_blocks (header cur) = n - (p_leaves p + p_level1 p + p_level2 p + 9) /\
    (forall b, 0 <= b < n -> bitmap_get bm b = bool_decide (reserved p b)) /\
    forall v : infs_volume C K, served image (storage v) img -> sb v = header cur ->
      exists v', only_read v v' /\
        (n <= 503 * 503 * 32192 ->
           allocation_map_load reserves (sb v) true v = (Good (bm, new_layout p), v') /\
           volume_ok (free_extent_index_rebuild reserves (set_bitmap v' bm)).2) /\
        (503 * 503 * 32192 < n < 2 * (503 * 503 * 32192 - 32128) ->
           allocation_map_load reserves (sb v) true v = (Bad CORRUPT, v')).
Proof.
  intros Hmem Hn Hm Ha Hopt Hlab Hlb Huid Hgid Hids Hstale; pose proof (supported_bounds n Hn) as Hb.
  destruct (format_run image s img0 n label options uid gid u r index_id s0) as
    (s' & img & cur & p & bm & Hok & Ha' & Hp & Hbm & Hlen & Hbits & Hu & Hf); trivial.
  assert (Hused : 0 <= marked bm (range 0 n) <= n) by (apply (marked_range n p bm Hn Hp Hbits)).
  pose proof (formatted_anchored _ _ Hn Hp _ _ _ _ _ _ _ _ _ Hu Hused _ _ _ Hf Hstale) as Hanch.
  destruct (anchored_recovers image n img cur s' Hanch (accepts_served _ _ _ Ha')) as (s'' & Hrec).
  destruct (fm_cur _ _ _ _ _ _ _ _ _ _ _ _ _ _ Hf) as (_ & _ & _ & Hfi & _).
  assert (Hroom : (n + 7) / 8 <= Z.of_nat (length bm)).
  { pose proof (Z.div_mod (n + 7) 8 ltac:(lia)); pose proof (Z.mod_pos_bound (n + 7) 8 ltac:(lia)); lia. }
  pose proof (new_header n p bm _ _ _ _ _ _ _ _ _ _ _ Hn Hp Hf Hbits eq_refl) as Hh.
  destruct (loaded_spec n bm Hn Hbm Hroom) as (_ & _ & Hsame & _).
  exists s', s'', img, cur, p, (loaded n bm); split_and!; trivial; [apply accepts_served, Ha' | | |].
  - rewrite (fi_free _ _ _ _ _ _ _ Hfi), (marked_new n p Hn Hp bm Hbits), (pl_total _ _ Hp); reflexivity.
  - intros b Hb'; rewrite Hsame by exact Hb'; exact (Hbits b Hb').
  - intros v Hv Hsb; assert (Hmt : mounted image img n v).
    { split; [exact Hv |]; unfold total_blocks; rewrite Hsb; apply (mh_total _ _ _ _ _ Hh). }
    pose proof (new_tree n p bm _ _ _ _ _ _ _ _ _ _ _ Hn Hp Hf) as Htree; rewrite <- Hsb in Hh.
    pose proof (tr_counted _ _ _ _ _ Htree) as [K1 K2 K3 K4]; pose proof (fm_medium _ _ _ _ _ _ _ _ _ _ _ _ _ _ Hf) as Hmed.
    destruct (Z.le_gt_cases n (503 * 503 * 32192)) as [Hsmall | Hbig].
    + destruct (map_load_reads image reserves Hmem img n 1 bm (new_layout p) (sb v) Hmed Hn Htree Hh Hbm Hroom ltac:(lia) v Hmt) as (v' & -> & [_ Ht'] & Hread).
      exists v'; split; [exact Hread |]; split; [intros _; split; [reflexivity |] | lia].
      assert (Hsb' : sb v' = header cur) by (destruct Hread as (s1 & k & ->); rewrite <- Hsb; destruct v; reflexivity).
      apply loaded_volume_ok; trivial; [split; rewrite Hsb'; apply Hfi | |].
      * apply (reserved_used n p bm Hbits); [lia | left; left].
      * unfold free_blocks; rewrite Hsb', <- Hsb; exact (mh_free _ _ _ _ _ Hh).
    + destruct (Z.lt_ge_cases n (2 * (503 * 503 * 32192 - 32128))) as [Hrange | Hhuge]; [| exists v; split; [apply only_read_refl | lia]].
      pose proof (window_pointer n p bm _ _ _ _ _ _ _ _ _ _ _ Hn Hp Hf Hbits Hbm Hroom ltac:(unfold one_level2; lia)) as Hwin.
      destruct (map_load_refused image reserves Hmem img n 1 bm (new_layout p) (sb v) Hmed Hn Htree Hh Hroom ltac:(lia) Hwin v Hmt) as (v' & E' & Hread).
      exists v'; split; [exact Hread | split; [lia | intros _; exact E']].
Qed.

End Mount.

(** ** A sample *)

Section Samples.
#[local] Existing Instance reference_endian.
#[local] Existing Instance reference_platform.
#[local] Existing Instance reference_arithmetic.

Lemma new_volume_mounts_witness :
  exists s' s'' img cur p bm,
    infs_format_storage_with_root_owner sample_label 3 1000 1000 true (device_storage blank 1) = (OK, s') /\
    served contents s' img /\
    infs_read_best_superblock s' (4096 * block_size) = (Good (header cur, 3), s'') /\ planned 4096 p /\
    sb_free_blocks (header cur) = 4096 - (p_leaves p + p_level1 p + p_level2 p + 9) /\
    (forall b, 0 <= b < 4096 -> bitmap_get bm b = bool_decide (reserved p b)) /\
    forall v : infs_volume device unit, served contents (storage v) img -> sb v = header cur ->
      exists v', only_read v v' /\
        (4096 <= 503 * 503 * 32192 ->
           allocation_map_load (fun _ => true) (sb v) true v = (Good (bm, new_layout p), v') /\
           volume_ok (free_extent_index_rebuild (fun _ => true) (set_bitmap v' bm)).2) /\
        (503 * 503 * 32192 < 4096 < 2 * (503 * 503 * 32192 - 32128) ->
           allocation_map_load (fun _ => true) (sb v) true v = (Bad CORRUPT, v')).
Proof.
  apply (new_volume_mounts contents (fun _ => true) (device_storage blank 1) blank 4096 sample_label 3 1000 1000
    (replicate 16 1) (replicate 16 2) (replicate 16 3) (device_storage blank 4)).
  - reflexivity.
  - unfold supported, INFS_LOCATOR_MIN_VOLUME_BLOCKS; destruct capacity_values as (_ & _ & _ & ->); lia.
  - exact blank_medium.
  - apply device_accepts.
  - reflexivity.
  - reflexivity.
  - eval_decide.
  - eval_decide.
  - eval_decide.
  - apply device_ids.
  - intros b Hb Hv; destruct (blank_not_header b Hb Hv).
Defined.

End Samples.

End NewVolumeFacts.
