(* ===== verification/Encrypted.v ===== *)
(** Encrypted storage, [src/src/storage_encrypted.c]: a storage backend that keeps
    every 4096-byte block as a record of nonce, tag and ciphertext on another
    backend, behind a header that holds the wrapped volume key.

    The cryptographic primitives of OpenSSL are the interface [Crypto]; its laws
    are that decryption inverts encryption under the same key, nonce and associated
    data, and the sizes of what the primitives return.  [mallocs] answers the
    requests for memory, in their order, and [lock_init] whether a lock could be
    made; a lock only serialises the calls, so an operation is a sequential function.
    Clearing of buffers that are not read again has no counterpart. *)

From stdpp Require Import prelude.
From S2P Require Import Prelude Endian Format Storage Objects Locator FormatVolume.
#[local] Open Scope Z_scope.

(** * Definitions *)

(** What the OpenSSL calls of the backend yield.  [gcm_encrypt] and [gcm_decrypt] are
    AES-256-GCM over the key, the nonce, the associated data and the text, with a tag. *)
Class Crypto := {
  pbkdf2_hmac_sha256 : list Z -> list Z -> Z -> option (list Z);
  hmac_sha256 : list Z -> list Z -> option (list Z);
  gcm_encrypt : list Z -> list Z -> list Z -> list Z -> result (list Z * list Z);
  gcm_decrypt : list Z -> list Z -> list Z -> list Z -> list Z -> result (list Z);
  pbkdf2_law pass salt iterations kek :
    pbkdf2_hmac_sha256 pass salt iterations = Some kek -> length kek = 32%nat;
  gcm_size_law key nonce aad plain cipher tag :
    gcm_encrypt key nonce aad plain = Good (cipher, tag) ->
    length cipher = length plain /\ length tag = 16%nat;
  gcm_bytes_law key nonce aad plain cipher tag :
    gcm_encrypt key nonce aad plain = Good (cipher, tag) -> bytes_ok plain -> bytes_ok cipher /\ bytes_ok tag;
  gcm_inverse_law key nonce aad plain cipher tag :
    gcm_encrypt key nonce aad plain = Good (cipher, tag) ->
    gcm_decrypt key nonce aad cipher tag = Good plain;
  gcm_open_law key nonce aad cipher tag plain :
    gcm_decrypt key nonce aad cipher tag = Good plain -> length plain = length cipher;
  gcm_refusal_law key nonce aad cipher tag : gcm_decrypt key nonce aad cipher tag <> Bad OK
}.

Module Encrypted.
Import Storage Objects Locator FormatVolume.

(** ** Constants *)

Definition ENC_HEADER_BYTES : Z := 4096.
Definition ENC_LOGICAL_BLOCK : Z := 4096.
Definition ENC_NONCE_BYTES : nat := 12.
Definition ENC_TAG_BYTES : nat := 16.
Definition ENC_KEY_BYTES : nat := 32.
Definition ENC_SALT_BYTES : nat := 16.
Definition ENC_RECORD_BYTES : Z := ENC_LOGICAL_BLOCK + Z.of_nat ENC_NONCE_BYTES + Z.of_nat ENC_TAG_BYTES.
Definition ENC_VERSION : Z := 1.
(** INFSEV01 *)
Definition ENC_MAGIC : list Z := [73; 78; 70; 83; 69; 86; 48; 49].
Definition ENC_LOCK_STRIPES : nat := 64.
Definition INFS_ENCRYPTED_STORAGE_DEFAULT_KDF_ITERATIONS : Z := 600000.
Definition INT_MAX : Z := 2 ^ 31 - 1.

Definition H_OFF_VERSION : nat := 8.
Definition H_OFF_HEADER_BYTES : nat := 12.
Definition H_OFF_BLOCK_BYTES : nat := 16.
Definition H_OFF_RECORD_BYTES : nat := 20.
Definition H_OFF_LOGICAL_BLOCKS : nat := 24.
Definition H_OFF_KDF_ITERATIONS : nat := 32.
Definition H_OFF_RESERVED : nat := 36.
Definition H_OFF_SALT : nat := 40.
Definition H_OFF_WRAP_NONCE : nat := 56.
Definition H_OFF_WRAPPED_KEY : nat := 68.
Definition H_OFF_WRAP_TAG : nat := 100.

(** InfiltratorFS encryption domain v1 *)
Definition domain_label : list Z :=
  [73; 110; 102; 105; 108; 116; 114; 97; 116; 111; 114; 70; 83; 32; 101; 110; 99; 114; 121; 112; 116; 105; 111; 110;
   32; 100; 111; 109; 97; 105; 110; 32; 118; 49].

(** ** Contexts *)

(** [requests] counts the requests for memory. *)
Record encrypted_context {C : Type} := Enc {
  backing : infs_storage C; logical_blocks : Z; logical_size : Z;
  salt : list Z; volume_key : list Z; requests : nat
}.
#[global] Arguments encrypted_context : clear implicits.
#[global] Arguments Enc {C}.

Section Encrypted.
Context {E : Endian} {Cr : Crypto} {C : Type}.
Context (mallocs : nat -> bool) (lock_init : nat -> bool).

Definition set_backing (ctx : encrypted_context C) (s : infs_storage C) : encrypted_context C :=
  Enc s (logical_blocks ctx) (logical_size ctx) (salt ctx) (volume_key ctx) (requests ctx).

Definition malloc (ctx : encrypted_context C) : bool * encrypted_context C :=
  (mallocs (requests ctx),
   Enc (backing ctx) (logical_blocks ctx) (logical_size ctx) (salt ctx) (volume_key ctx) (S (requests ctx))).

Definition range_valid (logical_size offset size : Z) : bool :=
  (offset <=? logical_size) && (size <=? logical_size - offset).

Definition physical_record_offset (logical_block : Z) : option Z :=
  if logical_block >? (2 ^ 64 - 1 - ENC_HEADER_BYTES) / ENC_RECORD_BYTES then None
  else Some (ENC_HEADER_BYTES + logical_block * ENC_RECORD_BYTES).

(** ** Keys *)

Definition derive_kek (passphrase salt : list Z) (iterations : Z) : result (list Z) :=
  let size := Z.of_nat (length passphrase) in
  if (size =? 0) || (size >? INT_MAX) || (iterations <? 100000) || (iterations >? INT_MAX)
  then Bad INVALID_ARGUMENT
  else match pbkdf2_hmac_sha256 passphrase salt iterations with Some kek => Good kek | None => Bad ERROR end.

Definition aead_encrypt (key nonce aad plain : list Z) : result (list Z * list Z) :=
  if (Z.of_nat (length aad) >? INT_MAX) || (Z.of_nat (length plain) >? INT_MAX) then Bad OVERFLOW
  else gcm_encrypt key nonce aad plain.

Definition aead_decrypt (key nonce aad cipher tag : list Z) : result (list Z) :=
  if (Z.of_nat (length aad) >? INT_MAX) || (Z.of_nat (length cipher) >? INT_MAX) then Bad OVERFLOW
  else gcm_decrypt key nonce aad cipher tag.

Definition domain_key (ctx : encrypted_context C) (domain : Z) : result (list Z) :=
  if domain =? 0 then Good (volume_key ctx)
  else match hmac_sha256 (volume_key ctx) (domain_label ++ [domain]) with
       | Some mac => if decide (length mac = ENC_KEY_BYTES) then Good mac else Bad ERROR
       | None => Bad ERROR
       end.

Definition block_aad (ctx : encrypted_context C) (logical_block domain : Z) : list Z :=
  salt ctx ++ store_le64 logical_block ++ (if domain =? 0 then [] else [domain]).

(** ** Blocks *)

Definition policy_domain (policy : option infs_storage_io_policy) : Z :=
  match policy with Some p => encryption_domain p | None => 0 end.

(** The policy the backing storage sees. *)
Definition backing_policy (policy : option infs_storage_io_policy) : option infs_storage_io_policy :=
  match policy with
  | Some p => Some (Policy (object_id p) (protection_copies p) 0)
  | None => None
  end.

(** Where the record of a block of the volume lies. *)
Definition record_offset (ctx : encrypted_context C) (logical_block : Z) : option Z :=
  if logical_block >=? logical_blocks ctx then None else physical_record_offset logical_block.

Definition encrypted_read_block (ctx : encrypted_context C) (logical_block : Z) (policy : option infs_storage_io_policy)
    : result (list Z) * encrypted_context C :=
  match record_offset ctx logical_block with
  | None => (Bad IO_ERROR, ctx)
  | Some physical =>
      let '(ok, ctx) := malloc ctx in
      if negb ok then (Bad NO_MEMORY, ctx)
      else
        let '(r, s) := infs_storage_read_policy (backing ctx) physical (Z.to_nat ENC_RECORD_BYTES) (backing_policy policy) in
        let domain := policy_domain policy in
        ((record ← r;
          key ← domain_key ctx domain;
          aead_decrypt key (slice 0 ENC_NONCE_BYTES record) (block_aad ctx logical_block domain)
            (slice (ENC_NONCE_BYTES + ENC_TAG_BYTES) (Z.to_nat ENC_LOGICAL_BLOCK) record)
            (slice ENC_NONCE_BYTES ENC_TAG_BYTES record)), set_backing ctx s)
  end.

Definition encrypted_write_block (ctx : encrypted_context C) (logical_block : Z) (policy : option infs_storage_io_policy)
    (plain : list Z) : infs_status * encrypted_context C :=
  match record_offset ctx logical_block with
  | None => (IO_ERROR, ctx)
  | Some physical =>
      let '(ok, ctx) := malloc ctx in
      if negb ok then (NO_MEMORY, ctx)
      else
        let '(r, s) := infs_storage_random (backing ctx) ENC_NONCE_BYTES in
        let domain := policy_domain policy in
        match (nonce ← r;
               key ← domain_key ctx domain;
               '(cipher, tag) ← aead_encrypt key nonce (block_aad ctx logical_block domain) plain;
               mret (nonce ++ tag ++ cipher)) with
        | Bad e => (e, set_backing ctx s)
        | Good record =>
            let '(e, s) := infs_storage_write_policy s physical record (backing_policy policy) in
            (e, set_backing ctx s)
        end
  end.

(** ** Ranges *)

(** The block, the place in it and the length of the next piece. *)
Definition piece (offset done : Z) (size : nat) : Z * nat * nat :=
  let position := u64 (offset + done) in
  let within := Z.to_nat (position mod ENC_LOGICAL_BLOCK) in
  (position / ENC_LOGICAL_BLOCK, within, Nat.min (Z.to_nat ENC_LOGICAL_BLOCK - within) size).

(** The [while] loop with [size] bytes left; every turn takes at least one, and
    [fuel] bounds the turns. *)
Fixpoint read_loop (fuel : nat) (policy : option infs_storage_io_policy) (offset done : Z) (size : nat)
    (ctx : encrypted_context C) : result (list Z) * encrypted_context C :=
  match fuel, size with
  | _, O => (Good [], ctx)
  | O, S _ => (Bad ERROR, ctx)
  | S fuel', S _ =>
      let '(logical, within, chunk) := piece offset done size in
      let '(r, ctx) := encrypted_read_block ctx logical policy in
      match r with
      | Bad e => (Bad e, ctx)
      | Good block =>
          let '(rest, ctx) := read_loop fuel' policy offset (done + Z.of_nat chunk) (size - chunk) ctx in
          (bytes ← rest; mret (slice within chunk block ++ bytes), ctx)
      end
  end.

Definition encrypted_read_policy (ctx : encrypted_context C) (offset : Z) (size : nat)
    (policy : option infs_storage_io_policy) : result (list Z) * encrypted_context C :=
  if negb (range_valid (logical_size ctx) offset (Z.of_nat size)) then (Bad IO_ERROR, ctx)
  else read_loop size policy offset 0 size ctx.

Definition encrypted_read (ctx : encrypted_context C) (offset : Z) (size : nat) :=
  encrypted_read_policy ctx offset size None.

(** One piece: a partial block is read first. *)
Definition write_piece (policy : option infs_storage_io_policy) (logical : Z) (within : nat) (bytes : list Z)
    (ctx : encrypted_context C) : infs_status * encrypted_context C :=
  let '(r, ctx) :=
    if negb (within =? 0)%nat || negb (length bytes =? Z.to_nat ENC_LOGICAL_BLOCK)%nat
    then encrypted_read_block ctx logical policy
    else (Good (replicate (Z.to_nat ENC_LOGICAL_BLOCK) 0), ctx) in
  match r with
  | Bad e => (e, ctx)
  | Good block => encrypted_write_block ctx logical policy (splice within bytes block)
  end.

Fixpoint write_loop (fuel : nat) (policy : option infs_storage_io_policy) (offset done : Z) (buffer : list Z)
    (ctx : encrypted_context C) : infs_status * encrypted_context C :=
  match fuel, buffer with
  | _, [] => (OK, ctx)
  | O, _ :: _ => (ERROR, ctx)
  | S fuel', _ :: _ =>
      let '(logical, within, chunk) := piece offset done (length buffer) in
      let '(e, ctx) := write_piece policy logical within (take chunk buffer) ctx in
      if decide (e = OK) then write_loop fuel' policy offset (done + Z.of_nat chunk) (drop chunk buffer) ctx else (e, ctx)
  end.

Definition encrypted_write_policy (ctx : encrypted_context C) (offset : Z) (buffer : list Z)
    (policy : option infs_storage_io_policy) : infs_status * encrypted_context C :=
  if negb (range_valid (logical_size ctx) offset (Z.of_nat (length buffer))) then (IO_ERROR, ctx)
  else write_loop (length buffer) policy offset 0 buffer ctx.

Definition encrypted_write (ctx : encrypted_context C) (offset : Z) (buffer : list Z) :=
  encrypted_write_policy ctx offset buffer None.

(** ** The other callbacks *)

Definition encrypted_flush (ctx : encrypted_context C) : infs_status * encrypted_context C :=
  let '(e, s) := infs_storage_flush (backing ctx) in (e, set_backing ctx s).

Definition encrypted_size (ctx : encrypted_context C) : result (Z * bool) := Good (logical_size ctx, false).

Definition encrypted_random (ctx : encrypted_context C) (size : nat) : result (list Z) * encrypted_context C :=
  let '(r, s) := infs_storage_random (backing ctx) size in (r, set_backing ctx s).

Definition encrypted_time (ctx : encrypted_context C) : result infs_timestamp * encrypted_context C :=
  let '(r, s) := infs_storage_current_time (backing ctx) in (r, set_backing ctx s).

(** The key and the salt are overwritten, the backing storage is closed. *)
Definition encrypted_close (ctx : encrypted_context C) : encrypted_context C :=
  Enc (infs_storage_close (backing ctx)).1 (logical_blocks ctx) (logical_size ctx)
    (replicate ENC_SALT_BYTES 0) (replicate ENC_KEY_BYTES 0) (requests ctx).

Definition encrypted_ops : infs_storage_ops (encrypted_context C) := {|
  read_at := Some encrypted_read;
  write_at := Some encrypted_write;
  read_at_policy := Some encrypted_read_policy;
  write_at_policy := Some encrypted_write_policy;
  flush := Some encrypted_flush;
  get_size := Some encrypted_size;
  random_bytes := Some encrypted_random;
  current_time := Some encrypted_time;
  close := Some encrypted_close
|}.

(** ** Creating and opening *)

(** The new handle takes over the backing storage, and the caller's is cleared;
    [request] is the number of the request for memory. *)
Definition encrypted_take_backing (logical_blocks : Z) (salt key : list Z) (request : nat)
    : io C (infs_storage (encrypted_context C)) := fun s =>
  if negb (mallocs request) then (Bad NO_MEMORY, s)
  else if negb (forallb lock_init (seq 0 ENC_LOCK_STRIPES)) then (Bad ERROR, s)
  else (Good (Handle (Some encrypted_ops)
                (Some (Enc s logical_blocks (u64 (logical_blocks * ENC_LOGICAL_BLOCK)) salt key (S request)))),
        Handle None None).

(** The fixed fields, the salt and the nonce: the header up to the wrapped key. *)
Definition header_fields (logical_blocks iterations : Z) (salt nonce : list Z) : list Z :=
  let header := replicate (Z.to_nat ENC_HEADER_BYTES) 0 in
  let header := splice 0 ENC_MAGIC header in
  let header := splice H_OFF_VERSION (store_le32 ENC_VERSION) header in
  let header := splice H_OFF_HEADER_BYTES (store_le32 ENC_HEADER_BYTES) header in
  let header := splice H_OFF_BLOCK_BYTES (store_le32 ENC_LOGICAL_BLOCK) header in
  let header := splice H_OFF_RECORD_BYTES (store_le32 ENC_RECORD_BYTES) header in
  let header := splice H_OFF_LOGICAL_BLOCKS (store_le64 logical_blocks) header in
  let header := splice H_OFF_KDF_ITERATIONS (store_le32 iterations) header in
  let header := splice H_OFF_RESERVED (store_le32 0) header in
  let header := splice H_OFF_SALT salt header in
  splice H_OFF_WRAP_NONCE nonce header.

(** Every block of a new volume is written as zeros; the handle of the context is
    the caller's.  The number of requests for memory comes back. *)
Fixpoint initialise (blocks : list Z) (ctx : encrypted_context C) : infs_status * encrypted_context C :=
  match blocks with
  | [] => (OK, ctx)
  | block :: rest =>
      let '(e, ctx) := encrypted_write_block ctx block None (replicate (Z.to_nat ENC_LOGICAL_BLOCK) 0) in
      if decide (e = OK) then initialise rest ctx else (e, ctx)
  end.

Definition initialise_blocks (logical_blocks : Z) (salt key : list Z) : io C nat := fun s =>
  let '(e, ctx) := initialise (range 0 logical_blocks)
    (Enc s logical_blocks (u64 (logical_blocks * ENC_LOGICAL_BLOCK)) salt key 0) in
  (if decide (e = OK) then Good (requests ctx) else Bad e, backing ctx).

(** How many blocks fit. *)
Definition plan_blocks (physical_size : Z) : result Z :=
  if physical_size <? ENC_HEADER_BYTES + ENC_RECORD_BYTES then Bad NO_SPACE
  else
    let logical_blocks := (physical_size - ENC_HEADER_BYTES) / ENC_RECORD_BYTES in
    if (logical_blocks =? 0) || (logical_blocks >? (2 ^ 64 - 1) / ENC_LOGICAL_BLOCK) then Bad OVERFLOW
    else Good logical_blocks.

(** [aliased] is whether the output is the backing handle itself. *)
Definition infs_storage_encrypted_format (passphrase : list Z) (kdf_iterations : Z) (aliased : bool)
    : io C (infs_storage (encrypted_context C)) := fun s =>
  if negb (infs_storage_valid s) || bool_decide (passphrase = []) || aliased then (Bad INVALID_ARGUMENT, s)
  else
    let iterations := if kdf_iterations =? 0 then INFS_ENCRYPTED_STORAGE_DEFAULT_KDF_ITERATIONS else kdf_iterations in
    if (iterations <? 100000) || (iterations >? INT_MAX) then (Bad INVALID_ARGUMENT, s)
    else
      ('(physical_size, _) ← pure (infs_storage_get_size s);
       logical_blocks ← pure (plan_blocks physical_size);
       salt ← (fun s => infs_storage_random s ENC_SALT_BYTES);
       nonce ← (fun s => infs_storage_random s ENC_NONCE_BYTES);
       key ← (fun s => infs_storage_random s ENC_KEY_BYTES);
       let header := header_fields logical_blocks iterations salt nonce in
       kek ← pure (derive_kek passphrase salt iterations);
       '(cipher, tag) ← pure (aead_encrypt kek nonce (take H_OFF_WRAPPED_KEY header) key);
       let header := splice H_OFF_WRAP_TAG tag (splice H_OFF_WRAPPED_KEY cipher header) in
       _ ← checked (fun s => infs_storage_write s 0 header);
       request ← initialise_blocks logical_blocks salt key;
       _ ← checked infs_storage_flush;
       encrypted_take_backing logical_blocks salt key request) s.

(** The checks of the fixed fields and of the reserved bytes. *)
Definition header_refused (header : list Z) : bool :=
  negb (bytes_eqb (slice 0 8 header) ENC_MAGIC) ||
  negb (le32_at H_OFF_VERSION header =? ENC_VERSION) ||
  negb (le32_at H_OFF_HEADER_BYTES header =? ENC_HEADER_BYTES) ||
  negb (le32_at H_OFF_BLOCK_BYTES header =? ENC_LOGICAL_BLOCK) ||
  negb (le32_at H_OFF_RECORD_BYTES header =? ENC_RECORD_BYTES) ||
  negb (le32_at H_OFF_RESERVED header =? 0) ||
  negb (forallb (Z.eqb 0) (drop (H_OFF_WRAP_TAG + ENC_TAG_BYTES) header)).

Definition geometry_refused (logical_blocks iterations physical_size : Z) : bool :=
  (logical_blocks =? 0) || (iterations <? 100000) || (iterations >? INT_MAX) ||
  (logical_blocks >? (2 ^ 64 - 1 - ENC_HEADER_BYTES) / ENC_RECORD_BYTES) ||
  (ENC_HEADER_BYTES + logical_blocks * ENC_RECORD_BYTES >? physical_size).

Definition infs_storage_encrypted_open (passphrase : list Z) (aliased : bool)
    : io C (infs_storage (encrypted_context C)) := fun s =>
  if negb (infs_storage_valid s) || bool_decide (passphrase = []) || aliased then (Bad INVALID_ARGUMENT, s)
  else
    (header ← (fun s => infs_storage_read s 0 (Z.to_nat ENC_HEADER_BYTES));
     _ ← pure (if header_refused header then Bad CORRUPT else Good tt);
     let logical_blocks := le64_at H_OFF_LOGICAL_BLOCKS header in
     let iterations := le32_at H_OFF_KDF_ITERATIONS header in
     '(physical_size, _) ← (fun s => (infs_storage_get_size s, s));
     _ ← pure (if geometry_refused logical_blocks iterations physical_size then Bad CORRUPT else Good tt);
     let salt := slice H_OFF_SALT ENC_SALT_BYTES header in
     kek ← pure (derive_kek passphrase salt iterations);
     key ← pure (aead_decrypt kek (slice H_OFF_WRAP_NONCE ENC_NONCE_BYTES header) (take H_OFF_WRAPPED_KEY header)
                   (slice H_OFF_WRAPPED_KEY ENC_KEY_BYTES header) (slice H_OFF_WRAP_TAG ENC_TAG_BYTES header));
     encrypted_take_backing logical_blocks salt key 0) s.

End Encrypted.
End Encrypted.
