(* ===== verification/EncryptedDevice.v ===== *)
(** Encrypted storage ([Encrypted.v]) is storage: over a backend that does what it is
    asked, the encrypted backend again does, for the bytes it decrypts to without a
    policy, so what is proved of formatting and mounting on such storage holds on
    encrypted storage. *)

From Stdlib Require Import ZifyBool.
From stdpp Require Import prelude relations.
From S2P Require Import Prelude Endian Checksum Format Storage Objects Locator Discovery Crash FormatVolume FormatPlan.
From S2P Require Import Formatting FreshVolume Encrypted.
#[local] Open Scope Z_scope.

Module EncryptedFacts.
Import Storage StorageFacts Objects ObjectsFacts Locator DiscoveryFacts CrashFacts FormatVolume FormatPlanFacts FormattingFacts
  FreshVolumeFacts Encrypted.

(** ** The backing storage *)

Section Backing.
Context {C : Type} (image : C -> list Z).

(** It obliges, random bytes are to be had, and a call with a policy argument but no
    policy is the plain call. *)
Record dependable (o : infs_storage_ops C) (healthy : C -> Prop) : Prop := {
  dp_obliging : obliging image o healthy;
  dp_random f c k : random_bytes o = Some f -> healthy c -> exists bs c', f c k = (Good bs, c');
  dp_read_policy f : read_at_policy o = Some f -> exists g, read_at o = Some g /\ forall c off k, f c off k None = g c off k;
  dp_write_policy f : write_at_policy o = Some f -> exists g, write_at o = Some g /\ forall c off bs, f c off bs None = g c off bs
}.

Definition backed (s : infs_storage C) (img : list Z) : Prop :=
  exists o c healthy, ops s = Some o /\ context s = Some c /\ image c = img /\ healthy c /\ dependable o healthy.

Lemma backed_accepts s img : backed s img -> accepts image s img.
Proof. intros (o & c & G & ? & ? & ? & ? & []); exists o, c, G; split_and!; assumption. Qed.

Lemma backed_valid s img : backed s img -> infs_storage_valid s = true.
Proof. intros H%backed_accepts; eapply accepts_valid, H. Qed.

Lemma backed_with_context s o c' (healthy : C -> Prop) :
  ops s = Some o -> healthy c' -> dependable o healthy -> backed (with_context s c') (image c').
Proof. intros; exists o, c', healthy; split_and!; trivial. Qed.

Lemma backed_read s img off k :
  backed s img -> 0 <= off -> (Z.to_nat off + k <= length img)%nat ->
  exists s', infs_storage_read s off k = (Good (slice (Z.to_nat off) k img), s') /\ backed s' img.
Proof.
  intros Hb H0 Hl; pose proof (backed_accepts _ _ Hb) as Ha; destruct Hb as (o & c & G & Ho & Hc & <- & HG & Hd).
  destruct (ob_read _ _ _ (dp_obliging _ _ Hd)) as (f & Hf & Hr); destruct (Hr c off k HG H0 Hl) as (c' & He & Hi & HG').
  exists (with_context s c'); split; [eapply dispatch_call; eassumption | rewrite <- Hi; eapply backed_with_context; eassumption].
Qed.

Lemma backed_write s img off bs :
  backed s img -> 0 <= off -> (Z.to_nat off + length bs <= length img)%nat ->
  exists s', infs_storage_write s off bs = (OK, s') /\ backed s' (splice (Z.to_nat off) bs img).
Proof.
  intros Hb H0 Hl; pose proof (backed_accepts _ _ Hb) as Ha; destruct Hb as (o & c & G & Ho & Hc & <- & HG & Hd).
  destruct (ob_write _ _ _ (dp_obliging _ _ Hd)) as (f & Hf & Hr); destruct (Hr c off bs HG H0 Hl) as (c' & He & Hi & HG').
  exists (with_context s c'); split; [eapply dispatch_call; eassumption | rewrite <- Hi; eapply backed_with_context; eassumption].
Qed.

Lemma backed_read_policy s img off k :
  backed s img -> infs_storage_read_policy s off k None = infs_storage_read s off k.
Proof.
  intros Hb; unfold infs_storage_read_policy; rewrite (backed_valid _ _ Hb); cbn [negb].
  destruct Hb as (o & c & G & Ho & Hc & <- & HG & Hd); rewrite Ho; cbn [mbind option_bind].
  destruct (read_at_policy o) as [f |] eqn:Ef; [| reflexivity]; destruct (dp_read_policy _ _ Hd f Ef) as (g & Eg & Hg).
  unfold infs_storage_read, dispatch; rewrite Ho, Hc, Ef, Eg, Hg; reflexivity.
Qed.

Lemma backed_write_policy s img off bs :
  backed s img -> infs_storage_write_policy s off bs None = infs_storage_write s off bs.
Proof.
  intros Hb; unfold infs_storage_write_policy; rewrite (backed_valid _ _ Hb); cbn [negb].
  destruct Hb as (o & c & G & Ho & Hc & <- & HG & Hd); rewrite Ho; cbn [mbind option_bind].
  destruct (ob_write _ _ _ (dp_obliging _ _ Hd)) as (w & Ew & _); rewrite Ew.
  destruct (write_at_policy o) as [f |] eqn:Ef; [| reflexivity]; destruct (dp_write_policy _ _ Hd f Ef) as (g & Eg & Hg).
  unfold infs_storage_write, dispatch; rewrite Ho, Hc, Ef, Eg, Hg; reflexivity.
Qed.

Lemma backed_random s img k :
  backed s img -> exists bs s', infs_storage_random s k = (Good bs, s') /\ backed s' img /\ length bs = k /\ bytes_ok bs.
Proof.
  intros Hb; pose proof (backed_accepts _ _ Hb) as Ha; destruct Hb as (o & c & G & Ho & Hc & <- & HG & Hd).
  destruct (ob_random _ _ _ (dp_obliging _ _ Hd)) as (f & Hf & Hr); destruct (dp_random _ _ Hd f c k Hf HG) as (bs & c' & He).
  destruct (Hr c k _ c' HG He) as (Hi & HG' & Hbs); destruct (Hbs bs eq_refl).
  exists bs, (with_context s c'); split_and!; trivial; [eapply dispatch_call; eassumption | rewrite <- Hi; eapply backed_with_context; eassumption].
Qed.

Lemma backed_flush s img : backed s img -> exists s', infs_storage_flush s = (OK, s') /\ backed s' img.
Proof.
  intros Hb; pose proof (backed_accepts _ _ Hb) as Ha; destruct Hb as (o & c & G & Ho & Hc & <- & HG & Hd).
  destruct (ob_flush _ _ _ (dp_obliging _ _ Hd)) as (f & Hf & Hr); destruct (Hr c HG) as (c' & He & Hi & HG').
  exists (with_context s c'); split; [eapply dispatch_call; eassumption | rewrite <- Hi; eapply backed_with_context; eassumption].
Qed.

Lemma backed_time s img :
  backed s img -> exists t s', infs_storage_current_time s = (Good t, s') /\ infs_timestamp_valid t = true /\ backed s' img.
Proof.
  intros Hb; pose proof (backed_accepts _ _ Hb) as Ha; destruct Hb as (o & c & G & Ho & Hc & <- & HG & Hd).
  destruct (ob_time _ _ _ (dp_obliging _ _ Hd)) as (f & Hf & Hr); destruct (Hr c HG) as (t & c' & He & Ht & Hi & HG').
  exists t, (with_context s c'); split_and!; trivial; [| rewrite <- Hi; eapply backed_with_context; eassumption].
  unfold infs_storage_current_time; rewrite (dispatch_call image s _ _ _ _ _ _ _ (Good t) c' Ha Ho Hc Hf He), Ht; reflexivity.
Qed.

End Backing.

(** ** Records *)

Section Device.
Context {E : Endian} {Cr : Crypto} {C : Type} (image : C -> list Z) (mallocs lock_init : nat -> bool).
#[local] Abbreviation ctxt := (encrypted_context C).

(** What the record of block [i] decrypts to. *)
Definition record_of (img : list Z) (i : Z) : list Z := slice (Z.to_nat (4096 + i * 4124)) 4124 img.
Definition open_record (ctx : ctxt) (img : list Z) (i : Z) : result (list Z) :=
  let r := record_of img i in
  aead_decrypt (volume_key ctx) (slice 0 12 r) (block_aad ctx i 0) (slice 28 4096 r) (slice 12 16 r).

(** The bytes of a device, as the contexts of [encrypted_ops] show them. *)
Definition plain_block (ctx : ctxt) (img : list Z) (i : Z) : list Z :=
  match open_record ctx img i with Good p => p | Bad _ => replicate 4096 0 end.
Definition logical_image (ctx : ctxt) : list Z :=
  match context (backing ctx) with
  | Some c => concat (map (plain_block ctx (image c)) (range 0 (logical_blocks ctx)))
  | None => []
  end.

(** The medium has room for the records of a volume with a key and a salt. *)
Record roomy (ctx : ctxt) (img : list Z) : Prop := {
  ro_blocks : 0 < logical_blocks ctx;
  ro_room : 4096 + logical_blocks ctx * 4124 <= Z.of_nat (length img) < 2 ^ 64;
  ro_size : logical_size ctx = logical_blocks ctx * 4096;
  ro_key : length (volume_key ctx) = 32%nat;
  ro_salt : length (salt ctx) = 16%nat
}.

(** The medium [img] holds the bytes [plain], block by block. *)
Record vault (ctx : ctxt) (img plain : list Z) : Prop := {
  va_roomy : roomy ctx img;
  va_plain : Z.of_nat (length plain) = logical_blocks ctx * 4096;
  va_open : forall i, 0 <= i < logical_blocks ctx ->
    open_record ctx img i = Good (slice (Z.to_nat (i * 4096)) 4096 plain)
}.

(** The volume of a context is that of another. *)
Definition same_volume (ctx ctx' : ctxt) : Prop :=
  logical_blocks ctx' = logical_blocks ctx /\ logical_size ctx' = logical_size ctx /\
  salt ctx' = salt ctx /\ volume_key ctx' = volume_key ctx.

Lemma same_open (ctx ctx' : ctxt) img i : same_volume ctx ctx' -> open_record ctx' img i = open_record ctx img i.
Proof. intros (_ & _ & Hs & Hk); unfold open_record, block_aad; rewrite Hs, Hk; reflexivity. Qed.

Lemma vault_same (ctx ctx' : ctxt) img plain : same_volume ctx ctx' -> vault ctx img plain -> vault ctx' img plain.
Proof.
  intros Hs [[] ? Ho]; pose proof Hs as (H1 & H2 & H3 & H4); split; [split |..]; rewrite ?H1, ?H2, ?H3, ?H4; trivial.
  intros i Hi; rewrite (same_open ctx ctx' img i Hs); apply Ho, Hi.
Qed.

(** Blocks of equal size, put together. *)
Lemma concat_slices (plain : list Z) (k : nat) m :
  length plain = (m * k)%nat -> concat (map (fun i => slice (Z.to_nat i * k) k plain) (seqZ 0 (Z.of_nat m))) = plain.
Proof.
  revert plain; induction m as [| m IH]; intros plain Hl.
  { destruct plain; [reflexivity | discriminate]. }
  rewrite seqZ_cons by lia; cbn [map concat]; transitivity (take k plain ++ drop k plain); [f_equal | apply take_drop].
  rewrite <- (IH (drop k plain)) by (rewrite length_drop; lia); f_equal.
  replace (Z.pred (Z.of_nat (S m))) with (Z.of_nat m) by lia; change (Z.succ 0) with (1 + 0).
  rewrite (eq_sym (fmap_add_seqZ 1 0 (Z.of_nat m)) : _ = map (Z.add 1) _), List.map_map.
  apply map_ext_in; intros i Hi%list_elem_of_In%elem_of_seqZ; rewrite slice_drop; f_equal; lia.
Qed.

Lemma vault_image (ctx : ctxt) img plain : vault ctx img plain -> backed image (backing ctx) img -> logical_image ctx = plain.
Proof.
  intros [[Hb Hr Hs Hk Hsl] Hp Ho] (o & c & G & _ & Hc & Hi & _); unfold logical_image; rewrite Hc, Hi.
  rewrite <- (concat_slices plain 4096 (Z.to_nat (logical_blocks ctx))) by lia; f_equal.
  unfold range; rewrite Z.sub_0_r, Z2Nat.id by lia; apply map_ext_in; intros i Hx%list_elem_of_In%elem_of_seqZ.
  unfold plain_block; rewrite Ho by lia; f_equal; lia.
Qed.

(** *** One block *)

Hypothesis Hmemory : forall k, mallocs k = true.
(** The cipher does not fail. *)
Hypothesis Hcipher : forall key nonce aad plain, length key = 32%nat -> length nonce = 12%nat ->
  exists cipher tag, gcm_encrypt key nonce aad plain = Good (cipher, tag).

Definition device (ctx : ctxt) (img plain : list Z) : Prop := backed image (backing ctx) img /\ vault ctx img plain.

(** A context that differs in its handle and its requests. *)
Lemma set_backing_same (ctx : ctxt) s : same_volume ctx (set_backing ctx s).
Proof. split_and!; reflexivity. Qed.

Lemma same_refl (ctx : ctxt) : same_volume ctx ctx.
Proof. split_and!; reflexivity. Qed.

Lemma same_trans (ctx1 ctx2 ctx3 : ctxt) : same_volume ctx1 ctx2 -> same_volume ctx2 ctx3 -> same_volume ctx1 ctx3.
Proof. intros (H1 & H2 & H3 & H4) (G1 & G2 & G3 & G4); split_and!; congruence. Qed.

Lemma record_offset_ok (ctx : ctxt) img i :
  roomy ctx img -> 0 <= i < logical_blocks ctx -> record_offset ctx i = Some (4096 + i * 4124).
Proof.
  intros [Hb Hr _ _ _] Hi; unfold record_offset, physical_record_offset, ENC_HEADER_BYTES.
  change ENC_RECORD_BYTES with 4124; replace (i >=? logical_blocks ctx) with false by lia.
  assert (Hq : i <= (2 ^ 64 - 1 - 4096) / 4124) by (apply Z.div_le_lower_bound; lia).
  replace (i >? _) with false by lia; reflexivity.
Qed.

Lemma aad_size (ctx : ctxt) i : length (salt ctx) = 16%nat -> length (block_aad ctx i 0) = 24%nat.
Proof. intros Hs; unfold block_aad; rewrite !length_app, Hs, len64; reflexivity. Qed.

Lemma aead_encrypt_small key nonce aad plain :
  Z.of_nat (length aad) <= INT_MAX -> Z.of_nat (length plain) <= INT_MAX ->
  aead_encrypt key nonce aad plain = gcm_encrypt key nonce aad plain.
Proof. intros Ha Hp; unfold aead_encrypt; replace (_ || _)%bool with false by lia; reflexivity. Qed.

Lemma aead_decrypt_small key nonce aad cipher tag :
  Z.of_nat (length aad) <= INT_MAX -> Z.of_nat (length cipher) <= INT_MAX ->
  aead_decrypt key nonce aad cipher tag = gcm_decrypt key nonce aad cipher tag.
Proof. intros Ha Hp; unfold aead_decrypt; replace (_ || _)%bool with false by lia; reflexivity. Qed.

Lemma read_block_ok (ctx : ctxt) img plain i :
  device ctx img plain -> 0 <= i < logical_blocks ctx ->
  exists ctx', encrypted_read_block mallocs ctx i None = (Good (slice (Z.to_nat (i * 4096)) 4096 plain), ctx') /\
    same_volume ctx ctx' /\ device ctx' img plain.
Proof.
  intros [Hb Hv] Hi; unfold encrypted_read_block; rewrite (record_offset_ok ctx img i (va_roomy _ _ _ Hv) Hi).
  unfold malloc; rewrite Hmemory; cbn [negb backing backing_policy policy_domain].
  rewrite (backed_read_policy image _ img) by exact Hb; pose proof (ro_room _ _ (va_roomy _ _ _ Hv)) as Hr.
  destruct (backed_read image (backing ctx) img (4096 + i * 4124) 4124 Hb) as (s' & E1 & Hb'); [lia | lia |].
  change (Z.to_nat ENC_RECORD_BYTES) with 4124%nat; rewrite E1; eexists; split; [f_equal; exact (va_open _ _ _ Hv i Hi) |].
  assert (Hs : same_volume ctx (set_backing (malloc mallocs ctx).2 s')) by (split_and!; reflexivity).
  split; [exact Hs | split; [exact Hb' | exact (vault_same ctx _ img plain Hs Hv)]].
Qed.

(** The record of a block, sealed. *)
Lemma seal_record (ctx : ctxt) i nonce p :
  length (volume_key ctx) = 32%nat -> length (salt ctx) = 16%nat -> length nonce = 12%nat -> length p = 4096%nat ->
  exists cipher tag, aead_encrypt (volume_key ctx) nonce (block_aad ctx i 0) p = Good (cipher, tag) /\
    length (nonce ++ tag ++ cipher) = 4124%nat /\
    forall img, record_of img i = nonce ++ tag ++ cipher -> open_record ctx img i = Good p.
Proof.
  intros Hk Hs Hn Hp; pose proof (aad_size ctx i Hs) as Ha.
  rewrite aead_encrypt_small by (unfold INT_MAX; lia); destruct (Hcipher _ _ (block_aad ctx i 0) p Hk Hn) as (c & t & He).
  destruct (gcm_size_law _ _ _ _ _ _ He) as [Hc Ht]; exists c, t; split_and!; [exact He | rewrite !length_app; lia |].
  intros img Hr; unfold open_record; rewrite Hr.
  rewrite slice_app_left by lia; rewrite !slice_app_right by lia; rewrite Hn.
  rewrite (slice_app_left (12 - 12) 16 t c) by lia; rewrite Ht.
  unfold slice; cbn [Nat.sub]; rewrite !drop_0, !take_ge by lia.
  rewrite aead_decrypt_small by (unfold INT_MAX; lia); apply (gcm_inverse_law _ _ _ _ _ _ He).
Qed.

(** What a write leaves: the volume, the header of the medium and its length. *)
Record rewritten (ctx ctx' : ctxt) (img img' : list Z) : Prop := {
  rw_same : same_volume ctx ctx';
  rw_backed : backed image (backing ctx') img';
  rw_length : length img' = length img;
  rw_header : take 4096 img' = take 4096 img
}.

Lemma same_roomy (ctx ctx' : ctxt) img img' : same_volume ctx ctx' -> length img' = length img -> roomy ctx img -> roomy ctx' img'.
Proof. intros (H1 & H2 & H3 & H4) Hl []; split; rewrite ?H1, ?H2, ?H3, ?H4, ?Hl; trivial. Qed.

Lemma record_splice img i j bs :
  0 <= i -> 0 <= j -> length bs = 4124%nat -> 4096 + (i + 1) * 4124 <= Z.of_nat (length img) ->
  record_of (splice (Z.to_nat (4096 + i * 4124)) bs img) j = if decide (j = i) then bs else record_of img j.
Proof.
  intros Hi Hj Hl Hr; unfold record_of; case_decide as Hx.
  - subst j; rewrite <- Hl; apply slice_splice_eq; lia.
  - apply slice_splice_ne; lia.
Qed.

Lemma write_block_any (ctx : ctxt) img i p :
  backed image (backing ctx) img -> roomy ctx img -> 0 <= i < logical_blocks ctx -> length p = 4096%nat ->
  exists ctx' img', encrypted_write_block mallocs ctx i None p = (OK, ctx') /\ rewritten ctx ctx' img img' /\
    open_record ctx img' i = Good p /\ forall j, 0 <= j -> j <> i -> record_of img' j = record_of img j.
Proof.
  intros Hb Hro Hi Hp; unfold encrypted_write_block; rewrite (record_offset_ok ctx img i Hro Hi).
  unfold malloc; rewrite Hmemory; cbn [negb backing backing_policy policy_domain].
  destruct (backed_random image (backing ctx) img ENC_NONCE_BYTES Hb) as (nonce & s & -> & Hb1 & Hn & _).
  destruct Hro as [Hpos Hroom Hsize Hkey Hsalt]; unfold domain_key; cbn [Z.eqb volume_key].
  destruct (seal_record ctx i nonce p Hkey Hsalt Hn Hp) as (cipher & tag & He & Hlen & Hopen).
  unfold block_aad in He |- *; cbn [salt mbind result_bind]; rewrite He; cbn [mbind result_bind mret result_ret].
  rewrite (backed_write_policy image _ img) by exact Hb1.
  destruct (backed_write image s img (4096 + i * 4124) (nonce ++ tag ++ cipher) Hb1) as (s' & -> & Hb2); [lia | lia |].
  eexists _, _; split; [reflexivity |]; split; [split | split].
  - split_and!; reflexivity.
  - exact Hb2.
  - apply length_splice; lia.
  - unfold splice; rewrite take_app_le by (rewrite length_take; lia); apply take_take_le || (rewrite take_take; f_equal; lia).
  - apply Hopen; rewrite record_splice by lia; apply decide_True; reflexivity.
  - intros j Hj Hne; rewrite record_splice by lia; apply decide_False, Hne.
Qed.

(** *** Ranges *)

Lemma write_block_ok (ctx : ctxt) img plain i p :
  device ctx img plain -> 0 <= i < logical_blocks ctx -> length p = 4096%nat ->
  exists ctx' img', encrypted_write_block mallocs ctx i None p = (OK, ctx') /\ rewritten ctx ctx' img img' /\
    device ctx' img' (splice (Z.to_nat (i * 4096)) p plain).
Proof.
  intros [Hb Hv] Hi Hp; pose proof Hv as [Hro Hpl Ho]; destruct (write_block_any ctx img i p Hb Hro Hi Hp) as (ctx' & img' & He & Hrw & Hop & Hrec).
  exists ctx', img'; split_and!; trivial; split; [apply (rw_backed _ _ _ _ Hrw) |].
  apply (vault_same ctx); [apply Hrw |]; split.
  - apply (same_roomy ctx ctx img); [apply same_refl | apply Hrw | exact Hro].
  - rewrite length_splice; [exact Hpl | lia].
  - intros j Hj; destruct (Z.eq_dec j i) as [-> | Hne].
    + rewrite Hop, <- Hp, slice_splice_eq by lia; reflexivity.
    + rewrite slice_splice_ne by lia; rewrite <- Ho by exact Hj; unfold open_record; rewrite Hrec by lia; reflexivity.
Qed.

(** The next piece of a range inside the device. *)
Lemma piece_ok (ctx : ctxt) img offset done size :
  roomy ctx img -> 0 <= offset -> 0 <= done -> (0 < size)%nat -> offset + done + Z.of_nat size <= logical_size ctx ->
  exists logical within chunk, piece offset done size = (logical, within, chunk) /\
    0 <= logical < logical_blocks ctx /\ (0 < chunk <= size)%nat /\ (within + chunk <= 4096)%nat /\
    offset + done = logical * 4096 + Z.of_nat within.
Proof.
  intros [Hb Hr Hs _ _] H0 Hd Hsz Hin; unfold piece, ENC_LOGICAL_BLOCK.
  rewrite wrap_small by (unfold fits; lia); change (Z.to_nat 4096) with 4096%nat.
  pose proof (Z.div_mod (offset + done) 4096 ltac:(lia)); pose proof (Z.mod_pos_bound (offset + done) 4096 ltac:(lia)).
  eexists _, _, _; split; [reflexivity | lia].
Qed.

Lemma read_loop_ok fuel (ctx : ctxt) img plain offset done size :
  device ctx img plain -> (size <= fuel)%nat -> 0 <= offset -> 0 <= done -> offset + done + Z.of_nat size <= logical_size ctx ->
  exists ctx', read_loop mallocs fuel None offset done size ctx =
      (Good (slice (Z.to_nat (offset + done)) size plain), ctx') /\ same_volume ctx ctx' /\ device ctx' img plain.
Proof.
  revert ctx done size; induction fuel as [| fuel IH]; intros ctx done size Hd Hfuel H0 Hdone Hin;
    (destruct size as [| m]; [exists ctx; split_and!; [reflexivity | apply same_refl..|]; assumption || apply same_refl |]); [lia |].
  cbn [read_loop]; destruct (piece_ok ctx img offset done (S m)) as (lb & wi & ch & -> & Hlb & Hch & Hwi & Hpos);
    [apply (va_roomy _ _ _ (proj2 Hd)) | lia.. |].
  destruct (read_block_ok ctx img plain lb Hd Hlb) as (ctx1 & -> & Hs1 & Hd1).
  destruct (IH ctx1 (done + Z.of_nat ch) (S m - ch)%nat Hd1) as (ctx2 & -> & Hs2 & Hd2); try lia.
  { destruct Hs1 as (_ & -> & _); lia. }
  exists ctx2; split_and!; [| exact (same_trans _ _ _ Hs1 Hs2) | exact Hd2]; cbn [mbind result_bind mret result_ret]; do 2 f_equal.
  rewrite slice_in_slice by lia.
  replace (Z.to_nat (offset + (done + Z.of_nat ch))) with (Z.to_nat (offset + done) + ch)%nat by lia.
  replace (Z.to_nat (lb * 4096) + wi)%nat with (Z.to_nat (offset + done)) by lia.
  replace (S m) with (ch + (S m - ch))%nat at 2 by lia; apply slice_join.
Qed.

Lemma write_piece_ok (ctx : ctxt) img plain lb wi bs :
  device ctx img plain -> 0 <= lb < logical_blocks ctx -> (wi + length bs <= 4096)%nat ->
  exists ctx' img', write_piece mallocs None lb wi bs ctx = (OK, ctx') /\ rewritten ctx ctx' img img' /\
    device ctx' img' (splice (Z.to_nat (lb * 4096) + wi) bs plain).
Proof.
  intros Hd Hlb Hlen; pose proof Hd as [Hb [Hro Hpl _]]; unfold write_piece; change (Z.to_nat ENC_LOGICAL_BLOCK) with 4096%nat.
  assert (Hone : forall ctx1, same_volume ctx ctx1 -> device ctx1 img plain ->
    forall block, length block = 4096%nat -> splice wi bs block = splice wi bs (slice (Z.to_nat (lb * 4096)) 4096 plain) ->
    exists ctx' img', encrypted_write_block mallocs ctx1 lb None (splice wi bs block) = (OK, ctx') /\
      rewritten ctx ctx' img img' /\ device ctx' img' (splice (Z.to_nat (lb * 4096) + wi) bs plain)).
  { intros ctx1 Hs1 Hd1 block Hbl Hsp; destruct (write_block_ok ctx1 img plain lb (splice wi bs block) Hd1) as (ctx' & img' & He & Hrw & Hd');
      [destruct Hs1 as (-> & _); exact Hlb | rewrite length_splice; lia |].
    exists ctx', img'; split_and!; [exact He | destruct Hrw; split; trivial; eapply same_trans; eassumption |].
    rewrite Hsp, splice_in_splice in Hd' by lia; exact Hd'. }
  assert (Hsl : length (slice (Z.to_nat (lb * 4096)) 4096 plain) = 4096%nat) by (apply length_slice; lia).
  destruct (_ || _)%bool eqn:Ec.
  - destruct (read_block_ok ctx img plain lb Hd Hlb) as (ctx1 & -> & Hs1 & Hd1); apply (Hone ctx1 Hs1 Hd1 _ Hsl eq_refl).
  - apply (Hone ctx (same_refl ctx) Hd); [apply length_replicate |].
    rewrite !splice_whole by (rewrite ?length_replicate, ?Hsl; lia); reflexivity.
Qed.

Lemma write_loop_ok fuel (ctx : ctxt) img plain offset done buffer :
  device ctx img plain -> (length buffer <= fuel)%nat -> 0 <= offset -> 0 <= done ->
  offset + done + Z.of_nat (length buffer) <= logical_size ctx ->
  exists ctx' img', write_loop mallocs fuel None offset done buffer ctx = (OK, ctx') /\ rewritten ctx ctx' img img' /\
    device ctx' img' (splice (Z.to_nat (offset + done)) buffer plain).
Proof.
  revert ctx img plain done buffer; induction fuel as [| fuel IH]; intros ctx img plain done buffer Hd Hfuel H0 Hdone Hin;
    (destruct buffer as [| x buffer];
      [exists ctx, img; split; [reflexivity |]; rewrite splice_nil; split; [split; trivial; [apply same_refl | apply Hd] | exact Hd] |]);
    [cbn in Hfuel; lia |].
  cbn [write_loop]; set (bs := x :: buffer) in *.
  destruct (piece_ok ctx img offset done (length bs)) as (lb & wi & ch & -> & Hlb & Hch & Hwi & Hpos);
    [apply (va_roomy _ _ _ (proj2 Hd)) | lia | lia | cbn; lia | lia |].
  assert (Htl : length (take ch bs) = ch) by (rewrite length_take; lia).
  destruct (write_piece_ok ctx img plain lb wi (take ch bs) Hd Hlb) as (ctx1 & img1 & -> & Hrw1 & Hd1); [lia |].
  rewrite decide_True by reflexivity; pose proof (rw_same _ _ _ _ Hrw1) as (_ & Hls & _).
  destruct (IH ctx1 img1 _ (done + Z.of_nat ch) (drop ch bs) Hd1) as (ctx2 & img2 & -> & Hrw2 & Hd2);
    [rewrite length_drop; lia | lia | lia | rewrite length_drop, Hls; lia |].
  exists ctx2, img2; split; [reflexivity |]; split.
  - destruct Hrw1, Hrw2; split; [eapply same_trans; eassumption | assumption | congruence | congruence].
  - replace (Z.to_nat (lb * 4096) + wi)%nat with (Z.to_nat (offset + done)) in Hd2 by lia.
    replace (Z.to_nat (offset + (done + Z.of_nat ch))) with (Z.to_nat (offset + done) + length (take ch bs))%nat in Hd2 by lia.
    destruct Hd as [_ [[_ _ Hsz _ _] Hpl _]].
    rewrite splice_join, take_drop in Hd2 by (rewrite length_drop; lia); exact Hd2.
Qed.

(** *** The backend *)

Definition healthy (ctx : ctxt) : Prop := exists img plain, device ctx img plain.

Lemma device_image (ctx : ctxt) img plain : device ctx img plain -> logical_image ctx = plain.
Proof. intros [Hb Hv]; apply (vault_image ctx img); assumption. Qed.

Lemma device_moved (ctx ctx' : ctxt) img plain :
  device ctx img plain -> same_volume ctx ctx' -> backed image (backing ctx') img -> device ctx' img plain.
Proof. intros [_ Hv] Hs Hb; split; [exact Hb | apply (vault_same ctx); assumption]. Qed.

Lemma read_ok_device (ctx : ctxt) img plain off k :
  device ctx img plain -> 0 <= off -> (Z.to_nat off + k <= length plain)%nat ->
  exists ctx', encrypted_read mallocs ctx off k = (Good (slice (Z.to_nat off) k plain), ctx') /\
    same_volume ctx ctx' /\ device ctx' img plain.
Proof.
  intros Hd H0 Hl; pose proof Hd as [_ [[_ _ Hsz _ _] Hpl _]]; unfold encrypted_read, encrypted_read_policy, range_valid.
  replace (_ && _)%bool with true by lia; cbn [negb].
  destruct (read_loop_ok k ctx img plain off 0 k Hd) as (ctx' & -> & ?); [lia.. |].
  exists ctx'; rewrite Z.add_0_r; auto.
Qed.

Lemma write_ok_device (ctx : ctxt) img plain off bs :
  device ctx img plain -> 0 <= off -> (Z.to_nat off + length bs <= length plain)%nat ->
  exists ctx' img', encrypted_write mallocs ctx off bs = (OK, ctx') /\ rewritten ctx ctx' img img' /\
    device ctx' img' (splice (Z.to_nat off) bs plain).
Proof.
  intros Hd H0 Hl; pose proof Hd as [_ [[_ _ Hsz _ _] Hpl _]]; unfold encrypted_write, encrypted_write_policy, range_valid.
  replace (_ && _)%bool with true by lia; cbn [negb].
  destruct (write_loop_ok (length bs) ctx img plain off 0 bs Hd) as (ctx' & img' & -> & ?); [lia.. |].
  exists ctx', img'; rewrite Z.add_0_r in *; auto.
Qed.

(** Outside the device nothing is read or written. *)
Lemma outside_refused (ctx : ctxt) img plain off k policy :
  device ctx img plain -> Z.of_nat (length plain) < off + Z.of_nat k -> 0 <= off ->
  encrypted_read_policy mallocs ctx off k policy = (Bad IO_ERROR, ctx) /\
  forall bs, length bs = k -> encrypted_write_policy mallocs ctx off bs policy = (IO_ERROR, ctx).
Proof.
  intros [_ [[_ _ Hsz _ _] Hpl _]] Hk H0; unfold encrypted_read_policy, encrypted_write_policy, range_valid.
  split; [| intros bs ->]; replace (_ && _)%bool with false by lia; reflexivity.
Qed.

Lemma encrypted_dependable : dependable logical_image (encrypted_ops mallocs) healthy.
Proof.
  split; [split | ..]; cbn [encrypted_ops read_at write_at flush get_size random_bytes current_time read_at_policy write_at_policy].
  - eexists; split; [reflexivity |]; intros ctx off k (img & plain & Hd) H0 Hl; rewrite (device_image _ _ _ Hd) in *.
    destruct (read_ok_device ctx img plain off k Hd H0 Hl) as (ctx' & He & _ & Hd'); exists ctx'.
    rewrite (device_image _ _ _ Hd'); split_and!; [exact He | reflexivity | exists img, plain; exact Hd'].
  - eexists; split; [reflexivity |]; intros ctx off bs (img & plain & Hd) H0 Hl; rewrite (device_image _ _ _ Hd) in *.
    destruct (write_ok_device ctx img plain off bs Hd H0 Hl) as (ctx' & img' & He & _ & Hd'); exists ctx'.
    rewrite (device_image _ _ _ Hd'); split_and!; [exact He | reflexivity | eexists _, _; exact Hd'].
  - eexists; split; [reflexivity |]; intros ctx (img & plain & Hd); unfold encrypted_flush.
    destruct (backed_flush image _ _ (proj1 Hd)) as (s' & -> & Hb'); eexists; split; [reflexivity |].
    pose proof (device_moved ctx (set_backing ctx s') img plain Hd (set_backing_same ctx s') Hb') as Hd'.
    rewrite (device_image _ _ _ Hd'), (device_image _ _ _ Hd); split; [reflexivity | eexists _, _; exact Hd'].
  - eexists; split; [reflexivity |]; intros ctx (img & plain & Hd); exists false; unfold encrypted_size.
    rewrite (device_image _ _ _ Hd); destruct Hd as [_ [[_ _ -> _ _] -> _]]; reflexivity.
  - eexists; split; [reflexivity |]; intros ctx k r ctx' (img & plain & Hd); unfold encrypted_random.
    destruct (backed_random image _ _ k (proj1 Hd)) as (bs & s' & -> & Hb' & Hlen & Hok); intros [= <- <-].
    pose proof (device_moved ctx (set_backing ctx s') img plain Hd (set_backing_same ctx s') Hb') as Hd'.
    rewrite (device_image _ _ _ Hd'), (device_image _ _ _ Hd); split_and!; [reflexivity | eexists _, _; exact Hd' |].
    intros bs' [= <-]; auto.
  - eexists; split; [reflexivity |]; intros ctx (img & plain & Hd); unfold encrypted_time.
    destruct (backed_time image _ _ (proj1 Hd)) as (t & s' & -> & Ht & Hb'); eexists _, _; split; [reflexivity |].
    pose proof (device_moved ctx (set_backing ctx s') img plain Hd (set_backing_same ctx s') Hb') as Hd'.
    rewrite (device_image _ _ _ Hd'), (device_image _ _ _ Hd); split_and!; [exact Ht | reflexivity | eexists _, _; exact Hd'].
  - intros f ctx k [= <-] (img & plain & Hd); unfold encrypted_random.
    destruct (backed_random image _ _ k (proj1 Hd)) as (bs & s' & -> & _); eauto.
  - intros f [= <-]; eexists; split; reflexivity.
  - intros f [= <-]; eexists; split; reflexivity.
Qed.

(** The handle of a device. *)
Definition handle_of (ctx : ctxt) : infs_storage ctxt := Handle (Some (encrypted_ops mallocs)) (Some ctx).

Lemma device_backed (ctx : ctxt) img plain : device ctx img plain -> backed logical_image (handle_of ctx) plain.
Proof.
  intros Hd; exists (encrypted_ops mallocs), ctx, healthy; split_and!; trivial; [apply (device_image _ _ _ Hd) | eexists _, _; exact Hd |].
  exact encrypted_dependable.
Qed.

End Device.

End EncryptedFacts.
