(* ===== verification/EncryptedDomains.v ===== *)
(** Encryption domains.  A call with a policy reads and writes the blocks of an encrypted
    device ([Encrypted.v]) under the key of the policy's domain, so a block shows its
    bytes in the domain it was written in.  Here: what such calls do to the blocks, for
    any sequence of domains. *)

From Stdlib Require Import ZifyBool.
From stdpp Require Import prelude relations.
From S2P Require Import Prelude Endian Checksum Format Storage Objects Locator Discovery Crash FormatVolume FormatPlan.
From S2P Require Import Formatting FreshVolume Encrypted EncryptedDevice.
#[local] Open Scope Z_scope.

Module EncryptedDomainsFacts.
Import Storage StorageFacts Objects ObjectsFacts Locator DiscoveryFacts CrashFacts FormatVolume FormatPlanFacts FormattingFacts
  FreshVolumeFacts Encrypted EncryptedFacts.

(** ** Tables of callbacks *)

Section Tables.
Context {C : Type}.

(** A policy that demands nothing does not change what a call does. *)
Definition tolerant (o : infs_storage_ops C) : Prop :=
  (forall f, read_at_policy o = Some f ->
     exists g, read_at o = Some g /\ forall c off k p, demands p = false -> f c off k p = g c off k) /\
  (forall f, write_at_policy o = Some f ->
     exists g, write_at o = Some g /\ forall c off bs p, demands p = false -> f c off bs p = g c off bs).

(** The policies considered: one without redundant copies, or any where the backend
    knows no policies and refuses those with copies. *)
Definition manageable (o : infs_storage_ops C) (policy : option infs_storage_io_policy) : Prop :=
  demands (backing_policy policy) = false \/ read_at_policy o = None /\ write_at_policy o = None.

Lemma dispatch_ops {F X} (s : infs_storage C) (bad : X) (find : infs_storage_ops C -> option F) call :
  ops (dispatch s bad find call).2 = ops s.
Proof.
  unfold dispatch; destruct (ops s) as [o |] eqn:Ho, (context s); trivial.
  destruct (infs_storage_valid s); trivial; destruct (find o); trivial; destruct (call _ _); exact Ho.
Qed.

Lemma kept_ops {X} (call : X * infs_storage C) r s' o : call = (r, s') -> ops call.2 = o -> ops s' = o.
Proof. intros -> H; exact H. Qed.

Lemma time_ops (s : infs_storage C) : ops (infs_storage_current_time s).2 = ops s.
Proof.
  unfold infs_storage_current_time; pose proof (dispatch_ops s (Bad INVALID_ARGUMENT) current_time (fun f c => f c)) as H.
  destruct (dispatch _ _ _ _) as [[] s1]; exact H.
Qed.

(** The actions that keep the table of the handle. *)
Definition keeps {X} (m : io C X) : Prop := forall s, ops (m s).2 = ops s.

Lemma keeps_pure {X} (r : result X) : keeps (pure r).
Proof. intros s; reflexivity. Qed.

Lemma keeps_bind {X Y} (m : io C X) (f : X -> io C Y) : keeps m -> (forall x, keeps (f x)) -> keeps (m ≫= f).
Proof.
  intros Hm Hf s; unfold mbind, io_bind; specialize (Hm s); destruct (m s) as [[x | e] s1]; [| exact Hm].
  rewrite (Hf x s1); exact Hm.
Qed.

Lemma keeps_checked (call : infs_storage C -> infs_status * infs_storage C) : (forall s, ops (call s).2 = ops s) -> keeps (checked call).
Proof. intros H s; unfold checked; specialize (H s); destruct (call s); exact H. Qed.

End Tables.

(** ** Backends under a policy *)

Section Policies.
Context {C : Type} (image : C -> list Z).

Definition settled (s : infs_storage C) (img : list Z) : Prop :=
  backed image s img /\ exists o, ops s = Some o /\ tolerant o.

Lemma settled_moved s s' img img' : settled s img -> backed image s' img' -> ops s' = ops s -> settled s' img'.
Proof. intros [_ (o & Ho & Ht)] Hb He; split; [exact Hb | exists o; split; [congruence | exact Ht]]. Qed.

Definition managed (s : infs_storage C) (policy : option infs_storage_io_policy) : Prop :=
  forall o, ops s = Some o -> manageable o policy.

Lemma read_with_policy s img off k policy :
  settled s img -> managed s policy ->
  infs_storage_read_policy s off k (backing_policy policy) =
    if demands (backing_policy policy) then (Bad NOT_SUPPORTED, s) else infs_storage_read s off k.
Proof.
  intros [Hb (o & Ho & Ht & _)] Hm; specialize (Hm o Ho); unfold infs_storage_read_policy.
  rewrite (backed_valid image s img Hb), Ho; cbn [negb mbind option_bind].
  destruct (read_at_policy o) as [f |] eqn:Ef; [| reflexivity].
  destruct Hm as [Hd | [Hd _]]; [| congruence]; rewrite Hd; destruct (Ht f eq_refl) as (g & Eg & Hg).
  unfold infs_storage_read, dispatch; rewrite Ho, Ef, Eg; destruct (context s); [rewrite Hg by exact Hd |]; reflexivity.
Qed.

Lemma write_with_policy s img off bs policy :
  settled s img -> managed s policy ->
  infs_storage_write_policy s off bs (backing_policy policy) =
    if demands (backing_policy policy) then (NOT_SUPPORTED, s) else infs_storage_write s off bs.
Proof.
  intros [Hb (o & Ho & _ & Ht)] Hm; specialize (Hm o Ho); unfold infs_storage_write_policy.
  destruct (backed_accepts _ _ _ Hb) as (o' & c & G & Ho' & Hc & _ & _ & Hob); assert (o' = o) as -> by congruence.
  destruct (ob_write _ _ _ Hob) as (w & Ew & _); rewrite (backed_valid image s img Hb), Ho; cbn [negb mbind option_bind]; rewrite Ew.
  destruct (write_at_policy o) as [f |] eqn:Ef; [| reflexivity].
  destruct Hm as [Hd | [_ Hd]]; [| congruence]; rewrite Hd; destruct (Ht f eq_refl) as (g & Eg & Hg).
  unfold infs_storage_write, dispatch; rewrite Ho, Ef, Eg; destruct (context s); [rewrite Hg by exact Hd |]; reflexivity.
Qed.

Lemma settled_read s img off k :
  settled s img -> 0 <= off -> (Z.to_nat off + k <= length img)%nat ->
  exists s', infs_storage_read s off k = (Good (slice (Z.to_nat off) k img), s') /\ settled s' img /\ ops s' = ops s.
Proof.
  intros Hs H0 Hl; destruct (backed_read image s img off k (proj1 Hs) H0 Hl) as (s' & He & Hb).
  pose proof (kept_ops _ _ _ _ He (dispatch_ops _ _ _ _)) as Ho; exists s'; split_and!; trivial; apply (settled_moved s s' img); assumption.
Qed.

Lemma settled_write s img off bs :
  settled s img -> 0 <= off -> (Z.to_nat off + length bs <= length img)%nat ->
  exists s', infs_storage_write s off bs = (OK, s') /\ settled s' (splice (Z.to_nat off) bs img) /\ ops s' = ops s.
Proof.
  intros Hs H0 Hl; destruct (backed_write image s img off bs (proj1 Hs) H0 Hl) as (s' & He & Hb).
  pose proof (kept_ops _ _ _ _ He (dispatch_ops _ _ _ _)) as Ho; exists s'; split_and!; trivial; apply (settled_moved s s' img); assumption.
Qed.

Lemma settled_random s img k :
  settled s img -> exists bs s', infs_storage_random s k = (Good bs, s') /\ settled s' img /\ ops s' = ops s /\ length bs = k.
Proof.
  intros Hs; destruct (backed_random image s img k (proj1 Hs)) as (bs & s' & He & Hb & Hl & _).
  pose proof (kept_ops _ _ _ _ He (dispatch_ops _ _ _ _)) as Ho; exists bs, s'; split_and!; trivial; apply (settled_moved s s' img); assumption.
Qed.

End Policies.

(** ** Blocks in a domain *)

Section Domains.
Context {E : Endian} {Cr : Crypto} {C : Type} (image : C -> list Z) (mallocs : nat -> bool).
Hypothesis Hmemory : forall k, mallocs k = true.
Hypothesis Hcipher : forall key nonce aad plain, length key = 32%nat -> length nonce = 12%nat ->
  exists cipher tag, gcm_encrypt key nonce aad plain = Good (cipher, tag).
#[local] Abbreviation ctxt := (encrypted_context C).

(** What the record of block [i] decrypts to in a domain. *)
Definition open_in (domain : Z) (ctx : ctxt) (img : list Z) (i : Z) : result (list Z) :=
  let r := record_of img i in
  key ← domain_key ctx domain;
  aead_decrypt key (slice 0 12 r) (block_aad ctx i domain) (slice 28 4096 r) (slice 12 16 r).

Lemma open_in_same d (ctx ctx' : ctxt) img i : same_volume ctx ctx' -> open_in d ctx' img i = open_in d ctx img i.
Proof. intros (_ & _ & Hs & Hk); unfold open_in, domain_key, block_aad; rewrite Hs, Hk; reflexivity. Qed.

Lemma open_in_record d (ctx : ctxt) img img' i : record_of img' i = record_of img i -> open_in d ctx img' i = open_in d ctx img i.
Proof. unfold open_in; intros ->; reflexivity. Qed.

Lemma open_in_length d (ctx : ctxt) img i p :
  roomy ctx img -> 0 <= i < logical_blocks ctx -> open_in d ctx img i = Good p -> length p = 4096%nat.
Proof.
  intros [Hb Hr _ _ _] Hi; unfold open_in; destruct (domain_key ctx d) as [key | e]; [| discriminate]; cbn [mbind result_bind].
  unfold aead_decrypt; destruct (_ || _)%bool; [discriminate |]; intros ->%gcm_open_law.
  apply length_slice; unfold record_of; rewrite length_slice by lia; lia.
Qed.

Lemma domain_key_refusal (ctx : ctxt) d : domain_key ctx d <> Bad OK.
Proof. unfold domain_key; destruct (_ =? _); [| destruct (hmac_sha256 _ _); [case_decide |]]; discriminate. Qed.

Lemma open_in_refusal d (ctx : ctxt) img i : open_in d ctx img i <> Bad OK.
Proof.
  unfold open_in; pose proof (domain_key_refusal ctx d) as Hk; destruct (domain_key ctx d); cbn [mbind result_bind]; [| congruence].
  unfold aead_decrypt; destruct (_ || _)%bool; [discriminate | apply gcm_refusal_law].
Qed.

Lemma domain_key_length (ctx : ctxt) d key : length (volume_key ctx) = 32%nat -> domain_key ctx d = Good key -> length key = 32%nat.
Proof.
  intros Hk; unfold domain_key; destruct (_ =? _); [intros [= <-]; exact Hk |].
  destruct (hmac_sha256 _ _) as [mac |]; [| discriminate]; case_decide; [intros [= <-]; assumption | discriminate].
Qed.

Lemma domain_aad_size (ctx : ctxt) i d : length (salt ctx) = 16%nat -> (length (block_aad ctx i d) <= 25)%nat.
Proof. intros Hs; unfold block_aad; rewrite !length_app, Hs, len64; destruct (d =? 0); cbn; lia. Qed.

(** The record of a block, sealed in a domain. *)
Lemma seal_in (ctx : ctxt) d key i nonce p :
  length (volume_key ctx) = 32%nat -> length (salt ctx) = 16%nat -> domain_key ctx d = Good key ->
  length nonce = 12%nat -> length p = 4096%nat ->
  exists cipher tag, aead_encrypt key nonce (block_aad ctx i d) p = Good (cipher, tag) /\
    length (nonce ++ tag ++ cipher) = 4124%nat /\
    forall img, record_of img i = nonce ++ tag ++ cipher -> open_in d ctx img i = Good p.
Proof.
  intros Hv Hs Hk Hn Hp; pose proof (domain_aad_size ctx i d Hs) as Ha; pose proof (domain_key_length ctx d key Hv Hk) as Hkl.
  rewrite aead_encrypt_small by (unfold INT_MAX; lia); destruct (Hcipher _ _ (block_aad ctx i d) p Hkl Hn) as (c & t & He).
  destruct (gcm_size_law _ _ _ _ _ _ He) as [Hc Ht]; exists c, t; split_and!; [exact He | rewrite !length_app; lia |].
  intros img Hr; unfold open_in; rewrite Hr, Hk; cbn [mbind result_bind].
  rewrite slice_app_left by lia; rewrite !slice_app_right by lia; rewrite Hn.
  rewrite (slice_app_left (12 - 12) 16 t c) by lia; rewrite Ht.
  unfold slice; cbn [Nat.sub]; rewrite !drop_0, !take_ge by lia.
  rewrite aead_decrypt_small by (unfold INT_MAX; lia); apply (gcm_inverse_law _ _ _ _ _ _ He).
Qed.

(** What a call keeps: the volume, the table of the backend, the header and the length
    of the medium. *)
Record moved (ctx ctx' : ctxt) (img img' : list Z) : Prop := {
  mv_same : same_volume ctx ctx';
  mv_settled : settled image (backing ctx') img';
  mv_ops : ops (backing ctx') = ops (backing ctx);
  mv_length : length img' = length img;
  mv_header : take 4096 img' = take 4096 img
}.

Lemma moved_trans (ctx1 ctx2 ctx3 : ctxt) img1 img2 img3 :
  moved ctx1 ctx2 img1 img2 -> moved ctx2 ctx3 img2 img3 -> moved ctx1 ctx3 img1 img3.
Proof. intros [] []; split; trivial; [eapply same_trans; eassumption | congruence..]. Qed.

(** A device whose blocks may be in any domain, and a policy for its backend. *)
Record usable (ctx : ctxt) (img : list Z) (policy : option infs_storage_io_policy) : Prop := {
  us_settled : settled image (backing ctx) img;
  us_roomy : roomy ctx img;
  us_managed : managed (backing ctx) policy
}.

Lemma usable_moved (ctx ctx' : ctxt) img img' policy : moved ctx ctx' img img' -> usable ctx img policy -> usable ctx' img' policy.
Proof.
  intros [Hs Hset Ho Hl _] [_ Hr Hm]; split; [exact Hset | apply (same_roomy ctx ctx' img); assumption |].
  unfold managed; rewrite Ho; exact Hm.
Qed.

Lemma moved_refl (ctx : ctxt) img policy : usable ctx img policy -> moved ctx ctx img img.
Proof. intros []; split; trivial; apply same_refl. Qed.

Lemma read_block_in (ctx : ctxt) img policy i :
  usable ctx img policy -> 0 <= i < logical_blocks ctx ->
  exists ctx', encrypted_read_block mallocs ctx i policy =
      (if demands (backing_policy policy) then Bad NOT_SUPPORTED else open_in (policy_domain policy) ctx img i, ctx') /\
    moved ctx ctx' img img.
Proof.
  intros [Hset Hro Hm] Hi; unfold encrypted_read_block; rewrite (record_offset_ok ctx img i Hro Hi).
  unfold malloc; rewrite Hmemory; cbn [negb backing]; rewrite (read_with_policy image _ img) by assumption.
  destruct (demands (backing_policy policy)).
  { eexists; split; [reflexivity |]; split; trivial; split_and!; reflexivity. }
  pose proof (ro_room _ _ Hro) as Hr; change (Z.to_nat ENC_RECORD_BYTES) with 4124%nat.
  destruct (settled_read image (backing ctx) img (4096 + i * 4124) 4124 Hset) as (s' & -> & Hset' & Ho); [lia | lia |].
  eexists; split; [reflexivity |]; split; trivial; split_and!; reflexivity.
Qed.

(** What the write of a block does to the records. *)
Definition wrote_block (ctx : ctxt) (d i : Z) (p img img' : list Z) : Prop :=
  open_in d ctx img' i = Good p /\ forall j, 0 <= j -> j <> i -> record_of img' j = record_of img j.

Lemma write_block_in (ctx : ctxt) img policy i p :
  usable ctx img policy -> 0 <= i < logical_blocks ctx -> length p = 4096%nat ->
  exists e ctx' img', encrypted_write_block mallocs ctx i policy p = (e, ctx') /\ moved ctx ctx' img img' /\
    (e = OK /\ demands (backing_policy policy) = false /\ wrote_block ctx (policy_domain policy) i p img img' \/
     e <> OK /\ img' = img).
Proof.
  intros [Hset Hro Hm] Hi Hp; unfold encrypted_write_block; rewrite (record_offset_ok ctx img i Hro Hi).
  unfold malloc; rewrite Hmemory; cbn [negb backing].
  destruct (settled_random image (backing ctx) img ENC_NONCE_BYTES Hset) as (nonce & s & -> & Hset1 & Ho1 & Hn).
  destruct Hro as [Hpos Hroom Hsize Hkey Hsalt]; set (d := policy_domain policy).
  change (domain_key (Enc _ _ _ _ _ _) d) with (domain_key ctx d); change (block_aad (Enc _ _ _ _ _ _) i d) with (block_aad ctx i d).
  cbn [mbind result_bind]; destruct (domain_key ctx d) as [key | e] eqn:Ek; cbn [mbind result_bind].
  2: { eexists e, _, img; split; [reflexivity |]; split; [split; trivial; split_and!; reflexivity | right; split; [| reflexivity]].
       intros ->; exact (domain_key_refusal ctx d Ek). }
  destruct (seal_in ctx d key i nonce p Hkey Hsalt Ek Hn Hp) as (cipher & tag & -> & Hlen & Hopen); cbn [mbind result_bind mret result_ret].
  rewrite (write_with_policy image s img) by (trivial; unfold managed; rewrite Ho1; exact Hm).
  destruct (demands (backing_policy policy)).
  { eexists NOT_SUPPORTED, _, img; split; [reflexivity |]; split; [split; trivial; split_and!; reflexivity | right; split; [discriminate | reflexivity]]. }
  destruct (settled_write image s img (4096 + i * 4124) (nonce ++ tag ++ cipher) Hset1) as (s' & -> & Hset2 & Ho2); [lia | lia |].
  eexists OK, _, (splice (Z.to_nat (4096 + i * 4124)) (nonce ++ tag ++ cipher) img); split; [reflexivity |]; split; [split | left; split_and!; trivial; split].
  - split_and!; reflexivity.
  - exact Hset2.
  - cbn [set_backing backing]; congruence.
  - apply length_splice; lia.
  - apply take_splice; lia.
  - apply Hopen; rewrite record_splice by lia; apply decide_True; reflexivity.
  - intros j Hj Hne; rewrite record_splice by lia; apply decide_False, Hne.
Qed.

(** ** Bytes in a domain *)

Lemma mapM_app {X Y} (f : X -> option Y) l1 l2 : mapM f (l1 ++ l2) = (x ← mapM f l1; y ← mapM f l2; Some (x ++ y)).
Proof.
  induction l1 as [| a l1 IH]; [cbn; destruct (mapM f l2); reflexivity |]; cbn [app mapM]; rewrite IH.
  destruct (f a); [| reflexivity]; cbn [mbind option_bind]; destruct (mapM f l1); [| reflexivity]; cbn [mbind option_bind].
  destruct (mapM f l2); reflexivity.
Qed.

(** The byte at a position, where the block of it opens in the domain. *)
Definition byte_in (d : Z) (ctx : ctxt) (img : list Z) (q : Z) : option Z :=
  match open_in d ctx img (q / 4096) with Good p => p !! Z.to_nat (q mod 4096) | Bad _ => None end.
Definition bytes_in (d : Z) (ctx : ctxt) (img : list Z) (q : Z) (k : nat) : option (list Z) :=
  mapM (byte_in d ctx img) (seqZ q (Z.of_nat k)).
Definition good {X} (r : result X) : option X := match r with Good x => Some x | Bad _ => None end.

Lemma byte_in_same d (ctx ctx' : ctxt) img q : same_volume ctx ctx' -> byte_in d ctx' img q = byte_in d ctx img q.
Proof. intros Hs; unfold byte_in; rewrite (open_in_same d ctx ctx') by exact Hs; reflexivity. Qed.

Lemma bytes_in_same d (ctx ctx' : ctxt) img q k : same_volume ctx ctx' -> bytes_in d ctx' img q k = bytes_in d ctx img q k.
Proof. intros Hs; unfold bytes_in; apply mapM_ext; intros i; apply byte_in_same, Hs. Qed.

Lemma byte_in_block d (ctx : ctxt) img i j : 0 <= j < 4096 ->
  byte_in d ctx img (i * 4096 + j) = match open_in d ctx img i with Good p => p !! Z.to_nat j | Bad _ => None end.
Proof.
  intros Hj; unfold byte_in; replace ((i * 4096 + j) / 4096) with i by (apply (Z.div_unique_pos _ _ _ j); lia).
  replace ((i * 4096 + j) mod 4096) with j by (apply (Z.mod_unique_pos _ _ i); lia); reflexivity.
Qed.

Lemma bytes_in_app d (ctx : ctxt) img q a b :
  bytes_in d ctx img q (a + b) = (x ← bytes_in d ctx img q a; y ← bytes_in d ctx img (q + Z.of_nat a) b; Some (x ++ y)).
Proof. unfold bytes_in; rewrite Nat2Z.inj_add, seqZ_app by lia; apply mapM_app. Qed.

Lemma bytes_in_spec d (ctx : ctxt) img q k bs :
  bytes_in d ctx img q k = Some bs <-> length bs = k /\ forall j, (j < k)%nat -> byte_in d ctx img (q + Z.of_nat j) = bs !! j.
Proof.
  unfold bytes_in; rewrite mapM_Some, Forall2_same_length_lookup, length_seqZ, Nat2Z.id; split; intros [Hl H]; (split; [lia |]).
  - intros j Hj; destruct (lookup_lt_is_Some_2 bs j ltac:(lia)) as [y Hy]; rewrite Hy.
    apply (H j _ y); [apply lookup_seqZ; lia | exact Hy].
  - intros j x y [-> Hj]%lookup_seqZ Hy; rewrite H by lia; exact Hy.
Qed.

Lemma bytes_in_block d (ctx : ctxt) img i wi k p :
  open_in d ctx img i = Good p -> length p = 4096%nat -> (wi + k <= 4096)%nat ->
  bytes_in d ctx img (i * 4096 + Z.of_nat wi) k = Some (slice wi k p).
Proof.
  intros Ho Hp Hk; apply bytes_in_spec; split; [apply length_slice; lia |]; intros j Hj.
  replace (i * 4096 + Z.of_nat wi + Z.of_nat j) with (i * 4096 + Z.of_nat (wi + j)) by lia.
  rewrite byte_in_block, Ho, Nat2Z.id, lookup_slice, decide_True by lia; reflexivity.
Qed.

Lemma bytes_in_closed d (ctx : ctxt) img i (wi k : nat) e :
  open_in d ctx img i = Bad e -> (wi < 4096)%nat -> bytes_in d ctx img (i * 4096 + Z.of_nat wi) (S k) = None.
Proof. intros Ho Hw; unfold bytes_in; rewrite seqZ_cons by lia; cbn [mapM]; rewrite byte_in_block, Ho by lia; reflexivity. Qed.

(** ** Reading *)

Lemma read_loop_in fuel (ctx : ctxt) img policy offset done size :
  usable ctx img policy -> (size <= fuel)%nat -> 0 <= offset -> 0 <= done -> offset + done + Z.of_nat size <= logical_size ctx ->
  exists r ctx', read_loop mallocs fuel policy offset done size ctx = (r, ctx') /\ moved ctx ctx' img img /\
    good r = if demands (backing_policy policy) && negb (size =? 0)%nat then None
             else bytes_in (policy_domain policy) ctx img (offset + done) size.
Proof.
  revert ctx done size; induction fuel as [| fuel IH]; intros ctx done size Hu Hfuel H0 Hdone Hin;
    (destruct size as [| m]; [eexists _, ctx; split_and!; [reflexivity | exact (moved_refl _ _ _ Hu) | rewrite andb_false_r; reflexivity] |]); [lia |].
  cbn [read_loop]; destruct (piece_ok ctx img offset done (S m)) as (lb & wi & ch & -> & Hlb & Hch & Hwi & Hpos);
    [apply Hu | lia.. |]; cbn [Nat.eqb negb]; rewrite andb_true_r.
  destruct (read_block_in ctx img policy lb Hu Hlb) as (ctx1 & -> & Hm1); pose proof (usable_moved _ _ _ _ _ Hm1 Hu) as Hu1.
  rewrite Hpos; set (rest := (S m - ch)%nat) in *; replace (S m) with (ch + rest)%nat by lia; rewrite bytes_in_app.
  destruct (demands _); [eexists _, ctx1; split_and!; [reflexivity | exact Hm1 | reflexivity] |].
  destruct (open_in (policy_domain policy) ctx img lb) as [p | e] eqn:Ep.
  - rewrite (bytes_in_block _ _ _ _ _ _ p Ep (open_in_length _ _ _ _ _ (us_roomy _ _ _ Hu) Hlb Ep) Hwi).
    destruct (IH ctx1 (done + Z.of_nat ch) rest Hu1) as (r & ctx2 & -> & Hm2 & Hr); try lia.
    { destruct (mv_same _ _ _ _ Hm1) as (_ & -> & _); lia. }
    eexists _, ctx2; split_and!; [reflexivity | exact (moved_trans _ _ _ _ _ _ Hm1 Hm2) |]; cbn [mbind option_bind andb] in *.
    rewrite <- Hpos, <- Z.add_assoc, <- (bytes_in_same _ ctx ctx1) by apply Hm1; rewrite <- Hr; destruct r; reflexivity.
  - eexists _, ctx1; split_and!; [reflexivity | exact Hm1 |]; destruct ch as [| ch]; [lia |].
    rewrite (bytes_in_closed _ _ _ _ _ _ e Ep) by lia; reflexivity.
Qed.

(** Where two media agree on the records, reads agree. *)
Lemma read_loop_agree fuel (ctx ctx2 : ctxt) img img2 policy offset done size :
  usable ctx img policy -> usable ctx2 img2 policy -> same_volume ctx ctx2 ->
  (size <= fuel)%nat -> 0 <= offset -> 0 <= done -> offset + done + Z.of_nat size <= logical_size ctx ->
  (forall i, offset + done < (i + 1) * 4096 -> i * 4096 < offset + done + Z.of_nat size -> record_of img2 i = record_of img i) ->
  (read_loop mallocs fuel policy offset done size ctx2).1 = (read_loop mallocs fuel policy offset done size ctx).1.
Proof.
  revert ctx ctx2 done size; induction fuel as [| fuel IH]; intros ctx ctx2 done size Hu Hu2 Hs Hfuel H0 Hdone Hin Hrec;
    (destruct size as [| m]; [reflexivity |]); [lia |].
  cbn [read_loop]; destruct (piece_ok ctx img offset done (S m)) as (lb & wi & ch & -> & Hlb & Hch & Hwi & Hpos);
    [apply Hu | lia.. |].
  destruct (read_block_in ctx img policy lb Hu Hlb) as (ctx' & -> & Hm1).
  destruct (read_block_in ctx2 img2 policy lb Hu2) as (ctx2' & -> & Hm2); [destruct Hs as (-> & _); exact Hlb |].
  rewrite (open_in_same _ ctx ctx2) by exact Hs; rewrite (open_in_record _ _ img img2) by (apply Hrec; lia).
  destruct (if demands _ then _ else _) as [p | e]; [| reflexivity].
  assert (Hs' : same_volume ctx' ctx2').
  { destruct (mv_same _ _ _ _ Hm1) as (? & ? & ? & ?), (mv_same _ _ _ _ Hm2) as (? & ? & ? & ?), Hs as (? & ? & ? & ?); split_and!; congruence. }
  assert (Hl : offset + (done + Z.of_nat ch) + Z.of_nat (S m - ch) <= logical_size ctx') by (destruct (mv_same _ _ _ _ Hm1) as (_ & -> & _); lia).
  specialize (IH ctx' ctx2' (done + Z.of_nat ch) (S m - ch)%nat (usable_moved _ _ _ _ _ Hm1 Hu) (usable_moved _ _ _ _ _ Hm2 Hu2) Hs'
    ltac:(lia) H0 ltac:(lia) Hl ltac:(intros; apply Hrec; lia)).
  destruct (read_loop _ _ _ _ _ _ ctx2') as [r2 c2], (read_loop _ _ _ _ _ _ ctx') as [r c]; cbn [fst] in *; subst; reflexivity.
Qed.

(** ** Writing *)

(** Every block is as it was, or opens in the domain. *)
Definition touched (ctx : ctxt) (d : Z) (img img' : list Z) : Prop :=
  forall i, 0 <= i -> record_of img' i = record_of img i \/ exists p, open_in d ctx img' i = Good p.

(** The bytes of a range are replaced in the domain, and the blocks outside are as they
    were in every domain. *)
Record wrote (ctx : ctxt) (d q : Z) (bs img img' : list Z) : Prop := {
  wr_bytes x : 0 <= x -> byte_in d ctx img' x =
    if decide (q <= x < q + Z.of_nat (length bs)) then bs !! Z.to_nat (x - q) else byte_in d ctx img x;
  wr_blocks i : 0 <= i -> (i + 1) * 4096 <= q \/ q + Z.of_nat (length bs) <= i * 4096 -> record_of img' i = record_of img i
}.

Lemma touched_trans (ctx ctx1 : ctxt) d img img1 img2 :
  same_volume ctx ctx1 -> touched ctx d img img1 -> touched ctx1 d img1 img2 -> touched ctx d img img2.
Proof.
  intros Hs H1 H2 i Hi; destruct (H2 i Hi) as [He | (p & Hp)].
  - rewrite (open_in_record d ctx img1 img2 i He), He; apply H1, Hi.
  - right; exists p; rewrite <- Hp; symmetry; apply open_in_same, Hs.
Qed.

Lemma wrote_nil (ctx : ctxt) d q img : wrote ctx d q [] img img.
Proof. split; [intros x _; rewrite decide_False by (cbn; lia) |]; reflexivity. Qed.

Lemma wrote_app (ctx ctx1 : ctxt) d q bs bs' img img1 img2 :
  same_volume ctx ctx1 -> 0 <= q -> wrote ctx d q bs img img1 -> wrote ctx1 d (q + Z.of_nat (length bs)) bs' img1 img2 ->
  wrote ctx d q (bs ++ bs') img img2.
Proof.
  intros Hs Hq [B1 R1] [B2 R2]; split; rewrite length_app.
  - intros x Hx; rewrite <- (byte_in_same d ctx ctx1) by exact Hs; rewrite B2 by exact Hx.
    rewrite (byte_in_same d ctx ctx1) by exact Hs; rewrite B1 by exact Hx.
    repeat case_decide; try lia; try reflexivity; [rewrite lookup_app_r by lia; f_equal; lia | rewrite lookup_app_l by lia; reflexivity].
  - intros i Hi Hx; rewrite R2, R1 by lia; reflexivity.
Qed.

Lemma wrote_piece (ctx : ctxt) img img' d lb wi bs block :
  0 <= lb -> (0 < length bs)%nat -> (wi + length bs <= 4096)%nat -> length block = 4096%nat ->
  (open_in d ctx img lb = Good block \/ wi = 0%nat /\ length bs = 4096%nat) ->
  wrote_block ctx d lb (splice wi bs block) img img' -> wrote ctx d (lb * 4096 + Z.of_nat wi) bs img img'.
Proof.
  intros Hlb Hpos Hwi Hbl Hold [Ho Hr]; split; [| intros i Hi Hx; apply Hr; lia]; intros x Hx.
  pose proof (Z.div_mod x 4096 ltac:(lia)) as Hd; pose proof (Z.mod_pos_bound x 4096 ltac:(lia)) as Hb.
  assert (Hi : 0 <= x / 4096) by (apply Z.div_pos; lia); set (i := x / 4096) in *; set (j := x mod 4096) in *.
  replace x with (i * 4096 + j) by lia; rewrite !byte_in_block by lia; destruct (Z.eq_dec i lb) as [-> | Hne].
  - rewrite Ho, lookup_splice by lia; case_decide; case_decide; try lia; [f_equal; lia | ..].
    destruct Hold as [-> | [? ?]]; [reflexivity | lia].
  - rewrite decide_False, (open_in_record _ _ img) by (try apply Hr; lia); reflexivity.
Qed.

Lemma wrote_touched (ctx : ctxt) d i p img img' : wrote_block ctx d i p img img' -> touched ctx d img img'.
Proof. intros [Ho Hr] j Hj; destruct (Z.eq_dec j i) as [-> | Hne]; [right; exists p; exact Ho | left; apply Hr; assumption]. Qed.

Lemma touched_refl (ctx : ctxt) d img : touched ctx d img img.
Proof. left; reflexivity. Qed.

Lemma write_piece_in (ctx : ctxt) img policy lb wi bs :
  usable ctx img policy -> 0 <= lb < logical_blocks ctx -> (0 < length bs)%nat -> (wi + length bs <= 4096)%nat ->
  exists e ctx' img', write_piece mallocs policy lb wi bs ctx = (e, ctx') /\ moved ctx ctx' img img' /\
    touched ctx (policy_domain policy) img img' /\
    (e = OK -> demands (backing_policy policy) = false /\ wrote ctx (policy_domain policy) (lb * 4096 + Z.of_nat wi) bs img img').
Proof.
  intros Hu Hlb Hpos Hwi; unfold write_piece; change (Z.to_nat ENC_LOGICAL_BLOCK) with 4096%nat; set (d := policy_domain policy).
  assert (Hone : forall ctx1 block, moved ctx ctx1 img img -> length block = 4096%nat ->
    (open_in d ctx img lb = Good block \/ wi = 0%nat /\ length bs = 4096%nat) ->
    exists e ctx' img', encrypted_write_block mallocs ctx1 lb policy (splice wi bs block) = (e, ctx') /\ moved ctx ctx' img img' /\
      touched ctx d img img' /\ (e = OK -> demands (backing_policy policy) = false /\ wrote ctx d (lb * 4096 + Z.of_nat wi) bs img img')).
  { intros ctx1 block Hm Hbl Hold; pose proof (mv_same _ _ _ _ Hm) as Hs.
    destruct (write_block_in ctx1 img policy lb (splice wi bs block)) as (e & ctx' & img' & -> & Hm' & Hcase);
      [exact (usable_moved _ _ _ _ _ Hm Hu) | destruct Hs as (-> & _); exact Hlb | rewrite length_splice; lia |].
    exists e, ctx', img'; split_and!; [reflexivity | exact (moved_trans _ _ _ _ _ _ Hm Hm') | |].
    - destruct Hcase as [(_ & _ & Ho & Hr) | [_ ->]]; [| apply touched_refl].
      apply (wrote_touched ctx d lb (splice wi bs block)); split; [rewrite <- (open_in_same d ctx ctx1) by exact Hs; exact Ho | exact Hr].
    - intros ->; destruct Hcase as [(_ & Hd & Ho & Hr) | [[] _]]; [| reflexivity]; split; [exact Hd |].
      apply (wrote_piece ctx img img' d lb wi bs block); trivial; [lia |].
      split; [rewrite <- (open_in_same d ctx ctx1) by exact Hs; exact Ho | exact Hr]. }
  destruct (_ || _)%bool eqn:Ec.
  - destruct (read_block_in ctx img policy lb Hu Hlb) as (ctx1 & -> & Hm1).
    destruct (demands _) eqn:Ed; [| fold d; destruct (open_in d ctx img lb) as [block | e] eqn:Eo].
    + eexists _, ctx1, img; split_and!; [reflexivity | exact Hm1 | apply touched_refl | discriminate].
    + apply Hone; [exact Hm1 | apply (open_in_length d ctx img lb block (us_roomy _ _ _ Hu) Hlb Eo) | left; reflexivity].
    + exists e, ctx1, img; split_and!; [reflexivity | exact Hm1 | apply touched_refl | intros ->; destruct (open_in_refusal d ctx img lb Eo)].
  - apply Hone; [exact (moved_refl _ _ _ Hu) | apply length_replicate | right; lia].
Qed.

Lemma write_loop_in fuel (ctx : ctxt) img policy offset done buffer :
  usable ctx img policy -> (length buffer <= fuel)%nat -> 0 <= offset -> 0 <= done ->
  offset + done + Z.of_nat (length buffer) <= logical_size ctx ->
  exists e ctx' img', write_loop mallocs fuel policy offset done buffer ctx = (e, ctx') /\ moved ctx ctx' img img' /\
    touched ctx (policy_domain policy) img img' /\
    (e = OK -> (buffer = [] \/ demands (backing_policy policy) = false) /\
       wrote ctx (policy_domain policy) (offset + done) buffer img img').
Proof.
  revert ctx img done buffer; induction fuel as [| fuel IH]; intros ctx img done buffer Hu Hfuel H0 Hdone Hin;
    (destruct buffer as [| x buffer];
      [exists OK, ctx, img; split_and!; [reflexivity | exact (moved_refl _ _ _ Hu) | apply touched_refl | auto using wrote_nil] |]);
    [cbn in Hfuel; lia |].
  cbn [write_loop]; set (bs := x :: buffer) in *; assert (Hne : (0 < length bs)%nat) by (cbn; lia).
  destruct (piece_ok ctx img offset done (length bs)) as (lb & wi & ch & -> & Hlb & Hch & Hwi & Hpos); [apply Hu | lia.. |].
  assert (Htl : length (take ch bs) = ch) by (rewrite length_take; lia).
  destruct (write_piece_in ctx img policy lb wi (take ch bs) Hu Hlb) as (e & ctx1 & img1 & -> & Hm1 & Ht1 & Hw1); [lia | lia |].
  case_decide as He; [| exists e, ctx1, img1; split_and!; trivial; intros; contradiction].
  destruct (Hw1 He) as [Hd Hw]; pose proof (mv_same _ _ _ _ Hm1) as Hs; rewrite <- Hpos in Hw.
  destruct (IH ctx1 img1 (done + Z.of_nat ch) (drop ch bs) (usable_moved _ _ _ _ _ Hm1 Hu)) as (e2 & ctx2 & img2 & -> & Hm2 & Ht2 & Hw2);
    [rewrite length_drop; lia | lia | lia | destruct Hs as (_ & -> & _); rewrite length_drop; lia |].
  exists e2, ctx2, img2; split_and!; [reflexivity | exact (moved_trans _ _ _ _ _ _ Hm1 Hm2) | exact (touched_trans _ _ _ _ _ _ Hs Ht1 Ht2) |].
  intros ->; split; [right; exact Hd |]; rewrite <- (take_drop ch bs); apply (wrote_app ctx ctx1 _ _ _ _ _ img1); trivial; [lia |].
  rewrite Htl, <- Z.add_assoc; apply Hw2; reflexivity.
Qed.

(** ** Calls *)

Lemma read_policy_in (ctx : ctxt) img policy off k :
  usable ctx img policy -> 0 <= off ->
  exists r ctx', encrypted_read_policy mallocs ctx off k policy = (r, ctx') /\ moved ctx ctx' img img /\
    good r = if (off + Z.of_nat k >? logical_size ctx) || demands (backing_policy policy) && negb (k =? 0)%nat then None
             else bytes_in (policy_domain policy) ctx img off k.
Proof.
  intros Hu H0; unfold encrypted_read_policy, range_valid; destruct (_ && _)%bool eqn:Ev; cbn [negb].
  - destruct (read_loop_in k ctx img policy off 0 k Hu) as (r & ctx' & -> & Hm & Hr); [lia.. |].
    exists r, ctx'; split_and!; trivial; rewrite Hr, Z.add_0_r; replace (_ >? _) with false by lia; reflexivity.
  - eexists _, ctx; split_and!; [reflexivity | exact (moved_refl _ _ _ Hu) |]; replace (_ >? _) with true by lia; reflexivity.
Qed.

Lemma read_policy_agree (ctx ctx2 : ctxt) img img2 policy off k :
  usable ctx img policy -> usable ctx2 img2 policy -> same_volume ctx ctx2 -> 0 <= off ->
  (forall i, off < (i + 1) * 4096 -> i * 4096 < off + Z.of_nat k -> record_of img2 i = record_of img i) ->
  (encrypted_read_policy mallocs ctx2 off k policy).1 = (encrypted_read_policy mallocs ctx off k policy).1.
Proof.
  intros Hu Hu2 Hs H0 Hrec; unfold encrypted_read_policy, range_valid; pose proof Hs as (_ & -> & _).
  destruct (_ && _)%bool eqn:Ev; cbn [negb]; [| reflexivity].
  apply (read_loop_agree k ctx ctx2 img img2); trivial; [lia.. |]; intros i Hi1 Hi2; apply Hrec; lia.
Qed.

Lemma write_policy_in (ctx : ctxt) img policy off bs :
  usable ctx img policy -> 0 <= off ->
  exists e ctx' img', encrypted_write_policy mallocs ctx off bs policy = (e, ctx') /\ moved ctx ctx' img img' /\
    touched ctx (policy_domain policy) img img' /\
    (e = OK -> off + Z.of_nat (length bs) <= logical_size ctx /\ (bs = [] \/ demands (backing_policy policy) = false) /\
       wrote ctx (policy_domain policy) off bs img img').
Proof.
  intros Hu H0; unfold encrypted_write_policy, range_valid; destruct (_ && _)%bool eqn:Ev; cbn [negb].
  - destruct (write_loop_in (length bs) ctx img policy off 0 bs Hu) as (e & ctx' & img' & -> & Hm & Ht & Hw); [lia.. |].
    exists e, ctx', img'; split_and!; trivial; intros He; destruct (Hw He) as [Hd Hw']; rewrite Z.add_0_r in Hw'; split_and!; trivial; lia.
  - eexists _, ctx, img; split_and!; [reflexivity | exact (moved_refl _ _ _ Hu) | apply touched_refl | discriminate].
Qed.

(** Reading back what was written, in the same domain. *)
Lemma read_written (ctx ctx' : ctxt) img img' policy off bs :
  usable ctx img policy -> 0 <= off -> moved ctx ctx' img img' -> off + Z.of_nat (length bs) <= logical_size ctx ->
  bs = [] \/ demands (backing_policy policy) = false -> wrote ctx (policy_domain policy) off bs img img' ->
  (encrypted_read_policy mallocs ctx' off (length bs) policy).1 = Good bs.
Proof.
  intros Hu H0 Hm Hin Hd [Hw _]; pose proof (mv_same _ _ _ _ Hm) as Hs.
  destruct (read_policy_in ctx' img' policy off (length bs) (usable_moved _ _ _ _ _ Hm Hu) H0) as (r & c & -> & _ & Hr).
  replace (_ && _)%bool with false in Hr by (destruct Hd as [-> | ->]; [rewrite andb_false_r |]; reflexivity).
  replace (_ >? _) with false in Hr by (destruct Hs as (_ & -> & _); lia); cbn [orb fst] in *.
  rewrite (proj2 (bytes_in_spec _ _ _ _ _ bs)) in Hr; [destruct r; cbn [good] in Hr; congruence |].
  split; [reflexivity |]; intros j Hj; rewrite (byte_in_same _ ctx ctx') by exact Hs; rewrite Hw, decide_True by lia; f_equal; lia.
Qed.

(** Reading beside what was written, in the same domain. *)
Lemma read_beside (ctx ctx' : ctxt) img img' policy off bs off' k x :
  usable ctx img policy -> 0 <= off -> 0 <= off' -> moved ctx ctx' img img' -> wrote ctx (policy_domain policy) off bs img img' ->
  off' + Z.of_nat k <= off \/ off + Z.of_nat (length bs) <= off' ->
  (encrypted_read_policy mallocs ctx off' k policy).1 = Good x -> (encrypted_read_policy mallocs ctx' off' k policy).1 = Good x.
Proof.
  intros Hu H0 H0' Hm [Hw _] Hdis Hx; pose proof (mv_same _ _ _ _ Hm) as Hs.
  destruct (read_policy_in ctx img policy off' k Hu H0') as (r & c & E1 & _ & Hr).
  destruct (read_policy_in ctx' img' policy off' k (usable_moved _ _ _ _ _ Hm Hu) H0') as (r' & c' & E2 & _ & Hr').
  rewrite E1 in Hx; rewrite E2; cbn [fst] in *; subst r; replace (logical_size ctx') with (logical_size ctx) in Hr' by (symmetry; apply Hs).
  destruct (_ || _)%bool; [discriminate |]; symmetry in Hr; apply bytes_in_spec in Hr as [Hl Hb].
  rewrite (proj2 (bytes_in_spec _ _ _ _ _ x)) in Hr'; [destruct r'; cbn [good] in Hr'; congruence |].
  split; [exact Hl |]; intros j Hj; rewrite (byte_in_same _ ctx ctx') by exact Hs; rewrite Hw, decide_False by lia; apply Hb, Hj.
Qed.

(** What a successful write with a policy stores, as reads show it: the bytes come back
    with the same policy, so do the bytes beside them that could be read before, and
    reads of other blocks, with any policy, are as they were. *)
Record stores (ctx ctx' : ctxt) (off : Z) (bs : list Z) (policy : option infs_storage_io_policy) : Prop := {
  st_back : (encrypted_read_policy mallocs ctx' off (length bs) policy).1 = Good bs;
  st_beside off' k x :
    0 <= off' -> off' + Z.of_nat k <= off \/ off + Z.of_nat (length bs) <= off' ->
    (encrypted_read_policy mallocs ctx off' k policy).1 = Good x ->
    (encrypted_read_policy mallocs ctx' off' k policy).1 = Good x;
  st_elsewhere off' k policy' :
    0 <= off' -> managed (backing ctx) policy' ->
    off' + Z.of_nat k <= off / 4096 * 4096 \/ (off + Z.of_nat (length bs) + 4095) / 4096 * 4096 <= off' ->
    (encrypted_read_policy mallocs ctx' off' k policy').1 = (encrypted_read_policy mallocs ctx off' k policy').1
}.

Lemma write_stores (ctx ctx' : ctxt) img policy off bs :
  usable ctx img policy -> 0 <= off -> encrypted_write_policy mallocs ctx off bs policy = (OK, ctx') -> stores ctx ctx' off bs policy.
Proof.
  intros Hu H0 He; destruct (write_policy_in ctx img policy off bs Hu H0) as (e & c & img' & E1 & Hm & _ & Hw).
  rewrite He in E1; injection E1 as <- <-; destruct (Hw eq_refl) as (Hin & Hd & Hw'); split.
  - apply (read_written ctx ctx' img img'); assumption.
  - intros off' k x H0' Hdis; apply (read_beside ctx ctx' img img' policy off bs); assumption.
  - intros off' k policy' H0' Hm' Hdis; assert (Hu' : usable ctx img policy') by (destruct Hu; split; assumption).
    apply (read_policy_agree ctx ctx' img img'); trivial; [exact (usable_moved _ _ _ _ _ Hm Hu') | apply Hm |].
    pose proof (Z.div_mod off 4096 ltac:(lia)); pose proof (Z.mod_pos_bound off 4096 ltac:(lia)).
    pose proof (Z.div_mod (off + Z.of_nat (length bs) + 4095) 4096 ltac:(lia)); pose proof (Z.mod_pos_bound (off + Z.of_nat (length bs) + 4095) 4096 ltac:(lia)).
    intros i Hi1 Hi2; apply (wr_blocks _ _ _ _ _ _ Hw'); lia.
Qed.

(** *** The table of the backend *)

Lemma write_policy_ops (s : infs_storage C) off bs policy : ops (infs_storage_write_policy s off bs policy).2 = ops s.
Proof.
  unfold infs_storage_write_policy; destruct (negb _); [reflexivity |]; destruct (_ ≫= write_at); [| reflexivity].
  destruct (_ ≫= write_at_policy); [apply dispatch_ops |]; destruct (demands policy); [reflexivity | apply dispatch_ops].
Qed.

Lemma write_block_ops (ctx : ctxt) i policy p : ops (backing (encrypted_write_block mallocs ctx i policy p).2) = ops (backing ctx).
Proof.
  unfold encrypted_write_block; destruct (record_offset _ _); [| reflexivity]; unfold malloc; rewrite Hmemory; cbn [negb backing].
  destruct (infs_storage_random _ _) as [r s] eqn:Er; pose proof (kept_ops _ _ _ _ Er (dispatch_ops _ _ _ _)) as Hr.
  destruct (_ ≫= _) as [record | e]; [| exact Hr].
  pose proof (write_policy_ops s z record (backing_policy policy)) as Hw.
  destruct (infs_storage_write_policy _ _ _ _) as [e s']; cbn [snd set_backing backing] in *; congruence.
Qed.

Lemma initialise_ops blocks (ctx : ctxt) : ops (backing (initialise mallocs blocks ctx).2) = ops (backing ctx).
Proof.
  revert ctx; induction blocks as [| b blocks IH]; intros ctx; [reflexivity |]; cbn [initialise].
  pose proof (write_block_ops ctx b None (replicate (Z.to_nat ENC_LOGICAL_BLOCK) 0)) as Hw.
  destruct (encrypted_write_block _ _ _ _ _) as [e ctx1]; case_decide; [rewrite IH |]; exact Hw.
Qed.

Lemma keeps_initialise blocks slt key : keeps (initialise_blocks (C := C) mallocs blocks slt key).
Proof.
  intros s; unfold initialise_blocks; set (ctx := Enc _ _ _ _ _ _); pose proof (initialise_ops (range 0 blocks) ctx) as Hi.
  destruct (initialise _ _ _) as [e ctx']; exact Hi.
Qed.

End Domains.

End EncryptedDomainsFacts.
