(* ===== verification/EncryptedOpen.v ===== *)
(** Creating and opening encrypted storage ([Encrypted.v]): a device that was created
    holds zeros, and opening it with its passphrase, after whatever was done to it
    through its handle, in whatever encryption domains, gives a device that reads the
    same. *)

From Stdlib Require Import ZifyBool.
From stdpp Require Import prelude relations.
From S2P Require Import Prelude Endian Checksum Format Storage Objects Locator Discovery Crash FormatVolume FormatPlan.
From S2P Require Import Formatting FreshVolume Encrypted EncryptedDevice EncryptedDomains.
#[local] Open Scope Z_scope.

Module EncryptedOpenFacts.
Import Storage StorageFacts Objects ObjectsFacts Locator DiscoveryFacts CrashFacts FormatVolume FormatPlanFacts FormattingFacts
  FreshVolumeFacts Encrypted EncryptedFacts EncryptedDomainsFacts.

(** ** The header *)

(** The header of a volume whose key [kek] wraps. *)
Definition full_header {E : Endian} (blocks iterations : Z) (salt nonce cipher tag : list Z) : list Z :=
  splice H_OFF_WRAP_TAG tag (splice H_OFF_WRAPPED_KEY cipher (header_fields blocks iterations salt nonce)).

Section Header.
Context {E : Endian} (blocks iterations : Z) (salt nonce cipher tag : list Z).
Hypothesis Hblocks : fits 64 blocks.
Hypothesis Hiter : fits 32 iterations.
Hypothesis Hsalt : chunk 16 salt.
Hypothesis Hnonce : chunk 12 nonce.
Hypothesis Hc : chunk 32 cipher.
Hypothesis Ht : chunk 16 tag.
#[local] Abbreviation h := (full_header blocks iterations salt nonce cipher tag).

Lemma chunk_enc_magic : chunk 8 ENC_MAGIC.
Proof. split; [reflexivity | eval_decide]. Qed.

Ltac header := unfold full_header, header_fields, H_OFF_WRAP_TAG, H_OFF_WRAPPED_KEY, H_OFF_WRAP_NONCE, H_OFF_SALT,
  H_OFF_RESERVED, H_OFF_KDF_ITERATIONS, H_OFF_LOGICAL_BLOCKS, H_OFF_RECORD_BYTES, H_OFF_BLOCK_BYTES, H_OFF_HEADER_BYTES,
  H_OFF_VERSION; change (Z.to_nat ENC_HEADER_BYTES) with INFS_BLOCK_SIZE; pose proof chunk_enc_magic as Hmagic.

Lemma header_wf : wf h.
Proof. header; wf_solve. Qed.

Lemma header_reads :
  slice 0 8 h = ENC_MAGIC /\ le32_at 8 h = ENC_VERSION /\ le32_at 12 h = ENC_HEADER_BYTES /\ le32_at 16 h = ENC_LOGICAL_BLOCK /\
  le32_at 20 h = ENC_RECORD_BYTES /\ le64_at 24 h = blocks /\ le32_at 32 h = iterations /\ le32_at 36 h = 0.
Proof.
  header; split_and!; read_field; try reflexivity; try assumption.
Qed.

Lemma header_parts :
  slice 40 16 h = salt /\ slice 56 12 h = nonce /\ slice 68 32 h = cipher /\ slice 100 16 h = tag /\
  take 68 h = take 68 (header_fields blocks iterations salt nonce) /\
  forallb (Z.eqb 0) (drop 116 h) = true.
Proof.
  assert (Hin : forall k o (b : list Z), (o + k <= 116)%nat -> wf b -> (o + k <= length b)%nat) by (intros k o b ? [-> _]; unfold INFS_BLOCK_SIZE; lia).
  assert (Hhit : forall k o bs (b : list Z), chunk k bs -> (o + k <= 116)%nat -> wf b -> slice o k (splice o bs b) = bs).
  { intros k o bs b [Hk _] Ho Hw; rewrite <- Hk; apply slice_splice_eq; rewrite Hk; apply Hin; assumption. }
  assert (Hd : forall k o bs (b : list Z), chunk k bs -> (o + k <= 116)%nat -> wf b -> drop 116 (splice o bs b) = drop 116 b).
  { intros k o bs b [Hk _] Ho Hw; apply drop_splice; rewrite Hk; [lia | apply Hin; assumption]. }
  assert (Hwf : wf (header_fields blocks iterations salt nonce)) by (header; wf_solve).
  split_and!.
  - header; do 3 (erewrite ObjectsFacts.skip by skip_side); apply Hhit; [exact Hsalt | lia | wf_solve].
  - header; do 2 (erewrite ObjectsFacts.skip by skip_side); apply Hhit; [exact Hnonce | lia | wf_solve].
  - header; erewrite ObjectsFacts.skip by skip_side; apply Hhit; [exact Hc | lia | wf_solve].
  - header; apply Hhit; [exact Ht | lia | wf_solve].
  - destruct Hwf as [Hl Hok]; destruct Hc as [Hcl _]; unfold full_header, H_OFF_WRAP_TAG, H_OFF_WRAPPED_KEY.
    rewrite (take_splice 68 100) by first [lia | rewrite length_splice; rewrite ?Hcl, Hl; unfold INFS_BLOCK_SIZE; lia].
    apply take_splice; [lia | rewrite Hl; unfold INFS_BLOCK_SIZE; lia].
  - header; repeat (erewrite Hd by first [chunk_solve | lia | wf_solve]); reflexivity.
Qed.

Lemma header_accepted : header_refused h = false.
Proof.
  destruct header_reads as (R1 & R2 & R3 & R4 & R5 & _ & _ & R8); destruct header_parts as (_ & _ & _ & _ & _ & Hz).
  unfold header_refused, H_OFF_VERSION, H_OFF_HEADER_BYTES, H_OFF_BLOCK_BYTES, H_OFF_RECORD_BYTES, H_OFF_RESERVED.
  change (H_OFF_WRAP_TAG + ENC_TAG_BYTES)%nat with 116%nat.
  rewrite R1, R2, R3, R4, R5, R8, Hz, bytes_eqb_refl, !Z.eqb_refl; reflexivity.
Qed.

End Header.

(** ** Opening *)

Section Lifecycle.
Context {E : Endian} {Cr : Crypto} {C : Type} (image : C -> list Z) (mallocs lock_init : nat -> bool).
Hypothesis Hmemory : forall k, mallocs k = true.
Hypothesis Hlocks : forall k, lock_init k = true.
Hypothesis Hcipher : forall key nonce aad plain, length key = 32%nat -> length nonce = 12%nat ->
  exists cipher tag, gcm_encrypt key nonce aad plain = Good (cipher, tag).
Context (passphrase : list Z).
Hypothesis Hpass : 0 < Z.of_nat (length passphrase) <= INT_MAX.
#[local] Abbreviation ctxt := (encrypted_context C).

(** The header of the medium wraps the key of the volume under the passphrase. *)
Definition keyed (ctx : ctxt) (img : list Z) : Prop :=
  exists it nonce cipher tag kek,
    100000 <= it <= INT_MAX /\ take 4096 img = full_header (logical_blocks ctx) it (salt ctx) nonce cipher tag /\
    chunk 16 (salt ctx) /\ chunk 12 nonce /\ chunk 32 cipher /\ chunk 16 tag /\
    pbkdf2_hmac_sha256 passphrase (salt ctx) it = Some kek /\
    gcm_encrypt kek nonce (take 68 (header_fields (logical_blocks ctx) it (salt ctx) nonce)) (volume_key ctx) = Good (cipher, tag).

Lemma keyed_moved (ctx ctx' : ctxt) img img' : moved image ctx ctx' img img' -> keyed ctx img -> keyed ctx' img'.
Proof.
  intros [(Hb & _ & Hs & Hk) _ _ _ Ht] (it & nonce & cipher & tag & kek & H); exists it, nonce, cipher, tag, kek.
  rewrite Hb, Hs, Hk, Ht; exact H.
Qed.

Lemma open_geometry (ctx : ctxt) img it :
  roomy ctx img -> 100000 <= it <= INT_MAX -> geometry_refused (logical_blocks ctx) it (Z.of_nat (length img)) = false.
Proof.
  intros [Hb Hr _ _ _] Hit; unfold geometry_refused, ENC_HEADER_BYTES; change ENC_RECORD_BYTES with 4124.
  assert (Hq : logical_blocks ctx <= (2 ^ 64 - 1 - 4096) / 4124) by (apply Z.div_le_lower_bound; lia).
  rewrite !orb_false_iff; lia.
Qed.

(** Opening the medium of a device with the passphrase gives its volume. *)
Lemma open_device (ctx : ctxt) img s :
  roomy ctx img -> keyed ctx img -> settled image s img ->
  exists ctx', infs_storage_encrypted_open mallocs lock_init passphrase false s =
      (Good (handle_of mallocs ctx'), Handle None None) /\
    same_volume ctx ctx' /\ settled image (backing ctx') img /\ ops (backing ctx') = ops s.
Proof.
  intros Hro (it & nonce & cipher & tag & kek & Hit & Hh & Cs & Cn & Cc & Ct & Hkek & Hgcm) Hset.
  pose proof (proj1 Hset) as Hb; pose proof Hro as [Hpos Hroom Hsize Hkey Hsalt].
  assert (Hfb : fits 64 (logical_blocks ctx)) by (unfold fits; lia).
  assert (Hfi : fits 32 it) by (unfold fits, INT_MAX in *; lia).
  destruct (header_reads _ it _ _ _ _ Hfb Hfi Cs Cn Cc Ct) as (_ & _ & _ & _ & _ & R6 & R7 & _).
  destruct (header_parts (logical_blocks ctx) it _ _ _ _ Cs Cn Cc Ct) as (P1 & P2 & P3 & P4 & P5 & _).
  unfold infs_storage_encrypted_open; rewrite (backed_valid image _ _ Hb).
  rewrite bool_decide_false by (intros ->; cbn in Hpass; lia); cbn [negb orb].
  destruct (settled_read image s img 0 4096 Hset) as (s1 & E1 & Hset1 & Ho1); [lia | lia |].
  unfold mbind, io_bind; change (Z.to_nat ENC_HEADER_BYTES) with 4096%nat; change (slice (Z.to_nat 0) 4096 img) with (take 4096 img) in E1; rewrite E1, Hh.
  rewrite header_accepted by assumption; unfold pure at 1.
  destruct (accepts_size image s1 img (backed_accepts _ _ _ (proj1 Hset1))) as (dev & ->).
  unfold H_OFF_LOGICAL_BLOCKS, H_OFF_KDF_ITERATIONS, H_OFF_SALT, H_OFF_WRAP_NONCE, H_OFF_WRAPPED_KEY, H_OFF_WRAP_TAG,
    ENC_SALT_BYTES, ENC_NONCE_BYTES, ENC_KEY_BYTES, ENC_TAG_BYTES.
  rewrite R6, R7, P1, P2, P3, P4, P5, (open_geometry ctx img it Hro Hit); unfold pure, derive_kek.
  replace (_ || _)%bool with false by lia; rewrite Hkek.
  rewrite aead_decrypt_small by (rewrite ?length_take, ?(proj1 Cc); unfold INT_MAX; lia).
  rewrite (gcm_inverse_law _ _ _ _ _ _ Hgcm); unfold encrypted_take_backing; rewrite Hmemory; cbn [negb].
  replace (forallb lock_init _) with true by (symmetry; apply forallb_forall; intros x _; apply Hlocks); cbn [negb].
  rewrite wrap_small by (unfold fits, ENC_LOGICAL_BLOCK; lia); eexists; split; [reflexivity |].
  split_and!; [split_and!; trivial; symmetry; exact Hsize | exact Hset1 | exact Ho1].
Qed.

(** ** Creating *)

Lemma initialise_ok (m : nat) j (ctx : ctxt) img :
  backed image (backing ctx) img -> roomy ctx img -> 0 <= j -> j + Z.of_nat m <= logical_blocks ctx ->
  exists ctx' img', initialise mallocs (seqZ j (Z.of_nat m)) ctx = (OK, ctx') /\ rewritten image ctx ctx' img img' /\
    (forall i, j <= i < j + Z.of_nat m -> open_record ctx img' i = Good (replicate 4096 0)) /\
    (forall i, 0 <= i < j -> record_of img' i = record_of img i).
Proof.
  revert j ctx img; induction m as [| m IH]; intros j ctx img Hb Hro Hj Hm.
  { exists ctx, img; split_and!; [reflexivity | split; trivial; apply same_refl | lia | reflexivity]. }
  rewrite seqZ_cons by lia; cbn [initialise]; change (Z.to_nat ENC_LOGICAL_BLOCK) with 4096%nat.
  destruct (write_block_any image mallocs Hmemory Hcipher ctx img j (replicate 4096 0) Hb Hro) as (ctx1 & img1 & -> & Hrw1 & Ho1 & Hr1);
    [lia | apply length_replicate |]; rewrite decide_True by reflexivity; pose proof Hrw1 as [Hs1 Hb1 Hl1 Ht1].
  replace (Z.pred (Z.of_nat (S m))) with (Z.of_nat m) by lia.
  destruct (IH (Z.succ j) ctx1 img1 Hb1) as (ctx2 & img2 & -> & Hrw2 & Ho2 & Hr2);
    [apply (same_roomy ctx _ img); assumption | lia | destruct Hs1 as (-> & _); lia |].
  exists ctx2, img2; split_and!; [reflexivity | | | ].
  - destruct Hrw2; split; [eapply same_trans; eassumption | assumption | congruence | congruence].
  - intros i Hi; destruct (Z.eq_dec i j) as [-> | Hne].
    + rewrite <- Ho1; unfold open_record; rewrite Hr2 by lia; reflexivity.
    + rewrite <- (same_open ctx ctx1) by exact Hs1; apply Ho2; lia.
  - intros i Hi; rewrite Hr2 by lia; apply Hr1; lia.
Qed.

Lemma initialise_blocks_ok blocks slt key s img :
  backed image s img -> roomy (Enc s blocks (blocks * 4096) slt key 0) img ->
  exists s' img' k, initialise_blocks mallocs blocks slt key s = (Good k, s') /\ backed image s' img' /\
    length img' = length img /\ take 4096 img' = take 4096 img /\
    vault (Enc s' blocks (blocks * 4096) slt key (S k)) img' (replicate (Z.to_nat (blocks * 4096)) 0).
Proof.
  intros Hb Hro; pose proof Hro as [Hpos Hroom _ _ _]; cbn [logical_blocks] in *; unfold initialise_blocks, range.
  rewrite wrap_small by (unfold fits, ENC_LOGICAL_BLOCK; lia); rewrite Z.sub_0_r.
  destruct (initialise_ok (Z.to_nat blocks) 0 (Enc s blocks (blocks * 4096) slt key 0) img Hb Hro) as (ctx' & img' & He & [Hs Hb' Hl Ht] & Ho & _); [lia | cbn; lia |].
  rewrite Z2Nat.id in He, Ho by lia; change ENC_LOGICAL_BLOCK with 4096; rewrite He, decide_True by reflexivity.
  exists (backing ctx'), img', (requests ctx'); split_and!; trivial; split.
  - apply (same_roomy (Enc s blocks (blocks * 4096) slt key 0) _ img); [split_and!; reflexivity | exact Hl | exact Hro].
  - rewrite length_replicate; cbn; lia.
  - intros i Hi; cbn [logical_blocks] in Hi; rewrite slice_replicate by lia.
    rewrite <- (Ho i) by lia; apply same_open; split_and!; reflexivity.
Qed.

(** The key derivation does not fail. *)
Hypothesis Hkdf : forall slt it, exists kek, pbkdf2_hmac_sha256 passphrase slt it = Some kek.

Lemma plan_blocks_ok size :
  8220 <= size < 2 ^ 64 -> exists blocks, plan_blocks size = Good blocks /\ blocks = (size - 4096) / 4124 /\
    0 < blocks /\ 4096 + blocks * 4124 <= size.
Proof.
  intros Hs; exists ((size - 4096) / 4124); unfold plan_blocks, ENC_HEADER_BYTES, ENC_LOGICAL_BLOCK; change ENC_RECORD_BYTES with 4124.
  pose proof (Z.div_mod (size - 4096) 4124 ltac:(lia)); pose proof (Z.mod_pos_bound (size - 4096) 4124 ltac:(lia)).
  assert (Hq : (size - 4096) / 4124 <= (2 ^ 64 - 1) / 4096) by (apply Z.div_le_lower_bound; lia).
  replace (size <? _) with false by lia; replace (_ || _)%bool with false by lia; split_and!; [reflexivity | reflexivity | lia | lia].
Qed.

Lemma create_device s img iterations :
  backed image s img -> 8220 <= Z.of_nat (length img) < 2 ^ 64 -> iterations = 0 \/ 100000 <= iterations <= INT_MAX ->
  exists ctx img', infs_storage_encrypted_format mallocs lock_init passphrase iterations false s =
      (Good (handle_of mallocs ctx), Handle None None) /\
    device image ctx img' (replicate (Z.to_nat ((Z.of_nat (length img) - 4096) / 4124 * 4096)) 0) /\ keyed ctx img'.
Proof.
  intros Hb Hsize Hit; unfold infs_storage_encrypted_format; rewrite (backed_valid image _ _ Hb).
  rewrite bool_decide_false by (intros ->; cbn in Hpass; lia); cbn [negb orb].
  set (it := if iterations =? 0 then _ else _); assert (Hi : 100000 <= it <= INT_MAX).
  { unfold it, INFS_ENCRYPTED_STORAGE_DEFAULT_KDF_ITERATIONS, INT_MAX in *; destruct (Z.eqb_spec iterations 0); lia. }
  replace (_ || _)%bool with false by lia.
  destruct (accepts_size image s img (backed_accepts _ _ _ Hb)) as (dev & ->); unfold pure, mbind, io_bind; cbv beta iota.
  destruct (plan_blocks_ok _ Hsize) as (blocks & -> & <- & Hpos & Hroom).
  destruct (backed_random image s img ENC_SALT_BYTES Hb) as (slt & s1 & -> & Hb1 & Cs & Cs').
  destruct (backed_random image s1 img ENC_NONCE_BYTES Hb1) as (nonce & s2 & -> & Hb2 & Cn & Cn').
  destruct (backed_random image s2 img ENC_KEY_BYTES Hb2) as (key & s3 & -> & Hb3 & Ck & Ck').
  destruct (Hkdf slt it) as (kek & Hkek); unfold derive_kek; replace (_ || _)%bool with false by lia; rewrite Hkek.
  unfold ENC_SALT_BYTES, ENC_NONCE_BYTES, ENC_KEY_BYTES in *.
  destruct (Hcipher kek nonce (take 68 (header_fields blocks it slt nonce)) key (pbkdf2_law _ _ _ _ Hkek) Cn) as (cipher & tag & Hg).
  unfold H_OFF_WRAPPED_KEY at 1; rewrite aead_encrypt_small by (rewrite ?length_take, ?Ck; unfold INT_MAX; lia); rewrite Hg.
  destruct (gcm_size_law _ _ _ _ _ _ Hg) as [Hcl Htl]; destruct (gcm_bytes_law _ _ _ _ _ _ Hg Ck') as [Hcb Htb].
  change (splice H_OFF_WRAP_TAG tag _) with (full_header blocks it slt nonce cipher tag).
  assert (Hw : wf (full_header blocks it slt nonce cipher tag)) by (apply header_wf; split; trivial; congruence).
  destruct Hw as [Hwl _]; destruct (backed_write image s3 img 0 (full_header blocks it slt nonce cipher tag) Hb3) as (s4 & E4 & Hb4);
    [lia | rewrite Hwl; unfold INFS_BLOCK_SIZE; lia |]; unfold checked at 1; rewrite E4, decide_True by reflexivity.
  change (Z.to_nat 0) with 0%nat in Hb4.
  assert (Hl4 : length (splice 0 (full_header blocks it slt nonce cipher tag) img) = length img)
    by (apply length_splice; rewrite Hwl; unfold INFS_BLOCK_SIZE; lia).
  destruct (initialise_blocks_ok blocks slt key s4 _ Hb4) as (s5 & img5 & k & -> & Hb5 & Hl5 & Ht5 & Hv5);
    [split; cbn [logical_blocks logical_size volume_key salt]; rewrite ?Hl4; trivial; lia |].
  unfold checked; destruct (backed_flush image s5 img5 Hb5) as (s6 & -> & Hb6); rewrite decide_True by reflexivity.
  unfold encrypted_take_backing; rewrite Hmemory; cbn [negb].
  replace (forallb lock_init _) with true by (symmetry; apply forallb_forall; intros x _; apply Hlocks); cbn [negb].
  rewrite wrap_small by (unfold fits, ENC_LOGICAL_BLOCK; lia); change ENC_LOGICAL_BLOCK with 4096.
  eexists _, img5; split_and!; [reflexivity | split; [exact Hb6 | eapply vault_same; [| exact Hv5]; split_and!; reflexivity] |].
  exists it, nonce, cipher, tag, kek; cbn [logical_blocks salt volume_key].
  split_and!; trivial; try lia; try congruence; [| (split; [congruence | assumption]) ..].
  rewrite Ht5; change 4096%nat with INFS_BLOCK_SIZE; rewrite <- Hwl at 1.
  exact (slice_splice_eq 0 _ img ltac:(rewrite Hwl; unfold INFS_BLOCK_SIZE; lia)).
Qed.

(** The handle that comes back has the table of the caller's backend. *)
Definition hands (m : io C (infs_storage ctxt)) : Prop :=
  forall s h s', m s = (Good h, s') -> exists ctx, context h = Some ctx /\ ops (backing ctx) = ops s.

Lemma hands_bind {X} (m : io C X) f : keeps m -> (forall x, hands (f x)) -> hands (m ≫= f).
Proof.
  intros Hm Hf s h s'; unfold mbind, io_bind; specialize (Hm s); destruct (m s) as [[x | e] s1]; [| discriminate].
  intros (ctx & Hc & Ho)%Hf; exists ctx; split; [exact Hc | rewrite Ho; exact Hm].
Qed.

Lemma format_hands iterations : hands (infs_storage_encrypted_format mallocs lock_init passphrase iterations false).
Proof.
  intros s h s'; unfold infs_storage_encrypted_format; destruct (_ || _)%bool; [discriminate |].
  destruct (_ || _)%bool; [discriminate |]; revert h s'; generalize (infs_storage_get_size s); intros size h s'.
  apply hands_bind; [apply keeps_pure | intros [physical dev]].
  apply hands_bind; [apply keeps_pure | intros blocks].
  do 3 (apply hands_bind; [intros s1; apply dispatch_ops | intros ?]).
  apply hands_bind; [apply keeps_pure | intros kek].
  apply hands_bind; [apply keeps_pure | intros [cipher tag]].
  apply hands_bind; [apply keeps_checked; intros s1; apply dispatch_ops | intros _].
  apply hands_bind; [apply keeps_initialise, Hmemory | intros request].
  apply hands_bind; [apply keeps_checked; intros s1; apply dispatch_ops | intros _]; intros s1 h1 s1'.
  unfold encrypted_take_backing; destruct (negb _); [discriminate |]; destruct (negb _); [discriminate |].
  intros [= <- <-]; eexists; split; reflexivity.
Qed.

(** ** Use *)

(** A call through the handle, with whatever policy the backend can manage, whether it
    succeeds or not. *)
Inductive enc_step (ctx : ctxt) : ctxt -> Prop :=
| Reads off k policy : 0 <= off -> managed (backing ctx) policy -> enc_step ctx (encrypted_read_policy mallocs ctx off k policy).2
| Writes off bs policy : 0 <= off -> managed (backing ctx) policy -> enc_step ctx (encrypted_write_policy mallocs ctx off bs policy).2
| Flushes : enc_step ctx (encrypted_flush ctx).2
| Draws k : enc_step ctx (encrypted_random ctx k).2
| Tells : enc_step ctx (encrypted_time ctx).2.

(** A device whose header is in order and whose blocks open, each in some domain. *)
Record held (ctx : ctxt) (img : list Z) : Prop := {
  he_settled : settled image (backing ctx) img;
  he_roomy : roomy ctx img;
  he_keyed : keyed ctx img;
  he_open i : 0 <= i < logical_blocks ctx -> exists d p, open_in d ctx img i = Good p
}.

Lemma held_usable (ctx : ctxt) img policy : held ctx img -> managed (backing ctx) policy -> usable image ctx img policy.
Proof. intros [] Hm; split; assumption. Qed.

Lemma held_moved d (ctx ctx' : ctxt) img img' : held ctx img -> moved image ctx ctx' img img' -> touched ctx d img img' -> held ctx' img'.
Proof.
  intros [Hset Hro Hk Ho] Hm Ht; pose proof (mv_same _ _ _ _ _ Hm) as Hs; split.
  - apply Hm.
  - apply (same_roomy ctx ctx' img); [exact Hs | apply Hm | exact Hro].
  - exact (keyed_moved ctx ctx' img img' Hm Hk).
  - intros i Hi; replace (logical_blocks ctx') with (logical_blocks ctx) in Hi by (symmetry; apply Hs).
    destruct (Ht i (proj1 Hi)) as [He | (p & Hp)]; [destruct (Ho i Hi) as (d' & p & Hp); exists d', p | exists d, p];
      rewrite (open_in_same _ ctx ctx') by exact Hs; [rewrite (open_in_record _ _ img img') by exact He |]; exact Hp.
Qed.

Lemma held_backing (ctx : ctxt) img s : held ctx img -> backed image s img -> ops s = ops (backing ctx) -> held (set_backing ctx s) img.
Proof.
  intros Hh Hb Ho; apply (held_moved 0 ctx _ img img Hh); [split; trivial; [apply set_backing_same |] | apply touched_refl].
  apply (settled_moved image (backing ctx) s img); trivial; apply Hh.
Qed.

Lemma step_held (ctx ctx' : ctxt) img : held ctx img -> enc_step ctx ctx' -> exists img', held ctx' img'.
Proof.
  intros Hh [off k policy H0 Hm | off bs policy H0 Hm | | k |].
  - destruct (read_policy_in image mallocs Hmemory ctx img policy off k (held_usable _ _ _ Hh Hm) H0) as (r & ctx1 & -> & Hmv & _).
    exists img; exact (held_moved 0 _ _ _ _ Hh Hmv (touched_refl _ _ _)).
  - destruct (write_policy_in image mallocs Hmemory Hcipher ctx img policy off bs (held_usable _ _ _ Hh Hm) H0) as (e & ctx1 & img1 & -> & Hmv & Ht & _).
    exists img1; exact (held_moved _ _ _ _ _ Hh Hmv Ht).
  - unfold encrypted_flush; destruct (backed_flush image _ _ (proj1 (he_settled _ _ Hh))) as (s & E1 & Hb).
    pose proof (kept_ops _ _ _ _ E1 (dispatch_ops _ _ _ _)) as Ho; rewrite E1; exists img; exact (held_backing _ _ _ Hh Hb Ho).
  - unfold encrypted_random; destruct (backed_random image _ _ k (proj1 (he_settled _ _ Hh))) as (r & s & E1 & Hb & _).
    pose proof (kept_ops _ _ _ _ E1 (dispatch_ops _ _ _ _)) as Ho; rewrite E1; exists img; exact (held_backing _ _ _ Hh Hb Ho).
  - unfold encrypted_time; destruct (backed_time image _ _ (proj1 (he_settled _ _ Hh))) as (r & s & E1 & _ & Hb).
    pose proof (kept_ops _ _ _ _ E1 (time_ops _)) as Ho; rewrite E1; exists img; exact (held_backing _ _ _ Hh Hb Ho).
Qed.

Lemma steps_held (ctx ctx' : ctxt) : rtc enc_step ctx ctx' -> forall img, held ctx img -> exists img', held ctx' img'.
Proof.
  induction 1 as [| ? ? ? H1 _ IH]; intros img H; [exists img; exact H |].
  destruct (step_held _ _ _ H H1) as (img1 & H2); exact (IH img1 H2).
Qed.

Lemma create_held s img iterations :
  settled image s img -> 8220 <= Z.of_nat (length img) < 2 ^ 64 -> iterations = 0 \/ 100000 <= iterations <= INT_MAX ->
  exists ctx img', infs_storage_encrypted_format mallocs lock_init passphrase iterations false s =
      (Good (handle_of mallocs ctx), Handle None None) /\
    logical_image image ctx = replicate (Z.to_nat ((Z.of_nat (length img) - 4096) / 4124 * 4096)) 0 /\ held ctx img'.
Proof.
  intros Hs Hsize Hit; destruct (create_device s img iterations (proj1 Hs) Hsize Hit) as (ctx & img' & He & Hd & Hk).
  destruct (format_hands iterations s _ _ He) as (ctx1 & [= <-] & Ho); pose proof Hd as [Hb [Hro _ Hop]].
  exists ctx, img'; split_and!; [exact He | exact (device_image image ctx img' _ Hd) |]; split; trivial.
  - exact (settled_moved image s (backing ctx) img img' Hs Hb Ho).
  - intros i Hi; exists 0; eexists; exact (Hop i Hi).
Qed.

(** C13.  An encrypted device keeps what is written to it, in every encryption domain.
    Creating one on a medium of at least 8220 bytes succeeds and gives a device of zeros.
    After any calls through its handle, in range or not, successful or not, with or
    without policies of any domains: every block can be read in some domain; a further
    write that succeeds is read back with its policy, bytes beside it that could be read
    with that policy are kept, and reads of other blocks with any policy do not change;
    and opening the medium again with the passphrase gives a device with the same key
    on which every read has the result, bytes or error, it has on the old one.  Assumed:
    the backend does what it is asked, treats a call whose policy demands nothing like
    one without a policy, and, if a policy demands redundant copies, knows no policies;
    memory and locks are granted; the cipher and the derivation of the key from the
    passphrase do not fail. *)
Theorem encrypted_device_reopens s img iterations :
  settled image s img -> 8220 <= Z.of_nat (length img) < 2 ^ 64 -> iterations = 0 \/ 100000 <= iterations <= INT_MAX ->
  exists ctx, infs_storage_encrypted_format mallocs lock_init passphrase iterations false s =
      (Good (handle_of mallocs ctx), Handle None None) /\
    logical_image image ctx = replicate (Z.to_nat ((Z.of_nat (length img) - 4096) / 4124 * 4096)) 0 /\
    forall ctx1, rtc enc_step ctx ctx1 -> exists img1, settled image (backing ctx1) img1 /\
      (forall i, 0 <= i < logical_blocks ctx1 -> exists d p, open_in d ctx1 img1 i = Good p) /\
      (forall off bs policy ctx2, 0 <= off -> managed (backing ctx1) policy ->
         encrypted_write_policy mallocs ctx1 off bs policy = (OK, ctx2) -> stores mallocs ctx1 ctx2 off bs policy) /\
      (forall s1, settled image s1 img1 ->
         exists ctx2, infs_storage_encrypted_open mallocs lock_init passphrase false s1 =
             (Good (handle_of mallocs ctx2), Handle None None) /\
           volume_key ctx2 = volume_key ctx1 /\
           forall off k policy, 0 <= off -> managed (backing ctx1) policy -> managed s1 policy ->
             (encrypted_read_policy mallocs ctx2 off k policy).1 = (encrypted_read_policy mallocs ctx1 off k policy).1).
Proof.
  intros Hs Hsize Hit; destruct (create_held s img iterations Hs Hsize Hit) as (ctx & img' & He & Hz & Hh).
  exists ctx; split_and!; [exact He | exact Hz |]; intros ctx1 Hsteps.
  destruct (steps_held ctx ctx1 Hsteps img' Hh) as (img1 & Hh1); exists img1; split_and!; [apply Hh1 | apply Hh1 | |].
  - intros off bs policy ctx2 H0 Hm Hw; apply (write_stores image mallocs Hmemory Hcipher ctx1 ctx2 img1); trivial.
    apply held_usable; assumption.
  - intros s1 Hs1; destruct (open_device ctx1 img1 s1 (he_roomy _ _ Hh1) (he_keyed _ _ Hh1) Hs1) as (ctx2 & E2 & Hsame & Hset2 & Ho2).
    exists ctx2; split_and!; [exact E2 | apply Hsame |]; intros off k policy H0 Hm1 Hm2.
    apply (read_policy_agree image mallocs Hmemory ctx1 ctx2 img1 img1); trivial; [apply held_usable; assumption |].
    split; [exact Hset2 | apply (same_roomy ctx1 ctx2 img1); [exact Hsame | reflexivity | apply Hh1] | unfold managed; rewrite Ho2; exact Hm2].
Qed.

End Lifecycle.

(** ** The contract *)

Section Contract.
Context {E : Endian} {Cr : Crypto} {C : Type} (image : C -> list Z) (mallocs : nat -> bool).
Hypothesis Hmemory : forall k, mallocs k = true.
Hypothesis Hcipher : forall key nonce aad plain, length key = 32%nat -> length nonce = 12%nat ->
  exists cipher tag, gcm_encrypt key nonce aad plain = Good (cipher, tag).

(** C14.  Encrypted storage is storage.  Through the handle of a device that decrypts to
    [plain], a read inside it returns the bytes of [plain] there and changes no block of
    the medium, a write inside it replaces exactly those bytes of [plain] and keeps the
    header, the key and the size, anything that reaches outside is refused with an I/O
    error and changes nothing, and the handle offers all that formatting and mounting
    ask of storage.  Memory is granted and the cipher does not fail. *)
Theorem encrypted_storage_contract (ctx : encrypted_context C) img plain :
  device image ctx img plain ->
  (forall off k, 0 <= off -> (Z.to_nat off + k <= length plain)%nat ->
     exists ctx', infs_storage_read (handle_of mallocs ctx) off k = (Good (slice (Z.to_nat off) k plain), handle_of mallocs ctx') /\
       same_volume ctx ctx' /\ device image ctx' img plain) /\
  (forall off bs, 0 <= off -> (Z.to_nat off + length bs <= length plain)%nat ->
     exists ctx' img', infs_storage_write (handle_of mallocs ctx) off bs = (OK, handle_of mallocs ctx') /\
       same_volume ctx ctx' /\ take 4096 img' = take 4096 img /\ device image ctx' img' (splice (Z.to_nat off) bs plain)) /\
  (forall off bs k, 0 <= off -> length bs = k -> Z.of_nat (length plain) < off + Z.of_nat k ->
     infs_storage_read (handle_of mallocs ctx) off k = (Bad IO_ERROR, handle_of mallocs ctx) /\
     infs_storage_write (handle_of mallocs ctx) off bs = (IO_ERROR, handle_of mallocs ctx)) /\
  accepts (logical_image image) (handle_of mallocs ctx) plain.
Proof.
  intros Hd; pose proof (backed_accepts _ _ _ (device_backed image mallocs Hmemory Hcipher ctx img plain Hd)) as Ha; split_and!; trivial.
  - intros off k H0 Hin; destruct (read_ok_device image mallocs Hmemory ctx img plain off k Hd H0 Hin) as (ctx' & He & Hs).
    exists ctx'; split; [exact (dispatch_call _ _ _ _ _ _ _ _ _ _ _ Ha eq_refl eq_refl eq_refl He) | exact Hs].
  - intros off bs H0 Hin; destruct (write_ok_device image mallocs Hmemory Hcipher ctx img plain off bs Hd H0 Hin) as (ctx' & img' & He & [Hs _ _ Ht] & Hd').
    exists ctx', img'; split_and!; trivial; exact (dispatch_call _ _ _ _ _ _ _ _ _ _ _ Ha eq_refl eq_refl eq_refl He).
  - intros off bs k H0 Hk Hout; destruct (outside_refused image mallocs ctx img plain off k None Hd Hout H0) as [Hr Hw].
    split; [exact (dispatch_call _ _ _ _ _ _ _ _ _ _ _ Ha eq_refl eq_refl eq_refl Hr) |].
    exact (dispatch_call _ _ _ _ _ _ _ _ _ _ _ Ha eq_refl eq_refl eq_refl (Hw bs Hk)).
Qed.

End Contract.

(** ** A device in memory *)

(** A cipher that leaves the text as it is, and a key of ones for every passphrase. *)
#[refine] Definition plain_crypto : Crypto := {|
  pbkdf2_hmac_sha256 := fun _ _ _ => Some (replicate 32 1);
  hmac_sha256 := fun _ _ => Some (replicate 32 2);
  gcm_encrypt := fun _ _ _ text => Good (text, replicate 16 0);
  gcm_decrypt := fun _ _ _ text _ => Good text
|}.
Proof.
  - intros pass slt it kek [= <-]; reflexivity.
  - intros key nonce aad text cipher tag [= <- <-]; split; reflexivity.
  - intros key nonce aad text cipher tag [= <- <-] H; split; [exact H |].
    apply (bytes_ok_replicate 16 0); unfold fits; lia.
  - intros key nonce aad text cipher tag [= <- <-]; reflexivity.
  - intros key nonce aad cipher tag text [= <-]; reflexivity.
  - discriminate.
Defined.

Lemma plain_cipher key nonce aad text : length key = 32%nat -> length nonce = 12%nat ->
  exists cipher tag, @gcm_encrypt plain_crypto key nonce aad text = Good (cipher, tag).
Proof. intros _ _; eexists _, _; reflexivity. Qed.

Lemma device_storage_backed img k : backed contents (device_storage img k) img.
Proof.
  exists device_ops, (Device img k), (fun _ => True); split_and!; trivial; split; [| | discriminate..].
  - apply device_ops_obliging.
  - intros f c n [= <-] _; eexists _, _; reflexivity.
Qed.

Lemma device_storage_settled img k : settled contents (device_storage img k) img.
Proof. split; [apply device_storage_backed | exists device_ops; split; [reflexivity | split; discriminate]]. Qed.

(** A medium with room for two blocks. *)
Definition small : list Z := replicate (4096 + 2 * 4124) 0.

Section Witnesses.
#[local] Existing Instance reference_endian.
#[local] Existing Instance plain_crypto.
#[local] Abbreviation granted := (fun _ : nat => true).

Lemma small_length : 8220 <= Z.of_nat (length small) < 2 ^ 64.
Proof. unfold small; rewrite length_replicate; lia. Qed.

Lemma short_passphrase : 0 < Z.of_nat (length [112]) <= INT_MAX.
Proof. unfold INT_MAX; cbn [length]; lia. Qed.

Lemma small_device : exists ctx img,
  infs_storage_encrypted_format granted granted [112] 100000 false (device_storage small 1) =
    (Good (handle_of granted ctx), Handle None None) /\ device contents ctx img (replicate (2 * 4096) 0).
Proof.
  destruct (create_device contents granted granted (fun _ => eq_refl) (fun _ => eq_refl) plain_cipher [112] short_passphrase)
    with (s := device_storage small 1) (img := small) (iterations := 100000) as (ctx & img & He & Hd & _).
  - intros slt it; eexists; reflexivity.
  - apply device_storage_backed.
  - apply small_length.
  - right; unfold INT_MAX; lia.
  - exists ctx, img; split; [exact He |].
    replace (2 * 4096)%nat with (Z.to_nat ((Z.of_nat (length small) - 4096) / 4124 * 4096)); [exact Hd |].
    unfold small; rewrite length_replicate; reflexivity.
Qed.

(** The device of two blocks, and two writes to it: across both blocks without a policy,
    then of the whole second block in domain 7. *)
Definition made : encrypted_context FreshVolumeFacts.device :=
  match (infs_storage_encrypted_format granted granted [112] 100000 false (device_storage small 1)).1 with
  | Good h => default (Enc (Handle None None) 0 0 [] [] 0) (context h)
  | Bad _ => Enc (Handle None None) 0 0 [] [] 0
  end.
Definition seven : option infs_storage_io_policy := Some (Policy [] 0 7).
Definition made1 : encrypted_context FreshVolumeFacts.device := (encrypted_write_policy granted made 4095 [7; 8] None).2.
Definition made2 : encrypted_context FreshVolumeFacts.device := (encrypted_write_policy granted made1 4096 (replicate 4096 9) seven).2.

Lemma made_written :
  encrypted_write_policy granted made 4095 [7; 8] None = (OK, made1) /\
  encrypted_write_policy granted made1 4096 (replicate 4096 9) seven = (OK, made2).
Proof.
  assert (H : (encrypted_write_policy granted made 4095 [7; 8] None).1 = OK /\
              (encrypted_write_policy granted made1 4096 (replicate 4096 9) seven).1 = OK) by (vm_compute; split; reflexivity).
  unfold made1 at 1, made2; destruct H as [H1 H2]; rewrite (surjective_pairing (encrypted_write_policy _ made _ _ _)) at 1.
  rewrite (surjective_pairing (encrypted_write_policy _ made1 _ _ _)) at 1; rewrite H1, H2; split; reflexivity.
Qed.

Lemma encrypted_device_reopens_witness :
  infs_storage_encrypted_format granted granted [112] 100000 false (device_storage small 1) =
    (Good (handle_of granted made), Handle None None) /\
  (encrypted_read_policy granted made1 4095 2 None).1 = Good [7; 8] /\
  (encrypted_read_policy granted made2 4096 4096 seven).1 = Good (replicate 4096 9) /\
  exists img2, forall s2, settled contents s2 img2 ->
    exists ctx, infs_storage_encrypted_open granted granted [112] false s2 = (Good (handle_of granted ctx), Handle None None) /\
      volume_key ctx = volume_key made2.
Proof.
  destruct (encrypted_device_reopens contents granted granted (fun _ => eq_refl) (fun _ => eq_refl) plain_cipher [112])
    with (s := device_storage small 1) (img := small) (iterations := 100000) as (ctx & He & Hz & Hall).
  - apply short_passphrase.
  - intros slt it; eexists; reflexivity.
  - apply device_storage_settled.
  - apply small_length.
  - right; split; [reflexivity | discriminate].
  - assert (ctx = made) as -> by (unfold made; rewrite He; reflexivity); destruct made_written as [W1 W2].
    assert (H1 : rtc (enc_step granted) made made1) by (apply rtc_once; apply Writes; [lia | left; reflexivity]).
    assert (H2 : rtc (enc_step granted) made made2) by (eapply rtc_r; [exact H1 |]; apply Writes; [lia | left; reflexivity]).
    destruct (Hall made (rtc_refl _ _)) as (img0 & _ & _ & Hs0 & _); destruct (Hall made1 H1) as (img1 & _ & _ & Hs1 & _).
    destruct (Hall made2 H2) as (img2 & _ & _ & _ & Hopen); split_and!; [exact He | | |].
    + exact (st_back _ _ _ _ _ _ (Hs0 4095 [7; 8] None made1 ltac:(lia) ltac:(left; reflexivity) W1)).
    + change 4096%nat with (length (replicate 4096 9)) at 1; refine (st_back _ _ _ _ _ _ (Hs1 4096 (replicate 4096 9) seven made2 _ _ W2));
        [lia | left; reflexivity].
    + exists img2; intros s2 Hset; destruct (Hopen s2 Hset) as (ctx & Eo & Hk & _); exists ctx; split; [exact Eo | exact Hk].
Defined.

Lemma encrypted_storage_contract_witness :
  exists ctx, infs_storage_encrypted_format granted granted [112] 100000 false (device_storage small 1) =
      (Good (handle_of granted ctx), Handle None None) /\
    exists ctx' img', infs_storage_write (handle_of granted ctx) 4095 [7; 8] = (OK, handle_of granted ctx') /\
      device contents ctx' img' (splice 4095 [7; 8] (replicate (2 * 4096) 0)).
Proof.
  destruct small_device as (ctx & img & He & Hd); exists ctx; split; [exact He |].
  destruct (proj1 (proj2 (encrypted_storage_contract contents granted (fun _ => eq_refl) plain_cipher ctx img _ Hd)) 4095 [7; 8])
    as (ctx' & img' & Hw & _ & _ & Hd'); [lia | rewrite length_replicate; cbn [length]; lia |].
  exists ctx', img'; split; [exact Hw |]; change 4095%nat with (Z.to_nat 4095); exact Hd'.
Defined.

End Witnesses.

End EncryptedOpenFacts.
